(* ===== verification/_CoqProject ===== *)
-Q . S2P
Prelude.v
GoLib.v
MrTypes.v
Coordinator.v
CoordinatorInv.v
JobBoard.v
CoordinatorTheorems.v
CoordinatorTyping.v
Worker.v
JsonCodec.v
WorkerFacts.v
Mrapps.v
Nparallel.v
Sequential.v
WorkerTheorems.v
MrSystem.v
MrSystemInv.v
MrRun.v
MrProgress.v
MrTheorems.v
Bitset.v
PorcList.v
Porcupine.v
PorcSearch.v
PorcLink.v
PorcCorrect.v
PorcLinear.v
PorcOps.v
PorcPartial.v
PorcPrefix.v
PorcCheck.v
PorcEvents.v
Longest.v
Visualization.v
VisLayout.v
VisScan.v
VisSpec.v
VisUndefined.v
VisSolve.v
VisDraw.v
VisDrawFacts.v
VisPage.v
VisPageFacts.v
VisRender.v
VisCanvas.v
PorcKv.v
PorcTheorems.v
VisTheorems.v
Labrpc.v
LabrpcInv.v
LabrpcTheorems.v
Labgob.v
Persister.v
LabTheorems.v
RaftHarness.v
RaftHarnessFacts.v
RaftSnapshots.v
Randstring.v
TestNet.v
RaftConfig.v
RaftConfigInv.v
SavedState.v
RaftConfigKeep.v
ServiceConfig.v
ServiceFacts.v
ServiceInv.v
KvConfig.v
Clerks.v
ClerksFacts.v
CtrlConfig.v
ShardConfig.v
ShardInv.v
ShardTheorems.v
ServiceTheorems.v
HarnessTheorems.v
Skeletons.v
Commands.v
