(* ===== verification/Prelude.v ===== *)
(** * MapReduce in Go, and the libraries it ships with: a verification development

    The repository holds a distributed MapReduce (src/src/mr, src/src/mrapps,
    src/src/main), a linearizability checker (src/src/porcupine, src/src/models), and
    the framework for Raft, key/value and sharding services: a simulated network
    (src/src/labrpc), an encoder with warnings (src/src/labgob), persistent state
    (src/src/raft/persister.go), the configurations of the tests
    (src/src/raft/config.go, src/src/kvraft/config.go, src/src/shardctrler/config.go,
    src/src/shardkv/config.go) and the clerks of the sharded services. The Raft and
    key/value servers themselves are skeletons with empty handlers. Go's types become Rocq types with the same
    constructors and fields; a function that can panic, exit or fail returns an option
    or an error type; shared memory (linked nodes, byte arrays, files) is an explicit
    store; concurrency is a step relation over the accesses to shared state.

    ** The parts and their files

    - Prelude, GoLib: notations, hint database [go], lemmas on lists and sums; the
      parts of Go's standard library in use (strings, sorting as an interface with the
      documented contract, [strconv], file names, glob patterns).

    - MapReduce. [MrTypes] (types.go, rpc.go) has the jobs and messages. [Coordinator]
      (coordinator.go) has every handler: [RegisterWorker], [TaskRequestByWorker] and its two
      branches, [TaskUpdateByWorker], the transition manager, [Done] and the health
      check. [CoordinatorInv] makes the handlers a transition system and proves its
      invariant; [JobBoard] is the abstract job board that it refines;
      [CoordinatorTheorems] states what follows and [CoordinatorTyping] the values of
      its string-typed fields. [Worker] (worker.go) has hashing,
      partitioning, [MapperTask] and [ReducerTask] over a file system, [JsonCodec] the
      encoding of intermediate files, [WorkerFacts] their lemmas; [Mrapps] the plugins,
      [Nparallel] the count of running workers in the timing plugins, [Sequential] the reference program mrsequential.go; [WorkerTheorems] the claims.
      [MrSystem] runs any number of workers against the coordinator and one file
      system; [MrSystemInv] is its invariant, [MrRun] an interpreter of schedules,
      [MrProgress] the progress of one worker, [MrTheorems] the claims on whole runs.

    - The checker. [Bitset] (bitset.go) on 64-bit words; [PorcList] the doubly linked
      history over a heap with lift and unlift; [Porcupine] (model.go, checker.go) the
      entries and the loop of checkSingle, one iteration at a time; [PorcSearch] shows
      that the loop computes a recursive search, without panic and terminating;
      [PorcLink] that makeLinkedEntries builds the list; [PorcCorrect], [PorcLinear],
      [PorcOps] that the search decides linearizability; [PorcPartial] the partial
      linearizations, [PorcPrefix] that they respect real time; [PorcCheck] (checker.go, porcupine.go) checkParallel over orders
      of arrival and the six entry points, [PorcEvents] those that take events;
      [PorcKv] (models/kv.go) the key/value model and locality; [PorcTheorems].

    - The page of the checker (visualization.go). [Visualization] computes its data, with
      [Longest] for the longest linearization of an operation. The page is a script, the
      function [render] in the constant html: [VisLayout] is its layout, [VisScan] the
      invariant of the left-to-right scan, [VisSpec] the constraints on positions in terms
      of the histories and linearizations of the page, [VisUndefined] when a position is
      NaN, [VisSolve] that the layout is the least solution; [VisDraw] the boxes, lines and
      error points that are drawn, [VisDrawFacts] what they show; [VisPage] the handlers
      of the mouse events with selection, highlighting, link and tooltip, [VisPageFacts]
      the simulation by abstract reactions; [VisRender] the three together,
      [VisCanvas] that everything drawn is on the canvas, [VisTheorems] the claims for what CheckOperationsVerbose returns.

    - The framework. [Labrpc] (labrpc.go): ends, servers, services and processReq as a
      state machine; [LabrpcInv], [LabrpcTheorems]. [Labgob] (labgob.go): the walk over
      types. [Persister] (persister.go) over a memory of byte arrays; [LabTheorems].

    - The testers. [RaftHarness] (raft/config.go): the checks of applied entries, with
      and without snapshots, of leaders, terms, committed entries and agreement;
      [RaftHarnessFacts] and [RaftSnapshots] their properties. [TestNet]: tables of ends
      and the loops that enable them. [RaftConfig] (raft/config.go, raft.go): connecting,
      crashing and restarting servers, over [Labrpc] and [Persister]; [RaftConfigInv]
      the wiring, [RaftConfigKeep] the persistent state. [Randstring] is the
      random names. [SavedState] is the persisted state of any number of servers.
      [ServiceConfig] is the configuration of the service tests, which
      kvraft/config.go and shardctrler/config.go repeat for two servers: it is written
      over a class [Service] (how to make and kill a server and its clerk) with the laws
      [ServiceLaws]; [ServiceFacts] has links and partitions, [ServiceInv] the invariant
      of runs. [KvConfig] (kvraft/config.go, server.go, client.go) and [CtrlConfig]
      (shardctrler/config.go, server.go) are the instances, with what the files do
      differently; [ServiceTheorems] the claims. [Clerks] (shardctrler/client.go,
      shardkv/client.go) and [ClerksFacts]. [ShardConfig] (shardkv/config.go, server.go,
      client.go): controllers, groups, joins and clerks; [ShardInv] its invariant,
      [ShardTheorems] the claims. [HarnessTheorems] has the claims on the Raft tester
      and the clerks. [Skeletons] has the handlers that are empty in this repository and
      what becomes of clerks and tests that run against them. [Commands] is the command
      lines of src/src/main.

    ** What the theorems show

    - MapReduce: in every reachable state the tables of the coordinator are consistent,
      every run refines the job board, no task is handed out twice, reduce tasks wait
      for map tasks, the job can always be finished by a named worker and takes a
      bounded number of calls, and string-typed fields hold the named constants that fit
      together; a map task leaves exactly the pairs of each partition, a
      reduce task one line per key; a complete distributed run produces the lines of the
      sequential program; and the error behaviours found: an idle worker that re-runs
      partition 0, jobs of stopped workers, and health checks that cannot connect. The
      timing plugins count the processes that run with them, however they interleave.
    - The checker: checkSingle, CheckOperations and CheckEvents end without a panic and answer true
      exactly for linearizable histories, for every order in which goroutines finish,
      and with a timeout the definite answers are right; checking each key on its own
      decides linearizability of the store.
    - The page: its data is computed without a panic and its linearizations are legal and
      respect real time; the greedy scan gives the least positions that satisfy the
      constraints its comment lists, within a width that grows with the number of
      operations; every operation has a box on a canvas that is no larger than needed, boxes
      are left of each other exactly when operations were before each other, the points of
      linearizations go through them, and all operations that could come next are shown as
      errors; after any sequence of events the page shows what was asked for, and the link to the
      first error leaves the error visible. This is for
      histories with no operation called at the last time: such an operation has no
      position, which is an error of the layout.
    - The framework: positive replies are what the handler returned, deleted servers do
      not answer, reliable networks deliver, every call can complete; the type walk ends
      on cyclic types; a persister keeps what was saved whatever callers do with slices.
    - The testers and clerks: the Raft tester accepts exactly consistent servers, also
      with snapshots; its checks of leaders and agreement mean what they say; requests
      pass exactly between connected running servers; through crashes, restarts,
      partitions and clerks that come and go the persisted state of a server is a value
      that only its running instance changes, in the Raft, key/value, controller and
      sharded tests; restarting a service always succeeds; a partition isolates the
      leader's side; the names handed to the controllers lead to the servers that run;
      the clerk of the sharded service asks the group of its configuration and returns
      once the system settles. Against the empty handlers of the repository joins are
      lost, clerks do not return and the Raft tests fail.

    ** Bounds, fuel and assumptions

    - Machine integers whose overflow matters are kept at their width: the 32-bit hash,
      the 64-bit words of the bitset, the counters of labrpc. Other counters are [Z] or
      [nat].
    - Fuel: checkSingle's loop is run with a measure that PorcSearch proves sufficient;
      labgob's walk takes one more than the number of types; the clerks' loops without
      bound take fuel; a result is the same for all larger fuel, Get and PutAppend return in
      settled systems, and Get with N + 2 rounds once the system has settled after N
      events. checkOneLeader has its ten rounds, wait its thirty.
    - Handlers of the coordinator that hold the mutex are one step; RegisterWorker,
      which does not, is two. MapperTask is one step of a worker, ReducerTask creates its
      output in one step and writes it in another. Workers have different ids. Processes
      stop at failed RPCs and file errors.
    - labrpc: handlers, reflection and encoding are parameters; a random choice is a
      choice of the next event; the last look of processReq at the server and its answer
      are one event, since the answer depends on nothing else that is shared. Runs with
      snapshots have the snapshots the tester made, none that takes a server back, and no
      restarts. The functions of the testers run in the test's goroutine
      and are one step each; random strings are arguments, and names in use are refused
      as in MakeEnd. labgob is used by one caller at a time. gob's round trip is a
      hypothesis where snapshots are decoded.
    - Values of [interface{}] in checked histories have the types the model asserts.
    - The page counts times in halves, since the script halves once, and lengths in a unit
      of which a pixel has [px]. The times that are computed are shown to be within those of
      the data and the positions below a bound in the number of operations, so that the sums
      of the script are exact for times up to 2^52. The width of a text is a parameter. An exception of the script is [None] of an option, NaN
      [None] as a position. One event is handled at a time.

    ** Not modelled

    Printing, clocks and random seeds; the styles and texts of the page and the writing of
    its file; a failed write of the timing plugins; the listening sockets of
    coordinator.go and the loading of plugins in worker.go, whose functions are arguments;
    nrand of the clerks, which nothing calls. The packages of other labs that the programs
    lockc, lockd, pbc, pbd, viewd and diskvd call are not in the repository. The scripts
    of the tests are sequences of operations that are modelled. *)

From stdpp Require Export prelude gmap strings pretty sorting.
From Stdlib Require Export ZArith.

#[global] Open Scope Z_scope.
#[global] Open Scope nat_scope.
#[global] Open Scope string_scope.
#[global] Open Scope list_scope.

(** ** Hint databases and tactics shared by the components *)

Create HintDb go discriminated.

(** Destructs every [decide] and [match] of the goal and the hypotheses that
    blocks evaluation, clearing the impossible branches on the way. *)
Ltac go_cases :=
  repeat first
    [ progress simplify_eq/=
    | case_decide
    | case_match ].

(** Evaluates a closed statement with the virtual machine. *)
Ltac go_eval := vm_compute; repeat split; try reflexivity; try congruence; try lia.

(** ** Lists *)

Section list_lemmas.
Context {A : Type}.
Implicit Types (l : list A) (x y : A).

(** The elements that a single-slot update of a list can show. *)
Lemma list_insert_lookup_cases l i j x y :
  <[i:=x]> l !! j = Some y -> (i = j /\ y = x /\ i < length l) \/ (i <> j /\ l !! j = Some y).
Proof.
  intros H. destruct (decide (i = j)) as [->|Hij].
  - left. assert (j < length l).
    { apply lookup_lt_Some in H. by rewrite length_insert in H. }
    rewrite list_lookup_insert_eq in H by done. by simplify_eq.
  - right. by rewrite list_lookup_insert_ne in H.
Qed.

Lemma Forall_insert_lookup (P : A -> Prop) l i x :
  Forall P l -> P x -> Forall P (<[i:=x]> l).
Proof. intros. by apply Forall_insert. Qed.

Lemma list_find_insert_none (P : A -> Prop) `{!forall x, Decision (P x)} l :
  list_find P l = None <-> Forall (fun x => ~ P x) l.
Proof. apply list_find_None. Qed.

Lemma foldl_count (P : A -> Prop) `{!forall x, Decision (P x)} n l :
  foldl (fun k x => if decide (P x) then S k else k) n l = n + length (filter P l).
Proof.
  revert n. induction l as [|x l IH]; intros n; simpl; [lia|].
  rewrite IH, filter_cons. case_decide; simpl; lia.
Qed.

Lemma length_filter_Forall (P : A -> Prop) `{!forall x, Decision (P x)} l :
  length (filter P l) = length l <-> Forall P l.
Proof.
  induction l as [|x l IH]; [by split|]. rewrite filter_cons, Forall_cons.
  pose proof (length_filter P l). case_decide; simpl; [naive_solver lia|].
  split; [lia|naive_solver].
Qed.

Lemma imap_seq_fmap {B} (f : nat -> A -> B) (g : nat -> B) l :
  (forall i x, l !! i = Some x -> f i x = g i) -> imap f l = g <$> seq 0 (length l).
Proof.
  intros H. apply list_eq. intros i. rewrite list_lookup_imap, list_lookup_fmap.
  destruct (l !! i) as [x|] eqn:E; simpl.
  - rewrite lookup_seq_lt by (by eapply lookup_lt_Some). simpl. f_equal. by apply H.
  - rewrite lookup_seq_ge by (by apply lookup_ge_None). done.
Qed.

Lemma sum_list_with_insert (f : A -> nat) l i x y :
  l !! i = Some x -> sum_list_with f (<[i:=y]> l) + f x = sum_list_with f l + f y.
Proof.
  revert i. induction l as [|z l IH]; intros [|i] H; simplify_eq/=; [lia|].
  specialize (IH _ H). lia.
Qed.

Lemma sum_list_with_zero (f : A -> nat) l :
  sum_list_with f l = 0 <-> Forall (fun x => f x = 0) l.
Proof. induction l; simpl; [by split|]. rewrite Forall_cons, <- IHl. lia. Qed.

Lemma sum_list_with_const (f : A -> nat) l k :
  Forall (fun x => f x = k) l -> sum_list_with f l = k * length l.
Proof. induction 1; simpl; lia. Qed.

Lemma filter_Forall_id (P : A -> Prop) `{!forall x, Decision (P x)} l :
  Forall P l -> filter P l = l.
Proof. induction 1; [done|]. by rewrite filter_cons_True, IHForall. Qed.

Lemma filter_Forall_nil (P : A -> Prop) `{!forall x, Decision (P x)} l :
  Forall (fun x => ~ P x) l -> filter P l = [].
Proof. induction 1; [done|]. by rewrite filter_cons_False. Qed.

Lemma filter_ext_Forall (P Q : A -> Prop) `{!forall x, Decision (P x), !forall x, Decision (Q x)} l :
  Forall (fun x => P x <-> Q x) l -> filter P l = filter Q l.
Proof.
  induction 1 as [|x l Hx _ IH]; [done|]. rewrite !filter_cons, IH.
  repeat case_decide; naive_solver.
Qed.

(** Splitting a list by the value of a function loses and invents nothing. *)
Lemma filter_classes_perm {B} `{!EqDecision B} (f : A -> B) (cs : list B) l :
  NoDup cs -> Forall (fun x => f x ∈ cs) l ->
  mjoin ((fun c => filter (fun x => f x = c) l) <$> cs) ≡ₚ l.
Proof.
  intros Hnd. revert l. induction Hnd as [|c cs Hc Hnd IH]; intros l Hl; simpl.
  - destruct Hl as [|x l Hx]; [done|]. by apply not_elem_of_nil in Hx.
  - etrans; [|apply (filter_app_complement (fun x => f x = c) l)].
    apply Permutation_app_head. rewrite <- (IH (filter (fun x => f x <> c) l)).
    + apply Permutation_refl'. f_equal. apply list_fmap_ext. intros i c' Hi.
      apply list_elem_of_lookup_2 in Hi. rewrite list_filter_filter.
      apply filter_ext_Forall, Forall_true. naive_solver.
    + apply Forall_forall. intros x [Hx Hin]%list_elem_of_filter.
      rewrite Forall_forall in Hl. specialize (Hl x Hin). set_solver.
Qed.

Lemma fmap_mjoin {B} (f : A -> B) (ls : list (list A)) :
  f <$> mjoin ls = mjoin (fmap f <$> ls).
Proof. induction ls as [|l ls IH]; simpl; [done|]. by rewrite fmap_app, IH. Qed.

Lemma fmap_insert_same {B} (f : A -> B) l i x y :
  l !! i = Some y -> f x = f y -> f <$> <[i:=x]> l = f <$> l.
Proof.
  intros Hl Hf. rewrite list_fmap_insert. apply list_insert_id.
  by rewrite list_lookup_fmap, Hl, Hf.
Qed.
End list_lemmas.

#[export] Hint Resolve Forall_insert_lookup : go.
