(* ===== verification/GoLib.v ===== *)
(** * The parts of Go and of its standard library the program uses

    Values of [int] are mathematical integers [Z] where the code only counts
    with them; machine-width integers (the 32-bit hash, the 64-bit words of a
    bitset) are [Z] values with their wrap-around written out in the file that
    models the code. A Go [string] is a byte sequence, here [string]; [<] on
    strings is the bytewise lexicographic order. *)

From Stdlib Require Import Ascii.
From S2P Require Import Prelude.

(** ** Errors and time *)

(** The [error] interface: [nil] is [None]. *)
Definition error : Type := option string.
Definition nil_error : error := None.

(** [time.Time], as the number of nanoseconds since its zero value. *)
Definition Time : Type := Z.
Definition zero_time : Time := 0%Z.

(** ** Strings *)

(** [strconv.Itoa], which is also what the verb [%d] prints for an [int]. *)
Definition Itoa (n : Z) : string := pretty n.

(** The bytes written by a sequence of writes. *)
Fixpoint str_concat (l : list string) : string :=
  match l with
  | [] => ""
  | s :: l => s +:+ str_concat l
  end.

(** [s[n:]], empty when [s] is shorter. *)
Fixpoint str_drop (n : nat) (s : string) : string :=
  match n, s with
  | S n, String _ s => str_drop n s
  | _, _ => s
  end.

(** The operator [<] on strings. *)
Definition str_lt (a b : string) : bool := String.ltb a b.

(** [fmt.Sprintf("%d", s)] for a string operand [s]: the wrong-type form. *)
Definition Sprintf_d_of_string (s : string) : string := "%!d(string=" +:+ s +:+ ")".

(** ** sort.Sort

    The documentation of [sort.Sort] promises a sorted permutation and no
    stability. The components are verified against this interface, so that
    nothing depends on the order the library leaves equal elements in. What a sort
    does depends only on how the elements of the list compare. *)

(** [less] is a strict weak order: what [sort.Interface] asks of [Less]. *)
Class StrictWeak {A} (less : A -> A -> bool) : Prop := {
  sw_asym x y : less x y = true -> less y x = false;
  sw_trans x y z : less y x = false -> less z y = false -> less z x = false;
}.

(** [y] is not ordered before [x]. *)
Definition not_after {A} (less : A -> A -> bool) (x y : A) : Prop := less y x = false.

Class Sorter := {
  sort_by : forall {A}, (A -> A -> bool) -> list A -> list A;
  sort_by_perm : forall {A} (less : A -> A -> bool) (l : list A), sort_by less l ≡ₚ l;
  sort_by_sorted : forall {A} (less : A -> A -> bool) (l : list A),
    StrictWeak less -> Sorted (not_after less) (sort_by less l);
  sort_by_ext : forall {A} (less less' : A -> A -> bool) (l : list A),
    (forall x y, x ∈ l -> y ∈ l -> less x y = less' x y) -> sort_by less l = sort_by less' l;
}.

#[export] Instance not_after_dec {A} (less : A -> A -> bool) : RelDecision (not_after less).
Proof. intros x y. unfold not_after. apply _. Defined.

#[export] Instance not_after_trans {A} (less : A -> A -> bool) `{!StrictWeak less} :
  Transitive (not_after less).
Proof. intros x y z. apply sw_trans. Qed.

#[export] Instance not_after_total {A} (less : A -> A -> bool) `{!StrictWeak less} :
  Total (not_after less).
Proof.
  intros x y. unfold not_after. destruct (less y x) eqn:E; [right|by left].
  by apply sw_asym.
Qed.

Lemma sort_by_strongly `{!Sorter} {A} (less : A -> A -> bool) (l : list A) :
  StrictWeak less -> StronglySorted (not_after less) (sort_by less l).
Proof. intros Hsw. apply Sorted_StronglySorted; [apply _|]. by apply sort_by_sorted. Qed.

(** Merge sort meets the contract, so the interface can be met, and it makes
    the definitions that sort executable. *)
Definition merge_sorter_by {A} (less : A -> A -> bool) (l : list A) : list A :=
  merge_sort (not_after less) l.

Section merge_ext.
Context {A} (less less' : A -> A -> bool) (P : A -> Prop).
Hypothesis Hsame : forall x y, P x -> P y -> less x y = less' x y.

Abbreviation merge := (list_merge (not_after less)).
Abbreviation merge' := (list_merge (not_after less')).

Lemma list_merge_ext l1 l2 : Forall P l1 -> Forall P l2 -> merge l1 l2 = merge' l1 l2.
Proof.
  intros H1. revert l2. induction H1 as [|x1 l1 Hx1 H1 IH1]; intros l2 H2; [by rewrite !list_merge_nil_l|].
  induction H2 as [|x2 l2 Hx2 H2 IH2]; [done|]. rewrite !list_merge_cons, IH2, IH1 by (by constructor).
  apply decide_ext. unfold not_after. by rewrite Hsame.
Qed.

Lemma list_merge_Forall l1 l2 : Forall P l1 -> Forall P l2 -> Forall P (merge l1 l2).
Proof. intros. rewrite merge_Permutation. by apply Forall_app. Qed.

Abbreviation stack_Forall := (Forall (fun o : option (list A) => forall l, o = Some l -> Forall P l)).

Lemma merge_list_to_stack_ext st l :
  stack_Forall st -> Forall P l ->
  merge_list_to_stack (not_after less) st l = merge_list_to_stack (not_after less') st l /\
  stack_Forall (merge_list_to_stack (not_after less) st l).
Proof.
  intros Hst. revert l. induction Hst as [|[l'|] st Ho Hst IH]; intros l Hl; simpl.
  - split; [done|]. repeat constructor. by intros ? [= <-].
  - rewrite <- list_merge_ext by auto. destruct (IH (merge l' l)) as [-> ?]; [by apply list_merge_Forall; auto|].
    split; [done|]. by constructor.
  - split; [done|]. constructor; [by intros ? [= <-]|done].
Qed.

Lemma merge_stack_ext st :
  stack_Forall st -> merge_stack (not_after less) st = merge_stack (not_after less') st /\
  Forall P (merge_stack (not_after less) st).
Proof.
  induction 1 as [|[l|] st Ho Hst [IH1 IH2]]; simpl; [done| |done].
  rewrite <- IH1, <- list_merge_ext by auto. split; [done|]. apply list_merge_Forall; auto.
Qed.

Lemma merge_sort_ext l : Forall P l -> merge_sorter_by less l = merge_sorter_by less' l.
Proof.
  unfold merge_sorter_by, merge_sort. intros Hl. assert (Hst : stack_Forall []) by constructor. revert Hst.
  generalize (@nil (option (list A))). induction Hl as [|x l Hx Hl IH]; intros st Hst; simpl; [by apply merge_stack_ext|].
  destruct (merge_list_to_stack_ext st [x] Hst) as [<- ?]; [by constructor|]. by apply IH.
Qed.
End merge_ext.

#[export] Instance merge_sorter : Sorter.
Proof.
  refine {| sort_by := @merge_sorter_by |}.
  - intros. apply merge_sort_Permutation.
  - intros. apply Sorted_merge_sort. apply _.
  - intros A less less' l Hsame. apply (merge_sort_ext less less' (fun x => x ∈ l)); [auto|by apply Forall_forall].
Defined.

(** ** Facts about the string order and about decimal numerals *)

Lemma str_lt_spec a b : str_lt a b = false <-> String.le b a.
Proof.
  unfold str_lt, String.le, String.ltb, String.leb.
  rewrite (String.compare_antisym b a).
  destruct (String.compare a b); simpl; split; intros ?; done.
Qed.

#[export] Instance str_lt_strict_weak : StrictWeak str_lt.
Proof.
  split.
  - intros x y H. apply str_lt_spec. destruct (total String.le x y) as [|Hyx]; [done|].
    apply str_lt_spec in Hyx. congruence.
  - intros x y z. rewrite !str_lt_spec. intros ??. by etrans.
Qed.

Lemma str_lt_false_antisym a b : str_lt a b = false -> str_lt b a = false -> a = b.
Proof. rewrite !str_lt_spec. intros. by apply (anti_symm String.le). Qed.

Lemma str_app_cons x a b : String x a +:+ b = String x (a +:+ b).
Proof. done. Qed.

Lemma str_app_assoc a b c : (a +:+ b) +:+ c = a +:+ (b +:+ c).
Proof. induction a as [|x a IH]; [done|]. by rewrite !str_app_cons, IH. Qed.

Lemma str_app_nil_r a : a +:+ "" = a.
Proof. induction a as [|x a IH]; [done|]. by rewrite str_app_cons, IH. Qed.

Lemma str_length_app a b : String.length (a +:+ b) = String.length a + String.length b.
Proof. induction a as [|x a IH]; [done|]. rewrite str_app_cons. simpl. by rewrite IH. Qed.

Lemma str_concat_app l1 l2 : str_concat (l1 ++ l2) = str_concat l1 +:+ str_concat l2.
Proof. induction l1 as [|s l1 IH]; simpl; [done|]. by rewrite IH, str_app_assoc. Qed.

Lemma str_drop_all s : str_drop (String.length s) s = "".
Proof. by induction s. Qed.

Lemma str_drop_nil n : str_drop n "" = "".
Proof. by destruct n. Qed.

#[export] Instance Itoa_inj : Inj (=) (=) Itoa.
Proof. apply pretty_Z_inj. Qed.

#[export] Hint Resolve str_lt_false_antisym : go.

(** ** Strings without a character *)

(** [c] does not occur in [s]. *)
Fixpoint str_free (c : ascii) (s : string) : Prop :=
  match s with
  | EmptyString => True
  | String c' s => c' <> c /\ str_free c s
  end.

Lemma str_free_app c a b : str_free c (a +:+ b) <-> str_free c a /\ str_free c b.
Proof.
  induction a as [|x a IH]; [simpl; naive_solver|]. rewrite str_app_cons. simpl. rewrite IH. tauto.
Qed.

(** Decimal numerals hold digits only. *)
Lemma pretty_N_go_free c x s :
  Forall (fun d => pretty_N_char d <> c) [0;1;2;3;4;5;6;7;8;9]%N ->
  str_free c s -> str_free c (pretty_N_go x s).
Proof.
  intros Hd. revert s. induction (N.lt_wf_0 x) as [x _ IH]; intros s Hs.
  destruct (decide (x = 0)%N) as [->|Hx]; [by rewrite pretty_N_go_0|].
  rewrite pretty_N_go_step by lia. apply IH; [apply N.div_lt; lia|]. simpl. split; [|done].
  rewrite Forall_forall in Hd. apply Hd. pose proof (N.mod_lt x 10 ltac:(done)) as Hlt.
  revert Hlt. generalize (x `mod` 10)%N. intros d Hlt.
  assert (d = 0 \/ d = 1 \/ d = 2 \/ d = 3 \/ d = 4 \/ d = 5 \/ d = 6 \/ d = 7 \/ d = 8
    \/ d = 9)%N as Hc by lia.
  set_solver.
Qed.

Lemma Itoa_free c n :
  (0 <= n)%Z -> Forall (fun d => pretty_N_char d <> c) [0;1;2;3;4;5;6;7;8;9]%N ->
  str_free c (Itoa n).
Proof.
  intros Hn Hd. unfold Itoa, pretty, pretty_Z. destruct n as [|p|p]; [|..|lia].
  - split; [|done]. by apply (Forall_inv Hd).
  - unfold pretty, pretty_positive, pretty, pretty_N. rewrite decide_False by done.
    by apply pretty_N_go_free.
Qed.

Lemma digits_not c : c = "-"%char \/ c = "/"%char \/ c = "*"%char ->
  Forall (fun d => pretty_N_char d <> c) [0;1;2;3;4;5;6;7;8;9]%N.
Proof. intros [-> | [-> | ->]]; repeat constructor; done. Qed.

#[export] Hint Resolve Itoa_free digits_not : go.

(** The part of a name after its last dash. *)
Lemma dash_suffix_inj a b u v :
  str_free "-" u -> str_free "-" v -> a +:+ String "-" u = b +:+ String "-" v -> a = b /\ u = v.
Proof.
  intros Hu Hv. revert b. induction a as [|x a IH]; intros [|y b].
  - intros [= ->]. done.
  - rewrite str_app_cons. intros [= <- ->]. apply str_free_app in Hu as [_ Hu]. by destruct Hu.
  - rewrite str_app_cons. intros [= -> <-]. apply str_free_app in Hv as [_ Hv]. by destruct Hv.
  - rewrite !str_app_cons. intros [= -> H]. apply IH in H as [-> ->]. done.
Qed.
