(* ===== verification/MrTypes.v ===== *)
(** * Data of the MapReduce packages: src/src/mr/types.go, rpc.go

    The status, type and phase names are Go string types with named constants;
    they travel over RPC as strings and their zero value is the empty string,
    so they are strings here too. *)

From S2P Require Import Prelude GoLib.

(** ** types.go *)

Abbreviation WorkerStatus := string (only parsing).
Definition StateIdle : WorkerStatus := "IDLE".
Definition StateConnected : WorkerStatus := "CONNECTED".
Definition StatusError : WorkerStatus := "ERROR".
Definition StateRetrying : WorkerStatus := "RETRYING".

Abbreviation TaskStatus := string (only parsing).
Definition Waiting : TaskStatus := "WAITING".
Definition Pending : TaskStatus := "PENDING".
Definition DONE : TaskStatus := "DONE".
Definition Invalid : TaskStatus := "INVALID".

Abbreviation TaskType := string (only parsing).
Definition MapTask : TaskType := "MAP".
Definition ReduceTask : TaskType := "REDUCE".

Abbreviation CoordinatorPhase := string (only parsing).
Definition MapPhase : CoordinatorPhase := "MAP-PHASE".
Definition ReducePhase : CoordinatorPhase := "REDUCE-PHASE".
Definition FinishedPhase : CoordinatorPhase := "FINISHED-PHASE".

Record WorkerType := mkWorkerType {
  workerId : string;
  wstatus : WorkerStatus;
  Address : string;
  wPort : string;
  LastSeen : Time;
  HeartBeatChecks : Z;
}.

Record Job := mkJob {
  taskId : string;
  filePath : string;
  status : TaskStatus;
  worker : WorkerType;
  assignedAt : Time;
  nReduce : Z;
  partition : Z;
}.

(** worker.go: a key/value pair emitted by Map. *)
Record KeyValue := mkKeyValue {
  Key : string;
  Value : string;
}.

(** [type Partition map[int][]KeyValue]; a missing key reads as the nil slice. *)
Abbreviation Partition := (gmap Z (list KeyValue)) (only parsing).

(** The zero values Go gives to fields left out of a struct literal. *)
Definition zeroWorker : WorkerType := mkWorkerType "" "" "" "" zero_time 0%Z.
Definition zeroJob : Job := mkJob "" "" "" zeroWorker zero_time 0%Z 0%Z.

(** ** rpc.go *)

Record PingArgs := mkPingArgs { ping_WorkerId : string }.
Record PingReply := mkPingReply { PingStatus : bool }.

Record WorkerRegistrationArgs := mkRegArgs {
  reg_WorkerID : string;
  reg_RpcAddr : string;
  reg_Port : string;
}.

Record WorkerRegistrationReply := mkRegReply { RegistrationStatus : bool }.

Record WorkerTaskRequestArgs := mkReqArgs {
  req_WorkerID : string;
  req_RpcAddr : string;
  req_Port : string;
}.

Record WorkerTaskRequestReply := mkReqReply {
  req_TaskId : string;
  req_Type : TaskType;
  req_Status : TaskStatus;
  req_FilePath : string;
  TaskAvailable : bool;
  req_NReduce : Z;
  req_Phase : CoordinatorPhase;
  req_Partition : Z;
}.

Record WorkerTaskUpdateArgs := mkUpdArgs {
  upd_WorkerID : string;
  upd_TaskId : string;
  upd_Type : TaskType;
  upd_Status : TaskStatus;
  IntermediatePartition : Partition;
}.

Record WorkerTaskUpdateReply := mkUpdReply {
  rep_Status : TaskStatus;
  Message : string;
  rep_Phase : CoordinatorPhase;
}.

(** net/rpc hands a handler a reply struct of zero values. *)
Definition zeroRegReply : WorkerRegistrationReply := mkRegReply false.
Definition zeroReqReply : WorkerTaskRequestReply := mkReqReply "" "" "" "" false 0%Z "" 0%Z.
Definition zeroUpdReply : WorkerTaskUpdateReply := mkUpdReply "" "" "".

(** [coordinatorSock]; [uid] is what [os.Getuid] returns. *)
Definition coordinatorSock (uid : Z) : string := "/var/tmp/5840-mr-" +:+ Itoa uid.

(** ** Setters: one per field a handler assigns *)

Definition set_jstatus (s : TaskStatus) (j : Job) : Job :=
  mkJob (taskId j) (filePath j) s (worker j) (assignedAt j) (nReduce j) (partition j).

Definition set_jworker (w : WorkerType) (j : Job) : Job :=
  mkJob (taskId j) (filePath j) (status j) w (assignedAt j) (nReduce j) (partition j).

Definition set_wstatus (s : WorkerStatus) (w : WorkerType) : WorkerType :=
  mkWorkerType (workerId w) s (Address w) (wPort w) (LastSeen w) (HeartBeatChecks w).

Definition set_LastSeen (t : Time) (w : WorkerType) : WorkerType :=
  mkWorkerType (workerId w) (wstatus w) (Address w) (wPort w) t (HeartBeatChecks w).

Definition set_HeartBeatChecks (n : Z) (w : WorkerType) : WorkerType :=
  mkWorkerType (workerId w) (wstatus w) (Address w) (wPort w) (LastSeen w) n.

#[export] Instance WorkerType_eq_dec : EqDecision WorkerType.
Proof. solve_decision. Defined.

#[export] Instance Job_eq_dec : EqDecision Job.
Proof. solve_decision. Defined.

#[export] Instance KeyValue_eq_dec : EqDecision KeyValue.
Proof. solve_decision. Defined.

(** Closes a goal whose hypotheses equate two different named constants. *)
Ltac mr_consts :=
  unfold StateIdle, StateConnected, StatusError, StateRetrying, Waiting, Pending, DONE, Invalid,
    MapTask, ReduceTask, MapPhase, ReducePhase, FinishedPhase in *;
  congruence.
