(* ===== verification/Coordinator.v ===== *)
(** * The coordinator: src/src/mr/coordinator.go

    The state of the [Coordinator] struct as a record, and one definition per
    method. A handler of [net/rpc] takes the request, the reply struct it fills
    in and the coordinator, and gives back the new coordinator, the reply and
    the Go error. What the methods read from the outside ([time.Now], whether a
    dial or a call of [net/rpc] succeeds) is an argument. *)

From S2P Require Import Prelude GoLib MrTypes.

(** The mutex [mu] has no data: the handlers that take it run as one step of
    the transition system of CoordinatorInv, the others as several. *)
Record Coordinator := mkCoordinator {
  noOfReduceTasks : Z;
  mapTasks : list Job;
  reduceTasks : list Job;
  phase : CoordinatorPhase;
  workers : list WorkerType;
}.

Definition set_mapTasks (js : list Job) (c : Coordinator) : Coordinator :=
  mkCoordinator (noOfReduceTasks c) js (reduceTasks c) (phase c) (workers c).

Definition set_reduceTasks (js : list Job) (c : Coordinator) : Coordinator :=
  mkCoordinator (noOfReduceTasks c) (mapTasks c) js (phase c) (workers c).

Definition set_phase (p : CoordinatorPhase) (c : Coordinator) : Coordinator :=
  mkCoordinator (noOfReduceTasks c) (mapTasks c) (reduceTasks c) p (workers c).

Definition set_workers (ws : list WorkerType) (c : Coordinator) : Coordinator :=
  mkCoordinator (noOfReduceTasks c) (mapTasks c) (reduceTasks c) (phase c) ws.

(** ** RegisterWorker *)

Definition registered (now : Time) (args : WorkerRegistrationArgs) : WorkerType :=
  mkWorkerType (reg_WorkerID args) StateConnected (reg_RpcAddr args) (reg_Port args) now 0%Z.

Definition RegisterWorker (now : Time) (args : WorkerRegistrationArgs)
    (reply : WorkerRegistrationReply) (c : Coordinator)
    : Coordinator * WorkerRegistrationReply * error :=
  (set_workers (workers c ++ [registered now args]) c, mkRegReply true, nil_error).

(** ** TaskTransitionManager *)

(** The reduce job the loop appends for partition [i]. *)
Definition newReduceTask (i : Z) : Job :=
  mkJob ("task-" +:+ Itoa i) "" Waiting zeroWorker zero_time 0%Z i.

Definition hasPendingTask (tasks : list Job) : bool :=
  existsb (fun task => bool_decide (status task = Pending) || bool_decide (status task = Waiting))
    tasks.

Definition countDone (tasks : list Job) : nat :=
  foldl (fun count task => if decide (status task = DONE) then S count else count) 0 tasks.

Definition TaskTransitionManager (t : TaskType) (c : Coordinator) : Coordinator :=
  if decide (t = MapTask) then
    if hasPendingTask (mapTasks c) then c
    else
      let c1 := set_reduceTasks
                  (foldl (fun js i => js ++ [newReduceTask i]) (reduceTasks c)
                     (seqZ 0 (noOfReduceTasks c))) c in
      set_phase ReducePhase c1
  else if decide (t = ReduceTask) then
    if decide (countDone (reduceTasks c) = length (reduceTasks c))
    then set_phase FinishedPhase c else c
  else c.

(** ** TaskUpdateByWorker *)

(** [var jobs []Job; switch args.Type]: the slice shares its array with the
    coordinator's, so writing through it is writing the coordinator's field. *)
Definition jobs_of (t : TaskType) (c : Coordinator) : option (list Job) :=
  if decide (t = MapTask) then Some (mapTasks c)
  else if decide (t = ReduceTask) then Some (reduceTasks c)
  else None.

Definition set_jobs_of (t : TaskType) (js : list Job) (c : Coordinator) : Coordinator :=
  if decide (t = MapTask) then set_mapTasks js c
  else if decide (t = ReduceTask) then set_reduceTasks js c
  else c.

Definition TaskUpdateByWorker (args : WorkerTaskUpdateArgs) (reply : WorkerTaskUpdateReply)
    (c : Coordinator) : Coordinator * WorkerTaskUpdateReply * error :=
  let refuse st msg := (c, mkUpdReply st msg (rep_Phase reply), nil_error) in
  if decide (upd_TaskId args = "") then refuse Invalid "Task ID is required"
  else if decide (upd_WorkerID args = "") then refuse Invalid "Worker ID is required"
  else if decide (upd_Type args = "") then refuse Invalid "Provide task type ( MAP | REDUCE )"
  else
    match jobs_of (upd_Type args) c with
    | None => refuse Invalid "Task type must be either MAP or REDUCE"
    | Some jobs =>
        match list_find (fun job => taskId job = upd_TaskId args) jobs with
        | None => refuse Invalid "Task not found"
        | Some (i, job) =>
            if decide (workerId (worker job) <> upd_WorkerID args) then
              refuse Invalid ("Task not assigned to worker " +:+ upd_WorkerID args)
            else if decide (status job = DONE) then refuse DONE "Task already completed"
            else
              let c1 := set_jobs_of (upd_Type args) (<[i := set_jstatus DONE job]> jobs) c in
              (TaskTransitionManager (upd_Type args) c1,
               mkUpdReply DONE "Task update received successfully" (phase c1), nil_error)
        end
    end.

(** ** assignMapTask, assignReduceTask, TaskRequestByWorker *)

(** [task.status = Pending; task.worker = *assignedWorker] *)
Definition take_job (w : WorkerType) (task : Job) : Job :=
  set_jworker w (set_jstatus Pending task).

Definition assignMapTask (assignedWorker : WorkerType) (reply : WorkerTaskRequestReply)
    (c : Coordinator) : Coordinator * WorkerTaskRequestReply * error :=
  match list_find (fun task => status task = Waiting) (mapTasks c) with
  | Some (i, task) =>
      let task' := take_job assignedWorker task in
      (set_mapTasks (<[i := task']> (mapTasks c)) c,
       mkReqReply (taskId task') MapTask (status task') (filePath task') true (nReduce task')
         (phase c) (req_Partition reply), nil_error)
  | None => (c, reply, nil_error)
  end.

Definition assignReduceTask (assignedWorker : WorkerType) (reply : WorkerTaskRequestReply)
    (c : Coordinator) : Coordinator * WorkerTaskRequestReply * error :=
  match list_find (fun task => status task = Waiting) (reduceTasks c) with
  | Some (i, task) =>
      let task' := take_job assignedWorker task in
      (set_reduceTasks (<[i := task']> (reduceTasks c)) c,
       mkReqReply (taskId task') ReduceTask (status task') (req_FilePath reply) true
         (req_NReduce reply) (phase c) (partition task'), nil_error)
  | None =>
      (c, mkReqReply (req_TaskId reply) (req_Type reply) (req_Status reply) (req_FilePath reply)
            false (req_NReduce reply) (phase c) (req_Partition reply), nil_error)
  end.

Definition set_TaskAvailable (b : bool) (r : WorkerTaskRequestReply) : WorkerTaskRequestReply :=
  mkReqReply (req_TaskId r) (req_Type r) (req_Status r) (req_FilePath r) b (req_NReduce r)
    (req_Phase r) (req_Partition r).

Definition set_reqPhase (p : CoordinatorPhase) (r : WorkerTaskRequestReply)
    : WorkerTaskRequestReply :=
  mkReqReply (req_TaskId r) (req_Type r) (req_Status r) (req_FilePath r) (TaskAvailable r)
    (req_NReduce r) p (req_Partition r).

Definition TaskRequestByWorker (args : WorkerTaskRequestArgs) (reply : WorkerTaskRequestReply)
    (c : Coordinator) : Coordinator * WorkerTaskRequestReply * error :=
  let reply := set_TaskAvailable false reply in
  match list_find (fun w => workerId w = req_WorkerID args) (workers c) with
  | None => (c, reply, nil_error)
  | Some (_, assignedWorker) =>
      if decide (phase c = MapPhase) then assignMapTask assignedWorker reply c
      else if decide (phase c = ReducePhase) then assignReduceTask assignedWorker reply c
      else if decide (phase c = FinishedPhase) then
        (c, set_reqPhase (phase c) (set_TaskAvailable false reply), nil_error)
      else (c, reply, nil_error)
  end.

(** ** Health checks *)

Definition Done (c : Coordinator) : CoordinatorPhase := phase c.

Definition ActiveWorkers (c : Coordinator) : Z :=
  foldl (fun count w => if decide (wstatus w = StateConnected) then (count + 1)%Z else count)
    0%Z (workers c).

(** The address [WorkerSync] dials: the verb is [%d], the operand a string. *)
Definition workerAddress (port : string) : string := "localhost:" +:+ Sprintf_d_of_string port.

(** What [net/rpc] does for one [WorkerSync]: which addresses accept a
    connection, and whether the call on the connection returns an error. *)
Record PingNet := mkPingNet { dial_ok : string -> bool; call_ok : bool }.

(** [None] is the run-time panic of an index out of range. *)
Definition WorkerSync (net : PingNet) (now : Time) (wid port : string) (workerIdx : nat)
    (c : Coordinator) : option Coordinator :=
  w ← workers c !! workerIdx;
  let put w' := Some (set_workers (<[workerIdx := w']> (workers c)) c) in
  if negb (dial_ok net (workerAddress port)) then put (set_wstatus StateRetrying w)
  else if negb (call_ok net) then
    if decide (HeartBeatChecks w = 3%Z) then put (set_wstatus StatusError w)
    else put (set_wstatus StateRetrying
                (set_LastSeen now (set_HeartBeatChecks (HeartBeatChecks w + 1)%Z w)))
  else put (set_wstatus StateConnected
              (set_LastSeen now (set_HeartBeatChecks (HeartBeatChecks w + 1)%Z w))).

(** One tick of [Healthcheck]: [None] when the loop returns, otherwise the
    [WorkerSync] calls it starts, each with the worker's id, port and index. *)
Definition Healthcheck_tick (c : Coordinator) : option (list (string * string * nat)) :=
  if decide (Done c = FinishedPhase) then None
  else Some (imap (fun idx w => (workerId w, wPort w, idx)) (workers c)).

(** ** MakeCoordinator *)

Definition newMapTask (nR : Z) (idx : nat) (file : string) : Job :=
  mkJob ("task-" +:+ Itoa (Z.of_nat idx)) file Waiting zeroWorker zero_time nR 0%Z.

(** The loop of [MakeCoordinator], from the file of index [idx] on. *)
Fixpoint addMapTasks (nR : Z) (idx : nat) (files : list string) (c : Coordinator) : Coordinator :=
  match files with
  | [] => c
  | file :: files =>
      addMapTasks nR (S idx) files (set_mapTasks (mapTasks c ++ [newMapTask nR idx file]) c)
  end.

Definition MakeCoordinator (files : list string) (nR : Z) : Coordinator :=
  addMapTasks nR 0 files (mkCoordinator nR [] [] MapPhase []).
