(* ===== verification/CoordinatorInv.v ===== *)
(** * The coordinator as a transition system, and its invariants

    The handlers of Coordinator.v under any interleaving of RPCs: every handler
    that takes the mutex is one step; [RegisterWorker], which does not take it,
    reads the worker slice in one step and stores the extended slice in another,
    with any other steps in between. The well-formedness invariant, what it
    gives for every run, and the refinement of an abstract job board. *)

From S2P Require Import Prelude GoLib MrTypes Coordinator.

(** ** The transition system *)

(** [reading]: the registrations that have read [c.workers] and not yet stored
    it, each with the slice it read and the worker it appends. *)
Record Sys := mkSys {
  coord : Coordinator;
  reading : list (list WorkerType * WorkerType);
}.

Inductive Event :=
  | EvRegisterRead (w : WorkerType)
  | EvRegisterStore (k : nat)
  | EvRequest (args : WorkerTaskRequestArgs) (reply : WorkerTaskRequestReply)
  | EvUpdate (args : WorkerTaskUpdateArgs) (reply : WorkerTaskUpdateReply)
  | EvSync (idx : nat).

Inductive step : Sys -> Event -> Sys -> Prop :=
  | step_register_read now args s :
      step s (EvRegisterRead (registered now args))
        (mkSys (coord s) (reading s ++ [(workers (coord s), registered now args)]))
  | step_register_store k ws w s :
      reading s !! k = Some (ws, w) ->
      step s (EvRegisterStore k) (mkSys (set_workers (ws ++ [w]) (coord s)) (delete k (reading s)))
  | step_request args reply c' err s :
      TaskRequestByWorker args zeroReqReply (coord s) = (c', reply, err) ->
      step s (EvRequest args reply) (mkSys c' (reading s))
  | step_update args reply c' err s :
      TaskUpdateByWorker args zeroUpdReply (coord s) = (c', reply, err) ->
      step s (EvUpdate args reply) (mkSys c' (reading s))
  | step_sync net now wid port idx c' s :
      WorkerSync net now wid port idx (coord s) = Some c' ->
      step s (EvSync idx) (mkSys c' (reading s)).

Inductive run : Sys -> list Event -> Sys -> Prop :=
  | run_nil s : run s [] s
  | run_snoc s evs s' ev s'' : run s evs s' -> step s' ev s'' -> run s (evs ++ [ev]) s''.

Definition init_sys (files : list string) (nR : Z) : Sys := mkSys (MakeCoordinator files nR) [].

(** ** The invariant *)

(** What a job keeps from its creation on. *)
Definition job_static (j : Job) : string * string * Z * Z :=
  (taskId j, filePath j, nReduce j, partition j).

(** A waiting job has no owner; a job that was handed out stays handed out. *)
Definition job_wf (j : Job) : Prop :=
  (status j = Waiting /\ worker j = zeroWorker) \/ status j = Pending \/
  (status j = DONE /\ workerId (worker j) <> "").

Definition all_done (js : list Job) : Prop := Forall (fun j => status j = DONE) js.

Definition mapJobs (files : list string) (nR : Z) : list Job := imap (newMapTask nR) files.
Definition reduceJobs (nR : Z) : list Job := newReduceTask <$> seqZ 0 nR.

(** Which jobs exist and which are complete, phase by phase. *)
Inductive phase_ok (nR : Z) (c : Coordinator) : Prop :=
  | phase_ok_map :
      phase c = MapPhase -> reduceTasks c = [] -> (mapTasks c = [] \/ ~ all_done (mapTasks c)) ->
      phase_ok nR c
  | phase_ok_reduce :
      phase c = ReducePhase -> all_done (mapTasks c) ->
      job_static <$> reduceTasks c = job_static <$> reduceJobs nR ->
      (reduceTasks c = [] \/ ~ all_done (reduceTasks c)) -> phase_ok nR c
  | phase_ok_finished :
      phase c = FinishedPhase -> all_done (mapTasks c) ->
      job_static <$> reduceTasks c = job_static <$> reduceJobs nR ->
      all_done (reduceTasks c) -> reduceTasks c <> [] -> phase_ok nR c.

Record coord_inv (files : list string) (nR : Z) (c : Coordinator) : Prop := {
  inv_nReduce : noOfReduceTasks c = nR;
  inv_map_static : job_static <$> mapTasks c = job_static <$> mapJobs files nR;
  inv_map_wf : Forall job_wf (mapTasks c);
  inv_reduce_wf : Forall job_wf (reduceTasks c);
  inv_phase : phase_ok nR c;
}.

(** The task types and ids handed out by the requests of a run. *)
Definition assignment (ev : Event) : option (TaskType * string) :=
  match ev with
  | EvRequest _ reply =>
      if TaskAvailable reply then Some (req_Type reply, req_TaskId reply) else None
  | _ => None
  end.

Definition assignments (evs : list Event) : list (TaskType * string) := omap assignment evs.

(** ** Lists of jobs *)

Lemma all_done_countDone js : countDone js = length js <-> all_done js.
Proof. unfold countDone, all_done. rewrite foldl_count. apply length_filter_Forall. Qed.

Lemma all_done_hasPendingTask js :
  Forall job_wf js -> hasPendingTask js = false <-> all_done js.
Proof.
  unfold hasPendingTask, all_done. induction 1 as [|j js Hj _ IH]; simpl; [by split|].
  rewrite Forall_cons, <- IH.
  destruct Hj as [[-> _]|[->|[-> _]]]; simpl; naive_solver.
Qed.

Lemma all_done_not_waiting js i j :
  all_done js -> list_find (fun t => status t = Waiting) js = Some (i, j) -> False.
Proof.
  intros Hd (Hi & Hw & _)%list_find_Some. eapply Forall_lookup_1 in Hd; [|done].
  simpl in Hd. mr_consts.
Qed.

Lemma take_static w j : job_static (take_job w j) = job_static j.
Proof. done. Qed.

Lemma take_wf w j : job_wf (take_job w j).
Proof. right. by left. Qed.

Lemma take_not_done js i j w :
  js !! i = Some j -> ~ all_done (<[i := take_job w j]> js).
Proof.
  intros Hi Hd. assert (Hl := lookup_lt_Some _ _ _ Hi).
  eapply (Forall_lookup_1 _ _ i) in Hd; [|by apply list_lookup_insert_eq]. done.
Qed.

(** The id of a job determines it, among the map jobs and among the reduce jobs. *)
Lemma ids_of_static (js js' : list Job) :
  job_static <$> js = job_static <$> js' -> taskId <$> js = taskId <$> js'.
Proof.
  intros H. assert (Hf : forall l : list Job, taskId <$> l = (fun x => x.1.1.1) <$> (job_static <$> l)).
  { intros l. by rewrite <- list_fmap_compose. }
  by rewrite !Hf, H.
Qed.

Lemma NoDup_ids_map files nR (js : list Job) :
  job_static <$> js = job_static <$> mapJobs files nR -> NoDup (taskId <$> js).
Proof.
  intros H%ids_of_static. rewrite H. unfold mapJobs. rewrite fmap_imap.
  rewrite (imap_seq_fmap _ (fun i => "task-" +:+ Itoa (Z.of_nat i))) by done.
  apply NoDup_fmap_2; [|apply NoDup_seq]. intros i i' Heq. by simplify_eq.
Qed.

Lemma NoDup_ids_reduce nR (js : list Job) :
  job_static <$> js = job_static <$> reduceJobs nR -> NoDup (taskId <$> js).
Proof.
  intros H%ids_of_static. rewrite H. unfold reduceJobs. rewrite <- list_fmap_compose.
  apply NoDup_fmap_2; [|apply NoDup_seqZ]. intros i i' Heq. by simplify_eq/=.
Qed.

(** ** The invariant holds in every reachable state *)

Lemma addMapTasks_spec nR idx files c :
  addMapTasks nR idx files c =
  set_mapTasks (mapTasks c ++ imap (fun i => newMapTask nR (idx + i)) files) c.
Proof.
  revert idx c. induction files as [|f files IH]; intros idx [nr ms rs ph ws]; simpl.
  - by rewrite app_nil_r.
  - rewrite IH. unfold set_mapTasks; simpl. rewrite <- app_assoc, Nat.add_0_r. simpl.
    do 3 f_equal. apply imap_ext. intros i x _. unfold compose. by rewrite Nat.add_succ_r.
Qed.

Lemma MakeCoordinator_spec files nR :
  MakeCoordinator files nR = mkCoordinator nR (mapJobs files nR) [] MapPhase [].
Proof. unfold MakeCoordinator. by rewrite addMapTasks_spec. Qed.

Lemma foldl_newReduceTask js l :
  foldl (fun js i => js ++ [newReduceTask i]) js l = js ++ (newReduceTask <$> l).
Proof.
  revert js. induction l as [|i l IH]; intros js; simpl; [by rewrite app_nil_r|].
  by rewrite IH, <- app_assoc.
Qed.

Lemma newReduceTasks_not_done nR : reduceJobs nR = [] \/ ~ all_done (reduceJobs nR).
Proof.
  unfold reduceJobs. destruct (seqZ 0 nR) as [|i l]; simpl; [by left|right].
  intros Hd. by inversion Hd.
Qed.

Lemma mapJobs_wf files nR : Forall job_wf (mapJobs files nR).
Proof.
  apply Forall_lookup. intros i j. unfold mapJobs. rewrite list_lookup_imap.
  destruct (files !! i); intros ?; simplify_eq/=. by left.
Qed.

Lemma reduceJobs_wf nR : Forall job_wf (reduceJobs nR).
Proof. apply Forall_fmap, Forall_true. intros i. by left. Qed.

Lemma mapJobs_not_done files nR : mapJobs files nR = [] \/ ~ all_done (mapJobs files nR).
Proof.
  destruct files as [|f files]; [by left|right]. intros Hd. by inversion Hd.
Qed.

(** *** The effect of each handler, case by case *)

(** What one [TaskRequestByWorker] does to the coordinator and replies. *)
Inductive request_effect (args : WorkerTaskRequestArgs) (c : Coordinator) :
    Coordinator -> WorkerTaskRequestReply -> Prop :=
  | req_none r : TaskAvailable r = false -> request_effect args c c r
  | req_map w i j :
      phase c = MapPhase -> w ∈ workers c -> workerId w = req_WorkerID args ->
      list_find (fun t => status t = Waiting) (mapTasks c) = Some (i, j) ->
      request_effect args c (set_mapTasks (<[i := take_job w j]> (mapTasks c)) c)
        (mkReqReply (taskId j) MapTask Pending (filePath j) true (nReduce j) MapPhase 0%Z)
  | req_reduce w i j :
      phase c = ReducePhase -> w ∈ workers c -> workerId w = req_WorkerID args ->
      list_find (fun t => status t = Waiting) (reduceTasks c) = Some (i, j) ->
      request_effect args c (set_reduceTasks (<[i := take_job w j]> (reduceTasks c)) c)
        (mkReqReply (taskId j) ReduceTask Pending "" true 0%Z ReducePhase (partition j)).

Lemma request_effect_of args c c' r err :
  TaskRequestByWorker args zeroReqReply c = (c', r, err) -> request_effect args c c' r.
Proof.
  unfold TaskRequestByWorker, assignMapTask, assignReduceTask.
  destruct (list_find _ (workers c)) as [[k w]|] eqn:Hw;
    [|intros [= <- <- <-]; by constructor].
  apply list_find_Some in Hw as (Hk & Hid & _). apply list_elem_of_lookup_2 in Hk.
  case_decide as Hm; [|case_decide as Hr; [|case_decide]].
  - destruct (list_find _ (mapTasks c)) as [[i j]|] eqn:Hf;
      intros [= <- <- <-]; simpl; [rewrite Hm; by eapply req_map|by constructor].
  - destruct (list_find _ (reduceTasks c)) as [[i j]|] eqn:Hf;
      intros [= <- <- <-]; simpl; [rewrite Hr; by eapply req_reduce|by constructor].
  - intros [= <- <- <-]. by constructor.
  - intros [= <- <- <-]. by constructor.
Qed.

(** What one [TaskUpdateByWorker] does to the coordinator. *)
Inductive update_effect (args : WorkerTaskUpdateArgs) (c : Coordinator) :
    Coordinator -> WorkerTaskUpdateReply -> Prop :=
  | upd_none r : Message r <> "Task update received successfully" -> update_effect args c c r
  | upd_map i j :
      upd_Type args = MapTask -> mapTasks c !! i = Some j -> taskId j = upd_TaskId args ->
      workerId (worker j) = upd_WorkerID args -> upd_WorkerID args <> "" -> status j <> DONE ->
      update_effect args c
        (TaskTransitionManager MapTask (set_mapTasks (<[i := set_jstatus DONE j]> (mapTasks c)) c))
        (mkUpdReply DONE "Task update received successfully" (phase c))
  | upd_reduce i j :
      upd_Type args = ReduceTask -> reduceTasks c !! i = Some j -> taskId j = upd_TaskId args ->
      workerId (worker j) = upd_WorkerID args -> upd_WorkerID args <> "" -> status j <> DONE ->
      update_effect args c
        (TaskTransitionManager ReduceTask
           (set_reduceTasks (<[i := set_jstatus DONE j]> (reduceTasks c)) c))
        (mkUpdReply DONE "Task update received successfully" (phase c)).

Lemma update_effect_of args c c' r err :
  TaskUpdateByWorker args zeroUpdReply c = (c', r, err) -> update_effect args c c' r.
Proof.
  unfold TaskUpdateByWorker, jobs_of, set_jobs_of; simpl.
  case_decide; [intros [= <- <- <-]; by constructor|].
  case_decide as Hw; [intros [= <- <- <-]; by constructor|].
  case_decide; [intros [= <- <- <-]; by constructor|].
  case_decide as Hm; [|case_decide as Hr; [|intros [= <- <- <-]; by constructor]].
  - destruct (list_find _ _) as [[i j]|] eqn:Hf; [|intros [= <- <- <-]; by constructor].
    apply list_find_Some in Hf as (Hi & Hid & _).
    case_decide as Hown; [intros [= <- <- <-]; by apply upd_none|].
    case_decide; intros [= <- <- <-]; [by constructor|]. rewrite Hm. by eapply upd_map.
  - destruct (list_find _ _) as [[i j]|] eqn:Hf; [|intros [= <- <- <-]; by constructor].
    apply list_find_Some in Hf as (Hi & Hid & _).
    case_decide as Hown; [intros [= <- <- <-]; by apply upd_none|].
    case_decide; intros [= <- <- <-]; [by constructor|]. rewrite Hr. by eapply upd_reduce.
Qed.

(** [WorkerSync] and the two halves of [RegisterWorker] touch the workers only. *)
Lemma WorkerSync_workers net now wid port idx c c' :
  WorkerSync net now wid port idx c = Some c' -> exists ws, c' = set_workers ws c.
Proof.
  unfold WorkerSync. intros Hs. apply bind_Some in Hs as (w & _ & Hs).
  repeat case_match; simplify_eq; eauto.
Qed.

(** *** Preservation *)

Lemma set_workers_inv files nR ws c :
  coord_inv files nR c -> coord_inv files nR (set_workers ws c).
Proof.
  intros [? ? ? ? Hp]. split; try done. destruct Hp; [by apply phase_ok_map|
    by apply phase_ok_reduce|by apply phase_ok_finished].
Qed.

Lemma request_inv files nR args c c' r :
  request_effect args c c' r -> coord_inv files nR c -> coord_inv files nR c'.
Proof.
  intros [r' _|w i j Hph _ _ Hf|w i j Hph _ _ Hf] [Hn Hms Hmw Hrw Hp]; [by split|..];
    pose proof Hf as (Hi & Hw & _)%list_find_Some.
  - split; simpl; auto with go.
    + by rewrite (fmap_insert_same _ _ _ _ j).
    + apply Forall_insert; [done|apply take_wf].
    + destruct Hp as [_ Hr _|Hp'|Hp']; [|by mr_consts..].
      apply phase_ok_map; simpl; auto. right. by apply take_not_done.
  - split; simpl; auto with go.
    + apply Forall_insert; [done|apply take_wf].
    + destruct Hp as [Hp'|_ Hd Hs _|Hp']; [by mr_consts| |by mr_consts].
      apply phase_ok_reduce; simpl; auto; [by rewrite (fmap_insert_same _ _ _ _ j)|].
      right. by apply take_not_done.
Qed.

Lemma complete_wf js i j :
  Forall job_wf js -> js !! i = Some j -> workerId (worker j) <> "" ->
  Forall job_wf (<[i := set_jstatus DONE j]> js).
Proof. intros. apply Forall_insert; [done|]. right. by right. Qed.

Lemma update_inv files nR args c c' r :
  update_effect args c c' r -> coord_inv files nR c -> coord_inv files nR c'.
Proof.
  intros [r' _|i j _ Hi _ Hown Hne Hnd|i j _ Hi _ Hown Hne Hnd] [Hn Hms Hmw Hrw Hp];
    [by split|..]; rewrite <- Hown in Hne.
  - assert (Hmw' := complete_wf _ _ _ Hmw Hi Hne).
    assert (Hms' : job_static <$> <[i := set_jstatus DONE j]> (mapTasks c)
                   = job_static <$> mapJobs files nR) by (by rewrite (fmap_insert_same _ _ _ _ j)).
    destruct Hp as [Hph Hr _|? Hd|? Hd];
      [|exfalso; eapply Forall_lookup_1 in Hd; done..].
    unfold TaskTransitionManager. rewrite decide_True by done. simpl.
    destruct (hasPendingTask _) eqn:Hpend.
    + split; simpl; auto. apply phase_ok_map; simpl; auto. right.
      intros Hd. by apply all_done_hasPendingTask in Hd; [rewrite Hpend in Hd|].
    + apply all_done_hasPendingTask in Hpend; [|done].
      rewrite foldl_newReduceTask, Hr, Hn. simpl. fold (reduceJobs nR).
      split; simpl; auto using reduceJobs_wf.
      apply phase_ok_reduce; simpl; auto using newReduceTasks_not_done.
  - assert (Hrw' := complete_wf _ _ _ Hrw Hi Hne).
    unfold TaskTransitionManager. rewrite decide_False, decide_True by done. simpl.
    destruct Hp as [_ Hr _|Hph Hd Hs _|? Hd Hs Hrd]; [by rewrite Hr in Hi| |
      exfalso; eapply Forall_lookup_1 in Hrd; done].
    assert (Hs' : job_static <$> <[i := set_jstatus DONE j]> (reduceTasks c)
                  = job_static <$> reduceJobs nR) by (by rewrite (fmap_insert_same _ _ _ _ j)).
    case_decide as Hcnt; rewrite all_done_countDone in Hcnt.
    + split; simpl; auto. apply phase_ok_finished; simpl; auto.
      intros Hnil%(f_equal length). rewrite length_insert in Hnil.
      apply lookup_lt_Some in Hi. simpl in Hnil. lia.
    + split; simpl; auto. apply phase_ok_reduce; simpl; auto.
Qed.

Lemma step_inv files nR s ev s' :
  step s ev s' -> coord_inv files nR (coord s) -> coord_inv files nR (coord s').
Proof.
  destruct 1 as [| |args reply c' err s H|args reply c' err s H|net now wid port idx c' s H];
    simpl; intros Hinv.
  - done.
  - by apply set_workers_inv.
  - eapply request_inv; [by eapply request_effect_of|done].
  - eapply update_inv; [by eapply update_effect_of|done].
  - apply WorkerSync_workers in H as [ws ->]. by apply set_workers_inv.
Qed.

Lemma init_inv files nR : coord_inv files nR (MakeCoordinator files nR).
Proof.
  rewrite MakeCoordinator_spec. split; simpl; auto using mapJobs_wf.
  apply phase_ok_map; simpl; auto using mapJobs_not_done.
Qed.

Lemma run_inv files nR s evs s' :
  run s evs s' -> coord_inv files nR (coord s) -> coord_inv files nR (coord s').
Proof. induction 1; eauto using step_inv. Qed.

#[export] Hint Resolve init_inv run_inv step_inv : go.

(** ** Jobs and phases only move forward *)

Definition status_rank (s : TaskStatus) : nat :=
  if decide (s = Waiting) then 0 else if decide (s = Pending) then 1 else 2.

Definition phase_rank (p : CoordinatorPhase) : nat :=
  if decide (p = MapPhase) then 0 else if decide (p = ReducePhase) then 1 else 2.

(** A job moves from waiting through pending to done, and keeps its identity,
    and its owner once it has one. *)
Definition job_le (j j' : Job) : Prop :=
  job_static j' = job_static j /\ status_rank (status j) <= status_rank (status j') /\
  (status j <> Waiting -> worker j' = worker j).

Definition jobs_le (js js' : list Job) : Prop :=
  forall i j, js !! i = Some j -> exists j', js' !! i = Some j' /\ job_le j j'.

Definition coord_le (c c' : Coordinator) : Prop :=
  jobs_le (mapTasks c) (mapTasks c') /\ jobs_le (reduceTasks c) (reduceTasks c') /\
  phase_rank (phase c) <= phase_rank (phase c').

#[export] Instance job_le_preorder : PreOrder job_le.
Proof.
  split; [by intros j|]. intros j1 j2 j3 (H1 & H2 & H3) (H4 & H5 & H6).
  split; [congruence|split; [lia|]]. intros Hw. rewrite <- H3 by done. apply H6.
  intros Hw2. rewrite Hw2 in H2. unfold status_rank in H2. repeat case_decide; simpl in *; lia || done.
Qed.

#[export] Instance jobs_le_preorder : PreOrder jobs_le.
Proof.
  split.
  - intros js i j ?. exists j. by split.
  - intros l1 l2 l3 H12 H23 i j Hj. destruct (H12 i j Hj) as (j2 & Hj2 & ?).
    destruct (H23 i j2 Hj2) as (j3 & ? & ?). exists j3. split; [done|]. by etrans.
Qed.

#[export] Instance coord_le_preorder : PreOrder coord_le.
Proof.
  split; [intros c; split; [done|split; [done|lia]]|].
  intros c1 c2 c3 (? & ? & ?) (? & ? & ?). split; [by etrans|split; [by etrans|lia]].
Qed.

Lemma jobs_le_insert js i j j' :
  js !! i = Some j -> job_le j j' -> jobs_le js (<[i := j']> js).
Proof.
  intros Hi Hle k jk Hk. destruct (decide (i = k)) as [->|Hne].
  - exists j'. split; [apply list_lookup_insert_eq; by eapply lookup_lt_Some|]. by simplify_eq.
  - exists jk. by rewrite list_lookup_insert_ne.
Qed.

Lemma jobs_le_nil js : jobs_le [] js.
Proof. intros i j H. done. Qed.

Lemma take_le w j : status j = Waiting -> job_le j (take_job w j).
Proof. intros Hw. split; [done|]. rewrite Hw. split; [compute; lia|done]. Qed.

Lemma complete_le j : job_le j (set_jstatus DONE j).
Proof.
  split; [done|]. split; [|done]. unfold status_rank at 2; simpl.
  unfold status_rank. repeat case_decide; lia.
Qed.

#[export] Hint Resolve take_le complete_le jobs_le_nil jobs_le_insert : go.

Lemma request_le args c c' r : request_effect args c c' r -> coord_le c c'.
Proof.
  intros [r' _|w i j _ _ _ (Hi & Hw & _)%list_find_Some|w i j _ _ _ (Hi & Hw & _)%list_find_Some];
    [done|..]; (split; [|split]); simpl; eauto with go; done || eapply jobs_le_insert; eauto with go.
Qed.

Lemma update_le files nR args c c' r :
  coord_inv files nR c -> update_effect args c c' r -> coord_le c c'.
Proof.
  intros [Hn Hms Hmw Hrw Hp] [r' _|i j _ Hi _ Hown Hne Hnd|i j _ Hi _ Hown Hne Hnd]; [done|..];
    unfold TaskTransitionManager.
  - rewrite decide_True by done; simpl. destruct (hasPendingTask _).
    + split; [|done]. simpl. eapply jobs_le_insert; eauto with go.
    + split; [simpl; eapply jobs_le_insert; eauto with go|]. simpl.
      destruct Hp as [-> -> _|? Hd|? Hd]; [|exfalso; eapply Forall_lookup_1 in Hd; done..].
      split; [apply jobs_le_nil|compute; lia].
  - rewrite decide_False, decide_True by done; simpl.
    assert (jobs_le (reduceTasks c) (<[i := set_jstatus DONE j]> (reduceTasks c)))
      by (eapply jobs_le_insert; eauto with go).
    case_decide; (split; [done|split; [done|]]); simpl; [|done].
    unfold phase_rank at 2; simpl. unfold phase_rank. repeat case_decide; lia.
Qed.

Lemma step_le files nR s ev s' :
  coord_inv files nR (coord s) -> step s ev s' -> coord_le (coord s) (coord s').
Proof.
  intros Hinv. destruct 1 as [| |args reply c' err s H|args reply c' err s H|
    net now wid port idx c' s H]; simpl in *; [done|done|..].
  - eapply request_le. by eapply request_effect_of.
  - eapply update_le; [done|]. by eapply update_effect_of.
  - by apply WorkerSync_workers in H as [ws ->].
Qed.

Lemma run_le files nR s evs s' :
  coord_inv files nR (coord s) -> run s evs s' -> coord_le (coord s) (coord s').
Proof.
  intros Hinv. induction 1; [done|]. etrans; [by apply IHrun|].
  eapply step_le; [|done]. by eapply run_inv.
Qed.

(** ** Assignments *)

Lemma coord_le_jobs_of t c c' js :
  coord_le c c' -> jobs_of t c = Some js -> exists js', jobs_of t c' = Some js' /\ jobs_le js js'.
Proof.
  intros (Hm & Hr & _). unfold jobs_of. repeat case_decide; intros ?; simplify_eq; eauto.
Qed.

Lemma inv_ids_NoDup files nR c t js :
  coord_inv files nR c -> jobs_of t c = Some js -> NoDup (taskId <$> js).
Proof.
  intros [? Hms ? ? Hp]. unfold jobs_of. repeat case_decide; intros ?; simplify_eq.
  - by eapply NoDup_ids_map.
  - destruct Hp as [_ -> _|? ? Hs|? ? Hs]; [constructor|by eapply NoDup_ids_reduce..].
Qed.

(** The jobs behind the assignments of a run are no longer waiting. *)
Definition handed_out (c : Coordinator) (a : TaskType * string) : Prop :=
  exists js i j, jobs_of a.1 c = Some js /\ js !! i = Some j /\ taskId j = a.2 /\
    status j <> Waiting.

Lemma handed_out_le c c' a : coord_le c c' -> handed_out c a -> handed_out c' a.
Proof.
  intros Hle (js & i & j & Hjs & Hi & Hid & Hst).
  destruct (coord_le_jobs_of _ _ _ _ Hle Hjs) as (js' & Hjs' & Hle').
  destruct (Hle' i j Hi) as (j' & Hi' & Hst' & Hrk & _).
  exists js', i, j'. split_and!; [done|done|unfold job_static in Hst'; congruence|].
  intros Hw. rewrite Hw in Hrk. unfold status_rank in Hrk. repeat case_decide; simpl in *; lia || done.
Qed.

(** A request that hands out a job takes it from waiting to handed out. *)
Lemma request_assigns files nR args c c' r :
  coord_inv files nR c -> request_effect args c c' r -> TaskAvailable r = true ->
  handed_out c' (req_Type r, req_TaskId r) /\ ~ handed_out c (req_Type r, req_TaskId r).
Proof.
  intros Hinv Heff Hav.
  assert (Hgen : forall t js i j w,
    jobs_of t c = Some js -> js !! i = Some j -> status j = Waiting ->
    jobs_of t c' = Some (<[i := take_job w j]> js) ->
    handed_out c' (t, taskId j) /\ ~ handed_out c (t, taskId j)).
  { intros t js i j w Hjs Hi Hw Hjs'. split.
    - eexists _, i, (take_job w j). split_and!; [done| |done|by vm_compute].
      apply list_lookup_insert_eq. by eapply lookup_lt_Some.
    - intros (js2 & k & j2 & Hjs2 & Hk & Hid & Hst). simpl in *. simplify_eq.
      pose proof (inv_ids_NoDup _ _ _ _ _ Hinv Hjs) as Hnd.
      assert (i = k) as -> by (eapply (NoDup_lookup _ i k (taskId j) Hnd);
        rewrite list_lookup_fmap, ?Hi, ?Hk; simpl; congruence).
      congruence. }
  destruct Heff as [r Hr|w i j Hph _ _ (Hi & Hw & _)%list_find_Some|
    w i j Hph _ _ (Hi & Hw & _)%list_find_Some]; [congruence|..]; simpl;
    by eapply (Hgen _ _ i j w).
Qed.

Lemma assignments_snoc evs ev :
  assignments (evs ++ [ev]) = assignments evs ++ option_list (assignment ev).
Proof. unfold assignments. rewrite omap_app. simpl. by destruct (assignment ev). Qed.

Lemma step_assignment files nR s ev s' a :
  coord_inv files nR (coord s) -> step s ev s' -> assignment ev = Some a ->
  handed_out (coord s') a /\ ~ handed_out (coord s) a.
Proof.
  intros Hinv Hst Ha. destruct Hst as [| |args reply c' err s H| |]; simpl in *; try done.
  destruct (TaskAvailable reply) eqn:Hav; [|done]. simplify_eq.
  eapply request_assigns; [done| |done]. by eapply request_effect_of.
Qed.

Lemma run_assignments files nR evs s :
  run (init_sys files nR) evs s ->
  NoDup (assignments evs) /\ Forall (handed_out (coord s)) (assignments evs).
Proof.
  intros Hr. remember (init_sys files nR) as s0 eqn:Hs0.
  induction Hr as [s0|s0 evs s' ev s'' Hr IH Hst]; [by repeat constructor|].
  destruct (IH Hs0) as [Hnd Hho]. subst s0.
  assert (Hinv : coord_inv files nR (coord s')) by (eapply run_inv; [done|apply init_inv]).
  assert (Hho' : Forall (handed_out (coord s'')) (assignments evs)).
  { eapply Forall_impl; [done|]. intros a. apply handed_out_le. by eapply step_le. }
  rewrite assignments_snoc. destruct (assignment ev) as [a|] eqn:Ha; simpl;
    [|by rewrite app_nil_r].
  destruct (step_assignment _ _ _ _ _ _ Hinv Hst Ha) as [Hnew Hold].
  split; [|by apply Forall_app_2, Forall_singleton].
  apply NoDup_app. split_and!; [done| |apply NoDup_singleton].
  intros b Hb ->%list_elem_of_singleton. apply Hold. by eapply Forall_forall in Hho.
Qed.
