(* ===== verification/JobBoard.v ===== *)
(** * What the coordinator promises: an abstract job board

    The coordinator reduced to its contract: a table of map slots and a table of
    reduce slots, each free, owned or completed, and a stage that moves on when
    a table is complete. The handlers of coordinator.go refine it, and the work
    left on the board gives their progress properties. *)

From S2P Require Import Prelude GoLib MrTypes Coordinator CoordinatorInv.

(** ** The board *)

Inductive slot := Free | Owned (w : string) | Completed.
Inductive stage := MapStage | ReduceStage | FinishedStage.

Record Board := mkBoard {
  b_stage : stage;
  b_map : list slot;
  b_reduce : list slot;
}.

Definition complete (l : list slot) : Prop := Forall (fun s => s = Completed) l.

Inductive board_step (n : nat) : Board -> Board -> Prop :=
  | bs_stutter b : board_step n b b
  | bs_take_map i w m r :
      m !! i = Some Free ->
      board_step n (mkBoard MapStage m r) (mkBoard MapStage (<[i := Owned w]> m) r)
  | bs_finish_map i w m r :
      m !! i = Some (Owned w) -> ~ complete (<[i := Completed]> m) ->
      board_step n (mkBoard MapStage m r) (mkBoard MapStage (<[i := Completed]> m) r)
  | bs_last_map i w m :
      m !! i = Some (Owned w) -> complete (<[i := Completed]> m) ->
      board_step n (mkBoard MapStage m [])
        (mkBoard ReduceStage (<[i := Completed]> m) (replicate n Free))
  | bs_take_reduce i w m r :
      complete m -> r !! i = Some Free ->
      board_step n (mkBoard ReduceStage m r) (mkBoard ReduceStage m (<[i := Owned w]> r))
  | bs_finish_reduce i w m r :
      complete m -> r !! i = Some (Owned w) -> ~ complete (<[i := Completed]> r) ->
      board_step n (mkBoard ReduceStage m r) (mkBoard ReduceStage m (<[i := Completed]> r))
  | bs_last_reduce i w m r :
      complete m -> r !! i = Some (Owned w) -> complete (<[i := Completed]> r) ->
      board_step n (mkBoard ReduceStage m r) (mkBoard FinishedStage m (<[i := Completed]> r)).

Definition init_board (nfiles : nat) : Board := mkBoard MapStage (replicate nfiles Free) [].

(** ** The abstraction *)

Definition slot_of (j : Job) : slot :=
  if decide (status j = Waiting) then Free
  else if decide (status j = DONE) then Completed else Owned (workerId (worker j)).

Definition stage_of (p : CoordinatorPhase) : stage :=
  if decide (p = MapPhase) then MapStage
  else if decide (p = ReducePhase) then ReduceStage else FinishedStage.

Definition board_of (c : Coordinator) : Board :=
  mkBoard (stage_of (phase c)) (slot_of <$> mapTasks c) (slot_of <$> reduceTasks c).

(** ** Work left: the requests and updates the job still needs *)

Definition job_work (j : Job) : nat := 2 - status_rank (status j).

Definition work (nR : Z) (c : Coordinator) : nat :=
  sum_list_with job_work (mapTasks c) +
  (if decide (phase c = MapPhase) then 2 * Z.to_nat nR
   else sum_list_with job_work (reduceTasks c)).

(** The updates a run accepts as completing a job. *)
Definition completion (ev : Event) : option (TaskType * string) :=
  match ev with
  | EvUpdate args reply =>
      if decide (Message reply = "Task update received successfully")
      then Some (upd_Type args, upd_TaskId args) else None
  | _ => None
  end.

Definition completions (evs : list Event) : list (TaskType * string) := omap completion evs.

(** ** Refinement *)

Lemma complete_all_done js : complete (slot_of <$> js) <-> all_done js.
Proof.
  unfold complete, all_done. rewrite Forall_fmap. apply Forall_iff. intros j.
  unfold slot_of; simpl. repeat case_decide; split; intros; simplify_eq; done || mr_consts.
Qed.

Lemma slot_of_waiting j : status j = Waiting -> slot_of j = Free.
Proof. intros H. unfold slot_of. by rewrite decide_True. Qed.

(** A job that an update can complete is owned by the worker that reports it. *)
Lemma owned_of_wf j w :
  job_wf j -> workerId (worker j) = w -> w <> "" -> status j <> DONE ->
  status j = Pending /\ slot_of j = Owned w.
Proof.
  unfold slot_of. intros [[Hw Hz]|[Hp|[Hd _]]] <- Hne Hnd; [|by rewrite Hp|done].
  by rewrite Hz in Hne.
Qed.

Lemma lookup_slot (js : list Job) i j :
  js !! i = Some j -> (slot_of <$> js) !! i = Some (slot_of j).
Proof. intros H. by rewrite list_lookup_fmap, H. Qed.

Lemma slots_new nR : slot_of <$> reduceJobs nR = replicate (Z.to_nat nR) Free.
Proof.
  symmetry. apply replicate_as_Forall. unfold reduceJobs. rewrite !length_fmap, length_seqZ.
  split; [done|]. apply Forall_fmap, Forall_fmap, Forall_true. done.
Qed.

Lemma slots_init files nR : slot_of <$> mapJobs files nR = replicate (length files) Free.
Proof.
  symmetry. apply replicate_as_Forall. unfold mapJobs. rewrite length_fmap, length_imap.
  split; [done|]. apply Forall_fmap, Forall_lookup. intros i j.
  rewrite list_lookup_imap. destruct (files !! i); intros ?; by simplify_eq/=.
Qed.

Lemma request_refines n args c c' r :
  request_effect args c c' r ->
  (phase c = ReducePhase -> all_done (mapTasks c)) -> board_step n (board_of c) (board_of c').
Proof.
  intros Heff Hd.
  destruct Heff as [r' _|w i j Hph _ _ (Hi & Hw & _)%list_find_Some|
    w i j Hph _ _ (Hi & Hw & _)%list_find_Some]; [constructor|..];
    unfold board_of; simpl; rewrite Hph; simpl; rewrite list_fmap_insert.
  - apply bs_take_map. by rewrite (lookup_slot _ _ _ Hi), slot_of_waiting.
  - apply bs_take_reduce; [by apply complete_all_done, Hd|].
    by rewrite (lookup_slot _ _ _ Hi), slot_of_waiting.
Qed.

Lemma update_refines files nR args c c' r :
  coord_inv files nR c -> update_effect args c c' r ->
  board_step (Z.to_nat nR) (board_of c) (board_of c').
Proof.
  intros [Hn Hms Hmw Hrw Hp] [r' _|i j _ Hi _ Hown Hne Hnd|i j _ Hi _ Hown Hne Hnd];
    [constructor|..]; unfold TaskTransitionManager.
  - rewrite decide_True by done; simpl.
    destruct (owned_of_wf j (upd_WorkerID args)) as [Hpd Hsl]; try done;
      [by eapply Forall_lookup_1 in Hmw|].
    assert (Hmw' : Forall job_wf (<[i := set_jstatus DONE j]> (mapTasks c)))
      by (apply complete_wf; congruence).
    destruct Hp as [Hph Hr _|? Hd|? Hd]; [|exfalso; eapply Forall_lookup_1 in Hd; done..].
    assert (Hlk : (slot_of <$> mapTasks c) !! i = Some (Owned (upd_WorkerID args)))
      by (by rewrite (lookup_slot _ _ _ Hi), Hsl).
    pose proof (all_done_hasPendingTask _ Hmw') as Hpend.
    rewrite <- complete_all_done, list_fmap_insert in Hpend.
    destruct (hasPendingTask _); unfold board_of; simpl; rewrite Hph, Hr; simpl;
      rewrite list_fmap_insert.
    + eapply bs_finish_map; [done|]. naive_solver.
    + rewrite foldl_newReduceTask, Hn. simpl. fold (reduceJobs nR). rewrite slots_new.
      eapply bs_last_map; [done|]. naive_solver.
  - rewrite decide_False, decide_True by done; simpl.
    destruct (owned_of_wf j (upd_WorkerID args)) as [Hpd Hsl]; try done;
      [by eapply Forall_lookup_1 in Hrw|].
    destruct Hp as [_ Hr _|Hph Hd Hs _|? Hd Hs Hrd]; [by rewrite Hr in Hi| |
      exfalso; eapply Forall_lookup_1 in Hrd; done].
    apply complete_all_done in Hd.
    assert (Hlk : (slot_of <$> reduceTasks c) !! i = Some (Owned (upd_WorkerID args)))
      by (by rewrite (lookup_slot _ _ _ Hi), Hsl).
    case_decide as Hcnt; rewrite all_done_countDone, <- complete_all_done, list_fmap_insert in Hcnt;
      unfold board_of; simpl; rewrite Hph; simpl; rewrite list_fmap_insert.
    + by eapply bs_last_reduce.
    + by eapply bs_finish_reduce.
Qed.

Lemma board_of_set_workers ws c : board_of (set_workers ws c) = board_of c.
Proof. done. Qed.

Lemma step_refines files nR s ev s' :
  coord_inv files nR (coord s) -> step s ev s' ->
  board_step (Z.to_nat nR) (board_of (coord s)) (board_of (coord s')).
Proof.
  intros Hinv. destruct 1 as [| |args reply c' err s H|args reply c' err s H|
    net now wid port idx c' s H]; simpl in *; [constructor|constructor|..].
  - eapply request_refines; [by eapply request_effect_of|].
    intros Hph. destruct (inv_phase _ _ _ Hinv); [mr_consts|done..].
  - eapply update_refines; [done|by eapply update_effect_of].
  - apply WorkerSync_workers in H as [ws ->]. constructor.
Qed.

(** ** Work left *)

Lemma request_work nR args c c' r :
  request_effect args c c' r ->
  work nR c = (if TaskAvailable r then 1 else 0) + work nR c'.
Proof.
  intros [r' Hr|w i j Hph _ _ (Hi & Hw & _)%list_find_Some|
    w i j Hph _ _ (Hi & Hw & _)%list_find_Some]; [by rewrite Hr|..];
    unfold work; simpl; rewrite Hph; simpl;
    pose proof (sum_list_with_insert job_work _ _ _ (take_job w j) Hi) as Hs;
    assert (job_work j = 2) as Hj by (unfold job_work; by rewrite Hw);
    rewrite Hj in Hs; cbv [job_work take_job set_jworker set_jstatus status] in Hs |- *;
    change (status_rank Pending) with 1 in Hs; lia.
Qed.

Lemma work_new nR : sum_list_with job_work (reduceJobs nR) = 2 * Z.to_nat nR.
Proof.
  rewrite (sum_list_with_const _ _ 2).
  - unfold reduceJobs. by rewrite length_fmap, length_seqZ.
  - apply Forall_fmap, Forall_true. done.
Qed.

Lemma update_work files nR args c c' r :
  coord_inv files nR c -> update_effect args c c' r ->
  work nR c = (if decide (Message r = "Task update received successfully") then 1 else 0) + work nR c'.
Proof.
  intros Hinv Heff.
  assert (Hj : forall js i j, js !! i = Some j -> Forall job_wf js ->
    workerId (worker j) = upd_WorkerID args -> upd_WorkerID args <> "" -> status j <> DONE ->
    sum_list_with job_work js = S (sum_list_with job_work (<[i := set_jstatus DONE j]> js))).
  { intros js i j Hi Hwf Hown Hne Hnd.
    destruct (owned_of_wf j (upd_WorkerID args)) as [Hp _]; try done;
      [by eapply Forall_lookup_1 in Hwf|].
    pose proof (sum_list_with_insert job_work _ _ _ (set_jstatus DONE j) Hi) as Hs.
    assert (job_work j = 1) as Hj by (unfold job_work; by rewrite Hp).
    assert (job_work (set_jstatus DONE j) = 0) as Hj' by done. lia. }
  destruct Hinv as [Hn Hms Hmw Hrw Hp].
  destruct Heff as [r' Hr|i j _ Hi _ Hown Hne Hnd|i j _ Hi _ Hown Hne Hnd];
    [by rewrite decide_False|..]; simpl; unfold TaskTransitionManager.
  - rewrite decide_True by done; simpl.
    destruct Hp as [Hph Hr _|? Hd|? Hd]; [|exfalso; eapply Forall_lookup_1 in Hd; done..].
    pose proof (Hj _ _ _ Hi Hmw Hown Hne Hnd) as Hs.
    destruct (hasPendingTask _); unfold work; simpl; rewrite Hph; simpl; [lia|].
    rewrite foldl_newReduceTask, Hr, Hn. simpl. fold (reduceJobs nR). rewrite work_new. lia.
  - rewrite decide_False, decide_True by done; simpl.
    destruct Hp as [_ Hr _|Hph Hd Hs _|? Hd Hs Hrd]; [by rewrite Hr in Hi| |
      exfalso; eapply Forall_lookup_1 in Hrd; done].
    pose proof (Hj _ _ _ Hi Hrw Hown Hne Hnd) as Hs'.
    case_decide; unfold work; simpl; rewrite Hph; simpl; lia.
Qed.

Lemma step_work files nR s ev s' :
  coord_inv files nR (coord s) -> step s ev s' ->
  work nR (coord s) =
  length (option_list (assignment ev)) + length (option_list (completion ev)) + work nR (coord s').
Proof.
  intros Hinv. destruct 1 as [| |args reply c' err s H|args reply c' err s H|
    net now wid port idx c' s H]; simpl in *; [done|done|..].
  - rewrite (request_work nR _ _ _ _ (request_effect_of _ _ _ _ _ H)).
    destruct (TaskAvailable reply); simpl; lia.
  - rewrite (update_work _ _ _ _ _ _ Hinv (update_effect_of _ _ _ _ _ H)).
    case_decide; simpl; lia.
  - by apply WorkerSync_workers in H as [ws ->].
Qed.

Lemma run_work files nR s evs s' :
  coord_inv files nR (coord s) -> run s evs s' ->
  work nR (coord s) = length (assignments evs) + length (completions evs) + work nR (coord s').
Proof.
  intros Hinv. induction 1 as [s|s evs s' ev s'' Hr IH Hst]; [done|].
  rewrite assignments_snoc, length_app, IH by done.
  rewrite (step_work files nR s' ev s'') by (eauto using run_inv).
  unfold completions. rewrite omap_app, length_app.
  replace (omap completion [ev]) with (option_list (completion ev))
    by (simpl; by destruct (completion ev)). lia.
Qed.

Lemma work_init files nR :
  work nR (MakeCoordinator files nR) = 2 * (length files + Z.to_nat nR).
Proof.
  rewrite MakeCoordinator_spec. unfold work; simpl.
  rewrite (sum_list_with_const _ _ 2); [unfold mapJobs; rewrite length_imap; lia|].
  apply Forall_lookup. intros i j. unfold mapJobs. rewrite list_lookup_imap.
  destruct (files !! i); intros ?; by simplify_eq/=.
Qed.

Lemma sum_work_all_done js :
  Forall job_wf js -> sum_list_with job_work js = 0 <-> all_done js.
Proof.
  intros Hwf. rewrite sum_list_with_zero. unfold all_done. rewrite !Forall_forall.
  rewrite Forall_forall in Hwf.
  split; intros H j Hj; specialize (H j Hj); specialize (Hwf j Hj);
    destruct Hwf as [[Hw _]|[Hw|[Hw _]]]; unfold job_work in *; rewrite Hw in *; done.
Qed.

(** With at least one reduce partition, no work is left exactly when finished. *)
Lemma work_zero_finished files nR c :
  (0 < nR)%Z -> coord_inv files nR c -> work nR c = 0 <-> phase c = FinishedPhase.
Proof.
  intros HnR [Hn Hms Hmw Hrw Hp]. unfold work.
  destruct Hp as [Hph Hr _|Hph Hd Hs Hnd|Hph Hd Hs Hrd Hne]; rewrite Hph; simpl.
  - split; [lia|mr_consts].
  - split; [|by mr_consts]. intros H0. exfalso.
    assert (Hrd : all_done (reduceTasks c)) by (apply sum_work_all_done; [done|lia]).
    destruct Hnd as [Hnil|]; [|done].
    rewrite Hnil in Hs. apply (f_equal length) in Hs. unfold reduceJobs in Hs.
    rewrite !length_fmap, length_seqZ in Hs. simpl in Hs. lia.
  - apply sum_work_all_done in Hd; [|done]. apply sum_work_all_done in Hrd; [|done].
    rewrite Hd, Hrd. done.
Qed.

(** ** The job can always be finished *)

(** Some registered worker has a name, and so does every owner of a job. *)
Definition owner_named (j : Job) : Prop := status j = Pending -> workerId (worker j) <> "".

Definition serviceable (c : Coordinator) : Prop :=
  Exists (fun w => workerId w <> "") (workers c) /\
  Forall owner_named (mapTasks c) /\ Forall owner_named (reduceTasks c).

Definition reqArgs (id : string) : WorkerTaskRequestArgs := mkReqArgs id "" "".
Definition updArgs (t : TaskType) (j : Job) : WorkerTaskUpdateArgs :=
  mkUpdArgs (workerId (worker j)) (taskId j) t DONE ∅.

(** A named worker that asks while a job of the current phase waits gets it. *)
Lemma request_takes c id t js i j :
  Exists (fun w => workerId w = id) (workers c) -> id <> "" ->
  (t = MapTask /\ phase c = MapPhase \/ t = ReduceTask /\ phase c = ReducePhase) ->
  jobs_of t c = Some js -> list_find (fun x => status x = Waiting) js = Some (i, j) ->
  exists w r, workerId w = id /\
    (TaskAvailable r = true /\ req_Type r = t /\ req_TaskId r = taskId j /\ req_Phase r = phase c) /\
    TaskRequestByWorker (reqArgs id) zeroReqReply c
    = (set_jobs_of t (<[i := take_job w j]> js) c, r, nil_error).
Proof.
  intros Hex Hid Ht Hjs Hf. unfold TaskRequestByWorker.
  apply Exists_exists in Hex as (w0 & Hw0 & Hid0).
  destruct (list_find_elem_of (fun w => workerId w = id) (workers c) w0) as [[k w] Hk]; [done..|].
  change (req_WorkerID (reqArgs id)) with id. rewrite Hk.
  apply list_find_Some in Hk as (_ & Hwid & _).
  destruct Ht as [[-> Hph]|[-> Hph]]; cbv [jobs_of] in Hjs; simpl in Hjs; simplify_eq/=;
    rewrite Hph; simpl; unfold assignMapTask, assignReduceTask; rewrite Hf; simpl;
    eexists w, _; split_and!; by try reflexivity.
Qed.

(** The owner of a pending job that reports it completes it. *)
Lemma update_completes files nR c t js i j :
  coord_inv files nR c -> t = MapTask \/ t = ReduceTask ->
  jobs_of t c = Some js -> js !! i = Some j -> status j = Pending ->
  workerId (worker j) <> "" -> taskId j <> "" ->
  TaskUpdateByWorker (updArgs t j) zeroUpdReply c
  = (TaskTransitionManager t (set_jobs_of t (<[i := set_jstatus DONE j]> js) c),
     mkUpdReply DONE "Task update received successfully" (phase c), nil_error).
Proof.
  intros Hinv Ht Hjs Hi Hp Hw Hid. unfold TaskUpdateByWorker; simpl.
  rewrite (decide_False (P := taskId j = "")), (decide_False (P := workerId _ = "")) by done.
  rewrite (decide_False (P := t = "")) by (by destruct Ht as [-> | ->]).
  rewrite Hjs.
  assert (Hf : list_find (fun job => taskId job = taskId j) js = Some (i, j)).
  { apply list_find_Some. split_and!; [done..|]. intros k y Hk Hlt Hy.
    pose proof (inv_ids_NoDup _ _ _ _ _ Hinv Hjs) as Hnd.
    assert (i = k); [|lia]. eapply (NoDup_lookup _ i k (taskId j) Hnd);
      rewrite list_lookup_fmap, ?Hi, ?Hk; simpl; congruence. }
  rewrite Hf. rewrite decide_False by naive_solver. rewrite decide_False by (rewrite Hp; done).
  f_equal. f_equal. unfold set_jobs_of. by destruct Ht as [-> | ->].
Qed.

Lemma taskId_nonempty files nR c t js i j :
  coord_inv files nR c -> jobs_of t c = Some js -> js !! i = Some j -> taskId j <> "".
Proof.
  intros [_ Hms _ _ Hp] Hjs Hi. unfold jobs_of in Hjs.
  assert (Hgen : forall js', taskId <$> js = taskId <$> js' ->
    Forall (fun x => taskId x <> "") js' -> taskId j <> "").
  { intros js' Heq Hall. assert (Hj : (taskId <$> js) !! i = Some (taskId j))
      by (by rewrite list_lookup_fmap, Hi).
    rewrite Heq, list_lookup_fmap in Hj. destruct (js' !! i) as [x|] eqn:Hx; simplify_eq/=.
    rewrite <- Hj. by eapply Forall_lookup_1 in Hall. }
  case_decide; [|case_decide; [|done]]; simplify_eq.
  - eapply Hgen; [by apply ids_of_static|]. apply Forall_lookup. intros k x.
    unfold mapJobs. rewrite list_lookup_imap. destruct (files !! k); intros ?; by simplify_eq/=.
  - destruct Hp as [_ Hr _|_ _ Hs _|_ _ Hs _ _]; [by rewrite Hr in Hi|..];
      (eapply Hgen; [by apply ids_of_static|]); apply Forall_fmap, Forall_true; done.
Qed.

Lemma serviceable_set_jobs t js c :
  serviceable c -> Forall owner_named js -> serviceable (set_jobs_of t js c).
Proof.
  intros (Hw & Hm & Hr) Hjs. unfold set_jobs_of. by repeat case_decide.
Qed.

Lemma serviceable_transition t c : serviceable c -> serviceable (TaskTransitionManager t c).
Proof.
  intros (Hw & Hm & Hr). unfold TaskTransitionManager. repeat case_match; try done.
  split_and!; try done. simpl. rewrite foldl_newReduceTask. apply Forall_app_2; [done|].
  apply Forall_fmap, Forall_true. done.
Qed.

Lemma owner_named_jobs_of t c js : serviceable c -> jobs_of t c = Some js -> Forall owner_named js.
Proof. intros (_ & ? & ?). unfold jobs_of. repeat case_decide; intros; by simplify_eq. Qed.

(** The phase that is not finished has a table with an unfinished job. *)
Lemma current_jobs files nR c :
  files <> [] -> (0 < nR)%Z -> coord_inv files nR c -> phase c <> FinishedPhase ->
  exists t js, (t = MapTask /\ phase c = MapPhase \/ t = ReduceTask /\ phase c = ReducePhase) /\
    jobs_of t c = Some js /\ Forall job_wf js /\ ~ all_done js.
Proof.
  intros Hfiles HnR [_ Hms Hmw Hrw Hp] Hnf.
  destruct Hp as [Hph _ Hnd|Hph _ Hs Hnd|]; [| |done].
  - exists MapTask, (mapTasks c). split_and!; [by left|done|done|]. destruct Hnd as [Hnil|]; [|done].
    rewrite Hnil in Hms. by destruct files.
  - exists ReduceTask, (reduceTasks c). split_and!; [by right|done|done|].
    destruct Hnd as [Hnil|]; [|done]. rewrite Hnil in Hs. apply (f_equal length) in Hs.
    unfold reduceJobs in Hs. rewrite !length_fmap, length_seqZ in Hs. simpl in Hs. lia.
Qed.

Lemma not_all_done_pending js :
  Forall job_wf js -> ~ all_done js -> list_find (fun x => status x = Waiting) js = None ->
  exists i j, js !! i = Some j /\ status j = Pending.
Proof.
  intros Hwf Hnd Hf. apply list_find_None in Hf.
  destruct (decide (Exists (fun j => status j = Pending) js)) as [Hex|Hne].
  - apply Exists_exists in Hex as (j & Hj & Hp). apply list_elem_of_lookup in Hj as [i Hi]. eauto.
  - exfalso. apply Hnd. apply not_Exists_Forall in Hne; [|intros j; apply _].
    rewrite Forall_forall in Hwf, Hf, Hne. apply Forall_forall. intros j Hj.
    destruct (Hwf j Hj) as [[? _]|[?|[? _]]]; [by destruct (Hf j Hj)|by destruct (Hne j Hj)|done].
Qed.

Lemma progress_step files nR s :
  files <> [] -> (0 < nR)%Z -> coord_inv files nR (coord s) -> serviceable (coord s) ->
  phase (coord s) <> FinishedPhase ->
  exists ev s', step s ev s' /\ serviceable (coord s') /\
    work nR (coord s) = S (work nR (coord s')).
Proof.
  intros Hfiles HnR Hinv Hsv Hnf.
  destruct (current_jobs _ _ _ Hfiles HnR Hinv Hnf) as (t & js & Ht & Hjs & Hwf & Hnd).
  assert (Hon := owner_named_jobs_of _ _ _ Hsv Hjs).
  destruct (list_find (fun x => status x = Waiting) js) as [[i j]|] eqn:Hf.
  - pose proof Hsv as (Hw & _ & _). apply Exists_exists in Hw as (w0 & Hw0 & Hne).
    destruct (request_takes (coord s) (workerId w0) t js i j) as (w & r & Hwid & [Hav _] & Hreq);
      try done; [apply Exists_exists; eauto|].
    eexists _, (mkSys _ _). split_and!; [by apply step_request with (err := nil_error)|..]; simpl.
    + apply serviceable_set_jobs; [done|]. apply Forall_insert; [done|]. intros _. simpl. congruence.
    + pose proof (request_work nR _ _ _ _ (request_effect_of _ _ _ _ _ Hreq)) as Hwk.
      by rewrite Hav in Hwk.
  - destruct (not_all_done_pending js Hwf Hnd Hf) as (i & j & Hi & Hp).
    assert (Hown : workerId (worker j) <> "") by (by apply (Forall_lookup_1 _ _ _ _ Hon Hi)).
    assert (Hup := update_completes files nR (coord s) t js i j Hinv ltac:(naive_solver) Hjs Hi Hp Hown
      (taskId_nonempty _ _ _ _ _ _ _ Hinv Hjs Hi)).
    eexists _, (mkSys _ _). split_and!; [by apply step_update with (err := nil_error)|..]; simpl.
    + apply serviceable_transition, serviceable_set_jobs; [done|]. by apply Forall_insert.
    + pose proof (update_work _ nR _ _ _ _ Hinv (update_effect_of _ _ _ _ _ Hup)) as Hwk.
      by rewrite decide_True in Hwk.
Qed.

Lemma run_trans s evs s' evs' s'' : run s evs s' -> run s' evs' s'' -> run s (evs ++ evs') s''.
Proof.
  intros H1 H2. induction H2; [by rewrite app_nil_r|]. rewrite app_assoc. econstructor; eauto.
Qed.

Lemma can_finish files nR s :
  files <> [] -> (0 < nR)%Z -> coord_inv files nR (coord s) -> serviceable (coord s) ->
  exists evs s', run s evs s' /\ phase (coord s') = FinishedPhase /\ length evs = work nR (coord s).
Proof.
  intros Hfiles HnR. remember (work nR (coord s)) as n eqn:Hn. revert s Hn.
  induction n as [|n IH]; intros s Hn Hinv Hsv.
  - exists [], s. split_and!; [constructor| |done]. by eapply (work_zero_finished files nR).
  - assert (Hnf : phase (coord s) <> FinishedPhase).
    { intros Hph. apply (work_zero_finished files nR) in Hph; [lia|done..]. }
    destruct (progress_step files nR s) as (ev & s' & Hst & Hsv' & Hw); try done.
    destruct (IH s') as (evs & s'' & Hrun & Hfin & Hlen); [lia|by eapply step_inv|done|].
    exists (ev :: evs), s''. split_and!; [|done|simpl; lia].
    apply (run_trans s [ev] s'); [|done]. apply (run_snoc s [] s); [constructor|done].
Qed.
