(* ===== verification/CoordinatorTheorems.v ===== *)
(** * What the coordinator guarantees

    The theorems about all the runs of the coordinator's handlers, with a small
    interpreter of call sequences whose runs witness them. *)

From Stdlib Require Import Ascii.
From S2P Require Import Prelude GoLib MrTypes Coordinator CoordinatorInv JobBoard.

(** ** Sequences of calls *)

Inductive Call :=
  | CallRegister (id : string)
  | CallStore (k : nat)
  | CallRequest (id : string)
  | CallUpdate (id task : string) (t : TaskType).

Definition call_exec (cl : Call) (s : Sys) : option (Event * Sys) :=
  match cl with
  | CallRegister id =>
      let w := registered zero_time (mkRegArgs id "" "") in
      Some (EvRegisterRead w, mkSys (coord s) (reading s ++ [(workers (coord s), w)]))
  | CallStore k =>
      '(ws, w) ← reading s !! k;
      Some (EvRegisterStore k, mkSys (set_workers (ws ++ [w]) (coord s)) (delete k (reading s)))
  | CallRequest id =>
      let '(c', reply, _) := TaskRequestByWorker (reqArgs id) zeroReqReply (coord s) in
      Some (EvRequest (reqArgs id) reply, mkSys c' (reading s))
  | CallUpdate id task t =>
      let args := mkUpdArgs id task t DONE ∅ in
      let '(c', reply, _) := TaskUpdateByWorker args zeroUpdReply (coord s) in
      Some (EvUpdate args reply, mkSys c' (reading s))
  end.

Fixpoint calls_exec (cls : list Call) (s : Sys) : option (list Event * Sys) :=
  match cls with
  | [] => Some ([], s)
  | cl :: cls => '(ev, s1) ← call_exec cl s; '(evs, s2) ← calls_exec cls s1; Some (ev :: evs, s2)
  end.

Lemma call_exec_sound cl s ev s' : call_exec cl s = Some (ev, s') -> step s ev s'.
Proof.
  destruct cl as [id|k|id|id task t]; simpl.
  - intros [= <- <-]. constructor.
  - destruct (reading s !! k) as [[ws w]|] eqn:Hk; simpl; [|done]. intros [= <- <-]. by constructor.
  - destruct (TaskRequestByWorker _ _ _) as [[c' r] err] eqn:H. intros [= <- <-]. by econstructor.
  - destruct (TaskUpdateByWorker _ _ _) as [[c' r] err] eqn:H. intros [= <- <-]. by econstructor.
Qed.

Lemma calls_exec_sound cls s evs s' : calls_exec cls s = Some (evs, s') -> run s evs s'.
Proof.
  revert s evs. induction cls as [|cl cls IH]; intros s evs; simpl.
  - intros [= <- <-]. constructor.
  - destruct (call_exec cl s) as [[ev s1]|] eqn:H1; simpl; [|done].
    destruct (calls_exec cls s1) as [[evs' s2]|] eqn:H2; simpl; [|done]. intros [= <- <-].
    apply (run_trans s [ev] s1); [|by apply IH]. apply (run_snoc s [] s); [constructor|].
    by eapply call_exec_sound.
Qed.

(** A job of two files and one partition, run to its end by one worker. *)
Module Demo.
Definition files : list string := ["x"; "y"].
Definition calls : list Call :=
  [CallRegister "w"; CallStore 0; CallRequest "w"; CallUpdate "w" "task-0" MapTask;
   CallRequest "w"; CallUpdate "w" "task-1" MapTask].
Definition more_calls : list Call := [CallRequest "w"; CallUpdate "w" "task-0" ReduceTask].

Definition result (cls : list Call) (s : Sys) : list Event * Sys := default ([], s) (calls_exec cls s).

Lemma result_run cls s :
  bool_decide (is_Some (calls_exec cls s)) = true -> run s (result cls s).1 (result cls s).2.
Proof.
  unfold result. intros [[evs s'] H]%bool_decide_eq_true. rewrite H. by apply calls_exec_sound in H.
Qed.

Definition mapped : Sys := (result calls (init_sys files 1)).2.
Definition finished : Sys := (result (calls ++ more_calls) (init_sys files 1)).2.
Definition all_events : list Event := (result (calls ++ more_calls) (init_sys files 1)).1.
Definition more_events : list Event := (result more_calls mapped).1.

Lemma run_mapped : run (init_sys files 1) (result calls (init_sys files 1)).1 mapped.
Proof. apply result_run. by vm_compute. Qed.

Lemma run_finished : run (init_sys files 1) all_events finished.
Proof. apply result_run. by vm_compute. Qed.

(** The state in which "w" has been given the first map task. *)
Definition taken : Sys :=
  (result [CallRegister "w"; CallStore 0; CallRequest "w"] (init_sys files 1)).2.

Lemma inv_taken : coord_inv files 1 (coord taken).
Proof. eapply run_inv; [apply result_run; by vm_compute|apply init_inv]. Qed.
End Demo.

(** With no input file the map phase never ends. *)
Lemma no_files_map_phase nR s ev s' :
  coord_inv [] nR (coord s) -> phase (coord s) = MapPhase -> step s ev s' ->
  phase (coord s') = MapPhase.
Proof.
  intros Hinv Hph Hst.
  assert (Hnil : mapTasks (coord s) = []).
  { pose proof (inv_map_static _ _ _ Hinv) as Hs. by destruct (mapTasks (coord s)). }
  assert (Hr : reduceTasks (coord s) = []).
  { destruct (inv_phase _ _ _ Hinv) as [_ ? _|?|?]; [done|mr_consts..]. }
  destruct Hst as [| |args reply c' err s H|args reply c' err s H|net now wid port idx c' s H];
    simpl in *; try done.
  - by destruct (request_effect_of _ _ _ _ _ H).
  - destruct (update_effect_of _ _ _ _ _ H) as [|i j _ Hi|i j _ Hi]; [done|..].
    + by rewrite Hnil in Hi.
    + by rewrite Hr in Hi.
  - by apply WorkerSync_workers in H as [ws ->].
Qed.

(** The handler looks at three fields of an update. *)
Lemma update_args_irrelevant args args' reply c :
  upd_WorkerID args = upd_WorkerID args' /\ upd_TaskId args = upd_TaskId args' /\
  upd_Type args = upd_Type args' ->
  TaskUpdateByWorker args reply c = TaskUpdateByWorker args' reply c.
Proof. intros (H1 & H2 & H3). unfold TaskUpdateByWorker. by rewrite H1, H2, H3. Qed.

(** ** Safety *)

(** C3. In every state the coordinator can reach from [MakeCoordinator], under
    any interleaving of registrations, task requests, task updates and health
    checks, the job tables are well formed: the map jobs are those of the input
    files in order, no reduce job exists before every map job is done, the
    reduce jobs are those of partitions 0..nReduce-1, a waiting job has no owner
    and a finished one has, and the phase says exactly which jobs are done. *)
Theorem coordinator_invariant files nR evs s :
  run (init_sys files nR) evs s -> coord_inv files nR (coord s).
Proof. intros Hr. eapply run_inv; [done|]. apply init_inv. Qed.

Lemma coordinator_invariant_witness : coord_inv Demo.files 1 (coord Demo.finished).
Proof. eapply coordinator_invariant, Demo.run_finished. Defined.

(** Between any two states of a run jobs only move from waiting through
    pending to done, keep their id, file, partition and, once assigned, their
    owner, no job disappears, and the phase never goes back. *)
Theorem jobs_move_forward files nR evs evs' s s' :
  run (init_sys files nR) evs s -> run s evs' s' -> coord_le (coord s) (coord s').
Proof. intros H1 H2. eapply run_le; [|done]. eapply run_inv; [done|apply init_inv]. Qed.

Lemma jobs_move_forward_witness :
  coord_le (coord Demo.mapped) (coord (Demo.result Demo.more_calls Demo.mapped).2).
Proof.
  eapply jobs_move_forward; [apply Demo.run_mapped|]. apply Demo.result_run. by vm_compute.
Defined.

(** C5. No task is handed out twice in a run, and every task handed out is a job
    of its table that is no longer waiting. *)
Theorem tasks_assigned_once files nR evs s :
  run (init_sys files nR) evs s ->
  NoDup (assignments evs) /\ Forall (handed_out (coord s)) (assignments evs).
Proof. apply run_assignments. Qed.

Lemma tasks_assigned_once_witness :
  assignments Demo.all_events = [(MapTask, "task-0"); (MapTask, "task-1"); (ReduceTask, "task-0")] /\
  NoDup (assignments Demo.all_events).
Proof. split; [by vm_compute|]. eapply tasks_assigned_once, Demo.run_finished. Defined.

(** C6. A reduce task is handed out only when every map job is done, and it is a
    job of a partition below nReduce that was waiting. *)
Theorem reduce_waits_for_maps files nR evs s args c' r err :
  run (init_sys files nR) evs s ->
  TaskRequestByWorker args zeroReqReply (coord s) = (c', r, err) ->
  TaskAvailable r = true -> req_Type r = ReduceTask ->
  all_done (mapTasks (coord s)) /\ length (mapTasks (coord s)) = length files /\
  (0 <= req_Partition r < nR)%Z.
Proof.
  intros Hr Hreq Hav Hty. assert (Hinv : coord_inv files nR (coord s))
    by (eapply run_inv; [done|apply init_inv]).
  assert (Hlen : length (mapTasks (coord s)) = length files).
  { pose proof (inv_map_static _ _ _ Hinv) as Hs. apply (f_equal length) in Hs.
    unfold mapJobs in Hs. by rewrite !length_fmap, length_imap in Hs. }
  destruct (request_effect_of _ _ _ _ _ Hreq) as [r' Hf|w i j _ _ _ _|w i j Hph _ _ Hf];
    [congruence|done|]. simpl. apply list_find_Some in Hf as (Hi & _ & _).
  destruct (inv_phase _ _ _ Hinv) as [Hp|_ Hd Hs _|Hp]; [mr_consts| |mr_consts].
  split_and!; [done|done|..];
    apply (f_equal (fun l => l !! i)) in Hs; unfold reduceJobs in Hs;
    rewrite !list_lookup_fmap, Hi in Hs; destruct (seqZ 0 nR !! i) as [p|] eqn:Hp; simplify_eq/=;
    apply lookup_seqZ in Hp as [Hq Hlt]; lia.
Qed.

Lemma reduce_waits_for_maps_witness : all_done (mapTasks (coord Demo.mapped)).
Proof.
  eapply (reduce_waits_for_maps Demo.files 1 _ Demo.mapped (reqArgs "w"));
    [apply Demo.run_mapped|by vm_compute..].
Defined.

(** ** Refinement and progress *)



(** A job of n files and nReduce partitions takes exactly n+nReduce
    assignments and n+nReduce completions: a run never makes more of them than
    2(n+nReduce) in all, and it has made that many exactly when the coordinator is
    in the finished phase. *)
Theorem effective_calls_bound files nR evs s :
  (0 < nR)%Z -> run (init_sys files nR) evs s ->
  length (assignments evs) + length (completions evs) <= 2 * (length files + Z.to_nat nR) /\
  (length (assignments evs) + length (completions evs) = 2 * (length files + Z.to_nat nR)
   <-> Done (coord s) = FinishedPhase).
Proof.
  intros HnR Hr. pose proof (run_work files nR (init_sys files nR) _ _ (init_inv files nR) Hr) as Hw.
  simpl in Hw. rewrite work_init in Hw.
  assert (Hinv : coord_inv files nR (coord s)) by (eapply run_inv; [done|apply init_inv]).
  unfold Done. rewrite <- (work_zero_finished files nR) by done. lia.
Qed.

Lemma effective_calls_bound_witness :
  length (assignments Demo.all_events) + length (completions Demo.all_events) = 6.
Proof. apply (effective_calls_bound Demo.files 1 _ Demo.finished); [lia|apply Demo.run_finished|by vm_compute]. Defined.

(** C7. From every reachable state with a worker registered under a non-empty id,
    and in which no job was taken under the empty id, there is a continuation
    that finishes the job, with exactly as many calls as there is work left. *)
Theorem job_can_always_finish files nR evs s :
  files <> [] -> (0 < nR)%Z -> run (init_sys files nR) evs s -> serviceable (coord s) ->
  exists evs' s', run s evs' s' /\ Done (coord s') = FinishedPhase /\
    length evs' = work nR (coord s).
Proof. intros ? ? Hr ?. eapply can_finish; try done. eapply run_inv; [done|apply init_inv]. Qed.

Lemma job_can_always_finish_witness :
  exists evs' s', run Demo.mapped evs' s' /\ Done (coord s') = FinishedPhase /\ length evs' = 2.
Proof.
  eapply (job_can_always_finish Demo.files 1 _ Demo.mapped); [done|lia|apply Demo.run_mapped|].
  split; [by left|]. split; repeat constructor; done.
Defined.

(** Without input files, or without reduce partitions, the finished phase is
    never reached. *)
Theorem empty_job_never_finishes files nR evs s :
  files = [] \/ (nR <= 0)%Z -> run (init_sys files nR) evs s -> Done (coord s) <> FinishedPhase.
Proof.
  intros Hempty Hr. assert (Hinv : coord_inv files nR (coord s))
    by (eapply run_inv; [done|apply init_inv]).
  destruct Hempty as [->|HnR].
  - assert (Hph : phase (coord s) = MapPhase).
    { clear Hinv. remember (init_sys [] nR) as s0 eqn:Hs0.
      induction Hr as [s0|s0 evs s' ev s'' Hr IH Hst]; subst s0; [done|].
      assert (Hinv : coord_inv [] nR (coord s')) by (eapply run_inv; [done|apply init_inv]).
      eapply no_files_map_phase; [done|by apply IH|done]. }
    unfold Done. rewrite Hph. done.
  - unfold Done. intros Hph. destruct (inv_phase _ _ _ Hinv) as [Hp|Hp|_ _ Hs _ Hne]; [by mr_consts..|].
    apply Hne. apply (f_equal length) in Hs. unfold reduceJobs in Hs.
    rewrite !length_fmap, length_seqZ in Hs. apply nil_length_inv. lia.
Qed.

Lemma empty_job_never_finishes_witness : Done (coord (init_sys ["x"] 0)) <> FinishedPhase.
Proof. apply (empty_job_never_finishes ["x"] 0 []); [right; lia|constructor]. Defined.

(** ** The handlers *)

(** C9. An update is accepted exactly when it names, under a non-empty task id,
    worker id and type, a job of that type that is in progress at that very
    worker; then that job alone is done, and the phase moves on when it was the
    last one. *)
Theorem update_accepted_iff files nR args c c' r err :
  coord_inv files nR c -> TaskUpdateByWorker args zeroUpdReply c = (c', r, err) ->
  Message r = "Task update received successfully" <->
  exists js i j, jobs_of (upd_Type args) c = Some js /\ js !! i = Some j /\
    taskId j = upd_TaskId args /\ status j = Pending /\ workerId (worker j) = upd_WorkerID args /\
    upd_WorkerID args <> "" /\
    c' = TaskTransitionManager (upd_Type args)
           (set_jobs_of (upd_Type args) (<[i := set_jstatus DONE j]> js) c).
Proof.
  intros Hinv Hup. split.
  - intros Hmsg. destruct (update_effect_of _ _ _ _ _ Hup) as [r' Hno|i j Ht Hi Hid Hown Hne Hnd|
      i j Ht Hi Hid Hown Hne Hnd]; [done|..]; rewrite Ht.
    + destruct (owned_of_wf j (upd_WorkerID args)) as [Hp _]; try done.
      { by apply (Forall_lookup_1 _ _ _ _ (inv_map_wf _ _ _ Hinv) Hi). }
      by exists (mapTasks c), i, j.
    + destruct (owned_of_wf j (upd_WorkerID args)) as [Hp _]; try done.
      { by apply (Forall_lookup_1 _ _ _ _ (inv_reduce_wf _ _ _ Hinv) Hi). }
      by exists (reduceTasks c), i, j.
  - intros (js & i & j & Hjs & Hi & Hid & Hp & Hown & Hne & _).
    assert (Ht : upd_Type args = MapTask \/ upd_Type args = ReduceTask)
      by (unfold jobs_of in Hjs; repeat case_decide; naive_solver).
    pose proof (update_completes files nR c _ js i j Hinv Ht Hjs Hi Hp ltac:(congruence)
      (taskId_nonempty _ _ _ _ _ _ _ Hinv Hjs Hi)) as Hc.
    rewrite (update_args_irrelevant args (updArgs (upd_Type args) j)) in Hup by (simpl; split_and!; congruence).
    rewrite Hc in Hup. by injection Hup as _ <- _.
Qed.

Lemma update_accepted_iff_witness :
  let '(_, r, _) :=
    TaskUpdateByWorker (mkUpdArgs "v" "task-0" MapTask DONE ∅) zeroUpdReply (coord Demo.taken) in
  Message r <> "Task update received successfully".
Proof.
  destruct (TaskUpdateByWorker _ _ _) as [[c' r] err] eqn:H.
  rewrite (update_accepted_iff _ _ _ _ _ _ _ Demo.inv_taken H).
  intros (js & i & j & Hjs & Hi & _ & Hp & Hown & _).
  vm_compute in Hjs. injection Hjs as <-. destruct i as [|[|i]]; simpl in Hi; simplify_eq/=.
Defined.

(** ** Registration and health checks *)

(** [RegisterWorker] appends to the list of workers without taking the mutex:
    when two registrations overlap, the one that stores first is lost. *)
Theorem overlapping_registration_lost s now args1 args2 :
  reading s = [] ->
  exists s', run s [EvRegisterRead (registered now args1); EvRegisterRead (registered now args2);
                    EvRegisterStore 0; EvRegisterStore 0] s' /\
    workers (coord s') = workers (coord s) ++ [registered now args2] /\ reading s' = [].
Proof.
  intros Hr. set (w1 := registered now args1). set (w2 := registered now args2).
  set (ws := workers (coord s)).
  set (s2 := mkSys (coord s) [(ws, w1); (ws, w2)]).
  set (s3 := mkSys (set_workers (ws ++ [w1]) (coord s)) [(ws, w2)]).
  set (s4 := mkSys (set_workers (ws ++ [w2]) (coord s)) []).
  assert (S1 : step s (EvRegisterRead w1) (mkSys (coord s) [(ws, w1)])).
  { pose proof (step_register_read now args1 s) as H. by rewrite Hr in H. }
  assert (S2 : step (mkSys (coord s) [(ws, w1)]) (EvRegisterRead w2) s2) by apply step_register_read.
  assert (S3 : step s2 (EvRegisterStore 0) s3) by (by apply (step_register_store 0 ws w1 s2)).
  assert (S4 : step s3 (EvRegisterStore 0) s4) by (by apply (step_register_store 0 ws w2 s3)).
  exists s4. split; [|done].
  apply (run_snoc _ [_; _; _] s3); [|done]. apply (run_snoc _ [_; _] s2); [|done].
  apply (run_snoc _ [_] (mkSys (coord s) [(ws, w1)])); [|done].
  apply (run_snoc _ [] s); [constructor|done].
Qed.

Lemma overlapping_registration_lost_witness :
  exists evs s', run (init_sys Demo.files 1) evs s' /\ length (workers (coord s')) = 1.
Proof.
  destruct (overlapping_registration_lost (init_sys Demo.files 1) 0%Z (mkRegArgs "v" "" "")
    (mkRegArgs "w" "" "") eq_refl) as (s' & Hr & Hw & _).
  eexists _, s'. split; [exact Hr|]. by rewrite Hw.
Defined.

Fixpoint has_percent (s : string) : bool :=
  match s with
  | EmptyString => false
  | String c s => bool_decide (c = "%"%char) || has_percent s
  end.

(** The [WorkerSync] goroutines of one tick, one after the other. *)
Fixpoint run_syncs (net : PingNet) (now : Time) (calls : list (string * string * nat))
    (c : Coordinator) : option Coordinator :=
  match calls with
  | [] => Some c
  | (wid, port, idx) :: calls => c' ← WorkerSync net now wid port idx c; run_syncs net now calls c'
  end.

Lemma run_syncs_refused net now ws1 ws2 c :
  (forall port, dial_ok net (workerAddress port) = false) -> workers c = ws1 ++ ws2 ->
  run_syncs net now (imap (fun idx w => (workerId w, wPort w, length ws1 + idx)) ws2) c
  = Some (set_workers (ws1 ++ (set_wstatus StateRetrying <$> ws2)) c).
Proof.
  intros Hd. revert ws1 c. induction ws2 as [|w ws2 IH]; intros ws1 c Hw; simpl.
  - rewrite <- Hw. by destruct c.
  - unfold WorkerSync. rewrite Nat.add_0_r, Hw, list_lookup_middle by done. simpl. rewrite Hd. simpl.
    rewrite insert_app_r_alt, Nat.sub_diag by done. simpl.
    set (c1 := set_workers _ c).
    specialize (IH (ws1 ++ [set_wstatus StateRetrying w]) c1). rewrite <- !app_assoc in IH. simpl in IH.
    etrans; [|exact (IH eq_refl)]. f_equal. apply imap_ext. intros i x _. unfold compose.
    rewrite length_app. simpl. f_equal. lia.
Qed.

Lemma ActiveWorkers_retrying ws c : ActiveWorkers (set_workers (set_wstatus StateRetrying <$> ws) c) = 0%Z.
Proof. unfold ActiveWorkers. simpl. induction ws as [|w ws IH]; [done|]. apply IH. Qed.

(** [WorkerSync] formats the port, a string, with the verb [%d], so the
    address it dials contains a percent sign; if no connection is accepted at such
    an address, a tick of the health check leaves every worker in the retrying
    state and [ActiveWorkers] at 0, whatever the workers do. *)
Theorem health_check_never_connects net now c calls :
  (forall a, has_percent a = true -> dial_ok net a = false) ->
  Healthcheck_tick c = Some calls ->
  exists c', run_syncs net now calls c = Some c' /\
    Forall (fun w => wstatus w = StateRetrying) (workers c') /\ ActiveWorkers c' = 0%Z.
Proof.
  intros Hd. unfold Healthcheck_tick. case_decide; [done|]. intros [= <-].
  assert (Hd' : forall port, dial_ok net (workerAddress port) = false) by (intros; by apply Hd).
  pose proof (run_syncs_refused net now [] (workers c) c Hd' eq_refl) as Hrun. simpl in Hrun.
  eexists. split; [exact Hrun|]. split; [|apply ActiveWorkers_retrying]. simpl.
  apply Forall_fmap, Forall_true. done.
Qed.

Lemma health_check_never_connects_witness :
  let net := mkPingNet (fun a => bool_decide (a = "localhost:1234")) true in
  exists c', run_syncs net 5%Z [("w", "1234", 0)]
    (set_workers [registered 0%Z (mkRegArgs "w" "" "1234")] (MakeCoordinator Demo.files 1)) = Some c' /\
    ActiveWorkers c' = 0%Z.
Proof.
  intros net. destruct (health_check_never_connects net 5%Z
    (set_workers [registered 0%Z (mkRegArgs "w" "" "1234")] (MakeCoordinator Demo.files 1))
    [("w", "1234", 0)]) as (c' & Hr & _ & Ha).
  - intros a Ha. simpl. apply bool_decide_eq_false. intros ->. by vm_compute in Ha.
  - reflexivity.
  - by exists c'.
Defined.

(** [HeartBeatChecks] counts successful checks too and is never reset, and
    only a failed check that finds it equal to 3 gives the error state: once it is
    above 3, no check ever does. *)
Theorem error_state_unreachable net now wid port idx c c' w :
  workers c !! idx = Some w -> (3 < HeartBeatChecks w)%Z ->
  WorkerSync net now wid port idx c = Some c' ->
  exists w', workers c' !! idx = Some w' /\ (3 < HeartBeatChecks w')%Z /\ wstatus w' <> StatusError.
Proof.
  intros Hi Hgt. assert (Hlt := lookup_lt_Some _ _ _ Hi). unfold WorkerSync. rewrite Hi; simpl.
  repeat case_match; try lia; intros [= <-]; simpl; rewrite list_lookup_insert_eq by done;
    (eexists; split; [done|simpl; split; [lia|done]]).
Qed.

Lemma error_state_unreachable_witness :
  let w := mkWorkerType "w" StateRetrying "" "1" 0%Z 4%Z in
  exists w', Some [w'] = workers <$> WorkerSync (mkPingNet (fun _ => true) false) 0%Z "w" "1" 0
      (set_workers [w] (MakeCoordinator Demo.files 1)) /\ wstatus w' <> StatusError.
Proof.
  intros w. destruct (error_state_unreachable (mkPingNet (fun _ => true) false) 0%Z "w" "1" 0
    (set_workers [w] (MakeCoordinator Demo.files 1)) _ w eq_refl ltac:(simpl; lia) eq_refl)
    as (w' & Hw & _ & Hs).
  exists w'. split; [|exact Hs]. simpl in Hw. injection Hw as <-. reflexivity.
Defined.
