(* ===== verification/CoordinatorTyping.v ===== *)
(** * The string types of the coordinator

    WorkerStatus, TaskStatus, TaskType and CoordinatorPhase (src/src/mr/types.go) are
    strings, so neither the compiler nor RPC keeps other strings out of them. This file
    shows that the handlers do: which constants the fields of the coordinator and of its
    replies hold along every run, and how they go together. *)

From S2P Require Import Prelude GoLib MrTypes Coordinator CoordinatorInv CoordinatorTheorems.

(** ** The types *)

Definition named_worker (w : WorkerType) : Prop := wstatus w ∈ [StateConnected; StateRetrying; StatusError].

(** A waiting job has no worker; a job that was handed out has a registered one. *)
Definition typed_job (j : Job) : Prop :=
  status j = Waiting /\ worker j = zeroWorker \/ (status j = Pending \/ status j = DONE) /\ named_worker (worker j).

Record typed_coordinator (c : Coordinator) : Prop := {
  tc_phase : phase c ∈ [MapPhase; ReducePhase; FinishedPhase];
  tc_map : Forall typed_job (mapTasks c);
  tc_reduce : Forall typed_job (reduceTasks c);
  tc_workers : Forall named_worker (workers c);
}.

(** A reply to a request either has a task, of the type of the phase, or has no type and
    no status, and then at most names a phase without map tasks. *)
Definition typed_request (r : WorkerTaskRequestReply) : Prop :=
  TaskAvailable r = true /\ req_Status r = Pending /\
    (req_Type r = MapTask /\ req_Phase r = MapPhase \/ req_Type r = ReduceTask /\ req_Phase r = ReducePhase) \/
  TaskAvailable r = false /\ req_Status r = "" /\ req_Type r = "" /\ req_Phase r ∈ [""; ReducePhase; FinishedPhase].

(** A reply to an update says DONE or INVALID, and names a phase when the update was
    taken. *)
Definition typed_update (r : WorkerTaskUpdateReply) : Prop :=
  rep_Status r = Invalid /\ rep_Phase r = "" \/
  rep_Status r = DONE /\ rep_Phase r ∈ [""; MapPhase; ReducePhase; FinishedPhase].

Definition typed_event (ev : Event) : Prop :=
  match ev with
  | EvRegisterRead w => named_worker w
  | EvRequest _ r => typed_request r
  | EvUpdate _ r => typed_update r
  | _ => True
  end.

Record typed_sys (s : Sys) : Prop := {
  ts_coord : typed_coordinator (coord s);
  ts_reading : Forall (fun x => Forall named_worker x.1 /\ named_worker x.2) (reading s);
}.

(** ** Preservation *)

Lemma take_typed w j : named_worker w -> typed_job (take_job w j).
Proof. intros Hw. right. split; [by left|done]. Qed.

Lemma newReduceTask_typed i : typed_job (newReduceTask i).
Proof. by left. Qed.

Lemma transition_typed t c : typed_coordinator c -> typed_coordinator (TaskTransitionManager t c).
Proof.
  intros [Hp Hm Hr Hw]. unfold TaskTransitionManager. repeat case_decide; [|split; simpl; [set_solver|done..]|done..].
  destruct (hasPendingTask (mapTasks c)); [done|]. split; simpl; [set_solver|done| |done].
  rewrite foldl_newReduceTask. apply Forall_app_2; [done|]. apply Forall_fmap, Forall_true. intros i. apply newReduceTask_typed.
Qed.

Lemma request_typed args c c' r err :
  typed_coordinator c -> TaskRequestByWorker args zeroReqReply c = (c', r, err) ->
  typed_coordinator c' /\ typed_request r.
Proof.
  intros [Hp Hm Hr Hw]. unfold TaskRequestByWorker, assignMapTask, assignReduceTask.
  destruct (list_find _ (workers c)) as [[k w]|] eqn:Hfind; [|intros [= <- <- <-]; split; [done|right; set_solver]].
  apply list_find_Some in Hfind as (Hk & _ & _). pose proof (Forall_lookup_1 _ _ _ _ Hw Hk) as Hnw.
  case_decide as Hph; [|case_decide as Hph'; [|case_decide as Hph'']].
  - destruct (list_find _ (mapTasks c)) as [[i j]|]; intros [= <- <- <-].
    + split; [split; simpl; try done; apply Forall_insert; [done|by apply take_typed]|left; simpl; auto].
    + split; [done|right; set_solver].
  - destruct (list_find _ (reduceTasks c)) as [[i j]|]; intros [= <- <- <-].
    + split; [split; simpl; try done; apply Forall_insert; [done|by apply take_typed]|left; simpl; auto].
    + split; [done|right; simpl; rewrite Hph'; set_solver].
  - intros [= <- <- <-]. split; [done|right; simpl; rewrite Hph''; set_solver].
  - intros [= <- <- <-]. split; [done|right; set_solver].
Qed.

Lemma done_typed js i j :
  Forall typed_job js -> js !! i = Some j -> workerId (worker j) <> "" -> Forall typed_job (<[i := set_jstatus DONE j]> js).
Proof.
  intros Hjs Hi Hne. apply Forall_insert; [done|]. right. split; [by right|].
  destruct (Forall_lookup_1 _ _ _ _ Hjs Hi) as [[_ Hz]|[_ Hn]]; [|done]. by rewrite Hz in Hne.
Qed.

Lemma update_typed args c c' r err :
  typed_coordinator c -> TaskUpdateByWorker args zeroUpdReply c = (c', r, err) ->
  typed_coordinator c' /\ typed_update r.
Proof.
  intros [Hp Hm Hr Hw]. unfold TaskUpdateByWorker, jobs_of, set_jobs_of; simpl.
  case_decide; [intros [= <- <- <-]; split; [done|by left]|].
  case_decide as Hne; [intros [= <- <- <-]; split; [done|by left]|].
  case_decide; [intros [= <- <- <-]; split; [done|by left]|].
  case_decide as Ht; [|case_decide as Ht'; [|intros [= <- <- <-]; split; [done|by left]]];
    (destruct (list_find _ _) as [[i j]|] eqn:Hf; [|intros [= <- <- <-]; split; [done|by left]]);
    apply list_find_Some in Hf as (Hi & _ & _);
    (destruct (decide (workerId _ <> _)) as [Hown|Hown]; [intros [= <- <- <-]; split; [done|by left]|]);
    apply dec_stable in Hown; rewrite <- Hown in Hne;
    (case_decide; intros [= <- <- <-]; [split; [done|right; set_solver]|]);
    (split; [apply transition_typed; split; simpl; try done; by apply done_typed|right; simpl; set_solver]).
Qed.

Lemma sync_typed net now wid port idx c c' :
  typed_coordinator c -> WorkerSync net now wid port idx c = Some c' -> typed_coordinator c'.
Proof.
  intros [Hp Hm Hr Hw] (w & Hi & Hs)%bind_Some. revert Hs.
  assert (Hput : forall w', named_worker w' -> typed_coordinator (set_workers (<[idx := w']> (workers c)) c)).
  { intros w' Hw'. split; simpl; try done. by apply Forall_insert. }
  repeat (destruct (negb _) || case_decide); intros [= <-]; apply Hput; unfold named_worker; simpl; set_solver.
Qed.

Lemma typed_step s ev s' : step s ev s' -> typed_sys s -> typed_sys s' /\ typed_event ev.
Proof.
  intros Hstep [Hc Hrd]. destruct Hstep as [now args s|k ws w s Hk|args reply c' err s Hq|args reply c' err s Hq|net now wid port idx c' s Hq]; simpl.
  - assert (Hw : named_worker (registered now args)) by (unfold named_worker; simpl; set_solver). split; [|done].
    split; [done|]. apply Forall_app_2; [done|]. constructor; [|constructor]. split; [apply Hc|done].
  - split; [|done]. destruct (Forall_lookup_1 _ _ _ _ Hrd Hk) as [Hws Hw]. split; simpl; [|by apply Forall_delete].
    destruct Hc. split; simpl; try done. apply Forall_app_2; [done|]. by constructor; [|constructor].
  - apply request_typed in Hq as [? ?]; done.
  - apply update_typed in Hq as [? ?]; done.
  - apply sync_typed in Hq; done.
Qed.

Lemma init_typed files nR : typed_sys (init_sys files nR).
Proof.
  split; [|constructor]. unfold init_sys; simpl. rewrite MakeCoordinator_spec. split; simpl; [set_solver| |constructor|constructor].
  apply Forall_lookup. intros i j Hi. unfold mapJobs in Hi. rewrite list_lookup_imap in Hi.
  apply fmap_Some in Hi as (f & _ & ->). by left.
Qed.

(** C8. The string-typed fields are well typed. In every run of the coordinator, with
    any requests, updates, registrations and health checks, and whatever strings the
    workers send: the phase is one of the three phases; a job is waiting without a
    worker, or pending or done with a worker whose status is a named one; every
    registered worker has a named status; a reply to a request either has a pending task
    whose type belongs to the phase it names, or no type and no status; and a reply to
    an update says INVALID without a phase or DONE. *)
Theorem coordinator_well_typed (files : list string) (nR : Z) (evs : list Event) (s : Sys) :
  run (init_sys files nR) evs s -> typed_coordinator (coord s) /\ Forall typed_event evs.
Proof.
  intros Hrun. assert (Hs : typed_sys s /\ Forall typed_event evs); [|by destruct Hs as [[? ?] ?]].
  remember (init_sys files nR) as s0 eqn:H0. induction Hrun as [s|s evs s' ev s'' Hrun IH Hstep].
  - subst. split; [apply init_typed|constructor].
  - destruct (IH H0) as [Hs' Hevs]. destruct (typed_step _ _ _ Hstep Hs') as [Hs'' Hev].
    split; [done|]. apply Forall_app_2; [done|]. by constructor.
Qed.

Lemma coordinator_well_typed_witness : typed_coordinator (coord Demo.finished) /\ Forall typed_event Demo.all_events.
Proof.
  apply (coordinator_well_typed Demo.files 1). apply Demo.result_run. vm_compute. reflexivity.
Defined.
