(* ===== verification/Worker.v ===== *)
(** * The worker's tasks: src/src/mr/worker.go

    Hashing, partitioning and the two tasks a worker runs. A task is a
    computation over the file system that may end the process ([log.Fatal] or a
    run-time panic): a small state-and-error monad. The application's [Map] and
    [Reduce], which come from a plugin, are parameters; so are JSON and the sort
    of the standard library, through their interfaces. *)

From Stdlib Require Import Ascii.
From S2P Require Import Prelude GoLib MrTypes.

(** ** The file system and the monad of a task *)

(** The contents of each existing file, by path. *)
Abbreviation FS := (gmap string string) (only parsing).

(** How a computation ends: with a value, or with the process. *)
Inductive res (A : Type) := Ret (a : A) | Fatal (msg : string).
Arguments Ret {A} a.
Arguments Fatal {A} msg.

Definition IO (A : Type) : Type := gmap string string -> gmap string string * res A.

Definition io_ret {A} (a : A) : IO A := fun fs => (fs, Ret a).
Definition io_fatal {A} (msg : string) : IO A := fun fs => (fs, Fatal msg).
Definition io_bind {A B} (m : IO A) (k : A -> IO B) : IO B :=
  fun fs => match m fs with
            | (fs', Ret a) => k a fs'
            | (fs', Fatal msg) => (fs', Fatal msg)
            end.

Declare Scope io_scope.
Delimit Scope io_scope with io.
Notation "'let!' x := m 'in' k" := (io_bind m (fun x => k))
  (at level 10, x name, m at level 100, k at level 200) : io_scope.
Notation "m ;;! k" := (io_bind m (fun _ => k)) (at level 100, k at level 200, right associativity) : io_scope.
Open Scope io_scope.

(** [os.Open] and [ioutil.ReadAll]: the contents of a file, or the end. *)
Definition read_file (path : string) : IO string :=
  fun fs => match fs !! path with
            | Some s => (fs, Ret s)
            | None => (fs, Fatal ("cannot open " +:+ path))
            end.

(** ** ByKey, ihash *)

(** [ByKey.Less]. *)
Definition ByKey_Less (a b : KeyValue) : bool := str_lt (Key a) (Key b).

(** hash/fnv: the 32-bit FNV-1a hash, on 32-bit words. *)
Definition fnv_offset : Z := 2166136261.
Definition fnv_prime : Z := 16777619.
Definition fnv32a_byte (h : Z) (b : Z) : Z := (Z.lxor h b * fnv_prime) mod 2 ^ 32.

Fixpoint fnv32a (h : Z) (s : string) : Z :=
  match s with
  | EmptyString => h
  | String c s => fnv32a (fnv32a_byte h (Z.of_N (Ascii.N_of_ascii c))) s
  end.

Definition ihash (key : string) : Z := Z.land (fnv32a fnv_offset key) 2147483647.

(** ** JSON *)

(** encoding/json as the worker uses it: [json.NewEncoder(f).Encode] writes one
    value after the other, [json.NewDecoder(f).Decode] reads them back until it
    fails. The documented round trip holds for strings of valid UTF-8 (an
    encoder replaces other bytes), which [kv_safe] stands for. *)
Class KVCodec := {
  encode_kv : KeyValue -> string;
  decode_kvs : string -> list KeyValue;
  kv_safe : KeyValue -> Prop;
  decode_encode : forall kvs : list KeyValue,
    Forall kv_safe kvs -> decode_kvs (str_concat (encode_kv <$> kvs)) = kvs;
}.

(** ** Partitioning *)

(** [partitions[partitionValue]], the nil slice when absent. *)
Definition partition_get (m : gmap Z (list KeyValue)) (p : Z) : list KeyValue := default [] (m !! p).

(** One iteration of the loop over [intermediate]; the remainder panics when
    [nR] is 0, and truncates towards zero. *)
Definition partition_add (nR : Z) (m : gmap Z (list KeyValue)) (kv : KeyValue)
    : option (gmap Z (list KeyValue)) :=
  if decide (nR = 0%Z) then None
  else
    let p := Z.rem (ihash (Key kv)) nR in
    Some (<[p := partition_get m p ++ [kv]]> m).

Fixpoint partition_kvs (nR : Z) (m : gmap Z (list KeyValue)) (kvs : list KeyValue)
    : option (gmap Z (list KeyValue)) :=
  match kvs with
  | [] => Some m
  | kv :: kvs => m' ← partition_add nR m kv; partition_kvs nR m' kvs
  end.

(** ** File names *)

Definition intermediate_name (task : string) (p : Z) : string :=
  "mr-data/intermediate/mr-" +:+ task +:+ "-" +:+ Itoa p.

Definition glob_pattern (p : Z) : string := "mr-data/intermediate/mr-task-*-" +:+ Itoa p.

Definition output_name (p : Z) : string := "mr-data/output/mr-out-" +:+ Itoa p.

(** path/filepath: [Match] for patterns of literal characters and stars; a star
    matches any run of characters other than the separator. *)
Fixpoint glob_match (pat s : string) : bool :=
  match pat with
  | EmptyString => match s with EmptyString => true | _ => false end
  | String "*"%char pat' =>
      (fix star (s : string) : bool :=
         glob_match pat' s ||
         match s with
         | EmptyString => false
         | String c s' => negb (Ascii.eqb c "/") && star s'
         end) s
  | String c pat' =>
      match s with
      | EmptyString => false
      | String c' s' => Ascii.eqb c c' && glob_match pat' s'
      end
  end.

(** ** Ping *)

(** [Ping] of a worker whose [ID] field is [id]. *)
Definition Ping (id : string) (args : PingArgs) (reply : PingReply) : PingReply * error :=
  (mkPingReply (bool_decide (ping_WorkerId args = id)), nil_error).

Section tasks.
Context `{!Sorter, !KVCodec}.
Variable mapf : string -> string -> list KeyValue.
Variable reducef : string -> list string -> string.
(** Whether [os.Create] succeeds on a path. *)
Variable creatable : string -> bool.

(** [os.Create]: an empty file, or the end of the process. *)
Definition os_Create (path : string) : IO unit :=
  fun fs => if creatable path then (<[path := ""]> fs, Ret tt) else (fs, Fatal path).

(** Appending to a file that the process has open. *)
Definition append_file (path s : string) : IO unit :=
  fun fs => (<[path := default "" (fs !! path) +:+ s]> fs, Ret tt).

(** ** MapperTask *)

(** The inner loop: [encoder.Encode] of each pair of a partition. *)
Fixpoint encode_all (filename : string) (kvs : list KeyValue) : IO unit :=
  match kvs with
  | [] => io_ret tt
  | kv :: kvs => append_file filename (encode_kv kv) ;;! encode_all filename kvs
  end.

(** The loop over the partition ids [ps]. *)
Fixpoint write_partitions (task : string) (partitions : gmap Z (list KeyValue)) (ps : list Z)
    : IO unit :=
  match ps with
  | [] => io_ret tt
  | p :: ps =>
      os_Create (intermediate_name task p) ;;!
      encode_all (intermediate_name task p) (partition_get partitions p) ;;!
      write_partitions task partitions ps
  end.

(** Up to the report, which DoWorkerTaskUpdate sends. *)
Definition MapperTask (result : WorkerTaskRequestReply) : IO unit :=
  let! content := read_file (req_FilePath result) in
  let intermediate := mapf (req_FilePath result) content in
  match partition_kvs (req_NReduce result) ∅ intermediate with
  | None => io_fatal "runtime error: integer divide by zero"
  | Some partitions =>
      write_partitions (req_TaskId result) partitions (seqZ 0 (req_NReduce result))
  end.

(** ** ReducerTask *)

(** [filepath.Glob] for a pattern whose directory part has no star: the matching
    files of that directory, in the order of their names. *)
Definition Glob (pat : string) (fs : gmap string string) : list string :=
  filter (fun f => glob_match pat f = true) (merge_sort String.le (elements (dom fs))).

(** The loop over the files of the partition. *)
Fixpoint read_intermediate (files : list string) : IO (list KeyValue) :=
  match files with
  | [] => io_ret []
  | filename :: files =>
      let! s := read_file filename in
      let! rest := read_intermediate files in
      io_ret (decode_kvs s ++ rest)
  end.

(** The inner loop: from [j], the values that follow with the key [key]. *)
Fixpoint same_key_from (kvs : list KeyValue) (fuel : nat) (j : nat) (key : string)
    : nat * list string :=
  match fuel with
  | 0 => (j, [])
  | S fuel =>
      match kvs !! j with
      | Some kv =>
          if decide (Key kv = key) then
            let '(j', vs) := same_key_from kvs fuel (S j) key in (j', Value kv :: vs)
          else (j, [])
      | None => (j, [])
      end
  end.

(** [fmt.Fprintf(file, "%v %v\n", key, result)]. *)
Definition newline : string := String (Ascii.ascii_of_nat 10) "".
Definition output_line (key r : string) : string := key +:+ " " +:+ r +:+ newline.

(** The outer loop from index [i]: the lines it prints. [fuel] bounds its
    iterations; the slice's length is enough, since [i] grows. *)
Fixpoint reduce_from (kvs : list KeyValue) (fuel : nat) (i : nat) : list string :=
  match fuel with
  | 0 => []
  | S fuel =>
      match kvs !! i with
      | None => []
      | Some kv =>
          let '(j, vs) := same_key_from kvs (length kvs) (S i) (Key kv) in
          output_line (Key kv) (reducef (Key kv) (Value kv :: vs)) :: reduce_from kvs fuel j
      end
  end.

Definition reduce_lines (kvs : list KeyValue) : list string := reduce_from kvs (length kvs) 0.

(** The bytes the task prints: it reads the files of its partition, sorts what
    they hold and reduces. *)
Definition reducer_output (p : Z) : IO string :=
  let! intermediate := (fun fs => read_intermediate (Glob (glob_pattern p) fs) fs) in
  io_ret (str_concat (reduce_lines (sort_by ByKey_Less intermediate))).

(** Printing [s] through a file opened at its start: the bytes of [s] come
    first, and bytes already there beyond them stay. *)
Definition write_from_start (path s : string) : IO unit :=
  fun fs => (<[path := s +:+ str_drop (String.length s) (default "" (fs !! path))]> fs, Ret tt).

(** Up to the report, which DoWorkerTaskUpdate sends. *)
Definition ReducerTask (result : WorkerTaskRequestReply) : IO unit :=
  let! out := reducer_output (req_Partition result) in
  os_Create (output_name (req_Partition result)) ;;!
  write_from_start (output_name (req_Partition result)) out.
End tasks.
