(* ===== verification/JsonCodec.v ===== *)
(** * encoding/json for the intermediate files

    MapperTask writes its pairs with [json.NewEncoder(file).Encode] and
    ReducerTask reads them back with [json.NewDecoder(file).Decode]
    (src/src/mr/worker.go). This file is that part of the package for a
    [KeyValue]: what the encoder of the Go version in go.mod writes (with its HTML
    escapes), and a decoder of what it writes. The round trip holds for ASCII
    strings, which makes [JsonCodec] an instance of the interface the workers are
    verified against. *)

From Stdlib Require Import Ascii.
From S2P Require Import Prelude GoLib MrTypes Worker.

Definition dquote : ascii := ascii_of_nat 34.
Definition backslash : ascii := ascii_of_nat 92.
Definition dq : string := String dquote "".
Definition nl : string := String (ascii_of_nat 10) "".

(** ** The encoder *)

Definition hex_digit (n : nat) : ascii :=
  ascii_of_nat (if decide (n < 10) then 48 + n else 87 + n).

(** How one byte of a string is written. *)
Definition json_escape (c : ascii) : string :=
  let n := nat_of_ascii c in
  if decide (n = 34) then String backslash dq
  else if decide (n = 92) then String backslash (String backslash "")
  else if decide (n = 10) then String backslash "n"
  else if decide (n = 13) then String backslash "r"
  else if decide (n = 9) then String backslash "t"
  else if decide (n < 32 \/ n = 38 \/ n = 60 \/ n = 62) then
    String backslash ("u00" +:+ String (hex_digit (n / 16)) (String (hex_digit (n mod 16)) ""))
  else String c "".

Fixpoint json_chars (s : string) : string :=
  match s with
  | EmptyString => ""
  | String c s => json_escape c +:+ json_chars s
  end.

Definition key_open : string := "{" +:+ dq +:+ "Key" +:+ dq +:+ ":" +:+ dq.
Definition value_open : string := dq +:+ "," +:+ dq +:+ "Value" +:+ dq +:+ ":" +:+ dq.
Definition object_close : string := dq +:+ "}" +:+ nl.

Definition json_encode_kv (kv : KeyValue) : string :=
  key_open +:+ json_chars (Key kv) +:+ value_open +:+ json_chars (Value kv) +:+ object_close.

(** ** The decoder *)

Definition hex_value (c : ascii) : option nat :=
  let n := nat_of_ascii c in
  if decide (48 <= n <= 57) then Some (n - 48)
  else if decide (97 <= n <= 102) then Some (n - 87)
  else if decide (65 <= n <= 70) then Some (n - 55)
  else None.

(** The byte written as a backslash and [c]. *)
Definition unescape (c : ascii) : option ascii :=
  let n := nat_of_ascii c in
  if decide (n = 34 \/ n = 92 \/ n = 47) then Some c
  else if decide (n = 98) then Some (ascii_of_nat 8)
  else if decide (n = 102) then Some (ascii_of_nat 12)
  else if decide (n = 110) then Some (ascii_of_nat 10)
  else if decide (n = 114) then Some (ascii_of_nat 13)
  else if decide (n = 116) then Some (ascii_of_nat 9)
  else None.

Definition cons_char (c : ascii) (r : option (string * string)) : option (string * string) :=
  '(s, rest) ← r; Some (String c s, rest).

(** The rest of a string literal up to its closing quote, which is left in the
    input. *)
Fixpoint json_string (s : string) : option (string * string) :=
  match s with
  | EmptyString => None
  | String c rest =>
      if decide (c = dquote) then Some ("", s)
      else if decide (c = backslash) then
        match rest with
        | String e rest' =>
            if decide (nat_of_ascii e = 117) then
              match rest' with
              | String h1 (String h2 (String h3 (String h4 rest''))) =>
                  match hex_value h1, hex_value h2, hex_value h3, hex_value h4 with
                  | Some 0, Some 0, Some a, Some b =>
                      cons_char (ascii_of_nat (16 * a + b)) (json_string rest'')
                  | _, _, _, _ => None
                  end
              | _ => None
              end
            else match unescape e with
                 | Some a => cons_char a (json_string rest')
                 | None => None
                 end
        | EmptyString => None
        end
      else cons_char c (json_string rest)
  end.

Fixpoint strip_prefix (p s : string) : option string :=
  match p, s with
  | EmptyString, _ => Some s
  | String a p, String b s => if decide (a = b) then strip_prefix p s else None
  | String _ _, EmptyString => None
  end.

Definition json_decode_kv (s : string) : option (KeyValue * string) :=
  s1 ← strip_prefix key_open s;
  '(k, s2) ← json_string s1;
  s3 ← strip_prefix value_open s2;
  '(v, s4) ← json_string s3;
  s5 ← strip_prefix object_close s4;
  Some (mkKeyValue k v, s5).

(** [for { if err := dec.Decode(&kv); err != nil { break }; ... }]: every value
    takes at least one byte, so the length of the file bounds the iterations. *)
Fixpoint json_decode_loop (fuel : nat) (s : string) : list KeyValue :=
  match fuel with
  | 0 => []
  | S fuel =>
      match json_decode_kv s with
      | Some (kv, rest) => kv :: json_decode_loop fuel rest
      | None => []
      end
  end.

Definition json_decode_kvs (s : string) : list KeyValue := json_decode_loop (String.length s) s.

(** ** The round trip *)

Fixpoint is_ascii (s : string) : Prop :=
  match s with
  | EmptyString => True
  | String c s => nat_of_ascii c < 128 /\ is_ascii s
  end.

#[export] Instance is_ascii_dec s : Decision (is_ascii s).
Proof. induction s; simpl; apply _. Defined.

Definition json_safe (kv : KeyValue) : Prop := is_ascii (Key kv) /\ is_ascii (Value kv).

#[export] Instance json_safe_dec kv : Decision (json_safe kv).
Proof. unfold json_safe. apply _. Defined.

Lemma json_string_escape c t :
  nat_of_ascii c < 128 -> json_string (json_escape c +:+ t) = cons_char c (json_string t).
Proof.
  intros Hc. destruct c as [[] [] [] [] [] [] [] []];
    try (exfalso; vm_compute in Hc; lia); reflexivity.
Qed.

Lemma json_string_chars s t :
  is_ascii s -> json_string (json_chars s +:+ dq +:+ t) = Some (s, dq +:+ t).
Proof.
  induction s as [|c s IH]; simpl; [done|]. intros [Hc Hs].
  rewrite str_app_assoc, json_string_escape, IH by done. done.
Qed.

Lemma strip_prefix_app p s : strip_prefix p (p +:+ s) = Some s.
Proof.
  induction p as [|a p IH]; [done|]. rewrite str_app_cons. simpl. by rewrite decide_True.
Qed.

Lemma json_string_key s t :
  is_ascii s -> json_string (json_chars s +:+ value_open +:+ t) = Some (s, value_open +:+ t).
Proof. intros Hs. unfold value_open. rewrite str_app_assoc. by apply json_string_chars. Qed.

Lemma json_string_value s t :
  is_ascii s -> json_string (json_chars s +:+ object_close +:+ t) = Some (s, object_close +:+ t).
Proof. intros Hs. unfold object_close. rewrite str_app_assoc. by apply json_string_chars. Qed.

Lemma json_encode_length kv : 0 < String.length (json_encode_kv kv).
Proof. unfold json_encode_kv. rewrite str_length_app. simpl. lia. Qed.

#[local] Opaque key_open value_open object_close.

Lemma json_decode_encode_kv kv rest :
  json_safe kv -> json_decode_kv (json_encode_kv kv +:+ rest) = Some (kv, rest).
Proof.
  destruct kv as [k v]. intros [Hk Hv]. simpl in Hk, Hv. unfold json_encode_kv, json_decode_kv; simpl.
  rewrite !str_app_assoc, strip_prefix_app. simpl. rewrite json_string_key by done. simpl.
  rewrite strip_prefix_app. simpl. rewrite json_string_value by done. simpl.
  by rewrite strip_prefix_app.
Qed.

Lemma json_decode_loop_encode kvs fuel :
  Forall json_safe kvs -> length kvs <= fuel ->
  json_decode_loop fuel (str_concat (json_encode_kv <$> kvs)) = kvs.
Proof.
  intros Hs. revert fuel. induction Hs as [|kv kvs Hkv Hs IH]; intros [|fuel] Hf; simpl in *;
    [done..|lia|]. rewrite json_decode_encode_kv by done. by rewrite IH by lia.
Qed.

Lemma str_concat_length (l : list string) :
  Forall (fun s => 0 < String.length s) l -> length l <= String.length (str_concat l).
Proof.
  induction 1 as [|s l Hs Hl IH]; simpl; [lia|]. rewrite str_length_app. lia.
Qed.

#[export] Instance JsonCodec : KVCodec.
Proof.
  refine {| encode_kv := json_encode_kv; decode_kvs := json_decode_kvs; kv_safe := json_safe |}.
  intros kvs Hs. apply json_decode_loop_encode; [done|].
  rewrite <- (length_fmap json_encode_kv kvs) at 1. apply str_concat_length.
  apply Forall_fmap, Forall_true. intros kv. apply json_encode_length.
Defined.
