(* ===== verification/WorkerFacts.v ===== *)
(** * Facts about the worker's tasks

    The hash and the partition of a key, the files a pattern selects, the loop
    that groups a sorted slice by key, and the effect of the two tasks on the
    file system. *)

From Stdlib Require Import Ascii.
From S2P Require Import Prelude GoLib MrTypes Worker.

(** ** Hash and partition *)

Lemma fnv32a_range s h : (0 <= h < 2 ^ 32 -> 0 <= fnv32a h s < 2 ^ 32)%Z.
Proof.
  revert h. induction s as [|c s IH]; intros h Hh; simpl; [done|]. apply IH.
  unfold fnv32a_byte. apply Z.mod_pos_bound. done.
Qed.

Lemma ihash_range k : (0 <= ihash k < 2 ^ 31)%Z.
Proof.
  unfold ihash. change 2147483647%Z with (Z.ones 31). rewrite Z.land_ones by lia.
  by apply Z.mod_pos_bound.
Qed.

(** The partition of a key, as the worker computes it. *)
Definition part (nR : Z) (k : string) : Z := Z.rem (ihash k) nR.

Lemma part_range nR k : (0 < nR -> 0 <= part nR k < nR)%Z.
Proof. intros H. unfold part. apply Z.rem_bound_pos; [apply ihash_range|done]. Qed.

Definition in_part (nR p : Z) (kv : KeyValue) : Prop := part nR (Key kv) = p.

#[export] Instance in_part_dec nR p kv : Decision (in_part nR p kv).
Proof. unfold in_part. apply _. Defined.

Lemma partition_kvs_spec nR m kvs :
  nR <> 0%Z ->
  exists m', partition_kvs nR m kvs = Some m' /\
    forall p, partition_get m' p = partition_get m p ++ filter (in_part nR p) kvs.
Proof.
  intros HnR. revert m. induction kvs as [|kv kvs IH]; intros m; simpl.
  - exists m. split; [done|]. intros p. by rewrite app_nil_r.
  - unfold partition_add. rewrite decide_False by done. simpl.
    destruct (IH (<[part nR (Key kv) := partition_get m (part nR (Key kv)) ++ [kv]]> m))
      as (m' & Hm' & Hget).
    exists m'. split; [done|]. intros p. rewrite Hget, filter_cons. unfold partition_get.
    unfold in_part at 2. case_decide as Hp.
    + rewrite Hp, lookup_insert_eq. simpl. by rewrite <- app_assoc.
    + by rewrite lookup_insert_ne.
Qed.

(** ** File names and patterns *)

Lemma glob_match_cons c pat s :
  c <> "*"%char -> glob_match (String c pat) s = true <->
  exists s', s = String c s' /\ glob_match pat s' = true.
Proof.
  intros Hc. assert (Heq : glob_match (String c pat) s =
    match s with EmptyString => false | String c' s' => Ascii.eqb c c' && glob_match pat s' end).
  { simpl. destruct c as [[] [] [] [] [] [] [] []]; done. }
  rewrite Heq. destruct s as [|c' s']; [naive_solver|].
  rewrite andb_true_iff, Ascii.eqb_eq. naive_solver.
Qed.

Lemma glob_match_star pat s :
  glob_match (String "*" pat) s = true <->
  exists x y, s = x +:+ y /\ str_free "/" x /\ glob_match pat y = true.
Proof.
  change (glob_match (String "*" pat) s) with
    ((fix star (s : string) : bool :=
         glob_match pat s ||
         match s with
         | EmptyString => false
         | String c s' => negb (Ascii.eqb c "/") && star s'
         end) s).
  induction s as [|c s IH].
  - rewrite orb_false_r. split; [intros; by exists "", ""|].
    intros (x & y & Heq & _ & Hy). destruct x; [|done]. destruct y; done.
  - rewrite orb_true_iff, andb_true_iff, IH, negb_true_iff, Ascii.eqb_neq. split.
    + intros [Hm|[Hc (x & y & -> & Hx & Hy)]]; [by exists "", (String c s)|].
      exists (String c x), y. done.
    + intros (x & y & Heq & Hx & Hy). destruct x as [|c' x].
      * left. rewrite Heq. done.
      * right. rewrite str_app_cons in Heq. simplify_eq. destruct Hx. eauto 10.
Qed.

(** A pattern with no star matches itself only. *)
Lemma glob_match_literal pat s :
  str_free "*" pat -> glob_match pat s = true <-> s = pat.
Proof.
  revert s. induction pat as [|c pat IH]; intros s; simpl str_free.
  - intros _. simpl. destruct s; naive_solver.
  - intros [Hc Hf]. rewrite glob_match_cons by done. setoid_rewrite IH; [|done]. naive_solver.
Qed.

Lemma glob_match_prefix pre pat s :
  str_free "*" pre -> glob_match (pre +:+ pat) s = true <->
  exists s', s = pre +:+ s' /\ glob_match pat s' = true.
Proof.
  revert s. induction pre as [|c pre IH]; intros s; simpl str_free.
  - intros _. change ("" +:+ pat) with pat. split; [eauto|]. by intros (s' & -> & ?).
  - intros [Hc Hf]. rewrite str_app_cons, glob_match_cons by done. setoid_rewrite IH; [|done].
    setoid_rewrite str_app_cons. naive_solver.
Qed.

(** The name of the file a map task writes for a partition. *)
Definition task_name (i : nat) : string := "task-" +:+ Itoa (Z.of_nat i).

Lemma intermediate_name_shape i p :
  intermediate_name (task_name i) p =
  "mr-data/intermediate/mr-task-" +:+ (Itoa (Z.of_nat i) +:+ String "-" (Itoa p)).
Proof.
  unfold intermediate_name, task_name. rewrite str_app_assoc.
  change ("-" +:+ Itoa p) with (String "-" (Itoa p)). done.
Qed.

Lemma intermediate_name_inj i j p q :
  (0 <= p)%Z -> (0 <= q)%Z ->
  intermediate_name (task_name i) p = intermediate_name (task_name j) q -> i = j /\ p = q.
Proof.
  intros Hp Hq. rewrite !intermediate_name_shape. intros H%(inj _).
  apply dash_suffix_inj in H as [H1%(inj _) H2%(inj _)]; [|by auto with go..]. lia.
Qed.

(** The pattern of a partition selects the files the map tasks wrote for it. *)
Lemma glob_intermediate i p q :
  (0 <= p)%Z -> (0 <= q)%Z ->
  glob_match (glob_pattern q) (intermediate_name (task_name i) p) = true <-> p = q.
Proof.
  intros Hp Hq. unfold glob_pattern.
  change ("mr-data/intermediate/mr-task-*-" +:+ Itoa q)
    with ("mr-data/intermediate/mr-task-" +:+ String "*" (String "-" (Itoa q))).
  rewrite glob_match_prefix by (simpl; split_and!; done).
  rewrite intermediate_name_shape. split.
  - intros (s & Hs & Hm). apply (inj _) in Hs. subst s.
    apply glob_match_star in Hm as (x & y & Heq & _ & Hy).
    apply glob_match_literal in Hy as ->; [|split; [done|by auto with go]].
    apply dash_suffix_inj in Heq as [_ H2%(inj _)]; auto with go.
  - intros ->. eexists; split; [done|]. apply glob_match_star.
    eexists _, _; split_and!; [done| |].
    + apply Itoa_free; [lia|]. auto with go.
    + apply glob_match_literal; [|done]. split; [done|]. auto with go.
Qed.

Lemma glob_prefix q f :
  glob_match (glob_pattern q) f = true -> exists f', f = "mr-data/intermediate/mr-task-" +:+ f'.
Proof.
  unfold glob_pattern. change ("mr-data/intermediate/mr-task-*-" +:+ Itoa q)
    with ("mr-data/intermediate/mr-task-" +:+ String "*" (String "-" (Itoa q))).
  rewrite glob_match_prefix by (simpl; split_and!; done). naive_solver.
Qed.

#[export] Instance output_name_inj : Inj (=) (=) output_name.
Proof. intros p q H%(inj (String.app _)). by apply (inj Itoa). Qed.

Lemma output_name_not_intermediate p f : output_name p <> "mr-data/intermediate/mr-" +:+ f.
Proof. by unfold output_name. Qed.

(** ** Grouping *)

Definition values_of (k : string) (kvs : list KeyValue) : list string :=
  Value <$> filter (fun kv => Key kv = k) kvs.

Definition keys_of (kvs : list KeyValue) : gset string := list_to_set (Key <$> kvs).

Definition sorted_keys (kvs : list KeyValue) : list string :=
  merge_sort String.le (elements (keys_of kvs)).

(** What reducing a collection of pairs means: one line per distinct key, in
    the order of the keys, from the values of that key. *)
Definition reduce_spec (reducef : string -> list string -> string) (kvs : list KeyValue)
    : list string :=
  (fun k => output_line k (reducef k (values_of k kvs))) <$> sorted_keys kvs.

(** [Reduce] does not look at the order of the values it is given: what a
    framework that sorts with an unstable sort asks of it. *)
Class OrderFree (reducef : string -> list string -> string) : Prop :=
  order_free k vs vs' : vs ≡ₚ vs' -> reducef k vs = reducef k vs'.

Lemma elem_of_sorted_keys k kvs : k ∈ sorted_keys kvs <-> k ∈ Key <$> kvs.
Proof.
  unfold sorted_keys, keys_of. rewrite merge_sort_Permutation, elem_of_elements.
  by rewrite elem_of_list_to_set.
Qed.

Lemma NoDup_sorted_keys kvs : NoDup (sorted_keys kvs).
Proof. unfold sorted_keys. rewrite merge_sort_Permutation. apply NoDup_elements. Qed.

Lemma Sorted_sorted_keys kvs : Sorted String.le (sorted_keys kvs).
Proof. apply Sorted_merge_sort. apply _. Qed.

(** The sorted keys are the only sorted list without duplicates of these keys. *)
Lemma sorted_keys_unique kvs ks :
  Sorted String.le ks -> NoDup ks -> (forall k, k ∈ ks <-> k ∈ Key <$> kvs) -> sorted_keys kvs = ks.
Proof.
  intros Hs Hn He. apply (Sorted_unique String.le); [apply Sorted_sorted_keys|done|].
  apply NoDup_Permutation; [apply NoDup_sorted_keys|done|].
  intros k. by rewrite elem_of_sorted_keys, He.
Qed.

Lemma sorted_keys_perm kvs kvs' : kvs ≡ₚ kvs' -> sorted_keys kvs = sorted_keys kvs'.
Proof.
  intros Hp. apply sorted_keys_unique; [apply Sorted_sorted_keys|apply NoDup_sorted_keys|].
  intros k. by rewrite elem_of_sorted_keys, Hp.
Qed.

Lemma values_of_perm k kvs kvs' : kvs ≡ₚ kvs' -> values_of k kvs ≡ₚ values_of k kvs'.
Proof. intros Hp. unfold values_of. by rewrite Hp. Qed.

Lemma reduce_spec_perm reducef `{!OrderFree reducef} kvs kvs' :
  kvs ≡ₚ kvs' -> reduce_spec reducef kvs = reduce_spec reducef kvs'.
Proof.
  intros Hp. unfold reduce_spec. rewrite (sorted_keys_perm _ _ Hp).
  apply list_fmap_ext. intros i k _. f_equal. by apply order_free, values_of_perm.
Qed.

(** A first group of pairs with one key, before pairs of greater keys. *)
Lemma reduce_spec_group reducef k g rest :
  g <> [] -> Forall (fun kv => Key kv = k) g ->
  Forall (fun kv => Key kv <> k /\ String.le k (Key kv)) rest ->
  reduce_spec reducef (g ++ rest) =
  output_line k (reducef k (Value <$> g)) :: reduce_spec reducef rest.
Proof.
  intros Hne Hg Hrest.
  assert (Hneq : Forall (fun kv => ~ Key kv = k) rest)
    by (eapply Forall_impl; [done|naive_solver]).
  assert (Hvg : values_of k (g ++ rest) = Value <$> g).
  { unfold values_of. rewrite filter_app, (filter_Forall_id _ g), (filter_Forall_nil _ rest) by done.
    by rewrite app_nil_r. }
  assert (Hk : k ∉ Key <$> rest).
  { intros (kv & -> & Hin)%list_elem_of_fmap. rewrite Forall_forall in Hneq. by eapply Hneq. }
  assert (Hks : sorted_keys (g ++ rest) = k :: sorted_keys rest).
  { apply sorted_keys_unique.
    - constructor; [apply Sorted_sorted_keys|]. destruct (sorted_keys rest) as [|k' ks] eqn:E;
        constructor. assert (Hin : k' ∈ Key <$> rest) by (rewrite <- elem_of_sorted_keys, E; set_solver).
      apply list_elem_of_fmap in Hin as (kv & -> & Hin). rewrite Forall_forall in Hrest.
      by destruct (Hrest kv Hin).
    - constructor; [by rewrite elem_of_sorted_keys|apply NoDup_sorted_keys].
    - intros k'. rewrite elem_of_cons, elem_of_sorted_keys, fmap_app, elem_of_app.
      split; [|intros [Hin|]; [left|by right]].
      + intros [->|]; [left|by right]. destruct g as [|kv g]; [done|].
        inversion_clear Hg as [|? ? <-]. simpl. set_solver.
      + apply list_elem_of_fmap in Hin as (kv & -> & Hin). rewrite Forall_forall in Hg. by apply Hg. }
  unfold reduce_spec. rewrite Hks. simpl. rewrite Hvg. f_equal. apply list_fmap_ext.
  intros i k' Hk'%list_elem_of_lookup_2. rewrite elem_of_sorted_keys in Hk'. do 2 f_equal.
  unfold values_of. rewrite filter_app, (filter_Forall_nil _ g); [done|].
  eapply Forall_impl; [exact Hg|]. simpl. intros kv -> ->. done.
Qed.

(** The inner loop stops at the first pair with another key. *)
Lemma same_key_from_spec kvs fuel j key :
  length kvs - j <= fuel ->
  exists run rest, drop j kvs = run ++ rest /\ Forall (fun kv => Key kv = key) run /\
    (forall kv, head rest = Some kv -> Key kv <> key) /\
    same_key_from kvs fuel j key = (j + length run, Value <$> run) /\
    drop (j + length run) kvs = rest.
Proof.
  revert j. induction fuel as [|fuel IH]; intros j Hf; simpl.
  - exists [], []. rewrite drop_ge by lia. rewrite Nat.add_0_r, drop_ge by lia. done.
  - destruct (kvs !! j) as [kv|] eqn:Hj.
    + rewrite (drop_S _ _ _ Hj). case_decide as Hk.
      * destruct (IH (S j)) as (run & rest & Hd & Hr & Hrest & He & Hd'); [lia|].
        rewrite He, Hd. exists (kv :: run), rest. split_and!; try done.
        -- by constructor.
        -- simpl. by rewrite Nat.add_succ_r.
        -- simpl. by rewrite Nat.add_succ_r.
      * exists [], (kv :: drop (S j) kvs). split_and!; try done.
        -- simpl. naive_solver.
        -- simpl. by rewrite Nat.add_0_r.
        -- simpl. rewrite Nat.add_0_r. by apply drop_S.
    + apply lookup_ge_None in Hj. exists [], []. rewrite !drop_ge by (simpl; lia).
      rewrite Nat.add_0_r. done.
Qed.

Lemma ByKey_le a b : not_after ByKey_Less a b <-> String.le (Key a) (Key b).
Proof. unfold not_after, ByKey_Less. apply str_lt_spec. Qed.

#[export] Instance ByKey_Less_strict_weak : StrictWeak ByKey_Less.
Proof.
  split.
  - intros x y. apply (sw_asym (less := str_lt)).
  - intros x y z. apply (sw_trans (less := str_lt)).
Qed.

(** The loop that prints, on a slice sorted by key: one line per key. *)
Lemma reduce_from_sorted reducef kvs fuel i :
  StronglySorted (not_after ByKey_Less) (drop i kvs) -> length kvs - i <= fuel ->
  reduce_from reducef kvs fuel i = reduce_spec reducef (drop i kvs).
Proof.
  revert i. induction fuel as [|fuel IH]; intros i Hs Hf; simpl.
  - by rewrite drop_ge by lia.
  - destruct (kvs !! i) as [kv|] eqn:Hi; [|by rewrite drop_ge by (by apply lookup_ge_None)].
    rewrite (drop_S _ _ _ Hi) in Hs |- *.
    destruct (same_key_from_spec kvs (length kvs) (S i) (Key kv))
      as (run & rest & Hd & Hr & Hrest & -> & Hd'); [lia|].
    rewrite Hd in Hs |- *.
    apply StronglySorted_inv in Hs as [Hs Hle].
    apply Forall_app in Hle as [_ Hle].
    change (kv :: run ++ rest) with ((kv :: run) ++ rest).
    rewrite (reduce_spec_group reducef (Key kv) (kv :: run) rest).
    + f_equal. rewrite IH, Hd'; [done| |lia]. rewrite Hd'. by apply StronglySorted_app_1_r in Hs.
    + done.
    + by constructor.
    + apply StronglySorted_app_1_r in Hs.
      destruct rest as [|kv' rest]; [constructor|].
      apply StronglySorted_inv in Hs as [_ Hle'].
      assert (Hne : Key kv' <> Key kv) by (by apply Hrest).
      inversion_clear Hle as [|? ? Hkv' Hle2]. apply ByKey_le in Hkv'.
      constructor; [done|]. apply Forall_forall. intros x Hx.
      rewrite Forall_forall in Hle', Hle2. specialize (Hle' x Hx). specialize (Hle2 x Hx).
      rewrite ByKey_le in Hle', Hle2. split; [|done].
      intros Heq. rewrite Heq in Hle'. apply Hne. by apply (anti_symm String.le).
Qed.

Lemma reduce_lines_sorted reducef kvs :
  Sorted (not_after ByKey_Less) kvs -> reduce_lines reducef kvs = reduce_spec reducef kvs.
Proof.
  intros Hs. unfold reduce_lines. rewrite reduce_from_sorted; [by rewrite drop_0| |lia].
  rewrite drop_0. apply Sorted_StronglySorted; [apply _|done].
Qed.

(** Sorting with any sort, then printing. *)
Lemma reduce_lines_sort `{!Sorter} reducef `{!OrderFree reducef} kvs :
  reduce_lines reducef (sort_by ByKey_Less kvs) = reduce_spec reducef kvs.
Proof.
  rewrite reduce_lines_sorted by (apply sort_by_sorted, _).
  apply reduce_spec_perm; [done|]. apply sort_by_perm.
Qed.

(** ** Partitioned reduction *)

Lemma values_of_filter_part nR p k kvs :
  part nR k = p -> values_of k (filter (in_part nR p) kvs) = values_of k kvs.
Proof.
  intros Hp. unfold values_of. f_equal. rewrite list_filter_filter.
  apply filter_ext_Forall, Forall_true. intros kv. unfold in_part. naive_solver.
Qed.

Lemma sorted_keys_filter_part nR p kvs :
  sorted_keys (filter (in_part nR p) kvs) = filter (fun k => part nR k = p) (sorted_keys kvs).
Proof.
  apply sorted_keys_unique.
  - apply StronglySorted_Sorted.
    assert (Hs : StronglySorted String.le (sorted_keys kvs))
      by (apply Sorted_StronglySorted; [apply _|apply Sorted_sorted_keys]).
    induction Hs as [|k ks Hs IH Hle]; [constructor|]. rewrite filter_cons. case_decide; [|done].
    constructor; [done|]. apply Forall_forall. intros k' [_ Hk']%list_elem_of_filter.
    rewrite Forall_forall in Hle. by apply Hle.
  - apply NoDup_filter, NoDup_sorted_keys.
  - intros k. rewrite list_elem_of_filter, elem_of_sorted_keys, !list_elem_of_fmap.
    setoid_rewrite list_elem_of_filter. unfold in_part. naive_solver.
Qed.

Lemma reduce_spec_filter_part reducef nR p kvs :
  reduce_spec reducef (filter (in_part nR p) kvs) =
  (fun k => output_line k (reducef k (values_of k kvs))) <$>
    filter (fun k => part nR k = p) (sorted_keys kvs).
Proof.
  unfold reduce_spec. rewrite sorted_keys_filter_part. apply list_fmap_ext.
  intros i k Hk%list_elem_of_lookup_2. apply list_elem_of_filter in Hk as [Hp _].
  by rewrite values_of_filter_part.
Qed.

(** The lines of all partitions together are the lines of the whole. *)
Lemma reduce_spec_partitions reducef nR kvs :
  (0 < nR)%Z ->
  mjoin ((fun p => reduce_spec reducef (filter (in_part nR p) kvs)) <$> seqZ 0 nR)
  ≡ₚ reduce_spec reducef kvs.
Proof.
  intros HnR. unfold reduce_spec at 2.
  rewrite <- (filter_classes_perm (part nR) (seqZ 0 nR) (sorted_keys kvs)).
  - apply reflexive_eq. rewrite fmap_mjoin, <- list_fmap_compose. f_equal.
    apply list_fmap_ext. intros i p _. apply reduce_spec_filter_part.
  - apply NoDup_seqZ.
  - apply Forall_forall. intros k _. apply elem_of_seqZ. pose proof (part_range nR k HnR). lia.
Qed.

(** ** The effect of the tasks on the file system *)

Set Default Proof Using "Type".

Section effects.
Context `{!Sorter, !KVCodec}.

(** The contents of the file of partition [p] for the pairs [kvs]. *)
Definition part_file (nR p : Z) (kvs : list KeyValue) : string :=
  str_concat (encode_kv <$> filter (in_part nR p) kvs).

(** The file system after the files of the partitions [ps] were written. *)
Definition put_parts (task : string) (nR : Z) (kvs : list KeyValue) (ps : list Z)
    (fs : gmap string string) : gmap string string :=
  foldl (fun fs p => <[intermediate_name task p := part_file nR p kvs]> fs) fs ps.

Lemma encode_all_spec filename kvs fs s :
  fs !! filename = Some s ->
  encode_all filename kvs fs = (<[filename := s +:+ str_concat (encode_kv <$> kvs)]> fs, Ret tt).
Proof.
  revert fs s. induction kvs as [|kv kvs IH]; intros fs s Hs; simpl.
  - by rewrite str_app_nil_r, insert_id.
  - unfold io_bind, append_file. rewrite Hs. simpl.
    rewrite (IH _ (s +:+ encode_kv kv)) by apply lookup_insert_eq.
    by rewrite insert_insert_eq, str_app_assoc.
Qed.

Lemma write_partitions_spec creatable task nR kvs m ps fs :
  (forall p, p ∈ ps -> creatable (intermediate_name task p) = true) ->
  (forall p, partition_get m p = filter (in_part nR p) kvs) ->
  write_partitions creatable task m ps fs = (put_parts task nR kvs ps fs, Ret tt).
Proof.
  intros Hc Hm. revert fs. induction ps as [|p ps IH]; intros fs; simpl; [done|].
  unfold io_bind at 1, os_Create. rewrite Hc by set_solver.
  unfold io_bind at 1. rewrite (encode_all_spec _ _ _ "") by apply lookup_insert_eq.
  rewrite insert_insert_eq, IH by set_solver. unfold part_file. by rewrite Hm.
Qed.

(** A map task on an existing input writes one file per partition, with the
    pairs of that partition in the order Map emitted them. *)
Lemma MapperTask_spec mapf creatable r content fs :
  fs !! req_FilePath r = Some content -> (0 < req_NReduce r)%Z ->
  (forall p, (0 <= p < req_NReduce r)%Z -> creatable (intermediate_name (req_TaskId r) p) = true) ->
  MapperTask mapf creatable r fs =
  (put_parts (req_TaskId r) (req_NReduce r) (mapf (req_FilePath r) content)
     (seqZ 0 (req_NReduce r)) fs, Ret tt).
Proof.
  intros Hf Hn Hc. unfold MapperTask, io_bind at 1, read_file. rewrite Hf.
  destruct (partition_kvs_spec (req_NReduce r) ∅ (mapf (req_FilePath r) content))
    as (m & -> & Hm); [lia|].
  apply write_partitions_spec; [|done]. intros p Hp%elem_of_seqZ. apply Hc. lia.
Qed.

Lemma put_parts_other task nR kvs ps fs f :
  (forall p, p ∈ ps -> f <> intermediate_name task p) -> put_parts task nR kvs ps fs !! f = fs !! f.
Proof.
  revert fs. induction ps as [|p ps IH]; intros fs Hne; simpl; [done|].
  rewrite IH by set_solver. rewrite lookup_insert_ne; [done|]. intros Heq. by eapply (Hne p); [set_solver|].
Qed.

#[export] Instance intermediate_name_part_inj task : Inj (=) (=) (intermediate_name task).
Proof.
  intros p q Heq. by apply (inj Itoa); do 3 apply (inj (String.app _)) in Heq.
Qed.

Lemma put_parts_lookup task nR kvs ps fs p :
  NoDup ps -> p ∈ ps ->
  put_parts task nR kvs ps fs !! intermediate_name task p = Some (part_file nR p kvs).
Proof.
  intros Hnd. revert fs. induction Hnd as [|q ps Hq Hnd IH]; intros fs Hp; simpl; [set_solver|].
  destruct (decide (p = q)) as [->|Hne]; [|apply IH; set_solver].
  rewrite put_parts_other; [apply lookup_insert_eq|].
  intros q' Hq' Heq. by apply (inj (intermediate_name task)) in Heq as ->.
Qed.

Lemma put_parts_dom task nR kvs ps fs :
  dom (put_parts task nR kvs ps fs) = dom fs ∪ list_to_set (intermediate_name task <$> ps).
Proof.
  revert fs. induction ps as [|p ps IH]; intros fs; simpl; [set_solver|].
  rewrite IH, dom_insert_L. set_solver.
Qed.

(** Reading every file a pattern selects. *)
Lemma read_intermediate_spec files fs :
  Forall (fun f => f ∈ dom fs) files ->
  read_intermediate files fs
  = (fs, Ret (mjoin ((fun f => decode_kvs (default "" (fs !! f))) <$> files))).
Proof.
  induction 1 as [|f files Hf _ IH]; simpl; [done|]. unfold io_bind at 1, read_file.
  apply elem_of_dom in Hf as [s ->]. simpl. unfold io_bind. by rewrite IH.
Qed.

Lemma elem_of_Glob pat fs f : f ∈ Glob pat fs <-> glob_match pat f = true /\ f ∈ dom fs.
Proof.
  unfold Glob. rewrite list_elem_of_filter, merge_sort_Permutation. by rewrite elem_of_elements.
Qed.

Lemma NoDup_Glob pat fs : NoDup (Glob pat fs).
Proof. unfold Glob. apply NoDup_filter. rewrite merge_sort_Permutation. apply NoDup_elements. Qed.

Lemma reducer_output_spec reducef p fs :
  reducer_output reducef p fs =
  (fs, Ret (str_concat (reduce_lines reducef (sort_by ByKey_Less
     (mjoin ((fun f => decode_kvs (default "" (fs !! f))) <$> Glob (glob_pattern p) fs)))))).
Proof.
  unfold reducer_output, io_bind. rewrite read_intermediate_spec; [done|].
  apply Forall_forall. intros f [_ Hf]%elem_of_Glob. done.
Qed.

(** Creating a file and printing to it leaves exactly what was printed. *)
Lemma write_created path s fs :
  write_from_start path s (<[path := ""]> fs) = (<[path := s]> fs, Ret tt).
Proof.
  unfold write_from_start. rewrite lookup_insert_eq. simpl.
  by rewrite str_drop_nil, str_app_nil_r, insert_insert_eq.
Qed.

Lemma write_same path s fs :
  fs !! path = Some s -> write_from_start path s fs = (fs, Ret tt).
Proof.
  intros Hs. unfold write_from_start. rewrite Hs. simpl.
  by rewrite str_drop_all, str_app_nil_r, insert_id.
Qed.
End effects.
