(* ===== verification/Mrapps.v ===== *)
(** * The MapReduce applications: src/src/mrapps

    The Map and Reduce functions of the plugins that are functions of their
    arguments: word count ([Wc]), the indexer ([Indexer]), [nocrash] and [crash]
    ([Crash]), [early_exit] ([EarlyExit]), the Reduce of [mtiming] and the Map of
    [rtiming] ([Timing]); what else these two have is in Nparallel. Each Reduce is shown
    not to depend on the order of its values, which is what the framework asks of it
    (the class [OrderFree]). *)

From Stdlib Require Import Ascii.
From S2P Require Import Prelude GoLib MrTypes Worker WorkerFacts.

(** ** UTF-8, as [range] over a string decodes it *)

Definition RuneError : Z := 65533.

Definition byte_at (s : string) (i : nat) : option Z :=
  (fun c => Z.of_nat (nat_of_ascii c)) <$> String.get i s.

(** A continuation byte, within the bounds [lo] and [hi]. *)
Definition cont (lo hi : Z) (b : option Z) : option Z :=
  match b with
  | Some b => if decide (lo <= b <= hi)%Z then Some (Z.land b 63) else None
  | None => None
  end.

(** [utf8.DecodeRuneInString] of a string that starts with the byte [b0]: the
    rune and its width. Surrogates, overlong forms and values above 10FFFF are
    rejected through the bounds of the second byte. *)
Definition decode_rune (s : string) (b0 : Z) : Z * nat :=
  let bad := (RuneError, 1) in
  let b1 lo hi := cont lo hi (byte_at s 1) in
  let b2 := cont 128 191 (byte_at s 2) in
  let b3 := cont 128 191 (byte_at s 3) in
  let two x y := (Z.shiftl x 6 + y)%Z in
  let three lo hi :=
    match b1 lo hi, b2 with
    | Some y, Some z => (two (two (Z.land b0 15) y) z, 3)
    | _, _ => bad
    end in
  let four lo hi :=
    match b1 lo hi, b2, b3 with
    | Some y, Some z, Some w => (two (two (two (Z.land b0 7) y) z) w, 4)
    | _, _, _ => bad
    end in
  if decide (b0 < 128)%Z then (b0, 1)
  else if decide (194 <= b0 <= 223)%Z then
    match b1 128%Z 191%Z with Some y => (two (Z.land b0 31) y, 2) | None => bad end
  else if decide (b0 = 224)%Z then three 160%Z 191%Z
  else if decide (b0 = 237)%Z then three 128%Z 159%Z
  else if decide (225 <= b0 <= 239)%Z then three 128%Z 191%Z
  else if decide (b0 = 240)%Z then four 144%Z 191%Z
  else if decide (241 <= b0 <= 243)%Z then four 128%Z 191%Z
  else if decide (b0 = 244)%Z then four 128%Z 143%Z
  else bad.

Lemma decode_rune_width s b0 : 1 <= (decode_rune s b0).2 <= 4.
Proof. unfold decode_rune, cont. repeat (case_decide || case_match); simpl; lia. Qed.

Fixpoint str_take (n : nat) (s : string) : string :=
  match n, s with
  | S n, String c s => String c (str_take n s)
  | _, _ => ""
  end.

Lemma str_take_drop n s : str_take n s +:+ str_drop n s = s.
Proof.
  revert s. induction n as [|n IH]; intros [|c s]; simpl; try done. by rewrite str_app_cons, IH.
Qed.

Lemma str_drop_length n s : String.length (str_drop n s) = String.length s - n.
Proof. revert s. induction n as [|n IH]; intros [|c s]; simpl; auto. Qed.

(** The runes of a string, each with the bytes it is decoded from. *)
Fixpoint runes_from (fuel : nat) (s : string) : list (Z * string) :=
  match fuel, s with
  | S fuel, String c _ =>
      let '(r, w) := decode_rune s (Z.of_nat (nat_of_ascii c)) in
      (r, str_take w s) :: runes_from fuel (str_drop w s)
  | _, _ => []
  end.

(** A rune takes at least one byte, so the length of the string is enough. *)
Definition runes (s : string) : list (Z * string) := runes_from (String.length s) s.

Lemma runes_from_concat fuel s :
  String.length s <= fuel -> str_concat ((runes_from fuel s).*2) = s.
Proof.
  revert s. induction fuel as [|fuel IH]; intros [|c s] Hf; simpl in Hf; try (done || lia).
  cbn [runes_from]. set (t := String c s) in *.
  pose proof (decode_rune_width t (Z.of_nat (nat_of_ascii c))) as Hw.
  destruct (decode_rune t _) as [r w]. simpl in Hw. cbn [fmap list_fmap snd str_concat].
  change (list_fmap _ _ snd ?l) with (snd <$> l). simpl.
  rewrite IH; [apply str_take_drop|]. rewrite str_drop_length. simpl. lia.
Qed.

(** ** strings.FieldsFunc *)

(** The loop over the runes; [cur] is the field being read, if any. *)
Fixpoint fields_from (f : Z -> bool) (rs : list (Z * string)) (cur : option string) : list string :=
  match rs with
  | [] => match cur with Some w => [w] | None => [] end
  | (r, bs) :: rs =>
      if f r then match cur with
                  | Some w => w :: fields_from f rs None
                  | None => fields_from f rs None
                  end
      else fields_from f rs (Some (default "" cur +:+ bs))
  end.

Definition FieldsFunc (s : string) (f : Z -> bool) : list string := fields_from f (runes s) None.

Lemma fields_from_concat f rs cur :
  str_concat (fields_from f rs cur)
  = default "" cur +:+ str_concat ((filter (fun x => f x.1 = false) rs).*2).
Proof.
  revert cur. induction rs as [|[r bs] rs IH]; intros cur; simpl.
  - destruct cur; simpl; by rewrite ?str_app_nil_r.
  - rewrite filter_cons. simpl. destruct (f r) eqn:Hf.
    + rewrite decide_False by done. destruct cur; simpl; by rewrite IH.
    + rewrite decide_True by done. simpl. rewrite IH. apply str_app_assoc.
Qed.

(** The maximal runs of runes that do not satisfy [f]: what the documentation of
    [strings.FieldsFunc] calls the fields. *)
Inductive Fields (f : Z -> bool) : list (Z * string) -> list string -> Prop :=
  | Fields_nil seps : Forall (fun x => f x.1 = true) seps -> Fields f seps []
  | Fields_cons seps run rest ws :
      Forall (fun x => f x.1 = true) seps -> run <> [] -> Forall (fun x => f x.1 = false) run ->
      (forall x, head rest = Some x -> f x.1 = true) -> Fields f rest ws ->
      Fields f (seps ++ run ++ rest) (str_concat run.*2 :: ws).

Lemma Fields_sep f x rs ws : f x.1 = true -> Fields f rs ws -> Fields f (x :: rs) ws.
Proof.
  intros Hx. destruct 1 as [seps Hs|seps run rest ws Hs Hne Hr Hh Hf].
  - constructor. by constructor.
  - apply (Fields_cons f (x :: seps)); try done. by constructor.
Qed.

Lemma fields_from_some f rs cur :
  exists run rest, rs = run ++ rest /\ Forall (fun x => f x.1 = false) run /\
    (forall x, head rest = Some x -> f x.1 = true) /\
    fields_from f rs (Some cur) = (cur +:+ str_concat run.*2) :: fields_from f rest None.
Proof.
  revert cur. induction rs as [|[r bs] rs IH]; intros cur; simpl.
  - exists [], []. simpl. by rewrite str_app_nil_r.
  - destruct (f r) eqn:Hf.
    + exists [], ((r, bs) :: rs). simpl. rewrite Hf, str_app_nil_r. split_and!; try done.
      by intros x [= <-].
    + destruct (IH (cur +:+ bs)) as (run & rest & -> & Hrun & Hh & Heq).
      exists ((r, bs) :: run), rest. simpl. rewrite Heq, str_app_assoc. split_and!; try done.
      by constructor.
Qed.

Lemma fields_from_spec f rs : Fields f rs (fields_from f rs None).
Proof.
  remember (length rs) as n eqn:Hn. revert rs Hn.
  induction n as [n IH] using lt_wf_ind. intros [|[r bs] rs] Hn; simpl in *; [by constructor|].
  destruct (f r) eqn:Hf; [by apply Fields_sep; [|eapply IH; [|done]; lia]|].
  destruct (fields_from_some f rs bs) as (run & rest & -> & Hrun & Hh & Heq).
  change ("" +:+ bs) with bs. rewrite Heq. apply (Fields_cons f [] ((r, bs) :: run)); try done.
  - by constructor.
  - eapply IH; [|done]. rewrite length_app in Hn. lia.
Qed.


(** ** sort.Strings and strings.Join *)

Definition Strings `{!Sorter} (l : list string) : list string := sort_by str_lt l.

Fixpoint Join (l : list string) (sep : string) : string :=
  match l with
  | [] => ""
  | [s] => s
  | s :: l => s +:+ sep +:+ Join l sep
  end.

#[export] Instance not_after_str_antisym : AntiSymm (=) (not_after str_lt).
Proof. intros x y Hxy Hyx. by apply str_lt_false_antisym. Qed.

Lemma Strings_perm `{!Sorter} l l' : l ≡ₚ l' -> Strings l = Strings l'.
Proof.
  intros Hp. unfold Strings. apply (Sorted_unique (not_after str_lt)); [by apply sort_by_sorted, _..|].
  by rewrite !sort_by_perm.
Qed.

(** ** wc.go *)

Module Wc.
Section wc.
(** The table of [unicode.IsLetter]. *)
Variable IsLetter : Z -> bool.

Definition wcMap (filename contents : string) : list KeyValue :=
  (fun w => mkKeyValue w "1") <$> FieldsFunc contents (fun r => negb (IsLetter r)).

Definition wcReduce (key : string) (values : list string) : string :=
  Itoa (Z.of_nat (length values)).
End wc.

#[export] Instance wcReduce_order_free : OrderFree wcReduce.
Proof. intros k vs vs' Hp. unfold wcReduce. by rewrite Hp. Qed.
End Wc.

(** ** indexer.go *)

Module Indexer.
Section indexer.
Context `{!Sorter}.
Variable IsLetter : Z -> bool.
(** The order in which [range] visits the keys of a map. *)
Variable range : gset string -> list string.

Definition indexerMap (document value : string) : list KeyValue :=
  let words := FieldsFunc value (fun x => negb (IsLetter x)) in
  (fun w => mkKeyValue w document) <$> range (list_to_set words).

Definition indexerReduce (key : string) (values : list string) : string :=
  let values := Strings values in
  Itoa (Z.of_nat (length values)) +:+ " " +:+ Join values ",".
End indexer.

#[export] Instance indexerReduce_order_free `{!Sorter} : OrderFree indexerReduce.
Proof. intros k vs vs' Hp. unfold indexerReduce. by rewrite (Strings_perm _ _ Hp). Qed.
End Indexer.

(** ** crash.go, nocrash.go *)

Module Crash.
Section crash.
Context `{!Sorter}.

(** [maybeCrash], given what [crand.Int] returned below 1000: [false] ends the
    process. In nocrash.go the test is [false && ...]. *)
Definition maybeCrash (rr : Z) : bool := negb (bool_decide (rr < 330)%Z).
Definition maybeCrash_no (rr : Z) : bool := negb (false && bool_decide (rr < 500)%Z).

Definition emitted (filename contents : string) : list KeyValue :=
  [mkKeyValue "a" filename;
   mkKeyValue "b" (Itoa (Z.of_nat (String.length filename)));
   mkKeyValue "c" (Itoa (Z.of_nat (String.length contents)));
   mkKeyValue "d" "xyzzy"].

Definition joined (values : list string) : string := Join (Strings values) " ".

(** [None]: the process exited. *)
Definition crashMap (rr : Z) (filename contents : string) : option (list KeyValue) :=
  if maybeCrash rr then Some (emitted filename contents) else None.

Definition crashReduce (rr : Z) (key : string) (values : list string) : option string :=
  if maybeCrash rr then Some (joined values) else None.

Definition nocrashMap (rr : Z) (filename contents : string) : option (list KeyValue) :=
  if maybeCrash_no rr then Some (emitted filename contents) else None.

Definition nocrashReduce (rr : Z) (key : string) (values : list string) : option string :=
  if maybeCrash_no rr then Some (joined values) else None.
End crash.

#[export] Instance joined_order_free `{!Sorter} : OrderFree (fun _ => joined).
Proof. intros k vs vs' Hp. unfold joined. by rewrite (Strings_perm _ _ Hp). Qed.
End Crash.

(** ** early_exit.go *)

Module EarlyExit.
Definition earlyExitMap (filename contents : string) : list KeyValue := [mkKeyValue filename "1"].

(** [time.Sleep] delays the answer and does not change it. *)
Definition earlyExitReduce (key : string) (values : list string) : string :=
  Itoa (Z.of_nat (length values)).

#[export] Instance earlyExitReduce_order_free : OrderFree earlyExitReduce.
Proof. intros k vs vs' Hp. unfold earlyExitReduce. by rewrite Hp. Qed.
End EarlyExit.

(** ** rtiming.go (Map), mtiming.go (Reduce) *)

Module Timing.
Definition rtimingMap (filename contents : string) : list KeyValue :=
  (fun k => mkKeyValue k "1") <$> ["a"; "b"; "c"; "d"; "e"; "f"; "g"; "h"; "i"; "j"].

Definition mtimingReduce `{!Sorter} (key : string) (values : list string) : string :=
  Join (Strings values) " ".

#[export] Instance mtimingReduce_order_free `{!Sorter} : OrderFree mtimingReduce.
Proof. intros k vs vs' Hp. unfold mtimingReduce. by rewrite (Strings_perm _ _ Hp). Qed.
End Timing.

(** ** jobcount.go *)

Module Jobcount.

(** [strings.HasPrefix(f.Name(), "mr-worker-jobcount")] over [ReadDir(".")]: the
    files of the working directory are the paths without a slash. *)
Definition has_slash (s : string) : bool :=
  existsb (fun c => bool_decide (c = "/"%char)) (String.list_ascii_of_string s).

Definition is_count_file (f : string) : bool :=
  String.prefix "mr-worker-jobcount" f && negb (has_slash f).

Definition count_file (pid count : Z) : string :=
  "mr-worker-jobcount-" +:+ Itoa pid +:+ "-" +:+ Itoa count.

(** [Map] of the process [pid], whose variable [count] it increments. *)
Definition jobcountMap (pid count : Z) (filename contents : string) (fs : gmap string string)
    : gmap string string * Z * list KeyValue :=
  (<[count_file pid count := "x"]> fs, (count + 1)%Z, [mkKeyValue "a" "x"]).

Definition jobcountReduce (fs : gmap string string) (key : string) (values : list string) : string :=
  Itoa (Z.of_nat (length (filter (fun f => is_count_file f = true) (elements (dom fs))))).
End Jobcount.
