(* ===== verification/Nparallel.v ===== *)
(** * How many workers run at once: mtiming.go and rtiming.go

    [nparallel] of src/src/mrapps/mtiming.go and src/src/mrapps/rtiming.go (the two are
    the same) leaves a file named after its process in the working directory, counts the
    files there whose processes live, sleeps and removes its file. [Sscanf_d] models the
    scan of the names; a step relation interleaves processes that enter, count, leave and
    die. The Map of mtiming.go and the Reduce of rtiming.go are its clients. *)

From Stdlib Require Import Ascii.
From S2P Require Import Prelude GoLib MrTypes Worker WorkerFacts Mrapps.

(** ** fmt.Sscanf of a literal and [%d] *)

(** [isSpace] of the package fmt *)
Definition isSpace (r : Z) : bool :=
  existsb (fun '(lo, hi) => bool_decide (lo <= r <= hi)%Z)
    [(9, 13); (32, 32); (133, 133); (160, 160); (5760, 5760); (8192, 8202); (8232, 8233); (8239, 8239);
     (8287, 8287); (12288, 12288)]%Z.

(** [SkipSpace]: the bytes after the spaces; a newline is an error. *)
Fixpoint SkipSpace (rs : list (Z * string)) : option string :=
  match rs with
  | [] => Some ""
  | (r, bs) :: rs' =>
      if decide (r = 10)%Z then None else if isSpace r then SkipSpace rs' else Some (str_concat rs.*2)
  end.

Definition digit_of (c : ascii) : option Z :=
  let n := Z.of_nat (nat_of_ascii c) in if decide (48 <= n <= 57)%Z then Some (n - 48)%Z else None.

(** The value of the digits at the start of a string, after those worth [acc]. *)
Fixpoint read_digits (acc : Z) (s : string) : Z :=
  match s with
  | String c s' => match digit_of c with Some d => read_digits (10 * acc + d) s' | None => acc end
  | EmptyString => acc
  end.

(** [scanNumber]: at least one digit. *)
Definition scanNumber (s : string) : option Z :=
  match s with
  | String c _ => match digit_of c with Some _ => Some (read_digits 0 s) | None => None end
  | EmptyString => None
  end.

(** [strconv.ParseInt] refuses what does not fit. *)
Definition fits64 (n : Z) : option Z := if decide (- 2 ^ 63 <= n < 2 ^ 63)%Z then Some n else None.

(** [%d]: spaces, a sign, digits. What follows is not read. *)
Definition scanInt (s : string) : option Z :=
  s ← SkipSpace (runes s);
  match s with
  | String "-" s' => n ← scanNumber s'; fits64 (- n)
  | String "+" s' => n ← scanNumber s'; fits64 n
  | _ => n ← scanNumber s; fits64 n
  end.

(** [fmt.Sscanf(name, lit+"%d", &x)] for a literal without spaces and percent signs *)
Definition Sscanf_d (lit name : string) : option Z :=
  if String.prefix lit name then scanInt (str_drop (String.length lit) name) else None.

(** ** nparallel *)

Definition worker_prefix (phase : string) : string := "mr-worker-" +:+ phase +:+ "-".
Definition worker_file (phase : string) (pid : Z) : string := worker_prefix phase +:+ Itoa pid.

(** The working directory, by the names of its files. *)
Definition nparallel_enter (phase : string) (pid : Z) (dir : gset string) : gset string := {[worker_file phase pid]} ∪ dir.

(** [dd.Readdirnames(n)] of a directory whose names come as [names] *)
Definition Readdirnames (n : Z) (names : list string) : list string := take (Z.to_nat n) names.

(** The loop over the names; [kill0] is whether [syscall.Kill(xpid, 0)] succeeds. *)
Definition nparallel_count (phase : string) (kill0 : Z -> bool) (names : list string) : Z :=
  foldl (fun ret name =>
    match Sscanf_d (worker_prefix phase) name with
    | Some xpid => if kill0 xpid then (ret + 1)%Z else ret
    | None => ret
    end) 0%Z (Readdirnames 1000000 names).

(** [os.Remove]; [None] is the panic when there is no such file. *)
Definition nparallel_leave (phase : string) (pid : Z) (dir : gset string) : option (gset string) :=
  if decide (worker_file phase pid ∈ dir) then Some (dir ∖ {[worker_file phase pid]}) else None.

(** [Map] of mtiming.go, for the time [ts] as printed and the number [n] that
    [nparallel] gives. *)
Definition mtimingMap (pid : Z) (ts : string) (n : Z) (filename contents : string) : list KeyValue :=
  [mkKeyValue ("times-" +:+ Itoa pid) ts; mkKeyValue ("parallel-" +:+ Itoa pid) (Itoa n)].

(** [Reduce] of rtiming.go *)
Definition rtimingReduce (n : Z) (key : string) (values : list string) : string := Itoa n.

(** ** The scan reads what was printed *)

Lemma digit_of_char d : (d < 10)%N -> digit_of (pretty_N_char d) = Some (Z.of_N d).
Proof.
  intros Hd. assert (d = 0 \/ d = 1 \/ d = 2 \/ d = 3 \/ d = 4 \/ d = 5 \/ d = 6 \/ d = 7 \/ d = 8 \/ d = 9)%N as Hc by lia.
  repeat destruct Hc as [->|Hc]; subst; reflexivity.
Qed.

Lemma read_pretty_go x s : read_digits 0 (pretty_N_go x s) = read_digits (Z.of_N x) s.
Proof.
  revert s. induction (N.lt_wf_0 x) as [x _ IH]; intros s.
  destruct (decide (x = 0)%N) as [->|Hx]; [by rewrite pretty_N_go_0|].
  rewrite pretty_N_go_step by lia. rewrite IH by (apply N.div_lt; lia). cbn [read_digits].
  rewrite digit_of_char by (apply N.mod_lt; done). f_equal. pose proof (N.div_mod x 10 ltac:(done)). lia.
Qed.

(** A string that starts with a digit. *)
Definition numeral (s : string) : Prop := exists c d s', s = String c s' /\ digit_of c = Some d.

Lemma pretty_go_numeral x s : (x <> 0)%N \/ numeral s -> numeral (pretty_N_go x s).
Proof.
  revert s. induction (N.lt_wf_0 x) as [x _ IH]; intros s Hs.
  destruct (decide (x = 0)%N) as [->|Hx]; [rewrite pretty_N_go_0; tauto|].
  rewrite pretty_N_go_step by lia. apply IH; [apply N.div_lt; lia|]. right.
  eexists _, _, _. split; [done|]. apply digit_of_char, N.mod_lt. done.
Qed.

Lemma Itoa_numeral n : (0 <= n)%Z -> numeral (Itoa n) /\ read_digits 0 (Itoa n) = n.
Proof.
  intros Hn. unfold Itoa, pretty, pretty_Z. destruct n as [|p|p]; [|..|lia].
  - split; [|done]. by eexists _, _, _.
  - unfold pretty, pretty_positive, pretty, pretty_N. rewrite decide_False by done.
    split; [apply pretty_go_numeral; by left|]. by rewrite read_pretty_go.
Qed.

Lemma digit_range c d : digit_of c = Some d -> (48 <= Z.of_nat (nat_of_ascii c) <= 57)%Z.
Proof. unfold digit_of. by case_decide. Qed.

Lemma scanInt_numeral s : numeral s -> scanInt s = fits64 (read_digits 0 s).
Proof.
  intros (c & d & s' & -> & Hd). pose proof (digit_range _ _ Hd) as Hr. unfold scanInt.
  assert (SkipSpace (runes (String c s')) = Some (String c s')) as ->.
  { pose proof (runes_from_concat (String.length (String c s')) (String c s') ltac:(lia)) as E.
    unfold runes in *. cbn [runes_from String.length] in *. unfold decode_rune in *.
    rewrite decide_True in * by lia. cbn [SkipSpace]. rewrite decide_False by lia.
    assert (isSpace (Z.of_nat (nat_of_ascii c)) = false) as ->; [|by rewrite E].
    unfold isSpace. simpl. repeat (rewrite bool_decide_false by lia; simpl). done. }
  cbn [mbind option_bind]. destruct (ascii_dec c "-") as [->|H1]; [done|]. destruct (ascii_dec c "+") as [->|H2]; [done|].
  assert (scanNumber (String c s') = Some (read_digits 0 (String c s'))) as E by (unfold scanNumber; by rewrite Hd).
  transitivity (scanNumber (String c s') ≫= fits64); [|by rewrite E].
  destruct c as [[] [] [] [] [] [] [] []]; done.
Qed.

(** Process numbers. *)
Definition is_pid (p : Z) : Prop := (0 < p < 2 ^ 31)%Z.

Lemma prefix_app a b : String.prefix a (a +:+ b) = true /\ str_drop (String.length a) (a +:+ b) = b.
Proof.
  induction a as [|c a [IH1 IH2]]; [by destruct b|]. rewrite str_app_cons. simpl.
  destruct (ascii_dec c c); [|done]. by split.
Qed.

Lemma Sscanf_worker_file phase p : is_pid p -> Sscanf_d (worker_prefix phase) (worker_file phase p) = Some p.
Proof.
  intros Hp. unfold Sscanf_d, worker_file. destruct (prefix_app (worker_prefix phase) (Itoa p)) as [-> ->].
  destruct (Itoa_numeral p) as [Hn Hr]; [unfold is_pid in Hp; lia|]. rewrite (scanInt_numeral _ Hn), Hr.
  unfold fits64. rewrite decide_True; [done|]. unfold is_pid in Hp. lia.
Qed.

#[export] Instance worker_file_inj phase : Inj (=) (=) (worker_file phase).
Proof.
  intros p q E. apply Itoa_inj. unfold worker_file in E. apply (f_equal (str_drop (String.length (worker_prefix phase)))) in E.
  by rewrite !(proj2 (prefix_app _ _)) in E.
Qed.

(** ** Workers that run at the same time *)

(** The processes that live, those inside [nparallel], and the numbers of those that
    died there and left a file behind. *)
Record Procs := mkProcs { dir : gset string; living : gset Z; inside : gset Z; stale : gset Z }.

Section workers.
Context (phase : string).

(** The file is written, the directory read and the file removed at different times;
    a process may die at any time and its number may be given again. *)
Inductive worker_step : Procs -> Procs -> Prop :=
  | worker_born p d l i s : is_pid p -> p ∉ l -> worker_step (mkProcs d l i s) (mkProcs d ({[p]} ∪ l) i s)
  | worker_enter p d l i s : p ∈ l -> p ∉ i ->
      worker_step (mkProcs d l i s) (mkProcs (nparallel_enter phase p d) l ({[p]} ∪ i) (s ∖ {[p]}))
  | worker_leave p d l i s d' : p ∈ i -> nparallel_leave phase p d = Some d' ->
      worker_step (mkProcs d l i s) (mkProcs d' l (i ∖ {[p]}) s)
  | worker_die p d l i s : p ∈ l ->
      worker_step (mkProcs d l i s) (mkProcs d (l ∖ {[p]}) (i ∖ {[p]}) (s ∪ ({[p]} ∩ i))).

(** A directory without files of this kind. *)
Definition quiet (d : gset string) : Prop := forall name, name ∈ d -> Sscanf_d (worker_prefix phase) name = None.

Definition reachable (d : gset string) (w : Procs) : Prop := rtc worker_step (mkProcs d ∅ ∅ ∅) w.

Record good (w : Procs) : Prop := {
  gd_live : inside w ⊆ living w;
  gd_pid : forall p, p ∈ living w ∪ stale w -> is_pid p;
  gd_apart : inside w ## stale w;
  gd_files : forall p, p ∈ inside w ∪ stale w -> worker_file phase p ∈ dir w;
  gd_names : forall name, name ∈ dir w -> Sscanf_d (worker_prefix phase) name <> None ->
    exists p, p ∈ inside w ∪ stale w /\ name = worker_file phase p }.

Lemma good_start d : quiet d -> good (mkProcs d ∅ ∅ ∅).
Proof. intros Hq. split; simpl; set_solver. Qed.

Lemma nparallel_leave_dir p d d' : nparallel_leave phase p d = Some d' -> d' = d ∖ {[worker_file phase p]}.
Proof. unfold nparallel_leave. case_decide; congruence. Qed.

Lemma good_worker_step w w' : worker_step w w' -> good w -> good w'.
Proof.
  intros Hs [H1 H2 H3 H4 H5]. destruct Hs as [p d l i s Hp Hl|p d l i s Hl Hi|p d l i s d' Hi ->%nparallel_leave_dir|p d l i s Hl];
    simpl in *; (split; simpl; [clear H2 H3 H4 H5; set_solver|clear H4 H5 H3; set_solver|clear H1 H2 H4 H5; set_solver|
      clear H1 H2; intros q Hq|clear H1 H2; intros name Hn Hs]).
  - by apply H4.
  - by apply H5.
  - unfold nparallel_enter. destruct (decide (q = p)) as [->|Hne]; [set_solver|]. apply elem_of_union_r, H4. clear H4 H5. set_solver.
  - unfold nparallel_enter in Hn. apply elem_of_union in Hn as [->%elem_of_singleton|Hn]; [exists p; split; [clear; set_solver|done]|].
    destruct (H5 name Hn Hs) as (q & Hq & ->). exists q. split; [|done]. clear H4 H5. destruct (decide (q = p)); set_solver.
  - apply elem_of_difference. split; [apply H4; clear H4 H5; set_solver|]. rewrite elem_of_singleton.
    intros ->%worker_file_inj. clear H4 H5. set_solver.
  - apply elem_of_difference in Hn as [Hn Hne]. destruct (H5 name Hn Hs) as (q & Hq & ->).
    exists q. split; [|done]. rewrite elem_of_singleton in Hne. assert (q <> p) by (by intros ->). clear H4 H5. set_solver.
  - apply H4. clear H4 H5. set_solver.
  - destruct (H5 name Hn Hs) as (q & Hq & ->). exists q. split; [|done]. clear H4 H5. destruct (decide (q = p)); set_solver.
Qed.

Lemma good_reachable d w : quiet d -> reachable d w -> good w.
Proof.
  intros Hq Hr. unfold reachable in Hr. remember (mkProcs d ∅ ∅ ∅) as w0 eqn:E.
  assert (good w0) as Hg by (subst; by apply good_start). clear E. induction Hr; [done|]. eauto using good_worker_step.
Qed.

(** The loop counts the names that pass. *)
Definition passes (kill0 : Z -> bool) (name : string) : Prop :=
  exists q, Sscanf_d (worker_prefix phase) name = Some q /\ kill0 q = true.

#[export] Instance passes_dec kill0 name : Decision (passes kill0 name).
Proof.
  unfold passes. destruct (Sscanf_d _ name) as [q|]; [|right; by intros (q & ? & ?)].
  destruct (kill0 q) eqn:E; [left; eauto|right; intros (q' & ? & ?); congruence].
Defined.

Lemma count_live_filter kill0 names :
  (Z.of_nat (length names) <= 1000000)%Z ->
  nparallel_count phase kill0 names = Z.of_nat (length (filter (passes kill0) names)).
Proof.
  intros Hl. unfold nparallel_count, Readdirnames. rewrite take_ge by lia. clear Hl.
  change (Z.of_nat (length (filter (passes kill0) names))) with (0 + Z.of_nat (length (filter (passes kill0) names)))%Z.
  generalize 0%Z. induction names as [|name names IH]; intros ret; cbn [foldl]; [rewrite filter_nil; simpl; lia|].
  rewrite IH, filter_cons. destruct (decide (passes kill0 name)) as [(q & -> & ->)|Hno]; [simpl; lia|].
  destruct (Sscanf_d _ name) as [q|] eqn:Es; [|done]. destruct (kill0 q) eqn:Ek; [|done]. destruct Hno. by exists q.
Qed.
End workers.

(** ** What a process counts *)

Section count.
Context (phase : string) (w : Procs) (Hgood : good phase w) (names : list string).
Context (Hnames : names ≡ₚ elements (dir w)) (Hfew : (Z.of_nat (length names) <= 1000000)%Z).

(** The names that pass are the files of the processes inside and of reused numbers. *)
Lemma passing_names :
  filter (passes phase (fun q => bool_decide (q ∈ living w))) names ≡ₚ
  worker_file phase <$> elements (inside w ∪ (stale w ∩ living w)).
Proof.
  destruct Hgood as [H1 H2 H3 H4 H5].
  apply NoDup_Permutation; [apply NoDup_filter; rewrite Hnames; apply NoDup_elements|apply NoDup_fmap; [apply _|apply NoDup_elements]|].
  intros name. rewrite list_elem_of_filter, Hnames, elem_of_elements, list_elem_of_fmap. split.
  - intros [(q & Hs & Hq%bool_decide_eq_true_1) Hn]. destruct (H5 name Hn ltac:(congruence)) as (p & Hp & ->).
    assert (is_pid p) as Hpid by (apply H2; set_solver). rewrite (Sscanf_worker_file phase p Hpid) in Hs.
    injection Hs as ->. exists q. split; [done|]. rewrite elem_of_elements. set_solver.
  - intros (p & -> & Hp%elem_of_elements). assert (p ∈ living w) as Hl by set_solver.
    split; [|apply H4; set_solver]. exists p. split; [apply Sscanf_worker_file, H2; set_solver|by apply bool_decide_eq_true].
Qed.

Lemma count_live_eq :
  nparallel_count phase (fun q => bool_decide (q ∈ living w)) names = Z.of_nat (size (inside w ∪ (stale w ∩ living w))).
Proof. by rewrite (count_live_filter _ _ _ Hfew), passing_names, length_fmap. Qed.
End count.

(** However workers interleave, a process inside [nparallel] counts the processes that
    are inside, itself too, and those whose number was last used by a process that died
    there; when numbers are not given again, exactly the workers that run at the same
    time. Removing the file never panics. *)
Theorem nparallel_counts phase d w names p :
  quiet phase d -> reachable phase d w ->
  names ≡ₚ elements (dir w) -> (Z.of_nat (length names) <= 1000000)%Z -> p ∈ inside w ->
  let n := nparallel_count phase (fun q => bool_decide (q ∈ living w)) names in
  (1 <= n)%Z /\ n = Z.of_nat (size (inside w ∪ (stale w ∩ living w))) /\
  (stale w ## living w -> n = Z.of_nat (size (inside w))) /\
  exists d', nparallel_leave phase p (dir w) = Some d'.
Proof.
  intros Hq Hr Hnames Hfew Hp n. pose proof (good_reachable phase d w Hq Hr) as Hg.
  assert (n = Z.of_nat (size (inside w ∪ (stale w ∩ living w)))) as Hn by (by apply count_live_eq).
  split_and!; [|done|..].
  - rewrite Hn. assert (size (inside w ∪ (stale w ∩ living w)) <> 0); [|lia].
    apply size_non_empty_iff. set_solver.
  - intros Hd. rewrite Hn. f_equal. f_equal. set_solver.
  - unfold nparallel_leave. rewrite decide_True; [eauto|]. apply (gd_files _ _ Hg). set_solver.
Qed.

(** Three mappers start, one of them dies while it runs, and the others count two. *)
Definition mappers : Procs :=
  let d := nparallel_enter "map" 9 (nparallel_enter "map" 8 (nparallel_enter "map" 7 {["pg-grimm.txt"]})) in
  let l : gset Z := ({[9]} ∪ ({[8]} ∪ ({[7]} ∪ ∅)))%Z in
  let s : gset Z := (∅ ∖ {[7]} ∖ {[8]} ∖ {[9]})%Z in
  mkProcs d (l ∖ {[8%Z]}) (l ∖ {[8%Z]}) (s ∪ ({[8%Z]} ∩ l)).

Lemma mappers_run : reachable "map" {["pg-grimm.txt"]} mappers.
Proof.
  unfold reachable.
  eapply rtc_l; [apply (worker_born "map" 7); [done|set_solver]|]. eapply rtc_l; [apply (worker_born "map" 8); [done|set_solver]|].
  eapply rtc_l; [apply (worker_born "map" 9); [done|set_solver]|]. eapply rtc_l; [apply (worker_enter "map" 7); set_solver|].
  eapply rtc_l; [apply (worker_enter "map" 8); set_solver|]. eapply rtc_l; [apply (worker_enter "map" 9); set_solver|].
  eapply rtc_l; [apply (worker_die "map" 8); set_solver|]. apply rtc_refl.
Qed.

Lemma nparallel_counts_witness :
  nparallel_count "map" (fun q => bool_decide (q ∈ living mappers))
    ["mr-worker-map-9"; "pg-grimm.txt"; "mr-worker-map-8"; "mr-worker-map-7"] = 2%Z /\
  exists d', nparallel_leave "map" 7 (dir mappers) = Some d'.
Proof.
  assert (Hq : quiet "map" {["pg-grimm.txt"]}) by (intros name ->%elem_of_singleton; reflexivity).
  assert (Hd : ["mr-worker-map-9"; "pg-grimm.txt"; "mr-worker-map-8"; "mr-worker-map-7"] ≡ₚ elements (dir mappers)).
  { apply (bool_decide_unpack _). vm_compute. exact I. }
  destruct (nparallel_counts "map" _ mappers _ 7 Hq mappers_run Hd) as (_ & _ & Hn & Hl);
    [simpl; lia|apply (bool_decide_unpack _); vm_compute; exact I|].
  split; [|exact Hl]. rewrite Hn; [reflexivity|]. apply (bool_decide_unpack _). vm_compute. exact I.
Defined.
