(* ===== verification/Sequential.v ===== *)
(** * The sequential reference: src/src/main/mrsequential.go

    The same Map and Reduce run in one process on all the input at once, with no
    partitions: what the distributed run is measured against. *)

From Stdlib Require Import Ascii.
From S2P Require Import Prelude GoLib MrTypes Worker WorkerFacts.

Set Default Proof Using "Type".

Section sequential.
Context `{!Sorter}.
Variable mapf : string -> string -> list KeyValue.
Variable reducef : string -> list string -> string.
Variable creatable : string -> bool.

(** The loop over the input files: [intermediate] after all of them. *)
Fixpoint seq_map (files : list string) : IO (list KeyValue) :=
  match files with
  | [] => io_ret []
  | filename :: files =>
      let! content := read_file filename in
      let! rest := seq_map files in
      io_ret (mapf filename content ++ rest)
  end.

(** The loop on [j]: the index of the first pair from [j] with another key. *)
Fixpoint seq_scan (kvs : list KeyValue) (fuel j : nat) (key : string) : nat :=
  match fuel with
  | 0 => j
  | S fuel =>
      match kvs !! j with
      | Some kv => if decide (Key kv = key) then seq_scan kvs fuel (S j) key else j
      | None => j
      end
  end.

(** The loop on [k]: the values of the indices [i..j-1]. *)
Definition seq_values (kvs : list KeyValue) (i j : nat) : list string :=
  omap (fun k => Value <$> (kvs !! k)) (seq i (j - i)).

(** The outer loop from index [i], with [fuel] iterations at most. *)
Fixpoint seq_from (kvs : list KeyValue) (fuel i : nat) : list string :=
  match fuel with
  | 0 => []
  | S fuel =>
      match kvs !! i with
      | None => []
      | Some kv =>
          let j := seq_scan kvs (length kvs) (S i) (Key kv) in
          output_line (Key kv) (reducef (Key kv) (seq_values kvs i j)) :: seq_from kvs fuel j
      end
  end.

Definition seq_lines (kvs : list KeyValue) : list string := seq_from kvs (length kvs) 0.

(** [main], given [os.Args]. An error of [os.Create] is dropped: the prints then
    go nowhere. *)
Definition seq_main (Args : list string) : IO unit :=
  if decide (length Args < 3) then io_fatal "Usage: mrsequential xxx.so inputfiles..."
  else
    let! intermediate := seq_map (drop 2 Args) in
    let intermediate := sort_by ByKey_Less intermediate in
    fun fs =>
      if creatable "mr-out-0"
      then (<["mr-out-0" := str_concat (seq_lines intermediate)]> fs, Ret tt)
      else (fs, Ret tt).

(** ** The two grouping loops print the same *)

Lemma seq_scan_same_key kvs fuel j key : seq_scan kvs fuel j key = (same_key_from kvs fuel j key).1.
Proof.
  revert j. induction fuel as [|fuel IH]; intros j; simpl; [done|].
  destruct (kvs !! j) as [kv|]; [|done]. case_decide; [|done].
  rewrite IH. by destruct (same_key_from kvs fuel (S j) key).
Qed.

Lemma seq_values_split kvs i run rest :
  drop i kvs = run ++ rest -> seq_values kvs i (i + length run) = Value <$> run.
Proof.
  unfold seq_values. replace (i + length run - i) with (length run) by lia.
  revert i. induction run as [|kv run IH]; intros i Hd; simpl; [done|].
  assert (Hi : kvs !! i = Some kv).
  { rewrite <- (Nat.add_0_r i), <- lookup_drop, Hd. done. }
  rewrite Hi. simpl. f_equal. apply IH.
  rewrite <- Nat.add_1_r, <- drop_drop, Hd. done.
Qed.

Lemma seq_from_reduce_from kvs fuel i :
  seq_from kvs fuel i = reduce_from reducef kvs fuel i.
Proof.
  revert i. induction fuel as [|fuel IH]; intros i; simpl; [done|].
  destruct (kvs !! i) as [kv|] eqn:Hi; [|done].
  rewrite seq_scan_same_key.
  destruct (same_key_from_spec kvs (length kvs) (S i) (Key kv))
    as (run & rest & Hd & _ & _ & Heq & _); [lia|].
  rewrite Heq. simpl. rewrite IH. do 3 f_equal.
  replace (S (i + length run)) with (i + length (kv :: run)) by (simpl; lia).
  rewrite (seq_values_split _ _ (kv :: run) rest); [done|].
  by rewrite (drop_S _ _ _ Hi), Hd.
Qed.

(** The pairs Map emits for the files of [fs], file after file. *)
Definition mapped (fs : gmap string string) (files : list string) : list KeyValue :=
  mjoin ((fun f => mapf f (default "" (fs !! f))) <$> files).

Lemma seq_map_spec fs files :
  Forall (fun f => f ∈ dom fs) files -> seq_map files fs = (fs, Ret (mapped fs files)).
Proof.
  induction 1 as [|f files Hf _ IH]; simpl; [done|]. unfold io_bind at 1, read_file.
  apply elem_of_dom in Hf as [s Hs]. rewrite Hs. unfold io_bind. rewrite IH.
  unfold mapped. simpl. by rewrite Hs.
Qed.

Lemma seq_main_spec `{!OrderFree reducef} prog so files fs :
  files <> [] -> Forall (fun f => f ∈ dom fs) files -> creatable "mr-out-0" = true ->
  seq_main (prog :: so :: files) fs
  = (<["mr-out-0" := str_concat (reduce_spec reducef (mapped fs files))]> fs, Ret tt).
Proof.
  intros Hne Hf Hc. unfold seq_main. rewrite decide_False by (destruct files; [done|simpl; lia]).
  unfold io_bind. simpl drop. rewrite seq_map_spec by done. rewrite Hc.
  unfold seq_lines. rewrite seq_from_reduce_from.
  change (reduce_from reducef ?l (length ?l) 0) with (reduce_lines reducef l).
  by rewrite reduce_lines_sort.
Qed.
End sequential.
