(* ===== verification/WorkerTheorems.v ===== *)
(** * What the worker's tasks, the applications and the programs guarantee *)

From S2P Require Import Prelude GoLib MrTypes Coordinator CoordinatorInv Worker JsonCodec WorkerFacts.
From S2P Require Import Mrapps Sequential.

(** ** mrcoordinator.go *)

Inductive exit := Exit (code : Z) | Returned.

(** [for currentPhase != mr.FinishedPhase { ... }]: the body prints and sleeps,
    and does not assign [currentPhase]. [None]: still looping. *)
Fixpoint wait_loop (fuel : nat) (currentPhase : CoordinatorPhase) : option exit :=
  match fuel with
  | 0 => None
  | S fuel => if decide (currentPhase = FinishedPhase) then Some Returned
              else wait_loop fuel currentPhase
  end.

(** [main], given [os.Args] and what the two [os.MkdirAll] return. *)
Definition mrcoordinator_main (Args : list string) (mkdir1 mkdir2 : bool) (fuel : nat) : option exit :=
  if decide (length Args < 2) then Some (Exit 1)
  else if negb mkdir1 then Some (Exit 1)
  else if negb mkdir2 then Some (Exit 1)
  else wait_loop fuel (Done (MakeCoordinator (drop 1 Args) 2)).

(** The main program of the coordinator reads the phase once, before its
    waiting loop: with input files and its directories made it never returns,
    even after the job is finished. *)
Theorem mrcoordinator_never_returns Args fuel :
  2 <= length Args -> mrcoordinator_main Args true true fuel = None.
Proof.
  intros HA. unfold mrcoordinator_main. rewrite decide_False by lia. simpl.
  unfold Done. rewrite MakeCoordinator_spec. simpl. by induction fuel.
Qed.

Lemma mrcoordinator_never_returns_witness :
  mrcoordinator_main ["mrcoordinator"; "pg.txt"] true true 1000 = None.
Proof. apply (mrcoordinator_never_returns ["mrcoordinator"; "pg.txt"] 1000). simpl. lia. Defined.

(** ** MapperTask and ReducerTask *)

(** C10. A map task that can read its input and create its files leaves, for each
    partition below NReduce, a file that decodes to exactly the pairs Map emitted
    whose key is hashed there, in order, touches no other file, and every key is
    hashed to one of these partitions. *)
Theorem map_task_partitions `{!KVCodec} mapf creatable r content fs :
  let kvs := mapf (req_FilePath r) content in
  fs !! req_FilePath r = Some content -> (0 < req_NReduce r)%Z -> Forall kv_safe kvs ->
  (forall p, (0 <= p < req_NReduce r)%Z -> creatable (intermediate_name (req_TaskId r) p) = true) ->
  exists fs', MapperTask mapf creatable r fs = (fs', Ret tt) /\
    (forall p, (0 <= p < req_NReduce r)%Z ->
       decode_kvs <$> (fs' !! intermediate_name (req_TaskId r) p)
       = Some (filter (in_part (req_NReduce r) p) kvs)) /\
    (forall f, (forall p, f <> intermediate_name (req_TaskId r) p) -> fs' !! f = fs !! f) /\
    Forall (fun kv => (0 <= part (req_NReduce r) (Key kv) < req_NReduce r)%Z) kvs.
Proof.
  intros kvs Hc Hn Hs Hcr. eexists. split; [by apply MapperTask_spec|]. split_and!.
  - intros p Hp. rewrite put_parts_lookup; [|by apply NoDup_seqZ|apply elem_of_seqZ; lia].
    simpl. f_equal. apply decode_encode. apply Forall_forall. intros kv [_ Hkv]%list_elem_of_filter.
    rewrite Forall_forall in Hs. by apply Hs.
  - intros f Hf. apply put_parts_other. auto.
  - apply Forall_true. intros kv. by apply part_range.
Qed.

Definition wc_letter (r : Z) : bool := bool_decide (97 <= r <= 122)%Z.

Lemma map_task_partitions_witness :
  let r := mkReqReply "task-0" MapTask Pending "in" true 3 MapPhase 0 in
  exists fs', MapperTask (Wc.wcMap wc_letter) (fun _ => true) r {["in" := "a b a"]} = (fs', Ret tt) /\
    Forall (fun kv => (0 <= part 3 (Key kv) < 3)%Z) (Wc.wcMap wc_letter "in" "a b a").
Proof.
  intros r. destruct (map_task_partitions (Wc.wcMap wc_letter) (fun _ => true) r "a b a"
    {["in" := "a b a"]}) as (fs' & Hrun & _ & _ & Hp).
  - reflexivity.
  - simpl. lia.
  - apply (bool_decide_unpack _). by vm_compute.
  - reflexivity.
  - exists fs'. split; [exact Hrun|exact Hp].
Defined.

(** The pattern a reduce task gives to [filepath.Glob] selects, among the
    files map tasks write, exactly those of its partition: partition 1 does not
    see the files of partition 11. *)
Theorem glob_selects_partition i p q :
  (0 <= p)%Z -> (0 <= q)%Z ->
  glob_match (glob_pattern q) (intermediate_name (task_name i) p) = true <-> p = q.
Proof. apply glob_intermediate. Qed.

Lemma glob_selects_partition_witness :
  glob_match (glob_pattern 1) (intermediate_name (task_name 0) 11) <> true.
Proof. rewrite (glob_selects_partition 0 11 1); lia. Defined.

(** C11. Whatever (unstable) sort [sort.Sort] performs, the grouping loop of a
    reduce task prints one line per distinct key, in the order of the keys, with
    Reduce applied to all the values of that key. *)
Theorem reduce_groups_by_key `{!Sorter} reducef kvs :
  OrderFree reducef ->
  reduce_lines reducef (sort_by ByKey_Less kvs)
  = (fun k => output_line k (reducef k (values_of k kvs))) <$> sorted_keys kvs.
Proof. intros Hof. by apply reduce_lines_sort. Qed.

Lemma reduce_groups_by_key_witness :
  reduce_lines Wc.wcReduce (sort_by ByKey_Less (Wc.wcMap wc_letter "in" "b a b"))
  = ["a 1" +:+ newline; "b 2" +:+ newline].
Proof. rewrite reduce_groups_by_key; [by vm_compute|apply Wc.wcReduce_order_free]. Defined.

(** The grouping loop of mrsequential.go and the one of ReducerTask print the
    same lines on every slice, sorted or not. *)
Theorem grouping_loops_agree reducef kvs : seq_lines reducef kvs = reduce_lines reducef kvs.
Proof. apply seq_from_reduce_from. Qed.

(** ** The applications *)

(** [strings.FieldsFunc], as word count and the indexer use it, returns the
    maximal runs of letters: between and around them only separators, inside them
    none, and no run is empty or touches the next. *)
Theorem FieldsFunc_maximal_runs f s :
  Fields f (runes s) (FieldsFunc s f) /\ str_concat (runes s).*2 = s.
Proof. split; [apply fields_from_spec|by apply runes_from_concat]. Qed.

(** The words of the input files, in order. *)
Definition all_words (IsLetter : Z -> bool) (fs : gmap string string) (files : list string)
    : list string :=
  mjoin ((fun f => FieldsFunc (default "" (fs !! f)) (fun r => negb (IsLetter r))) <$> files).

Lemma mapped_words IsLetter fs files :
  mapped (Wc.wcMap IsLetter) fs files = (fun w => mkKeyValue w "1") <$> all_words IsLetter fs files.
Proof. unfold mapped, all_words. rewrite fmap_mjoin, <- list_fmap_compose. done. Qed.

Lemma values_of_words w (ws : list string) :
  length (values_of w ((fun w => mkKeyValue w "1") <$> ws)) = length (filter (eq w) ws).
Proof.
  unfold values_of. rewrite length_fmap. induction ws as [|x ws IH]; [done|].
  rewrite fmap_cons, !filter_cons. simpl.
  destruct (decide (x = w)) as [->|Hne];
    [rewrite !decide_True by done|rewrite !decide_False by congruence]; simpl; congruence.
Qed.

(** Word count counts words: run sequentially on readable files, the program
    prints one line per distinct word, in order, with its number of occurrences in
    all the files. *)
Theorem wc_counts_words `{!Sorter} IsLetter creatable prog so files fs :
  files <> [] -> Forall (fun f => f ∈ dom fs) files -> creatable "mr-out-0" = true ->
  exists ws, Sorted String.le ws /\ NoDup ws /\
    (forall w, w ∈ ws <-> w ∈ all_words IsLetter fs files) /\
    seq_main (Wc.wcMap IsLetter) Wc.wcReduce creatable (prog :: so :: files) fs
    = (<["mr-out-0" := str_concat ((fun w =>
          w +:+ " " +:+ Itoa (Z.of_nat (length (filter (eq w) (all_words IsLetter fs files))))
            +:+ newline) <$> ws)]> fs, Ret tt).
Proof.
  intros Hne Hf Hc. exists (sorted_keys (mapped (Wc.wcMap IsLetter) fs files)). split_and!.
  - apply Sorted_sorted_keys.
  - apply NoDup_sorted_keys.
  - intros w. rewrite elem_of_sorted_keys, mapped_words, <- list_fmap_compose.
    unfold compose; simpl. by rewrite list_fmap_id.
  - rewrite (seq_main_spec (Wc.wcMap IsLetter) Wc.wcReduce creatable
      (OrderFree0 := Wc.wcReduce_order_free)) by done.
    unfold reduce_spec. do 3 f_equal. apply list_fmap_ext. intros i w _.
    unfold output_line, Wc.wcReduce. by rewrite mapped_words, values_of_words.
Qed.

Lemma wc_counts_words_witness :
  exists ws, "b" ∈ ws /\
    seq_main (Wc.wcMap wc_letter) Wc.wcReduce (fun _ => true) ["mrsequential"; "wc.so"; "in"]
      {["in" := "b a b"]}
    = (<["mr-out-0" := str_concat ((fun w => w +:+ " " +:+ Itoa (Z.of_nat (length (filter (eq w)
          (all_words wc_letter {["in" := "b a b"]} ["in"])))) +:+ newline) <$> ws)]>
         {["in" := "b a b"]}, Ret tt).
Proof.
  destruct (wc_counts_words wc_letter (fun _ => true) "mrsequential" "wc.so" ["in"]
    {["in" := "b a b"]}) as (ws & _ & _ & Hws & Hrun).
  - discriminate.
  - apply (bool_decide_unpack _). by vm_compute.
  - reflexivity.
  - exists ws. split; [|exact Hrun]. apply Hws. vm_compute. by left.
Defined.
