(* ===== verification/MrSystem.v ===== *)
(** * The running system: coordinator, workers and file system

    Any number of worker processes (src/src/mr/worker.go) against one
    coordinator (src/src/mr/coordinator.go), over a shared file system. A worker
    is a state machine whose transitions are its RPCs and its file accesses;
    transitions of different workers interleave freely. The main result is that
    what a finished job leaves in its output files is what the sequential
    program prints. *)

From Stdlib Require Import Ascii.
From S2P Require Import Prelude GoLib MrTypes Coordinator CoordinatorInv Worker WorkerFacts.
From S2P Require Import Sequential.

(** ** Worker processes *)

(** Where a worker process is. *)
Inductive WState :=
  | WStart                                             (** Worker() *)
  | WRegistering                                       (** RegisterWorker is running *)
  | WFetch                                             (** WorkerFetchTasks *)
  | WMap (r : WorkerTaskRequestReply)                  (** MapperTask *)
  | WReduce (r : WorkerTaskRequestReply)               (** ReducerTask, before it reads *)
  | WCreate (r : WorkerTaskRequestReply) (out : string) (** ReducerTask, before os.Create *)
  | WWrite (r : WorkerTaskRequestReply) (out : string)  (** ReducerTask, output created *)
  | WReport (r : WorkerTaskRequestReply)               (** DoWorkerTaskUpdate *)
  | WStopped.

(** [WorkerFetchTasks]: what the worker does with the reply. *)
Definition after_fetch (r : WorkerTaskRequestReply) : WState :=
  if decide (req_Phase r = MapPhase) then WMap r
  else if decide (req_Phase r = ReducePhase) then WReduce r
  else WStopped.

(** [DoWorkerTaskUpdate]: the request it sends and what it does next. *)
Definition reportArgs (id : string) (r : WorkerTaskRequestReply) : WorkerTaskUpdateArgs :=
  mkUpdArgs id (req_TaskId r) (req_Type r) DONE ∅.

Definition after_report (rep : WorkerTaskUpdateReply) : WState :=
  if decide (rep_Phase rep = FinishedPhase) then WStopped else WFetch.

(** [WorkerRegistrationRequest] and [WorkerFetchTasks]: the requests they send,
    for a worker listening on [addr] and [port]. *)
Definition fetchArgs (id addr port : string) : WorkerTaskRequestArgs := mkReqArgs id addr port.
Definition registerArgs (id addr port : string) : WorkerRegistrationArgs := mkRegArgs id addr port.

(** The registration of [id] returns: its process goes on to fetch tasks, unless
    the process is no longer waiting for it. *)
Definition registration_done (id : string) (ws : gmap string WState) : gmap string WState :=
  match ws !! id with
  | Some WRegistering => <[id := WFetch]> ws
  | _ => ws
  end.

Record MR := mkMR {
  m_sys : Sys;
  m_fs : gmap string string;
  m_ws : gmap string WState;
}.

Section system.
Context `{!Sorter, !KVCodec}.
Variable mapf : string -> string -> list KeyValue.
Variable reducef : string -> list string -> string.
Variable creatable : string -> bool.

(** The outcome of a step of the process [id]: its next state when the file
    access succeeds, the end of the process when it does not. *)
Definition outcome {A} (next : A -> WState) (x : res A) : WState :=
  match x with Ret a => next a | Fatal _ => WStopped end.

Inductive mr_step : MR -> MR -> Prop :=
  | mr_register_read id addr port now y fs ws :
      ws !! id = Some WStart ->
      mr_step (mkMR y fs ws)
        (mkMR (mkSys (coord y)
                 (reading y ++ [(workers (coord y), registered now (registerArgs id addr port))]))
           fs (<[id := WRegistering]> ws))
  | mr_register_store k old w y fs ws :
      reading y !! k = Some (old, w) ->
      mr_step (mkMR y fs ws)
        (mkMR (mkSys (set_workers (old ++ [w]) (coord y)) (delete k (reading y)))
           fs (registration_done (workerId w) ws))
  | mr_fetch id addr port c' r err y fs ws :
      ws !! id = Some WFetch ->
      TaskRequestByWorker (fetchArgs id addr port) zeroReqReply (coord y) = (c', r, err) ->
      mr_step (mkMR y fs ws) (mkMR (mkSys c' (reading y)) fs (<[id := after_fetch r]> ws))
  | mr_map id r fs' x y fs ws :
      ws !! id = Some (WMap r) -> MapperTask mapf creatable r fs = (fs', x) ->
      mr_step (mkMR y fs ws) (mkMR y fs' (<[id := outcome (fun _ => WReport r) x]> ws))
  | mr_reduce id r fs' x y fs ws :
      ws !! id = Some (WReduce r) -> reducer_output reducef (req_Partition r) fs = (fs', x) ->
      mr_step (mkMR y fs ws) (mkMR y fs' (<[id := outcome (WCreate r) x]> ws))
  | mr_create id r out fs' x y fs ws :
      ws !! id = Some (WCreate r out) ->
      os_Create creatable (output_name (req_Partition r)) fs = (fs', x) ->
      mr_step (mkMR y fs ws) (mkMR y fs' (<[id := outcome (fun _ => WWrite r out) x]> ws))
  | mr_write id r out fs' x y fs ws :
      ws !! id = Some (WWrite r out) ->
      write_from_start (output_name (req_Partition r)) out fs = (fs', x) ->
      mr_step (mkMR y fs ws) (mkMR y fs' (<[id := outcome (fun _ => WReport r) x]> ws))
  | mr_report id r c' rep err y fs ws :
      ws !! id = Some (WReport r) ->
      TaskUpdateByWorker (reportArgs id r) zeroUpdReply (coord y) = (c', rep, err) ->
      mr_step (mkMR y fs ws) (mkMR (mkSys c' (reading y)) fs (<[id := after_report rep]> ws))
  | mr_call_failed id st y fs ws :
      ws !! id = Some st -> (st = WStart \/ st = WRegistering \/ st = WFetch \/ exists r, st = WReport r) ->
      mr_step (mkMR y fs ws) (mkMR y fs (<[id := WStopped]> ws))
  | mr_sync net now wid port idx c' y fs ws :
      WorkerSync net now wid port idx (coord y) = Some c' ->
      mr_step (mkMR y fs ws) (mkMR (mkSys c' (reading y)) fs ws).

Variable files : list string.
Variable nR : Z.
Variable fs0 : gmap string string.

(** The coordinator has started, the workers of [ids] are about to. *)
Definition mr_init (ids : gset string) : MR :=
  mkMR (init_sys files nR) fs0 (gset_to_gmap WStart ids).

(** ** What the files hold *)

(** The pairs Map emits for the input file of index [i]. *)
Definition map_pairs (i : nat) : list KeyValue :=
  match files !! i with
  | Some f => mapf f (default "" (fs0 !! f))
  | None => []
  end.

(** What the output file of partition [p] should hold. *)
Definition out_spec (p : Z) : string :=
  str_concat (reduce_spec reducef (filter (in_part nR p) (mapped mapf fs0 files))).

(** Every file of the intermediate directory is one a map task writes, with the
    contents it writes. *)
Definition inter_ok (fs : gmap string string) : Prop :=
  forall f s, fs !! ("mr-data/intermediate/" +:+ f) = Some s ->
  exists i p, i < length files /\ (0 <= p < nR)%Z /\
    "mr-data/intermediate/" +:+ f = intermediate_name (task_name i) p /\
    s = part_file nR p (map_pairs i).

Definition map_written (fs : gmap string string) (i : nat) : Prop :=
  forall p, (0 <= p < nR)%Z -> intermediate_name (task_name i) p ∈ dom fs.

(** Partition [p] is in its output file, or some worker has that file open. *)
Definition writing (ws : gmap string WState) (p : Z) : Prop :=
  exists id r out, ws !! id = Some (WWrite r out) /\ req_Partition r = p.

Definition out_ok (fs : gmap string string) (ws : gmap string WState) (p : Z) : Prop :=
  fs !! output_name p = Some (out_spec p) \/ writing ws p.

Definition past_map (c : Coordinator) : Prop := phase c <> MapPhase.

(** The reply behind a reduce: an assigned reduce job, or the reply of a request
    that found none waiting (no id, no type, partition 0). *)
Definition reduce_reply (c : Coordinator) (r : WorkerTaskRequestReply) : Prop :=
  past_map c /\ (0 <= req_Partition r < nR)%Z /\
  ((req_Type r = ReduceTask /\ req_TaskId r = "task-" +:+ Itoa (req_Partition r)) \/
   (req_Type r = "" /\ req_TaskId r = "")).

(** ** The invariant *)

Definition worker_ok (c : Coordinator) (fs : gmap string string) (ws : gmap string WState)
    (st : WState) : Prop :=
  match st with
  | WMap r => exists i, files !! i = Some (req_FilePath r) /\ req_TaskId r = task_name i /\
                req_NReduce r = nR /\ req_Type r = MapTask
  | WReduce r => reduce_reply c r
  | WCreate r out => reduce_reply c r /\ out = out_spec (req_Partition r)
  | WWrite r out => reduce_reply c r /\ out = out_spec (req_Partition r) /\
      (fs !! output_name (req_Partition r) = Some "" \/
       fs !! output_name (req_Partition r) = Some (out_spec (req_Partition r)))
  | WReport r =>
      (exists i, i < length files /\ req_TaskId r = task_name i /\ req_Type r = MapTask /\
                 map_written fs i) \/
      (reduce_reply c r /\ out_ok fs ws (req_Partition r))
  | _ => True
  end.

Record mr_inv (m : MR) : Prop := {
  mri_coord : coord_inv files nR (coord (m_sys m));
  mri_input : Forall (fun f => m_fs m !! f = fs0 !! f) files;
  mri_inter : inter_ok (m_fs m);
  mri_mapped : forall i j, mapTasks (coord (m_sys m)) !! i = Some j -> status j = DONE ->
                 map_written (m_fs m) i;
  mri_reduced : forall i j, reduceTasks (coord (m_sys m)) !! i = Some j -> status j = DONE ->
                  out_ok (m_fs m) (m_ws m) (Z.of_nat i);
  mri_workers : map_Forall (fun _ => worker_ok (coord (m_sys m)) (m_fs m) (m_ws m)) (m_ws m);
}.
End system.
