(* ===== verification/MrSystemInv.v ===== *)
(** * The invariant of the running system

    Every step of MrSystem keeps [mr_inv]: the intermediate files hold what the
    map tasks emitted, a map job is done only when its files are there, and a
    reduce job only when its output file is. *)

From Stdlib Require Import Ascii.
From S2P Require Import Prelude GoLib MrTypes Coordinator CoordinatorInv Worker WorkerFacts.
From S2P Require Import Sequential MrSystem.

Set Default Proof Using "All".

Section inv.
Context `{!Sorter, !KVCodec}.
Variable mapf : string -> string -> list KeyValue.
Variable reducef : string -> list string -> string.
Variable creatable : string -> bool.
Variable files : list string.
Variable nR : Z.
Variable fs0 : gmap string string.

(** What the job is run on: at least one partition, input files outside the
    directories the job writes to, an intermediate directory without files, pairs
    that survive JSON, a Reduce that does not depend on the order of values. *)
Hypothesis HnR : (0 < nR)%Z.
Hypothesis Hinput : forall f g, f ∈ files -> f <> "mr-data/" +:+ g.
Hypothesis Hfresh : forall f, fs0 !! ("mr-data/intermediate/" +:+ f) = None.
Hypothesis Hsafe : forall i, Forall kv_safe (map_pairs mapf files fs0 i).
Context `{!OrderFree reducef}.

Abbreviation inter_ok := (inter_ok mapf files nR fs0).
Abbreviation out_spec := (out_spec mapf reducef files nR fs0).
Abbreviation out_ok := (out_ok mapf reducef files nR fs0).
Abbreviation worker_ok := (worker_ok mapf reducef files nR fs0).
Abbreviation mr_inv := (mr_inv mapf reducef files nR fs0).
Abbreviation map_pairs := (map_pairs mapf files fs0).

(** ** Files *)

Lemma write_partitions_partial task kvs m ps fs fs' x :
  (forall p, partition_get m p = filter (in_part nR p) kvs) ->
  write_partitions creatable task m ps fs = (fs', x) ->
  exists ps1 ps2, ps = ps1 ++ ps2 /\ fs' = put_parts task nR kvs ps1 fs /\ (x = Ret tt -> ps2 = []).
Proof.
  intros Hm. revert fs. induction ps as [|p ps IH]; intros fs; simpl.
  - intros [= <- <-]. by exists [], [].
  - unfold io_bind at 1, os_Create. destruct (creatable _).
    + unfold io_bind at 1. rewrite (encode_all_spec _ _ _ "") by apply lookup_insert_eq.
      rewrite insert_insert_eq, Hm. intros (ps1 & ps2 & -> & -> & Hx)%IH.
      by exists (p :: ps1), ps2.
    + intros [= <- <-]. exists [], (p :: ps). by split_and!.
Qed.

(** A map task writes the files of some first partitions, and those of all when
    it does not end the process. *)
Lemma MapperTask_partial i r fs fs' x :
  files !! i = Some (req_FilePath r) -> req_NReduce r = nR ->
  fs !! req_FilePath r = fs0 !! req_FilePath r ->
  MapperTask mapf creatable r fs = (fs', x) ->
  exists ps1 ps2, seqZ 0 nR = ps1 ++ ps2 /\
    fs' = put_parts (req_TaskId r) nR (map_pairs i) ps1 fs /\ (x = Ret tt -> ps2 = []).
Proof.
  intros Hi Hn Hfs. unfold MapperTask, io_bind at 1, read_file.
  destruct (fs !! req_FilePath r) as [content|] eqn:Hc.
  - destruct (partition_kvs_spec nR ∅ (mapf (req_FilePath r) content)) as (m & Hm & Hget); [lia|].
    rewrite Hn, Hm. assert (Hp : map_pairs i = mapf (req_FilePath r) content).
    { unfold MrSystem.map_pairs. rewrite Hi, <- Hfs. done. }
    rewrite Hp. apply write_partitions_partial. intros p. rewrite Hget. done.
  - intros [= <- <-]. exists [], (seqZ 0 nR). done.
Qed.

Lemma intermediate_prefix task p : exists f, intermediate_name task p = "mr-data/intermediate/" +:+ f.
Proof. by exists ("mr-" +:+ task +:+ "-" +:+ Itoa p). Qed.

Lemma put_parts_inter_ok i ps fs :
  i < length files -> (forall p, p ∈ ps -> (0 <= p < nR)%Z) -> inter_ok fs ->
  inter_ok (put_parts (task_name i) nR (map_pairs i) ps fs).
Proof.
  intros Hi. revert fs. induction ps as [|p ps IH]; intros fs Hps Hok; simpl; [done|].
  apply IH; [set_solver|]. intros f s. rewrite lookup_insert. case_decide as Hf; [|apply Hok].
  intros [= <-]. exists i, p. split_and!; [done|apply Hps; set_solver..|done|done].
Qed.

Lemma put_parts_input task kvs ps fs :
  Forall (fun f => fs !! f = fs0 !! f) files ->
  Forall (fun f => put_parts task nR kvs ps fs !! f = fs0 !! f) files.
Proof.
  rewrite !Forall_forall. intros Hall f Hf. rewrite put_parts_other; [by apply Hall|].
  intros p _ Heq. destruct (intermediate_prefix task p) as [g Hg]. rewrite Hg in Heq.
  by apply (Hinput f ("intermediate/" +:+ g) Hf).
Qed.

Lemma put_parts_output task kvs ps fs p :
  put_parts task nR kvs ps fs !! output_name p = fs !! output_name p.
Proof. apply put_parts_other. intros q _. unfold intermediate_name. apply output_name_not_intermediate. Qed.

Lemma map_written_dom fs fs' i : dom fs ⊆ dom fs' -> map_written nR fs i -> map_written nR fs' i.
Proof. intros Hd Hw p Hp. apply Hd, Hw, Hp. Qed.

Lemma put_parts_written i kvs fs : map_written nR (put_parts (task_name i) nR kvs (seqZ 0 nR) fs) i.
Proof.
  intros p Hp. rewrite put_parts_dom, elem_of_union, elem_of_list_to_set, list_elem_of_fmap.
  right. exists p. split; [done|]. apply elem_of_seqZ. lia.
Qed.

(** Writing an output file leaves the other files alone. *)
Lemma output_inter_ok p s fs : inter_ok fs -> inter_ok (<[output_name p := s]> fs).
Proof.
  intros Hok f s'. rewrite lookup_insert_ne; [apply Hok|]. by unfold output_name.
Qed.

Lemma output_input p s (fs : gmap string string) :
  Forall (fun f => fs !! f = fs0 !! f) files ->
  Forall (fun f => <[output_name p := s]> fs !! f = fs0 !! f) files.
Proof.
  rewrite !Forall_forall. intros Hall f Hf. rewrite lookup_insert_ne; [by apply Hall|].
  intros <-. by apply (Hinput (output_name p) ("output/mr-out-" +:+ Itoa p) Hf).
Qed.

(** ** What a reducer computes once every map job is done *)

Lemma glob_parts fs p :
  (0 <= p < nR)%Z -> inter_ok fs -> (forall i, i < length files -> map_written nR fs i) ->
  Glob (glob_pattern p) fs ≡ₚ (fun i => intermediate_name (task_name i) p) <$> seq 0 (length files).
Proof.
  intros Hp Hok Hw. apply NoDup_Permutation; [apply NoDup_Glob| |].
  - apply NoDup_fmap_2_strong; [|apply NoDup_seq]. intros i j _ _ Heq.
    by apply intermediate_name_inj in Heq as [-> _]; [|lia..].
  - intros f. rewrite elem_of_Glob, list_elem_of_fmap. setoid_rewrite elem_of_seq. split.
    + intros [Hg Hd]. destruct (glob_prefix _ _ Hg) as [g ->]. apply elem_of_dom in Hd as [s Hs].
      destruct (Hok ("mr-task-" +:+ g) s Hs) as (i & q & Hi & Hq & Heq & _).
      exists i. change ("mr-data/intermediate/" +:+ "mr-task-" +:+ g)
        with ("mr-data/intermediate/mr-task-" +:+ g) in Heq. rewrite Heq in Hg |- *.
      apply glob_intermediate in Hg; [|lia..]. subst. split; [done|lia].
    + intros (i & -> & Hi). split; [apply glob_intermediate; lia|]. apply Hw; [lia|done].
Qed.

Lemma mapped_pairs : mapped mapf fs0 files = mjoin (map_pairs <$> seq 0 (length files)).
Proof.
  unfold mapped. f_equal. apply list_eq. intros i. rewrite !list_lookup_fmap.
  destruct (files !! i) as [f|] eqn:Hi; simpl.
  - rewrite lookup_seq_lt by (by eapply lookup_lt_Some). simpl. f_equal.
    unfold MrSystem.map_pairs. by rewrite Hi.
  - by rewrite lookup_seq_ge by (by apply lookup_ge_None).
Qed.

Lemma filter_mjoin {A} (P : A -> Prop) `{!forall x, Decision (P x)} (ls : list (list A)) :
  filter P (mjoin ls) = mjoin (filter P <$> ls).
Proof. induction ls as [|l ls IH]; simpl; [done|]. by rewrite filter_app, IH. Qed.

Lemma part_file_decode i p :
  decode_kvs (part_file nR p (map_pairs i)) = filter (in_part nR p) (map_pairs i).
Proof.
  apply decode_encode. apply Forall_forall. intros kv [_ Hkv]%list_elem_of_filter.
  pose proof (Hsafe i) as Hs. rewrite Forall_forall in Hs. by apply Hs.
Qed.

Lemma reducer_output_ok fs p :
  (0 <= p < nR)%Z -> inter_ok fs -> (forall i, i < length files -> map_written nR fs i) ->
  reducer_output reducef p fs = (fs, Ret (out_spec p)).
Proof.
  intros Hp Hok Hw. rewrite reducer_output_spec, reduce_lines_sort by done. do 2 f_equal.
  unfold MrSystem.out_spec. f_equal. apply reduce_spec_perm; [done|].
  rewrite (glob_parts fs p Hp Hok Hw), <- list_fmap_compose, mapped_pairs, filter_mjoin,
    <- list_fmap_compose.
  apply reflexive_eq. f_equal. apply list_fmap_ext. intros k i Hk. simpl.
  apply lookup_seq in Hk as [-> Hk]. simpl.
  assert (Hd : intermediate_name (task_name k) p ∈ dom fs) by (by apply Hw).
  apply elem_of_dom in Hd as [s Hs]. rewrite Hs. simpl.
  destruct (intermediate_prefix (task_name k) p) as [f Hf]. rewrite Hf in Hs.
  destruct (Hok f s Hs) as (i & q & Hi & Hq & Heq & ->). rewrite <- Hf in Heq.
  apply intermediate_name_inj in Heq as [-> ->]; [|lia..]. apply part_file_decode.
Qed.

(** ** What the coordinator's tables say *)

Lemma static_lookup (js js' : list Job) i j :
  job_static <$> js = job_static <$> js' -> js !! i = Some j ->
  exists j', js' !! i = Some j' /\ job_static j = job_static j'.
Proof.
  intros Heq Hi. assert (Hs : (job_static <$> js) !! i = Some (job_static j))
    by (by rewrite list_lookup_fmap, Hi).
  rewrite Heq, list_lookup_fmap in Hs. destruct (js' !! i) as [j'|]; [|done].
  injection Hs as Hs. exists j'. split; [done|]. by unfold job_static; rewrite !pair_equal_spec.
Qed.

Lemma map_job c i j :
  coord_inv files nR c -> mapTasks c !! i = Some j ->
  taskId j = task_name i /\ files !! i = Some (filePath j) /\ nReduce j = nR.
Proof.
  intros [_ Hms _ _ _] Hi. destruct (static_lookup _ _ _ _ Hms Hi) as (j' & Hj' & Hs).
  unfold mapJobs in Hj'. rewrite list_lookup_imap in Hj'. destruct (files !! i); simplify_eq/=.
  unfold job_static in Hs. by simplify_eq/=.
Qed.

Lemma reduce_job c i j :
  coord_inv files nR c -> reduceTasks c !! i = Some j ->
  taskId j = "task-" +:+ Itoa (Z.of_nat i) /\ partition j = Z.of_nat i /\ (Z.of_nat i < nR)%Z.
Proof.
  intros [_ _ _ _ Hp] Hi.
  assert (Hs : job_static <$> reduceTasks c = job_static <$> reduceJobs nR)
    by (destruct Hp as [_ Hr _| |]; [by rewrite Hr in Hi|done..]).
  destruct (static_lookup _ _ _ _ Hs Hi) as (j' & Hj' & Hst).
  unfold reduceJobs in Hj'. rewrite list_lookup_fmap in Hj'.
  destruct (seqZ 0 nR !! i) as [p|] eqn:Hp'; simplify_eq/=. apply lookup_seqZ in Hp' as [Hq Hlt].
  rewrite Hst, Hq. split_and!; [done..|lia].
Qed.

Lemma past_map_done c i :
  coord_inv files nR c -> past_map c -> i < length files ->
  exists j, mapTasks c !! i = Some j /\ status j = DONE.
Proof.
  intros [_ Hms _ _ Hp] Hpast Hi.
  assert (Hd : all_done (mapTasks c)) by (by destruct Hp).
  destruct (mapTasks c !! i) as [j|] eqn:Hj; [|].
  - exists j. split; [done|]. by eapply Forall_lookup_1 in Hd.
  - apply lookup_ge_None in Hj. apply (f_equal length) in Hms.
    unfold mapJobs in Hms. rewrite !length_fmap, length_imap in Hms. lia.
Qed.

Lemma past_map_le c c' : coord_le c c' -> past_map c -> past_map c'.
Proof.
  intros (_ & _ & Hle) Hp Hm. unfold past_map in Hp. rewrite Hm in Hle.
  unfold phase_rank in Hle. repeat case_decide; simpl in *; done || lia.
Qed.

Lemma mapped_all m :
  mr_inv m -> past_map (coord (m_sys m)) -> forall i, i < length files -> map_written nR (m_fs m) i.
Proof.
  intros Hinv Hp i Hi.
  destruct (past_map_done _ i (mri_coord _ _ _ _ _ _ Hinv) Hp Hi) as (j & Hj & Hd).
  by eapply (mri_mapped _ _ _ _ _ _ Hinv).
Qed.

(** The jobs that are done after a request were done before it. *)
Lemma request_done args c c' r i j :
  request_effect args c c' r ->
  (mapTasks c' !! i = Some j -> status j = DONE -> mapTasks c !! i = Some j) /\
  (reduceTasks c' !! i = Some j -> status j = DONE -> reduceTasks c !! i = Some j).
Proof.
  assert (Htake : forall (js : list Job) k w j0,
    <[k := take_job w j0]> js !! i = Some j -> status j = DONE -> js !! i = Some j).
  { intros js k w j0 [(-> & -> & _)|[_ Hj]]%list_insert_lookup_cases Hd; [|done].
    by vm_compute in Hd. }
  destruct 1 as [r' _|w k j0 _ _ _ _|w k j0 _ _ _ _]; simpl; split; try done; apply Htake.
Qed.

(** An update makes at most the job it reports done. *)
Lemma update_done args c c' r i j :
  coord_inv files nR c -> update_effect args c c' r ->
  (mapTasks c' !! i = Some j -> status j = DONE ->
    mapTasks c !! i = Some j \/ (upd_Type args = MapTask /\ taskId j = upd_TaskId args)) /\
  (reduceTasks c' !! i = Some j -> status j = DONE ->
    reduceTasks c !! i = Some j \/ (upd_Type args = ReduceTask /\ taskId j = upd_TaskId args)).
Proof.
  intros Hinv Heff.
  assert (Hset : forall t (js : list Job) k j0, upd_Type args = t -> taskId j0 = upd_TaskId args ->
    <[k := set_jstatus DONE j0]> js !! i = Some j -> status j = DONE ->
    js !! i = Some j \/ (upd_Type args = t /\ taskId j = upd_TaskId args)).
  { intros t js k j0 Ht Hid [(-> & -> & _)|[_ Hj]]%list_insert_lookup_cases Hd; [by right|by left]. }
  destruct Heff as [r' _|k j0 Ht Hk Hid _ _ Hnd|k j0 Ht Hk Hid _ _ _]; [by auto|..];
    unfold TaskTransitionManager.
  - rewrite decide_True by done; simpl. destruct (hasPendingTask _); simpl.
    + split; [by apply Hset|auto].
    + split; [by apply Hset|]. destruct (inv_phase _ _ _ Hinv) as [_ -> _|? Hd|? Hd];
        [|exfalso; eapply Forall_lookup_1 in Hd; done..].
      rewrite foldl_newReduceTask. simpl. rewrite list_lookup_fmap.
      destruct (seqZ _ _ !! i); intros ? Hd; simplify_eq/=.
  - rewrite decide_False, decide_True by done; simpl. case_decide; simpl; (split; [auto|by apply Hset]).
Qed.

(** ** What a state keeps across a step *)

Lemma writing_insert (ws : gmap string WState) id st p :
  (forall r out, ws !! id <> Some (WWrite r out)) -> writing ws p -> writing (<[id := st]> ws) p.
Proof.
  intros Hne (id' & r & out & Hid & Hp). exists id', r, out. split; [|done].
  rewrite lookup_insert_ne; [done|]. intros <-. by eapply Hne.
Qed.

(** The output file of [p] is empty or complete. *)
Definition half_written (fs : gmap string string) (p : Z) : Prop :=
  fs !! output_name p = Some "" \/ fs !! output_name p = Some (out_spec p).

Record advances (c : Coordinator) (fs : gmap string string) (ws : gmap string WState)
    (c' : Coordinator) (fs' : gmap string string) (ws' : gmap string WState) : Prop := {
  adv_past : past_map c -> past_map c';
  adv_dom : dom fs ⊆ dom fs';
  adv_half : forall p, half_written fs p -> half_written fs' p;
  adv_out : forall p, out_ok fs ws p -> out_ok fs' ws' p;
}.

Lemma worker_ok_mono c fs ws c' fs' ws' st :
  advances c fs ws c' fs' ws' -> worker_ok c fs ws st -> worker_ok c' fs' ws' st.
Proof.
  intros [Hp Hd Hh Ho].
  assert (Hrr : forall r, reduce_reply nR c r -> reduce_reply nR c' r)
    by (intros r (? & ? & ?); by split; [auto|split]).
  destruct st as [| | |r|r|r out|r out|r|]; simpl; try done; auto.
  - intros [? ?]. auto.
  - intros (Hr & ? & Hhalf). split_and!; auto. by apply (Hh (req_Partition r)).
  - intros [(i & ? & ? & ? & Hw)|[? ?]]; [left|right; auto].
    exists i. split_and!; try done. by eapply map_written_dom.
Qed.

(** A step of the process [id]: what has to be shown of it. *)
Lemma inv_worker_step y fs ws y' fs' id st :
  mr_inv (mkMR y fs ws) -> coord_inv files nR (coord y') ->
  advances (coord y) fs ws (coord y') fs' (<[id := st]> ws) ->
  Forall (fun f => fs' !! f = fs0 !! f) files -> inter_ok fs' ->
  (forall i j, mapTasks (coord y') !! i = Some j -> status j = DONE ->
     mapTasks (coord y) !! i = Some j \/ map_written nR fs' i) ->
  (forall i j, reduceTasks (coord y') !! i = Some j -> status j = DONE ->
     reduceTasks (coord y) !! i = Some j \/ out_ok fs' (<[id := st]> ws) (Z.of_nat i)) ->
  worker_ok (coord y') fs' (<[id := st]> ws) st ->
  mr_inv (mkMR y' fs' (<[id := st]> ws)).
Proof.
  intros [Hc Hin Hinter Hm Hr Hw] Hc' Hadv Hin' Hinter' Hm' Hr' Hst. split; simpl in *; try done.
  - intros i j Hj Hd. destruct (Hm' i j Hj Hd) as [Hj'|]; [|done].
    eapply map_written_dom; [by apply (adv_dom _ _ _ _ _ _ Hadv)|by eapply Hm].
  - intros i j Hj Hd. destruct (Hr' i j Hj Hd) as [Hj'|]; [|done].
    apply (adv_out _ _ _ _ _ _ Hadv). by eapply Hr.
  - apply map_Forall_insert_2; [done|]. eapply map_Forall_impl; [done|]. intros k s. simpl.
    by apply worker_ok_mono.
Qed.

(** Changing the coordinator and a process that has no output file open. *)
Lemma advances_coord c fs ws c' id st :
  (past_map c -> past_map c') -> (forall r out, ws !! id <> Some (WWrite r out)) ->
  advances c fs ws c' fs (<[id := st]> ws).
Proof.
  intros Hp Hne. split; try done. intros p [Hf|Hwr]; [by left|right]. by apply writing_insert.
Qed.

(** ** Preservation, step by step *)

Lemma inv_set_workers y fs ws w rd :
  mr_inv (mkMR y fs ws) -> mr_inv (mkMR (mkSys (set_workers w (coord y)) rd) fs ws).
Proof. intros [Hc ? ? ? ? ?]. split; simpl in *; try done. by apply set_workers_inv. Qed.

(** A step of [id] that leaves jobs and files alone. *)
Lemma inv_local y fs ws y' id st0 st :
  mr_inv (mkMR y fs ws) -> coord y' = coord y -> ws !! id = Some st0 ->
  (forall r out, st0 <> WWrite r out) ->
  worker_ok (coord y) fs (<[id := st]> ws) st -> mr_inv (mkMR y' fs (<[id := st]> ws)).
Proof.
  intros Hinv Hy Hid Hne Hst. apply (inv_worker_step y fs); rewrite ?Hy; try done; try (by left).
  - by apply Hinv.
  - apply advances_coord; [done|]. rewrite Hid. naive_solver.
  - by apply Hinv.
  - by apply Hinv.
Qed.

Lemma inv_registration_done y fs ws id :
  mr_inv (mkMR y fs ws) -> mr_inv (mkMR y fs (registration_done id ws)).
Proof.
  intros Hinv. unfold registration_done.
  destruct (ws !! id) as [[]|] eqn:Hid; try done. by eapply inv_local.
Qed.

Lemma fetch_ok args c c' r err fs ws :
  coord_inv files nR c -> TaskRequestByWorker args zeroReqReply c = (c', r, err) ->
  worker_ok c' fs ws (after_fetch r).
Proof.
  intros Hinv. unfold TaskRequestByWorker, assignMapTask, assignReduceTask.
  destruct (list_find _ (workers c)) as [[k w]|]; [|by intros [= <- <- <-]].
  case_decide as Hm; [|case_decide as Hr; [|case_decide]].
  - destruct (list_find _ (mapTasks c)) as [[i j]|] eqn:Hf; [|by intros [= <- <- <-]].
    apply list_find_Some in Hf as (Hi & _ & _).
    destruct (map_job _ _ _ Hinv Hi) as (Hid & Hfile & Hn).
    intros [= <- <- <-]. unfold after_fetch; simpl. rewrite decide_True by done. by exists i.
  - assert (Hpast : past_map c) by (unfold past_map; mr_consts).
    destruct (list_find _ (reduceTasks c)) as [[i j]|] eqn:Hf.
    + apply list_find_Some in Hf as (Hi & _ & _).
      destruct (reduce_job _ _ _ Hinv Hi) as (Hid & Hpart & Hlt).
      intros [= <- <- <-]. unfold after_fetch; simpl. rewrite decide_False, decide_True by done.
      split; [done|simpl]. rewrite Hpart. split; [lia|]. by left.
    + intros [= <- <- <-]. unfold after_fetch; simpl. rewrite decide_False, decide_True by done.
      split; [done|simpl]. split; [lia|]. by right.
  - intros [= <- <- <-]. unfold after_fetch; simpl. by rewrite !decide_False by done.
  - by intros [= <- <- <-].
Qed.

Lemma inv_fetch y fs ws id args c' r err :
  mr_inv (mkMR y fs ws) -> ws !! id = Some WFetch ->
  TaskRequestByWorker args zeroReqReply (coord y) = (c', r, err) ->
  mr_inv (mkMR (mkSys c' (reading y)) fs (<[id := after_fetch r]> ws)).
Proof.
  intros Hinv Hid Hreq. assert (Heff := request_effect_of _ _ _ _ _ Hreq).
  eapply inv_worker_step; try done; try (by apply Hinv); simpl.
  - eapply request_inv; [done|by apply Hinv].
  - apply advances_coord; [|by rewrite Hid]. by apply past_map_le, (request_le _ _ _ _ Heff).
  - intros i j Hj Hd. left. by eapply request_done.
  - intros i j Hj Hd. left. by eapply request_done.
  - eapply fetch_ok; [by apply Hinv|done].
Qed.

Lemma inv_map y fs ws id r fs' x :
  mr_inv (mkMR y fs ws) -> ws !! id = Some (WMap r) ->
  MapperTask mapf creatable r fs = (fs', x) ->
  mr_inv (mkMR y fs' (<[id := outcome (fun _ => WReport r) x]> ws)).
Proof.
  intros Hinv Hid Hrun. destruct (mri_workers _ _ _ _ _ _ Hinv id _ Hid) as (i & Hf & Ht & Hn & Hty).
  assert (Hlt := lookup_lt_Some _ _ _ Hf).
  pose proof (mri_input _ _ _ _ _ _ Hinv) as Hin. simpl in Hin.
  assert (Hfs := Forall_lookup_1 _ _ _ _ Hin Hf). simpl in Hfs.
  destruct (MapperTask_partial i r fs fs' x Hf Hn Hfs Hrun) as (ps1 & ps2 & Hps & -> & Hx).
  eapply inv_worker_step; try done; simpl; try (by left); try (by apply Hinv).
  - split; [done|rewrite put_parts_dom; set_solver|..].
    + intros p. unfold half_written. by rewrite put_parts_output.
    + intros p [Ho|Hwr]; [left; by rewrite put_parts_output|].
      right. apply writing_insert; [by rewrite Hid|done].
  - by apply put_parts_input.
  - rewrite Ht. apply put_parts_inter_ok; [done| |by apply Hinv].
    intros p Hp. assert (Hp' : p ∈ seqZ 0 nR) by (rewrite Hps; set_solver).
    apply elem_of_seqZ in Hp'. lia.
  - destruct x as [[]|]; simpl; [|done]. left. exists i. rewrite (Hx eq_refl), app_nil_r in Hps.
    split_and!; try done. rewrite Ht, <- Hps. apply put_parts_written.
Qed.

Lemma inv_reduce y fs ws id r fs' x :
  mr_inv (mkMR y fs ws) -> ws !! id = Some (WReduce r) ->
  reducer_output reducef (req_Partition r) fs = (fs', x) ->
  mr_inv (mkMR y fs' (<[id := outcome (WCreate r) x]> ws)).
Proof.
  intros Hinv Hid. pose proof (mri_workers _ _ _ _ _ _ Hinv id _ Hid) as Hr. simpl in Hr.
  destruct Hr as (Hpast & Hp & Hty).
  rewrite reducer_output_ok; [|done|by apply Hinv|by apply (mapped_all _ Hinv)].
  intros [= <- <-]. by eapply inv_local.
Qed.

Lemma inv_create y fs ws id r out fs' x :
  mr_inv (mkMR y fs ws) -> ws !! id = Some (WCreate r out) ->
  os_Create creatable (output_name (req_Partition r)) fs = (fs', x) ->
  mr_inv (mkMR y fs' (<[id := outcome (fun _ => WWrite r out) x]> ws)).
Proof.
  intros Hinv Hid. destruct (mri_workers _ _ _ _ _ _ Hinv id _ Hid) as [Hr ->].
  unfold os_Create. destruct (creatable _); intros [= <- <-]; simpl; [|by eapply inv_local].
  set (p := req_Partition r) in *.
  eapply inv_worker_step; try done; simpl; try (by left); try (by apply Hinv).
  - split; [done|set_solver|..]; intros q.
    + unfold half_written. rewrite !lookup_insert. case_decide as Hq; [|done]. by left.
    + destruct (decide (q = p)) as [->|Hne].
      * intros _. right. exists id, r, (out_spec p). by rewrite lookup_insert_eq.
      * intros [Ho|Hwr]; [left|right; apply writing_insert; [by rewrite Hid|done]].
        rewrite lookup_insert_ne; [done|]. intros Heq. apply Hne. by apply output_name_inj.
  - by apply output_input, Hinv.
  - by apply output_inter_ok, Hinv.
  - split_and!; [done..|]. left. by rewrite lookup_insert_eq.
Qed.

Lemma write_half p fs :
  half_written fs p ->
  write_from_start (output_name p) (out_spec p) fs = (<[output_name p := out_spec p]> fs, Ret tt).
Proof.
  intros [Hf|Hf].
  - rewrite <- (insert_id _ _ _ Hf) at 1. apply write_created.
  - rewrite (write_same _ _ _ Hf). by rewrite insert_id.
Qed.

Lemma inv_write y fs ws id r out fs' x :
  mr_inv (mkMR y fs ws) -> ws !! id = Some (WWrite r out) ->
  write_from_start (output_name (req_Partition r)) out fs = (fs', x) ->
  mr_inv (mkMR y fs' (<[id := outcome (fun _ => WReport r) x]> ws)).
Proof.
  intros Hinv Hid. destruct (mri_workers _ _ _ _ _ _ Hinv id _ Hid) as (Hr & -> & Hhalf).
  rewrite write_half by done. intros [= <- <-]. simpl. set (p := req_Partition r) in *.
  assert (Ho : forall ws', out_ok (<[output_name p := out_spec p]> fs) ws' p)
    by (intros ws'; left; by rewrite lookup_insert_eq).
  eapply inv_worker_step; try done; simpl; try (by left); try (by apply Hinv).
  - split; [done|set_solver|..]; intros q.
    + unfold half_written. rewrite !lookup_insert. case_decide as Hq; [|done].
      apply output_name_inj in Hq as ->. by right.
    + destruct (decide (q = p)) as [->|Hne]; [done|]. intros [Hq|Hwr]; [left|right].
      * rewrite lookup_insert_ne; [done|]. intros Heq. apply Hne. by apply output_name_inj.
      * destruct Hwr as (id' & r' & out & Hid' & Hp). exists id', r', out. split; [|done].
        rewrite lookup_insert_ne; [done|]. intros <-. by simplify_eq.
  - by apply output_input, Hinv.
  - by apply output_inter_ok, Hinv.
  - right. by split.
Qed.

Lemma task_name_inj i i' : task_name i = task_name i' -> i = i'.
Proof. intros Heq. by simplify_eq/=. Qed.

Lemma after_report_ok c fs ws rep : worker_ok c fs ws (after_report rep).
Proof. unfold after_report. by case_decide. Qed.

Lemma inv_report y fs ws id r c' rep err :
  mr_inv (mkMR y fs ws) -> ws !! id = Some (WReport r) ->
  TaskUpdateByWorker (reportArgs id r) zeroUpdReply (coord y) = (c', rep, err) ->
  mr_inv (mkMR (mkSys c' (reading y)) fs (<[id := after_report rep]> ws)).
Proof.
  intros Hinv Hid Hupd. assert (Heff := update_effect_of _ _ _ _ _ Hupd).
  assert (Hc' : coord_inv files nR c') by (eapply update_inv; [done|by apply Hinv]).
  assert (Hadv : advances (coord y) fs ws c' fs (<[id := after_report rep]> ws)).
  { apply advances_coord; [|by rewrite Hid].
    by apply past_map_le, (update_le files nR _ _ _ _ (mri_coord _ _ _ _ _ _ Hinv) Heff). }
  pose proof (mri_workers _ _ _ _ _ _ Hinv id _ Hid) as Hr. simpl in Hr.
  eapply inv_worker_step; try done; try (by apply Hinv); simpl; [..|apply after_report_ok];
    intros i j Hj Hd; destruct (update_done _ _ _ _ i j (mri_coord _ _ _ _ _ _ Hinv) Heff) as [Hm Hre].
  - destruct (Hm Hj Hd) as [?|[Hty Hti]]; [by left|right]. simpl in Hty, Hti.
    destruct (map_job _ _ _ Hc' Hj) as (Hn & _ & _). rewrite Hn in Hti.
    destruct Hr as [(i' & _ & Ht & _ & Hw)|[(_ & _ & [[Ht _]|[Ht _]]) _]]; [|by rewrite Ht in Hty..].
    rewrite Ht in Hti. by apply task_name_inj in Hti as ->.
  - destruct (Hre Hj Hd) as [?|[Hty Hti]]; [by left|right]. simpl in Hty, Hti.
    destruct (reduce_job _ _ _ Hc' Hj) as (Hn & _ & _). rewrite Hn in Hti.
    destruct Hr as [(i' & _ & _ & Ht & _)|[(_ & _ & [[_ Ht]|[Ht _]]) Ho]]; [by rewrite Ht in Hty| |
      by rewrite Ht in Hty].
    rewrite Ht in Hti. simplify_eq/=. rewrite Hti. by apply (adv_out _ _ _ _ _ _ Hadv).
Qed.

Lemma mr_step_inv m m' : mr_step mapf reducef creatable m m' -> mr_inv m -> mr_inv m'.
Proof.
  destruct 1; intros Hinv.
  - by eapply inv_local.
  - by apply inv_registration_done, inv_set_workers.
  - by eapply inv_fetch.
  - by eapply inv_map.
  - by eapply inv_reduce.
  - by eapply inv_create.
  - by eapply inv_write.
  - by eapply inv_report.
  - eapply inv_local; [done..| |done]. intros ? ? ->. naive_solver.
  - edestruct WorkerSync_workers as [w ->]; [done|]. by apply inv_set_workers.
Qed.

Lemma mr_init_inv ids : mr_inv (mr_init files nR fs0 ids).
Proof.
  split; simpl.
  - apply init_inv.
  - by apply Forall_true.
  - intros f s Hs. by rewrite Hfresh in Hs.
  - intros i j Hj Hd. rewrite MakeCoordinator_spec in Hj. simpl in Hj.
    unfold mapJobs in Hj. rewrite list_lookup_imap in Hj.
    destruct (files !! i); simplify_eq/=.
  - intros i j Hj. by rewrite MakeCoordinator_spec in Hj.
  - intros id st [_ <-]%lookup_gset_to_gmap_Some. done.
Qed.

Lemma mr_reachable_inv ids m :
  rtc (mr_step mapf reducef creatable) (mr_init files nR fs0 ids) m -> mr_inv m.
Proof.
  intros Hr. apply (rtc_ind_r (fun m => mr_inv m) _ (mr_init_inv ids)) in Hr; [done|].
  intros m1 m2 _ Hs Hi. by eapply mr_step_inv.
Qed.

(** The output files of a finished job. *)
Lemma finished_outputs m p :
  mr_inv m -> Done (coord (m_sys m)) = FinishedPhase -> (0 <= p < nR)%Z ->
  m_fs m !! output_name p = Some (out_spec p) \/ writing (m_ws m) p.
Proof.
  intros Hinv Hdone Hp. unfold Done in Hdone.
  destruct (inv_phase _ _ _ (mri_coord _ _ _ _ _ _ Hinv)) as [Hph|Hph|_ _ Hs Hd _]; [by mr_consts..|].
  assert (Hlen : length (reduceTasks (coord (m_sys m))) = Z.to_nat nR).
  { apply (f_equal length) in Hs. unfold reduceJobs in Hs.
    rewrite !length_fmap, length_seqZ in Hs. done. }
  destruct (lookup_lt_is_Some_2 (reduceTasks (coord (m_sys m))) (Z.to_nat p)) as [j Hj]; [lia|].
  pose proof (mri_reduced _ _ _ _ _ _ Hinv (Z.to_nat p) j Hj) as Ho.
  rewrite Z2Nat.id in Ho by lia. apply Ho. by eapply Forall_lookup_1 in Hd.
Qed.
End inv.
