(* ===== verification/MrRun.v ===== *)
(** * Running the system on a schedule

    The transitions of MrSystem as a function of the choice of who moves: a
    schedule and an initial state determine the run. Concrete runs of the whole
    system, the ones that complete a job and the ones that show what a race does,
    are evaluated with it. *)

From S2P Require Import Prelude GoLib MrTypes Coordinator CoordinatorInv Worker WorkerFacts.
From S2P Require Import MrSystem.

Inductive Choice :=
  | ChRegister (id : string)   (** RegisterWorker reads the list of workers *)
  | ChStore (k : nat)          (** the [k]-th pending registration stores its list *)
  | ChFetch (id : string)
  | ChWork (id : string)       (** the next file access of [id] *)
  | ChReport (id : string).

Section run.
Context `{!Sorter, !KVCodec}.
Variable mapf : string -> string -> list KeyValue.
Variable reducef : string -> list string -> string.
Variable creatable : string -> bool.

Definition set_worker (id : string) (st : WState) (m : MR) : MR :=
  mkMR (m_sys m) (m_fs m) (<[id := st]> (m_ws m)).

(** The file accesses of a task, one at a time. *)
Definition work_exec (id : string) (m : MR) : option MR :=
  match m_ws m !! id with
  | Some (WMap r) =>
      let '(fs', x) := MapperTask mapf creatable r (m_fs m) in
      Some (mkMR (m_sys m) fs' (<[id := outcome (fun _ => WReport r) x]> (m_ws m)))
  | Some (WReduce r) =>
      let '(fs', x) := reducer_output reducef (req_Partition r) (m_fs m) in
      Some (mkMR (m_sys m) fs' (<[id := outcome (WCreate r) x]> (m_ws m)))
  | Some (WCreate r out) =>
      let '(fs', x) := os_Create creatable (output_name (req_Partition r)) (m_fs m) in
      Some (mkMR (m_sys m) fs' (<[id := outcome (fun _ => WWrite r out) x]> (m_ws m)))
  | Some (WWrite r out) =>
      let '(fs', x) := write_from_start (output_name (req_Partition r)) out (m_fs m) in
      Some (mkMR (m_sys m) fs' (<[id := outcome (fun _ => WReport r) x]> (m_ws m)))
  | _ => None
  end.

Definition choice_exec (ch : Choice) (m : MR) : option MR :=
  let y := m_sys m in
  match ch with
  | ChRegister id =>
      match m_ws m !! id with
      | Some WStart =>
          Some (mkMR (mkSys (coord y)
                  (reading y ++ [(workers (coord y), registered zero_time (registerArgs id "" ""))]))
                  (m_fs m) (<[id := WRegistering]> (m_ws m)))
      | _ => None
      end
  | ChStore k =>
      '(old, w) ← reading y !! k;
      Some (mkMR (mkSys (set_workers (old ++ [w]) (coord y)) (delete k (reading y)))
              (m_fs m) (registration_done (workerId w) (m_ws m)))
  | ChFetch id =>
      match m_ws m !! id with
      | Some WFetch =>
          let '(c', r, _) := TaskRequestByWorker (fetchArgs id "" "") zeroReqReply (coord y) in
          Some (mkMR (mkSys c' (reading y)) (m_fs m) (<[id := after_fetch r]> (m_ws m)))
      | _ => None
      end
  | ChWork id => work_exec id m
  | ChReport id =>
      match m_ws m !! id with
      | Some (WReport r) =>
          let '(c', rep, _) := TaskUpdateByWorker (reportArgs id r) zeroUpdReply (coord y) in
          Some (mkMR (mkSys c' (reading y)) (m_fs m) (<[id := after_report rep]> (m_ws m)))
      | _ => None
      end
  end.

Fixpoint exec (chs : list Choice) (m : MR) : option MR :=
  match chs with
  | [] => Some m
  | ch :: chs => m' ← choice_exec ch m; exec chs m'
  end.

Lemma work_exec_sound id m m' : work_exec id m = Some m' -> mr_step mapf reducef creatable m m'.
Proof.
  destruct m as [y fs ws]. unfold work_exec. cbn [m_ws m_fs m_sys].
  destruct (ws !! id) as [[| | |r|r|r out|r out|r|]|] eqn:Hid; try done;
    match goal with |- context [let '(_, _) := ?e in _] => destruct e as [fs' x] eqn:He end;
    intros [= <-]; by econstructor.
Qed.

Lemma choice_exec_sound ch m m' :
  choice_exec ch m = Some m' -> mr_step mapf reducef creatable m m'.
Proof.
  destruct ch as [id|k|id|id|id]; [..|by apply work_exec_sound|]; destruct m as [y fs ws]; simpl.
  - destruct (ws !! id) as [[]|] eqn:Hid; try done. intros [= <-]. by econstructor.
  - destruct (reading y !! k) as [[old w]|] eqn:Hk; simpl; [|done]. intros [= <-]. by econstructor.
  - destruct (ws !! id) as [[]|] eqn:Hid; try done.
    destruct (TaskRequestByWorker _ _ _) as [[c' r] err] eqn:He. intros [= <-]. by econstructor.
  - destruct (ws !! id) as [[]|] eqn:Hid; try done.
    destruct (TaskUpdateByWorker _ _ _) as [[c' r'] err] eqn:He. intros [= <-]. by econstructor.
Qed.

Lemma exec_sound chs m m' : exec chs m = Some m' -> rtc (mr_step mapf reducef creatable) m m'.
Proof.
  revert m. induction chs as [|ch chs IH]; intros m; simpl; [by intros [= ->]|].
  destruct (choice_exec ch m) as [m1|] eqn:H1; simpl; [|done]. intros H2.
  eapply rtc_l; [by apply choice_exec_sound in H1|by apply IH].
Qed.

(** ** The processes of a run *)

(** A step moves existing processes only. *)
Lemma step_ids m m' : mr_step mapf reducef creatable m m' -> dom (m_ws m') = dom (m_ws m).
Proof.
  assert (Hins : forall (ws : gmap string WState) id st st',
    ws !! id = Some st -> dom (<[id := st']> ws) = dom ws).
  { intros ws id st st' Hid. apply dom_insert_lookup_L. by eexists. }
  destruct 1; simpl; try (by eapply Hins); [|done]. unfold registration_done.
  repeat case_match; try done. by eapply Hins.
Qed.

Lemma only_worker files nR fs0 w m :
  rtc (mr_step mapf reducef creatable) (mr_init files nR fs0 {[w]}) m ->
  forall id st, m_ws m !! id = Some st -> id = w.
Proof.
  intros Hr. assert (Hdom : dom (m_ws m) = {[w]}).
  { apply (rtc_ind_r (fun m => dom (m_ws m) = {[w]}) (mr_init files nR fs0 {[w]})) in Hr; [done|..].
    - simpl. by rewrite dom_gset_to_gmap.
    - intros m1 m2 _ Hs IH. by rewrite (step_ids _ _ Hs). }
  intros id st Hid%elem_of_dom_2. set_solver.
Qed.
End run.
