(* ===== verification/MrProgress.v ===== *)
(** * One worker is enough

    From a state in which a registered worker is about to ask for a task and no
    job is in progress, that worker alone can finish the job: each of its rounds
    (ask, run the task, report) completes one job. *)

From S2P Require Import Prelude GoLib MrTypes Coordinator CoordinatorInv JobBoard Worker WorkerFacts.
From S2P Require Import Sequential MrSystem MrSystemInv.

Set Default Proof Using "All".

Section progress.
Context `{!Sorter, !KVCodec}.
Variable mapf : string -> string -> list KeyValue.
Variable reducef : string -> list string -> string.
Variable creatable : string -> bool.
Variable files : list string.
Variable nR : Z.
Variable fs0 : gmap string string.

Hypothesis HnR : (0 < nR)%Z.
Hypothesis Hinput : forall f g, f ∈ files -> f <> "mr-data/" +:+ g.
Hypothesis Hfresh : forall f, fs0 !! ("mr-data/intermediate/" +:+ f) = None.
Hypothesis Hsafe : forall i, Forall kv_safe (map_pairs mapf files fs0 i).
Context `{!OrderFree reducef}.

(** The input is there and files can be created. *)
Hypothesis Hfiles : files <> [].
Hypothesis Hexist : Forall (fun f => f ∈ dom fs0) files.
Hypothesis Hcreate : forall f, creatable f = true.

Abbreviation mr_inv := (mr_inv mapf reducef files nR fs0).
Abbreviation sys_step := (mr_step mapf reducef creatable).

Definition idle_job (j : Job) : Prop := status j <> Pending.

Record quiet (w : string) (m : MR) : Prop := {
  q_inv : mr_inv m;
  q_fetch : m_ws m !! w = Some WFetch;
  q_registered : Exists (fun x => workerId x = w) (workers (coord (m_sys m)));
  q_map : Forall idle_job (mapTasks (coord (m_sys m)));
  q_reduce : Forall idle_job (reduceTasks (coord (m_sys m)));
}.

Lemma sys_step_inv m m' : sys_step m m' -> mr_inv m -> mr_inv m'.
Proof. by apply mr_step_inv. Qed.

(** The file accesses of a map task. *)
Lemma run_map y fs ws w r :
  mr_inv (mkMR y fs ws) -> ws !! w = Some (WMap r) ->
  exists fs', sys_step (mkMR y fs ws) (mkMR y fs' (<[w := WReport r]> ws)).
Proof.
  intros Hinv Hw. destruct (mri_workers _ _ _ _ _ _ Hinv w _ Hw) as (i & Hf & _ & Hn & _).
  pose proof (Forall_lookup_1 _ _ _ _ (mri_input _ _ _ _ _ _ Hinv) Hf) as Hfs. simpl in Hfs.
  pose proof (Forall_lookup_1 _ _ _ _ Hexist Hf) as [content Hc]%elem_of_dom.
  eexists. eapply (mr_map _ _ _ w r _ (Ret tt)); [done|].
  apply (MapperTask_spec _ _ _ content); [congruence|lia|]. intros; apply Hcreate.
Qed.

(** The file accesses of a reduce task. *)
Lemma run_reduce y fs ws w r :
  mr_inv (mkMR y fs ws) -> ws !! w = Some (WReduce r) ->
  exists fs', rtc sys_step (mkMR y fs ws) (mkMR y fs' (<[w := WReport r]> ws)).
Proof.
  intros Hinv Hw. eexists.
  eapply rtc_l; [eapply (mr_reduce _ _ _ w r _ (Ret _)); [done|apply reducer_output_spec]|].
  eapply rtc_l; [eapply (mr_create _ _ _ w r _ _ (Ret tt)); [by rewrite lookup_insert_eq|]|].
  { unfold os_Create. by rewrite Hcreate. }
  eapply rtc_l; [eapply (mr_write _ _ _ w r _ _ (Ret tt)); [by rewrite lookup_insert_eq|done]|].
  rewrite !insert_insert_eq. apply rtc_refl.
Qed.

Lemma idle_take (js : list Job) i j w :
  Forall idle_job js ->
  Forall idle_job (<[i := set_jstatus DONE (take_job w j)]> (<[i := take_job w j]> js)).
Proof. intros Hjs. rewrite list_insert_insert_eq. by apply Forall_insert. Qed.

Lemma idle_new l : Forall idle_job (newReduceTask <$> l).
Proof. apply Forall_fmap, Forall_true. done. Qed.

(** The tables of a quiet state after a job of theirs went from waiting to done. *)
Lemma idle_transition t (js : list Job) c :
  Forall idle_job js -> Forall idle_job (mapTasks c) -> Forall idle_job (reduceTasks c) ->
  Forall idle_job (mapTasks (TaskTransitionManager t (set_jobs_of t js c))) /\
  Forall idle_job (reduceTasks (TaskTransitionManager t (set_jobs_of t js c))).
Proof.
  intros Hjs Hm Hr. unfold TaskTransitionManager, set_jobs_of.
  repeat case_match; simpl; try done. rewrite foldl_newReduceTask.
  split; [done|]. apply Forall_app_2; [done|apply idle_new].
Qed.

Lemma workers_transition t js c : workers (TaskTransitionManager t (set_jobs_of t js c)) = workers c.
Proof. unfold TaskTransitionManager, set_jobs_of. by repeat case_match. Qed.

Lemma set_jobs_twice t js js' c : set_jobs_of t js (set_jobs_of t js' c) = set_jobs_of t js c.
Proof. unfold set_jobs_of. by repeat case_decide. Qed.

Lemma jobs_of_set t js c : t = MapTask \/ t = ReduceTask -> jobs_of t (set_jobs_of t js c) = Some js.
Proof. by intros [-> | ->]. Qed.

Lemma phase_set_jobs t js c : phase (set_jobs_of t js c) = phase c.
Proof. unfold set_jobs_of. by repeat case_decide. Qed.

(** ** A round *)

(** The files of the task a worker was given, whichever kind it is. *)
Lemma run_task y fs ws w r t :
  (t = MapTask /\ req_Phase r = MapPhase \/ t = ReduceTask /\ req_Phase r = ReducePhase) ->
  mr_inv (mkMR y fs ws) -> ws !! w = Some (after_fetch r) ->
  exists fs', rtc sys_step (mkMR y fs ws) (mkMR y fs' (<[w := WReport r]> ws)).
Proof.
  unfold after_fetch. intros [[_ ->]|[_ ->]] Hinv; simpl; intros Hw.
  - destruct (run_map y fs ws w r Hinv Hw) as [fs' Hs]. exists fs'. by apply rtc_once.
  - by apply run_reduce.
Qed.

(** The worker asks and is given a job. *)
Lemma fetch_step c rd fs ws w :
  coord_inv files nR c -> ws !! w = Some WFetch -> w <> "" ->
  Exists (fun x => workerId x = w) (workers c) ->
  Forall idle_job (mapTasks c) -> Forall idle_job (reduceTasks c) -> phase c <> FinishedPhase ->
  exists t js i j w0 r,
    (t = MapTask /\ req_Phase r = MapPhase \/ t = ReduceTask /\ req_Phase r = ReducePhase) /\
    Forall idle_job js /\ js !! i = Some j /\ workerId w0 = w /\
    req_Type r = t /\ req_TaskId r = taskId j /\
    let c1 := set_jobs_of t (<[i := take_job w0 j]> js) c in
    sys_step (mkMR (mkSys c rd) fs ws) (mkMR (mkSys c1 rd) fs (<[w := after_fetch r]> ws)) /\
    work nR c = S (work nR c1).
Proof.
  intros Hc Hfetch Hne Hreg Hqm Hqr Hnf.
  destruct (current_jobs files nR c Hfiles HnR Hc Hnf) as (t & js & Ht & Hjs & Hwf & Hnd).
  assert (Hidle : Forall idle_job js) by (destruct Ht as [[-> _]|[-> _]]; by injection Hjs as <-).
  destruct (list_find (fun x => status x = Waiting) js) as [[i j]|] eqn:Hf.
  2: { destruct (not_all_done_pending js Hwf Hnd Hf) as (i & j & Hi & Hp).
       by apply (Forall_lookup_1 _ _ _ _ Hidle) in Hi. }
  destruct (request_takes c w t js i j Hreg Hne Ht Hjs Hf)
    as (w0 & r & Hw0 & (Hav & Hty & Htid & Hph) & Hreq).
  pose proof Hf as (Hi & _ & _)%list_find_Some.
  exists t, js, i, j, w0, r. rewrite Hph. cbv zeta. split_and!; try done.
  - exact (mr_fetch mapf reducef creatable w "" "" _ r _ (mkSys c rd) fs ws Hfetch Hreq).
  - pose proof (request_work nR _ _ _ _ (request_effect_of _ _ _ _ _ Hreq)) as Hw. by rewrite Hav in Hw.
Qed.

(** The worker reports a job it owns. *)
Lemma report_step c rd fs ws w r t (js : list Job) i j :
  t = MapTask \/ t = ReduceTask -> coord_inv files nR c -> jobs_of t c = Some js ->
  js !! i = Some j -> status j = Pending -> workerId (worker j) = w -> w <> "" ->
  req_Type r = t -> req_TaskId r = taskId j -> phase c <> FinishedPhase ->
  let c' := TaskTransitionManager t (set_jobs_of t (<[i := set_jstatus DONE j]> js) c) in
  sys_step (mkMR (mkSys c rd) fs (<[w := WReport r]> ws)) (mkMR (mkSys c' rd) fs (<[w := WFetch]> ws)) /\
  work nR c = S (work nR c').
Proof.
  intros Ht Hc Hjs Hi Hp Hw Hne Hty Htid Hnf.
  assert (Hup := update_completes files nR c t js i j Hc Ht Hjs Hi Hp ltac:(congruence)
    (taskId_nonempty _ _ _ _ _ _ _ Hc Hjs Hi)).
  assert (Hargs : reportArgs w r = updArgs t j) by (unfold reportArgs, updArgs; congruence).
  rewrite <- Hargs in Hup. split.
  - pose proof (mr_report mapf reducef creatable w r _ _ _ (mkSys c rd) fs (<[w := WReport r]> ws)
      ltac:(by rewrite lookup_insert_eq) Hup) as Hs.
    rewrite insert_insert_eq in Hs. unfold after_report in Hs. by rewrite decide_False in Hs.
  - pose proof (update_work _ nR _ _ _ _ Hc (update_effect_of _ _ _ _ _ Hup)) as Hwk.
    by rewrite decide_True in Hwk.
Qed.

Lemma rtc_inv m m' : rtc sys_step m m' -> mr_inv m -> mr_inv m'.
Proof. induction 1 as [|m m1 m' Hs _ IH]; [done|]. intros Hi. by eapply IH, sys_step_inv. Qed.

Lemma round_step w m :
  w <> "" -> quiet w m -> phase (coord (m_sys m)) <> FinishedPhase ->
  exists m', rtc sys_step m m' /\ quiet w m' /\
    work nR (coord (m_sys m)) = S (S (work nR (coord (m_sys m')))).
Proof.
  intros Hne [Hinv Hfetch Hreg Hqm Hqr] Hnf. destruct m as [[c rd] fs ws]. simpl in *.
  pose proof (mri_coord _ _ _ _ _ _ Hinv) as Hc. simpl in Hc.
  destruct (fetch_step c rd fs ws w Hc Hfetch Hne Hreg Hqm Hqr Hnf)
    as (t & js & i & j & w0 & r & Ht & Hidle & Hi & Hw0 & Hty & Htid & S1 & Hwk1).
  set (c1 := set_jobs_of t _ c) in *.
  assert (Hinv1 := sys_step_inv _ _ S1 Hinv).
  destruct (run_task (mkSys c1 rd) fs (<[w := after_fetch r]> ws) w r t) as [fs' S2];
    [done|done|by rewrite lookup_insert_eq|].
  rewrite insert_insert_eq in S2. assert (Ht' : t = MapTask \/ t = ReduceTask) by naive_solver.
  destruct (report_step c1 rd fs' ws w r t (<[i := take_job w0 j]> js) i (take_job w0 j))
    as [S3 Hwk2]; try done.
  { exact (mri_coord _ _ _ _ _ _ Hinv1). }
  { by apply jobs_of_set. }
  { apply list_lookup_insert_eq. by eapply lookup_lt_Some. }
  { unfold c1. by rewrite phase_set_jobs. }
  set (c2 := TaskTransitionManager t _) in *.
  assert (Hc2 : c2 = TaskTransitionManager t (set_jobs_of t
    (<[i := set_jstatus DONE (take_job w0 j)]> (<[i := take_job w0 j]> js)) c))
    by (unfold c2, c1; by rewrite set_jobs_twice).
  assert (Hrun : rtc sys_step (mkMR (mkSys c rd) fs ws) (mkMR (mkSys c2 rd) fs' (<[w := WFetch]> ws)))
    by (eapply rtc_l; [done|]; eapply rtc_r; done).
  exists (mkMR (mkSys c2 rd) fs' (<[w := WFetch]> ws)). split; [done|]. split; [|simpl; lia].
  destruct (idle_transition t _ c (idle_take js i j w0 Hidle) Hqm Hqr) as [Hm2 Hr2].
  split; simpl; [by eapply rtc_inv|by rewrite lookup_insert_eq|..]; rewrite Hc2; [|done..].
  by rewrite workers_transition.
Qed.

Lemma quiet_finishes w m :
  w <> "" -> quiet w m ->
  exists m', rtc sys_step m m' /\ quiet w m' /\ Done (coord (m_sys m')) = FinishedPhase.
Proof.
  intros Hne. remember (work nR (coord (m_sys m))) as n eqn:Hn. revert m Hn.
  induction n as [n IH] using lt_wf_ind. intros m Hn Hq.
  destruct (decide (phase (coord (m_sys m)) = FinishedPhase)) as [Hf|Hnf].
  - exists m. split_and!; [apply rtc_refl|done|done].
  - destruct (round_step w m Hne Hq Hnf) as (m1 & Hr1 & Hq1 & Hw).
    destruct (IH (work nR (coord (m_sys m1))) ltac:(lia) m1 eq_refl Hq1) as (m2 & Hr2 & Hq2 & Hd).
    exists m2. split_and!; [by etrans|done|done].
Qed.

(** The state in which the only worker of the job has registered. *)
Lemma registered_quiet w :
  exists m, rtc sys_step (mr_init files nR fs0 {[w]}) m /\ quiet w m.
Proof.
  unfold mr_init. rewrite gset_to_gmap_singleton.
  set (reg := registered zero_time (registerArgs w "" "")).
  assert (S1 : sys_step (mkMR (init_sys files nR) fs0 {[w := WStart]})
    (mkMR (mkSys (MakeCoordinator files nR) [([], reg)]) fs0 {[w := WRegistering]})).
  { pose proof (mr_register_read mapf reducef creatable w "" "" zero_time (init_sys files nR) fs0
      {[w := WStart]} ltac:(by rewrite lookup_singleton_eq)) as S1.
    rewrite insert_singleton_eq in S1. simpl in S1.
    assert (Hnil : workers (MakeCoordinator files nR) = []) by (by rewrite MakeCoordinator_spec).
    by rewrite Hnil in S1. }
  assert (S2 : sys_step (mkMR (mkSys (MakeCoordinator files nR) [([], reg)]) fs0 {[w := WRegistering]})
    (mkMR (mkSys (set_workers [reg] (MakeCoordinator files nR)) []) fs0 {[w := WFetch]})).
  { pose proof (mr_register_store mapf reducef creatable 0 [] reg
      (mkSys (MakeCoordinator files nR) [([], reg)]) fs0 {[w := WRegistering]} eq_refl) as S2.
    simpl in S2. unfold registration_done in S2. simpl in S2.
    rewrite lookup_singleton_eq, insert_singleton_eq in S2. done. }
  eexists. split; [eapply rtc_l; [exact S1|]; eapply rtc_once, S2|].
  split; simpl.
  - apply (sys_step_inv _ _ S2), (sys_step_inv _ _ S1).
    rewrite <- (gset_to_gmap_singleton WStart w). by apply mr_init_inv.
  - by rewrite lookup_singleton_eq.
  - by left.
  - rewrite MakeCoordinator_spec. simpl. apply Forall_lookup. intros i j. unfold mapJobs.
    rewrite list_lookup_imap. destruct (files !! i); intros ?; by simplify_eq/=.
  - by rewrite MakeCoordinator_spec.
Qed.
End progress.
