(* ===== verification/MrTheorems.v ===== *)
(** * What the running MapReduce system guarantees

    The statements about whole runs of MrSystem, with runs of word count that
    reach the states they speak of. *)

From S2P Require Import Prelude GoLib MrTypes Coordinator CoordinatorInv Worker WorkerFacts.
From S2P Require Import JsonCodec Mrapps Sequential MrSystem MrSystemInv MrRun MrProgress.

(** ** A small word count job *)

Module WordCount.
Definition ascii_letter (r : Z) : bool :=
  bool_decide (65 <= r <= 90)%Z || bool_decide (97 <= r <= 122)%Z.

Definition files : list string := ["a.txt"; "b.txt"].
Definition fs0 : gmap string string :=
  <["a.txt" := "the go gopher"]> (<["b.txt" := "go, the end!"]> ∅).
Definition any (path : string) : bool := true.

Definition mapf : string -> string -> list KeyValue := Wc.wcMap ascii_letter.

Definition start (ids : gset string) : MR := mr_init files 2 fs0 ids.

(** The state after a schedule (the initial state if a choice is not enabled). *)
Definition after (chs : list Choice) (m : MR) : MR :=
  default m (exec mapf Wc.wcReduce any chs m).

Lemma after_reachable chs m :
  bool_decide (is_Some (exec mapf Wc.wcReduce any chs m)) = true ->
  rtc (mr_step mapf Wc.wcReduce any) m (after chs m).
Proof.
  unfold after. intros [m' Hm]%bool_decide_eq_true. rewrite Hm. by apply exec_sound in Hm.
Qed.

(** One worker runs the whole job. *)
Definition map_round (w : string) : list Choice := [ChFetch w; ChWork w; ChReport w].
Definition reduce_round (w : string) : list Choice :=
  [ChFetch w; ChWork w; ChWork w; ChWork w; ChReport w].
Definition one_worker : list Choice :=
  [ChRegister "w"; ChStore 0] ++ map_round "w" ++ map_round "w" ++ reduce_round "w"
  ++ reduce_round "w".

Definition finished : MR := after one_worker (start {["w"]}).

Lemma input_outside f g : f ∈ files -> f <> "mr-data/" +:+ g.
Proof. intros Hf ->. unfold files in Hf. set_solver. Qed.

Lemma fresh f : fs0 !! ("mr-data/intermediate/" +:+ f) = None.
Proof. unfold fs0. by rewrite !lookup_insert_ne. Qed.

Lemma safe i : Forall kv_safe (map_pairs mapf files fs0 i).
Proof.
  destruct i as [|[|i]]; [..|by constructor]; apply (bool_decide_unpack _); by vm_compute.
Qed.
End WordCount.

(** ** The result of a finished job *)

(** C1. However many workers take part and however their steps interleave, once
    the coordinator is in the finished phase and no worker has an output file
    open, the file of every partition [p] holds the lines of the keys hashed to
    [p], the file the sequential program writes for the same input holds the
    lines of all keys, and the former are a permutation of the latter. *)
Theorem distributed_equals_sequential `{!Sorter, !KVCodec}
    (mapf : string -> string -> list KeyValue) (reducef : string -> list string -> string)
    (creatable : string -> bool) (files : list string) (nR : Z) (fs0 : gmap string string)
    (ids : gset string) (m : MR) (prog so : string) :
  let kvs := mapped mapf fs0 files in
  let lines p := reduce_spec reducef (filter (in_part nR p) kvs) in
  (0 < nR)%Z -> files <> [] -> (forall f g, f ∈ files -> f <> "mr-data/" +:+ g) ->
  (forall f, fs0 !! ("mr-data/intermediate/" +:+ f) = None) ->
  Forall (fun f => f ∈ dom fs0) files ->
  (forall i, Forall kv_safe (map_pairs mapf files fs0 i)) -> OrderFree reducef ->
  creatable "mr-out-0" = true ->
  rtc (mr_step mapf reducef creatable) (mr_init files nR fs0 ids) m ->
  Done (coord (m_sys m)) = FinishedPhase ->
  (forall id r out, m_ws m !! id <> Some (WWrite r out)) ->
  (forall p, (0 <= p < nR)%Z -> m_fs m !! output_name p = Some (str_concat (lines p))) /\
  (exists fs', seq_main mapf reducef creatable (prog :: so :: files) fs0 = (fs', Ret tt) /\
     fs' !! "mr-out-0" = Some (str_concat (reduce_spec reducef kvs))) /\
  mjoin (lines <$> seqZ 0 nR) ≡ₚ reduce_spec reducef kvs.
Proof.
  intros kvs lines HnR Hne Hin Hfr Hex Hs Hof Hc Hr Hd Hw. split_and!.
  - intros p Hp. assert (Hinv := mr_reachable_inv _ _ _ _ _ _ HnR Hin Hfr Hs ids m Hr).
    destruct (finished_outputs mapf reducef creatable files nR fs0 HnR Hin Hfr Hs m p Hinv Hd Hp)
      as [Hf|(id & r & out & Hid & _)]; [done|]. by destruct (Hw id r out).
  - eexists. split; [by apply seq_main_spec|]. by rewrite lookup_insert_eq.
  - by apply reduce_spec_partitions.
Qed.

Lemma finished_not_writing id r out : m_ws WordCount.finished !! id <> Some (WWrite r out).
Proof.
  assert (Hw : m_ws WordCount.finished = {["w" := WFetch]}) by (by vm_compute).
  rewrite Hw. intros [_ ?]%lookup_singleton_Some. done.
Qed.

Lemma distributed_equals_sequential_witness :
  m_fs WordCount.finished !! output_name 0
  = Some (str_concat (reduce_spec Wc.wcReduce
      (filter (in_part 2 0) (mapped WordCount.mapf WordCount.fs0 WordCount.files)))).
Proof.
  refine (proj1 (distributed_equals_sequential WordCount.mapf Wc.wcReduce WordCount.any WordCount.files 2
    WordCount.fs0 {["w"]} WordCount.finished "mrsequential" "wc.so" _ _ _ _ _ _ _ _ _ _ _) 0%Z _).
  - lia.
  - discriminate.
  - apply WordCount.input_outside.
  - apply WordCount.fresh.
  - apply (bool_decide_unpack _). by vm_compute.
  - apply WordCount.safe.
  - apply Wc.wcReduce_order_free.
  - reflexivity.
  - apply WordCount.after_reachable. by vm_compute.
  - by vm_compute.
  - apply finished_not_writing.
  - lia.
Defined.

(** C2. The job can be carried to its end: with readable input, creatable files
    and one worker with a non-empty id, there is a run of the system that reaches
    the finished phase with every partition in its output file. *)
Theorem single_worker_completes `{!Sorter, !KVCodec}
    (mapf : string -> string -> list KeyValue) (reducef : string -> list string -> string)
    (creatable : string -> bool) (files : list string) (nR : Z) (fs0 : gmap string string)
    (w : string) :
  (0 < nR)%Z -> files <> [] -> (forall f g, f ∈ files -> f <> "mr-data/" +:+ g) ->
  (forall f, fs0 !! ("mr-data/intermediate/" +:+ f) = None) ->
  Forall (fun f => f ∈ dom fs0) files ->
  (forall i, Forall kv_safe (map_pairs mapf files fs0 i)) -> OrderFree reducef ->
  (forall f, creatable f = true) -> w <> "" ->
  exists m, rtc (mr_step mapf reducef creatable) (mr_init files nR fs0 {[w]}) m /\
    Done (coord (m_sys m)) = FinishedPhase /\
    forall p, (0 <= p < nR)%Z ->
      m_fs m !! output_name p = Some (out_spec mapf reducef files nR fs0 p).
Proof.
  intros HnR Hne Hin Hfr Hex Hs Hof Hc Hw.
  destruct (registered_quiet mapf reducef creatable files nR fs0 HnR Hin Hfr Hs Hne Hex Hc w)
    as (m1 & Hr1 & Hq1).
  destruct (quiet_finishes mapf reducef creatable files nR fs0 HnR Hin Hfr Hs Hne Hex Hc w m1 Hw Hq1)
    as (m2 & Hr2 & Hq2 & Hd).
  assert (Hr : rtc (mr_step mapf reducef creatable) (mr_init files nR fs0 {[w]}) m2) by (by etrans).
  exists m2. split_and!; [done|done|]. intros p Hp.
  destruct (finished_outputs mapf reducef creatable files nR fs0 HnR Hin Hfr Hs m2 p (q_inv _ _ _ _ _ _ _ Hq2) Hd Hp)
    as [Hf|(id & r & out & Hid & _)]; [done|].
  assert (Hone := only_worker _ _ _ _ _ _ _ _ Hr _ _ Hid). rewrite Hone in Hid.
  by rewrite (q_fetch _ _ _ _ _ _ _ Hq2) in Hid.
Qed.

Lemma single_worker_completes_witness :
  exists m, Done (coord (m_sys m)) = FinishedPhase /\
    m_fs m !! output_name 1 = Some (out_spec WordCount.mapf Wc.wcReduce WordCount.files 2 WordCount.fs0 1).
Proof.
  destruct (single_worker_completes WordCount.mapf Wc.wcReduce WordCount.any WordCount.files 2 WordCount.fs0 "w")
    as (m & _ & Hd & Hout).
  - lia.
  - discriminate.
  - apply WordCount.input_outside.
  - apply WordCount.fresh.
  - apply (bool_decide_unpack _). by vm_compute.
  - apply WordCount.safe.
  - apply Wc.wcReduce_order_free.
  - reflexivity.
  - discriminate.
  - exists m. split; [exact Hd|]. apply Hout. lia.
Defined.

(** ** What the reply to an idle worker leads to *)




(** A registered worker that asks during the map phase while no map job is
    waiting gets a reply without a phase, on which it stops, although map jobs
    may be unfinished; the coordinator is unchanged. *)
Theorem idle_mapper_dismissed (c : Coordinator) (id addr port : string) :
  phase c = MapPhase -> Exists (fun w => workerId w = id) (workers c) ->
  Forall (fun j => status j <> Waiting) (mapTasks c) ->
  exists r, TaskRequestByWorker (fetchArgs id addr port) zeroReqReply c = (c, r, nil_error) /\
    after_fetch r = WStopped.
Proof.
  intros Hph Hreg Hnone. exists zeroReqReply. split; [|done].
  unfold TaskRequestByWorker, assignMapTask.
  apply Exists_exists in Hreg as (w & Hw & Hid).
  destruct (list_find_elem_of (fun w => workerId w = id) (workers c) w) as [[k w'] Hk]; [done..|].
  change (req_WorkerID (fetchArgs id addr port)) with id. rewrite Hk, decide_True by done.
  by rewrite (proj2 (list_find_None _ _) Hnone).
Qed.

Lemma idle_mapper_dismissed_witness :
  let m := WordCount.after [ChRegister "v"; ChStore 0; ChRegister "w"; ChStore 0; ChFetch "v";
             ChWork "v"; ChReport "v"; ChFetch "v"] (WordCount.start {["v"; "w"]}) in
  exists r, TaskRequestByWorker (fetchArgs "w" "" "") zeroReqReply (coord (m_sys m))
    = (coord (m_sys m), r, nil_error) /\ after_fetch r = WStopped.
Proof.
  intros m. apply (idle_mapper_dismissed (coord (m_sys m)) "w" "" "").
  - by vm_compute.
  - apply (bool_decide_unpack _). by vm_compute.
  - apply (bool_decide_unpack _). by vm_compute.
Defined.

(** ** A worker that stops keeps its job *)

(** Job [i] is in progress at the worker [id], whose process has ended. *)
Definition abandoned (id : string) (i : nat) (m : MR) : Prop :=
  m_ws m !! id = Some WStopped /\
  exists j, mapTasks (coord (m_sys m)) !! i = Some j /\ status j = Pending /\
    workerId (worker j) = id.

Lemma request_keeps_pending args c c' r i j :
  request_effect args c c' r -> mapTasks c !! i = Some j -> status j = Pending ->
  mapTasks c' !! i = Some j.
Proof.
  intros [r' _|w k j0 _ _ _ (Hk & Hw & _)%list_find_Some|w k j0 _ _ _ _] Hi Hp; simpl; try done.
  rewrite list_lookup_insert_ne; [done|]. intros ->. rewrite Hi in Hk. simplify_eq.
  rewrite Hp in Hw. done.
Qed.

Lemma update_keeps_pending args c c' r i j :
  update_effect args c c' r -> mapTasks c !! i = Some j -> workerId (worker j) <> upd_WorkerID args ->
  mapTasks c' !! i = Some j.
Proof.
  intros [r' _|k j0 _ Hk _ Hown _ _|k j0 _ Hk _ Hown _ _] Hi Hne; unfold TaskTransitionManager;
    [done|rewrite decide_True by done|rewrite decide_False, decide_True by done]; simpl;
    case_match; simpl; try done;
    (rewrite list_lookup_insert_ne; [done|]; intros ->; rewrite Hi in Hk; simplify_eq).
Qed.

Lemma abandoned_step `{!Sorter, !KVCodec} mapf reducef creatable id i m m' :
  mr_step mapf reducef creatable m m' -> abandoned id i m -> abandoned id i m'.
Proof.
  intros Hs [Hst (j & Hj & Hp & Hown)]. unfold abandoned. destruct Hs; simpl in *;
    try (split; [rewrite lookup_insert_ne; [done|congruence]|by eauto]).
  - split; [|by eauto]. unfold registration_done. simpl. repeat case_match; try done.
    rewrite lookup_insert_ne; [done|congruence].
  - split; [rewrite lookup_insert_ne; [done|congruence]|]. exists j. split_and!; [|done..].
    eapply request_keeps_pending; [by eapply request_effect_of|done..].
  - split; [rewrite lookup_insert_ne; [done|congruence]|]. exists j. split_and!; [|done..].
    eapply update_keeps_pending; [by eapply update_effect_of|done|]. simpl. congruence.
  - split; [|by eauto]. by rewrite lookup_insert; case_decide.
  - edestruct WorkerSync_workers as [w ->]; [done|]. split; [done|]. by eauto.
Qed.

(** Nothing takes a job back from a worker that has stopped: in every later
    state its map job is still in progress, and so the job is never finished. *)
Theorem abandoned_job_never_finishes `{!Sorter, !KVCodec}
    (mapf : string -> string -> list KeyValue) (reducef : string -> list string -> string)
    (creatable : string -> bool) (files : list string) (nR : Z) (id : string) (i : nat) (m m' : MR) :
  coord_inv files nR (coord (m_sys m)) -> abandoned id i m ->
  rtc (mr_step mapf reducef creatable) m m' ->
  abandoned id i m' /\ Done (coord (m_sys m')) <> FinishedPhase.
Proof.
  intros Hinv Hab Hr.
  apply (rtc_ind_r (fun m => coord_inv files nR (coord (m_sys m)) /\ abandoned id i m)) in Hr
    as [Hinv' Hab']; [|done|].
  - split; [done|]. destruct Hab' as [_ (j & Hj & Hp & _)]. intros Hd.
    destruct (inv_phase _ _ _ Hinv') as [Hph|Hph|_ Hall _ _ _]; [unfold Done in Hd; by mr_consts..|].
    eapply Forall_lookup_1 in Hall; [|done]. simpl in Hall. mr_consts.
  - intros m1 m2 _ Hs [Hi1 Ha1]. split; [|by eapply abandoned_step].
    destruct Hs; simpl in *; try done.
    + by apply set_workers_inv.
    + eapply request_inv; [by eapply request_effect_of|done].
    + eapply update_inv; [by eapply update_effect_of|done].
    + edestruct WorkerSync_workers as [w ->]; [done|]. by apply set_workers_inv.
Qed.

(** The worker "v" has stopped after it took the first map task; the other
    worker runs the second one. *)
Definition v_stopped : MR :=
  let m := WordCount.after [ChRegister "v"; ChStore 0; ChRegister "w"; ChStore 0; ChFetch "v"]
             (WordCount.start {["v"; "w"]}) in
  mkMR (m_sys m) (m_fs m) (<["v" := WStopped]> (m_ws m)).

Lemma v_stopped_inv : coord_inv WordCount.files 2 (coord (m_sys v_stopped)).
Proof.
  change (coord_inv WordCount.files 2 (coord (m_sys
    (WordCount.after [ChRegister "v"; ChStore 0; ChRegister "w"; ChStore 0; ChFetch "v"]
       (WordCount.start {["v"; "w"]}))))).
  eapply mri_coord, (mr_reachable_inv WordCount.mapf Wc.wcReduce WordCount.any WordCount.files 2
    WordCount.fs0).
  - lia.
  - apply WordCount.input_outside.
  - apply WordCount.fresh.
  - apply WordCount.safe.
  - apply Wc.wcReduce_order_free.
  - apply WordCount.after_reachable. by vm_compute.
Qed.

Lemma abandoned_job_never_finishes_witness :
  Done (coord (m_sys (WordCount.after (WordCount.map_round "w") v_stopped))) <> FinishedPhase.
Proof.
  apply (abandoned_job_never_finishes WordCount.mapf Wc.wcReduce WordCount.any WordCount.files 2
    "v" 0 v_stopped).
  - apply v_stopped_inv.
  - split; [reflexivity|]. eexists. split_and!; reflexivity.
  - apply WordCount.after_reachable. by vm_compute.
Defined.
