(* ===== verification/Bitset.v ===== *)
(** * The bitset of the linearizability checker: src/src/porcupine/bitset.go

    A [bitset] is a slice of 64-bit words. The methods are translated with the
    machine-width operations written out; an index out of range is a run-time
    panic, here [None]. The second half relates a bitset to the finite set of
    positions it stands for. *)

From S2P Require Import Prelude.

Definition uint64_mod : Z := (2 ^ 64)%Z.

(** [bitset []uint64] *)
Abbreviation bitset := (list Z).

Definition newBitset (bits : nat) : bitset :=
  let extra := if decide (bits mod 64 <> 0) then 1 else 0 in
  replicate (bits / 64 + extra) 0%Z.

Definition bitsetIndex (pos : nat) : nat * nat := (pos / 64, pos mod 64).

(** [1 << minor], a [uint64]. *)
Definition bit (minor : nat) : Z := (Z.shiftl 1 (Z.of_nat minor) mod uint64_mod)%Z.

(** [set] and [clear] write through the slice they return. *)
Definition bs_set (b : bitset) (pos : nat) : option bitset :=
  let '(major, minor) := bitsetIndex pos in
  w ← b !! major; Some (<[major := Z.lor w (bit minor)]> b).

Definition bs_clear (b : bitset) (pos : nat) : option bitset :=
  let '(major, minor) := bitsetIndex pos in
  w ← b !! major; Some (<[major := Z.ldiff w (bit minor)]> b).

Definition bs_get (b : bitset) (pos : nat) : option bool :=
  let '(major, minor) := bitsetIndex pos in
  w ← b !! major; Some (negb (bool_decide (Z.land w (bit minor) = 0%Z))).

(** [bits.OnesCount64] *)
Definition OnesCount64 (w : Z) : nat :=
  length (filter (fun i => Z.testbit w (Z.of_nat i) = true) (seq 0 64)).

Definition popcnt (b : bitset) : nat := foldl (fun total v => total + OnesCount64 v) 0 b.

Definition bs_hash (b : bitset) : Z := foldl Z.lxor (Z.of_nat (popcnt b) mod uint64_mod)%Z b.

(** [equals]: the loop compares the words one by one. *)
Fixpoint words_equal (b b2 : bitset) : bool :=
  match b, b2 with
  | [], _ => true
  | v :: b, v2 :: b2 => if decide (v <> v2) then false else words_equal b b2
  | _ :: _, [] => true
  end.

Definition bs_equals (b b2 : bitset) : bool :=
  if decide (length b <> length b2) then false else words_equal b b2.

(** ** The set of positions of a bitset *)

(** A word holds 64 bits. *)
Definition word_ok (w : Z) : Prop := (0 <= w < uint64_mod)%Z.

(** Position [i] is set. *)
Definition has (b : bitset) (i : nat) : Prop :=
  exists w, b !! (i / 64) = Some w /\ Z.testbit w (Z.of_nat (i mod 64)) = true.

(** The bitset of [n] positions that stands for [X]. *)
Record represents (n : nat) (b : bitset) (X : gset nat) : Prop := {
  rep_length : length b = length (newBitset n);
  rep_words : Forall word_ok b;
  rep_has : forall i, has b i <-> i ∈ X;
}.

Lemma bit_pow minor : minor < 64 -> bit minor = (2 ^ Z.of_nat minor)%Z.
Proof.
  intros Hm. unfold bit, uint64_mod. rewrite Z.shiftl_1_l, Z.mod_small; [done|].
  split; [lia|]. apply Z.pow_lt_mono_r; lia.
Qed.

Lemma bit_testbit minor k : minor < 64 -> Z.testbit (bit minor) (Z.of_nat k) = bool_decide (minor = k).
Proof.
  intros Hm. rewrite bit_pow by done. destruct (decide (minor = k)) as [->|Hne].
  - rewrite bool_decide_true by done. by apply Z.pow2_bits_true; lia.
  - rewrite bool_decide_false by done. apply Z.pow2_bits_false. lia.
Qed.

Lemma word_ok_bits w : word_ok w <-> (0 <= w)%Z /\ forall k, (64 <= k)%Z -> Z.testbit w k = false.
Proof.
  unfold word_ok, uint64_mod. split.
  - intros [Hw Hlt]. split; [done|]. intros k Hk.
    destruct (decide (w = 0%Z)) as [->|Hne]; [by apply Z.bits_0|].
    apply Z.bits_above_log2; [done|]. assert (Z.log2 w < 64)%Z by (apply Z.log2_lt_pow2; lia). lia.
  - intros [Hw Hb]. split; [done|]. destruct (decide (w = 0%Z)) as [->|Hne]; [lia|].
    apply Z.log2_lt_pow2; [lia|].
    destruct (Z.lt_ge_cases (Z.log2 w) 64) as [|Hge]; [done|].
    specialize (Hb _ Hge). rewrite Z.bit_log2 in Hb by lia. done.
Qed.

Lemma words_equal_eq b b2 : length b = length b2 -> words_equal b b2 = true <-> b = b2.
Proof.
  revert b2. induction b as [|v b IH]; intros [|v2 b2] Hl; simpl in *; try (done || lia).
  destruct (decide (v <> v2)) as [Hne|Heq%dec_stable].
  - split; [done|]. intros [= ? ?]. done.
  - rewrite IH by lia. split; [by intros ->; subst|by intros [= _ ->]].
Qed.

Lemma bs_equals_eq b b2 : bs_equals b b2 = true <-> b = b2.
Proof.
  unfold bs_equals. destruct (decide (length b <> length b2)) as [Hne|Heq%dec_stable].
  - split; [done|]. by intros ->.
  - by apply words_equal_eq.
Qed.

(** ** Each method against the set *)

Section methods.
Context (n : nat).

Lemma index_range i : i < n -> i / 64 < length (newBitset n).
Proof.
  intros Hi. unfold newBitset. rewrite length_replicate.
  pose proof (Nat.div_mod n 64 ltac:(lia)). pose proof (Nat.mod_upper_bound n 64 ltac:(lia)).
  apply Nat.Div0.div_lt_upper_bound. case_decide; lia.
Qed.

Lemma newBitset_represents : represents n (newBitset n) ∅.
Proof.
  split; [done|..].
  - apply Forall_replicate. unfold word_ok, uint64_mod. lia.
  - intros i. split; [|set_solver]. intros (w & Hw & Hb).
    apply lookup_replicate in Hw as [-> _]. by rewrite Z.bits_0 in Hb.
Qed.

(** The positions of a bitset with one word changed. *)
Lemma has_insert b major w' i :
  major < length b ->
  has (<[major := w']> b) i <->
  (if decide (i / 64 = major) then Z.testbit w' (Z.of_nat (i mod 64)) = true else has b i).
Proof.
  intros Hl. unfold has. case_decide as Hi.
  - subst major. setoid_rewrite list_lookup_insert_eq; [|done]. naive_solver.
  - by setoid_rewrite list_lookup_insert_ne; [|done].
Qed.

Lemma same_position i j : i / 64 = j / 64 -> i mod 64 = j mod 64 -> i = j.
Proof. intros Hd Hm. rewrite (Nat.div_mod_eq i 64), (Nat.div_mod_eq j 64). congruence. Qed.

Lemma represents_word b X i w :
  represents n b X -> b !! (i / 64) = Some w ->
  Z.testbit w (Z.of_nat (i mod 64)) = true <-> i ∈ X.
Proof. intros [_ _ Hh] Hw. rewrite <- Hh. unfold has. naive_solver. Qed.

Lemma bs_set_represents b X pos :
  represents n b X -> pos < n ->
  exists b', bs_set b pos = Some b' /\ represents n b' (X ∪ {[pos]}).
Proof.
  intros Hr Hp. pose proof Hr as [Hl Hw Hh]. pose proof (index_range pos Hp) as Hi.
  destruct (lookup_lt_is_Some_2 b (pos / 64)) as [w Hwd]; [lia|].
  unfold bs_set, bitsetIndex. cbv beta iota zeta. rewrite Hwd. cbn [mbind option_bind]. eexists. split; [done|].
  pose proof (Nat.mod_upper_bound pos 64 ltac:(lia)) as Hm. split.
  - by rewrite length_insert.
  - apply Forall_insert; [done|]. apply word_ok_bits. eapply Forall_lookup_1 in Hw; [|done].
    apply word_ok_bits in Hw as [Hw0 Hwb]. split.
    + apply Z.lor_nonneg. split; [done|]. rewrite bit_pow by done. lia.
    + intros k Hk. rewrite Z.lor_spec, Hwb by done. rewrite bit_pow by done.
      apply Z.pow2_bits_false. lia.
  - intros i. rewrite has_insert by lia. case_decide as Hd.
    + rewrite Z.lor_spec, bit_testbit, orb_true_iff, bool_decide_eq_true by done.
      rewrite <- Hd in Hwd. rewrite (represents_word b X i w Hr Hwd).
      rewrite elem_of_union, elem_of_singleton. split; (intros [?|He]; [by left|right]).
      * symmetry. apply same_position; [lia|done].
      * by subst i.
    + rewrite Hh, elem_of_union, elem_of_singleton. naive_solver.
Qed.

Lemma bs_clear_represents b X pos :
  represents n b X -> pos < n ->
  exists b', bs_clear b pos = Some b' /\ represents n b' (X ∖ {[pos]}).
Proof.
  intros Hr Hp. pose proof Hr as [Hl Hw Hh]. pose proof (index_range pos Hp) as Hi.
  destruct (lookup_lt_is_Some_2 b (pos / 64)) as [w Hwd]; [lia|].
  unfold bs_clear, bitsetIndex. cbv beta iota zeta. rewrite Hwd. cbn [mbind option_bind]. eexists. split; [done|].
  pose proof (Nat.mod_upper_bound pos 64 ltac:(lia)) as Hm. split.
  - by rewrite length_insert.
  - apply Forall_insert; [done|]. apply word_ok_bits. eapply Forall_lookup_1 in Hw; [|done].
    apply word_ok_bits in Hw as [Hw0 Hwb]. split.
    + apply Z.ldiff_nonneg. auto.
    + intros k Hk. by rewrite Z.ldiff_spec, Hwb by done.
  - intros i. rewrite has_insert by lia. case_decide as Hd.
    + rewrite Z.ldiff_spec, bit_testbit, andb_true_iff, negb_true_iff, bool_decide_eq_false by done.
      rewrite <- Hd in Hwd. rewrite (represents_word b X i w Hr Hwd).
      rewrite elem_of_difference, elem_of_singleton.
      split; intros [? He]; (split; [done|]); [congruence|].
      intros Heq. apply He. apply same_position; [lia|done].
    + rewrite Hh, elem_of_difference, elem_of_singleton. naive_solver.
Qed.

Lemma bs_get_represents b X pos :
  represents n b X -> pos < n -> bs_get b pos = Some (bool_decide (pos ∈ X)).
Proof.
  intros Hr Hp. pose proof (rep_length _ _ _ Hr) as Hl. pose proof (index_range pos Hp) as Hi.
  destruct (lookup_lt_is_Some_2 b (pos / 64)) as [w Hwd]; [lia|].
  unfold bs_get, bitsetIndex. cbv beta iota zeta. rewrite Hwd. cbn [mbind option_bind].
  f_equal. pose proof (Nat.mod_upper_bound pos 64 ltac:(lia)) as Hm.
  rewrite bit_pow, Z.land_comm by done.
  destruct (decide (pos ∈ X)) as [Hin|Hout].
  - rewrite (bool_decide_true (pos ∈ X)) by done. rewrite bool_decide_false; [done|]. intros H0.
    apply (represents_word b X pos w Hr Hwd) in Hin.
    assert (Hb : Z.testbit (Z.land (2 ^ Z.of_nat (pos mod 64)) w) (Z.of_nat (pos mod 64)) = false)
      by (by rewrite H0, Z.bits_0).
    rewrite Z.land_spec, Hin, Z.pow2_bits_true in Hb by lia. done.
  - rewrite (bool_decide_false (pos ∈ X)) by done. rewrite bool_decide_true; [done|].
    apply Z.bits_inj_0. intros k. rewrite Z.land_spec, Z.pow2_bits_eqb by lia.
    destruct (Z.eqb_spec (Z.of_nat (pos mod 64)) k) as [<-|]; [|done]. simpl.
    apply not_true_is_false. by rewrite (represents_word b X pos w Hr Hwd).
Qed.

(** Two bitsets of the same size are the same words exactly when they stand for
    the same set. *)
Lemma represents_inj b b' X X' :
  represents n b X -> represents n b' X' -> b = b' <-> X = X'.
Proof.
  intros [Hl Hw Hh] [Hl' Hw' Hh']. split.
  - intros ->. apply set_eq. intros i. by rewrite <- Hh, Hh'.
  - intros ->. apply list_eq_same_length with (n := length b); [congruence|done|].
    intros k w w' Hk Hlk Hlk'. eapply Forall_lookup_1 in Hw, Hw'; [|done..].
    apply word_ok_bits in Hw as [Hw0 Hwb], Hw' as [Hw0' Hwb'].
    apply Z.bits_inj'. intros m Hm. destruct (Z.lt_ge_cases m 64) as [Hlt|Hge];
      [|by rewrite Hwb, Hwb' by done].
    assert (Hi : has b (k * 64 + Z.to_nat m) <-> has b' (k * 64 + Z.to_nat m)) by (by rewrite Hh, Hh').
    unfold has in Hi. rewrite Nat.div_add_l, Nat.div_small, Nat.add_0_r in Hi by lia.
    rewrite Nat.add_comm, Nat.Div0.mod_add, Nat.mod_small in Hi by lia.
    rewrite Hlk, Hlk', Z2Nat.id in Hi by done.
    assert (Hiff : Z.testbit w m = true <-> Z.testbit w' m = true).
    { split; intros Hb; [destruct Hi as [Hi _]|destruct Hi as [_ Hi]];
        (destruct Hi as (v & [= <-] & Hv); [by eauto|done]). }
    destruct (Z.testbit w m), (Z.testbit w' m); intuition congruence.
Qed.
End methods.

(** ** popcnt and hash *)

Definition word_positions (w : Z) : list nat :=
  filter (fun i => Z.testbit w (Z.of_nat i) = true) (seq 0 64).

Fixpoint positions (base : nat) (b : bitset) : list nat :=
  match b with
  | [] => []
  | w :: b => (Nat.add base <$> word_positions w) ++ positions (base + 64) b
  end.

Lemma popcnt_positions b base : popcnt b = length (positions base b).
Proof.
  unfold popcnt. assert (Hgen : forall t, foldl (fun total v => total + OnesCount64 v) t b
    = t + length (positions base b)); [|by rewrite Hgen].
  revert base. induction b as [|w b IH]; intros base t; simpl; [lia|].
  rewrite (IH (base + 64)), length_app, length_fmap. unfold OnesCount64, word_positions. lia.
Qed.

Lemma elem_of_positions base b i :
  i ∈ positions base b <-> base <= i /\ has b (i - base).
Proof.
  revert base. induction b as [|w b IH]; intros base; simpl.
  - split; [set_solver|]. intros [_ (w & Hw & _)]. done.
  - rewrite elem_of_app, list_elem_of_fmap, IH. unfold word_positions, has.
    setoid_rewrite list_elem_of_filter. setoid_rewrite elem_of_seq. split.
    + intros [(k & -> & Hb & Hk)|(Hle & w' & Hw' & Hb)].
      * split; [lia|]. exists w. replace (base + k - base) with k by lia.
        by rewrite Nat.div_small, Nat.mod_small by lia.
      * split; [lia|]. exists w'. replace (i - base) with (i - (base + 64) + 1 * 64) by lia.
        rewrite Nat.div_add, Nat.Div0.mod_add, Nat.add_1_r by lia. done.
    + intros (Hle & w' & Hw' & Hb). destruct (decide (i - base < 64)) as [Hlt|Hge].
      * left. rewrite Nat.div_small in Hw' by lia. rewrite Nat.mod_small in Hb by lia.
        simplify_eq/=. exists (i - base). split_and!; [lia|done|lia|lia].
      * right. split; [lia|]. exists w'.
        replace (i - base) with (i - (base + 64) + 1 * 64) in Hw', Hb by lia.
        rewrite Nat.div_add, Nat.add_1_r in Hw' by lia. by rewrite Nat.Div0.mod_add in Hb.
Qed.

Lemma NoDup_positions base b : NoDup (positions base b).
Proof.
  revert base. induction b as [|w b IH]; intros base; simpl; [constructor|].
  apply NoDup_app. split_and!; [|intros i|done].
  - apply NoDup_fmap_2; [intros ? ? ?; lia|]. apply NoDup_filter, NoDup_seq.
  - rewrite list_elem_of_fmap, elem_of_positions. unfold word_positions.
    setoid_rewrite list_elem_of_filter. setoid_rewrite elem_of_seq. intros (k & -> & _ & Hk) [? _]. lia.
Qed.

Lemma popcnt_represents n b X : represents n b X -> popcnt b = size X.
Proof.
  intros [_ _ Hh]. rewrite (popcnt_positions b 0).
  assert (HX : X = list_to_set (positions 0 b)).
  { apply set_eq. intros i. rewrite elem_of_list_to_set, elem_of_positions, Nat.sub_0_r, Hh.
    split; [intros ?; split; [lia|done]|by intros [_ ?]]. }
  by rewrite HX, size_list_to_set by apply NoDup_positions.
Qed.

Lemma lxor_word_ok w w' : word_ok w -> word_ok w' -> word_ok (Z.lxor w w').
Proof.
  rewrite !word_ok_bits. intros [H0 Hb] [H0' Hb']. split.
  - apply Z.lxor_nonneg. tauto.
  - intros k Hk. by rewrite Z.lxor_spec, Hb, Hb' by done.
Qed.

Lemma bs_hash_word b : Forall word_ok b -> word_ok (bs_hash b).
Proof.
  unfold bs_hash. assert (H0 : word_ok (Z.of_nat (popcnt b) mod uint64_mod))
    by (apply Z.mod_pos_bound; done).
  revert H0. generalize (Z.of_nat (popcnt b) mod uint64_mod)%Z as h.
  induction b as [|w b IH]; intros h Hh Hb; simpl; [done|]. inversion_clear Hb.
  apply IH; [|done]. by apply lxor_word_ok.
Qed.
