(* ===== verification/PorcList.v ===== *)
(** * The linked history of the linearizability checker: src/src/porcupine/checker.go

    The doubly linked list of call and return nodes that [checkSingle] searches,
    over an explicit heap: a pointer is an index into the list of allocated nodes,
    [nil] is [None], and dereferencing [nil] is a run-time panic, here [None].
    [lift] takes a call and its return out of the list and [unlift] puts them
    back through the pointers they kept. *)

From S2P Require Import Prelude.

(** ** Nodes and entries *)

Section nodes.
Context {V : Type}.

Inductive entryKind := callEntry | returnEntry.

Record entry := mkEntry {
  e_kind : entryKind;
  e_value : V;
  e_id : nat;
  e_time : Z;
  e_clientId : Z;
}.

Record node := mkNode {
  n_value : V;
  n_match : option nat;
  n_id : Z;
  n_next : option nat;
  n_prev : option nat;
}.

Implicit Types h : list node.

Definition set_next (p : option nat) (x : node) : node :=
  mkNode (n_value x) (n_match x) (n_id x) p (n_prev x).
Definition set_prev (p : option nat) (x : node) : node :=
  mkNode (n_value x) (n_match x) (n_id x) (n_next x) p.

(** Assignment to a field of the node at [a]. *)
Definition upd (a : nat) (f : node -> node) h : option (list node) :=
  x ← h !! a; Some (<[a := f x]> h).

(** [insertBefore(n, mark)] *)
Definition insertBefore (n : nat) (mark : option nat) h : option (list node) :=
  match mark with
  | None => Some h
  | Some mk =>
      m ← h !! mk;
      let beforeMark := n_prev m in
      h1 ← upd mk (set_prev (Some n)) h;
      h2 ← upd n (set_next (Some mk)) h1;
      match beforeMark with
      | None => Some h2
      | Some b => h3 ← upd n (set_prev (Some b)) h2; upd b (set_next (Some n)) h3
      end
  end.

(** [length]: the loop takes one iteration per node, so the size of the heap plus
    one is enough for a list without cycles. *)
Fixpoint length_from (fuel : nat) h (n : option nat) : option nat :=
  match n with
  | None => Some 0
  | Some a =>
      match fuel with
      | 0 => None
      | S fuel => x ← h !! a; l ← length_from fuel h (n_next x); Some (S l)
      end
  end.

Definition node_length h (n : option nat) : option nat := length_from (S (length h)) h n.

(** [makeLinkedEntries]: the loop runs from the last entry to the first; the
    result is the heap, the root and the map from ids to return nodes. *)
Fixpoint makeLinkedEntries (entries : list entry) : option (list node * option nat * gmap nat nat) :=
  match entries with
  | [] => Some ([], None, ∅)
  | elem :: entries =>
      '(h, root, mtch) ← makeLinkedEntries entries;
      let a := length h in
      match e_kind elem with
      | returnEntry =>
          let h1 := h ++ [mkNode (e_value elem) None (Z.of_nat (e_id elem)) None None] in
          h2 ← insertBefore a root h1;
          Some (h2, Some a, <[e_id elem := a]> mtch)
      | callEntry =>
          let h1 := h ++ [mkNode (e_value elem) (mtch !! e_id elem) (Z.of_nat (e_id elem)) None None] in
          h2 ← insertBefore a root h1;
          Some (h2, Some a, mtch)
      end
  end.

Definition lift (e : nat) h : option (list node) :=
  x ← h !! e; p ← n_prev x; h1 ← upd p (set_next (n_next x)) h;
  x ← h1 !! e; nx ← n_next x; h2 ← upd nx (set_prev (n_prev x)) h1;
  x ← h2 !! e; m ← n_match x;
  y ← h2 !! m; q ← n_prev y; h3 ← upd q (set_next (n_next y)) h2;
  y ← h3 !! m;
  match n_next y with
  | None => Some h3
  | Some ny => upd ny (set_prev (n_prev y)) h3
  end.

Definition unlift (e : nat) h : option (list node) :=
  x ← h !! e; m ← n_match x;
  y ← h !! m; q ← n_prev y; h1 ← upd q (set_next (Some m)) h;
  y ← h1 !! m;
  h2 ← (match n_next y with
        | None => Some h1
        | Some ny => upd ny (set_prev (Some m)) h1
        end);
  x ← h2 !! e; p ← n_prev x; h3 ← upd p (set_next (Some e)) h2;
  x ← h3 !! e; nx ← n_next x; upd nx (set_prev (Some e)) h3.

(** ** List segments *)

Definition hd_or (Q : list nat) (n : option nat) : option nat :=
  match Q with [] => n | y :: _ => Some y end.

Definition last_or (p : option nat) (Q : list nat) : option nat :=
  match last Q with Some x => Some x | None => p end.

(** The nodes of [Q] are linked in this order, after [p] and before [n]. *)
Fixpoint seg h (p : option nat) (Q : list nat) (n : option nat) : Prop :=
  match Q with
  | [] => True
  | x :: Q' => exists nd, h !! x = Some nd /\ n_prev nd = p /\ n_next nd = hd_or Q' n /\
                 seg h (Some x) Q' n
  end.

(** A node keeps its value, match and id. *)
Definition same_data (x y : node) : Prop :=
  n_value x = n_value y /\ n_match x = n_match y /\ n_id x = n_id y.

Lemma hd_or_app Q1 Q2 n : hd_or (Q1 ++ Q2) n = hd_or Q1 (hd_or Q2 n).
Proof. by destruct Q1. Qed.

Lemma last_or_cons p x Q : last_or p (x :: Q) = last_or (Some x) Q.
Proof. unfold last_or. rewrite last_cons. by destruct (last Q). Qed.

Lemma last_or_snoc p Q x : last_or p (Q ++ [x]) = Some x.
Proof. unfold last_or. by rewrite last_snoc. Qed.

Lemma seg_app h p Q1 Q2 n :
  seg h p (Q1 ++ Q2) n <-> seg h p Q1 (hd_or Q2 n) /\ seg h (last_or p Q1) Q2 n.
Proof.
  revert p. induction Q1 as [|x Q1 IH]; intros p; simpl; [tauto|].
  setoid_rewrite IH. rewrite last_or_cons, hd_or_app. naive_solver.
Qed.

Lemma seg_frame h p Q n a nd : a ∉ Q -> seg h p Q n -> seg (<[a := nd]> h) p Q n.
Proof.
  revert p. induction Q as [|x Q IH]; intros p Ha; simpl; [done|].
  intros (x' & Hx & ? & ? & Hs). exists x'. rewrite list_lookup_insert_ne by set_solver.
  split_and!; try done. apply IH; [set_solver|done].
Qed.

Lemma seg_alloc h p Q n nd : seg h p Q n -> seg (h ++ [nd]) p Q n.
Proof.
  revert p. induction Q as [|x Q IH]; intros p; simpl; [done|].
  intros (x' & Hx & ? & ? & Hs). exists x'.
  split_and!; [by apply lookup_app_l_Some|done|done|by apply IH].
Qed.

Lemma seg_lookup h p Q n x : seg h p Q n -> x ∈ Q -> is_Some (h !! x).
Proof.
  revert p. induction Q as [|y Q IH]; intros p; simpl; [set_solver|].
  intros (nd & Hy & _ & _ & Hs) [->|Hx]%elem_of_cons; [by eexists|by eapply IH].
Qed.

Lemma seg_single h p x n :
  seg h p [x] n <-> exists nd, h !! x = Some nd /\ n_prev nd = p /\ n_next nd = n.
Proof. simpl. naive_solver. Qed.

(** ** Taking one node out and putting it back *)

(** [x.prev.next = x.next; if x.next != nil { x.next.prev = x.prev }] *)
Definition unlink (x : nat) h : option (list node) :=
  nd ← h !! x; p ← n_prev nd; h1 ← upd p (set_next (n_next nd)) h;
  match n_next nd with
  | None => Some h1
  | Some y => upd y (set_prev (n_prev nd)) h1
  end.

(** [x.prev.next = x; if x.next != nil { x.next.prev = x }] *)
Definition relink (x : nat) h : option (list node) :=
  nd ← h !! x; p ← n_prev nd; h1 ← upd p (set_next (Some x)) h;
  match n_next nd with
  | None => Some h1
  | Some y => upd y (set_prev (Some x)) h1
  end.

(** The nodes keep their data and no other node is added or removed. *)
Definition keeps_data h h' : Prop :=
  forall a, option_relation same_data (fun _ => False) (fun _ => False) (h !! a) (h' !! a).

Lemma same_data_refl x : same_data x x.
Proof. done. Qed.

Lemma keeps_data_refl h : keeps_data h h.
Proof. intros a. by destruct (h !! a). Qed.

Lemma keeps_data_trans h1 h2 h3 : keeps_data h1 h2 -> keeps_data h2 h3 -> keeps_data h1 h3.
Proof.
  intros H1 H2 a. specialize (H1 a). specialize (H2 a). unfold same_data in *.
  destruct (h1 !! a), (h2 !! a), (h3 !! a); simpl in *; naive_solver congruence.
Qed.

Lemma keeps_data_insert h a nd nd' :
  h !! a = Some nd -> same_data nd nd' -> keeps_data h (<[a := nd']> h).
Proof.
  intros Ha Hs b. destruct (decide (a = b)) as [->|Hne].
  - rewrite Ha, list_lookup_insert_eq by (by eapply lookup_lt_Some). done.
  - rewrite list_lookup_insert_ne by done. by destruct (h !! b).
Qed.

Lemma upd_some a f h nd : h !! a = Some nd -> upd a f h = Some (<[a := f nd]> h).
Proof. intros Ha. unfold upd. by rewrite Ha. Qed.

(** Setting a field and setting it back. *)
Lemma insert_back h a nd nd' : h !! a = Some nd -> <[a := nd]> (<[a := nd']> h) = h.
Proof. intros Ha. by rewrite list_insert_insert_eq, list_insert_id. Qed.

Lemma set_next_back nd q r : n_next nd = q -> set_next q (set_next r nd) = nd.
Proof. destruct nd. by intros <-. Qed.

Lemma set_prev_back nd q r : n_prev nd = q -> set_prev q (set_prev r nd) = nd.
Proof. destruct nd. by intros <-. Qed.

Lemma unlink_last h q1 p x :
  NoDup (q1 ++ [p; x]) -> seg h None (q1 ++ [p; x]) None ->
  exists h', unlink x h = Some h' /\ seg h' None (q1 ++ [p]) None /\ h' !! x = h !! x /\
    relink x h' = Some h /\ keeps_data h h'.
Proof.
  intros Hnd Hs. apply seg_app in Hs as [H1 (np & Hp & Hpp & Hpn & nx & Hx & Hxp & Hxn & _)].
  simpl in *. apply NoDup_app in Hnd as (_ & Hd & Hpx%NoDup_cons_1_1).
  assert (Hne : p <> x) by set_solver. assert (Hpq : p ∉ q1) by set_solver.
  assert (Hlp := lookup_lt_Some _ _ _ Hp).
  unfold unlink. rewrite Hx; simpl. rewrite Hxp; simpl. rewrite (upd_some _ _ _ _ Hp), Hxn; simpl.
  eexists. split; [done|]. split_and!.
  - apply seg_app. split; [by apply seg_frame|].
    apply seg_single. rewrite list_lookup_insert_eq by done. by eexists.
  - by rewrite list_lookup_insert_ne.
  - unfold relink. rewrite list_lookup_insert_ne, Hx by done; simpl. rewrite Hxp; simpl.
    rewrite (upd_some p _ _ (set_next None np)) by (by apply list_lookup_insert_eq). simpl.
    rewrite Hxn. f_equal. rewrite set_next_back by done. by apply insert_back.
  - by eapply keeps_data_insert.
Qed.

Lemma unlink_middle h q1 p x y q2 :
  NoDup (q1 ++ [p; x; y] ++ q2) -> seg h None (q1 ++ [p; x; y] ++ q2) None ->
  exists h', unlink x h = Some h' /\ seg h' None (q1 ++ [p; y] ++ q2) None /\ h' !! x = h !! x /\
    relink x h' = Some h /\ keeps_data h h'.
Proof.
  intros Hnd Hs. apply seg_app in Hs as [H1 Hs]. simpl in H1.
  destruct Hs as (np & Hp & Hpp & Hpn & nx & Hx & Hxp & Hxn & ny & Hy & Hyp & Hyn & H2).
  simpl in *. apply NoDup_app in Hnd as (_ & Hd & Hpx).
  assert (Hpy : p <> y /\ p <> x /\ x <> y /\ (p ∉ q1) /\ (y ∉ q1) /\ (p ∉ q2) /\ y ∉ q2).
  { rewrite !NoDup_cons, !elem_of_cons in Hpx. split_and!; set_solver. }
  destruct Hpy as (Hpy & Hpx' & Hxy & Hp1 & Hy1 & Hp2 & Hy2).
  assert (Hlp := lookup_lt_Some _ _ _ Hp). assert (Hly := lookup_lt_Some _ _ _ Hy).
  unfold unlink. rewrite Hx; simpl. rewrite Hxp; simpl. rewrite (upd_some _ _ _ _ Hp), Hxn; simpl.
  rewrite (upd_some y _ _ ny) by (by rewrite list_lookup_insert_ne).
  eexists. split; [done|]. split_and!.
  - apply seg_app. split; [by do 2 (apply seg_frame; [done|])|].
    exists (set_next (Some y) np). rewrite list_lookup_insert_ne, list_lookup_insert_eq by done.
    split_and!; [done..|]. exists (set_prev (Some p) ny).
    rewrite list_lookup_insert_eq by (by rewrite length_insert).
    split_and!; [done..|]. by do 2 (apply seg_frame; [done|]).
  - by rewrite !list_lookup_insert_ne.
  - unfold relink. rewrite !list_lookup_insert_ne, Hx by done; simpl. rewrite Hxp; simpl.
    rewrite (upd_some p _ _ (set_next (Some y) np));
      [|by rewrite list_lookup_insert_ne, list_lookup_insert_eq by done]. simpl.
    rewrite Hxn, set_next_back by done.
    rewrite (upd_some y _ _ (set_prev (Some p) ny));
      [|by rewrite list_lookup_insert_ne, list_lookup_insert_eq by (by rewrite ?length_insert)].
    rewrite set_prev_back by done. f_equal. rewrite (list_insert_insert_ne _ y p) by done.
    rewrite list_insert_insert_eq. rewrite (list_insert_insert_ne _ p y) by done.
    rewrite insert_back by done. by apply list_insert_id.
  - apply (keeps_data_trans _ (<[p := set_next (Some y) np]> h)); [by eapply keeps_data_insert|].
    eapply keeps_data_insert; [by rewrite list_lookup_insert_ne|done].
Qed.

(** Removing a node that has a predecessor from a list. *)
Lemma unlink_spec h q1 x q2 :
  q1 <> [] -> NoDup (q1 ++ x :: q2) -> seg h None (q1 ++ x :: q2) None ->
  exists h', unlink x h = Some h' /\ seg h' None (q1 ++ q2) None /\ h' !! x = h !! x /\
    relink x h' = Some h /\ keeps_data h h'.
Proof.
  intros Hne Hnd Hs. destruct (exists_last Hne) as (q & p & ->).
  rewrite <- app_assoc in *. simpl in *. destruct q2 as [|y q2].
  - by apply unlink_last.
  - by apply unlink_middle.
Qed.

(** The neighbours of a node of a list. *)
Lemma seg_neighbours h q1 x q2 :
  q1 <> [] -> NoDup (q1 ++ x :: q2) -> seg h None (q1 ++ x :: q2) None ->
  exists nd p, h !! x = Some nd /\ n_prev nd = Some p /\ n_next nd = hd_or q2 None /\
    p <> x /\ hd_or q2 None <> Some x /\ is_Some (h !! p).
Proof.
  intros Hne Hnd Hs. destruct (exists_last Hne) as (q & p & ->).
  apply seg_app in Hs as [H1 (nd & Hx & Hp & Hn & _)]. rewrite last_or_snoc in Hp.
  exists nd, p. apply NoDup_app in Hnd as (_ & Hd & Hx2%NoDup_cons_1_1).
  split_and!; try done.
  - intros ->. apply (Hd x); set_solver.
  - destruct q2 as [|y q2]; simpl; [done|]. intros [= ->]. set_solver.
  - eapply seg_lookup; [exact H1|set_solver].
Qed.

Lemma lift_unlink h e x p nx h1 m y q :
  h !! e = Some x -> n_prev x = Some p -> n_next x = Some nx -> n_match x = Some m ->
  p <> e -> nx <> e -> unlink e h = Some h1 -> h1 !! m = Some y -> n_prev y = Some q -> q <> m ->
  lift e h = unlink m h1.
Proof.
  intros Hx Hp Hn Hm Hpe Hne Hu Hy Hq Hqm. unfold lift. unfold unlink in Hu.
  rewrite Hx in Hu |- *. simpl in *. rewrite Hp in Hu |- *. simpl in *. rewrite Hn in *. unfold upd in *.
  destruct (h !! p) as [np|] eqn:Hpp; simpl in *; [|done].
  rewrite list_lookup_insert_ne, Hx by done. simpl. rewrite Hn. simpl.
  destruct (<[p := set_next (Some nx) np]> h !! nx) as [ny|] eqn:Hny; simpl in *; [|done].
  rewrite Hp. injection Hu as Hh1. rewrite Hh1.
  assert (Hx1 : h1 !! e = Some x) by (by rewrite <- Hh1, !list_lookup_insert_ne).
  rewrite Hx1. simpl. rewrite Hm. simpl. unfold unlink. rewrite Hy. simpl. rewrite Hq. simpl. unfold upd.
  destruct (h1 !! q) as [nq|]; simpl; [|done]. rewrite list_lookup_insert_ne, Hy by done. simpl.
  by rewrite Hq.
Qed.

Lemma unlift_relink h h1 e x m y q x1 p nx :
  h !! e = Some x -> n_match x = Some m -> h !! m = Some y -> n_prev y = Some q -> q <> m ->
  relink m h = Some h1 -> h1 !! e = Some x1 -> n_prev x1 = Some p -> n_next x1 = Some nx -> p <> e ->
  unlift e h = relink e h1.
Proof.
  intros Hx Hm Hy Hq Hqm Hr Hx1 Hp Hn Hpe. unfold unlift. unfold relink in Hr.
  rewrite Hx. simpl. rewrite Hm. simpl. rewrite Hy in Hr |- *. simpl in *. rewrite Hq in Hr |- *.
  simpl in *. unfold upd in *. destruct (h !! q) as [nq|]; simpl in *; [|done].
  rewrite list_lookup_insert_ne, Hy by done. simpl. rewrite Hr. simpl. rewrite Hx1. simpl. rewrite Hp.
  simpl. unfold relink, upd. rewrite Hx1. simpl. rewrite Hp. simpl.
  destruct (h1 !! p) as [np|]; simpl; [|done]. rewrite list_lookup_insert_ne, Hx1 by done. simpl.
  by rewrite Hn.
Qed.

(** [lift] removes a call and its return, and [unlift] undoes exactly that. *)
Lemma lift_spec h hd l1 e l2 r l3 x :
  NoDup (hd :: l1 ++ e :: l2 ++ r :: l3) -> seg h None (hd :: l1 ++ e :: l2 ++ r :: l3) None ->
  h !! e = Some x -> n_match x = Some r ->
  exists h', lift e h = Some h' /\ seg h' None (hd :: l1 ++ l2 ++ l3) None /\
    unlift e h' = Some h /\ keeps_data h h'.
Proof.
  intros Hnd Hs Hx Hm. rewrite app_comm_cons in Hnd, Hs.
  destruct (seg_neighbours h (hd :: l1) e (l2 ++ r :: l3)) as (x0 & p & Hx0 & Hp & Hn & Hpe & Hne & _);
    [done..|]. rewrite Hx in Hx0. injection Hx0 as <-.
  destruct (unlink_spec h (hd :: l1) e (l2 ++ r :: l3)) as (h1 & Hu1 & Hs1 & Hx1 & Hr1 & Hk1); [done..|].
  assert (Hnd1 : NoDup ((hd :: l1 ++ l2) ++ r :: l3)).
  { rewrite app_comm_cons, <- app_assoc. apply NoDup_app in Hnd as (Ha & Hb & [_ Hc]%NoDup_cons).
    apply NoDup_app. split_and!; [done| |done]. intros z Hz Hz'. apply (Hb z Hz). by right. }
  rewrite app_assoc in Hs1.
  destruct (seg_neighbours h1 ((hd :: l1) ++ l2) r l3) as (y & q & Hy & Hq & _ & Hqr & _ & _); [done..|].
  destruct (unlink_spec h1 ((hd :: l1) ++ l2) r l3) as (h2 & Hu2 & Hs2 & Hy2 & Hr2 & Hk2); [done..|].
  assert (Hnx : exists nx, n_next x = Some nx /\ nx <> e).
  { rewrite Hn. destruct l2 as [|z l2]; simpl in *; eexists; (split; [done|congruence]). }
  destruct Hnx as (nx & Hnx & Hnxe).
  exists h2. split; [by erewrite lift_unlink|]. split; [by rewrite <- app_assoc in Hs2|].
  split; [|by eapply keeps_data_trans].
  pose proof (Hk2 e) as Hk2e. rewrite Hx1, Hx in Hk2e. destruct (h2 !! e) as [x2|] eqn:Hx2; [|done].
  destruct Hk2e as (_ & Hm2 & _).
  rewrite <- Hr1. eapply (unlift_relink h2 h1 e x2 r); [done|congruence|by rewrite Hy2|done|done|done| | | |];
    [by rewrite Hx1|done|done|done].
Qed.
End nodes.

Arguments entry : clear implicits.
Arguments node : clear implicits.
