(* ===== verification/Porcupine.v ===== *)
(** * The linearizability checker: src/src/porcupine

    The model interface (model.go), the conversion of histories into entries and
    the search of [checkSingle] (checker.go), with its heap of linked nodes
    (PorcList), its bitset of linearized calls (Bitset) and its cache. A value of
    type [interface{}] is a value of the parameter [V], a state of a model one of
    [St]. *)

From S2P Require Import Prelude GoLib Bitset PorcList.

(** ** model.go *)

Section model.
Context {V St : Type}.

Record Operation := mkOperation {
  op_ClientId : Z;
  op_Input : V;
  op_Call : Z;
  op_Output : V;
  op_Return : Z;
}.

Inductive EventKind := CallEvent | ReturnEvent.

Record Event := mkEvent {
  ev_ClientId : Z;
  ev_Kind : EventKind;
  ev_Value : V;
  ev_Id : Z;
}.

(** The function fields may be nil. DescribeOperation and DescribeState are for
    the visualization only. *)
Record Model := mkModel {
  mo_Partition : option (list Operation -> list (list Operation));
  mo_PartitionEvent : option (list Event -> list (list Event));
  mo_Init : St;
  mo_Step : St -> V -> V -> bool * St;
  mo_Equal : option (St -> St -> bool);
}.

Definition NoPartition (history : list Operation) : list (list Operation) := [history].
Definition NoPartitionEvent (history : list Event) : list (list Event) := [history].

(** [state1 == state2] on interface values. *)
Definition ShallowEqual `{!EqDecision St} (state1 state2 : St) : bool := bool_decide (state1 = state2).

(** A model after [fillDefault]: no field is nil. *)
Record FullModel := mkFull {
  Partition : list Operation -> list (list Operation);
  PartitionEvent : list Event -> list (list Event);
  Init : St;
  Step : St -> V -> V -> bool * St;
  Equal : St -> St -> bool;
}.

Definition fillDefault `{!EqDecision St} (model : Model) : FullModel :=
  mkFull (default NoPartition (mo_Partition model))
    (default NoPartitionEvent (mo_PartitionEvent model))
    (mo_Init model) (mo_Step model) (default ShallowEqual (mo_Equal model)).

Inductive CheckResult := Unknown | Ok | Illegal.

(** ** Entries *)

(** [byTime.Less] *)
Definition byTime_Less (a b : entry V) : bool :=
  if decide (e_time a <> e_time b) then bool_decide (e_time a < e_time b)%Z
  else match e_kind a, e_kind b with
       | callEntry, returnEntry => true
       | _, _ => false
       end.

(** The loop of [makeEntries], from the operation of index [id] on. *)
Fixpoint entries_from (id : nat) (history : list Operation) : list (entry V) :=
  match history with
  | [] => []
  | elem :: history =>
      mkEntry callEntry (op_Input elem) id (op_Call elem) (op_ClientId elem) ::
      mkEntry returnEntry (op_Output elem) id (op_Return elem) (op_ClientId elem) ::
      entries_from (S id) history
  end.

Definition makeEntries `{!Sorter} (history : list Operation) : list (entry V) :=
  sort_by byTime_Less (entries_from 0 history).

(** The loop of [renumber]: [m] maps the ids seen so far to their new ids, [id]
    is the next one. *)
Fixpoint renumber_from (m : gmap Z nat) (id : nat) (events : list Event) : list Event :=
  match events with
  | [] => []
  | v :: events =>
      match m !! ev_Id v with
      | Some r => mkEvent (ev_ClientId v) (ev_Kind v) (ev_Value v) (Z.of_nat r)
                    :: renumber_from m id events
      | None => mkEvent (ev_ClientId v) (ev_Kind v) (ev_Value v) (Z.of_nat id)
                  :: renumber_from (<[ev_Id v := id]> m) (S id) events
      end
  end.

Definition renumber (events : list Event) : list Event := renumber_from ∅ 0 events.

(** [convertEntries], whose ids come from [renumber] and are not negative. *)
Definition convertEntry (i : nat) (elem : Event) : entry V :=
  mkEntry (match ev_Kind elem with ReturnEvent => returnEntry | CallEvent => callEntry end)
    (ev_Value elem) (Z.to_nat (ev_Id elem)) (Z.of_nat i) (ev_ClientId elem).

Definition convertEntries (events : list Event) : list (entry V) := imap convertEntry events.

(** ** The cache *)

Definition Cache : Type := gmap Z (list (bitset * St)).

Definition cacheContains (model : FullModel) (cache : Cache) (e : bitset * St) : bool :=
  existsb (fun elem => bs_equals e.1 elem.1 && Equal model e.2 elem.2)
    (default [] (cache !! bs_hash e.1)).

(** [cache[hash] = append(cache[hash], newCacheEntry)] *)
Definition cacheAdd (cache : Cache) (e : bitset * St) : Cache :=
  <[bs_hash e.1 := default [] (cache !! bs_hash e.1) ++ [e]]> cache.

(** ** checkSingle *)

(** The local variables of the loop. [calls] has its top first. An element of
    [longest] points to a slice of ids: the number of the iteration that made the
    slice stands for the pointer. *)
Record Search := mkSearch {
  s_heap : list (node V);
  s_entry : option nat;
  s_linearized : bitset;
  s_cache : Cache;
  s_calls : list (nat * St);
  s_state : St;
  s_longest : list (option (nat * list Z));
}.

(** What one iteration does: go on, return, or a run-time panic. *)
Inductive outcome :=
  | Next (s : Search)
  | Return (ok : bool) (longest : list (option (nat * list Z)))
  | Panic.

Definition or_panic (x : option outcome) : outcome := default Panic x.

(** The ids of the calls, first call first. *)
Definition calls_seq (h : list (node V)) (calls : list (nat * St)) : option (list Z) :=
  mapM (fun c => n_id <$> (h !! c.1)) (reverse calls).

(** The loop over [calls] that updates [longest] with the slice [seq] of this
    iteration. *)
Definition update_longest (it : nat) (seq : list Z) (longest : list (option (nat * list Z)))
    : option (list (option (nat * list Z))) :=
  foldl (fun acc id =>
    longest ← acc;
    old ← longest !! Z.to_nat id;
    match old with
    | None => Some (<[Z.to_nat id := Some (it, seq)]> longest)
    | Some (_, l) => if decide (length l < length seq)
                     then Some (<[Z.to_nat id := Some (it, seq)]> longest) else Some longest
    end) (Some longest) seq.

(** One iteration of the loop, the [it]-th, with [kill] as [LoadInt32] reads it;
    [head] is [headEntry]. *)
Definition iterate (model : FullModel) (computePartial kill : bool) (head it : nat) (s : Search)
    : outcome :=
  if kill then Return false (s_longest s)
  else or_panic (
    e ← s_entry s; x ← s_heap s !! e;
    match n_match x with
    | Some m =>
        matching ← s_heap s !! m;
        let '(ok, newState) := Step model (s_state s) (n_value x) (n_value matching) in
        let next := Next (mkSearch (s_heap s) (n_next x) (s_linearized s) (s_cache s) (s_calls s)
                            (s_state s) (s_longest s)) in
        if ok then
          newLinearized ← bs_set (s_linearized s) (Z.to_nat (n_id x));
          if cacheContains model (s_cache s) (newLinearized, newState) then Some next
          else
            h ← lift e (s_heap s); hx ← h !! head;
            Some (Next (mkSearch h (n_next hx) newLinearized
                          (cacheAdd (s_cache s) (newLinearized, newState))
                          ((e, s_state s) :: s_calls s) newState (s_longest s)))
        else Some next
    | None =>
        match s_calls s with
        | [] => Some (Return false (s_longest s))
        | (top, st) :: calls =>
            longest ← (if computePartial then
                         seq ← calls_seq (s_heap s) (s_calls s);
                         update_longest it seq (s_longest s)
                       else Some (s_longest s));
            y ← s_heap s !! top;
            lin ← bs_clear (s_linearized s) (Z.to_nat (n_id y));
            h ← unlift top (s_heap s); z ← h !! top;
            Some (Next (mkSearch h (n_next z) lin (s_cache s) calls st longest))
        end
    end).

(** The loop [for headEntry.next != nil], with [kill] at each iteration. *)
Inductive result := Returned (ok : bool) (longest : list (option (nat * list Z))) | Crashed | NoFuel.

Fixpoint search_loop (model : FullModel) (computePartial : bool) (kill : nat -> bool) (n head : nat)
    (fuel it : nat) (s : Search) : result :=
  match fuel with
  | 0 => NoFuel
  | S fuel =>
      match s_heap s !! head with
      | None => Crashed
      | Some hx =>
          match n_next hx with
          | None =>
              match calls_seq (s_heap s) (s_calls s) with
              | Some seq => Returned true (replicate n (Some (it, seq)))
              | None => Crashed
              end
          | Some _ =>
              match iterate model computePartial (kill it) head it s with
              | Next s' => search_loop model computePartial kill n head fuel (S it) s'
              | Return ok longest => Returned ok longest
              | Panic => Crashed
              end
          end
      end
  end.

(** [checkSingle]; [nilV] is the value of the head node. *)
Definition checkSingle (nilV : V) (model : FullModel) (history : list (entry V))
    (computePartial : bool) (kill : nat -> bool) (fuel : nat) : result :=
  match
    '(h, root, _) ← makeLinkedEntries history;
    len ← node_length h root;
    let head := length h in
    h1 ← insertBefore head root (h ++ [mkNode nilV None (-1)%Z None None]);
    Some (h1, root, len / 2, head)
  with
  | Some (h1, root, n, head) =>
      search_loop model computePartial kill n head fuel 0
        (mkSearch h1 root (newBitset n) ∅ [] (Init model) (replicate n None))
  | None => Crashed
  end.

(** More fuel does not change a result. *)
Lemma search_loop_more_fuel model computePartial kill n head fuel it s k ok longest :
  search_loop model computePartial kill n head fuel it s = Returned ok longest ->
  search_loop model computePartial kill n head (fuel + k) it s = Returned ok longest.
Proof.
  revert it s. induction fuel as [|fuel IH]; intros it s; simpl; [done|].
  destruct (s_heap s !! head) as [hx|]; [|done]. destruct (n_next hx); [|done].
  destruct (iterate _ _ _ _ _ _); [apply IH|done|done].
Qed.

Lemma checkSingle_more_fuel nilV model history computePartial kill fuel k ok longest :
  checkSingle nilV model history computePartial kill fuel = Returned ok longest ->
  checkSingle nilV model history computePartial kill (fuel + k) = Returned ok longest.
Proof.
  unfold checkSingle. destruct (_ ≫= _) as [[[[h1 root] n] head]|]; [|done].
  apply search_loop_more_fuel.
Qed.
End model.

Arguments Operation : clear implicits.
Arguments Event : clear implicits.
Arguments Model : clear implicits.
Arguments FullModel : clear implicits.
