(* ===== verification/PorcSearch.v ===== *)
(** * The search of checkSingle as a recursive depth-first search

    [checkSingle] is a loop over a linked list that it takes apart and restores in
    place. Here the same search is a recursive function on the list of live nodes,
    [dfs], and the loop is shown to compute it: it does not panic, it terminates,
    and it returns what [dfs] returns. *)

From S2P Require Import Prelude GoLib Bitset PorcList Porcupine.

Set Default Proof Using "Type".

Section search.
Context {V St : Type}.
Variable model : FullModel V St.
(** The nodes as [makeLinkedEntries] allocated them; the search changes their
    [next] and [prev] only. *)
Variable h0 : list (node V).
(** The number of operations and the address of [headEntry]. *)
Variables n head : nat.

Implicit Types (L P : list nat) (a r : nat) (s : St) (lin : list Z) (cache : @Cache St).

Definition ident a : nat := match h0 !! a with Some x => Z.to_nat (n_id x) | None => 0 end.

Definition matchOf a : option nat := x ← h0 !! a; n_match x.

(** The state after the call [a], if the model allows it to return what it did. *)
Definition op_step s a : option St :=
  match h0 !! a, matchOf a ≫= (h0 !!.) with
  | Some x, Some y =>
      let '(ok, s') := Step model s (n_value x) (n_value y) in if ok then Some s' else None
  | _, _ => None
  end.

(** The live nodes once the operation of [a] is linearized. *)
Definition without a L : list nat := filter (fun b => ident b <> ident a) L.

(** The loop over the calls before the first return; [rec] searches on. *)
Fixpoint explore (rec : list nat -> St -> list Z -> @Cache St -> option (list nat) * @Cache St)
    L s lin P cache : option (list nat) * @Cache St :=
  match P with
  | [] => (None, cache)
  | a :: P' =>
      if decide (matchOf a = None) then (None, cache)
      else
        match op_step s a, bs_set lin (ident a) with
        | Some s', Some lin' =>
            if cacheContains model cache (lin', s') then explore rec L s lin P' cache
            else
              match rec (without a L) s' lin' (cacheAdd cache (lin', s')) with
              | (Some l, c') => (Some (a :: l), c')
              | (None, c') => explore rec L s lin P' c'
              end
        | _, _ => explore rec L s lin P' cache
        end
  end.

(** The search from a state with [m] operations left. *)
Fixpoint dfs (m : nat) L s lin cache : option (list nat) * @Cache St :=
  match L with
  | [] => (Some [], cache)
  | _ =>
      match m with
      | 0 => (None, cache)
      | S m => explore (dfs m) L s lin L cache
      end
  end.

(** ** Live lists *)

(** The live nodes: every call has its return later in the list and every return
    its call, ids are shared by a call and its return only, and below [n]. *)
Record live L : Prop := {
  lv_nodup : NoDup (head :: L);
  lv_def a : a ∈ L -> exists x, h0 !! a = Some x /\ (0 <= n_id x < Z.of_nat n)%Z;
  lv_call a r : a ∈ L -> matchOf a = Some r ->
    exists l1 l2 l3, L = l1 ++ a :: l2 ++ r :: l3 /\ matchOf r = None /\ ident r = ident a;
  lv_ret r : r ∈ L -> matchOf r = None -> exists a, a ∈ L /\ matchOf a = Some r /\ ident a = ident r;
  lv_id a b : a ∈ L -> b ∈ L -> ident a = ident b -> a = b \/ matchOf a = Some b \/ matchOf b = Some a;
}.

Lemma filter_split (Q : nat -> Prop) `{!forall x, Decision (Q x)} l1 a l2 r l3 :
  Q a -> Q r ->
  filter Q (l1 ++ a :: l2 ++ r :: l3) = filter Q l1 ++ a :: filter Q l2 ++ r :: filter Q l3.
Proof. intros Ha Hr. by rewrite filter_app, filter_cons_True, filter_app, filter_cons_True. Qed.

(** Keeping some operations keeps a live list. *)
Lemma live_filter (Q : nat -> Prop) `{!forall i, Decision (Q i)} L :
  live L -> live (filter (fun b => Q (ident b)) L).
Proof.
  intros [Hnd Hdef Hcall Hret Hid]. split.
  - apply NoDup_cons in Hnd as [Hh Hnd]. apply NoDup_cons.
    split; [by intros [_ ?]%list_elem_of_filter|by apply NoDup_filter].
  - intros b [_ Hb]%list_elem_of_filter. auto.
  - intros b r [Hq Hb]%list_elem_of_filter Hm.
    destruct (Hcall b r Hb Hm) as (l1 & l2 & l3 & -> & Hr & Hi).
    eexists _, _, _. split_and!; [apply filter_split; congruence|done|done].
  - intros r [Hq Hr]%list_elem_of_filter Hm. destruct (Hret r Hr Hm) as (b & Hb & Hbm & Hi).
    exists b. split_and!; [apply list_elem_of_filter; split; congruence|done|done].
  - intros b c [_ Hb]%list_elem_of_filter [_ Hc]%list_elem_of_filter. auto.
Qed.

Lemma live_without a L : live L -> live (without a L).
Proof. intros Hl. exact (live_filter (fun i => i <> ident a) L Hl). Qed.

Lemma two_perm l1 a l2 r l3 : l1 ++ a :: l2 ++ r :: l3 ≡ₚ a :: r :: l1 ++ l2 ++ l3.
Proof.
  rewrite <- Permutation_middle. apply Permutation_skip. rewrite app_assoc, <- Permutation_middle.
  by rewrite <- app_assoc.
Qed.

(** Removing an operation removes its two nodes. *)
Lemma without_split L l1 a l2 r l3 :
  live L -> L = l1 ++ a :: l2 ++ r :: l3 -> matchOf a = Some r -> without a L = l1 ++ l2 ++ l3.
Proof.
  intros [Hnd Hdef Hcall Hret Hid] HL Hm.
  assert (Ha : a ∈ L) by (rewrite HL, two_perm; by left).
  destruct (Hcall a r Ha Hm) as (_ & _ & _ & _ & Hr & Hir).
  apply NoDup_cons in Hnd as [_ Hnd].
  assert (Hother : forall b, b ∈ L -> b <> a -> b <> r -> ident b <> ident a).
  { intros b Hb Hba Hbr Heq. destruct (Hid b a Hb Ha Heq) as [?|[Hmb|Hma]]; [done| |congruence].
    destruct (Hcall b a Hb Hmb) as (_ & _ & _ & _ & Hn & _). congruence. }
  assert (Hrest : Forall (fun b => ident b <> ident a) (l1 ++ l2 ++ l3)).
  { apply Forall_forall. intros b Hb. rewrite HL, two_perm, !NoDup_cons in Hnd.
    destruct Hnd as (Hna & Hnr & _). apply Hother.
    - rewrite HL, two_perm. by right; right.
    - intros ->. apply Hna. by right.
    - by intros ->. }
  unfold without. rewrite HL, filter_app, filter_cons_False by (by intros ?).
  rewrite filter_app, filter_cons_False by congruence.
  apply Forall_app in Hrest as [H1 [H2 H3]%Forall_app].
  by rewrite !filter_Forall_id.
Qed.

Lemma length_without L a :
  live L -> a ∈ L -> matchOf a <> None -> length L = S (S (length (without a L))).
Proof.
  intros Hv Ha Hm. destruct (matchOf a) as [r|] eqn:Hr; [|done].
  destruct (lv_call _ Hv a r Ha Hr) as (l1 & l2 & l3 & HL & _ & _).
  rewrite (without_split L l1 a l2 r l3) by done. by rewrite HL, two_perm.
Qed.

(** ** The loop computes the search *)

Variable computePartial : bool.
#[local] Arguments iterate : simpl never.

(** Iterations of the loop, numbered, with [kill] not set. *)
Inductive runs : nat -> @Search V St -> nat -> @Search V St -> Prop :=
  | runs_refl it q : runs it q it q
  | runs_step it q q1 it' q' hx :
      s_heap q !! head = Some hx -> n_next hx <> None ->
      iterate model computePartial false head it q = Next q1 ->
      runs (S it) q1 it' q' -> runs it q it' q'.

Lemma runs_trans it1 q1 it2 q2 it3 q3 :
  runs it1 q1 it2 q2 -> runs it2 q2 it3 q3 -> runs it1 q1 it3 q3.
Proof. induction 1; [done|]. intros. econstructor; eauto. Qed.

Lemma runs_loop kill it q it' q' :
  (forall i, kill i = false) -> runs it q it' q' ->
  exists k, forall fuel,
    search_loop model computePartial kill n head (k + fuel) it q
    = search_loop model computePartial kill n head fuel it' q'.
Proof.
  intros Hk. induction 1 as [it q|it q q1 it' q' hx Hh Hn Hi _ [k IH]]; [by exists 0|].
  exists (S k). intros fuel. simpl. rewrite Hh, Hk, Hi. destruct (n_next hx); [|done]. apply IH.
Qed.

(** The calls on the stack are nodes with ids in range, and so is [longest]. *)
Definition calls_ok (calls : list (nat * St)) : Prop :=
  Forall (fun c => exists x, h0 !! c.1 = Some x /\ (0 <= n_id x < Z.of_nat n)%Z) calls.

(** The heap holds the list of live nodes after [head]. *)
Record linked (h : list (node V)) L : Prop := {
  lk_seg : seg h None (head :: L) None;
  lk_data : keeps_data h0 h;
  lk_live : live L;
}.

Lemma linked_node h L a x :
  linked h L -> h0 !! a = Some x -> exists x', h !! a = Some x' /\ same_data x x'.
Proof.
  intros [_ Hk _] Hx. specialize (Hk a). rewrite Hx in Hk. destruct (h !! a) as [x'|]; [by eauto|done].
Qed.

Lemma linked_next h pre a P :
  linked h (pre ++ a :: P) -> exists x, h !! a = Some x /\ n_next x = hd_or P None.
Proof.
  intros [Hs _ _]. rewrite app_comm_cons, seg_app in Hs.
  destruct Hs as [_ (x & Hx & _ & Hn & _)]. eauto.
Qed.

Lemma linked_head h L : linked h L -> exists hx, h !! head = Some hx /\ n_next hx = hd_or L None.
Proof. intros [(x & Hx & _ & Hn & _) _ _]. eauto. Qed.

(** The state of the loop at the suffix [P] of the live list. *)
Definition at_suffix (h : list (node V)) P lin cache (calls : list (nat * St)) s
    (longest : list (option (nat * list Z))) : @Search V St :=
  mkSearch h (hd_or P None) lin cache calls s longest.

Lemma iterate_return it h pre r P lin cache calls s longest :
  linked h (pre ++ r :: P) -> matchOf r = None ->
  iterate model computePartial false head it (at_suffix h (r :: P) lin cache calls s longest) =
  match calls with
  | [] => Return false longest
  | (top, st) :: rest => or_panic (
      longest' ← (if computePartial then
                    seq ← calls_seq h calls; update_longest it seq longest
                  else Some longest);
      y ← h !! top; lin' ← bs_clear lin (Z.to_nat (n_id y));
      h' ← unlift top h; z ← h' !! top;
      Some (Next (mkSearch h' (n_next z) lin' cache rest st longest')))
  end.
Proof.
  intros Hl Hm. destruct (lv_def _ (lk_live _ _ Hl) r) as (x & Hx & _); [set_solver|].
  destruct (linked_node _ _ _ _ Hl Hx) as (x' & Hx' & _ & Hm' & _).
  unfold matchOf in Hm. rewrite Hx in Hm. simpl in Hm.
  unfold iterate, at_suffix; simpl. rewrite Hx'; simpl. rewrite <- Hm', Hm.
  by destruct calls as [|[top st] rest].
Qed.

Lemma iterate_call it h pre a P lin cache calls s longest :
  linked h (pre ++ a :: P) -> matchOf a <> None ->
  iterate model computePartial false head it (at_suffix h (a :: P) lin cache calls s longest) =
  match op_step s a with
  | None => Next (at_suffix h P lin cache calls s longest)
  | Some s' => or_panic (
      lin' ← bs_set lin (ident a);
      if cacheContains model cache (lin', s') then Some (Next (at_suffix h P lin cache calls s longest))
      else h' ← lift a h; hx ← h' !! head;
           Some (Next (mkSearch h' (n_next hx) lin' (cacheAdd cache (lin', s')) ((a, s) :: calls) s'
                         longest)))
  end.
Proof.
  intros Hl Hm. assert (Ha : a ∈ pre ++ a :: P) by set_solver.
  destruct (lv_def _ (lk_live _ _ Hl) a Ha) as (x & Hx & _).
  destruct (matchOf a) as [r|] eqn:Hr; [|done]. clear Hm.
  destruct (lv_call _ (lk_live _ _ Hl) a r Ha Hr) as (l1 & l2 & l3 & HL & _ & _).
  destruct (lv_def _ (lk_live _ _ Hl) r) as (y & Hy & _); [rewrite HL, two_perm; set_solver|].
  destruct (linked_node _ _ _ _ Hl Hx) as (x' & Hx' & Hv & Hm' & Hi).
  destruct (linked_node _ _ _ _ Hl Hy) as (y' & Hy' & Hvy & _ & _).
  destruct (linked_next _ _ _ _ Hl) as (x2 & Hx2 & Hn). rewrite Hx' in Hx2. injection Hx2 as <-.
  unfold op_step, ident. rewrite Hr. simpl. rewrite Hx, Hy.
  unfold matchOf in Hr. rewrite Hx in Hr. simpl in Hr.
  unfold iterate, at_suffix; simpl. rewrite Hx'; simpl. rewrite <- Hm', Hr, Hy'; simpl.
  rewrite Hv, Hvy, Hi. destruct (Step model s (n_value x') (n_value y')) as [[] s']; rewrite Hn; [|done].
  destruct (bs_set lin (Z.to_nat (n_id x'))) as [lin'|]; simpl; [|done].
  destruct (cacheContains model cache (lin', s')); done.
Qed.

Lemma calls_seq_ok h calls :
  keeps_data h0 h -> calls_ok calls ->
  exists seq, calls_seq h calls = Some seq /\ Forall (fun i => (0 <= i < Z.of_nat n)%Z) seq.
Proof.
  intros Hk Hc. unfold calls_seq. apply Forall_reverse in Hc.
  induction Hc as [|c l (x & Hx & Hr) Hc (seq & Heq & Hs)]; simpl; [by exists []|].
  specialize (Hk c.1). rewrite Hx in Hk. destruct (h !! c.1) as [x'|]; [|done].
  destruct Hk as (_ & _ & Hi). simpl. rewrite Heq. simpl. eexists. split; [done|].
  constructor; [by rewrite <- Hi|done].
Qed.

Lemma update_longest_ok it seq ids (longest : list (option (nat * list Z))) :
  length longest = n -> Forall (fun i => (0 <= i < Z.of_nat n)%Z) ids ->
  exists longest',
    foldl (fun acc id =>
      longest ← acc; old ← longest !! Z.to_nat id;
      match old with
      | None => Some (<[Z.to_nat id := Some (it, seq)]> longest)
      | Some (_, l) => if decide (length l < length seq)
                       then Some (<[Z.to_nat id := Some (it, seq)]> longest) else Some longest
      end) (Some longest) ids = Some longest' /\ length longest' = n.
Proof.
  intros Hl Hs. revert longest Hl. induction Hs as [|i ids Hi Hs IH]; intros longest Hl; simpl; [by eauto|].
  destruct (lookup_lt_is_Some_2 longest (Z.to_nat i)) as [old Ho]; [lia|]. rewrite Ho. simpl.
  destruct old as [[it0 l]|]; [case_decide|]; apply IH; by rewrite ?length_insert.
Qed.

(** Recording the longest linearizations does not panic. *)
Lemma longest_ok it h calls (longest : list (option (nat * list Z))) :
  keeps_data h0 h -> calls_ok calls -> length longest = n ->
  exists longest',
    (if computePartial then seq ← calls_seq h calls; update_longest it seq longest else Some longest)
    = Some longest' /\ length longest' = n.
Proof.
  intros Hk Hc Hl. destruct computePartial; [|by eauto].
  destruct (calls_seq_ok h calls Hk Hc) as (seq & -> & Hs). by apply update_longest_ok.
Qed.

(** What the loop reaches from the state [q], given what the search says: the end
    of the list with the calls found on the stack, or the first return of [L] with
    everything but the cache and [longest] as it was. *)
Definition reaches it (q : @Search V St) (h : list (node V)) L lin (calls : list (nat * St)) s
    (res : option (list nat) * @Cache St) : Prop :=
  match res with
  | (Some l, c') => exists it' h' lin' K sf lg',
      runs it q it' (at_suffix h' [] lin' c' (K ++ calls) sf lg') /\ linked h' [] /\
      K.*1 = reverse l /\ calls_ok (K ++ calls)
  | (None, c') => exists it' pre r P lg',
      runs it q it' (at_suffix h (r :: P) lin c' calls s lg') /\ L = pre ++ r :: P /\
      matchOf r = None /\ length lg' = n
  end.

Lemma reaches_step it q q1 h L lin calls s res hx :
  s_heap q !! head = Some hx -> n_next hx <> None ->
  iterate model computePartial false head it q = Next q1 ->
  reaches (S it) q1 h L lin calls s res -> reaches it q h L lin calls s res.
Proof.
  intros Hh Hn Hi. destruct res as [[l|] c']; simpl.
  - intros (it' & h' & lin' & K & sf & lg' & Hr & ? & ? & ?). exists it', h', lin', K, sf, lg'.
    split_and!; try done. by econstructor.
  - intros (it' & pre & r & P & lg' & Hr & ? & ? & ?). exists it', pre, r, P, lg'.
    split_and!; try done. by econstructor.
Qed.

Lemma reaches_runs it q it1 q1 h L lin calls s res :
  runs it q it1 q1 -> reaches it1 q1 h L lin calls s res -> reaches it q h L lin calls s res.
Proof. induction 1; [done|]. intros. eapply reaches_step; eauto. Qed.

(** Lifting a live call, and the pop that undoes it. *)
Lemma linked_lift h L a :
  linked h L -> a ∈ L -> matchOf a <> None ->
  exists h', lift a h = Some h' /\ linked h' (without a L) /\ unlift a h' = Some h /\
    length L = S (S (length (without a L))).
Proof.
  intros Hl Ha Hm. destruct (matchOf a) as [r|] eqn:Hr; [|done]. pose proof (lk_live _ _ Hl) as Hv.
  destruct (lv_call _ Hv a r Ha Hr) as (l1 & l2 & l3 & HL & _ & _).
  destruct (lv_def _ Hv a Ha) as (x & Hx & _).
  destruct (linked_node _ _ _ _ Hl Hx) as (x' & Hx' & _ & Hm' & _).
  unfold matchOf in Hr. rewrite Hx in Hr. simpl in Hr.
  pose proof (lk_seg _ _ Hl) as Hs. pose proof (lv_nodup _ Hv) as Hnd. rewrite HL in Hs, Hnd.
  destruct (lift_spec h head l1 a l2 r l3 x') as (h' & Hlift & Hs' & Hun & Hk); [done..|congruence|].
  assert (Hw : without a L = l1 ++ l2 ++ l3).
  { eapply without_split; [done|done|]. unfold matchOf. by rewrite Hx. }
  exists h'. split_and!; [done| |done|].
  - split; [by rewrite Hw| |by apply live_without].
    eapply keeps_data_trans; [by apply Hl|done].
  - rewrite Hw, HL, two_perm. done.
Qed.

Lemma op_ident L a : live L -> a ∈ L -> ident a < n.
Proof.
  intros Hv Ha. destruct (lv_def _ Hv a Ha) as (x & Hx & Hr). unfold ident. rewrite Hx. lia.
Qed.

Lemma without_ident L a b : b ∈ without a L -> ident b <> ident a.
Proof. by intros [? _]%list_elem_of_filter. Qed.

(** The state of the loop while the operations of [X] are linearized. *)
Record searching h L (X : gset nat) lin (calls : list (nat * St)) : Prop := {
  sg_linked : linked h L;
  sg_lin : represents n lin X;
  sg_new a : a ∈ L -> ident a ∉ X;
  sg_calls : calls_ok calls;
}.

(** Backtracking from a return: the state before the call [a] was linearized,
    at the node after [a]. *)
Lemma pop_step it h L X lin calls a P pre h' lin' cache s s' longest r P' pre' :
  searching h L X lin calls -> L = pre ++ a :: P -> matchOf a <> None ->
  lift a h = Some h' -> linked h' (without a L) -> unlift a h' = Some h ->
  bs_set lin (ident a) = Some lin' -> without a L = pre' ++ r :: P' -> matchOf r = None ->
  length longest = n ->
  exists longest', length longest' = n /\
    runs it (at_suffix h' (r :: P') lin' cache ((a, s) :: calls) s' longest)
      (S it) (at_suffix h P lin cache calls s longest').
Proof.
  intros [Hl Hlin Hnew Hcs] HL Hm Hlift Hl' Hun Hset Hw Hr Hlg.
  assert (Ha : a ∈ L) by (rewrite HL; set_solver).
  destruct (lv_def _ (lk_live _ _ Hl) a Ha) as (x & Hx & Hrange).
  assert (Hcs' : calls_ok ((a, s) :: calls)) by (constructor; [by eauto|done]).
  destruct (longest_ok it h' ((a, s) :: calls) longest (lk_data _ _ Hl') Hcs' Hlg)
    as (longest' & Hlong & Hlg').
  destruct (linked_node _ _ _ _ Hl' Hx) as (y & Hy & _ & _ & Hyi).
  assert (Hid : ident a = Z.to_nat (n_id y)) by (unfold ident; by rewrite Hx, Hyi).
  assert (Hin := op_ident _ _ (lk_live _ _ Hl) Ha).
  destruct (bs_set_represents n lin X (ident a) Hlin Hin) as (b & Hb & Hrb).
  rewrite Hset in Hb. injection Hb as <-.
  destruct (bs_clear_represents n lin' _ (ident a) Hrb Hin) as (lin2 & Hclear & Hr2).
  assert (lin2 = lin) as ->.
  { apply (represents_inj n lin2 lin _ X Hr2 Hlin). specialize (Hnew a Ha). set_solver. }
  pose proof Hl as Hlp. rewrite HL in Hlp. destruct (linked_next _ _ _ _ Hlp) as (z & Hz & Hn).
  exists longest'. split; [done|]. destruct (linked_head _ _ Hl') as (hx & Hhx & Hhn).
  econstructor; [exact Hhx| | |apply runs_refl].
  - rewrite Hhn, Hw. by destruct pre'.
  - rewrite Hw in Hl'. rewrite (iterate_return it h' pre') by done.
    rewrite Hlong. simpl. rewrite Hy. simpl. rewrite <- Hid, Hclear. simpl. rewrite Hun. simpl.
    rewrite Hz. simpl. by rewrite Hn.
Qed.

Definition simulates m : Prop := forall it h L X lin cache calls s longest,
  searching h L X lin calls -> length L = 2 * m -> length longest = n ->
  reaches it (at_suffix h L lin cache calls s longest) h L lin calls s (dfs m L s lin cache).

Lemma sim_explore m h L X lin calls s :
  simulates m -> searching h L X lin calls -> length L = 2 * S m ->
  forall P pre it cache longest, L = pre ++ P -> Exists (fun r => matchOf r = None) P ->
  length longest = n ->
  reaches it (at_suffix h P lin cache calls s longest) h L lin calls s
    (explore (dfs m) L s lin P cache).
Proof.
  intros Hsim Hsg Hlen. pose proof (sg_linked _ _ _ _ _ Hsg) as Hl. pose proof (lk_live _ _ Hl) as Hv.
  destruct (linked_head _ _ Hl) as (hx & Hhx & Hhn).
  assert (Hhne : n_next hx <> None) by (rewrite Hhn; by destruct L).
  induction P as [|a P IH]; intros pre it cache longest HL Hex Hlg; [by inversion Hex|]. simpl.
  assert (Ha : a ∈ L) by (rewrite HL; set_solver).
  assert (HL' : L = (pre ++ [a]) ++ P) by (by rewrite <- app_assoc).
  case_decide as Hm; [by exists it, pre, a, P, longest; split; [constructor|]|].
  assert (HexP : Exists (fun r => matchOf r = None) P) by (by inversion Hex).
  pose proof Hl as Hlp. rewrite HL in Hlp.
  pose proof (iterate_call it h pre a P lin cache calls s longest Hlp Hm) as Hit.
  destruct (op_step s a) as [s'|]; [|eapply reaches_step; [exact Hhx|done|exact Hit|by eapply IH]].
  pose proof (op_ident _ _ Hv Ha) as Hin.
  destruct (bs_set_represents n lin X (ident a) (sg_lin _ _ _ _ _ Hsg) Hin) as (lin' & Hset & Hrl).
  rewrite Hset in Hit |- *. simpl in Hit.
  destruct (cacheContains model cache (lin', s'));
    [eapply reaches_step; [exact Hhx|done|exact Hit|by eapply IH]|].
  destruct (linked_lift h L a Hl Ha Hm) as (h' & Hlift & Hl' & Hun & Hlen').
  destruct (linked_head _ _ Hl') as (hx' & Hhx' & Hhn').
  rewrite Hlift in Hit. simpl in Hit. rewrite Hhx' in Hit. simpl in Hit. rewrite Hhn' in Hit.
  assert (Hsg' : searching h' (without a L) (X ∪ {[ident a]}) lin' ((a, s) :: calls)).
  { split; [done|done| |].
    - intros b Hb. pose proof (without_ident _ _ _ Hb) as Hne. unfold without in Hb.
      apply list_elem_of_filter in Hb as [_ Hb]. pose proof (sg_new _ _ _ _ _ Hsg b Hb). set_solver.
    - constructor; [|by apply Hsg]. apply (lv_def _ Hv a Ha). }
  specialize (Hsim (S it) h' (without a L) _ lin' (cacheAdd cache (lin', s')) _ s' longest Hsg'
    ltac:(lia) Hlg).
  destruct (dfs m (without a L) s' lin' (cacheAdd cache (lin', s'))) as [[l|] c'].
  - destruct Hsim as (it' & hf & linf & K & sf & lg' & Hr & Hlf & HK & Hok).
    exists it', hf, linf, (K ++ [(a, s)]), sf, lg'. rewrite <- app_assoc. split_and!; [|done| |done].
    + simpl. econstructor; [exact Hhx|done|exact Hit|exact Hr].
    + rewrite fmap_app, reverse_cons, HK. done.
  - destruct Hsim as (it' & pre' & r & P' & lg' & Hr & Hw & Hmr & Hlg').
    destruct (pop_step it' h L X lin calls a P pre h' lin' c' s s' lg' r P' pre')
      as (lg2 & Hlg2 & Hpop); try done.
    eapply reaches_runs; [|by eapply (IH (pre ++ [a]) (S it') c' lg2)].
    econstructor; [exact Hhx|done|exact Hit|]. by eapply runs_trans.
Qed.

(** A live list that is not empty has a return. *)
Lemma live_has_return L : live L -> L <> [] -> Exists (fun r => matchOf r = None) L.
Proof.
  intros Hv Hne. destruct L as [|a L]; [done|]. destruct (matchOf a) as [r|] eqn:Hm; [|by left].
  destruct (lv_call _ Hv a r) as (l1 & l2 & l3 & HL & Hr & _); [set_solver|done|].
  rewrite HL. apply Exists_exists. exists r. split; [rewrite two_perm; set_solver|done].
Qed.

Lemma sim_dfs m : simulates m.
Proof.
  induction m as [|m IH]; intros it h L X lin cache calls s longest Hsg Hlen Hlg; simpl.
  - destruct L; [|done]. exists it, h, lin, [], s, longest.
    split_and!; [constructor|by apply Hsg|done|by apply Hsg].
  - assert (Hne : L <> []) by (by intros ->).
    pose proof (sim_explore m h L X lin calls s IH Hsg Hlen L [] it cache longest eq_refl
      (live_has_return L (lk_live _ _ (sg_linked _ _ _ _ _ Hsg)) Hne) Hlg).
    by destruct L.
Qed.
End search.
