(* ===== verification/PorcLink.v ===== *)
(** * makeLinkedEntries builds the list the search starts from

    For a well-formed history the heap of nodes, with the head node in front,
    satisfies what PorcSearch assumes of it; so [checkSingle] on such a history
    terminates without a panic and returns what the recursive search says. *)

From S2P Require Import Prelude GoLib Bitset PorcList Porcupine PorcSearch.

Section link.
Context {V : Type}.
Implicit Types (es : list (entry V)) (h : list (node V)).

(** The addresses of the nodes of a history, in its order: the last entry is
    allocated first. *)
Fixpoint addrs es : list nat :=
  match es with
  | [] => []
  | _ :: es' => length es' :: addrs es'
  end.

(** The address of the first return of [id]. *)
Fixpoint ret_addr es (id : nat) : option nat :=
  match es with
  | [] => None
  | e :: es' =>
      match e_kind e with
      | returnEntry => if decide (e_id e = id) then Some (length es') else ret_addr es' id
      | callEntry => ret_addr es' id
      end
  end.

Lemma addrs_bound es a : a ∈ addrs es -> a < length es.
Proof.
  induction es as [|e es IH]; simpl; [set_solver|]. rewrite elem_of_cons.
  intros [->|Ha]; [lia|]. specialize (IH Ha). lia.
Qed.

Lemma addrs_NoDup es : NoDup (addrs es).
Proof.
  induction es as [|e es IH]; simpl; [constructor|]. constructor; [|done].
  intros Ha%addrs_bound. lia.
Qed.

Lemma length_addrs es : length (addrs es) = length es.
Proof. induction es; simpl; auto. Qed.

(** Putting a new node in front of a list. *)
Lemma insert_root h Q nd :
  NoDup Q -> (forall a, a ∈ Q -> a < length h) -> seg h None Q None ->
  n_next nd = None -> n_prev nd = None ->
  exists h', insertBefore (length h) (hd_or Q None) (h ++ [nd]) = Some h' /\
    length h' = S (length h) /\ seg h' None (length h :: Q) None /\
    keeps_data (h ++ [nd]) h'.
Proof.
  intros Hnd Hb Hs Hn Hp. set (a := length h).
  assert (Ha : (h ++ [nd]) !! a = Some nd) by (unfold a; by rewrite list_lookup_middle).
  destruct Q as [|mk Q]; simpl.
  - exists (h ++ [nd]). split_and!; [done|rewrite length_app; simpl; lia| |apply keeps_data_refl].
    exists nd. by rewrite Ha.
  - destruct Hs as (m & Hm & Hmp & Hmn & Hs). assert (Hlt : mk < a) by (apply Hb; set_solver).
    assert (Hm' : (h ++ [nd]) !! mk = Some m) by (by apply lookup_app_l_Some).
    assert (Hmk : mk < length (h ++ [nd])) by (by eapply lookup_lt_Some).
    rewrite Hm'. simpl. rewrite (upd_some _ _ _ _ Hm'). simpl.
    set (h1 := <[mk := _]> (h ++ [nd])).
    assert (Ha1 : h1 !! a = Some nd) by (unfold h1; rewrite list_lookup_insert_ne by lia; done).
    rewrite (upd_some _ _ _ _ Ha1). simpl. rewrite Hmp. eexists. split; [done|]. split_and!.
    + rewrite length_insert. unfold h1. rewrite length_insert, length_app. simpl. lia.
    + exists (set_next (Some mk) nd). apply NoDup_cons in Hnd as [Hmq Hnd].
      rewrite list_lookup_insert_eq by (by eapply lookup_lt_Some). split_and!; try done.
      exists (set_prev (Some a) m). rewrite list_lookup_insert_ne by lia.
      unfold h1. rewrite list_lookup_insert_eq by done. split_and!; try done.
      apply seg_frame; [intros Hin; specialize (Hb a ltac:(set_solver)); unfold a in Hb; lia|].
      apply seg_frame; [done|]. by apply seg_alloc.
    + apply (keeps_data_trans _ h1); [by eapply keeps_data_insert|by eapply keeps_data_insert].
Qed.

(** The data of the node that stands for the entry [e] in front of [es]. *)
Definition node_for (e : entry V) es (x : node V) : Prop :=
  n_value x = e_value e /\ n_id x = Z.of_nat (e_id e) /\
  n_match x = match e_kind e with returnEntry => None | callEntry => ret_addr es (e_id e) end.

(** Every entry has its node. *)
Fixpoint nodes_for h es : Prop :=
  match es with
  | [] => True
  | e :: es' => (exists x, h !! length es' = Some x /\ node_for e es' x) /\ nodes_for h es'
  end.

Lemma nodes_for_keeps h h' es : keeps_data h h' -> nodes_for h es -> nodes_for h' es.
Proof.
  intros Hk. induction es as [|e es IH]; simpl; [done|]. intros [(x & Hx & Hv & Hi & Hm) Hn].
  split; [|auto]. specialize (Hk (length es)). rewrite Hx in Hk. destruct (h' !! length es) as [x'|]; [|done].
  destruct Hk as (Hv' & Hm' & Hi'). exists x'. split; [done|]. split_and!; congruence.
Qed.

Lemma nodes_for_alloc h nd es : nodes_for h es -> nodes_for (h ++ [nd]) es.
Proof.
  induction es as [|e es IH]; simpl; [done|]. intros [(x & Hx & Hn) Hr].
  split; [exists x; split; [by apply lookup_app_l_Some|done]|auto].
Qed.

Lemma makeLinkedEntries_spec es :
  exists h mt, makeLinkedEntries es = Some (h, hd_or (addrs es) None, mt) /\
    length h = length es /\ seg h None (addrs es) None /\ nodes_for h es /\
    forall id, mt !! id = ret_addr es id.
Proof.
  induction es as [|e es (h & mt & Heq & Hlen & Hs & Hn & Hmt)]; simpl.
  - exists [], ∅. split_and!; [done..|]. intros id. apply lookup_empty.
  - rewrite Heq. simpl. rewrite Hlen.
    assert (Hb : forall a, a ∈ addrs es -> a < length h) by (rewrite Hlen; apply addrs_bound).
    destruct (e_kind e) eqn:Hk.
    + destruct (insert_root h (addrs es)
        (mkNode (e_value e) (mt !! e_id e) (Z.of_nat (e_id e)) None None))
        as (h' & Hi & Hl' & Hs' & Hk'); [apply addrs_NoDup|done..|].
      rewrite Hlen in *. rewrite Hi. simpl. exists h', mt. split_and!; try done.
      * pose proof (Hk' (length es)) as Hx. rewrite list_lookup_middle in Hx by done.
        destruct (h' !! length es) as [x|]; [|done]. destruct Hx as (Hv & Hm & Hid). simpl in *.
        exists x. split; [done|]. unfold node_for. rewrite Hk. split_and!; [done..|].
        by rewrite <- Hm, Hmt.
      * eapply nodes_for_keeps; [done|]. by apply nodes_for_alloc.
    + destruct (insert_root h (addrs es) (mkNode (e_value e) None (Z.of_nat (e_id e)) None None))
        as (h' & Hi & Hl' & Hs' & Hk'); [apply addrs_NoDup|done..|].
      rewrite Hlen in *. rewrite Hi. simpl. eexists h', _. split_and!; try done.
      * pose proof (Hk' (length es)) as Hx. rewrite list_lookup_middle in Hx by done.
        destruct (h' !! length es) as [x|]; [|done]. destruct Hx as (Hv & Hm & Hid). simpl in *.
        exists x. split; [done|]. unfold node_for. by rewrite Hk.
      * eapply nodes_for_keeps; [done|]. by apply nodes_for_alloc.
      * intros id. rewrite lookup_insert. by case_decide.
Qed.

Lemma length_from_seg h p Q fuel :
  seg h p Q None -> length Q < fuel -> length_from fuel h (hd_or Q None) = Some (length Q).
Proof.
  revert p fuel. induction Q as [|x Q IH]; intros p [|fuel] Hs Hf; simpl in *; try (done || lia).
  destruct Hs as (nd & Hx & _ & Hn & Hs). rewrite Hx. simpl. rewrite Hn.
  by erewrite IH by (done || lia).
Qed.

Lemma node_length_spec h Q :
  seg h None Q None -> NoDup Q -> node_length h (hd_or Q None) = Some (length Q).
Proof.
  intros Hs Hnd. unfold node_length. eapply length_from_seg; [done|].
  assert (Hsub : Q ⊆+ seq 0 (length h)).
  { apply NoDup_submseteq; [done|]. intros a Ha. apply elem_of_seq.
    destruct (seg_lookup _ _ _ _ _ Hs Ha) as [x Hx%lookup_lt_Some]. lia. }
  apply submseteq_length in Hsub. rewrite length_seq in Hsub. lia.
Qed.

(** ** Well-formed histories *)

(** [n] operations, each with one call and one later return. *)
Record wf_history (n : nat) es : Prop := {
  wh_length : length es = 2 * n;
  wh_range i e : es !! i = Some e -> e_id e < n;
  wh_unique i j e e' : es !! i = Some e -> es !! j = Some e' -> e_id e = e_id e' ->
    e_kind e = e_kind e' -> i = j;
  wh_call i e : es !! i = Some e -> e_kind e = callEntry ->
    exists j e', i < j /\ es !! j = Some e' /\ e_kind e' = returnEntry /\ e_id e' = e_id e;
  wh_all k : k < n -> exists i e, es !! i = Some e /\ e_kind e = callEntry /\ e_id e = k;
  wh_return j e' : es !! j = Some e' -> e_kind e' = returnEntry ->
    exists i e, i < j /\ es !! i = Some e /\ e_kind e = callEntry /\ e_id e = e_id e';
}.

Definition addr es (i : nat) : nat := length es - 1 - i.

Lemma addrs_lookup es i : i < length es -> addrs es !! i = Some (addr es i).
Proof.
  unfold addr. revert i. induction es as [|e es IH]; intros [|i] Hi; simpl in *; try lia.
  - f_equal. lia.
  - rewrite IH by lia. f_equal. lia.
Qed.

Lemma elem_of_addrs es a : a ∈ addrs es <-> exists i e, es !! i = Some e /\ a = addr es i.
Proof.
  rewrite list_elem_of_lookup. split.
  - intros [i Hi]. assert (Hlt : i < length es) by (rewrite <- length_addrs; by eapply lookup_lt_Some).
    destruct (lookup_lt_is_Some_2 es i Hlt) as [e He]. exists i, e. split; [done|].
    rewrite addrs_lookup in Hi by done. congruence.
  - intros (i & e & He & ->). exists i. apply addrs_lookup. by eapply lookup_lt_Some.
Qed.

Lemma addr_inj es i j : i < length es -> j < length es -> addr es i = addr es j -> i = j.
Proof. unfold addr. lia. Qed.

Lemma nodes_for_lookup h es i e :
  nodes_for h es -> es !! i = Some e -> exists x, h !! addr es i = Some x /\ node_for e (drop (S i) es) x.
Proof.
  unfold addr. revert i. induction es as [|e0 es IH]; intros [|i] Hn Hi; simpl in *; try done.
  - injection Hi as ->. destruct Hn as [(x & Hx & Hnf) _]. exists x. rewrite drop_0.
    by rewrite !Nat.sub_0_r.
  - destruct Hn as [_ Hn]. destruct (IH i Hn Hi) as (x & Hx & Hnf). exists x.
    by replace (length es - 0 - S i) with (length es - 1 - i) by lia.
Qed.

Lemma ret_addr_some es id b :
  ret_addr es id = Some b ->
  exists j e, es !! j = Some e /\ e_kind e = returnEntry /\ e_id e = id /\ b = addr es j.
Proof.
  unfold addr. induction es as [|e es IH]; simpl; [done|]. destruct (e_kind e) eqn:Hk.
  - intros (j & e' & Hj & ? & ? & ->)%IH. exists (S j), e'. split_and!; try done.
    apply lookup_lt_Some in Hj. lia.
  - case_decide as Hid.
    + intros [= <-]. exists 0, e. split_and!; try done. lia.
    + intros (j & e' & Hj & ? & ? & ->)%IH. exists (S j), e'. split_and!; try done.
      apply lookup_lt_Some in Hj. lia.
Qed.

Lemma ret_addr_none es id :
  ret_addr es id = None -> forall j e, es !! j = Some e -> e_kind e = returnEntry -> e_id e <> id.
Proof.
  induction es as [|e0 es IH]; simpl; [done|]. intros Hr [|j] e; simpl.
  - intros [= <-] Hk. rewrite Hk in Hr. by case_decide.
  - apply IH. destruct (e_kind e0); [done|]. by case_decide.
Qed.

Lemma list_split_two {A} (l : list A) i j x y :
  i < j -> l !! i = Some x -> l !! j = Some y -> exists l1 l2 l3, l = l1 ++ x :: l2 ++ y :: l3.
Proof.
  intros Hlt Hi Hj. apply list_elem_of_split_length in Hi as (l1 & l2 & -> & ->).
  rewrite lookup_app_r in Hj by lia. destruct (j - length l1) as [|k] eqn:Hk; [lia|]. simpl in Hj.
  apply list_elem_of_split_length in Hj as (l3 & l4 & -> & _). by exists l1, l3, l4.
Qed.

(** ** The nodes of a well-formed history *)

Section wf.
Context (n : nat) (es : list (entry V)) (h : list (node V)).
Hypothesis (Hwf : wf_history n es) (Hn : nodes_for h es).

Lemma ident_addr i e : es !! i = Some e -> ident h (addr es i) = e_id e.
Proof using Hn.
  intros Hi. destruct (nodes_for_lookup h es i e Hn Hi) as (x & Hx & _ & Hid & _).
  unfold ident. rewrite Hx, Hid. lia.
Qed.

Lemma match_return i e :
  es !! i = Some e -> e_kind e = returnEntry -> matchOf h (addr es i) = None.
Proof using Hn.
  intros Hi Hk. destruct (nodes_for_lookup h es i e Hn Hi) as (x & Hx & _ & _ & Hm).
  unfold matchOf. rewrite Hx. simpl. by rewrite Hm, Hk.
Qed.

Lemma match_call i e :
  es !! i = Some e -> e_kind e = callEntry ->
  exists j e', i < j /\ es !! j = Some e' /\ e_kind e' = returnEntry /\ e_id e' = e_id e /\
    matchOf h (addr es i) = Some (addr es j).
Proof using Hn Hwf.
  intros Hi Hk. destruct (nodes_for_lookup h es i e Hn Hi) as (x & Hx & _ & _ & Hm).
  rewrite Hk in Hm. assert (Hlt := lookup_lt_Some _ _ _ Hi).
  destruct (ret_addr (drop (S i) es) (e_id e)) as [b|] eqn:Hr.
  - apply ret_addr_some in Hr as (j & e' & Hj & Hk' & Hid & ->). rewrite lookup_drop in Hj.
    exists (S i + j), e'. split_and!; [lia|done..|]. unfold matchOf. rewrite Hx. simpl. rewrite Hm.
    f_equal. unfold addr. rewrite length_drop. assert (Hlj := lookup_lt_Some _ _ _ Hj). lia.
  - destruct (wh_call _ _ Hwf i e Hi Hk) as (j & e' & Hij & Hj & Hk' & Hid).
    exfalso. apply (ret_addr_none _ _ Hr (j - S i) e'); [|done..].
    rewrite lookup_drop. by replace (S i + (j - S i)) with j by lia.
Qed.

(** A node is a call exactly when its entry is. *)
Lemma match_kind i e : es !! i = Some e -> e_kind e = callEntry <-> matchOf h (addr es i) <> None.
Proof using Hn Hwf.
  intros Hi. destruct (e_kind e) eqn:Hk.
  - split; [|done]. destruct (match_call i e Hi Hk) as (j & e' & _ & _ & _ & _ & ->). done.
  - rewrite (match_return i e Hi Hk). split; [done|]. by intros [].
Qed.

Lemma live_addrs head : length es <= head -> live h n head (addrs es).
Proof using Hn Hwf.
  intros Hh. split.
  - apply NoDup_cons. split; [intros Ha%addrs_bound; lia|apply addrs_NoDup].
  - intros a (i & e & Hi & ->)%elem_of_addrs.
    destruct (nodes_for_lookup h es i e Hn Hi) as (x & Hx & _ & Hid & _). exists x.
    split; [done|]. rewrite Hid. pose proof (wh_range _ _ Hwf i e Hi). lia.
  - intros a r (i & e & Hi & ->)%elem_of_addrs Hm.
    assert (Hk : e_kind e = callEntry) by (apply (match_kind i e Hi); by rewrite Hm).
    destruct (match_call i e Hi Hk) as (j & e' & Hij & Hj & Hk' & Hid & Hm').
    rewrite Hm in Hm'. injection Hm' as ->.
    destruct (list_split_two (addrs es) i j (addr es i) (addr es j) Hij) as (l1 & l2 & l3 & HL).
    { apply addrs_lookup. by eapply lookup_lt_Some. }
    { apply addrs_lookup. by eapply lookup_lt_Some. }
    exists l1, l2, l3. split_and!; [done|by eapply match_return|].
    by rewrite (ident_addr j e'), (ident_addr i e).
  - intros r (j & e' & Hj & ->)%elem_of_addrs Hm.
    assert (Hk : e_kind e' = returnEntry).
    { destruct (e_kind e') eqn:Hk; [|done]. by apply (match_kind j e' Hj) in Hk. }
    destruct (wh_return _ _ Hwf j e' Hj Hk) as (i & e & Hij & Hi & Hki & Hid).
    destruct (match_call i e Hi Hki) as (j2 & e2 & _ & Hj2 & Hk2 & Hid2 & Hm2).
    assert (j2 = j) as -> by (eapply (wh_unique _ _ Hwf j2 j e2 e'); congruence).
    exists (addr es i). split_and!; [apply elem_of_addrs; eauto|done|].
    by rewrite (ident_addr i e), (ident_addr j e').
  - intros a b (i & e & Hi & ->)%elem_of_addrs (j & e' & Hj & ->)%elem_of_addrs.
    rewrite (ident_addr i e), (ident_addr j e') by done. intros Hid.
    destruct (e_kind e) eqn:Hk, (e_kind e') eqn:Hk'.
    + left. f_equal. eapply (wh_unique _ _ Hwf i j e e'); congruence.
    + right. left. destruct (match_call i e Hi Hk) as (j2 & e2 & _ & Hj2 & Hk2 & Hid2 & ->).
      do 2 f_equal. eapply (wh_unique _ _ Hwf j2 j e2 e'); congruence.
    + right. right. destruct (match_call j e' Hj Hk') as (j2 & e2 & _ & Hj2 & Hk2 & Hid2 & ->).
      do 2 f_equal. eapply (wh_unique _ _ Hwf j2 i e2 e); congruence.
    + left. f_equal. eapply (wh_unique _ _ Hwf i j e e'); congruence.
Qed.
End wf.
End link.

(** ** checkSingle computes the recursive search *)

Section checkSingle.
Context {V St : Type}.
Variables (nilV : V) (model : FullModel V St).

(** The heap at the start of the loop. *)
Lemma start_heap n (es : list (entry V)) :
  wf_history n es ->
  exists h1, makeLinkedEntries es ≫= (fun '(h, root, _) =>
      len ← node_length h root;
      h1 ← insertBefore (length h) root (h ++ [mkNode nilV None (-1)%Z None None]);
      Some (h1, root, len / 2, length h))
    = Some (h1, hd_or (addrs es) None, n, length es) /\
    nodes_for h1 es /\ linked h1 n (length es) h1 (addrs es) /\ length h1 = S (length es) /\
    exists y, h1 !! length es = Some y /\ n_match y = None.
Proof.
  intros Hwf. destruct (makeLinkedEntries_spec es) as (h & mt & Heq & Hlen & Hs & Hn & _).
  rewrite Heq. cbn [mbind option_bind]. rewrite (node_length_spec h (addrs es)) by (done || apply addrs_NoDup).
  rewrite length_addrs. cbn [mbind option_bind].
  destruct (insert_root h (addrs es) (mkNode nilV None (-1)%Z None None))
    as (h1 & Hi & Hl1 & Hs1 & Hk1); [apply addrs_NoDup|rewrite Hlen; apply addrs_bound|done..|].
  rewrite Hi. cbn [mbind option_bind]. exists h1. rewrite Hlen in *.
  assert (Hn1 : nodes_for h1 es) by (eapply nodes_for_keeps; [done|by apply nodes_for_alloc]).
  split_and!; [|done| |done|].
  - assert (Hd : length es / 2 = n)
      by (rewrite (wh_length _ _ Hwf), Nat.mul_comm; by apply Nat.div_mul).
    by rewrite Hd.
  - split; [done|apply keeps_data_refl|]. by apply live_addrs.
  - specialize (Hk1 (length es)). rewrite list_lookup_middle in Hk1 by done.
    destruct (h1 !! length es) as [y|]; [|done]. destruct Hk1 as (_ & Hm & _). by exists y.
Qed.

Lemma calls_seq_data (h h' : list (node V)) (K : list (nat * St)) l :
  keeps_data h h' -> reverse K.*1 = l ->
  calls_seq h' K = mapM (fun a => n_id <$> (h !! a)) l.
Proof.
  intros Hk <-. unfold calls_seq. rewrite <- fmap_reverse. induction (reverse K) as [|c l IH]; [done|].
  simpl. specialize (Hk c.1). destruct (h !! c.1), (h' !! c.1); simpl in *; try done.
  destruct Hk as (_ & _ & ->). by rewrite IH.
Qed.

(** What [checkSingle] returns for the outcome of the search. *)
Lemma checkSingle_dfs n es computePartial kill :
  wf_history n es -> (forall i, kill i = false) ->
  exists h1, nodes_for h1 es /\ live h1 n (length es) (addrs es) /\
    exists fuel0, forall fuel, fuel0 <= fuel ->
    match (dfs model h1 n (addrs es) (Init model) (newBitset n) ∅).1 with
    | Some l => exists it seq, mapM (fun a => n_id <$> (h1 !! a)) l = Some seq /\
        checkSingle nilV model es computePartial kill fuel = Returned true (replicate n (Some (it, seq)))
    | None => exists longest,
        checkSingle nilV model es computePartial kill fuel = Returned false longest
    end.
Proof.
  intros Hwf Hk. destruct (start_heap n es Hwf) as (h1 & Heq & Hn1 & Hl1 & _).
  exists h1. split; [done|]. split; [by apply Hl1|].
  assert (Hsg : searching (St := St) h1 n (length es) h1 (addrs es) ∅ (newBitset n) []).
  { split; [done|apply newBitset_represents|set_solver|constructor]. }
  pose proof (sim_dfs model h1 n (length es) computePartial n 0 h1 (addrs es) ∅ (newBitset n) ∅ []
    (Init model) (replicate n None) Hsg) as Hsim.
  specialize (Hsim ltac:(rewrite length_addrs; apply Hwf) (length_replicate _ _)).
  unfold checkSingle. rewrite Heq.
  destruct (dfs model h1 n (addrs es) (Init model) (newBitset n) ∅) as [[l|] c']; simpl in Hsim |- *.
  - destruct Hsim as (it' & h' & lin' & K & sf & lg' & Hr & Hl' & HK & Hok).
    destruct (runs_loop model n (length es) computePartial kill _ _ _ _ Hk Hr) as [k Hloop].
    destruct (linked_head _ _ _ _ _ Hl') as (hx & Hhx & Hhn).
    destruct (calls_seq_ok h1 n h' _ (lk_data _ _ _ _ _ Hl') Hok) as (seq & Hseq & _).
    exists (S k). intros fuel Hf. exists it', seq. split.
    + rewrite app_nil_r in Hseq. rewrite <- Hseq. symmetry.
      apply calls_seq_data; [by apply Hl'|by rewrite HK, reverse_involutive].
    + replace fuel with (k + S (fuel - S k)) by lia. rewrite Hloop. simpl.
      by rewrite Hhx, Hhn, Hseq.
  - destruct Hsim as (it' & pre & r & P & lg' & Hr & HL & Hm & Hlg').
    destruct (runs_loop model n (length es) computePartial kill _ _ _ _ Hk Hr) as [k Hloop].
    exists (S k). intros fuel Hf. exists lg'.
    replace fuel with (k + S (fuel - S k)) by lia. rewrite Hloop.
    destruct (linked_head _ _ _ _ _ Hl1) as (hx & Hhx & Hhn). simpl. rewrite Hhx, Hhn, HL.
    rewrite HL in Hl1. rewrite Hk.
    pose proof (iterate_return model h1 n (length es) computePartial it' h1 pre r P (newBitset n) c' []
      (Init model) lg' Hl1 Hm) as Hit.
    destruct (hd_or (pre ++ r :: P) None) eqn:Hhd; [|by destruct pre]. by rewrite Hit.
Qed.
End checkSingle.
