(* ===== verification/PorcCorrect.v ===== *)
(** * The depth-first search decides linearizability

    [linearizes L s l]: from the model state [s], the operations of the live list
    [L] can take effect in the order [l], each while no other live operation has
    already returned. The search of PorcSearch finds such an order exactly when
    there is one; the cache does not lose any. *)

From S2P Require Import Prelude GoLib Bitset PorcList Porcupine PorcSearch.

(** What the checker relies on of [Equal]: equal states cannot be told apart by
    [Step]. *)
Class EqualSound {V St} (model : FullModel V St) : Prop :=
  equal_step (s t : St) (i o : V) : Equal model s t = true ->
    (Step model s i o).1 = (Step model t i o).1 /\
    ((Step model s i o).1 = true -> Equal model (Step model s i o).2 (Step model t i o).2 = true).

Section correct.
Context {V St : Type}.
Variable model : FullModel V St.
Variable h0 : list (node V).
Variables n head : nat.

Abbreviation matchOf := (matchOf h0).
Abbreviation ident := (ident h0).
Abbreviation op_step := (op_step model h0).
Abbreviation without := (without h0).
Abbreviation live := (live h0 n head).

Implicit Types (L P : list nat) (a r : nat) (s : St) (lin : list Z) (cache : @Cache St).

Definition is_call a : Prop := matchOf a <> None.

Inductive linearizes : list nat -> St -> list nat -> Prop :=
  | lin_nil s : linearizes [] s []
  | lin_cons pre a post s s' l :
      Forall is_call pre -> is_call a -> op_step s a = Some s' ->
      linearizes (without a (pre ++ a :: post)) s' l -> linearizes (pre ++ a :: post) s (a :: l).

(** ** Soundness *)

Lemma explore_sound rec L s lin P pre cache l c' :
  (forall L' s1 lin' c1 l1 c2, rec L' s1 lin' c1 = (Some l1, c2) -> linearizes L' s1 l1) ->
  L = pre ++ P -> Forall is_call pre ->
  explore model h0 rec L s lin P cache = (Some l, c') -> linearizes L s l.
Proof.
  intros Hrec. revert pre cache. induction P as [|a P IH]; intros pre cache HL Hpre; simpl; [done|].
  case_decide as Hm; [done|].
  assert (HL' : L = (pre ++ [a]) ++ P) by (by rewrite <- app_assoc).
  assert (Hpre' : Forall is_call (pre ++ [a])) by (by apply Forall_app_2, Forall_singleton).
  destruct (op_step s a) as [s'|] eqn:Hs; [|by eapply IH].
  destruct (bs_set lin (ident a)) as [lin'|]; [|by eapply IH].
  destruct (cacheContains _ _ _); [by eapply IH|].
  destruct (rec _ _ _ _) as [[l1|] c1] eqn:Hr; [|by eapply IH].
  intros [= <- <-]. apply Hrec in Hr. rewrite HL in Hr |- *. by econstructor.
Qed.

Lemma dfs_sound m L s lin cache l c' :
  dfs model h0 m L s lin cache = (Some l, c') -> linearizes L s l.
Proof.
  revert L s lin cache l c'. induction m as [|m IH]; intros L s lin cache l c' Hd.
  - destruct L; simpl in Hd; [|done]. injection Hd as <- <-. constructor.
  - destruct L as [|a L]; cbn [dfs] in Hd.
    + injection Hd as <- <-. constructor.
    + by eapply (explore_sound _ (a :: L) s lin (a :: L) []) in Hd.
Qed.

(** ** Completeness *)

Context `{!EqualSound model}.

Lemma op_step_equal s t a s' :
  Equal model s t = true -> op_step s a = Some s' ->
  exists t', op_step t a = Some t' /\ Equal model s' t' = true.
Proof.
  intros He. unfold PorcSearch.op_step. destruct (h0 !! a) as [x|]; [|done].
  destruct (_ ≫= _) as [y|]; [|done]. pose proof (equal_step s t (n_value x) (n_value y) He) as [H1 H2].
  destruct (Step model s _ _) as [ok s1], (Step model t _ _) as [ok' t1]. simpl in *. subst ok'.
  destruct ok; [|done]. intros [= <-]. eexists. split; [done|]. by apply H2.
Qed.

Lemma linearizes_equal L s t l :
  Equal model s t = true -> linearizes L s l -> linearizes L t l.
Proof.
  intros He Hl. revert t He. induction Hl as [s|pre a post s s' l Hpre Ha Hs Hl IH]; intros t He; [constructor|].
  destruct (op_step_equal _ _ _ _ He Hs) as (t' & Ht & He'). econstructor; eauto.
Qed.

(** The nodes of the whole history, and those live when [X] is linearized. *)
Variable L0 : list nat.
Hypothesis Hlive : live L0.

Definition live_of (X : gset nat) : list nat := filter (fun b => ident b ∉ X) L0.

Lemma without_live_of a X : without a (live_of X) = live_of (X ∪ {[ident a]}).
Proof.
  unfold PorcSearch.without, live_of. rewrite list_filter_filter. apply list_filter_iff.
  intros b. set_solver.
Qed.

Definition in_cache cache (e : list Z * St) : Prop := exists k l, cache !! k = Some l /\ e ∈ l.

(** No order completes the configuration [e]. *)
Definition dead (e : list Z * St) : Prop :=
  forall X l, represents n e.1 X -> ~ linearizes (live_of X) e.2 l.

(** A configuration of the cache is dead, or has at most [k] operations. *)
Definition cache_inv k cache : Prop :=
  forall e, in_cache cache e -> dead e \/ exists X, represents n e.1 X /\ size X <= k.

Lemma in_cacheAdd cache e e' : in_cache (cacheAdd cache e) e' -> in_cache cache e' \/ e' = e.
Proof.
  unfold cacheAdd, in_cache, Cache in *. intros (k & l & Hk & He). rewrite lookup_insert in Hk. case_decide as Hd.
  - injection Hk as <-. apply elem_of_app in He as [He|He%list_elem_of_singleton]; [|by right].
    left. destruct (cache !! bs_hash e.1) as [l|] eqn:Hl; simpl in He; [|set_solver]. by exists (bs_hash e.1), l.
  - left. by exists k, l.
Qed.

Lemma cacheContains_in cache e :
  cacheContains model cache e = true ->
  exists st, in_cache cache (e.1, st) /\ Equal model e.2 st = true.
Proof.
  unfold cacheContains. rewrite existsb_exists. intros ([b st] & Hin & Hb).
  apply andb_true_iff in Hb as [Hb He]. apply bs_equals_eq in Hb. simpl in *. subst b.
  apply list_elem_of_In in Hin. exists st. split; [|done].
  destruct (cache !! bs_hash e.1) as [l|] eqn:Hl; simpl in Hin; [|set_solver]. by exists (bs_hash e.1), l.
Qed.

(** A hit in the cache at a state with [k] operations is a dead end. *)
Lemma cache_hit X k cache lin s l :
  cache_inv k cache -> represents n lin X -> k < size X ->
  cacheContains model cache (lin, s) = true -> ~ linearizes (live_of X) s l.
Proof.
  intros Hinv Hr Hk (st & Hin & He)%cacheContains_in Hl. simpl in *.
  destruct (Hinv _ Hin) as [Hd|(X' & Hr' & Hsz)].
  - apply (Hd X l Hr). simpl. by eapply linearizes_equal.
  - simpl in Hr'. rewrite (proj1 (represents_inj n lin lin X X' Hr Hr') eq_refl) in Hk. lia.
Qed.

Lemma dead_config X lin s :
  represents n lin X -> (forall l, ~ linearizes (live_of X) s l) -> dead (lin, s).
Proof.
  intros Hr Hno X' l Hr'. simpl in *.
  rewrite <- (proj1 (represents_inj n lin lin X X' Hr Hr') eq_refl). apply Hno.
Qed.

(** What a search at [X] that finds nothing has established. *)
Definition refuted (X : gset nat) s (c c' : @Cache St) : Prop :=
  (forall l, ~ linearizes (live_of X) s l) /\ forall e, in_cache c' e -> in_cache c e \/ dead e.

Definition complete_at m : Prop := forall X s lin cache c',
  length (live_of X) = 2 * m -> represents n lin X -> cache_inv (size X) cache ->
  dfs model h0 m (live_of X) s lin cache = (None, c') -> refuted X s cache c'.

(** The calls of [P] before its first return lead nowhere. *)
Definition hopeless (X : gset nat) s P : Prop := forall Pa a Pb s' l,
  P = Pa ++ a :: Pb -> Forall is_call Pa -> is_call a -> op_step s a = Some s' ->
  ~ linearizes (live_of (X ∪ {[ident a]})) s' l.

Lemma hopeless_cons X s a P :
  (is_call a -> forall s' l, op_step s a = Some s' -> ~ linearizes (live_of (X ∪ {[ident a]})) s' l) ->
  (is_call a -> hopeless X s P) -> hopeless X s (a :: P).
Proof.
  intros Ha HP [|b Pa] c Pb s' l Heq HPa Hc; simplify_eq/=; [by apply Ha|].
  inversion_clear HPa. by eapply HP.
Qed.

Lemma cache_inv_weaken k cache c' :
  cache_inv k cache -> (forall e, in_cache c' e -> in_cache cache e \/ dead e) -> cache_inv k c'.
Proof. intros Hi Hc e [He|Hd]%Hc; [by apply Hi|by left]. Qed.

Lemma live_of_live X : live (live_of X).
Proof. exact (live_filter h0 n head (fun i => i ∉ X) L0 Hlive). Qed.

Lemma live_id X a : a ∈ live_of X -> (ident a ∉ X) /\ ident a < n.
Proof.
  intros [Hx Ha]%list_elem_of_filter. split; [done|]. by eapply op_ident.
Qed.

(** The cache and the configuration pushed for the call [a]. *)
Lemma cache_inv_push X a lin' s' cache :
  cache_inv (size X) cache -> ident a ∉ X -> represents n lin' (X ∪ {[ident a]}) ->
  cache_inv (size (X ∪ {[ident a]})) (cacheAdd cache (lin', s')).
Proof.
  intros Hi Ha Hr e [He| ->]%in_cacheAdd; [|right; by eexists].
  destruct (Hi e He) as [|(X' & ? & ?)]; [by left|right]. exists X'. split; [done|].
  rewrite size_union_alt. lia.
Qed.

Lemma explore_complete m X s lin :
  complete_at m -> length (live_of X) = 2 * S m -> represents n lin X ->
  forall P pre cache c', live_of X = pre ++ P -> cache_inv (size X) cache ->
  explore model h0 (dfs model h0 m) (live_of X) s lin P cache = (None, c') ->
  hopeless X s P /\ forall e, in_cache c' e -> in_cache cache e \/ dead e.
Proof.
  intros Hm Hlen Hr. induction P as [|a P IH]; intros pre cache c' HL Hinv; simpl.
  { intros [= <-]. split; [by intros [] ? ? ? ?|auto]. }
  assert (Ha : a ∈ live_of X) by (rewrite HL; set_solver).
  destruct (live_id X a Ha) as [Hax Hn].
  assert (HL' : live_of X = (pre ++ [a]) ++ P) by (by rewrite <- app_assoc).
  case_decide as Hc.
  { intros [= <-]. split; [apply hopeless_cons; by intros []|auto]. }
  destruct (bs_set_represents n lin X (ident a) Hr Hn) as (lin' & Hset & Hr').
  rewrite Hset. assert (Hsz : size X < size (X ∪ {[ident a]}))
    by (rewrite size_union, size_singleton by set_solver; lia).
  destruct (op_step s a) as [s'|] eqn:Hs.
  2: { intros He. destruct (IH _ _ _ HL' Hinv He) as [Hh Hc']. split; [|done].
       apply hopeless_cons; [|done]. congruence. }
  destruct (cacheContains model cache (lin', s')) eqn:Hhit.
  { intros He. destruct (IH _ _ _ HL' Hinv He) as [Hh Hc']. split; [|done].
    apply hopeless_cons; [|done]. intros _ s1 l Hs1. rewrite Hs in Hs1. injection Hs1 as <-.
    by eapply cache_hit. }
  destruct (dfs model h0 m _ _ _ _) as [[l1|] c1] eqn:Hd; [done|]. intros He.
  rewrite without_live_of in Hd.
  destruct (Hm (X ∪ {[ident a]}) s' lin' (cacheAdd cache (lin', s')) c1) as [Hno Hcs];
    [|done|by apply cache_inv_push|exact Hd|].
  { rewrite <- without_live_of. pose proof (length_without _ _ _ _ _ (live_of_live X) Ha Hc). lia. }
  assert (Hc1 : forall e, in_cache c1 e -> in_cache cache e \/ dead e).
  { intros e [[|Heq]%in_cacheAdd|]%Hcs; [by left| |by right]. subst e. right. by eapply dead_config. }
  destruct (IH _ _ _ HL' (cache_inv_weaken _ _ _ Hinv Hc1) He) as [Hh Hc']. split.
  - apply hopeless_cons; [|done]. intros _ s1 l Hs1. rewrite Hs in Hs1. injection Hs1 as <-. apply Hno.
  - intros e [He'|]%Hc'; [by apply Hc1|by right].
Qed.

Lemma dfs_complete m : complete_at m.
Proof.
  induction m as [|m IH]; intros X s lin cache c' Hlen Hr Hinv Hd.
  - destruct (live_of X); [done|]. simpl in Hlen. lia.
  - destruct (explore_complete m X s lin IH Hlen Hr (live_of X) [] cache c') as [Hh Hc];
      [done|done|by destruct (live_of X)|].
    split; [|done]. intros l Hl. remember (live_of X) as L eqn:HL.
    destruct Hl as [s|pre a post s s' l Hpre Ha Hs Hl]; [simpl in Hlen; lia|].
    rewrite HL, without_live_of in Hl. by eapply Hh.
Qed.

(** ** The search decides *)

Lemma dfs_decides m s lin :
  length L0 = 2 * m -> represents n lin ∅ ->
  match (dfs model h0 m L0 s lin ∅).1 with
  | Some l => linearizes L0 s l
  | None => forall l, ~ linearizes L0 s l
  end.
Proof.
  intros Hlen Hr. destruct (dfs model h0 m L0 s lin ∅) as [[l|] c'] eqn:Hd; simpl.
  - by eapply dfs_sound.
  - assert (H0 : live_of ∅ = L0) by (unfold live_of; apply filter_Forall_id, Forall_true; set_solver).
    rewrite <- H0 in Hd, Hlen |- *. eapply dfs_complete; [done|done| |done].
    intros e (k & l & Hk & _). unfold Cache in Hk. by rewrite lookup_empty in Hk.
Qed.
End correct.
