(* ===== verification/PorcLinear.v ===== *)
(** * Linearizations as orders of operations

    The step-by-step definition of a linearization in PorcCorrect amounts to the
    usual one: an order of all the calls that the model accepts and in which no
    call comes before one that had returned when it was made. *)

From S2P Require Import Prelude GoLib Bitset PorcList Porcupine PorcSearch PorcCorrect.

(** [x] occurs in [l] and [y] after it. *)
Fixpoint precedes {A} (l : list A) (x y : A) : Prop :=
  match l with
  | [] => False
  | z :: l => (z = x /\ y ∈ l) \/ precedes l x y
  end.

Section precedes.
Context {A : Type}.
Implicit Types l : list A.

Lemma precedes_elem l x y : precedes l x y -> x ∈ l /\ y ∈ l.
Proof. induction l as [|z l IH]; simpl; [done|]. intros [[-> Hy]|Hp]; set_solver. Qed.

Lemma precedes_app l1 l2 x y :
  precedes (l1 ++ l2) x y <-> precedes l1 x y \/ precedes l2 x y \/ (x ∈ l1 /\ y ∈ l2).
Proof.
  induction l1 as [|z l1 IH]; simpl; [set_solver|]. rewrite IH, elem_of_app, elem_of_cons.
  intuition congruence.
Qed.

Lemma precedes_filter (Q : A -> Prop) `{!forall x, Decision (Q x)} l x y :
  precedes (filter Q l) x y <-> Q x /\ Q y /\ precedes l x y.
Proof.
  induction l as [|z l IH]; simpl; [tauto|]. rewrite filter_cons. case_decide as Hz; simpl;
    rewrite IH, ?list_elem_of_filter.
  - split; [intros [(-> & ? & ?)|?]; tauto|]. intros (Hx & Hy & [[-> ?]|?]); tauto.
  - split; [tauto|]. intros (Hx & Hy & [[-> ?]|?]); tauto.
Qed.

Lemma precedes_lookup l x y :
  precedes l x y <-> exists i j, i < j /\ l !! i = Some x /\ l !! j = Some y.
Proof.
  induction l as [|z l IH]; simpl; [split; [done|intros (? & ? & _ & ? & _); done]|]. rewrite IH. split.
  - intros [[-> [j Hj]%list_elem_of_lookup]|(i & j & Hij & Hi & Hj)].
    + exists 0, (S j). split_and!; [lia|done..].
    + exists (S i), (S j). split_and!; [lia|done..].
  - intros ([|i] & [|j] & Hij & Hi & Hj); try lia; simpl in *.
    + left. injection Hi as ->. split; [done|]. apply list_elem_of_lookup. eauto.
    + right. exists i, j. split_and!; [lia|done..].
Qed.

Lemma precedes_asym l x y : NoDup l -> precedes l x y -> precedes l y x -> False.
Proof.
  induction 1 as [|z l Hz Hnd IH]; simpl; [done|].
  intros [[-> Hy]|Hp] [[-> Hx]|Hp']; [done| | |auto].
  - by apply precedes_elem in Hp' as [_ ?].
  - by apply precedes_elem in Hp as [_ ?].
Qed.

Lemma precedes_fmap {B} (f : A -> B) l x y : precedes l x y -> precedes (f <$> l) (f x) (f y).
Proof.
  induction l as [|z l IH]; simpl; [done|]. intros [[-> Hy]|Hp]; [left|right; auto].
  split; [done|]. by apply list_elem_of_fmap_2.
Qed.

Lemma precedes_fmap_inv {B} (f : A -> B) l u v :
  precedes (f <$> l) u v -> exists x y, u = f x /\ v = f y /\ precedes l x y.
Proof.
  induction l as [|z l IH]; simpl; [done|]. intros [[<- (y & -> & Hy)%list_elem_of_fmap]|Hp].
  - exists z, y. auto.
  - destruct (IH Hp) as (x & y & -> & -> & ?). exists x, y. auto.
Qed.
End precedes.

Section linear.
Context {V St : Type}.
Variable model : FullModel V St.
Variable h0 : list (node V).
Variables n head : nat.

Abbreviation matchOf := (matchOf h0).
Abbreviation ident := (ident h0).
Abbreviation op_step := (op_step model h0).
Abbreviation without := (without h0).
Abbreviation live := (live h0 n head).
Abbreviation is_call := (is_call h0).
Abbreviation linearizes := (linearizes model h0).

Implicit Types (L l : list nat) (a b r : nat) (s : St).

#[export] Instance is_call_dec a : Decision (is_call a).
Proof. unfold PorcCorrect.is_call. apply _. Defined.

Definition calls_of L : list nat := filter is_call L.

(** The model accepts the operations in the order [l]. *)
Fixpoint accepts s l : Prop :=
  match l with
  | [] => True
  | a :: l => exists s', op_step s a = Some s' /\ accepts s' l
  end.

(** No operation of [l] comes before one that had returned when it was called. *)
Definition real_time L l : Prop :=
  forall a b r, precedes l a b -> matchOf b = Some r -> ~ precedes L r a.

Lemma calls_without L a : calls_of (without a L) = filter (fun b => ident b <> ident a) (calls_of L).
Proof.
  unfold calls_of, PorcSearch.without. rewrite !list_filter_filter. apply list_filter_iff. tauto.
Qed.

Lemma calls_ident L a b : live L -> a ∈ calls_of L -> b ∈ calls_of L -> ident a = ident b -> a = b.
Proof.
  intros Hv [Ha HaL]%list_elem_of_filter [Hb HbL]%list_elem_of_filter Hi.
  destruct (lv_id _ _ _ _ Hv a b HaL HbL Hi) as [|[Hm|Hm]]; [done|..].
  - destruct (lv_call _ _ _ _ Hv a b HaL Hm) as (_ & _ & _ & _ & Hn & _). by destruct Hb.
  - destruct (lv_call _ _ _ _ Hv b a HbL Hm) as (_ & _ & _ & _ & Hn & _). by destruct Ha.
Qed.

(** Removing an operation removes its call. *)
Lemma calls_without_perm L a :
  live L -> a ∈ calls_of L -> calls_of L ≡ₚ a :: calls_of (without a L).
Proof.
  intros Hv Ha. rewrite calls_without.
  assert (Hnd : NoDup (calls_of L))
    by (apply NoDup_filter; pose proof (lv_nodup _ _ _ _ Hv) as H; by inversion H).
  apply NoDup_Permutation; [done| |].
  - constructor; [|by apply NoDup_filter]. by intros [? _]%list_elem_of_filter.
  - intros b. rewrite elem_of_cons, list_elem_of_filter. split; [|by intros [->|[_ ?]]].
    intros Hb. destruct (decide (b = a)) as [|Hne]; [by left|right]. split; [|done].
    intros Hi. apply Hne. by eapply calls_ident.
Qed.

Lemma linearizes_calls L s l : live L -> linearizes L s l -> l ≡ₚ calls_of L.
Proof.
  intros Hv Hl. induction Hl as [s|pre a post s s' l Hpre Ha Hs Hl IH]; [done|].
  rewrite (calls_without_perm _ a Hv), IH; [done|by apply live_without|].
  apply list_elem_of_filter. split; [done|set_solver].
Qed.

Lemma linearizes_accepts L s l : linearizes L s l -> accepts s l.
Proof. induction 1; simpl; eauto. Qed.

Lemma linearizes_real_time L s l : live L -> linearizes L s l -> real_time L l.
Proof.
  intros Hv Hl. induction Hl as [s|pre a post s s' l Hpre Ha Hs Hl IH]; [by intros ? ? ?|].
  pose proof (live_without _ _ _ a _ Hv) as Hv'. specialize (IH Hv').
  pose proof (linearizes_calls _ _ _ Hv' Hl) as Hperm. set (L := pre ++ a :: post) in *.
  assert (Hin : forall b, b ∈ l -> ident b <> ident a /\ b ∈ L).
  { intros b. rewrite Hperm. intros [_ [? ?]%list_elem_of_filter]%list_elem_of_filter. done. }
  intros x b r Hp Hm Hr. destruct Hp as [[<- Hb]|Hp].
  - destruct (Hin b Hb) as [Hne HbL].
    destruct (lv_call _ _ _ _ Hv b r HbL Hm) as (_ & _ & _ & _ & Hrm & _).
    unfold L in Hr. apply precedes_app in Hr as [[_ Hr]%precedes_elem|[Hr|[Hr _]]].
    + pose proof (lv_nodup _ _ _ _ Hv) as Hnd. unfold L in Hnd.
      apply NoDup_cons in Hnd as [_ Hnd]. apply NoDup_app in Hnd as (_ & Hd & _).
      apply (Hd a Hr). by left.
    + pose proof (lv_nodup _ _ _ _ Hv) as Hnd. unfold L in Hnd.
      apply NoDup_cons in Hnd as [_ Hnd]. apply NoDup_app in Hnd as (_ & _ & [Hd _]%NoDup_cons).
      destruct Hr as [[_ Hr]|[_ Hr]%precedes_elem]; done.
    + rewrite Forall_forall in Hpre. by apply (Hpre r Hr).
  - apply (IH x b r Hp Hm). destruct (precedes_elem _ _ _ Hp) as [Hx Hb].
    destruct (Hin x Hx) as [Hxi HxL], (Hin b Hb) as [Hbi HbL].
    destruct (lv_call _ _ _ _ Hv b r HbL Hm) as (_ & _ & _ & _ & _ & Hri).
    apply precedes_filter. split_and!; [congruence|done|done].
Qed.

(** The nodes before the first operation of such an order are calls. *)
Lemma order_first_minimal L pre a post l :
  live L -> L = pre ++ a :: post -> is_call a -> a :: l ≡ₚ calls_of L -> real_time L (a :: l) ->
  Forall is_call pre.
Proof.
  intros Hv HL Ha Hperm Hrt. apply Forall_forall. intros r Hr Hm.
  assert (HrL : r ∈ L) by (rewrite HL; set_solver).
  assert (Hra : precedes L r a) by (rewrite HL; apply precedes_app; set_solver).
  destruct (lv_ret _ _ _ _ Hv r HrL Hm) as (b & HbL & Hbm & _).
  destruct (decide (b = a)) as [->|Hne].
  - destruct (lv_call _ _ _ _ Hv a r HbL Hbm) as (l1 & l2 & l3 & HL2 & _ & _).
    pose proof (lv_nodup _ _ _ _ Hv) as [_ Hnd]%NoDup_cons. apply (precedes_asym L r a); [done..|].
    rewrite HL2. apply precedes_app. right. left. left. split; [done|]. set_solver.
  - apply (Hrt a b r); [|done|done]. left. split; [done|].
    assert (Hb : b ∈ a :: l) by (rewrite Hperm; apply list_elem_of_filter; split; [by unfold PorcCorrect.is_call; rewrite Hbm|done]).
    by apply elem_of_cons in Hb as [|].
Qed.

(** Conversely, such an order is a linearization. *)
Lemma order_linearizes L s l :
  live L -> l ≡ₚ calls_of L -> accepts s l -> real_time L l -> linearizes L s l.
Proof.
  revert L s. induction l as [|a l IH]; intros L s Hv Hperm Hacc Hrt.
  - assert (HL : L = []); [|subst; constructor]. destruct L as [|a L]; [done|].
    assert (Hc : exists c, c ∈ calls_of (a :: L)).
    { destruct (matchOf a) as [r|] eqn:Hm.
      - exists a. apply list_elem_of_filter. split; [by unfold PorcCorrect.is_call; rewrite Hm|by left].
      - destruct (lv_ret _ _ _ _ Hv a ltac:(by left) Hm) as (c & Hc & Hcm & _). exists c.
        apply list_elem_of_filter. split; [by unfold PorcCorrect.is_call; rewrite Hcm|done]. }
    destruct Hc as [c Hc]. rewrite <- Hperm in Hc. set_solver.
  - destruct Hacc as (s' & Hs & Hacc).
    assert (Hac : a ∈ calls_of L) by (rewrite <- Hperm; by left).
    pose proof Hac as [Ha HaL]%list_elem_of_filter.
    apply list_elem_of_split in HaL as (pre & post & HL).
    pose proof (order_first_minimal _ _ _ _ _ Hv HL Ha Hperm Hrt) as Hpre. rewrite HL.
    econstructor; [done|done|done|]. rewrite <- HL. apply IH; [by apply live_without| |done|].
    + apply (Permutation_cons_inv (a := a)). by rewrite Hperm, <- calls_without_perm.
    + intros x b r Hp Hm (_ & _ & Hr)%precedes_filter. apply (Hrt x b r); [by right|done|done].
Qed.

Lemma linearizes_iff L s l :
  live L -> linearizes L s l <-> l ≡ₚ calls_of L /\ accepts s l /\ real_time L l.
Proof.
  intros Hv. split; [|intros (? & ? & ?); by apply order_linearizes].
  intros Hl. split_and!; [by eapply linearizes_calls|by eapply linearizes_accepts|
    by eapply linearizes_real_time].
Qed.
End linear.
