(* ===== verification/PorcOps.v ===== *)
(** * Linearizability of a history of operations

    The definition of linearizability on [Operation]s, with their times of call
    and return, and the proof that [makeEntries] followed by [checkSingle] decides
    it. *)

From S2P Require Import Prelude GoLib Bitset PorcList Porcupine PorcSearch PorcLink PorcCorrect.
From S2P Require Import PorcLinear.

Section spec.
Context {V St : Type}.
Variable model : FullModel V St.
Implicit Types (ops : list (Operation V)) (s : St).

(** The model accepts the operations with the indices [p], in this order. *)
Fixpoint legal ops s (p : list nat) : Prop :=
  match p with
  | [] => True
  | i :: p => exists o s', ops !! i = Some o /\ Step model s (op_Input o) (op_Output o) = (true, s') /\
                legal ops s' p
  end.

(** [i] had returned when [j] was called. *)
Definition returns_before ops (i j : nat) : Prop :=
  exists o o', ops !! i = Some o /\ ops !! j = Some o' /\ (op_Return o < op_Call o')%Z.

(** The operations can take effect one after the other, each between its call and
    its return, from the initial state of the model. *)
Definition Linearizable ops : Prop :=
  exists p, p ≡ₚ seq 0 (length ops) /\ legal ops (Init model) p /\
    forall i j, precedes p i j -> ~ returns_before ops j i.
End spec.

(** An operation returns after it was called. *)
Definition times_ok {V} (ops : list (Operation V)) : Prop :=
  Forall (fun o => (op_Call o <= op_Return o)%Z) ops.

(** ** Sorting the entries *)

Section entries.
Context {V : Type} `{!Sorter}.
Implicit Types (ops : list (Operation V)) (e : entry V).

Definition call_entry (i : nat) (o : Operation V) : entry V :=
  mkEntry callEntry (op_Input o) i (op_Call o) (op_ClientId o).
Definition return_entry (i : nat) (o : Operation V) : entry V :=
  mkEntry returnEntry (op_Output o) i (op_Return o) (op_ClientId o).

#[export] Instance byTime_strict_weak : StrictWeak (byTime_Less (V := V)).
Proof.
  split; unfold byTime_Less.
  - intros x y Hxy. rewrite (decide_ext (e_time y <> e_time x) (e_time x <> e_time y)) by naive_solver.
    case_decide.
    + apply bool_decide_eq_true in Hxy. apply bool_decide_eq_false. lia.
    + by destruct (e_kind x), (e_kind y).
  - intros x y z. repeat case_decide; rewrite ?bool_decide_eq_false; intros ? ?; try lia;
      destruct (e_kind x), (e_kind y), (e_kind z); done || lia.
Qed.

Lemma elem_of_entries_from id ops e :
  e ∈ entries_from id ops <->
  exists i o, ops !! i = Some o /\ (e = call_entry (id + i) o \/ e = return_entry (id + i) o).
Proof.
  revert id. induction ops as [|o ops IH]; intros id; simpl.
  - split; [set_solver|]. by intros (i & o & Hi & _).
  - rewrite !elem_of_cons, IH. split.
    + intros [->|[->|(i & o' & Hi & He)]].
      * exists 0, o. rewrite Nat.add_0_r. auto.
      * exists 0, o. rewrite Nat.add_0_r. auto.
      * exists (S i), o'. rewrite Nat.add_succ_r. auto.
    + intros ([|i] & o' & Hi & He); simpl in Hi.
      * injection Hi as <-. rewrite Nat.add_0_r in He. tauto.
      * right. right. exists i, o'. by rewrite Nat.add_succ_r in He.
Qed.

Lemma length_entries_from id ops : length (entries_from id ops) = 2 * length ops.
Proof. revert id. induction ops as [|o ops IH]; intros id; simpl; [done|]. rewrite IH. lia. Qed.

Lemma entries_from_NoDup id ops :
  NoDup ((fun e => (e_kind e, e_id e)) <$> entries_from id ops).
Proof.
  revert id. induction ops as [|o ops IH]; intros id; simpl; [constructor|].
  assert (Hlt : forall k, (k, id) ∉ (fun e : entry V => (e_kind e, e_id e)) <$> entries_from (S id) ops).
  { intros k (e & Heq & (i & o' & _ & [->| ->])%elem_of_entries_from)%list_elem_of_fmap;
      simpl in Heq; injection Heq as _ Heq; lia. }
  constructor; [rewrite elem_of_cons; intros [[=]|Hin]; by apply Hlt in Hin|].
  constructor; [apply Hlt|apply IH].
Qed.

Lemma StronglySorted_lookup {A} (R : relation A) l j k x y :
  StronglySorted R l -> j < k -> l !! j = Some x -> l !! k = Some y -> R x y.
Proof.
  intros Hs Hlt Hj Hk. destruct (list_split_two l j k x y Hlt Hj Hk) as (l1 & l2 & l3 & ->).
  eapply (StronglySorted_app_1_elem_of _ (l1 ++ [x]) (l2 ++ y :: l3)); [|set_solver..].
  by rewrite <- app_assoc.
Qed.

Section make.
Variable ops : list (Operation V).
Hypothesis Htimes : times_ok ops.
Let es := makeEntries ops.

Lemma elem_of_makeEntries e :
  e ∈ es <-> exists i o, ops !! i = Some o /\ (e = call_entry i o \/ e = return_entry i o).
Proof. unfold es, makeEntries. rewrite sort_by_perm. apply elem_of_entries_from. Qed.

Lemma entry_cases k e :
  es !! k = Some e -> exists o, ops !! e_id e = Some o /\
    (e = call_entry (e_id e) o \/ e = return_entry (e_id e) o).
Proof.
  intros (i & o & Ho & [->| ->])%list_elem_of_lookup_2%elem_of_makeEntries; simpl; eauto.
Qed.

Lemma entry_at e : e ∈ es -> exists k, es !! k = Some e.
Proof. apply list_elem_of_lookup. Qed.

(** An entry is before another in time when it is before it in the list. *)
Lemma entries_sorted j k e e' :
  es !! j = Some e -> es !! k = Some e' -> byTime_Less e' e = true -> k < j.
Proof.
  intros Hj Hk Hless. destruct (decide (k < j)) as [|Hge]; [done|exfalso].
  assert (Hs : StronglySorted (not_after byTime_Less) es)
    by (apply sort_by_strongly, _).
  destruct (decide (j = k)) as [->|Hne].
  - rewrite Hj in Hk. injection Hk as ->. pose proof (sw_asym _ _ Hless). congruence.
  - assert (Hlt : j < k) by lia.
    pose proof (StronglySorted_lookup _ _ j k e e' Hs Hlt Hj Hk) as Hna.
    unfold not_after in Hna. congruence.
Qed.

Lemma call_before_return i o j k :
  ops !! i = Some o -> es !! j = Some (call_entry i o) -> es !! k = Some (return_entry i o) -> j < k.
Proof using Htimes.
  intros Ho Hj Hk. eapply entries_sorted; [exact Hk|exact Hj|].
  pose proof (Forall_lookup_1 _ _ _ _ Htimes Ho) as Ht. simpl in Ht.
  unfold byTime_Less; simpl. case_decide; [|done]. apply bool_decide_eq_true. lia.
Qed.

Lemma makeEntries_wf : wf_history (length ops) es.
Proof using Htimes.
  split.
  - unfold es, makeEntries. by rewrite sort_by_perm, length_entries_from.
  - intros k e Hk. destruct (entry_cases k e Hk) as (o & Ho & _). by eapply lookup_lt_Some.
  - intros j k e e' Hj Hk Hid Hkind.
    assert (Hnd : NoDup ((fun e => (e_kind e, e_id e)) <$> es)).
    { unfold es, makeEntries. rewrite sort_by_perm. apply entries_from_NoDup. }
    eapply (NoDup_lookup _ j k (e_kind e, e_id e) Hnd); rewrite list_lookup_fmap, ?Hj, ?Hk; simpl;
      congruence.
  - intros j e Hj Hkind. destruct (entry_cases j e Hj) as (o & Ho & [He|He]); [|by rewrite He in Hkind].
    destruct (entry_at (return_entry (e_id e) o)) as [k Hk]; [apply elem_of_makeEntries; eauto|].
    exists k, (return_entry (e_id e) o). split_and!; [|done..]. rewrite He in Hj.
    by eapply call_before_return.
  - intros i Hi. destruct (lookup_lt_is_Some_2 ops i Hi) as [o Ho].
    destruct (entry_at (call_entry i o)) as [k Hk]; [apply elem_of_makeEntries; eauto|].
    by exists k, (call_entry i o).
  - intros k e Hk Hkind. destruct (entry_cases k e Hk) as (o & Ho & [He|He]); [by rewrite He in Hkind|].
    destruct (entry_at (call_entry (e_id e) o)) as [j Hj]; [apply elem_of_makeEntries; eauto|].
    exists j, (call_entry (e_id e) o). split_and!; [|done..]. rewrite He in Hk.
    by eapply call_before_return.
Qed.

(** The order of a return and a call in the list is that of their times. *)
Lemma return_call_order i o j o' k k' :
  es !! k = Some (return_entry j o') -> es !! k' = Some (call_entry i o) ->
  k < k' <-> (op_Return o' < op_Call o)%Z.
Proof.
  intros Hk Hk'. split.
  - intros Hlt. destruct (decide (op_Return o' < op_Call o)%Z) as [|Hge]; [done|exfalso].
    assert (k' < k); [|lia]. eapply entries_sorted; [exact Hk|exact Hk'|].
    unfold byTime_Less; simpl. case_decide; [|done]. apply bool_decide_eq_true. lia.
  - intros Hlt. eapply entries_sorted; [exact Hk'|exact Hk|].
    unfold byTime_Less; simpl. rewrite decide_True by lia. apply bool_decide_eq_true. lia.
Qed.

(** ** The nodes of the history *)

Context {St : Type} (model : FullModel V St) (h : list (node V)).
Hypothesis Hnodes : nodes_for h es.

(** The call node of an operation. *)
Lemma call_node a :
  a ∈ calls_of h (addrs es) <->
  exists k o, es !! k = Some (call_entry (ident h a) o) /\ ops !! ident h a = Some o /\ a = addr es k.
Proof using Htimes Hnodes.
  unfold calls_of. rewrite list_elem_of_filter, elem_of_addrs. split.
  - intros [Hc (k & e & Hk & ->)]. apply (match_kind _ _ _ makeEntries_wf Hnodes k e Hk) in Hc.
    rewrite (ident_addr es h Hnodes k e Hk).
    destruct (entry_cases k e Hk) as (o & Ho & [He|He]); [|by rewrite He in Hc].
    exists k, o. split_and!; [congruence|done|done].
  - intros (k & o & Hk & Ho & ->). split; [|eauto].
    by apply (match_kind _ _ _ makeEntries_wf Hnodes k _ Hk).
Qed.

Lemma call_match a k o :
  es !! k = Some (call_entry (ident h a) o) -> ops !! ident h a = Some o -> a = addr es k ->
  exists k', es !! k' = Some (return_entry (ident h a) o) /\ matchOf h a = Some (addr es k').
Proof using Htimes Hnodes.
  intros Hk Ho Ha.
  destruct (match_call _ _ _ makeEntries_wf Hnodes k _ Hk eq_refl) as (k' & e' & _ & Hk' & Hkind & Hid & Hm).
  destruct (entry_cases k' e' Hk') as (o' & Ho' & [He|He]); [by rewrite He in Hkind|].
  simpl in Hid. rewrite Hid in *. rewrite Ho in Ho'. injection Ho' as <-.
  exists k'. rewrite Ha at 2. split; [congruence|done].
Qed.

(** Taking the operation of a call node. *)
Lemma call_step a s o :
  a ∈ calls_of h (addrs es) -> ops !! ident h a = Some o ->
  op_step model h s a =
  (let '(ok, s') := Step model s (op_Input o) (op_Output o) in if ok then Some s' else None).
Proof using Htimes Hnodes.
  intros (k & o' & Hk & Ho' & Ha)%call_node Ho. rewrite Ho in Ho'. injection Ho' as <-.
  destruct (call_match a k o Hk Ho Ha) as (k' & Hk' & Hm). unfold op_step. rewrite Hm. simpl.
  destruct (nodes_for_lookup h es k _ Hnodes Hk) as (x & Hx & Hv & _ & _).
  destruct (nodes_for_lookup h es k' _ Hnodes Hk') as (y & Hy & Hv' & _ & _).
  rewrite Ha at 1. by rewrite Hx, Hy, Hv, Hv'.
Qed.

Lemma call_of_op i o :
  ops !! i = Some o -> exists a, a ∈ calls_of h (addrs es) /\ ident h a = i.
Proof using Htimes Hnodes.
  intros Ho. destruct (entry_at (call_entry i o)) as [k Hk]; [apply elem_of_makeEntries; eauto|].
  assert (Hi : ident h (addr es k) = i) by (by rewrite (ident_addr es h Hnodes k _ Hk)).
  exists (addr es k). split; [|done]. apply call_node. exists k, o. by rewrite Hi.
Qed.

Lemma call_op a : a ∈ calls_of h (addrs es) -> exists o, ops !! ident h a = Some o.
Proof using Htimes Hnodes. intros (k & o & _ & Ho & _)%call_node. eauto. Qed.

(** The real-time order on nodes is that of the operations. *)
Lemma node_order a b r :
  a ∈ calls_of h (addrs es) -> b ∈ calls_of h (addrs es) -> matchOf h b = Some r ->
  precedes (addrs es) r a <-> returns_before ops (ident h b) (ident h a).
Proof using Htimes Hnodes.
  intros (k & o & Hk & Ho & Ha)%call_node (j & o' & Hj & Ho' & Hb)%call_node Hm.
  destruct (call_match b j o' Hj Ho' Hb) as (j' & Hj' & Hm'). rewrite Hm in Hm'. injection Hm' as ->.
  assert (Hlk := lookup_lt_Some _ _ _ Hk). assert (Hlj := lookup_lt_Some _ _ _ Hj').
  rewrite precedes_lookup. unfold returns_before. split.
  - intros (x & y & Hxy & Hx & Hy).
    assert (Hlx : x < length es) by (rewrite <- length_addrs; by eapply lookup_lt_Some).
    assert (Hly : y < length es) by (rewrite <- length_addrs; by eapply lookup_lt_Some).
    rewrite addrs_lookup in Hx, Hy by done. injection Hx as Hx. injection Hy as Hy.
    apply addr_inj in Hx as ->; [|done..]. rewrite Ha in Hy. apply addr_inj in Hy as ->; [|done..].
    exists o', o. split_and!; [done..|]. by eapply return_call_order.
  - intros (o1 & o2 & Ho1 & Ho2 & Hlt). rewrite Ho' in Ho1. rewrite Ho in Ho2.
    injection Ho1 as <-. injection Ho2 as <-.
    exists j', k. rewrite !addrs_lookup by done. split_and!; [|done|by rewrite Ha at 1].
    by eapply return_call_order.
Qed.

Lemma calls_ids : ident h <$> calls_of h (addrs es) ≡ₚ seq 0 (length ops).
Proof using Htimes Hnodes.
  pose proof (live_addrs _ _ _ makeEntries_wf Hnodes (length es) (le_n _)) as Hlive.
  apply NoDup_Permutation; [|apply NoDup_seq|].
  - apply NoDup_fmap_2_strong; [intros a b Ha Hb; by eapply calls_ident|].
    apply NoDup_filter, addrs_NoDup.
  - intros i. rewrite list_elem_of_fmap, elem_of_seq. split.
    + intros (a & -> & [o Ho%lookup_lt_Some]%call_op). lia.
    + intros [_ Hi]. destruct (lookup_lt_is_Some_2 ops i Hi) as [o Ho].
      destruct (call_of_op i o Ho) as (a & Ha & <-). eauto.
Qed.

Lemma accepts_legal s l :
  Forall (fun a => a ∈ calls_of h (addrs es)) l ->
  accepts model h s l <-> legal model ops s (ident h <$> l).
Proof using Htimes Hnodes.
  intros Hl. revert s. induction Hl as [|a l Ha Hl IH]; intros s; simpl; [done|].
  destruct (call_op a Ha) as [o Ho]. rewrite (call_step a s o Ha Ho). split.
  - intros (s' & Hs & Hacc). exists o, s'. rewrite <- IH. split_and!; [done| |done].
    destruct (Step model s _ _) as [[] s1]; by simplify_eq.
  - intros (o' & s' & Ho' & Hs & Hacc). rewrite Ho in Ho'. injection Ho' as <-. rewrite Hs.
    exists s'. split; [done|by apply IH].
Qed.

(** The orders of call nodes are the orders of operations. *)
Lemma order_of_ids p :
  p ≡ₚ seq 0 (length ops) -> exists l, ident h <$> l = p /\ l ≡ₚ calls_of h (addrs es).
Proof using Htimes Hnodes.
  intros Hp. assert (Hl : exists l, ident h <$> l = p /\ Forall (fun a => a ∈ calls_of h (addrs es)) l).
  { assert (Hall : Forall (fun i => i < length ops) p).
    { apply Forall_forall. intros i. rewrite Hp, elem_of_seq. lia. }
    clear Hp. induction Hall as [|i p Hi Hall (l & <- & Hl)]; [by exists []|].
    destruct (lookup_lt_is_Some_2 ops i Hi) as [o Ho].
    destruct (call_of_op i o Ho) as (a & Ha & <-). exists (a :: l). split; [done|by constructor]. }
  destruct Hl as (l & <- & Hl). exists l. split; [done|].
  pose proof (live_addrs _ _ _ makeEntries_wf Hnodes (length es) (le_n _)) as Hlive.
  rewrite Forall_forall in Hl. apply NoDup_Permutation; [|apply NoDup_filter, addrs_NoDup|].
  - apply (NoDup_fmap_1 (ident h)). rewrite Hp. apply NoDup_seq.
  - intros a. split; [apply Hl|]. intros Ha. destruct (call_op a Ha) as [o Ho%lookup_lt_Some].
    assert (Hin : ident h a ∈ ident h <$> l) by (rewrite Hp; apply elem_of_seq; lia).
    apply list_elem_of_fmap in Hin as (b & Hab & Hb).
    by rewrite (calls_ident h (length ops) (length es) _ a b Hlive Ha (Hl b Hb) Hab).
Qed.

Lemma linearizable_iff :
  (exists l, linearizes model h (addrs es) (Init model) l) <-> Linearizable model ops.
Proof using Htimes Hnodes.
  pose proof (live_addrs _ _ _ makeEntries_wf Hnodes (length es) (le_n _)) as Hlive. split.
  - intros (l & (Hperm & Hacc & Hrt)%(linearizes_iff _ _ _ _ _ _ _ Hlive)).
    assert (Hall : Forall (fun a => a ∈ calls_of h (addrs es)) l)
      by (apply Forall_forall; intros a; by rewrite Hperm).
    exists (ident h <$> l). split_and!.
    + by rewrite Hperm, calls_ids.
    + by apply accepts_legal.
    + intros i j (a & b & -> & -> & Hp)%precedes_fmap_inv Hrb.
      destruct (precedes_elem _ _ _ Hp) as [Ha Hb]. rewrite Forall_forall in Hall.
      pose proof (Hall b Hb) as (k & o & Hk & Ho & Hbk)%call_node.
      destruct (call_match b k o Hk Ho Hbk) as (k' & _ & Hm).
      apply (Hrt a b _ Hp Hm). by apply (node_order a b _ (Hall a Ha) (Hall b Hb) Hm).
  - intros (p & Hp & Hleg & Hrt). destruct (order_of_ids p Hp) as (l & <- & Hperm).
    assert (Hall : forall a, a ∈ l -> a ∈ calls_of h (addrs es)) by (intros a; by rewrite Hperm).
    exists l. apply (linearizes_iff _ _ _ _ _ _ _ Hlive). split_and!; [done| |].
    + apply accepts_legal; [by apply Forall_forall|done].
    + intros a b r Hprec Hm Hr. destruct (precedes_elem _ _ _ Hprec) as [Ha Hb].
      apply (Hrt (ident h a) (ident h b)); [by apply precedes_fmap|].
      by apply (node_order a b r (Hall a Ha) (Hall b Hb) Hm).
Qed.
End make.

(** ** checkSingle decides linearizability *)

Lemma checkSingle_decides {St} (nilV : V) (model : FullModel V St) ops computePartial kill :
  EqualSound model -> times_ok ops -> (forall i, kill i = false) ->
  exists fuel0, forall fuel, fuel0 <= fuel ->
  exists ok longest, checkSingle nilV model (makeEntries ops) computePartial kill fuel
                     = Returned ok longest /\ (ok = true <-> Linearizable model ops).
Proof.
  intros Heq Ht Hk. pose proof (makeEntries_wf ops Ht) as Hwf.
  destruct (checkSingle_dfs nilV model _ _ computePartial kill Hwf Hk)
    as (h & Hn & Hlive & fuel0 & Hrun).
  exists fuel0. intros fuel Hf. specialize (Hrun fuel Hf).
  pose proof (dfs_decides model h (length ops) _ (addrs (makeEntries ops)) Hlive (length ops)
    (Init model) (newBitset (length ops))) as Hd.
  rewrite length_addrs, (wh_length _ _ Hwf) in Hd.
  specialize (Hd eq_refl (newBitset_represents _)).
  pose proof (linearizable_iff ops Ht model h Hn) as Hiff.
  destruct (dfs _ _ _ _ _ _ _).1 as [l|].
  - destruct Hrun as (it & seq & _ & Hrun). eexists true, _. split; [exact Hrun|].
    split; [|done]. intros _. apply Hiff. by exists l.
  - destruct Hrun as (longest & Hrun). exists false, longest. split; [done|]. split; [done|].
    intros [l Hl]%Hiff. by destruct (Hd l).
Qed.
End entries.
