(* ===== verification/PorcPartial.v ===== *)
(** * The partial linearizations of checkSingle

    Whatever [checkSingle] leaves in [longest], also when it is killed, is a list
    of operations the model allows from its initial state. *)

From S2P Require Import Prelude GoLib Bitset PorcList Porcupine PorcSearch PorcLink.

(** ** The heap keeps its data *)

Section data.
Context {V : Type}.
Implicit Types h : list (node V).

Lemma upd_keeps a f h h' :
  (forall x, same_data x (f x)) -> upd a f h = Some h' -> keeps_data h h'.
Proof. intros Hf (x & Hx & [= <-])%bind_Some. by eapply keeps_data_insert. Qed.

Lemma upd_next_keeps a p h h' : upd a (set_next p) h = Some h' -> keeps_data h h'.
Proof. by apply upd_keeps. Qed.

Lemma upd_prev_keeps a p h h' : upd a (set_prev p) h = Some h' -> keeps_data h h'.
Proof. by apply upd_keeps. Qed.

Ltac keeps := repeat (eapply keeps_data_trans; [first [by eapply upd_next_keeps|by eapply upd_prev_keeps]|]);
  first [apply keeps_data_refl|by eapply upd_next_keeps|by eapply upd_prev_keeps].

Lemma lift_keeps e h h' : lift e h = Some h' -> keeps_data h h'.
Proof.
  unfold lift. intros Hl. repeat (apply bind_Some in Hl as (? & ? & Hl)).
  case_match; [|injection Hl as <-]; keeps.
Qed.

Lemma unlift_keeps e h h' : unlift e h = Some h' -> keeps_data h h'.
Proof.
  unfold unlift. intros Hl. apply bind_Some in Hl as (? & ? & Hl).
  apply bind_Some in Hl as (? & ? & Hl). apply bind_Some in Hl as (? & ? & Hl).
  apply bind_Some in Hl as (? & ? & Hl). apply bind_Some in Hl as (h1 & ? & Hl).
  apply bind_Some in Hl as (y & ? & Hl). apply bind_Some in Hl as (h2 & Hm & Hl).
  do 5 (apply bind_Some in Hl as (? & ? & Hl)).
  destruct (n_next y); [|injection Hm as <-]; keeps.
Qed.
End data.

(** ** Updating [longest] *)

(** What holds of the ids that are recorded. *)
Definition all_recorded (Q : list Z -> Prop) (longest : list (option (nat * list Z))) : Prop :=
  Forall (fun x => match x with Some (_, ids) => Q ids | None => True end) longest.

Lemma update_longest_all (Q : list Z -> Prop) it ids longest longest' :
  Q ids -> all_recorded Q longest -> update_longest it ids longest = Some longest' -> all_recorded Q longest'.
Proof.
  intros Hs Hl. unfold update_longest. set (f := fun (acc : option (list _)) (id : Z) => _).
  enough (Hf : forall js longest, all_recorded Q longest -> foldl f (Some longest) js = Some longest' ->
    all_recorded Q longest') by (by apply Hf).
  clear longest Hl. assert (Hnone : forall l, foldl f None l = None) by (intros l; by induction l).
  induction js as [|i js IH]; intros longest Hl; [by intros [= <-]|].
  change (foldl f (Some longest) (i :: js)) with (foldl f (f (Some longest) i) js).
  destruct (f (Some longest) i) as [l'|] eqn:Hfi; [|by rewrite Hnone]. apply IH. unfold f in Hfi; simpl in Hfi.
  apply bind_Some in Hfi as (old & Hold & Hfi).
  destruct old as [[it0 l]|]; [case_decide|]; injection Hfi as <-; try done; by apply Forall_insert.
Qed.

(** ** The invariant of the loop *)

Section partial.
Context {V St : Type}.
Variable model : FullModel V St.
Variable h0 : list (node V).

Abbreviation op_step := (op_step model h0).

(** The stack of calls, top first: each call with the state before it. *)
Fixpoint chain (calls : list (nat * St)) (s : St) : Prop :=
  match calls with
  | [] => s = Init model
  | (a, s0) :: calls => op_step s0 a = Some s /\ chain calls s0
  end.

(** The ids of the calls of a stack. *)
Definition replayable (seq : list Z) : Prop :=
  exists calls s, chain calls s /\ calls_seq h0 calls = Some seq.

Definition all_replayable : list (option (nat * list Z)) -> Prop := all_recorded replayable.

Record sound_search (q : @Search V St) : Prop := {
  so_data : keeps_data h0 (s_heap q);
  so_chain : chain (s_calls q) (s_state q);
  so_longest : all_replayable (s_longest q);
}.

Lemma same_node h a x : keeps_data h0 h -> h !! a = Some x ->
  exists x0, h0 !! a = Some x0 /\ same_data x0 x.
Proof. intros Hk Hx. specialize (Hk a). rewrite Hx in Hk. destruct (h0 !! a) as [x0|]; [by eauto|done]. Qed.

Lemma replayable_calls h calls s seq :
  keeps_data h0 h -> chain calls s -> calls_seq h calls = Some seq -> replayable seq.
Proof.
  intros Hk Hc Hs. exists calls, s. split; [done|]. rewrite <- Hs.
  rewrite (calls_seq_data h0 h calls (reverse calls.*1)) by done.
  unfold calls_seq. rewrite <- fmap_reverse. induction (reverse calls) as [|c l IH]; [done|].
  simpl. by rewrite IH.
Qed.

Lemma iterate_sound computePartial kill head it q :
  sound_search q ->
  match iterate model computePartial kill head it q with
  | Next q' => sound_search q'
  | Return _ longest => all_replayable longest
  | Panic => True
  end.
Proof.
  intros [Hk Hc Hl]. unfold iterate. destruct kill; [done|]. unfold or_panic.
  destruct (s_entry q) as [e|]; [|done]. simpl. destruct (s_heap q !! e) as [x|] eqn:Hx; [|done]. simpl.
  destruct (same_node _ _ _ Hk Hx) as (x0 & Hx0 & Hv & Hm & Hi).
  destruct (n_match x) as [m|] eqn:Hmx.
  - destruct (s_heap q !! m) as [y|] eqn:Hy; [|done]. simpl.
    destruct (same_node _ _ _ Hk Hy) as (y0 & Hy0 & Hvy & _ & _).
    destruct (Step model (s_state q) (n_value x) (n_value y)) as [ok s'] eqn:Hs.
    destruct ok; [|by split]. destruct (bs_set _ _) as [lin|]; [|done]. simpl.
    destruct (cacheContains _ _ _); [by split|].
    destruct (lift e (s_heap q)) as [h|] eqn:Hlift; [|done]. simpl.
    destruct (h !! head) as [hx|]; [|done]. simpl. split; [|split; [|done]|done]; simpl.
    + eapply keeps_data_trans; [done|by eapply lift_keeps].
    + unfold PorcSearch.op_step, matchOf. rewrite Hx0. simpl. rewrite Hm. simpl. rewrite Hy0, Hv, Hvy.
      by rewrite Hs.
  - destruct (s_calls q) as [|[top st] calls] eqn:Hcs; [done|].
    destruct (if computePartial then _ else _) as [longest|] eqn:Hlong; [|done]. simpl.
    destruct (s_heap q !! top) as [y|]; [|done]. simpl. destruct (bs_clear _ _) as [lin|]; [|done]. simpl.
    destruct (unlift top (s_heap q)) as [h|] eqn:Hun; [|done]. simpl.
    destruct (h !! top) as [z|]; [|done]. simpl. split; simpl.
    + eapply keeps_data_trans; [done|by eapply unlift_keeps].
    + by destruct Hc.
    + destruct computePartial; [|by injection Hlong as <-].
      apply bind_Some in Hlong as (seq & Hseq & Hup).
      eapply update_longest_all; [|done|done]. by eapply replayable_calls.
Qed.

Lemma search_loop_sound computePartial kill n head fuel it q ok longest :
  sound_search q -> search_loop model computePartial kill n head fuel it q = Returned ok longest ->
  all_replayable longest.
Proof.
  revert it q. induction fuel as [|fuel IH]; intros it q Hq; simpl; [done|].
  destruct (s_heap q !! head) as [hx|]; [|done]. destruct (n_next hx).
  - pose proof (iterate_sound computePartial (kill it) head it q Hq) as Hit.
    destruct (iterate _ _ _ _ _ _) as [q'|ok' lg|]; [by apply IH|by intros [= _ <-]|done].
  - destruct (calls_seq (s_heap q) (s_calls q)) as [seq|] eqn:Hseq; [|done]. intros [= _ <-].
    apply Forall_replicate. destruct Hq as [Hk Hc _]. by eapply replayable_calls.
Qed.
End partial.

(** ** In terms of the history *)

Section history.
Context {V St : Type}.
Variable model : FullModel V St.
Implicit Types (es : list (entry V)) (s : St).

(** The model allows the operations of these ids one after the other. *)
Fixpoint legal_ids es s (ids : list Z) : Prop :=
  match ids with
  | [] => True
  | k :: ids => exists c r s', c ∈ es /\ r ∈ es /\ e_kind c = callEntry /\ e_kind r = returnEntry /\
      Z.of_nat (e_id c) = k /\ Z.of_nat (e_id r) = k /\
      Step model s (e_value c) (e_value r) = (true, s') /\ legal_ids es s' ids
  end.

Fixpoint steps_to es s (ids : list Z) s' : Prop :=
  match ids with
  | [] => s' = s
  | k :: ids => exists c r s1, c ∈ es /\ r ∈ es /\ e_kind c = callEntry /\ e_kind r = returnEntry /\
      Z.of_nat (e_id c) = k /\ Z.of_nat (e_id r) = k /\
      Step model s (e_value c) (e_value r) = (true, s1) /\ steps_to es s1 ids s'
  end.

Lemma steps_to_app es s ids1 ids2 s1 s2 :
  steps_to es s ids1 s1 -> steps_to es s1 ids2 s2 -> steps_to es s (ids1 ++ ids2) s2.
Proof.
  revert s. induction ids1 as [|k ids1 IH]; intros s; simpl; [by intros ->|].
  intros (c & r & s' & Hcin & Hrin & ? & ? & ? & ? & ? & Hst) Hto. exists c, r, s'. eauto 10.
Qed.

Lemma steps_to_legal es s ids s' : steps_to es s ids s' -> legal_ids es s ids.
Proof.
  revert s. induction ids as [|k ids IH]; intros s; simpl; [done|].
  intros (c & r & s1 & ? & ? & ? & ? & ? & ? & ? & Hst). exists c, r, s1. eauto 10.
Qed.

(** An operation step is a step with the values of its two entries. *)
Lemma op_step_entries h es s a s' x :
  nodes_for h es -> length h = S (length es) -> (exists y, h !! length es = Some y /\ n_match y = None) ->
  h !! a = Some x -> op_step model h s a = Some s' -> steps_to es s [n_id x] s'.
Proof.
  intros Hn Hlen (hd & Hhd & Hhm) Hx Hop. unfold op_step, matchOf in Hop. rewrite Hx in Hop. simpl in Hop.
  destruct (n_match x) as [m|] eqn:Hm; [|done]. simpl in Hop.
  assert (Ha : a < length es).
  { apply lookup_lt_Some in Hx as Hlt. destruct (decide (a = length es)) as [->|?]; [congruence|lia]. }
  destruct (lookup_lt_is_Some_2 es (addr es a)) as [c Hc]; [unfold addr; lia|].
  destruct (nodes_for_lookup h es _ c Hn Hc) as (x' & Hx' & Hv & Hi & Hmt).
  assert (Haa : addr es (addr es a) = a) by (unfold addr; lia). rewrite Haa in Hx'.
  rewrite Hx in Hx'. injection Hx' as <-. rewrite Hm in Hmt. destruct (e_kind c) eqn:Hck; [|done].
  symmetry in Hmt. apply ret_addr_some in Hmt as (j & r & Hj & Hrk & Hri & ->).
  rewrite lookup_drop in Hj.
  destruct (nodes_for_lookup h es _ r Hn Hj) as (y & Hy & Hvy & _ & _).
  assert (Haj : addr (drop (S (addr es a)) es) j = addr es (S (addr es a) + j)).
  { unfold addr in *. rewrite length_drop. lia. }
  rewrite Haj, Hy in Hop. destruct (Step model s (n_value x) (n_value y)) as [[] s1] eqn:Hs; [|done].
  injection Hop as <-. exists c, r, s1. split_and!; try done.
  - by eapply list_elem_of_lookup_2.
  - by eapply list_elem_of_lookup_2.
  - by rewrite Hi, Hri.
  - congruence.
Qed.

Lemma chain_steps h es calls s seq :
  nodes_for h es -> length h = S (length es) -> (exists y, h !! length es = Some y /\ n_match y = None) ->
  chain model h calls s -> calls_seq h calls = Some seq -> steps_to es (Init model) seq s.
Proof.
  intros Hn Hlen Hhd. unfold calls_seq. revert s seq.
  induction calls as [|[a s0] calls IH]; intros s seq; simpl; [intros -> [= <-]; done|].
  intros [Hop Hc] Hs. rewrite reverse_cons in Hs.
  apply mapM_Some, Forall2_app_inv_l in Hs as (seq1 & seq2 & Hs1%mapM_Some & Hs2 & ->).
  eapply steps_to_app; [by eapply IH|]. apply Forall2_cons_inv_l in Hs2 as (i & ? & Hi & ->%Forall2_nil_inv_l & ->).
  apply fmap_Some in Hi as (x & Hx & ->).
  by eapply op_step_entries.
Qed.

(** Every linearization in [longest] can be replayed. *)
Lemma checkSingle_legal nilV n es computePartial kill fuel ok longest it seq :
  wf_history n es -> checkSingle nilV model es computePartial kill fuel = Returned ok longest ->
  Some (it, seq) ∈ longest -> legal_ids es (Init model) seq.
Proof.
  intros Hwf Hrun Hin. destruct (start_heap nilV n es Hwf) as (h1 & Heq & Hn & Hl & Hlen & Hhd).
  unfold checkSingle in Hrun. rewrite Heq in Hrun.
  apply (search_loop_sound model h1) in Hrun.
  - unfold all_replayable, all_recorded in Hrun. rewrite Forall_forall in Hrun.
    destruct (Hrun _ Hin) as (calls & s & Hc & Hs). eapply steps_to_legal. by eapply chain_steps.
  - split; simpl; [apply keeps_data_refl|done|]. by apply Forall_replicate.
Qed.
End history.
