(* ===== verification/PorcPrefix.v ===== *)
(** * Partial linearizations are prefixes in real time

    [checkSingle] takes an operation only when every operation that is still in the list
    returns after its call. So whatever it leaves in [longest], also when it is killed,
    lists operations each of which may come next: no operation outside the part before it
    had returned when it was called. *)

From S2P Require Import Prelude GoLib Bitset PorcList Porcupine PorcSearch PorcLink PorcCorrect PorcLinear PorcOps.
From S2P Require Import PorcPartial.

Set Default Proof Using "Type".

Section stack.
Context {V St : Type}.
Variables (model : FullModel V St) (h0 : list (node V)) (n head : nat) (L0 : list nat).

Abbreviation matchOf := (matchOf h0).
Abbreviation ident := (ident h0).
Abbreviation linked := (linked h0 n head).
Abbreviation without := (without h0).

(** The heap, the live list and the stack of calls: each call was lifted from a list
    in which only calls were before it. *)
Inductive stack_at : list (node V) -> list nat -> list (nat * St) -> Prop :=
  | stack_base h : linked h L0 -> stack_at h L0 []
  | stack_push h pre a P calls s h' :
      stack_at h (pre ++ a :: P) calls -> Forall (fun b => matchOf b <> None) (pre ++ [a]) ->
      lift a h = Some h' -> stack_at h' (without a (pre ++ a :: P)) ((a, s) :: calls).

Lemma pushed_call pre a : Forall (fun b => matchOf b <> None) (pre ++ [a]) -> matchOf a <> None.
Proof. intros [_ Ha]%Forall_app. by apply Forall_cons in Ha as [? _]. Qed.

Lemma stack_linked h L calls : stack_at h L calls -> linked h L.
Proof.
  induction 1 as [h Hl|h pre a P calls s h' _ IH Hpre Hlift]; [done|].
  destruct (linked_lift h0 n head h _ a IH) as (h2 & Hl & Hl2 & _); [set_solver|by eapply pushed_call|].
  rewrite Hlift in Hl. by injection Hl as <-.
Qed.

(** A pop restores the heap and continues after the call. *)
Lemma stack_pop h' L' a s calls :
  stack_at h' L' ((a, s) :: calls) ->
  exists h pre P, stack_at h ((pre ++ [a]) ++ P) calls /\ Forall (fun b => matchOf b <> None) (pre ++ [a]) /\
    unlift a h' = Some h /\ exists z, h !! a = Some z /\ n_next z = hd_or P None.
Proof.
  inversion 1 as [|h pre a' P calls' s' h2 Hst Hpre Hlift]; subst.
  pose proof (stack_linked _ _ _ Hst) as Hl.
  destruct (linked_lift h0 n head h _ a Hl) as (h2 & Hl2 & _ & Hun & _); [set_solver|by eapply pushed_call|].
  rewrite Hlift in Hl2. injection Hl2 as <-.
  exists h, pre, P. rewrite <- app_assoc. split_and!; [done..|].
  by eapply linked_next.
Qed.

(** The live list is what is left of the first one. *)
Lemma stack_list h L calls :
  stack_at h L calls -> L = filter (fun b => ident b ∉ ident <$> calls.*1) L0.
Proof.
  induction 1 as [h Hl|h pre a P calls s h' Hst IH Hpre Hlift].
  - symmetry. apply filter_Forall_id. apply Forall_forall. set_solver.
  - unfold PorcSearch.without. rewrite IH, list_filter_filter. apply list_filter_iff. intros b. simpl. set_solver.
Qed.

Lemma stack_nonempty h L calls : stack_at h L calls -> length L < length L0 -> calls <> [].
Proof. intros Hst Hlt ->. inversion Hst; subst. lia. Qed.

(** Every call of a list of calls may come next: an operation that is not before it in
    the list had not returned. *)
Definition in_order (l : list nat) : Prop :=
  NoDup (ident <$> l) /\ Forall (fun a => a ∈ L0 /\ matchOf a <> None) l /\
  forall l1 a l2 b r, l = l1 ++ a :: l2 -> b ∈ L0 -> matchOf b = Some r -> ident b ∉ ident <$> l1 ->
    ~ precedes L0 r a.

Lemma in_order_snoc l a :
  in_order l -> a ∈ L0 -> matchOf a <> None -> ident a ∉ ident <$> l ->
  (forall b r, b ∈ L0 -> matchOf b = Some r -> ident b ∉ ident <$> l -> ~ precedes L0 r a) ->
  in_order (l ++ [a]).
Proof.
  intros (Hnd & Hall & Hord) Ha Hm Hnew Hlast. split_and!.
  - rewrite fmap_app. apply NoDup_app. split_and!; [done| |apply NoDup_singleton].
    intros x Hx ->%list_elem_of_singleton. done.
  - apply Forall_app. split; [done|]. by constructor.
  - intros l1 c l2 b r E Hb Hr Hnb. destruct l2 as [|y l2 _] using rev_ind.
    + apply app_inj_tail in E as [-> ->]. by eapply Hlast.
    + rewrite app_comm_cons, app_assoc in E. apply app_inj_tail in E as [-> _]. by eapply Hord.
Qed.

(** ** The loop *)

(** The ids of a stack of calls that is not empty. *)
Definition prefix_ids (ids : list Z) : Prop :=
  exists h L calls, stack_at h L calls /\ calls <> [] /\ calls_seq h0 calls = Some ids.

Definition all_prefixes : list (option (nat * list Z)) -> Prop := all_recorded prefix_ids.

Record in_search (q : @Search V St) : Prop := {
  is_at : exists pre P, s_entry q = hd_or P None /\ stack_at (s_heap q) (pre ++ P) (s_calls q) /\
    Forall (fun b => matchOf b <> None) pre;
  is_longest : all_prefixes (s_longest q);
}.

Lemma prefix_ids_calls h L calls ids :
  stack_at h L calls -> calls <> [] -> calls_seq h calls = Some ids -> prefix_ids ids.
Proof.
  intros Hst Hne Hs. exists h, L, calls. split_and!; [done..|]. rewrite <- Hs.
  pose proof (lk_data _ _ _ _ _ (stack_linked _ _ _ Hst)) as Hk.
  rewrite (calls_seq_data h0 h calls (reverse calls.*1)) by done.
  rewrite (calls_seq_data h0 h0 calls (reverse calls.*1)) by (apply keeps_data_refl || done). done.
Qed.

Lemma iterate_prefixes computePartial kill it q :
  in_search q ->
  match iterate model computePartial kill head it q with
  | Next q' => in_search q'
  | Return _ longest => all_prefixes longest
  | Panic => True
  end.
Proof.
  destruct q as [h e lin cache calls s longest]. intros [(pre & P & He & Hst & Hpre) Hlong]; simpl in *.
  destruct kill; [done|]. subst e. pose proof (stack_linked _ _ _ Hst) as Hl.
  destruct P as [|x P]; [done|].
  change (mkSearch h (hd_or (x :: P) None) lin cache calls s longest) with (at_suffix h (x :: P) lin cache calls s longest).
  destruct (matchOf x) as [r|] eqn:Hm.
  - rewrite (iterate_call model h0 n head computePartial it h pre) by (done || congruence).
    assert (Hnext : in_search (at_suffix h P lin cache calls s longest)).
    { split; [|done]. exists (pre ++ [x]), P. rewrite <- app_assoc. split_and!; [done..|].
      apply Forall_app. split; [done|]. by constructor; [congruence|]. }
    destruct (op_step model h0 s x) as [s'|]; [|done].
    destruct (bs_set lin _) as [lin'|]; [|done]. simpl. destruct (cacheContains _ _ _); [done|].
    destruct (lift x h) as [h'|] eqn:Hlift; [|done]. simpl.
    assert (Hst' : stack_at h' (without x (pre ++ x :: P)) ((x, s) :: calls)).
    { econstructor; [done| |done]. apply Forall_app. split; [done|]. by constructor; [congruence|]. }
    destruct (linked_head _ _ _ _ _ (stack_linked _ _ _ Hst')) as (hx & -> & Hn). simpl.
    split; [|done]. by exists [], (without x (pre ++ x :: P)).
  - rewrite (iterate_return model h0 n head computePartial it h pre) by done.
    destruct calls as [|[top st] rest]; [done|].
    destruct (if computePartial then _ else _) as [lg|] eqn:Hlg; [|done]. simpl.
    destruct (stack_pop _ _ _ _ _ Hst) as (h1 & pre' & P' & Hst' & Hpre' & Hun & z & Hz & Hn).
    destruct (h !! top) as [y|]; [|done]. simpl. destruct (bs_clear _ _) as [lin'|]; [|done]. simpl.
    rewrite Hun. simpl. rewrite Hz. simpl. split; simpl; [by exists (pre' ++ [top]), P'|].
    destruct computePartial; [|by injection Hlg as <-]. apply bind_Some in Hlg as (ids & Hids & Hup).
    apply (update_longest_all prefix_ids it ids longest lg); [|done|done]. by apply (prefix_ids_calls h (pre ++ x :: P) ((top, st) :: rest)).
Qed.

Lemma search_loop_prefixes computePartial kill fuel it q ok longest :
  in_search q -> (0 < n -> L0 <> []) ->
  search_loop model computePartial kill n head fuel it q = Returned ok longest -> all_prefixes longest.
Proof.
  intros Hq Hn. revert it q Hq. induction fuel as [|fuel IH]; intros it q Hq; simpl; [done|].
  destruct (s_heap q !! head) as [hx|] eqn:Hhx; [|done]. destruct (n_next hx) eqn:Hnx.
  - pose proof (iterate_prefixes computePartial (kill it) it q Hq) as Hit.
    destruct (iterate _ _ _ _ _ _) as [q'|ok' lg|]; [by apply IH|by intros [= _ <-]|done].
  - destruct (calls_seq (s_heap q) (s_calls q)) as [ids|] eqn:Hseq; [|done]. intros [= _ <-].
    destruct (decide (n = 0)) as [E|Hn0]; [rewrite E; constructor|]. apply Forall_replicate.
    destruct Hq as [(pre & P & _ & Hst & _) _].
    destruct (linked_head _ _ _ _ _ (stack_linked _ _ _ Hst)) as (hx' & Hhx' & Hnx').
    rewrite Hhx in Hhx'. injection Hhx' as <-. rewrite Hnx in Hnx'.
    eapply prefix_ids_calls; [done| |done]. eapply stack_nonempty; [done|].
    destruct (pre ++ P); [|done]. assert (L0 <> []) as HL by (apply Hn; lia). destruct L0; [done|simpl; lia].
Qed.

Hypothesis Hlive0 : live h0 n head L0.

Lemma stack_in_order h L calls : stack_at h L calls -> in_order (reverse calls.*1).
Proof using Hlive0.
  induction 1 as [h Hl|h pre a P calls s h' Hst IH Hpre Hlift].
  - split_and!; [constructor|constructor|]. intros l1 a l2 b r E. by destruct l1.
  - rewrite fmap_cons, reverse_cons.
    assert (HL := stack_list _ _ _ Hst). pose proof (lk_live _ _ _ _ _ (stack_linked _ _ _ Hst)) as Hv.
    assert (Ha : a ∈ filter (fun b => ident b ∉ ident <$> calls.*1) L0) by (rewrite <- HL; set_solver).
    apply list_elem_of_filter in Ha as [Hnew Ha].
    assert (Hrev : forall x, x ∈ ident <$> reverse calls.*1 <-> x ∈ ident <$> calls.*1)
      by (intros x; by rewrite reverse_Permutation).
    apply in_order_snoc; [done|done|by eapply pushed_call|by rewrite Hrev|].
    intros b r Hb Hr Hnb Hprec. rewrite Hrev in Hnb.
    destruct (lv_call _ _ _ _ Hlive0 b r Hb Hr) as (_ & _ & _ & _ & Hrm & Hir).
    assert (Hp : precedes (filter (fun b => ident b ∉ ident <$> calls.*1) L0) r a)
      by (apply precedes_filter; split_and!; [congruence|done|done]).
    rewrite <- HL in Hp. pose proof (lv_nodup _ _ _ _ Hv) as [_ Hnd]%NoDup_cons.
    apply precedes_elem in Hp as Hin. destruct Hin as [Hin _].
    rewrite (cons_middle a), app_assoc in Hin, Hp, Hnd. apply elem_of_app in Hin as [Hin|Hin].
    + rewrite Forall_forall in Hpre. by apply Hpre in Hin.
    + apply (precedes_asym _ r a Hnd Hp). apply precedes_app. right; right. split; [set_solver|done].
Qed.
End stack.

(** ** In terms of the operations *)

(** The operations of [p] may take effect in this order, before all others: none is
    called after one that comes later, or not at all, has returned. *)
Definition real_time_prefix {V} (ops : list (Operation V)) (p : list nat) : Prop :=
  p <> [] /\ NoDup p /\ Forall (fun i => i < length ops) p /\
  forall p1 i p2 j, p = p1 ++ i :: p2 -> j ∉ p1 -> ~ returns_before ops j i.

Section ops.
Context {V St : Type} `{!Sorter}.
Variables (nilV : V) (model : FullModel V St) (ops : list (Operation V)).
Hypothesis Htimes : times_ok ops.
Let es := makeEntries ops.

Lemma in_order_prefix h l :
  nodes_for h es -> l <> [] -> in_order h (addrs es) l -> real_time_prefix ops (ident h <$> l).
Proof using Htimes.
  intros Hn Hne (Hnd & Hall & Hord). pose proof (makeEntries_wf ops Htimes) as Hwf.
  assert (Hcalls : forall a, a ∈ l -> a ∈ calls_of h (addrs es)).
  { intros a Ha. rewrite Forall_forall in Hall. destruct (Hall a Ha). by apply list_elem_of_filter. }
  split_and!; [by destruct l|done| |].
  - apply Forall_fmap, Forall_forall. intros a Ha.
    destruct (call_op ops Htimes h Hn a (Hcalls a Ha)) as [o Ho]. by apply lookup_lt_Some in Ho.
  - intros p1 i p2 j E Hj Hrb. apply fmap_app_inv in E as (l1 & l2 & -> & E & ->).
    symmetry in E. apply fmap_cons_inv in E as (a & l2' & -> & -> & ->).
    destruct Hrb as (o & o' & Ho & Ho' & Hlt).
    destruct (call_of_op ops Htimes h Hn j o Ho) as (b & Hb & Hbj). subst j.
    assert (Hb' := Hb). apply list_elem_of_filter in Hb' as [Hm Hin]. unfold is_call in Hm.
    destruct (matchOf h b) as [r|] eqn:Hr; [|done].
    apply (Hord l1 a l2' b r eq_refl Hin Hr Hj).
    apply (node_order ops Htimes h Hn a b r); [apply Hcalls; set_solver|done|done|]. by exists o, o'.
Qed.

(** Whatever [checkSingle] records is such a prefix, also when it is killed. *)
Lemma checkSingle_prefix computePartial kill fuel ok longest it ids :
  checkSingle nilV model es computePartial kill fuel = Returned ok longest ->
  Some (it, ids) ∈ longest -> real_time_prefix ops (Z.to_nat <$> ids).
Proof using Htimes.
  intros Hrun Hin. pose proof (makeEntries_wf ops Htimes) as Hwf.
  destruct (start_heap nilV _ es Hwf) as (h1 & Heq & Hn & Hl & _).
  unfold checkSingle in Hrun. rewrite Heq in Hrun.
  apply (search_loop_prefixes model h1 (length ops) (length es) (addrs es)) in Hrun.
  - unfold all_prefixes, all_recorded in Hrun. rewrite Forall_forall in Hrun.
    destruct (Hrun _ Hin) as (h & L & calls & Hst & Hne & Hs).
    assert (Hids : Z.to_nat <$> ids = ident h1 <$> reverse calls.*1).
    { unfold calls_seq in Hs. rewrite <- fmap_reverse, <- list_fmap_compose. clear -Hs.
      revert ids Hs. induction (reverse calls) as [|c l IH]; intros ids Hs; simpl in Hs; [by injection Hs as <-|].
      apply bind_Some in Hs as (i & (x & Hx & ->)%fmap_Some & Hs). apply bind_Some in Hs as (ks & Hks & [= <-]).
      rewrite !fmap_cons, (IH ks Hks). f_equal. unfold ident. simpl. by rewrite Hx. }
    rewrite Hids. apply in_order_prefix; [done| |].
    + destruct calls as [|c calls]; [done|]. rewrite fmap_cons, reverse_cons. intros E. by apply app_eq_nil in E as [_ ?].
    + eapply stack_in_order; [by apply Hl|done].
  - split; simpl; [|by apply Forall_replicate]. exists [], (addrs es). split_and!; [done| |done]. by constructor.
  - intros Hpos E. apply (f_equal length) in E. unfold es in E. rewrite length_addrs, (wh_length _ _ Hwf) in E. simpl in E. lia.
Qed.
End ops.
