(* ===== verification/PorcCheck.v ===== *)
(** * Checking a history: src/src/porcupine/checker.go and porcupine.go

    [checkParallel] starts one goroutine per partition and collects their results
    from a channel, in the order they arrive, unless the timer fires first. The
    order of arrival and the timer are an argument, a list of arrivals; waiting
    for an arrival that never comes is [None]. *)

From S2P Require Import Prelude GoLib Bitset PorcList Porcupine PorcLink PorcCorrect PorcLinear PorcOps.

Inductive Arrival := Result (ok : bool) | TimedOut.

(** The loop of [checkParallel]: [ok] and [count] are its variables. The result is
    [ok], [timedOut] and [count] after the loop, and the arrivals still to come. *)
Fixpoint collect (computeInfo : bool) (nparts : nat) (arrivals : list Arrival) (ok : bool) (count : nat)
    : option (bool * bool * nat * list Arrival) :=
  match arrivals with
  | [] => None
  | TimedOut :: arrivals => Some (ok, true, count, arrivals)
  | Result result :: arrivals =>
      let count := S count in
      let ok := ok && result in
      if negb ok && negb computeInfo then Some (ok, false, count, arrivals)
      else if decide (nparts <= count) then Some (ok, false, count, arrivals)
      else collect computeInfo nparts arrivals ok count
  end.

(** [for count < len(history) { <-results; count++ }]; the timer is not read any
    more. *)
Fixpoint drain (nparts : nat) (arrivals : list Arrival) (count : nat) : option nat :=
  if decide (nparts <= count) then Some count
  else match arrivals with
       | [] => None
       | Result _ :: arrivals => drain nparts arrivals (S count)
       | TimedOut :: arrivals => drain nparts arrivals count
       end.

Definition check_result (ok timedOut : bool) : CheckResult :=
  if negb ok then Illegal else if timedOut then Unknown else Ok.

(** The slices of [longest], each pointer once; [range] over a map visits them in
    some order. *)
Definition partials (longest : list (option (nat * list Z))) : list (list Z) :=
  (remove_dups (omap (fun x => x) longest)).*2.

Section check.
Context {V St : Type} `{!Sorter, !EqDecision St}.
Variable nilV : V.

Record linearizationInfo := mkInfo {
  li_history : list (list (entry V));
  li_partialLinearizations : list (list (list Z));
}.

(** [longest] is what the goroutines wrote into the slice of that name. *)
Definition checkParallel (history : list (list (entry V))) (computeInfo : bool)
    (longest : list (list (option (nat * list Z)))) (arrivals : list Arrival)
    : option (CheckResult * linearizationInfo) :=
  '(ok, timedOut, count, arrivals) ← collect computeInfo (length history) arrivals true 0;
  if computeInfo then
    _ ← drain (length history) arrivals count;
    Some (check_result ok timedOut, mkInfo history (partials <$> longest))
  else Some (check_result ok timedOut, mkInfo [] []).

(** The histories [checkOperations] gives to [checkParallel]. *)
Definition operation_parts (model : FullModel V St) (history : list (Operation V)) : list (list (entry V)) :=
  makeEntries <$> Partition model history.

Definition event_parts (model : FullModel V St) (history : list (Event V)) : list (list (entry V)) :=
  (fun sub => convertEntries (renumber sub)) <$> PartitionEvent model history.

Definition checkOperations (model : Model V St) (history : list (Operation V)) (verbose : bool)
    (longest : list (list (option (nat * list Z)))) (arrivals : list Arrival)
    : option (CheckResult * linearizationInfo) :=
  checkParallel (operation_parts (fillDefault model) history) verbose longest arrivals.

Definition checkEvents (model : Model V St) (history : list (Event V)) (verbose : bool)
    (longest : list (list (option (nat * list Z)))) (arrivals : list Arrival)
    : option (CheckResult * linearizationInfo) :=
  checkParallel (event_parts (fillDefault model) history) verbose longest arrivals.

Definition is_Ok (res : CheckResult) : bool := match res with Ok => true | _ => false end.

Definition CheckOperations (model : Model V St) (history : list (Operation V))
    (longest : list (list (option (nat * list Z)))) (arrivals : list Arrival) : option bool :=
  '(res, _) ← checkOperations model history false longest arrivals; Some (is_Ok res).

Definition CheckOperationsTimeout (model : Model V St) (history : list (Operation V))
    (longest : list (list (option (nat * list Z)))) (arrivals : list Arrival) : option CheckResult :=
  '(res, _) ← checkOperations model history false longest arrivals; Some res.

Definition CheckOperationsVerbose (model : Model V St) (history : list (Operation V))
    (longest : list (list (option (nat * list Z)))) (arrivals : list Arrival)
    : option (CheckResult * linearizationInfo) :=
  checkOperations model history true longest arrivals.

Definition CheckEvents (model : Model V St) (history : list (Event V))
    (longest : list (list (option (nat * list Z)))) (arrivals : list Arrival) : option bool :=
  '(res, _) ← checkEvents model history false longest arrivals; Some (is_Ok res).

Definition CheckEventsTimeout (model : Model V St) (history : list (Event V))
    (longest : list (list (option (nat * list Z)))) (arrivals : list Arrival) : option CheckResult :=
  '(res, _) ← checkEvents model history false longest arrivals; Some res.

Definition CheckEventsVerbose (model : Model V St) (history : list (Event V))
    (longest : list (list (option (nat * list Z)))) (arrivals : list Arrival)
    : option (CheckResult * linearizationInfo) :=
  checkEvents model history true longest arrivals.

(** The goroutine of the partition [sub] writes [longest] and sends [ok]:
    [checkSingle] returns them, for some number of iterations. The loop of
    [checkParallel] sets the kill flag when it ends, so a result it reads was
    computed with the flag clear. *)
Definition goroutine (model : FullModel V St) (verbose : bool) (kill : nat -> bool)
    (sub : list (entry V)) (ok : bool) (longest : list (option (nat * list Z))) : Prop :=
  exists fuel, checkSingle nilV model sub verbose kill fuel = Returned ok longest.

Definition sends (model : FullModel V St) (verbose : bool) (sub : list (entry V)) (ok : bool) : Prop :=
  exists longest, goroutine model verbose (fun _ => false) sub ok longest.

(** Without a timer, every goroutine sends its result, in some order. *)
Definition all_arrive (model : FullModel V St) (verbose : bool) (parts : list (list (entry V)))
    (arrivals : list Arrival) : Prop :=
  exists oks, Forall2 (sends model verbose) parts oks /\ arrivals ≡ₚ (Result <$> oks).

(** With a timer, the results before it, each of its own goroutine; what arrives
    afterwards does not matter. *)
Definition some_arrive (model : FullModel V St) (verbose : bool) (parts : list (list (entry V)))
    (arrivals : list Arrival) : Prop :=
  exists sub oks rest, sub ⊆+ parts /\ Forall2 (sends model verbose) sub oks /\
    arrivals = (Result <$> oks) ++ TimedOut :: rest.

(** ** collect *)

Lemma collect_all computeInfo nparts oks ok count :
  length oks + count = nparts -> oks <> [] ->
  exists ok' rest, collect computeInfo nparts (Result <$> oks) ok count
      = Some (ok', false, nparts - length rest, rest) /\
    (computeInfo = true -> rest = []) /\
    (ok' = true <-> ok = true /\ Forall (fun b => b = true) oks).
Proof.
  revert ok count. induction oks as [|b oks IH]; intros ok count Hlen Hne; [done|]. simpl.
  destruct (negb (ok && b) && negb computeInfo) eqn:Hstop.
  - exists (ok && b), (Result <$> oks). apply andb_true_iff in Hstop as [Hb Hc].
    split; [simpl in Hlen; rewrite length_fmap; do 3 f_equal; lia|].
    split; [by intros ->|].
    apply negb_true_iff in Hb. rewrite Hb. split; [done|]. intros [-> Hall]. by inversion_clear Hall; subst.
  - case_decide as Hc.
    + destruct oks; [|simpl in Hlen; lia]. exists (ok && b), []. simpl in *.
      split; [do 3 f_equal; lia|]. rewrite andb_true_iff, Forall_singleton. done.
    + destruct (IH (ok && b) (S count)) as (ok' & rest & Hcol & Hr & Hiff); [simpl in Hlen; lia|by intros ->; simpl in *; lia|].
      exists ok', rest. split; [done|]. rewrite Hiff, andb_true_iff, Forall_cons. tauto.
Qed.

(** The answer does not depend on the order of arrival. *)
Lemma checkParallel_all parts verbose longest oks arrivals :
  oks <> [] -> length parts = length oks -> arrivals ≡ₚ (Result <$> oks) ->
  exists res info, checkParallel parts verbose longest arrivals = Some (res, info) /\ res <> Unknown /\
    (res = Ok <-> Forall (fun b => b = true) oks).
Proof.
  intros Hne Hlen Hp. apply Permutation_map_inv in Hp as (oks' & -> & Hp).
  destruct (collect_all verbose (length oks) oks' true 0) as (ok' & rest & Hcol & Hr & Hiff);
    [rewrite Hp; lia|by intros ->; apply Hne, Permutation_nil_r|].
  unfold checkParallel. change (map Result oks') with (Result <$> oks'). rewrite Hlen, Hcol. simpl.
  exists (check_result ok' false), (if verbose then mkInfo parts (partials <$> longest) else mkInfo [] []).
  rewrite Hp. split; [|unfold check_result; destruct ok'; simpl; naive_solver].
  destruct verbose; [|done]. rewrite Hr by done. simpl. by rewrite decide_True by lia.
Qed.

(** Results before the timer: a negative answer comes from one of them, a positive
    one from all the partitions. *)
Lemma collect_timer computeInfo nparts oks rest ok count :
  exists ok' timedOut count' rest',
    collect computeInfo nparts ((Result <$> oks) ++ TimedOut :: rest) ok count
      = Some (ok', timedOut, count', rest') /\
    (ok' = false -> ok = false \/ false ∈ oks) /\
    (ok' = true -> timedOut = false -> ok = true /\
       exists n, nparts <= n + count /\ n <= length oks /\ Forall (fun b => b = true) (take n oks)).
Proof.
  revert ok count. induction oks as [|b oks IH]; intros ok count; simpl.
  { exists ok, true, count, rest. split_and!; [done|auto|done]. }
  destruct (negb (ok && b) && negb computeInfo) eqn:Hstop.
  - eexists _, _, _, _. split; [done|]. apply andb_true_iff in Hstop as [Hb _].
    apply negb_true_iff in Hb. rewrite Hb. split; [|done]. intros _. destruct ok; [|by left].
    right. simpl in Hb. subst b. by left.
  - case_decide as Hc.
    + eexists _, _, _, _. split; [done|]. split.
      * destruct ok; [|by left]. simpl. intros ->. right. by left.
      * intros [-> ->]%andb_true_iff _. split; [done|]. exists 1. split_and!; [lia..|]. simpl.
        by repeat constructor.
    + destruct (IH (ok && b) (S count)) as (ok' & t & c' & r' & Hcol & Hf & Ht).
      exists ok', t, c', r'. split; [done|]. split.
      * intros Hff. destruct (Hf Hff) as [Hb|Hin]; [|right; by right]. destruct ok; [|by left].
        simpl in Hb. subst b. right. by left.
      * intros Ht1 Ht2. destruct (Ht Ht1 Ht2) as ([-> ->]%andb_true_iff & n & Hn & Hl & Hall).
        split; [done|]. exists (S n). split_and!; [lia..|]. simpl. by constructor.
Qed.

(** ** CheckOperations *)

Lemma sends_decides model verbose ops ok :
  EqualSound model -> times_ok ops ->
  sends model verbose (makeEntries ops) ok -> ok = true <-> Linearizable model ops.
Proof.
  intros He Ht (longest & fuel & Hrun).
  destruct (checkSingle_decides nilV model ops verbose (fun _ => false) He Ht) as (fuel0 & Hd); [done|].
  destruct (Hd (fuel + fuel0)) as (ok' & longest' & Hrun' & Hiff); [lia|].
  assert (ok = ok') as ->; [|done].
  eapply checkSingle_more_fuel in Hrun. rewrite Hrun in Hrun'. congruence.
Qed.

Lemma sends_all model verbose parts oks :
  EqualSound model -> Forall times_ok parts ->
  Forall2 (sends model verbose) (makeEntries <$> parts) oks ->
  Forall (fun b => b = true) oks <-> Forall (Linearizable model) parts.
Proof.
  intros He Ht Hs. rewrite Forall2_fmap_l in Hs. induction Hs as [|sub b parts oks Hb Hs IH]; [by split|].
  apply Forall_cons in Ht as [Ht1 Ht]. rewrite !Forall_cons, IH by done.
  by rewrite (sends_decides model verbose sub b).
Qed.

(** What [checkParallel] answers on partitions made of operations: when every
    goroutine sends its result... *)
Lemma checkParallel_decides model verbose parts longest arrivals :
  EqualSound model -> Forall times_ok parts -> parts <> [] ->
  all_arrive model verbose (makeEntries <$> parts) arrivals ->
  exists res info, checkParallel (makeEntries <$> parts) verbose longest arrivals = Some (res, info) /\
    res <> Unknown /\ (res = Ok <-> Forall (Linearizable model) parts).
Proof.
  intros He Ht Hne (oks & Hs & Hp). pose proof (Forall2_length _ _ _ Hs) as Hlen.
  destruct (checkParallel_all (makeEntries <$> parts) verbose longest oks arrivals)
    as (res & info & Hc & Hu & Hok); [|done|done|].
  { intros ->. rewrite length_fmap in Hlen. simpl in Hlen. by apply Hne, nil_length_inv. }
  exists res, info. split_and!; [done..|]. by rewrite <- (sends_all _ _ _ _ He Ht Hs), <- Hok.
Qed.

(** ...and when the timer fires: what arrived before it decides. *)
Lemma checkParallel_timer model verbose parts longest arrivals :
  EqualSound model -> Forall times_ok parts -> verbose = false ->
  some_arrive model verbose (makeEntries <$> parts) arrivals ->
  exists res info, checkParallel (makeEntries <$> parts) verbose longest arrivals = Some (res, info) /\
    (res = Ok -> Forall (Linearizable model) parts) /\
    (res = Illegal -> Exists (fun ops => ~ Linearizable model ops) parts).
Proof.
  intros He Ht -> (sub & oks & rest & Hsub & Hs & ->).
  assert (Hsend : forall ops b, ops ∈ parts -> sends model false (makeEntries ops) b -> b = true <-> Linearizable model ops).
  { intros ops b Hin. apply sends_decides; [done|]. by eapply Forall_forall in Ht. }
  destruct (collect_timer false (length (makeEntries <$> parts)) oks rest true 0)
    as (ok' & t & c' & r' & Hcol & Hf & Hok).
  unfold checkParallel. rewrite Hcol. simpl.
  pose proof (Forall2_length _ _ _ Hs) as Hlen. pose proof (submseteq_length _ _ Hsub) as Hle.
  eexists _, _. split; [done|]. unfold check_result. split.
  - destruct ok'; [|done]. destruct t; [done|]. intros _.
    destruct (Hok eq_refl eq_refl) as (_ & m & Hm & Hmo & Hall).
    assert (Hpm : sub ≡ₚ makeEntries <$> parts) by (apply submseteq_length_Permutation; [done|lia]).
    apply Forall_forall. intros ops Hin.
    assert (Hsubin : makeEntries ops ∈ sub) by (rewrite Hpm; by apply list_elem_of_fmap_2).
    apply list_elem_of_lookup in Hsubin as [i Hi].
    destruct (Forall2_lookup_l _ _ _ _ _ Hs Hi) as (b & Hb & Hsd). apply (Hsend ops b Hin Hsd).
    rewrite take_ge in Hall by lia. by eapply Forall_lookup_1 in Hall.
  - destruct ok'; [by destruct t|]. intros _. destruct (Hf eq_refl) as [?|Hin]; [done|].
    apply list_elem_of_lookup in Hin as [i Hi].
    destruct (Forall2_lookup_r _ _ _ _ _ Hs Hi) as (es & Hes & Hsd).
    assert (Hin : es ∈ makeEntries <$> parts) by (eapply elem_of_submseteq; [by eapply list_elem_of_lookup_2|done]).
    apply list_elem_of_fmap in Hin as (ops & -> & Hops). apply Exists_exists. exists ops.
    split; [done|]. intros Hlin. by apply (Hsend ops false Hops Hsd) in Hlin.
Qed.

Lemma CheckOperations_decides model history longest arrivals :
  EqualSound (fillDefault model) -> Forall times_ok (Partition (fillDefault model) history) ->
  Partition (fillDefault model) history <> [] ->
  all_arrive (fillDefault model) false (operation_parts (fillDefault model) history) arrivals ->
  exists ok, CheckOperations model history longest arrivals = Some ok /\
    (ok = true <-> Forall (Linearizable (fillDefault model)) (Partition (fillDefault model) history)).
Proof.
  intros He Ht Hne Ha. unfold CheckOperations, checkOperations, operation_parts.
  destruct (checkParallel_decides _ _ _ longest _ He Ht Hne Ha) as (res & info & -> & _ & Hiff).
  simpl. exists (is_Ok res). split; [done|]. rewrite <- Hiff. by destruct res.
Qed.

Lemma CheckOperationsTimeout_decides model history longest arrivals :
  EqualSound (fillDefault model) -> Forall times_ok (Partition (fillDefault model) history) ->
  some_arrive (fillDefault model) false (operation_parts (fillDefault model) history) arrivals ->
  exists res, CheckOperationsTimeout model history longest arrivals = Some res /\
    (res = Ok -> Forall (Linearizable (fillDefault model)) (Partition (fillDefault model) history)) /\
    (res = Illegal -> Exists (fun ops => ~ Linearizable (fillDefault model) ops)
                        (Partition (fillDefault model) history)).
Proof.
  intros He Ht Ha. unfold CheckOperationsTimeout, checkOperations, operation_parts.
  destruct (checkParallel_timer _ _ _ longest _ He Ht eq_refl Ha) as (res & info & -> & Hok & Hill).
  by exists res.
Qed.
End check.
