(* ===== verification/PorcEvents.v ===== *)
(** * Histories of events

    [CheckEvents] takes a history as the sequence of its call and return events
    (src/src/porcupine/model.go) instead of operations with times. This file says
    which operations such a history describes and shows that [renumber] and
    [convertEntries] (checker.go) hand the search the very entries [makeEntries]
    would make of them. *)

From S2P Require Import Prelude GoLib Bitset PorcList Porcupine PorcLink PorcCorrect PorcLinear.
From S2P Require Import PorcOps PorcCheck.

#[export] Instance EventKind_eq_dec : EqDecision EventKind.
Proof. solve_decision. Defined.

(** A list is sorted when each element is in order with the next. *)
Lemma Sorted_lookup {A} (R : relation A) l :
  (forall i x y, l !! i = Some x -> l !! S i = Some y -> R x y) -> Sorted R l.
Proof.
  induction l as [|x l IH]; intros H; constructor; [apply IH; intros i; apply (H (S i))|].
  destruct l as [|y l]; constructor. by apply (H 0).
Qed.

Section events.
Context {V : Type}.
Implicit Types (events : list (Event V)) (v w : Event V).

(** ** The operations a history of events describes *)

Definition is_call v : Prop := ev_Kind v = CallEvent.
#[export] Instance is_call_dec v : Decision (is_call v).
Proof. unfold is_call. apply _. Defined.

(** [w] is the return event of the call [v]. *)
Definition returns v w : Prop := ev_Kind w = ReturnEvent /\ ev_Id w = ev_Id v.
#[export] Instance returns_dec v w : Decision (returns v w).
Proof. unfold returns. apply _. Defined.

(** The calls, each with its position. *)
Definition call_positions events : list (nat * Event V) :=
  filter (fun x => is_call x.2) (imap pair events).

(** The operation of the call [x]: its times are the positions of its events. *)
Definition operation_at events (x : nat * Event V) : option (Operation V) :=
  '(j, w) ← list_find (returns x.2) events;
  Some (mkOperation (ev_ClientId x.2) (ev_Value x.2) (Z.of_nat x.1) (ev_Value w) (Z.of_nat j)).

Definition operations events : list (Operation V) := omap (operation_at events) (call_positions events).

Definition kind_id v : EventKind * Z := (ev_Kind v, ev_Id v).

(** Every identifier is called once, then returns once, to the same client. *)
Record complete_events events : Prop := {
  ce_once : NoDup (kind_id <$> events);
  ce_called j w : events !! j = Some w -> ev_Kind w = ReturnEvent ->
    exists i v, i < j /\ events !! i = Some v /\ is_call v /\ returns v w /\ ev_ClientId v = ev_ClientId w;
  ce_returns i v : events !! i = Some v -> is_call v -> exists j w, i < j /\ events !! j = Some w /\ returns v w;
}.

(** ** renumber *)

(** The identifiers, in the order of their calls. *)
Definition call_ids events : list Z := ev_Id <$> filter is_call events.

(** Every event is a call of a new identifier or a return of one called before. *)
Fixpoint calls_first (called : list Z) events : Prop :=
  match events with
  | [] => True
  | v :: events =>
      if decide (is_call v) then (ev_Id v ∉ called) /\ calls_first (called ++ [ev_Id v]) events
      else (ev_Id v ∈ called) /\ calls_first called events
  end.

(** [renumber] replaces an identifier by its rank in the order of the calls. *)
Definition ranked (ids : list Z) v w : Prop :=
  exists r, ids !! r = Some (ev_Id v) /\ w = mkEvent (ev_ClientId v) (ev_Kind v) (ev_Value v) (Z.of_nat r).

Lemma renumber_from_ranked called m events :
  (forall d r, m !! d = Some r <-> called !! r = Some d) -> calls_first called events ->
  Forall2 (ranked (called ++ call_ids events)) events (renumber_from m (length called) events).
Proof.
  revert called m. induction events as [|v events IH]; intros called m Hm Hf; [constructor|].
  unfold call_ids. simpl in Hf. rewrite filter_cons. simpl. destruct (decide (is_call v)) as [Hc|Hc].
  - destruct Hf as [Hnew Hf]. rewrite fmap_cons.
    destruct (m !! ev_Id v) as [r|] eqn:Hr; [by apply Hm, list_elem_of_lookup_2 in Hr|].
    constructor; [exists (length called); split; [by rewrite list_lookup_middle|done]|].
    rewrite cons_middle, app_assoc. replace (S (length called)) with (length (called ++ [ev_Id v]))
      by (rewrite length_app; simpl; lia).
    apply IH; [|done]. intros d r. destruct (decide (d = ev_Id v)) as [->|Hne].
    + rewrite lookup_insert_eq. split.
      * intros [= <-]. by rewrite list_lookup_middle.
      * intros [Hin|[Hge Hr']]%lookup_app_Some; [by apply list_elem_of_lookup_2 in Hin|].
        apply list_lookup_singleton_Some in Hr' as [Hr' _]. f_equal. lia.
    + rewrite lookup_insert_ne by done. rewrite Hm, lookup_app_Some, list_lookup_singleton_Some. naive_solver.
  - destruct Hf as [Hold Hf]. destruct (m !! ev_Id v) as [r|] eqn:Hr.
    + constructor; [|by apply IH]. exists r. split; [|done]. apply Hm in Hr. by apply lookup_app_l_Some.
    + apply list_elem_of_lookup in Hold as [r Hold%Hm]. congruence.
Qed.

Lemma calls_first_complete called events :
  NoDup called -> NoDup (called ++ call_ids events) ->
  (forall j w, events !! j = Some w -> ~ is_call w ->
     ev_Id w ∈ called \/ exists i v, i < j /\ events !! i = Some v /\ is_call v /\ ev_Id v = ev_Id w) ->
  calls_first called events.
Proof.
  revert called. induction events as [|v events IH]; intros called Hnd Hids Hret; [done|].
  unfold call_ids in Hids. rewrite filter_cons in Hids. simpl.
  destruct (decide (is_call v)) as [Hc|Hc].
  - rewrite fmap_cons in Hids. assert (Hnew : ev_Id v ∉ called) by (apply NoDup_app in Hids; set_solver).
    rewrite cons_middle, app_assoc in Hids. split; [done|]. apply IH; [by apply NoDup_app in Hids as (? & _ & _)|done|].
    intros j w Hj Hw. rewrite elem_of_app, list_elem_of_singleton.
    destruct (Hret (S j) w Hj Hw) as [?|([|i] & u & Hlt & Hi & Hu & Hid)]; [by left; left| |].
    + injection Hi as ->. by left; right.
    + right. exists i, u. simpl in Hi. split_and!; [lia|done..].
  - split.
    + destruct (Hret 0 v eq_refl Hc) as [?|(i & u & Hlt & _)]; [done|lia].
    + apply IH; [done..|]. intros j w Hj Hw.
      destruct (Hret (S j) w Hj Hw) as [?|([|i] & u & Hlt & Hi & Hu & Hid)]; [by left| |].
      * injection Hi as ->. done.
      * right. exists i, u. simpl in Hi. split_and!; [lia|done..].
Qed.

Lemma call_ids_NoDup events : NoDup (kind_id <$> events) -> NoDup (call_ids events).
Proof.
  unfold call_ids. induction events as [|v events IH]; [constructor|]. rewrite fmap_cons, NoDup_cons.
  intros [Hv Hnd]. rewrite filter_cons. case_decide as Hc; [|by apply IH]. rewrite fmap_cons. constructor; [|by apply IH].
  intros (w & Hid & [Hw Hin]%list_elem_of_filter)%list_elem_of_fmap. apply Hv, list_elem_of_fmap.
  exists w. split; [|done]. unfold is_call, kind_id in *. congruence.
Qed.

Lemma renumber_ranked events :
  complete_events events -> Forall2 (ranked (call_ids events)) events (renumber events).
Proof.
  intros [Honce Hcalled _]. apply (renumber_from_ranked []); [set_solver|].
  apply calls_first_complete; [constructor|by apply call_ids_NoDup|].
  intros j w Hj Hw. right. destruct (Hcalled j w Hj) as (i & v & ? & ? & ? & [_ ?] & _).
  { unfold is_call in Hw. by destruct (ev_Kind w). }
  by exists i, v.
Qed.

(** ** The operations *)

Lemma elem_of_call_positions events i v :
  (i, v) ∈ call_positions events <-> events !! i = Some v /\ is_call v.
Proof.
  unfold call_positions. rewrite list_elem_of_filter, elem_of_lookup_imap. simpl. naive_solver.
Qed.

Lemma call_positions_ids events : (fun x => ev_Id x.2) <$> call_positions events = call_ids events.
Proof.
  unfold call_positions, call_ids.
  assert (forall (f : nat -> Event V -> nat * Event V), (forall i v, (f i v).2 = v) ->
    (fun x => ev_Id x.2) <$> filter (fun x => is_call x.2) (imap f events) = ev_Id <$> filter is_call events) as H;
    [|by apply H].
  induction events as [|v events IH]; intros f Hf; [done|]. rewrite imap_cons, !filter_cons, Hf.
  specialize (IH (f ∘ S) (fun i w => Hf (S i) w)). case_decide; [|done].
  rewrite !fmap_cons, Hf. by f_equal.
Qed.

Section complete.
Variable events : list (Event V).
Hypothesis Hce : complete_events events.

Lemma event_unique i v j w :
  events !! i = Some v -> events !! j = Some w -> ev_Kind v = ev_Kind w -> ev_Id v = ev_Id w -> i = j.
Proof using Hce.
  intros Hi Hj Hk Hid. eapply (NoDup_lookup _ i j (ev_Kind v, ev_Id v) (ce_once _ Hce));
    rewrite list_lookup_fmap, ?Hi, ?Hj; simpl; unfold kind_id; congruence.
Qed.

Lemma operation_at_call i v j w :
  events !! i = Some v -> is_call v -> events !! j = Some w -> returns v w ->
  operation_at events (i, v)
    = Some (mkOperation (ev_ClientId v) (ev_Value v) (Z.of_nat i) (ev_Value w) (Z.of_nat j)).
Proof using Hce.
  intros Hi Hc Hj Hw. unfold operation_at; simpl.
  replace (list_find (returns v) events) with (Some (j, w)); [done|]. symmetry.
  apply list_find_Some. split_and!; [done..|]. intros k u Hk Hlt [Hu1 Hu2]. destruct Hw as [Hw1 Hw2].
  assert (k = j); [|lia]. eapply event_unique; [done..| |]; congruence.
Qed.

Lemma call_rank i v :
  events !! i = Some v -> is_call v ->
  exists r, call_positions events !! r = Some (i, v) /\ call_ids events !! r = Some (ev_Id v).
Proof using Hce.
  intros Hi Hc. assert (Hin : (i, v) ∈ call_positions events) by by apply elem_of_call_positions.
  apply list_elem_of_lookup in Hin as [r Hr]. exists r. split; [done|].
  by rewrite <- call_positions_ids, list_lookup_fmap, Hr.
Qed.

Lemma operations_lookup r : operations events !! r = call_positions events !! r ≫= operation_at events.
Proof using Hce.
  unfold operations. assert (Hall : Forall (fun x => is_Some (operation_at events x)) (call_positions events)).
  { apply Forall_forall. intros [i v] [Hi Hc]%elem_of_call_positions.
    destruct (ce_returns _ Hce i v Hi Hc) as (j & w & _ & Hj & Hw).
    rewrite (operation_at_call i v j w) by done. eauto. }
  revert r. induction Hall as [|x l [o Ho] Hall IH]; intros r; [done|]. simpl. rewrite Ho.
  destruct r as [|r]; simpl; [done|apply IH].
Qed.

(** The operation of rank [r]: its call and its return. *)
Lemma operations_lookup_call i v j w r :
  events !! i = Some v -> is_call v -> events !! j = Some w -> returns v w ->
  call_ids events !! r = Some (ev_Id v) ->
  operations events !! r
    = Some (mkOperation (ev_ClientId v) (ev_Value v) (Z.of_nat i) (ev_Value w) (Z.of_nat j)).
Proof using Hce.
  intros Hi Hc Hj Hw Hr. destruct (call_rank i v Hi Hc) as (r' & Hp & Hr').
  assert (r = r') as -> by (eapply NoDup_lookup; [apply call_ids_NoDup, Hce|done|done]).
  rewrite operations_lookup, Hp. simpl. by apply operation_at_call.
Qed.

Lemma operations_lookup_inv r o :
  operations events !! r = Some o ->
  exists i v j w, i < j /\ events !! i = Some v /\ is_call v /\ events !! j = Some w /\ returns v w /\
    ev_ClientId v = ev_ClientId w /\ call_ids events !! r = Some (ev_Id v) /\
    o = mkOperation (ev_ClientId v) (ev_Value v) (Z.of_nat i) (ev_Value w) (Z.of_nat j).
Proof using Hce.
  rewrite operations_lookup. intros ([i v] & Hp & Ho)%bind_Some.
  pose proof (list_elem_of_lookup_2 _ _ _ Hp) as [Hi Hc]%elem_of_call_positions.
  destruct (ce_returns _ Hce i v Hi Hc) as (j & w & Hlt & Hj & Hw).
  rewrite (operation_at_call i v j w) in Ho by done. injection Ho as <-.
  exists i, v, j, w. split_and!; [done..| | |done].
  - destruct (ce_called _ Hce j w Hj (proj1 Hw)) as (i' & v' & _ & Hi' & Hc' & [_ Hid] & Hcl).
    assert (i' = i) as ->; [|congruence]. destruct Hw as [_ Hid'].
    eapply event_unique; [done..| |]; unfold is_call in *; congruence.
  - by rewrite <- call_positions_ids, list_lookup_fmap, Hp.
Qed.

Lemma operations_times : times_ok (operations events).
Proof using Hce.
  apply Forall_lookup. intros r o (i & v & j & w & ? & _ & _ & _ & _ & _ & _ & ->)%operations_lookup_inv.
  simpl. lia.
Qed.

(** The entries of the converted history. *)
Lemma convert_lookup k e :
  convertEntries (renumber events) !! k = Some e <->
  exists v r, events !! k = Some v /\ call_ids events !! r = Some (ev_Id v) /\
    e = mkEntry (match ev_Kind v with ReturnEvent => returnEntry | CallEvent => callEntry end)
          (ev_Value v) r (Z.of_nat k) (ev_ClientId v).
Proof using Hce.
  unfold convertEntries. rewrite list_lookup_imap. pose proof (renumber_ranked _ Hce) as Hr. split.
  - intros (w & Hw & He)%fmap_Some. destruct (Forall2_lookup_r _ _ _ _ _ Hr Hw) as (v & Hv & r & Hid & ->).
    exists v, r. subst e. unfold convertEntry; simpl. by rewrite Nat2Z.id.
  - intros (v & r & Hv & Hid & ->). destruct (Forall2_lookup_l _ _ _ _ _ Hr Hv) as (w & Hw & r' & Hid' & ->).
    assert (r = r') as -> by (eapply NoDup_lookup; [apply call_ids_NoDup, Hce|done|done]).
    rewrite Hw. simpl. unfold convertEntry; simpl. by rewrite Nat2Z.id.
Qed.

Lemma convert_perm : convertEntries (renumber events) ≡ₚ entries_from 0 (operations events).
Proof using Hce.
  apply NoDup_Permutation.
  - apply NoDup_alt. intros i j e (v & r & _ & _ & ->)%convert_lookup (w & r' & _ & _ & He)%convert_lookup.
    injection He as _ _ _ He _. lia.
  - eapply NoDup_fmap_1, entries_from_NoDup.
  - intros e. rewrite list_elem_of_lookup, elem_of_entries_from. split.
    + intros (k & (v & r & Hv & Hid & ->)%convert_lookup). destruct (ev_Kind v) eqn:Hk.
      * destruct (ce_returns _ Hce k v Hv Hk) as (j & w & _ & Hj & Hw).
        exists r. eexists. split; [by apply (operations_lookup_call k v j w r)|]. by left.
      * destruct (ce_called _ Hce k v Hv Hk) as (i & u & _ & Hi & Hc & Hu & Hcl).
        pose proof Hu as [_ Hid']. rewrite Hid' in Hid.
        exists r. eexists. split; [by apply (operations_lookup_call i u k v r)|]. right. unfold return_entry; simpl.
        by rewrite Hcl.
    + intros (r & o & Ho & He). destruct (operations_lookup_inv r o Ho)
        as (i & v & j & w & _ & Hi & Hc & Hj & [Hw Hid] & Hcl & Hr & ->).
      destruct He as [->| ->]; [exists i; apply convert_lookup; exists v, r|exists j; apply convert_lookup; exists w, r].
      * by rewrite Hc.
      * rewrite Hw, Hid. split_and!; [done..|]. unfold return_entry; simpl. by rewrite Hcl.
Qed.

(** The entries the checker makes of the events are those it makes of the operations. *)
Lemma convert_makeEntries `{!Sorter} :
  convertEntries (renumber events) = makeEntries (operations events).
Proof using Hce.
  assert (Htimes : forall j k x y, convertEntries (renumber events) !! j = Some x ->
    convertEntries (renumber events) !! k = Some y -> not_after byTime_Less x y -> j <= k).
  { intros j k x y (v & r & _ & _ & ->)%convert_lookup (w & r' & _ & _ & ->)%convert_lookup.
    unfold not_after, byTime_Less; simpl. intros Hna.
    destruct (decide (j <= k)) as [|Hgt]; [done|]. rewrite decide_True in Hna by lia.
    apply bool_decide_eq_false in Hna. lia. }
  apply (Sorted_unique_strong (not_after byTime_Less)).
  - intros x y [j Hj]%list_elem_of_lookup Hy Hxy Hyx. unfold makeEntries in Hy.
    rewrite sort_by_perm, <- convert_perm in Hy. apply list_elem_of_lookup in Hy as [k Hk].
    assert (j = k) as -> by (apply Nat.le_antisymm; eauto). congruence.
  - apply Sorted_lookup. intros j x y (v & r & _ & _ & ->)%convert_lookup (w & r' & _ & _ & ->)%convert_lookup.
    unfold not_after, byTime_Less; simpl. rewrite decide_True by lia. apply bool_decide_eq_false. lia.
  - unfold makeEntries. apply sort_by_sorted, _.
  - unfold makeEntries. by rewrite sort_by_perm, convert_perm.
Qed.
End complete.
End events.

(** ** CheckEvents *)

Section check.
Context {V St : Type} {HS : Sorter} `{!EqDecision St}.
Variables (nilV : V) (model : Model V St) (history : list (Event V)).
Let full := fillDefault model.

(** The partitions of the history, as operations. *)
Definition operations_of_parts : list (list (Operation V)) := operations <$> PartitionEvent full history.

Hypothesis Hequal : EqualSound full.
Hypothesis Hparts : Forall complete_events (PartitionEvent full history).

Lemma event_parts_operations : event_parts full history = makeEntries <$> operations_of_parts.
Proof using Hparts.
  unfold event_parts, operations_of_parts. rewrite <- list_fmap_compose.
  apply list_fmap_ext. intros k sub Hk. apply convert_makeEntries. by eapply Forall_lookup_1 in Hparts.
Qed.

Lemma operations_of_parts_times : Forall times_ok operations_of_parts.
Proof using Hparts.
  apply Forall_fmap. eapply Forall_impl; [done|]. intros sub. apply operations_times.
Qed.

Lemma CheckEvents_decides longest arrivals :
  PartitionEvent full history <> [] ->
  all_arrive nilV full false (event_parts full history) arrivals ->
  exists ok, CheckEvents model history longest arrivals = Some ok /\
    (ok = true <-> Forall (Linearizable full) operations_of_parts).
Proof using HS Hequal Hparts.
  intros Hne Ha. unfold CheckEvents, checkEvents. fold full. rewrite event_parts_operations in *.
  destruct (checkParallel_decides nilV full false operations_of_parts longest arrivals)
    as (res & info & -> & _ & Hiff); [done|apply operations_of_parts_times| |done|].
  { unfold operations_of_parts. by intros ?%fmap_nil_inv. }
  simpl. exists (is_Ok res). split; [done|]. rewrite <- Hiff. by destruct res.
Qed.

Lemma CheckEventsTimeout_decides longest arrivals :
  some_arrive nilV full false (event_parts full history) arrivals ->
  exists res, CheckEventsTimeout model history longest arrivals = Some res /\
    (res = Ok -> Forall (Linearizable full) operations_of_parts) /\
    (res = Illegal -> Exists (fun ops => ~ Linearizable full ops) operations_of_parts).
Proof using HS Hequal Hparts.
  intros Ha. unfold CheckEventsTimeout, checkEvents. fold full. rewrite event_parts_operations in *.
  destruct (checkParallel_timer nilV full false operations_of_parts longest arrivals)
    as (res & info & -> & Hok & Hill); [done|apply operations_of_parts_times|done|done|].
  by exists res.
Qed.
End check.
