(* ===== verification/Longest.v ===== *)
(** * The first of the longest lists that have an element

    [computeVisualizationData] and the script of its page record, for every operation,
    the first of the longest linearizations it belongs to or could follow. Both use the
    loop [note]; what it finds is [best]. *)

From S2P Require Import Prelude.

Section longest.
Context `{Countable K}.
Implicit Types (m : gmap K (nat * nat)) (seen : list (list K * nat)) (k : K).

(** The list [i], of length [len], has [k]. *)
Definition note (i len : nat) m k : gmap K (nat * nat) :=
  match m !! k with
  | Some (_, len') => if decide (len' < len) then <[k := (i, len)]> m else m
  | None => <[k := (i, len)]> m
  end.

(** The [l]-th of the lists, of the given lengths, is the first of the longest that have [k]. *)
Definition best seen k (l : nat) : Prop :=
  exists ks len, seen !! l = Some (ks, len) /\ k ∈ ks /\
    forall l' ks' len', seen !! l' = Some (ks', len') -> k ∈ ks' -> len' <= len /\ (l' < l -> len' < len).

Lemma best_unique seen k l l' : best seen k l -> best seen k l' -> l = l'.
Proof.
  intros (ks & len & Hl & Hk & Hb) (ks' & len' & Hl' & Hk' & Hb').
  destruct (Hb _ _ _ Hl' Hk') as [? ?], (Hb' _ _ _ Hl Hk) as [? ?]. lia.
Qed.

Definition longest_of seen m : Prop :=
  forall k, match m !! k with
  | Some (l, len) => best seen k l /\ snd <$> seen !! l = Some len
  | None => forall ks len, (ks, len) ∈ seen -> k ∉ ks
  end.

(** An entry that a list of length [len] replaces. *)
Definition shorter (len : nat) (e : option (nat * nat)) : Prop :=
  match e with Some (_, len') => len' < len | None => True end.

#[export] Instance shorter_dec len e : Decision (shorter len e).
Proof. destruct e as [[? ?]|]; unfold shorter; apply _. Defined.

Lemma note_lookup i len m k k' :
  note i len m k !! k' = if decide (k = k' /\ shorter len (m !! k)) then Some (i, len) else m !! k'.
Proof.
  unfold note. destruct (decide (k = k')) as [->|Hne].
  - destruct (m !! k') as [[l len']|] eqn:Hm; simpl; repeat case_decide; try tauto; by rewrite ?lookup_insert_eq.
  - rewrite decide_False by tauto. destruct (m !! k) as [[l len']|]; [case_decide|]; by rewrite ?lookup_insert_ne.
Qed.

Lemma fold_note i len ks m k :
  foldl (note i len) m ks !! k = if decide (k ∈ ks /\ shorter len (m !! k)) then Some (i, len) else m !! k.
Proof.
  induction ks as [|k' ks IH] using rev_ind; cbn [foldl]; [rewrite decide_False; [done|]; by intros [?%not_elem_of_nil ?]|].
  rewrite foldl_snoc, note_lookup. destruct (decide (k' = k)) as [->|Hne].
  - rewrite !IH. destruct (decide (k ∈ ks)), (decide (shorter len (m !! k))) as [Hs|Hs];
      repeat (case_decide; simpl in *; try tauto; try lia); set_solver.
  - rewrite decide_False by tauto. rewrite IH. apply decide_ext. set_solver.
Qed.

Lemma longest_step seen ks len m :
  longest_of seen m -> longest_of (seen ++ [(ks, len)]) (foldl (note (length seen) len) m ks).
Proof.
  intros Hinv k. specialize (Hinv k). rewrite fold_note.
  assert (Hsnoc : forall l ks' len', (seen ++ [(ks, len)]) !! l = Some (ks', len') <->
    seen !! l = Some (ks', len') \/ (l = length seen /\ ks' = ks /\ len' = len)).
  { intros l ks' len'. rewrite lookup_app_Some, list_lookup_singleton_Some. split.
    - intros [?|(? & ? & [= <- <-])]; [by left|right; split; [lia|done]].
    - intros [?|(-> & -> & ->)]; [by left|right; split_and!; [done|lia|done]]. }
  destruct (decide (k ∈ ks /\ shorter len (m !! k))) as [[Hin Hs]|Hno].
  - split; [|by rewrite list_lookup_middle]. exists ks, len. split_and!; [by apply Hsnoc; right|done|].
    intros l' ks' len' [Hl'|(-> & -> & ->)]%Hsnoc Hk; [|lia]. destruct (m !! k) as [[l ln]|].
    + destruct Hinv as [(ks0 & len0 & Hl & _ & Hbest) Hln]. rewrite Hl in Hln. injection Hln as <-.
      destruct (Hbest _ _ _ Hl' Hk). simpl in Hs. lia.
    + by destruct (Hinv ks' len' (list_elem_of_lookup_2 _ _ _ Hl')).
  - destruct (m !! k) as [[l ln]|] eqn:Hm.
    + destruct Hinv as [(ks0 & len0 & Hl & Hk & Hbest) Hln]. rewrite Hl in Hln. injection Hln as <-.
      split; [|by rewrite (proj2 (Hsnoc l ks0 len0)) by (by left)]. exists ks0, len0. split_and!; [apply Hsnoc; by left|done|].
      intros l' ks' len' [Hl'|(-> & -> & ->)]%Hsnoc Hk'; [by apply (Hbest l' ks')|]. simpl in Hno.
      assert (~ len0 < len) by tauto. apply lookup_lt_Some in Hl. lia.
    + intros ks' len' [Hin|[= -> ->]%list_elem_of_singleton]%elem_of_app; [by apply (Hinv _ len')|]. simpl in Hno. tauto.
Qed.

Lemma longest_empty : longest_of [] ∅.
Proof. intros k. rewrite lookup_empty. intros ks len ?%not_elem_of_nil. done. Qed.
End longest.
