(* ===== verification/Visualization.v ===== *)
(** * The data of the visualization: src/src/porcupine/visualization.go

    [computeVisualizationData] lists the operations of every partition and replays
    every partial linearization. It panics when a replayed step is not allowed by
    the model, and on an id out of range; a panic is [None]. The descriptions are
    what the functions [DescribeOperation] and [DescribeState] of the model return.
    [Visualize] and [VisualizePath] write the data as JSON into a page. *)

From S2P Require Import Prelude GoLib Bitset PorcList Porcupine PorcSearch PorcLink PorcPartial.
From S2P Require Import PorcOps PorcPrefix PorcCheck Longest.

Record historyElement := mkHistoryElement {
  he_ClientId : Z; he_Start : Z; he_End : Z; he_Description : string }.

Record linearizationStep := mkLinearizationStep { ls_Index : Z; ls_StateDescription : string }.

Record partitionVisualizationData := mkPartitionData {
  pd_History : list historyElement;
  pd_PartialLinearizations : list (list linearizationStep);
  pd_Largest : gmap Z nat;
}.

Section visualization.
Context {V St : Type} `{!Sorter}.
(** The value of a missing key of a map of interface values. *)
Variable nilV : V.
Variable model : FullModel V St.
Variable DescribeOperation : V -> V -> string.
Variable DescribeState : St -> string.

(** The loop over the entries of a partition: [history], [callValue] and
    [returnValue]. *)
Definition vis_entry (acc : option (list historyElement * gmap nat V * gmap nat V)) (elem : entry V)
    : option (list historyElement * gmap nat V * gmap nat V) :=
  '(history, callValue, returnValue) ← acc;
  he ← history !! e_id elem;
  Some match e_kind elem with
  | callEntry =>
      (<[e_id elem := mkHistoryElement (e_clientId elem) (e_time elem) (he_End he) (he_Description he)]> history,
       <[e_id elem := e_value elem]> callValue, returnValue)
  | returnEntry =>
      (<[e_id elem := mkHistoryElement (he_ClientId he) (he_Start he) (e_time elem)
           (DescribeOperation (default nilV (callValue !! e_id elem)) (e_value elem))]> history,
       callValue, <[e_id elem := e_value elem]> returnValue)
  end.

Definition vis_entries (es : list (entry V)) : option (list historyElement * gmap nat V * gmap nat V) :=
  foldl vis_entry (Some (replicate (length es / 2) (mkHistoryElement 0 0 0 ""), ∅, ∅)) es.

(** [largestIndex] and [largestSize] after the linearization [i], of length [len]. *)
Definition note_largest (i len : nat) (histId : Z) (largest : gmap Z nat * gmap Z nat)
    : gmap Z nat * gmap Z nat :=
  let '(largestIndex, largestSize) := largest in
  if decide (default 0 (largestSize !! histId) < len)
  then (<[histId := i]> largestIndex, <[histId := len]> largestSize) else largest.

(** The loop over the steps of one linearization, of length [len]. *)
Fixpoint vis_steps (callValue returnValue : gmap nat V) (i len : nat) (partial : list Z) (state : St)
    (largest : gmap Z nat * gmap Z nat)
    : option (list linearizationStep * (gmap Z nat * gmap Z nat)) :=
  match partial with
  | [] => Some ([], largest)
  | histId :: partial =>
      let '(ok, state) := Step model state (default nilV (callValue !! Z.to_nat histId))
                            (default nilV (returnValue !! Z.to_nat histId)) in
      if ok then
        '(steps, largest) ← vis_steps callValue returnValue i len partial state
                              (note_largest i len histId largest);
        Some (mkLinearizationStep histId (DescribeState state) :: steps, largest)
      else None
  end.

(** The loop over the linearizations, the first of which is the [i]-th. *)
Fixpoint vis_partials (callValue returnValue : gmap nat V) (i : nat) (partials : list (list Z))
    (largest : gmap Z nat * gmap Z nat)
    : option (list (list linearizationStep) * (gmap Z nat * gmap Z nat)) :=
  match partials with
  | [] => Some ([], largest)
  | partial :: partials =>
      '(steps, largest) ← vis_steps callValue returnValue i (length partial) partial (Init model) largest;
      '(rest, largest) ← vis_partials callValue returnValue (S i) partials largest;
      Some (steps :: rest, largest)
  end.

(** [len(partials[i]) > len(partials[j])] *)
Definition longer (a b : list Z) : bool := bool_decide (length b < length a).

Definition vis_partition (es : list (entry V)) (partials : list (list Z)) : option partitionVisualizationData :=
  '(history, callValue, returnValue) ← vis_entries es;
  '(linearizations, (largestIndex, _)) ←
    vis_partials callValue returnValue 0 (sort_by longer partials) (∅, ∅);
  Some (mkPartitionData history linearizations largestIndex).

(** [info.partialLinearizations[partition]] panics out of range. *)
Definition computeVisualizationData (info : linearizationInfo) : option (list partitionVisualizationData) :=
  mapM (fun '(i, es) => partials ← li_partialLinearizations info !! i; vis_partition es partials)
    (imap pair (li_history info)).

(** ** The history of a partition *)

(** What the loop knows after the entries [p]. *)
Record vis_seen n (p : list (entry V)) (history : list historyElement) (callValue returnValue : gmap nat V)
    : Prop := {
  vs_length : length history = n;
  vs_call e : e ∈ p -> e_kind e = callEntry -> callValue !! e_id e = Some (e_value e) /\
    exists he, history !! e_id e = Some he /\ he_ClientId he = e_clientId e /\ he_Start he = e_time e;
  vs_return e c : e ∈ p -> e_kind e = returnEntry -> c ∈ p -> e_kind c = callEntry -> e_id c = e_id e ->
    returnValue !! e_id e = Some (e_value e) /\
    exists he, history !! e_id e = Some he /\ he_End he = e_time e /\
      he_Description he = DescribeOperation (e_value c) (e_value e);
}.

Lemma vis_entry_seen n es p e q st :
  wf_history n es -> es = p ++ e :: q ->
  (exists history cv rv, st = Some (history, cv, rv) /\ vis_seen n p history cv rv) ->
  exists history cv rv, vis_entry st e = Some (history, cv, rv) /\ vis_seen n (p ++ [e]) history cv rv.
Proof.
  intros Hwf Hes (history & cv & rv & -> & [Hlen Hcall Hret]).
  assert (He : es !! length p = Some e) by (rewrite Hes; by apply list_lookup_middle).
  assert (Hp : forall x, x ∈ p -> exists i, i < length p /\ es !! i = Some x).
  { intros x [i Hi]%list_elem_of_lookup. exists i. split; [by eapply lookup_lt_Some|].
    rewrite Hes. by apply lookup_app_l_Some. }
  assert (Hnew : forall x, x ∈ p -> e_id x = e_id e -> e_kind x = e_kind e -> False).
  { intros x Hx Hi Hk. destruct (Hp x Hx) as (i & Hlt & Hx').
    pose proof (wh_unique _ _ Hwf _ _ _ _ Hx' He Hi Hk). lia. }
  pose proof (wh_range _ _ Hwf _ _ He) as Hrange.
  destruct (lookup_lt_is_Some_2 history (e_id e)) as [he Hhe]; [lia|].
  unfold vis_entry. simpl. rewrite Hhe. simpl. destruct (e_kind e) eqn:Hk; eexists _, _, _; (split; [done|]).
  - split; [by rewrite length_insert| |].
    + intros x [Hx| ->%list_elem_of_singleton]%elem_of_app Hxk.
      * destruct (Hcall x Hx Hxk) as (Hcv & hx & Hhx & ? & ?). assert (e_id x <> e_id e) by (intros ?; by eapply Hnew).
        rewrite lookup_insert_ne, list_lookup_insert_ne by done. eauto.
      * rewrite lookup_insert_eq, list_lookup_insert_eq by lia. eauto.
    + intros x c [Hx| ->%list_elem_of_singleton]%elem_of_app Hxk [Hc| ->%list_elem_of_singleton]%elem_of_app Hck Hid;
        try congruence.
      * destruct (Hret x c Hx Hxk Hc Hck Hid) as (Hrv & hx & Hhx & ? & ?). split; [done|].
        assert (e_id c <> e_id e) by (intros ?; eapply (Hnew c); congruence).
        rewrite list_lookup_insert_ne by congruence. eauto.
      * destruct (Hp x Hx) as (j & Hlt & Hxj).
        destruct (wh_return _ _ Hwf _ _ Hxj Hxk) as (i & c & Hij & Hci & Hck' & Hcid).
        pose proof (wh_unique _ _ Hwf _ _ _ _ Hci He ltac:(congruence) ltac:(congruence)). lia.
  - split; [by rewrite length_insert| |].
    + intros x [Hx| ->%list_elem_of_singleton]%elem_of_app Hxk; [|congruence].
      destruct (Hcall x Hx Hxk) as (Hcv & hx & Hhx & Hcl & Hst). split; [done|].
      destruct (decide (e_id x = e_id e)) as [Heq|Hne].
      * rewrite Heq, list_lookup_insert_eq by lia. rewrite Heq, Hhe in Hhx. injection Hhx as <-. eauto.
      * rewrite list_lookup_insert_ne by done. eauto.
    + intros x c [Hx| ->%list_elem_of_singleton]%elem_of_app Hxk [Hc| ->%list_elem_of_singleton]%elem_of_app Hck Hid;
        try congruence.
      * destruct (Hret x c Hx Hxk Hc Hck Hid) as (Hrv & hx & Hhx & ? & ?).
        assert (e_id x <> e_id e) by (intros ?; eapply (Hnew x); congruence).
        rewrite lookup_insert_ne, list_lookup_insert_ne by done. eauto.
      * rewrite lookup_insert_eq, list_lookup_insert_eq by lia. split; [done|].
        destruct (Hcall c Hc Hck) as [Hcv _]. rewrite Hid in Hcv. rewrite Hcv. eauto.
Qed.

Lemma vis_entries_seen n es :
  wf_history n es ->
  exists history cv rv, vis_entries es = Some (history, cv, rv) /\ vis_seen n es history cv rv.
Proof.
  intros Hwf. unfold vis_entries. assert (Hn : length es / 2 = n)
    by (rewrite (wh_length _ _ Hwf), Nat.mul_comm; by apply Nat.div_mul).
  rewrite Hn. enough (Hall : forall p q, es = p ++ q -> exists history cv rv,
    foldl vis_entry (Some (replicate n (mkHistoryElement 0 0 0 ""), ∅, ∅)) p = Some (history, cv, rv) /\
    vis_seen n p history cv rv) by (apply (Hall es []); by rewrite app_nil_r).
  induction p as [|e p IH] using rev_ind; intros q Heq.
  - eexists _, _, _. split; [done|]. split; [by rewrite length_replicate|set_solver..].
  - rewrite foldl_snoc. apply (vis_entry_seen n es p e q); [done|by rewrite Heq, <- app_assoc|].
    apply (IH (e :: q)). by rewrite Heq, <- app_assoc.
Qed.

(** ** The linearizations *)

Definition indices (steps : list linearizationStep) : list Z := ls_Index <$> steps.

Lemma vis_steps_legal n es history cv rv i len partial s largest :
  vis_seen n es history cv rv -> legal_ids model es s partial ->
  exists steps largest', vis_steps cv rv i len partial s largest = Some (steps, largest') /\
    indices steps = partial.
Proof.
  intros Hv. revert s largest. induction partial as [|k partial IH]; intros s largest; simpl; [by eauto|].
  intros (c & r & s' & Hc & Hr & Hck & Hrk & <- & Hri & Hs & Hl). rewrite Nat2Z.id.
  destruct (vs_call _ _ _ _ _ Hv c Hc Hck) as [-> _].
  destruct (vs_return _ _ _ _ _ Hv r c Hr Hrk Hc Hck) as [Hrv _]; [lia|].
  replace (e_id c) with (e_id r) by lia. rewrite Hrv. simpl. rewrite Hs.
  destruct (IH s' (note_largest i len (Z.of_nat (e_id c)) largest) Hl) as (steps & lg & Hst & Hidx).
  rewrite Hri, Hst. simpl. eexists _, _. split; [done|]. unfold indices in *. rewrite fmap_cons, Hidx. simpl. congruence.
Qed.

Lemma vis_partials_legal n es history cv rv i parts largest :
  vis_seen n es history cv rv -> Forall (legal_ids model es (Init model)) parts ->
  exists lins largest', vis_partials cv rv i parts largest = Some (lins, largest') /\
    indices <$> lins = parts.
Proof.
  intros Hv Hl. revert i largest. induction Hl as [|p parts Hp Hl IH]; intros i largest; simpl; [by eauto|].
  destruct (vis_steps_legal n es history cv rv i (length p) p (Init model) largest Hv Hp)
    as (steps & lg & -> & Hidx). simpl.
  destruct (IH (S i) lg) as (lins & lg' & -> & Hlins). simpl. eexists _, _. split; [done|].
  by rewrite fmap_cons, Hlins, Hidx.
Qed.

(** The data of a partition: it describes every operation and replays every
    linearization, the longest first. *)
Lemma vis_partition_legal n es parts :
  wf_history n es -> Forall (legal_ids model es (Init model)) parts ->
  exists data cv rv, vis_partition es parts = Some data /\ vis_seen n es (pd_History data) cv rv /\
    indices <$> pd_PartialLinearizations data = sort_by longer parts.
Proof.
  intros Hwf Hl. destruct (vis_entries_seen n es Hwf) as (history & cv & rv & Heq & Hv).
  destruct (vis_partials_legal n es history cv rv 0 (sort_by longer parts) (∅, ∅) Hv)
    as (lins & [li lz] & Hp & Hidx); [by rewrite sort_by_perm|].
  unfold vis_partition. rewrite Heq. simpl. rewrite Hp. simpl. by eexists _, cv, rv.
Qed.

(** ** In terms of the operations *)

Definition op_element (o : Operation V) : historyElement :=
  mkHistoryElement (op_ClientId o) (op_Call o) (op_Return o) (DescribeOperation (op_Input o) (op_Output o)).

Lemma vis_seen_ops ops history cv rv :
  vis_seen (length ops) (makeEntries ops) history cv rv -> history = op_element <$> ops.
Proof.
  intros Hv. apply list_eq. intros i. rewrite list_lookup_fmap.
  destruct (ops !! i) as [o|] eqn:Ho; simpl.
  - assert (Hc : call_entry i o ∈ makeEntries ops) by (apply elem_of_makeEntries; eauto).
    assert (Hr : return_entry i o ∈ makeEntries ops) by (apply elem_of_makeEntries; eauto).
    destruct (vs_call _ _ _ _ _ Hv _ Hc eq_refl) as (_ & [] & Hhe & Hcl & Hst).
    destruct (vs_return _ _ _ _ _ Hv _ _ Hr eq_refl Hc eq_refl eq_refl) as (_ & he & Hhe' & Hend & Hd).
    simpl in *. rewrite Hhe in Hhe'. injection Hhe' as <-. simpl in *. unfold op_element. congruence.
  - apply lookup_ge_None_2. rewrite (vs_length _ _ _ _ _ Hv). by apply lookup_ge_None_1.
Qed.

Lemma legal_ids_ops ops s ids :
  legal_ids model (makeEntries ops) s ids ->
  legal model ops s (Z.to_nat <$> ids) /\ ids = Z.of_nat <$> (Z.to_nat <$> ids).
Proof.
  revert s. induction ids as [|k ids IH]; intros s; simpl; [done|].
  intros (c & r & s' & (i & o & Ho & Hc)%elem_of_makeEntries & (j & o' & Ho' & Hr)%elem_of_makeEntries
    & Hck & Hrk & <- & Hri & Hs & Hl).
  destruct Hc as [->| ->]; [|done]. destruct Hr as [->| ->]; [done|]. simpl in *.
  assert (j = i) as -> by lia. rewrite Ho in Ho'. injection Ho' as <-. rewrite Nat2Z.id.
  destruct (IH s' Hl) as [Hleg Hids]. split; [by exists o, s'|]. by f_equal.
Qed.

(** What the visualization shows of the operations of a partition: all of them, and
    sequences of some that the model accepts and that respect real time. *)
Definition shows (ops : list (Operation V)) (data : partitionVisualizationData) : Prop :=
  pd_History data = op_element <$> ops /\
  Forall (fun lin => exists p, indices lin = Z.of_nat <$> p /\ legal model ops (Init model) p /\
    real_time_prefix ops p) (pd_PartialLinearizations data).

Lemma vis_partition_shows ops verbose kill ok longest :
  times_ok ops -> goroutine nilV model verbose kill (makeEntries ops) ok longest ->
  exists data, vis_partition (makeEntries ops) (partials longest) = Some data /\ shows ops data.
Proof.
  intros Ht [fuel Hrun]. pose proof (makeEntries_wf ops Ht) as Hwf.
  assert (Hl : Forall (fun ids => legal_ids model (makeEntries ops) (Init model) ids /\
    real_time_prefix ops (Z.to_nat <$> ids)) (partials longest)).
  { apply Forall_forall. unfold partials. intros seq ([it seq'] & -> & Hin)%list_elem_of_fmap.
    apply elem_of_remove_dups, list_elem_of_omap in Hin as (x & Hin & ->).
    split; [by eapply checkSingle_legal|by eapply checkSingle_prefix]. }
  destruct (vis_partition_legal _ _ (partials longest) Hwf) as (data & cv & rv & Hd & Hv & Hidx);
    [by eapply Forall_impl; [exact Hl|intros ids [? _]]|].
  exists data. split; [done|]. split; [by eapply vis_seen_ops|].
  rewrite <- (sort_by_perm longer), <- Hidx, Forall_fmap in Hl. eapply Forall_impl; [exact Hl|].
  intros lin [[Hleg Hids]%legal_ids_ops Hp]. by exists (Z.to_nat <$> indices lin).
Qed.

Lemma mapM_parts {X} (g : X -> list (entry V)) (R : X -> partitionVisualizationData -> Prop) xs ps off
    (all : list (list (list Z))) :
  (forall i, all !! (off + i) = ps !! i) ->
  Forall2 (fun x p => exists d, vis_partition (g x) p = Some d /\ R x d) xs ps ->
  exists ds, mapM (fun '(i, e) => p ← all !! i; vis_partition e p) (imap (fun i e => (off + i, e)) (g <$> xs))
    = Some ds /\ Forall2 R xs ds.
Proof.
  intros Hall Hf. revert off Hall. induction Hf as [|x p xs ps (d & Hd & HR) Hf IH]; intros off Hall;
    [by exists []|].
  rewrite fmap_cons, imap_cons. simpl.
  pose proof (Hall 0) as Hp. simpl in Hp. rewrite Hp. simpl. rewrite Hd. simpl.
  destruct (IH (S off)) as (ds & Hds & HRs).
  { intros i. specialize (Hall (S i)). by rewrite Nat.add_succ_r in Hall. }
  rewrite (imap_ext _ (fun i e => (S off + i, e))); [|intros; simpl; f_equal; lia].
  rewrite Hds. simpl. eauto.
Qed.

Lemma computeVisualizationData_shows parts verbose longest :
  Forall times_ok parts ->
  Forall2 (fun sub l => exists kill ok, goroutine nilV model verbose kill sub ok l) (makeEntries <$> parts) longest ->
  exists data, computeVisualizationData (mkInfo (makeEntries <$> parts) (partials <$> longest)) = Some data /\
    Forall2 shows parts data.
Proof.
  intros Ht Hg. apply (mapM_parts makeEntries shows parts (partials <$> longest) 0 (partials <$> longest)); [done|].
  rewrite Forall2_fmap_l in Hg. rewrite Forall2_fmap_r.
  induction Hg as [|ops l parts longest (kill & ok & Hg) _ IH]; [constructor|].
  apply Forall_cons in Ht as [Ho Ht]. constructor; [by eapply vis_partition_shows|auto].
Qed.
(** ** The largest linearization of an operation *)

Lemma vis_steps_fold cv rv i len partial s largest steps largest' :
  vis_steps cv rv i len partial s largest = Some (steps, largest') ->
  indices steps = partial /\ largest' = foldl (fun lg id => note_largest i len id lg) largest partial.
Proof.
  revert s largest steps. induction partial as [|k partial IH]; intros s largest steps; simpl; [by intros [= <- <-]|].
  destruct (Step model s _ _) as [[] s']; [|done]. intros ([st lg] & Hst & [= <- <-])%bind_Some.
  destruct (IH _ _ _ Hst) as [Hi ->]. split; [|done]. unfold indices in *. by rewrite fmap_cons, Hi.
Qed.

(** [largestIndex] and [largestSize] as one map *)
Definition two_maps (m : gmap Z (nat * nat)) : gmap Z nat * gmap Z nat := (fst <$> m, snd <$> m).

Lemma note_largest_note i len m id :
  0 < len -> note_largest i len id (two_maps m) = two_maps (note i len m id).
Proof.
  intros Hlen. unfold note_largest, two_maps, note. rewrite lookup_fmap.
  destruct (m !! id) as [[l len']|]; simpl; case_decide; try lia; by rewrite ?fmap_insert.
Qed.

Lemma fold_note_largest i len ids m :
  0 < len \/ ids = [] ->
  foldl (fun lg id => note_largest i len id lg) (two_maps m) ids = two_maps (foldl (note i len) m ids).
Proof.
  intros Hlen. revert m. induction ids as [|id ids IH]; intros m; cbn [foldl]; [done|].
  destruct Hlen as [Hlen|[=]]. rewrite note_largest_note by done. apply IH. by left.
Qed.

(** A linearization with its length. *)
Definition sized (ids : list Z) : list Z * nat := (ids, length ids).

Lemma vis_partials_largest cv rv parts seen m lins largest' :
  longest_of (sized <$> seen) m -> vis_partials cv rv (length seen) parts (two_maps m) = Some (lins, largest') ->
  indices <$> lins = parts /\ exists m', largest' = two_maps m' /\ longest_of (sized <$> (seen ++ parts)) m'.
Proof.
  revert seen m lins. induction parts as [|partial parts IH]; intros seen m lins Hinv; simpl.
  - intros [= <- <-]. rewrite app_nil_r. eauto.
  - intros ([steps lg] & Hs & ([rest lg'] & Hr & [= <- <-])%bind_Some)%bind_Some.
    destruct (vis_steps_fold _ _ _ _ _ _ _ _ _ Hs) as [Hi ->].
    rewrite fold_note_largest in Hr by (destruct partial; simpl; [by right|left; lia]).
    apply (longest_step _ partial (length partial)) in Hinv. rewrite length_fmap in Hinv.
    destruct (IH (seen ++ [partial]) (foldl (note (length seen) (length partial)) m partial) rest) as [Hrest Hinv'].
    { by rewrite fmap_app. }
    { rewrite length_app, Nat.add_1_r. exact Hr. }
    rewrite <- app_assoc in Hinv'. split; [by rewrite fmap_cons, Hi, Hrest|done].
Qed.

#[local] Instance longer_strict_weak : StrictWeak longer.
Proof. split; unfold longer; intros; rewrite ?bool_decide_eq_true, ?bool_decide_eq_false in *; lia. Qed.

(** What the page relies on: the linearizations come with the longest first, and for
    every operation of one [Largest] has the first of the longest that contain it. *)
Record well_ranked (data : partitionVisualizationData) : Prop := {
  wr_first lin0 lin : pd_PartialLinearizations data !! 0 = Some lin0 -> lin ∈ pd_PartialLinearizations data ->
    length lin <= length lin0;
  wr_largest i : match pd_Largest data !! i with
    | Some l => best (sized ∘ indices <$> pd_PartialLinearizations data) i l
    | None => forall lin, lin ∈ pd_PartialLinearizations data -> i ∉ indices lin
    end;
}.

Lemma vis_partition_ranked es parts data : vis_partition es parts = Some data -> well_ranked data.
Proof.
  unfold vis_partition. intros ([[history cv] rv] & _ & ([lins [li ls]] & Hp & [= <-])%bind_Some)%bind_Some.
  destruct (vis_partials_largest cv rv (sort_by longer parts) [] ∅ lins (li, ls)) as (Hi & m & [= -> ->] & Hinv).
  { exact longest_empty. }
  { unfold two_maps. rewrite !fmap_empty. exact Hp. }
  simpl in Hinv. rewrite <- Hi, <- list_fmap_compose in Hinv. split; simpl.
  - intros lin0 lin H0 Hin. destruct lins as [|lin0' lins]; [done|]. injection H0 as ->.
    apply elem_of_cons in Hin as [->|Hin]; [done|]. pose proof (sort_by_strongly longer parts _) as Hs. rewrite <- Hi in Hs.
    rewrite fmap_cons in Hs. apply StronglySorted_inv in Hs as [_ Hs]. rewrite Forall_forall in Hs.
    specialize (Hs (indices lin) (list_elem_of_fmap_2 _ _ _ Hin)). revert Hs. unfold not_after, longer, indices.
    rewrite bool_decide_eq_false, !length_fmap. lia.
  - intros i. rewrite lookup_fmap. specialize (Hinv i). destruct (m !! i) as [[l len]|]; simpl; [by destruct Hinv|].
    intros lin Hlin. apply (Hinv _ (length (indices lin))). by apply (list_elem_of_fmap_2 (sized ∘ indices)).
Qed.

Lemma computeVisualizationData_ranked info data :
  computeVisualizationData info = Some data -> Forall well_ranked data.
Proof.
  unfold computeVisualizationData. intros Hm%mapM_Some. apply Forall_forall. intros d [i Hd]%list_elem_of_lookup.
  destruct (Forall2_lookup_r _ _ _ _ _ Hm Hd) as ([j es] & _ & Hj). apply bind_Some in Hj as (parts & _ & Hv).
  by apply vis_partition_ranked in Hv.
Qed.
End visualization.
