(* ===== verification/VisLayout.v ===== *)
(** * The layout of the visualization: [render] of src/src/porcupine/visualization.go

    The page that [Visualize] writes places the operations with a script. This file has
    the first half of its function [render]: events get numbers, events that end when
    another starts are moved, and a scan from left to right finds the position of every
    time and of every point of a linearization.

    Times are counted in halves, since moving an event halves once; lengths are counted
    in a unit of which a pixel has [px], so that the widths of texts are whole numbers.
    The sums of the script are exact below 2^53 halves and units; what is computed stays
    near the data (VisSolve: [fdata_range], [solved_laid_out]). A position is [None] when the
    script computes with an undefined entry, which gives NaN; the functions return
    [None] when the script throws. *)

From S2P Require Import Prelude GoLib Porcupine Visualization.

(** ** Numbers *)

Abbreviation num := (option Z).

Definition nadd (a : num) (k : Z) : num := (fun x => x + k)%Z <$> a.
Definition nmax (a b : num) : num := x ← a; y ← b; Some (Z.max x y).

(** [l[i]] for an index that is a number of the data *)
Definition js_at {A} (l : list A) (i : Z) : option A := if decide (0 <= i)%Z then l !! Z.to_nat i else None.

(** [l[i].push(x)] *)
Definition push {A} (i : nat) (x : A) (l : list (list A)) : option (list (list A)) :=
  r ← l !! i; Some (<[i := r ++ [x]]> l).

(** A loop of such calls. *)
Definition push_all {A} (ixs : list (nat * A)) (l : list (list A)) : option (list (list A)) :=
  foldl (fun l '(i, x) => l ← l; push i x l) (Some l) ixs.

(** ** The data of the page *)

(** An element of a history as the script sees it, with the fields it adds. *)
Record El := mkEl {
  el_ClientId : Z; el_Start : Z; el_End : Z; el_Description : string; el_Gid : nat; el_OriginalEnd : Z }.

Record Part := mkPart {
  pt_History : list El; pt_Lins : list (list linearizationStep); pt_Largest : gmap Z nat }.

Definition el_of (he : historyElement) : El :=
  mkEl (he_ClientId he) (2 * he_Start he)%Z (2 * he_End he)%Z (he_Description he) 0 0%Z.

Definition part_of (d : partitionVisualizationData) : Part :=
  mkPart (el_of <$> pd_History d) (pd_PartialLinearizations d) (pd_Largest d).

(** The elements that the loops [data.forEach(partition => partition['History'].forEach(...))]
    meet, in their order. *)
Definition all_els (data : list Part) : list El := data ≫= pt_History.

Definition set_Gid (g : nat) (el : El) : El :=
  mkEl (el_ClientId el) (el_Start el) (el_End el) (el_Description el) g (el_OriginalEnd el).

Definition set_History (els : list El) (p : Part) : Part := mkPart els (pt_Lins p) (pt_Largest p).

(** The numbers, from [gid] on. *)
Fixpoint number_parts (gid : nat) (data : list Part) : list Part :=
  match data with
  | [] => []
  | p :: data => set_History (imap (fun i => set_Gid (gid + i)) (pt_History p)) p
                 :: number_parts (gid + length (pt_History p)) data
  end.

(** [nClient] *)
Definition nClient (data : list Part) : Z := (foldl Z.max (-1) (el_ClientId <$> all_els data) + 1)%Z.

Section layout.
Context `{!Sorter}.
(** The number of units of a pixel, and the widths of texts in units. *)
Variable px : Z.
Variable textWidth : string -> Z.

Definition EPSILON : Z := (20 * px)%Z.
Definition BOX_GAP : Z := (20 * px)%Z.
Definition BOX_TEXT_PADDING : Z := (10 * px)%Z.

(** ** Times *)

Definition allTimestamps (els : list El) : gset Z := list_to_set (els ≫= fun el => [el_Start el; el_End el]).
Definition startTimestamps (els : list El) : gset Z := list_to_set (el_Start <$> els).

(** [Array.from(s).sort((a, b) => a - b)] *)
Definition sorted (s : gset Z) : list Z := sort_by Z.ltb (elements s).

Definition nextTs (ts : list Z) : gmap Z Z := list_to_map (zip ts (tail ts)).

(** Where an event that ends with the start of another is moved to, if a time follows. *)
Definition tweaked (starts : gset Z) (next : gmap Z Z) (el : El) : option Z :=
  if decide (el_End el ∈ starts) then (fun t => (el_End el + t) / 2)%Z <$> next !! el_End el else None.

Definition tweak (starts : gset Z) (next : gmap Z Z) (el : El) : El :=
  mkEl (el_ClientId el) (el_Start el) (default (el_End el) (tweaked starts next el)) (el_Description el)
    (el_Gid el) (el_End el).

(** ** What is known of events and linearizations *)

(** [included], as the indices of a linearization *)
Definition is_included (lin : list linearizationStep) (index : nat) : bool :=
  bool_decide (Z.of_nat index ∈ indices lin).

(** [minEnd]; [None] is [Infinity]. *)
Definition min_end (h : list El) (lin : list linearizationStep) : option Z :=
  foldl (fun m e => Some (match m with Some m => Z.min m e | None => e end)) None
    (omap (fun '(index, el) => if is_included lin index then None else Some (el_End el)) (imap pair h)).

Definition before_end (t : Z) (m : option Z) : bool :=
  match m with Some m => bool_decide (t < m)%Z | None => true end.

(** The elements that could come next but do not, with their indices: they are not
    included and start before the others that are not included end. *)
Definition illegal_next (h : list El) (lin : list linearizationStep) : list (nat * El) :=
  filter (fun '(index, el) => is_included lin index = false /\ before_end (el_Start el) (min_end h lin) = true)
    (imap pair h).

(** [eventToLinearizations], [eventIllegalLast] and [allLinearizations]; [lgid] is the
    length of the last. *)
Record Prep := mkPrep {
  pr_toLin : list (list (nat * nat)); pr_illegal : list (list nat); pr_lins : list (list nat) }.

Definition prep_lin (h : list El) (pr : Prep) (lin : list linearizationStep) : option Prep :=
  let lgid := length (pr_lins pr) in
  gids ← mapM (fun i => el_Gid <$> js_at h i) (indices lin);
  toLin ← push_all (imap (fun position gid => (gid, (lgid, position))) gids) (pr_toLin pr);
  illegal ← push_all ((fun '(_, el) => (el_Gid el, lgid)) <$> illegal_next h lin) (pr_illegal pr);
  Some (mkPrep toLin illegal (pr_lins pr ++ [gids])).

Definition prep_part (pr : Prep) (p : Part) : option Prep :=
  foldl (fun acc lin => pr ← acc; prep_lin (pt_History p) pr lin) (Some pr) (pt_Lins p).

Definition prep (gid : nat) (data : list Part) : option Prep :=
  foldl (fun acc p => pr ← acc; prep_part pr p) (Some (mkPrep (replicate gid []) (replicate gid []) [])) data.

(** An element of [byEnd] *)
Record Box := mkBox { bx_start : Z; bx_end : Z; bx_width : Z; bx_gid : nat }.

Definition box_of (el : El) : Box :=
  mkBox (el_Start el) (el_End el) (textWidth (el_Description el) + 2 * BOX_TEXT_PADDING)%Z (el_Gid el).

Definition ends_before (a b : Box) : bool := (bx_end a <? bx_end b)%Z.

Definition byEnd (els : list El) : list Box := sort_by ends_before (box_of <$> els).

(** ** The scan *)

Section scan.
Variables (byGid : list El) (pr : Prep).

(** [xPos[t]] *)
Definition xpos_at (xs : gmap Z num) (t : Z) : num := mjoin (xs !! t).

(** The next point of a linearization whose first points are [pts]. *)
Definition next_point (xs : gmap Z num) (lin : list nat) (pts : list num) : option num :=
  nextGid ← lin !! length pts; el ← byGid !! nextGid;
  Some match last pts with
  | None => xpos_at xs (el_Start el)
  | Some prev => nmax (xpos_at xs (el_Start el)) (nadd prev EPSILON)
  end.

(** The loop over the points that are not determined, [k] of them. *)
Fixpoint grow (xs : gmap Z num) (lin : list nat) (k : nat) (pts : list num) : option (list num) :=
  match k with
  | 0 => Some pts
  | S k => p ← next_point xs lin pts; grow xs lin k (pts ++ [p])
  end.

(** The first [count] points of the linearization [index], and the position they ask
    for. *)
Definition place_points (xs : gmap Z num) (acc : option (list (list num) * num)) (li : nat * nat)
    : option (list (list num) * num) :=
  '(points, pos) ← acc;
  let '(index, count) := li in
  pts ← points !! index; lin ← pr_lins pr !! index;
  pts' ← grow xs lin (count - length pts) pts;
  Some (<[index := pts']> points, nmax pos (match count with 0 => None | S i => mjoin (pts' !! i) end)).

Definition place_illegal (points : list (list num)) (pos : option num) (index : nat) : option num :=
  pos ← pos; pts ← points !! index; Some (nmax pos (nadd (mjoin (last pts)) EPSILON)).

(** The points that go through an event, as linearizations and numbers of points. *)
Definition points_of (g : nat) : option (list (nat * nat)) :=
  lins ← pr_toLin pr !! g; illegal ← pr_illegal pr !! g;
  last ← mapM (fun index => lin ← pr_lins pr !! index; Some (index, length lin)) illegal;
  Some (((fun '(index, position) => (index, S position)) <$> lins) ++ last).

(** The body of the loop over the events that end. *)
Definition place_box (xs : gmap Z num) (event : Box) (points : list (list num)) (pos : num)
    : option (list (list num) * num) :=
  let pos := nmax pos (nadd (xpos_at xs (bx_start event)) (bx_width event)) in
  lis ← points_of (bx_gid event);
  '(points, pos) ← foldl (place_points xs) (Some (points, pos)) lis;
  illegal ← pr_illegal pr !! bx_gid event;
  pos ← foldl (place_illegal points) (Some pos) illegal;
  Some (points, pos).

Fixpoint place_boxes (xs : gmap Z num) (ts : Z) (events : list Box) (points : list (list num)) (pos : num)
    : option (list Box * list (list num) * num) :=
  match events with
  | event :: events' =>
      if decide (bx_end event <= ts)%Z then
        '(points, pos) ← place_box xs event points pos; place_boxes xs ts events' points pos
      else Some (events, points, pos)
  | [] => Some ([], points, pos)
  end.

(** The loop over the times after [prev]. *)
Fixpoint scan (prev : Z) (ts : list Z) (xs : gmap Z num) (events : list Box) (points : list (list num))
    : option (gmap Z num * list (list num)) :=
  match ts with
  | [] => Some (xs, points)
  | t :: ts =>
      '(events, points, pos) ← place_boxes xs t events points (nadd (xpos_at xs prev) BOX_GAP);
      scan t ts (<[t := pos]> xs) events points
  end.
End scan.

(** ** All of it *)

Record Layout := mkLayout {
  ly_data : list Part;            (** the data with the fields that were added *)
  ly_times : list Z;              (** [sortedTimestamps] *)
  ly_xPos : gmap Z num;
  ly_prep : Prep;
  ly_points : list (list num);    (** [linearizationPositions] *)
}.

Definition layout (data : list Part) : option Layout :=
  let data := number_parts 0 data in
  let els := all_els data in
  let starts := startTimestamps els in
  let next := nextTs (sorted (allTimestamps els)) in
  let data := (fun p => set_History (tweak starts next <$> pt_History p) p) <$> data in
  let times := sorted (allTimestamps els ∪ list_to_set (omap (tweaked starts next) els)) in
  let els := all_els data in
  pr ← prep (length els) data;
  let points := replicate (length (pr_lins pr)) [] in
  match times with
  | [] => Some (mkLayout data [] ∅ pr points)
  | t :: ts =>
      '(xs, points) ← scan els pr t ts {[t := Some 0%Z]} (byEnd els) points;
      Some (mkLayout data times xs pr points)
  end.
End layout.
