(* ===== verification/VisScan.v ===== *)
(** * The scan finds the least layout

    The comments of [render] (src/src/porcupine/visualization.go) describe its scan as
    the solution of a linear program: times that differ are apart, texts fit in their
    boxes, and the points of linearizations lie in boxes, in order and apart. [fits]
    states these constraints for any positions of times and points. For events whose
    times are in order the scan finds positions that satisfy them, and no positions that
    satisfy them are smaller anywhere. *)

From S2P Require Import Prelude GoLib Porcupine Visualization VisLayout.

Section scan.
Context `{!Sorter}.
Variable px : Z.
Variables (byGid : list El) (pr : Prep) (boxes : list Box) (TS : gset Z).

Abbreviation EPSILON := (EPSILON px).
Abbreviation BOX_GAP := (BOX_GAP px).

(** ** The constraints *)

(** The start of the [k]-th event of the linearization [l]. *)
Definition start_of (l k : nat) : Z :=
  default 0%Z (lin ← pr_lins pr !! l; g ← lin !! k; el_Start <$> byGid !! g).

(** Positions [y] of times and [M] of the points of linearizations. *)
Record fits (y : Z -> Z) (M : nat -> nat -> Z) : Prop := {
  ft_first t : t ∈ TS -> (0 <= y t)%Z;
  ft_apart t t' : t ∈ TS -> t' ∈ TS -> (t < t')%Z -> (y t + BOX_GAP <= y t')%Z;
  ft_text b : b ∈ boxes -> (y (bx_start b) + bx_width b <= y (bx_end b))%Z;
  ft_start l lin k : pr_lins pr !! l = Some lin -> k < length lin -> (y (start_of l k) <= M l k)%Z;
  ft_step l lin k : pr_lins pr !! l = Some lin -> S k < length lin -> (M l k + EPSILON <= M l (S k))%Z;
  ft_end b l k lis : b ∈ boxes -> pr_toLin pr !! bx_gid b = Some lis -> (l, k) ∈ lis -> (M l k <= y (bx_end b))%Z;
  ft_next b l k lin ill : b ∈ boxes -> pr_illegal pr !! bx_gid b = Some ill -> l ∈ ill ->
    pr_lins pr !! l = Some lin -> length lin = S k -> (M l k + EPSILON <= y (bx_end b))%Z;
}.

(** ** The points of a linearization *)

(** The [k]-th point, for the positions [x] of times: the start of its event, unless
    that is too near to the point before. *)
Fixpoint point (x : Z -> Z) (l k : nat) : Z :=
  match k with
  | 0 => x (start_of l 0)
  | S k' => Z.max (x (start_of l k)) (point x l k' + EPSILON)
  end.

Lemma point_ext x x' l k :
  (forall i, i <= k -> x (start_of l i) = x' (start_of l i)) -> point x l k = point x' l k.
Proof.
  induction k as [|k IH]; intros Hx; cbn [point]; [by apply Hx|]. rewrite (Hx (S k)), IH by auto with lia. done.
Qed.

Lemma point_le_fit x y M l lin k :
  fits y M -> pr_lins pr !! l = Some lin -> k < length lin ->
  (forall i, i <= k -> (x (start_of l i) <= y (start_of l i))%Z) -> (point x l k <= M l k)%Z.
Proof.
  intros Hf Hl. induction k as [|k IH]; intros Hk Hx; cbn [point].
  - pose proof (ft_start _ _ Hf l lin 0 Hl Hk). specialize (Hx 0 ltac:(lia)). lia.
  - pose proof (ft_start _ _ Hf l lin (S k) Hl Hk). pose proof (ft_step _ _ Hf l lin k Hl Hk).
    specialize (Hx (S k) ltac:(lia)) as Hxk. specialize (IH ltac:(lia)). assert (point x l k <= M l k)%Z by auto with lia. lia.
Qed.

(** ** Known positions *)

Definition xval (xs : gmap Z num) (t : Z) : Z := default 0%Z (xpos_at xs t).
Definition known (xs : gmap Z num) (t : Z) : Prop := xpos_at xs t = Some (xval xs t).

Lemma known_insert xs t p t' : t' <> t -> known xs t' -> known (<[t := p]> xs) t' /\ xval (<[t := p]> xs) t' = xval xs t'.
Proof. intros Hne. unfold known, xval, xpos_at. by rewrite lookup_insert_ne by done. Qed.

Lemma insert_known xs t v : known (<[t := Some v]> xs) t /\ xval (<[t := Some v]> xs) t = v.
Proof. unfold known, xval, xpos_at. by rewrite lookup_insert_eq. Qed.

Abbreviation pt xs := (point (xval xs)).

(** The first [c] points of [l]. *)
Definition first_points xs (l c : nat) : list num := (fun k => Some (pt xs l k)) <$> seq 0 c.

Lemma first_points_S xs l c : first_points xs l (S c) = first_points xs l c ++ [Some (pt xs l c)].
Proof. unfold first_points. by rewrite seq_S, fmap_app. Qed.

Lemma length_first_points xs l c : length (first_points xs l c) = c.
Proof. unfold first_points. by rewrite length_fmap, length_seq. Qed.

Lemma lookup_first_points xs l c k : k < c -> first_points xs l c !! k = Some (Some (pt xs l k)).
Proof. intros Hk. unfold first_points. by rewrite list_lookup_fmap, lookup_seq_lt. Qed.

Lemma next_point_first xs l lin c :
  pr_lins pr !! l = Some lin -> Forall (fun g => g < length byGid) lin -> c < length lin -> known xs (start_of l c) ->
  next_point px byGid xs lin (first_points xs l c) = Some (Some (pt xs l c)).
Proof.
  intros Hl Hg Hc Hk. unfold next_point. rewrite length_first_points.
  destruct (lookup_lt_is_Some_2 lin c Hc) as [g Hgc]. rewrite Hgc; simpl.
  destruct (lookup_lt_is_Some_2 byGid g) as [el Hel]; [by eapply Forall_lookup_1 in Hg|]. rewrite Hel; simpl.
  assert (Hs : start_of l c = el_Start el) by (unfold start_of; rewrite Hl; simpl; rewrite Hgc; simpl; by rewrite Hel).
  rewrite Hs in Hk. unfold known in Hk. rewrite Hk. f_equal. destruct c as [|c].
  - simpl. by rewrite Hs.
  - rewrite first_points_S, last_snoc. simpl. by rewrite Hs.
Qed.

Lemma grow_first xs l lin k c :
  pr_lins pr !! l = Some lin -> Forall (fun g => g < length byGid) lin -> c + k <= length lin ->
  (forall i, i < c + k -> known xs (start_of l i)) ->
  grow px byGid xs lin k (first_points xs l c) = Some (first_points xs l (c + k)).
Proof.
  intros Hl Hg. revert c. induction k as [|k IH]; intros c Hc Hk; [by rewrite Nat.add_0_r|].
  cbn [grow]. rewrite (next_point_first xs l lin c) by (done || lia || (apply Hk; lia)). cbn [mbind option_bind].
  rewrite <- first_points_S, IH; [f_equal; f_equal; lia|lia|]. intros i Hi. apply Hk. lia.
Qed.

(** ** The table of points *)

Hypothesis Hgids : Forall (Forall (fun g => g < length byGid)) (pr_lins pr).

Definition good_points xs (points : list (list num)) : Prop :=
  length points = length (pr_lins pr) /\
  forall l lin pts, pr_lins pr !! l = Some lin -> points !! l = Some pts ->
    exists c, c <= length lin /\ pts = first_points xs l c /\ forall i, i < c -> known xs (start_of l i).

(** The first [c] points of [l] are determined. *)
Definition covers (points : list (list num)) (l c : nat) : Prop :=
  exists pts, points !! l = Some pts /\ c <= length pts.

Definition covers_more (points points' : list (list num)) : Prop :=
  forall l c, covers points l c -> covers points' l c.

(** The first [c] points of [l] can be determined. *)
Definition askable xs (li : nat * nat) : Prop :=
  exists lin, pr_lins pr !! li.1 = Some lin /\ 0 < li.2 <= length lin /\ forall i, i < li.2 -> known xs (start_of li.1 i).

Lemma place_points_one xs points p li :
  good_points xs points -> askable xs li ->
  exists points', place_points px byGid pr xs (Some (points, Some p)) li =
      Some (points', Some (Z.max p (pt xs li.1 (pred li.2)))) /\
    good_points xs points' /\ covers points' li.1 li.2 /\ covers_more points points'.
Proof.
  intros [Hlen Hgood] (lin & Hl & [Hc0 Hc] & Hk). destruct li as [l c]; simpl in *.
  assert (Hlt := lookup_lt_Some _ _ _ Hl). destruct (lookup_lt_is_Some_2 points l) as [pts Hpts]; [lia|].
  destruct (Hgood l lin pts Hl Hpts) as (c0 & Hc0' & -> & Hk0). rewrite Hpts; simpl. rewrite Hl; simpl.
  rewrite length_first_points, (grow_first xs l lin (c - c0) c0); [|done|by eapply Forall_lookup_1 in Hgids|lia|].
  2: { intros i Hi. destruct (decide (i < c0)); [by apply Hk0|apply Hk; lia]. }
  destruct c as [|c]; [lia|]. cbn [mbind option_bind]. rewrite lookup_first_points by lia. cbn [mjoin option_join nmax mbind option_bind].
  eexists. split; [done|]. split_and!.
  - split; [by rewrite length_insert|]. intros l' lin' pts' Hl' Hp'. destruct (decide (l' = l)) as [->|Hne].
    + rewrite list_lookup_insert_eq in Hp' by lia. injection Hp' as <-. rewrite Hl in Hl'. injection Hl' as <-.
      exists (c0 + (S c - c0)). split_and!; [lia|done|]. intros i Hi. destruct (decide (i < c0)); [by apply Hk0|apply Hk; lia].
    + rewrite list_lookup_insert_ne in Hp' by done. by eapply Hgood.
  - eexists. rewrite list_lookup_insert_eq by lia. split; [done|]. rewrite length_first_points. lia.
  - intros l' c' (pts' & Hp' & Hle). destruct (decide (l' = l)) as [->|Hne].
    + rewrite Hpts in Hp'. injection Hp' as <-. rewrite length_first_points in Hle.
      eexists. rewrite list_lookup_insert_eq by lia. split; [done|]. rewrite length_first_points. lia.
    + exists pts'. by rewrite list_lookup_insert_ne.
Qed.

(** A position is what its bounds say it is. *)
Lemma place_points_all xs lis points p :
  good_points xs points -> Forall (askable xs) lis ->
  exists points' p', foldl (place_points px byGid pr xs) (Some (points, Some p)) lis = Some (points', Some p') /\
    good_points xs points' /\ covers_more points points' /\
    (forall l c, (l, c) ∈ lis -> covers points' l c) /\
    forall B, (p' <= B)%Z <-> (p <= B)%Z /\ forall l c, (l, c) ∈ lis -> (pt xs l (pred c) <= B)%Z.
Proof.
  intros Hg Hall. revert points p Hg. induction Hall as [|li lis Hli Hall IH]; intros points p Hg.
  - exists points, p. split_and!; [done|done|by intros ??|set_solver|]. intros B. split; [|tauto]. split; [done|set_solver].
  - cbn [foldl]. destruct (place_points_one xs points p li Hg Hli) as (points1 & -> & Hg1 & Hc1 & Hm1).
    destruct (IH points1 (Z.max p (pt xs li.1 (pred li.2))) Hg1) as (points' & p' & -> & Hg' & Hm' & Hc' & HB).
    exists points', p'. split_and!; [done|done|intros l c Hcov; by apply Hm', Hm1| |].
    + intros l c [E|Hin]%elem_of_cons; [|by apply Hc']. apply Hm'. by rewrite <- E in Hc1.
    + intros B. rewrite HB, Z.max_lub_iff. split.
      * intros ([Hp Hpt] & Hrest). split; [done|]. intros l c [E|Hin]%elem_of_cons; [by rewrite <- E in Hpt|by apply Hrest].
      * intros [Hp Hrest]. split_and!; [done|apply Hrest; destruct li; by left|]. intros l c Hin. apply Hrest. by right.
Qed.

Lemma place_illegal_all xs points ill p :
  good_points xs points ->
  (forall l, l ∈ ill -> exists lin, pr_lins pr !! l = Some lin /\ 0 < length lin /\ covers points l (length lin)) ->
  exists p', foldl (place_illegal px points) (Some (Some p)) ill = Some (Some p') /\
    forall B, (p' <= B)%Z <-> (p <= B)%Z /\
      forall l lin k, l ∈ ill -> pr_lins pr !! l = Some lin -> length lin = S k -> (pt xs l k + EPSILON <= B)%Z.
Proof.
  intros Hg. revert p. induction ill as [|l ill IH]; intros p Hill.
  - exists p. split; [done|]. intros B. split; [|tauto]. split; [done|set_solver].
  - destruct (Hill l ltac:(by left)) as (lin & Hl & Hpos & (pts & Hpts & Hle)).
    destruct (proj2 Hg l lin pts Hl Hpts) as (c & Hc & -> & _). rewrite length_first_points in Hle.
    destruct c as [|k]; [lia|]. assert (Hlin : length lin = S k) by lia.
    assert (E : place_illegal px points (Some (Some p)) l = Some (Some (Z.max p (pt xs l k + EPSILON)))).
    { unfold place_illegal. cbn [mbind option_bind]. rewrite Hpts; simpl. by rewrite first_points_S, last_snoc. }
    cbn [foldl]. rewrite E.
    destruct (IH (Z.max p (pt xs l k + EPSILON))) as (p' & -> & HB); [intros l' Hl'; apply Hill; by right|].
    exists p'. split; [done|]. intros B. rewrite HB, Z.max_lub_iff. split.
    + intros ([Hp Hpt] & Hrest). split; [done|]. intros l' lin' k' [->|Hin]%elem_of_cons Hl' Hk'; [|by eapply Hrest].
      rewrite Hl in Hl'. injection Hl' as <-. rewrite Hlin in Hk'. by injection Hk' as <-.
    + intros [Hp Hrest]. split_and!; [done|eapply Hrest; [by left|done|done]|]. intros l' lin' k' Hin. apply Hrest. by right.
Qed.

(** ** One event *)

Hypothesis Hpx : (0 < px)%Z.

(** The times of an event are in order, and those of the points that go through it are
    before its end. *)
Record ordered (b : Box) : Prop := {
  or_start : bx_start b ∈ TS;
  or_end : bx_end b ∈ TS;
  or_times : (bx_start b < bx_end b)%Z;
  or_tables : is_Some (pr_toLin pr !! bx_gid b) /\ is_Some (pr_illegal pr !! bx_gid b);
  or_points lis l k : pr_toLin pr !! bx_gid b = Some lis -> (l, k) ∈ lis ->
    exists lin, pr_lins pr !! l = Some lin /\ k < length lin /\
      forall i, i <= k -> start_of l i ∈ TS /\ (start_of l i < bx_end b)%Z;
  or_illegal ill l : pr_illegal pr !! bx_gid b = Some ill -> l ∈ ill ->
    exists lin, pr_lins pr !! l = Some lin /\ 0 < length lin /\
      forall i, i < length lin -> start_of l i ∈ TS /\ (start_of l i < bx_end b)%Z;
}.

(** What the end of an event must not be before. *)
Record box_bound xs (b : Box) (B : Z) : Prop := {
  bb_text : (xval xs (bx_start b) + bx_width b <= B)%Z;
  bb_points lis l k : pr_toLin pr !! bx_gid b = Some lis -> (l, k) ∈ lis -> (pt xs l k <= B)%Z;
  bb_next ill l lin k : pr_illegal pr !! bx_gid b = Some ill -> l ∈ ill -> pr_lins pr !! l = Some lin ->
    length lin = S k -> (pt xs l k + EPSILON <= B)%Z;
}.

Definition box_covered (points : list (list num)) (b : Box) : Prop :=
  forall lis l k, pr_toLin pr !! bx_gid b = Some lis -> (l, k) ∈ lis -> covers points l (S k).

Lemma points_of_ordered b :
  ordered b -> exists lis lins ill, points_of pr (bx_gid b) = Some lis /\
    pr_toLin pr !! bx_gid b = Some lins /\ pr_illegal pr !! bx_gid b = Some ill /\
    forall l c, (l, c) ∈ lis <-> (exists k, c = S k /\ (l, k) ∈ lins) \/
      (l ∈ ill /\ exists lin, pr_lins pr !! l = Some lin /\ c = length lin).
Proof.
  intros [_ _ _ [[lins Hlins] [ill Hill]] _ Hi]. unfold points_of. rewrite Hlins, Hill; simpl.
  assert (Hm : exists last, mapM (fun index => lin ← pr_lins pr !! index; Some (index, length lin)) ill = Some last /\
    forall l c, (l, c) ∈ last <-> l ∈ ill /\ exists lin, pr_lins pr !! l = Some lin /\ c = length lin).
  { assert (Hall : forall l, l ∈ ill -> is_Some (pr_lins pr !! l)).
    { intros l Hl. destruct (Hi ill l Hill Hl) as (lin & Hlin & _). eauto. }
    clear Hill Hi. induction ill as [|l0 ill IH]; [exists []; split; [done|set_solver]|].
    destruct (Hall l0 ltac:(by left)) as [lin0 Hl0]. destruct IH as (last & Hlast & Hel); [intros l Hl; apply Hall; by right|].
    simpl. rewrite Hl0; simpl. rewrite Hlast; simpl. eexists. split; [done|]. intros l c.
    rewrite !elem_of_cons, Hel. split.
    - intros [[= -> ->]|[Hl Hc]]; [split; [by left|by exists lin0]|split; [by right|done]].
    - intros [[->|Hl] (lin & Hlin & ->)]; [left; rewrite Hl0 in Hlin; by injection Hlin as ->|right; eauto]. }
  destruct Hm as (last & -> & Hlast). simpl. eexists _, lins, ill. split_and!; [done..|]. intros l c.
  rewrite elem_of_app, Hlast, list_elem_of_fmap. split.
  - intros [([l' k] & [= -> ->] & Hin)|Hr]; [left; eauto|by right].
  - intros [(k & -> & Hin)|Hr]; [left; by exists (l, k)|by right].
Qed.

Lemma place_box_spec xs b points p :
  ordered b -> (forall t, t ∈ TS -> (t < bx_end b)%Z -> known xs t) -> good_points xs points ->
  exists points' p', place_box px byGid pr xs b points (Some p) = Some (points', Some p') /\
    good_points xs points' /\ covers_more points points' /\ box_covered points' b /\
    forall B, (p' <= B)%Z <-> (p <= B)%Z /\ box_bound xs b B.
Proof.
  intros Hb Hk Hg. destruct (points_of_ordered b Hb) as (lis & lins & ill & Hlis & Hlins & Hill & Hel).
  destruct Hb as [Hs _ Ht _ Hp Hi]. unfold place_box. rewrite Hlis. pose proof (Hk _ Hs Ht) as Hks. unfold known in Hks.
  rewrite Hks. cbn [nadd fmap option_fmap option_map nmax mbind option_bind].
  assert (Hask : Forall (askable xs) lis).
  { apply Forall_forall. intros [l c] [(k & -> & Hin)|(Hl & lin & Hlin & ->)]%Hel.
    - destruct (Hp lins l k Hlins Hin) as (lin & Hlin & Hlt & Hst). exists lin. simpl. split_and!; [done|lia|lia|].
      intros i Hi'. destruct (Hst i ltac:(lia)) as [? ?]. by apply Hk.
    - destruct (Hi ill l Hill Hl) as (lin' & Hlin' & Hpos & Hst). rewrite Hlin in Hlin'. injection Hlin' as <-.
      exists lin. simpl. split_and!; [done|lia|lia|]. intros i Hi'. destruct (Hst i Hi') as [? ?]. by apply Hk. }
  destruct (place_points_all xs lis points (Z.max p (xval xs (bx_start b) + bx_width b)) Hg Hask)
    as (points' & p1 & Hf & Hg' & Hm & Hc & HB1). rewrite Hf, Hill. cbn [mbind option_bind].
  destruct (place_illegal_all xs points' ill p1 Hg') as (p' & Hf' & HB2).
  { intros l Hl. destruct (Hi ill l Hill Hl) as (lin & Hlin & Hpos & _). exists lin. split_and!; [done..|].
    apply Hc, Hel. right. eauto. }
  rewrite Hf'. cbn [mbind option_bind]. exists points', p'. split_and!; [done..| |].
  - intros lis' l k Hl' Hin. rewrite Hlins in Hl'. injection Hl' as <-. apply Hc, Hel. left. eauto.
  - intros B. rewrite HB2, HB1, Z.max_lub_iff. split.
    + intros (([Hp0 Htx] & Hpt) & Hnx). split; [done|]. split; [done| |].
      * intros lis' l k Hl' Hin. rewrite Hlins in Hl'. injection Hl' as <-. apply (Hpt l (S k)), Hel. left. eauto.
      * intros ill' l lin k Hl' Hin. rewrite Hill in Hl'. injection Hl' as <-. by apply Hnx.
    + intros [Hp0 [Htx Hpt Hnx]]. split_and!; [done|done| |].
      * intros l c [(k & -> & Hin)|(Hl & lin & Hlin & ->)]%Hel; [by eapply Hpt|].
        destruct (Hi ill l Hill Hl) as (lin' & Hlin' & Hpos & _). rewrite Hlin in Hlin'. injection Hlin' as <-.
        destruct (length lin) as [|k] eqn:El; [lia|]. simpl.
        pose proof (Hnx ill l lin k Hill Hl Hlin El). unfold VisLayout.EPSILON in *. lia.
      * intros l lin k Hin. by eapply Hnx.
Qed.

(** ** The events that end at a time *)

Definition by_end (a b : Box) : Prop := (bx_end a <= bx_end b)%Z.

Lemma place_boxes_spec xs t evs points p :
  (forall b, b ∈ evs -> ordered b) -> StronglySorted by_end evs ->
  (forall t', t' ∈ TS -> (t' < t)%Z -> known xs t') -> good_points xs points ->
  exists rest points' p', place_boxes px byGid pr xs t evs points (Some p) = Some (rest, points', Some p') /\
    good_points xs points' /\ covers_more points points' /\ StronglySorted by_end rest /\
    (forall b, b ∈ rest <-> b ∈ evs /\ (t < bx_end b)%Z) /\
    (forall b, b ∈ evs -> (bx_end b <= t)%Z -> box_covered points' b) /\
    forall B, (p' <= B)%Z <-> (p <= B)%Z /\ forall b, b ∈ evs -> (bx_end b <= t)%Z -> box_bound xs b B.
Proof.
  intros Hord Hsort Hk. revert points p. induction Hsort as [|b evs Hsort IH Hall]; intros points p Hg.
  - exists [], points, p. split_and!; [done|done|by intros ??|constructor|set_solver|set_solver|]. intros B. set_solver.
  - cbn [place_boxes]. case_decide as Hle.
    + destruct (place_box_spec xs b points p) as (points1 & p1 & Hb & Hg1 & Hm1 & Hc1 & HB1);
        [apply Hord; by left|intros t' Ht' Hlt; apply Hk; [done|lia]|done|]. rewrite Hb. cbn [mbind option_bind].
      destruct (IH (fun b' Hb' => Hord b' (list_elem_of_further _ _ _ Hb')) points1 p1 Hg1)
        as (rest & points' & p' & Hr & Hg' & Hm' & Hs' & Hrest & Hc' & HB'). rewrite Hr.
      exists rest, points', p'. split_and!; [done|done|intros l c Hc; by apply Hm', Hm1|done|..].
      * intros b'. rewrite Hrest, elem_of_cons. split; [tauto|]. intros [[->|?] ?]; [lia|tauto].
      * intros b' [->|Hb']%elem_of_cons Hb''; [|by apply Hc']. intros lis l k Hl Hin. by eapply Hm', Hc1.
      * intros B. rewrite HB', HB1. split.
        -- intros [[? ?] Hall']. split; [done|]. intros b' [->|Hb']%elem_of_cons; auto.
        -- intros [? Hall']. split; [split; [done|]|]; [apply Hall'; [by left|done]|]. intros b' Hb'. apply Hall'. by right.
    + assert (Hlater : forall b', b' ∈ b :: evs -> (t < bx_end b')%Z).
      { intros b' [->|Hb']%elem_of_cons; [lia|]. rewrite Forall_forall in Hall. specialize (Hall b' Hb'). unfold by_end in Hall. lia. }
      exists (b :: evs), points, p. split_and!; [done|done|by intros ??|by constructor|..].
      * intros b'. split; [|tauto]. intros Hb'. split; [done|by apply Hlater].
      * intros b' Hb' Hle'. specialize (Hlater b' Hb'). lia.
      * intros B. split; [|tauto]. intros ?. split; [done|]. intros b' Hb' Hle'. specialize (Hlater b' Hb'). lia.
Qed.

(** ** The scan *)

Hypothesis Hordered : forall b, b ∈ boxes -> ordered b.

(** The positions of the times up to [prev]. *)
Record scanned (prev : Z) xs (evs : list Box) (points : list (list num)) : Prop := {
  sc_known t : t ∈ TS -> (t <= prev)%Z -> known xs t;
  sc_unknown t : (prev < t)%Z -> xs !! t = None;
  sc_points : good_points xs points;
  sc_sorted : StronglySorted by_end evs;
  sc_events b : b ∈ evs <-> b ∈ boxes /\ (prev < bx_end b)%Z;
  sc_done b : b ∈ boxes -> (bx_end b <= prev)%Z -> box_bound xs b (xval xs (bx_end b)) /\ box_covered points b;
  sc_zero t : t ∈ TS -> (t <= prev)%Z -> (0 <= xval xs t)%Z;
  sc_apart t t' : t ∈ TS -> t' ∈ TS -> (t < t')%Z -> (t' <= prev)%Z -> (xval xs t + BOX_GAP <= xval xs t')%Z;
  sc_least y M t : fits y M -> t ∈ TS -> (t <= prev)%Z -> (xval xs t <= y t)%Z;
}.

(** A new position changes no other one. *)
Lemma point_insert prev xs evs points t p l k :
  scanned prev xs evs points -> (prev < t)%Z -> (forall i, i <= k -> known xs (start_of l i)) ->
  pt (<[t := p]> xs) l k = pt xs l k.
Proof.
  intros Hs Ht Hk. apply point_ext. intros i Hi. apply known_insert; [|by apply Hk]. intros E.
  specialize (Hk i Hi). unfold known, xpos_at in Hk. rewrite E, (sc_unknown _ _ _ _ Hs t Ht) in Hk. done.
Qed.

Lemma good_points_insert prev xs evs points points' t p :
  scanned prev xs evs points -> (prev < t)%Z -> good_points xs points' -> good_points (<[t := p]> xs) points'.
Proof.
  intros Hs Ht [Hlen Hg]. split; [done|]. intros l lin pts Hl Hp. destruct (Hg l lin pts Hl Hp) as (c & Hc & -> & Hk).
  assert (Hne : forall i, i < c -> start_of l i <> t).
  { intros i Hi E. specialize (Hk i Hi). unfold known, xpos_at in Hk. rewrite E, (sc_unknown _ _ _ _ Hs t Ht) in Hk. done. }
  exists c. split_and!; [done| |].
  - unfold first_points. apply list_fmap_ext. intros i k [-> Hi]%lookup_seq. f_equal. symmetry.
    eapply point_insert; [done|done|]. intros j Hj. apply Hk. lia.
  - intros i Hi. apply known_insert; auto.
Qed.

Lemma box_bound_insert prev xs evs points t p b B :
  scanned prev xs evs points -> (prev < t)%Z -> b ∈ boxes -> (forall t', t' ∈ TS -> (t' < bx_end b)%Z -> known xs t') ->
  box_bound xs b B -> box_bound (<[t := p]> xs) b B.
Proof.
  intros Hs Ht Hb Hk [Htx Hpt Hnx]. destruct (Hordered b Hb) as [Hst _ Hlt _ Hp Hi].
  assert (Hks := Hk _ Hst Hlt).
  assert (bx_start b <> t).
  { intros E. unfold known, xpos_at in Hks. rewrite E, (sc_unknown _ _ _ _ Hs t Ht) in Hks. done. }
  split.
  - destruct (known_insert xs t p (bx_start b)) as [_ ->]; done.
  - intros lis l k Hl Hin. destruct (Hp lis l k Hl Hin) as (lin & _ & _ & Hsts).
    rewrite (point_insert prev xs evs points) by (done || (intros i ?; destruct (Hsts i); auto)). by eapply Hpt.
  - intros ill l lin k Hl Hin Hlin Hlen. destruct (Hi ill l Hl Hin) as (lin' & Hlin' & _ & Hsts).
    rewrite Hlin in Hlin'. injection Hlin' as <-.
    rewrite (point_insert prev xs evs points) by (done || (intros i ?; destruct (Hsts i); [lia|auto])). by eapply Hnx.
Qed.

(** The bounds of an event hold of any positions that fit. *)
Lemma box_bound_fit prev xs evs points y M b :
  scanned prev xs evs points -> fits y M -> b ∈ boxes ->
  (forall t, t ∈ TS -> (t < bx_end b)%Z -> (t <= prev)%Z) -> box_bound xs b (y (bx_end b)).
Proof.
  intros Hs Hf Hb Hprev. destruct (Hordered b Hb) as [Hst _ Hlt _ Hp Hi]. split.
  - pose proof (ft_text _ _ Hf b Hb). pose proof (sc_least _ _ _ _ Hs y M _ Hf Hst (Hprev _ Hst Hlt)). lia.
  - intros lis l k Hl Hin. destruct (Hp lis l k Hl Hin) as (lin & Hlin & Hk & Hsts).
    etrans; [apply (point_le_fit _ y M l lin); [done..|]|by eapply ft_end].
    intros i Hi'. destruct (Hsts i Hi'). eapply sc_least; eauto.
  - intros ill l lin k Hl Hin Hlin Hlen. destruct (Hi ill l Hl Hin) as (lin' & Hlin' & _ & Hsts).
    rewrite Hlin in Hlin'. injection Hlin' as <-. pose proof (ft_next _ _ Hf b l k lin ill Hb Hl Hin Hlin Hlen).
    assert (pt xs l k <= M l k)%Z; [|lia]. apply (point_le_fit _ y M l lin); [done|done|lia|].
    intros i Hi'. destruct (Hsts i); [lia|]. eapply sc_least; eauto.
Qed.

Lemma scan_step prev t xs evs points :
  scanned prev xs evs points -> prev ∈ TS -> t ∈ TS -> (prev < t)%Z ->
  (forall t', t' ∈ TS -> (t' < t)%Z -> (t' <= prev)%Z) ->
  exists rest points' p', place_boxes px byGid pr xs t evs points (nadd (xpos_at xs prev) BOX_GAP) = Some (rest, points', Some p') /\
    scanned t (<[t := Some p']> xs) rest points'.
Proof.
  intros Hs Hprev HtS Ht Hnext. pose proof (sc_known _ _ _ _ Hs prev Hprev ltac:(lia)) as Hkp. unfold known in Hkp. rewrite Hkp.
  assert (Hbefore : forall t', t' ∈ TS -> (t' < t)%Z -> known xs t') by (intros t' ? ?; eapply sc_known; eauto).
  assert (Hend : forall b, b ∈ evs -> (bx_end b <= t)%Z -> b ∈ boxes /\ bx_end b = t).
  { intros b [Hb Hgt]%(sc_events _ _ _ _ Hs) Hle. split; [done|]. destruct (decide (bx_end b < t)%Z); [|lia].
    specialize (Hnext _ (or_end _ (Hordered b Hb))). lia. }
  destruct (place_boxes_spec xs t evs points (xval xs prev + BOX_GAP)) as
    (rest & points' & p' & Hpl & Hg & Hm & Hsrt & Hrest & Hcov & HB);
    [intros b [Hb _]%(sc_events _ _ _ _ Hs); by apply Hordered|apply Hs|done|apply Hs|].
  cbn [nadd fmap option_fmap option_map]. rewrite Hpl. exists rest, points', p'. split; [done|].
  destruct (insert_known xs t p') as [Hkt Hvt]. destruct (proj1 (HB p') (Z.le_refl _)) as [Hgap Hbb].
  assert (Hold : forall t', t' ∈ TS -> (t' <= prev)%Z -> known (<[t := Some p']> xs) t' /\ xval (<[t := Some p']> xs) t' = xval xs t').
  { intros t' Ht' Hle. apply known_insert; [lia|]. eapply sc_known; eauto. }
  assert (Hcase : forall t', t' ∈ TS -> (t' <= t)%Z -> t' = t \/ (t' <= prev)%Z).
  { intros t' Ht' Hle. destruct (decide (t' = t)); [by left|right]. apply Hnext; [done|lia]. }
  assert (HP : (0 < BOX_GAP)%Z) by (unfold VisLayout.BOX_GAP; lia).
  split.
  - intros t' Ht' Hle. destruct (Hcase t' Ht' Hle) as [->|?]; [done|by apply Hold].
  - intros t' Hlt. rewrite lookup_insert_ne by lia. eapply sc_unknown; [exact Hs|lia].
  - by eapply good_points_insert.
  - done.
  - intros b. rewrite Hrest, (sc_events _ _ _ _ Hs). split; [intros [[? ?] ?]; done|]. intros [? ?]. split_and!; [done|lia|done].
  - intros b Hb Hle. destruct (decide (bx_end b <= prev)%Z) as [Hle'|Hgt].
    + destruct (sc_done _ _ _ _ Hs b Hb Hle') as [Hbd Hc]. split; [|intros lis l k Hl Hin; by eapply Hm, Hc].
      rewrite (proj2 (Hold _ (or_end _ (Hordered b Hb)) Hle')).
      eapply box_bound_insert; [done..| |done]. intros t' Ht' Hlt. eapply sc_known; [done..|lia].
    + assert (Hin : b ∈ evs) by (apply (sc_events _ _ _ _ Hs); split; [done|lia]).
      destruct (Hend b Hin Hle) as [_ E]. split; [|by apply Hcov]. rewrite E, Hvt.
      eapply box_bound_insert; [done..| |by apply Hbb]. intros t' Ht' Hlt. apply Hbefore; [done|lia].
  - intros t' Ht' Hle. destruct (Hcase t' Ht' Hle) as [->|?].
    + rewrite Hvt. pose proof (sc_zero _ _ _ _ Hs prev Hprev ltac:(lia)). lia.
    + rewrite (proj2 (Hold t' Ht' ltac:(done))). eapply sc_zero; eauto.
  - intros t1 t2 H1 H2 Hlt Hle. destruct (Hcase t2 H2 Hle) as [->|?].
    + rewrite Hvt, (proj2 (Hold t1 H1 (Hnext t1 H1 Hlt))). destruct (decide (t1 = prev)) as [->|]; [lia|].
      pose proof (sc_apart _ _ _ _ Hs t1 prev H1 Hprev ltac:(specialize (Hnext t1 H1 Hlt); lia) ltac:(lia)). lia.
    + rewrite (proj2 (Hold t1 H1 ltac:(lia))), (proj2 (Hold t2 H2 ltac:(done))). eapply sc_apart; eauto.
  - intros y M t' Hf Ht' Hle. destruct (Hcase t' Ht' Hle) as [->|?].
    + rewrite Hvt. apply HB. split.
      * pose proof (sc_least _ _ _ _ Hs y M prev Hf Hprev ltac:(lia)). pose proof (ft_apart _ _ Hf prev t Hprev HtS Ht). lia.
      * intros b Hb Hle'. destruct (Hend b Hb Hle') as [Hbx E]. rewrite <- E. eapply box_bound_fit; [done..|]. by rewrite E.
    + rewrite (proj2 (Hold t' Ht' ltac:(done))). eapply sc_least; eauto.
Qed.

Lemma scan_spec prev ts xs evs points :
  scanned prev xs evs points -> prev ∈ TS -> StronglySorted Z.lt (prev :: ts) ->
  (forall t, t ∈ TS -> (prev < t)%Z <-> t ∈ ts) -> (forall t, t ∈ ts -> t ∈ TS) ->
  exists xs' evs' points' T, scan px byGid pr prev ts xs evs points = Some (xs', points') /\
    scanned T xs' evs' points' /\ forall t, t ∈ TS -> (t <= T)%Z.
Proof.
  revert prev xs evs points. induction ts as [|t ts IH]; intros prev xs evs points Hs Hp Hsort Hts Hin.
  - exists xs, evs, points, prev. split_and!; [done..|]. intros t Ht. destruct (decide (prev < t)%Z) as [Hlt|]; [|lia].
    apply Hts in Hlt; [|done]. set_solver.
  - apply StronglySorted_inv in Hsort as [Hsort Hall]. apply Forall_cons in Hall as [Hlt _].
    pose proof (StronglySorted_inv Hsort) as [_ Hlater]. rewrite Forall_forall in Hlater.
    assert (HtS : t ∈ TS) by (apply Hin; by left).
    destruct (scan_step prev t xs evs points Hs Hp HtS Hlt) as (rest & points' & p' & Hpl & Hs').
    { intros t' Ht' Hlt'. destruct (decide (prev < t')%Z) as [Hgt|]; [|lia]. apply Hts in Hgt; [|done].
      apply elem_of_cons in Hgt as [->|Hgt]; [lia|]. specialize (Hlater t' Hgt). simpl in Hlater. lia. }
    cbn [scan]. rewrite Hpl. cbn [mbind option_bind]. apply (IH t _ rest points' Hs' HtS Hsort).
    + intros t' Ht'. split; [|by apply Hlater]. intros Hgt. assert (Hg : (prev < t')%Z) by lia. apply Hts in Hg; [|done].
      apply elem_of_cons in Hg as [->|?]; [lia|done].
    + intros t' Ht'. apply Hin. by right.
Qed.

(** ** The result *)

Hypothesis Hthrough : forall l lin k, pr_lins pr !! l = Some lin -> k < length lin ->
  exists b lis, b ∈ boxes /\ pr_toLin pr !! bx_gid b = Some lis /\ (l, k) ∈ lis.

Lemma start_of_time l lin k : pr_lins pr !! l = Some lin -> k < length lin -> start_of l k ∈ TS.
Proof.
  intros Hl Hk. destruct (Hthrough l lin k Hl Hk) as (b & lis & Hb & Hlis & Hin).
  destruct (or_points _ (Hordered b Hb) lis l k Hlis Hin) as (_ & _ & _ & Hst). by destruct (Hst k).
Qed.

Lemma scanned_fits T xs evs points :
  scanned T xs evs points -> (forall t, t ∈ TS -> (t <= T)%Z) ->
  fits (xval xs) (pt xs) /\
  (forall l lin, pr_lins pr !! l = Some lin -> points !! l = Some (first_points xs l (length lin))) /\
  forall y M, fits y M -> (forall t, t ∈ TS -> (xval xs t <= y t)%Z) /\
    forall l lin k, pr_lins pr !! l = Some lin -> k < length lin -> (pt xs l k <= M l k)%Z.
Proof.
  intros Hs HT.
  assert (Hdone : forall b, b ∈ boxes -> box_bound xs b (xval xs (bx_end b)) /\ box_covered points b).
  { intros b Hb. apply (sc_done _ _ _ _ Hs b Hb), HT, (Hordered b Hb). }
  split_and!; [split|..].
  - intros t Ht. eapply sc_zero; eauto.
  - intros t t' Ht Ht' Hlt. eapply sc_apart; eauto.
  - intros b Hb. apply (Hdone b Hb).
  - intros l lin [|k] _ _; cbn [point]; lia.
  - intros l lin k _ _. cbn [point]. lia.
  - intros b l k lis Hb Hl Hin. destruct (Hdone b Hb) as [Hbd _]. by eapply bb_points.
  - intros b l k lin ill Hb Hill Hin Hl Hlen. destruct (Hdone b Hb) as [Hbd _]. by eapply bb_next.
  - intros l lin Hl. destruct (sc_points _ _ _ _ Hs) as [Hlen Hg].
    destruct (lookup_lt_is_Some_2 points l) as [pts Hpts]; [rewrite Hlen; by eapply lookup_lt_Some|].
    destruct (Hg l lin pts Hl Hpts) as (c & Hc & -> & _). rewrite Hpts. f_equal. f_equal.
    destruct (decide (c = length lin)) as [|Hne]; [done|exfalso].
    destruct (Hthrough l lin (pred (length lin)) Hl ltac:(lia)) as (b & lis & Hb & Hlis & Hin).
    destruct (proj2 (Hdone b Hb) lis l _ Hlis Hin) as (pts & Hpts' & Hle).
    rewrite Hpts in Hpts'. injection Hpts' as <-. rewrite length_first_points in Hle. lia.
  - intros y M Hf. split; [intros t Ht; eapply sc_least; eauto|]. intros l lin k Hl Hk.
    apply (point_le_fit _ y M l lin); [done..|]. intros i Hi.
    assert (start_of l i ∈ TS) by (eapply start_of_time; [done|lia]). eapply sc_least; eauto.
Qed.

(** ** How wide it can get *)

(** The number of times before [t]. *)
Definition rank (t : Z) : Z := Z.of_nat (size (filter (fun t' => t' < t)%Z TS)).

Lemma rank_lt t t' : t ∈ TS -> (t < t')%Z -> (rank t + 1 <= rank t')%Z.
Proof.
  intros Ht Hlt. unfold rank. assert (size (filter (fun z => z < t)%Z TS) < size (filter (fun z => z < t')%Z TS)); [|lia].
  apply subset_size. split; [|intros Hsub]; [intros z; rewrite !elem_of_filter; intros [? ?]; split; [lia|done]|].
  assert (Hin : t ∈ filter (fun z => z < t)%Z TS) by (apply Hsub, elem_of_filter; done). apply elem_of_filter in Hin as [? _]. lia.
Qed.

Lemma rank_bound t : t ∈ TS -> (rank t + 1 <= Z.of_nat (size TS))%Z.
Proof.
  intros Ht. unfold rank. assert (size (filter (fun z => z < t)%Z TS) < size TS); [|lia].
  apply subset_size. split; [by intros z [_ Hz]%elem_of_filter|intros Hsub]. apply Hsub, elem_of_filter in Ht as [? _]. lia.
Qed.

(** Columns that are wide enough for the gap, every box and all points of a
    linearization. *)
Record wide (K : Z) : Prop := {
  wd_gap : (BOX_GAP <= K)%Z;
  wd_box b : b ∈ boxes -> (bx_width b <= K)%Z;
  wd_lin l lin : pr_lins pr !! l = Some lin -> (Z.of_nat (length lin) * EPSILON <= K)%Z;
}.

Lemma point_in_column K l k e :
  (0 <= K)%Z -> (forall i, i <= k -> start_of l i ∈ TS /\ (start_of l i < e)%Z) ->
  (point (fun t => K * rank t)%Z l k + K <= K * rank e + Z.of_nat k * EPSILON)%Z.
Proof.
  intros HK. assert (HE : (0 <= EPSILON)%Z) by (unfold VisLayout.EPSILON; lia).
  induction k as [|k IH]; intros Hst; cbn [point].
  - destruct (Hst 0 ltac:(lia)) as [Ht Hlt]. pose proof (rank_lt _ _ Ht Hlt). nia.
  - destruct (Hst (S k) ltac:(lia)) as [Ht Hlt]. pose proof (rank_lt _ _ Ht Hlt).
    specialize (IH ltac:(intros i Hi; apply Hst; lia)). nia.
Qed.

(** One column for each time is a layout. *)
Lemma columns_fit K : wide K -> fits (fun t => K * rank t)%Z (point (fun t => K * rank t)%Z).
Proof.
  intros [Hgap Hbox Hlin]. assert (HK : (0 <= K)%Z) by (unfold VisLayout.BOX_GAP in Hgap; lia). split.
  - intros t _. unfold rank. nia.
  - intros t t' Ht _ Hlt. pose proof (rank_lt _ _ Ht Hlt). nia.
  - intros b Hb. destruct (Hordered b Hb) as [Hs _ Hlt _ _ _]. pose proof (rank_lt _ _ Hs Hlt). specialize (Hbox b Hb). nia.
  - intros l lin [|k] _ _; cbn [point]; lia.
  - intros l lin k _ _. cbn [point]. lia.
  - intros b l k lis Hb Hl Hin. destruct (or_points _ (Hordered b Hb) lis l k Hl Hin) as (lin & Hll & Hk & Hst).
    pose proof (point_in_column K l k _ HK Hst). specialize (Hlin l lin Hll).
    assert (HE : (0 < EPSILON)%Z) by (unfold VisLayout.EPSILON; lia). nia.
  - intros b l k lin ill Hb Hill Hin Hl Hlen. destruct (or_illegal _ (Hordered b Hb) ill l Hill Hin) as (lin' & Hl' & _ & Hst).
    rewrite Hl in Hl'. injection Hl' as <-. specialize (Hlin l lin Hl). rewrite Hlen in Hlin.
    pose proof (point_in_column K l k (bx_end b) HK ltac:(intros i Hi; apply Hst; lia)). lia.
Qed.
End scan.
