(* ===== verification/VisSpec.v ===== *)
(** * What a layout of the page has to satisfy

    The constraints that the comment of [render] lists, stated for the histories and the
    linearizations of the page and not for the tables that the script makes of them.
    [page_fits] relates positions of times and of linearization points to the page; the
    tables of [prep] hold the same linearizations, so that [fits] says the same. *)

From S2P Require Import Prelude GoLib Porcupine Visualization VisLayout VisScan.

(** ** The page *)

(** All linearizations of the page, with the histories they are of. *)
Definition page_lins (ps : list Part) : list (list El * list linearizationStep) :=
  ps ≫= fun p => (fun lin => (pt_History p, lin)) <$> pt_Lins p.

(** A time at which something starts or ends, on the page or in the data. *)
Definition time_of (ps : list Part) (t : Z) : Prop :=
  exists el, el ∈ all_els ps /\ (t = el_Start el \/ t = el_OriginalEnd el \/ t = el_End el).

(** The element [el], with index [j], could come after the linearization: it is not in
    it, and nothing that is not in it ends before [el] starts. *)
Definition may_follow (h : list El) (lin : list linearizationStep) (j : nat) (el : El) : Prop :=
  h !! j = Some el /\ (Z.of_nat j ∉ indices lin) /\
  forall j' el', h !! j' = Some el' -> Z.of_nat j' ∉ indices lin -> (el_Start el < el_End el')%Z.

(** Positions [y] of times and [N] of the points of linearizations, with the numbers of
    these in [page_lins]: times are not negative and apart, texts fit, and the points of
    a linearization are in order, apart and within the boxes of their elements, the last
    one before the end of the elements that could follow. *)
Record page_fits (px : Z) (textWidth : string -> Z) (ps : list Part) (y : Z -> Z) (N : nat -> nat -> Z) : Prop := {
  pgf_first t : time_of ps t -> (0 <= y t)%Z;
  pgf_apart t t' : time_of ps t -> time_of ps t' -> (t < t')%Z -> (y t + BOX_GAP px <= y t')%Z;
  pgf_text el : el ∈ all_els ps ->
    (y (el_Start el) + textWidth (el_Description el) + 2 * BOX_TEXT_PADDING px <= y (el_End el))%Z;
  pgf_point g h lin k id el : page_lins ps !! g = Some (h, lin) -> lin !! k = Some id -> js_at h (ls_Index id) = Some el ->
    (y (el_Start el) <= N g k <= y (el_End el))%Z;
  pgf_step g h lin k : page_lins ps !! g = Some (h, lin) -> S k < length lin -> (N g k + EPSILON px <= N g (S k))%Z;
  pgf_next g h lin k j el : page_lins ps !! g = Some (h, lin) -> length lin = S k -> may_follow h lin j el ->
    (N g k + EPSILON px <= y (el_End el))%Z;
}.

(** The script moves the end of an event that ends when another starts. The ends keep
    their order, and an event overlaps another exactly when it started before or when that
    one ended: what may follow is decided by the times of the data. *)
Record ends_moved (ps : list Part) : Prop := {
  em_later el : el ∈ all_els ps -> (el_OriginalEnd el <= el_End el)%Z;
  em_start el el' : el ∈ all_els ps -> el' ∈ all_els ps -> (el_Start el < el_End el')%Z <-> (el_Start el <= el_OriginalEnd el')%Z;
  em_before el el' : el ∈ all_els ps -> el' ∈ all_els ps -> (el_End el < el_Start el')%Z <-> (el_OriginalEnd el < el_Start el')%Z;
  em_order el el' : el ∈ all_els ps -> el' ∈ all_els ps -> (el_End el < el_End el')%Z <-> (el_OriginalEnd el < el_OriginalEnd el')%Z;
}.

(** What a layout of the page is: the positions of times and points, which fit and are
    the least that do; and their size, for columns of width [K] that are wide enough for
    the gap, every text and all points of a linearization. *)
Record laid_out (px : Z) (textWidth : string -> Z) (ly : Layout) (y : Z -> Z) (N : nat -> nat -> Z) : Prop := {
  lo_xPos t : time_of (ly_data ly) t -> xpos_at (ly_xPos ly) t = Some (y t);
  lo_points g h lin : page_lins (ly_data ly) !! g = Some (h, lin) ->
    ly_points ly !! g = Some ((fun k => Some (N g k)) <$> seq 0 (length lin));
  lo_fits : page_fits px textWidth (ly_data ly) y N;
  lo_least y' N' : page_fits px textWidth (ly_data ly) y' N' ->
    (forall t, time_of (ly_data ly) t -> (y t <= y' t)%Z) /\
    forall g h lin k, page_lins (ly_data ly) !! g = Some (h, lin) -> k < length lin -> (N g k <= N' g k)%Z;
  lo_narrow K : (BOX_GAP px <= K)%Z ->
    (forall el, el ∈ all_els (ly_data ly) -> (textWidth (el_Description el) + 2 * BOX_TEXT_PADDING px <= K)%Z) ->
    (forall g h lin, page_lins (ly_data ly) !! g = Some (h, lin) -> (Z.of_nat (length lin) * EPSILON px <= K)%Z) ->
    forall t, time_of (ly_data ly) t -> (y t < 3 * Z.of_nat (length (all_els (ly_data ly))) * K)%Z;
}.

(** ** Elements that could follow *)

Lemma fold_min_spec (es : list Z) m t :
  before_end t (foldl (fun m e => Some (match m with Some m => Z.min m e | None => e end)) m es) = true <->
  before_end t m = true /\ forall e, e ∈ es -> (t < e)%Z.
Proof.
  revert m. induction es as [|e es IH]; intros m; simpl; [set_solver|]. rewrite IH.
  setoid_rewrite elem_of_cons. destruct m as [m|]; simpl; rewrite ?bool_decide_eq_true; split; intros [H1 H2]; split.
  all: try (intros e' [->|He']; [lia|by apply H2]).
  all: try (intros e' He'; apply H2; by right).
  all: try lia; try done.
  all: specialize (H2 e ltac:(by left)); lia.
Qed.

Lemma illegal_next_spec h lin j el : (j, el) ∈ illegal_next h lin <-> may_follow h lin j el.
Proof.
  unfold illegal_next, may_follow. rewrite list_elem_of_filter, elem_of_lookup_imap. unfold min_end. rewrite fold_min_spec.
  unfold is_included at 1. rewrite bool_decide_eq_false. split.
  - intros ((Hinc & _ & Hmin) & j' & el' & [= -> ->] & Hj). split_and!; [done|done|]. intros k ek Hk Hnk. apply Hmin.
    apply list_elem_of_omap. exists (k, ek). split; [apply elem_of_lookup_imap; by exists k, ek|]. unfold is_included. by rewrite bool_decide_eq_false_2.
  - intros (Hj & Hinc & Hmin). split; [|by exists j, el]. split_and!; [done|done|]. intros e He.
    apply list_elem_of_omap in He as ([k ek] & Hk & He). apply elem_of_lookup_imap in Hk as (? & ? & [= <- <-] & Hk).
    unfold is_included in He. case_bool_decide as Hnk; [done|]. injection He as <-. by eapply Hmin.
Qed.

(** ** The tables of the script *)

Lemma push_all_elem {A} (ixs : list (nat * A)) (l l' : list (list A)) :
  push_all ixs l = Some l' -> forall i r', l' !! i = Some r' ->
  exists r, l !! i = Some r /\ forall x, x ∈ r' <-> x ∈ r \/ (i, x) ∈ ixs.
Proof.
  unfold push_all. revert l'. induction ixs as [|[i x] ixs IH] using rev_ind; intros l'; [intros [= <-] i r' Hr; exists r'; set_solver|].
  rewrite foldl_snoc. intros (l1 & H1 & (r0 & Hr0 & [= <-])%bind_Some)%bind_Some j r' Hr'. destruct (decide (j = i)) as [->|Hne].
  - rewrite list_lookup_insert_eq in Hr' by (by eapply lookup_lt_Some). injection Hr' as <-.
    destruct (IH l1 H1 i r0 Hr0) as (r & Hr & Hx). exists r. split; [done|]. intros z. rewrite !elem_of_app, Hx. set_solver.
  - rewrite list_lookup_insert_ne in Hr' by done. destruct (IH l1 H1 j r' Hr') as (r & Hr & Hx). exists r. split; [done|].
    intros z. rewrite Hx, elem_of_app. set_solver.
Qed.

(** [pr] has the linearizations [ls], and for each event those it could follow. *)
Record tables (ls : list (list El * list linearizationStep)) (pr : Prep) : Prop := {
  tb_lins : Forall2 (fun hl gids => mapM (fun i => el_Gid <$> js_at hl.1 i) (indices hl.2) = Some gids) ls (pr_lins pr);
  tb_illegal g ill l : pr_illegal pr !! g = Some ill ->
    l ∈ ill <-> exists h lin j el, ls !! l = Some (h, lin) /\ may_follow h lin j el /\ el_Gid el = g;
}.

Lemma prep_lin_tables ls h lin pr pr' :
  tables ls pr -> prep_lin h pr lin = Some pr' -> tables (ls ++ [(h, lin)]) pr'.
Proof.
  intros [Hl Hi]. unfold prep_lin. intros (gids & Hg & (toLin & _ & (illegal & Hill & [= <-])%bind_Some)%bind_Some)%bind_Some.
  pose proof (Forall2_length _ _ _ Hl) as Hlen. split; simpl; [apply Forall2_app; [done|by constructor]|].
  intros g ill l Hgl. destruct (push_all_elem _ _ _ Hill g ill Hgl) as (r & Hr & Hx). rewrite Hx, (Hi g r l Hr). split.
  - intros [(h' & lin' & j & el & Hls & Hm)|Hin]; [exists h', lin', j, el; split; [by apply lookup_app_l_Some|done]|].
    apply list_elem_of_fmap in Hin as ([j el] & [= -> ->] & Hj). exists h, lin, j, el. rewrite <- Hlen, list_lookup_middle by done.
    split_and!; [done|by apply illegal_next_spec|done].
  - intros (h' & lin' & j & el & Hls & Hm & Hgid). apply lookup_app_Some in Hls as [Hls|[Hge Hls]]; [left; by exists h', lin', j, el|right].
    apply list_lookup_singleton_Some in Hls as [Hz [= <- <-]]. apply list_elem_of_fmap. exists (j, el). rewrite <- Hgid, <- Hlen.
    split; [f_equal; lia|by apply illegal_next_spec].
Qed.

Lemma prep_part_tables ls p pr pr' :
  tables ls pr -> prep_part pr p = Some pr' -> tables (ls ++ page_lins [p]) pr'.
Proof.
  unfold prep_part, page_lins. simpl. rewrite app_nil_r. intros Ht. revert pr'.
  induction (pt_Lins p) as [|lin lins IH] using rev_ind; intros pr'; simpl; [intros [= <-]; by rewrite app_nil_r|].
  rewrite foldl_snoc. intros (pr1 & H1 & H2)%bind_Some. rewrite fmap_app, app_assoc. by eapply prep_lin_tables; [apply IH|].
Qed.

Lemma page_lins_app ps ps' : page_lins (ps ++ ps') = page_lins ps ++ page_lins ps'.
Proof. unfold page_lins. by rewrite bind_app. Qed.

Lemma prep_tables n ps pr : prep n ps = Some pr -> tables (page_lins ps) pr.
Proof.
  unfold prep. revert pr. induction ps as [|p ps IH] using rev_ind; intros pr; simpl.
  - intros [= <-]. split; simpl; [constructor|]. intros g ill l [-> _]%lookup_replicate. split; [set_solver|].
    intros (? & ? & ? & ? & Hn & _). by rewrite lookup_nil in Hn.
  - rewrite foldl_snoc. intros (pr1 & H1 & H2)%bind_Some. rewrite page_lins_app. by eapply prep_part_tables; [apply IH|].
Qed.

(** ** The constraints over the tables are those of the page *)

Lemma elem_of_byEnd `{!Sorter} px textWidth els b :
  b ∈ byEnd px textWidth els <-> exists el, el ∈ els /\ b = box_of px textWidth el.
Proof. unfold byEnd. rewrite sort_by_perm, list_elem_of_fmap. naive_solver. Qed.

Section same.
Context `{!Sorter}.
Variables (px : Z) (textWidth : string -> Z) (ps : list Part) (pr : Prep) (TS : gset Z).
Hypothesis Hgid : forall el, el ∈ all_els ps -> all_els ps !! el_Gid el = Some el.
Hypothesis Htb : tables (page_lins ps) pr.
Hypothesis Hto : forall g lis l k, pr_toLin pr !! g = Some lis ->
  (l, k) ∈ lis <-> exists lin, pr_lins pr !! l = Some lin /\ lin !! k = Some g.
Hypothesis Hlen : length (pr_toLin pr) = length (all_els ps) /\ length (pr_illegal pr) = length (all_els ps).
Hypothesis HTS : forall t, t ∈ TS <-> time_of ps t.

Abbreviation els := (all_els ps).

Lemma page_lin_elem g h lin i el : page_lins ps !! g = Some (h, lin) -> js_at h i = Some el -> el ∈ els.
Proof.
  intros Hg Hel. apply list_elem_of_lookup_2 in Hg. unfold page_lins in Hg. apply list_elem_of_bind in Hg as (p & Hg & Hp).
  apply list_elem_of_fmap in Hg as (lin' & [= -> ->] & _). unfold js_at in Hel. case_decide; [|done].
  unfold all_els. apply list_elem_of_bind. exists p. split; [by eapply list_elem_of_lookup_2|done].
Qed.

Lemma may_follow_elem g h lin j el : page_lins ps !! g = Some (h, lin) -> may_follow h lin j el -> el ∈ els.
Proof.
  intros Hg (Hj & _). apply (page_lin_elem g h lin (Z.of_nat j)); [done|]. unfold js_at. rewrite decide_True by lia. by rewrite Nat2Z.id.
Qed.

(** The events of a linearization in the tables. *)
Lemma table_lin g h lin : page_lins ps !! g = Some (h, lin) -> exists gids, pr_lins pr !! g = Some gids /\ length gids = length lin /\
  (forall k id el, lin !! k = Some id -> js_at h (ls_Index id) = Some el -> gids !! k = Some (el_Gid el)) /\
  forall k x, gids !! k = Some x -> exists id el, lin !! k = Some id /\ js_at h (ls_Index id) = Some el /\ x = el_Gid el /\ el ∈ els.
Proof.
  intros Hg. destruct (Forall2_lookup_l _ _ _ _ _ (tb_lins _ _ Htb) Hg) as (gids & Hgids & Hm). exists gids. split; [done|].
  simpl in Hm. apply mapM_Some in Hm. unfold indices in Hm. rewrite Forall2_fmap_l in Hm. split_and!.
  - symmetry. exact (Forall2_length _ _ _ Hm).
  - intros k id el Hk Hel. destruct (Forall2_lookup_l _ _ _ _ _ Hm Hk) as (x & Hx & Hgx). simpl in Hgx. rewrite Hel in Hgx. by injection Hgx as <-.
  - intros k x Hx. destruct (Forall2_lookup_r _ _ _ _ _ Hm Hx) as (id & Hk & (el & Hel & ->)%fmap_Some). exists id, el.
    split_and!; [done|done|done|by eapply page_lin_elem].
Qed.

Lemma table_lin_inv g gids : pr_lins pr !! g = Some gids -> exists h lin, page_lins ps !! g = Some (h, lin).
Proof. intros Hg. destruct (Forall2_lookup_r _ _ _ _ _ (tb_lins _ _ Htb) Hg) as ([h lin] & Hl & _). eauto. Qed.

Lemma table_start g gids h lin k id el :
  page_lins ps !! g = Some (h, lin) -> pr_lins pr !! g = Some gids -> lin !! k = Some id -> js_at h (ls_Index id) = Some el ->
  start_of els pr g k = el_Start el.
Proof.
  intros Hg Hgids Hk Hel. destruct (table_lin g h lin Hg) as (gids' & Hgids' & _ & Hev & _).
  unfold start_of. rewrite Hgids'. simpl. rewrite (Hev k id el Hk Hel). simpl.
  by rewrite (Hgid el) by (by eapply page_lin_elem).
Qed.

Lemma fits_page_fits y N : fits px els pr (byEnd px textWidth els) TS y N -> page_fits px textWidth ps y N.
Proof.
  intros Hf. assert (Hbox : forall el, el ∈ els -> box_of px textWidth el ∈ byEnd px textWidth els) by (intros el ?; apply elem_of_byEnd; eauto).
  split.
  - intros t Ht. apply (ft_first _ _ _ _ _ _ _ Hf). by apply HTS.
  - intros t t' Ht Ht'. apply (ft_apart _ _ _ _ _ _ _ Hf); by apply HTS.
  - intros el Hel. pose proof (ft_text _ _ _ _ _ _ _ Hf _ (Hbox el Hel)) as Ht. simpl in Ht. lia.
  - intros g h lin k id el Hg Hk Hel. destruct (table_lin g h lin Hg) as (gids & Hgids & Hl & Hev & _).
    assert (Hin : el ∈ els) by (by eapply page_lin_elem). specialize (Hev k id el Hk Hel). assert (Hlt := lookup_lt_Some _ _ _ Hev). split.
    + rewrite <- (table_start g gids h lin k id el Hg Hgids Hk Hel). by eapply (ft_start _ _ _ _ _ _ _ Hf).
    + destruct (lookup_lt_is_Some_2 (pr_toLin pr) (el_Gid el)) as [lis Hlis]; [rewrite (proj1 Hlen); eapply lookup_lt_Some; by apply Hgid|].
      apply (ft_end _ _ _ _ _ _ _ Hf (box_of px textWidth el) g k lis (Hbox el Hin) Hlis). apply (Hto _ _ _ _ Hlis). eauto.
  - intros g h lin k Hg Hk. destruct (table_lin g h lin Hg) as (gids & Hgids & Hl & _).
    eapply (ft_step _ _ _ _ _ _ _ Hf); [done|lia].
  - intros g h lin k j el Hg Hk Hm. destruct (table_lin g h lin Hg) as (gids & Hgids & Hl & _).
    assert (Hin : el ∈ els) by (by eapply may_follow_elem).
    destruct (lookup_lt_is_Some_2 (pr_illegal pr) (el_Gid el)) as [ill Hill]; [rewrite (proj2 Hlen); eapply lookup_lt_Some; by apply Hgid|].
    apply (ft_next _ _ _ _ _ _ _ Hf (box_of px textWidth el) g k gids ill (Hbox el Hin) Hill); [|done|lia].
    apply (tb_illegal _ _ Htb _ _ _ Hill). by exists h, lin, j, el.
Qed.

Lemma page_fits_fits y N : page_fits px textWidth ps y N -> fits px els pr (byEnd px textWidth els) TS y N.
Proof.
  intros Hf. split.
  - intros t Ht. apply (pgf_first _ _ _ _ _ Hf). by apply HTS.
  - intros t t' Ht Ht'. apply (pgf_apart _ _ _ _ _ Hf); by apply HTS.
  - intros b (el & Hel & ->)%elem_of_byEnd. simpl. pose proof (pgf_text _ _ _ _ _ Hf el Hel). lia.
  - intros g gids k Hgids Hk. destruct (table_lin_inv g gids Hgids) as (h & lin & Hg).
    destruct (table_lin g h lin Hg) as (gids' & Hgids' & _ & _ & Hinv). rewrite Hgids in Hgids'. injection Hgids' as <-.
    destruct (lookup_lt_is_Some_2 gids k Hk) as [x Hx]. destruct (Hinv k x Hx) as (id & el & Hid & Hel & _ & _).
    rewrite (table_start g gids h lin k id el) by done. by apply (pgf_point _ _ _ _ _ Hf g h lin k id el).
  - intros g gids k Hgids Hk. destruct (table_lin_inv g gids Hgids) as (h & lin & Hg).
    destruct (table_lin g h lin Hg) as (gids' & Hgids' & Hl & _). rewrite Hgids in Hgids'. injection Hgids' as <-.
    eapply (pgf_step _ _ _ _ _ Hf); [done|lia].
  - intros b g k lis (el & Hel & ->)%elem_of_byEnd Hlis Hin. simpl in *. apply (Hto _ _ _ _ Hlis) in Hin as (gids & Hgids & Hk).
    destruct (table_lin_inv g gids Hgids) as (h & lin & Hg). destruct (table_lin g h lin Hg) as (gids' & Hgids' & _ & _ & Hinv).
    rewrite Hgids in Hgids'. injection Hgids' as <-. destruct (Hinv k _ Hk) as (id & el' & Hid & Hel' & Heq & Hin').
    assert (el' = el) as -> by (apply Hgid in Hel, Hin'; congruence). by apply (pgf_point _ _ _ _ _ Hf g h lin k id el).
  - intros b g k gids ill (el & Hel & ->)%elem_of_byEnd Hill Hin Hgids Hk. simpl in *.
    apply (tb_illegal _ _ Htb _ _ _ Hill) in Hin as (h & lin & j & el' & Hg & Hm & Heq).
    assert (Hin' : el' ∈ els) by (by eapply may_follow_elem). assert (el' = el) as -> by (apply Hgid in Hel, Hin'; congruence).
    destruct (table_lin g h lin Hg) as (gids' & Hgids' & Hl & _). rewrite Hgids in Hgids'. injection Hgids' as <-.
    apply (pgf_next _ _ _ _ _ Hf g h lin k j el); [done|lia|done].
Qed.
End same.
