(* ===== verification/VisUndefined.v ===== *)
(** * Undefined positions

    A position that the scan computes from the position of a time that is not placed yet
    is undefined, and stays so. This happens to the last time when a box starts there. *)

From S2P Require Import Prelude GoLib Porcupine Visualization VisLayout.

Section undefined.
Variables (px : Z) (byGid : list El) (pr : Prep).

Lemma nmax_None_r a : nmax a None = None.
Proof. by destruct a. Qed.

Lemma fold_points_None xs lis points points' pos :
  foldl (place_points px byGid pr xs) (Some (points, None)) lis = Some (points', pos) -> pos = None.
Proof.
  revert points. induction lis as [|[index count] lis IH]; intros points; [by intros [= _ <-]|]. cbn [foldl].
  destruct (place_points px byGid pr xs (Some (points, None)) (index, count)) as [[points1 pos1]|] eqn:E.
  - assert (pos1 = None) as ->; [|apply IH]. unfold place_points in E. cbn [mbind option_bind] in E.
    apply bind_Some in E as (pts & _ & (lin & _ & (pts' & _ & [= _ <-])%bind_Some)%bind_Some). done.
  - clear IH E. induction lis as [|? lis IH']; [done|]. exact IH'.
Qed.

Lemma fold_illegal_None points ill pos : foldl (place_illegal px points) (Some None) ill = Some pos -> pos = None.
Proof.
  induction ill as [|index ill IH]; [by intros [= <-]|]. cbn [foldl]. unfold place_illegal at 2. cbn [mbind option_bind].
  destruct (points !! index) as [pts|]; [exact IH|]. cbn [mbind option_bind]. clear IH. induction ill as [|? ill IH']; [done|]. exact IH'.
Qed.

(** A box without a start, or an undefined position, gives an undefined position. *)
Lemma place_box_None xs b points pos points' pos' :
  pos = None \/ xpos_at xs (bx_start b) = None -> place_box px byGid pr xs b points pos = Some (points', pos') -> pos' = None.
Proof.
  intros Hu. unfold place_box. assert (nmax pos (nadd (xpos_at xs (bx_start b)) (bx_width b)) = None) as ->.
  { destruct Hu as [->|Hx]; [done|]. rewrite Hx. apply nmax_None_r. }
  intros (lis & _ & ([points1 pos1] & ->%fold_points_None & (ill & _ & (pos2 & ->%fold_illegal_None & [= _ <-])%bind_Some)%bind_Some)%bind_Some)%bind_Some.
  done.
Qed.

Lemma place_boxes_None xs t evs points pos rest points' pos' :
  (forall b, b ∈ evs -> (bx_end b <= t)%Z) -> pos = None \/ (exists b, b ∈ evs /\ xpos_at xs (bx_start b) = None) ->
  place_boxes px byGid pr xs t evs points pos = Some (rest, points', pos') -> pos' = None.
Proof.
  revert points pos. induction evs as [|b evs IH]; intros points pos Hend Hu; cbn [place_boxes].
  - intros [= _ _ <-]. destruct Hu as [->|(b & Hb & _)]; [done|by apply not_elem_of_nil in Hb].
  - rewrite decide_True by (apply Hend; by left). intros ([points1 pos1] & Hb & Hr)%bind_Some. eapply IH; [|..|exact Hr].
    + intros b' Hb'. apply Hend. by right.
    + destruct Hu as [->|(b' & [->|Hb']%elem_of_cons & Hx)]; [left; by eapply place_box_None; [left|]|left; by eapply place_box_None; [right|]|].
      right. eauto.
Qed.

Lemma place_boxes_keep xs t evs points pos rest points' pos' b :
  place_boxes px byGid pr xs t evs points pos = Some (rest, points', pos') ->
  (forall b', b' ∈ rest -> b' ∈ evs) /\ (b ∈ evs -> (t < bx_end b)%Z -> b ∈ rest).
Proof.
  revert points pos. induction evs as [|b0 evs IH]; intros points pos; cbn [place_boxes]; [by intros [= <- _ _]|].
  case_decide; [|by intros [= <- _ _]]. intros ([points1 pos1] & _ & Hr)%bind_Some. destruct (IH _ _ Hr) as [H1 H2]. split.
  - intros b' Hb'. right. by apply H1.
  - intros [->|Hb]%elem_of_cons Hlt; [lia|by apply H2].
Qed.

(** The scan leaves the last time undefined when a box starts there. *)
Lemma scan_None T ts prev xs evs points xs' points' b :
  Forall (fun t => (t < T)%Z) ts -> xs !! T = None -> (forall b', b' ∈ evs -> (bx_end b' <= T)%Z) ->
  b ∈ evs -> bx_start b = T -> bx_end b = T ->
  scan px byGid pr prev (ts ++ [T]) xs evs points = Some (xs', points') -> xpos_at xs' T = None.
Proof.
  intros Hts. revert prev xs evs points. induction Hts as [|t ts Hlt Hts IH]; intros prev xs evs points Hx Hend Hb Hbs Hbe; cbn [app scan].
  - intros ([[rest points1] pos] & Hp & [= <- _])%bind_Some. apply place_boxes_None in Hp as ->; [|done|].
    + unfold xpos_at. by rewrite lookup_insert_eq.
    + right. exists b. unfold xpos_at. by rewrite Hbs, Hx.
  - intros ([[rest points1] pos] & Hp & Hr)%bind_Some. destruct (place_boxes_keep _ _ _ _ _ _ _ _ b Hp) as [Hsub Hkeep].
    eapply IH; [..|exact Hr]; [by rewrite lookup_insert_ne by lia|auto|apply Hkeep; [done|lia]|done|done].
Qed.
End undefined.
