(* ===== verification/VisSolve.v ===== *)
(** * The layout of what the checker shows

    The data of a page whose histories and linearizations are in real-time order satisfy
    what the scan needs, so that [layout] finds the least positions that fit; [drawable]
    says what is asked of the data. *)

From S2P Require Import Prelude GoLib Porcupine Visualization VisLayout VisScan VisSpec VisUndefined.

(** ** The data *)

(** A linearization of the history [h]: the indices [p] of elements that may come in this
    order, before all others. *)
Definition ordered_lin (h : list historyElement) (p : list nat) : Prop :=
  p <> [] /\ NoDup p /\ Forall (fun i => i < length h) p /\
  forall p1 i p2 j hi hj, p = p1 ++ i :: p2 -> j ∉ p1 -> h !! i = Some hi -> h !! j = Some hj ->
    (he_Start hi <= he_End hj)%Z.

Record drawable (data : list partitionVisualizationData) : Prop := {
  dr_times d he : d ∈ data -> he ∈ pd_History d -> (he_Start he <= he_End he)%Z;
  dr_last d he : d ∈ data -> he ∈ pd_History d ->
    exists d' he', d' ∈ data /\ he' ∈ pd_History d' /\ (he_Start he < he_End he')%Z;
  dr_lins d lin : d ∈ data -> lin ∈ pd_PartialLinearizations d ->
    exists p, indices lin = Z.of_nat <$> p /\ ordered_lin (pd_History d) p;
}.

(** ** Times *)

#[export] Instance ltb_strict_weak : StrictWeak Z.ltb.
Proof. split; intros; rewrite ?Z.ltb_lt, ?Z.ltb_ge in *; lia. Qed.

#[export] Instance ends_before_strict_weak : StrictWeak ends_before.
Proof. split; unfold ends_before; intros; rewrite ?Z.ltb_lt, ?Z.ltb_ge in *; lia. Qed.

Section solve.
Context `{!Sorter}.

Lemma elem_of_sorted s t : t ∈ sorted s <-> t ∈ s.
Proof. unfold sorted. by rewrite sort_by_perm, elem_of_elements. Qed.

Lemma sorted_NoDup s : NoDup (sorted s).
Proof. unfold sorted. rewrite sort_by_perm. apply NoDup_elements. Qed.

Lemma sorted_lt s : StronglySorted Z.lt (sorted s).
Proof.
  assert (Hs : StronglySorted (not_after Z.ltb) (sorted s))
    by (apply sort_by_strongly, _).
  pose proof (sorted_NoDup s) as Hnd. induction Hs as [|t l Hs IH Hall]; [constructor|].
  apply NoDup_cons in Hnd as [Ht Hnd]. constructor; [by apply IH|]. rewrite Forall_forall in Hall |- *.
  intros t' Ht'. specialize (Hall t' Ht'). unfold not_after in Hall. apply Z.ltb_ge in Hall.
  assert (t <> t') by (by intros ->). lia.
Qed.

Lemma sorted_last s t' : t' ∈ s -> exists t, last (sorted s) = Some t /\ t ∈ s /\ (t' <= t)%Z.
Proof.
  intros Hin. apply elem_of_sorted in Hin. destruct (last (sorted s)) as [t|] eqn:Hl.
  - apply last_Some in Hl as [ts Hl]. exists t. split_and!; [done|apply elem_of_sorted; rewrite Hl; set_solver|].
    pose proof (sorted_lt s) as Hs. rewrite Hl in Hin, Hs. apply elem_of_app in Hin as [Hin| ->%list_elem_of_singleton]; [|lia].
    assert (t' < t)%Z; [|lia]. apply (StronglySorted_app_1_elem_of Z.lt ts [t]); [done|done|by left].
  - apply last_None in Hl. rewrite Hl in Hin. set_solver.
Qed.

Lemma byEnd_sorted px textWidth els : StronglySorted by_end (byEnd px textWidth els).
Proof.
  assert (Hs : StronglySorted (not_after ends_before) (byEnd px textWidth els))
    by (apply sort_by_strongly, _).
  induction Hs as [|b l Hs IH Hall]; constructor; [done|]. eapply Forall_impl; [exact Hall|].
  intros b' Hna. unfold not_after, ends_before in Hna. by apply Z.ltb_ge in Hna.
Qed.

(** Every time but the last has a next one. *)
Lemma nextTs_some (ts : list Z) t t1 :
  StronglySorted Z.lt ts -> t ∈ ts -> t1 ∈ ts -> (t < t1)%Z ->
  exists t', nextTs ts !! t = Some t' /\ (t < t')%Z /\ t' ∈ ts.
Proof.
  unfold nextTs. induction 1 as [|a ts Hs IH Hall]; [set_solver|]. rewrite Forall_forall in Hall. intros Ht Ht1 Hlt.
  destruct ts as [|b ts].
  - apply list_elem_of_singleton in Ht as ->. apply list_elem_of_singleton in Ht1 as ->. lia.
  - cbn [tail zip zip_with list_to_map foldr]. destruct (decide (t = a)) as [->|Hne].
    + exists b. change (foldr _ _ _) with (list_to_map (M := gmap Z Z) (zip (b :: ts) ts)). rewrite lookup_insert_eq.
      split_and!; [done|apply Hall; by left|by right; left].
    + apply elem_of_cons in Ht as [?|Ht]; [done|]. assert (Ht1' : t1 ∈ b :: ts).
      { apply elem_of_cons in Ht1 as [->|?]; [|done]. specialize (Hall t Ht). simpl in Hall. lia. }
      destruct (IH Ht Ht1' Hlt) as (t' & Hn & ? & ?). exists t'.
      change (foldr _ _ _) with (list_to_map (M := gmap Z Z) (zip (b :: ts) ts)).
      rewrite lookup_insert_ne by done. split_and!; [done..|by right].
Qed.

Lemma nextTs_sound (ts : list Z) t t' :
  StronglySorted Z.lt ts -> nextTs ts !! t = Some t' -> (t < t')%Z /\ t' ∈ ts.
Proof.
  unfold nextTs. induction 1 as [|a ts Hs IH Hall]; [cbn; by rewrite lookup_empty|]. rewrite Forall_forall in Hall.
  destruct ts as [|b ts]; [cbn; by rewrite lookup_empty|]. cbn [tail zip zip_with list_to_map foldr].
  change (foldr _ _ _) with (list_to_map (M := gmap Z Z) (zip (b :: ts) ts)). destruct (decide (t = a)) as [->|Hne].
  - rewrite lookup_insert_eq. intros [= <-]. split; [apply Hall; by left|by right; left].
  - rewrite lookup_insert_ne by done. intros [? ?]%IH. split; [done|by right].
Qed.

Lemma nextTs_in (ts : list Z) t t' : nextTs ts !! t = Some t' -> t ∈ ts.
Proof. unfold nextTs. intros Hn%elem_of_list_to_map_2. by apply elem_of_zip_l in Hn. Qed.

(** It is the least of the later times. *)
Lemma nextTs_least (ts : list Z) t t' t1 :
  StronglySorted Z.lt ts -> nextTs ts !! t = Some t' -> t1 ∈ ts -> (t < t1)%Z -> (t' <= t1)%Z.
Proof.
  unfold nextTs. induction 1 as [|a ts Hs IH Hall]; [set_solver|]. rewrite Forall_forall in Hall.
  destruct ts as [|b ts]; [cbn; by rewrite lookup_empty|]. cbn [tail zip zip_with list_to_map foldr].
  change (foldr _ _ _) with (list_to_map (M := gmap Z Z) (zip (b :: ts) ts)). destruct (decide (t = a)) as [->|Hne].
  - rewrite lookup_insert_eq. intros [= <-] Ht1 Hlt. apply elem_of_cons in Ht1 as [->|Ht1]; [lia|].
    apply elem_of_cons in Ht1 as [->|Ht1]; [lia|]. apply StronglySorted_inv in Hs as [_ Hb]. rewrite Forall_forall in Hb.
    specialize (Hb t1 Ht1). simpl in Hb. lia.
  - rewrite lookup_insert_ne by done. intros Hn Ht1 Hlt. apply elem_of_cons in Ht1 as [->|Ht1]; [|by apply IH].
    specialize (Hall t (nextTs_in (b :: ts) t t' Hn)). simpl in Hall. lia.
Qed.

(** ** The elements *)

Lemma number_parts_els g ps :
  all_els (number_parts g ps) = imap (fun i => set_Gid (g + i)) (all_els ps).
Proof.
  revert g. induction ps as [|p ps IH]; intros g; [done|]. cbn [number_parts]. unfold all_els in *. rewrite !bind_cons, IH.
  cbn [pt_History set_History]. rewrite imap_app. f_equal. apply imap_ext. intros i el _. simpl. f_equal. lia.
Qed.

Section data.
Variable data : list partitionVisualizationData.
Hypothesis Hdata : drawable data.

Let els0 := all_els (number_parts 0 (part_of <$> data)).
Let starts := startTimestamps els0.
Let ts0 := sorted (allTimestamps els0).
Let fdata := (fun p => set_History (tweak starts (nextTs ts0) <$> pt_History p) p) <$> number_parts 0 (part_of <$> data).
Let els := all_els fdata.
Let TS := allTimestamps els0 ∪ list_to_set (omap (tweaked starts (nextTs ts0)) els0).

(** An element shows an operation of the data. *)
Definition element_of (el : El) (he : historyElement) : Prop :=
  el_ClientId el = he_ClientId he /\ el_Start el = (2 * he_Start he)%Z /\ el_OriginalEnd el = (2 * he_End he)%Z /\
  el_Description el = he_Description he.

Lemma els_tweak : els = tweak starts (nextTs ts0) <$> els0.
Proof.
  unfold els, els0, fdata. generalize (number_parts 0 (part_of <$> data)) as ps. intros ps.
  generalize (tweak starts (nextTs ts0)) as f. intros f. unfold all_els.
  induction ps as [|p ps IH]; [done|]. by rewrite fmap_cons, !bind_cons, IH, fmap_app.
Qed.

Lemma els0_lookup i el :
  els0 !! i = Some el -> exists d he, d ∈ data /\ he ∈ pd_History d /\ el = set_Gid i (el_of he).
Proof.
  unfold els0. rewrite number_parts_els, list_lookup_imap. intros (el0 & Hel & ->)%fmap_Some.
  apply list_elem_of_lookup_2 in Hel. unfold all_els in Hel. apply list_elem_of_bind in Hel as (p & Hel & Hp).
  apply list_elem_of_fmap in Hp as (d & -> & Hd). simpl in Hel. apply list_elem_of_fmap in Hel as (he & -> & Hhe).
  by exists d, he.
Qed.

Lemma elem_of_els0 d he : d ∈ data -> he ∈ pd_History d -> exists i, els0 !! i = Some (set_Gid i (el_of he)).
Proof.
  intros Hd Hhe. assert (Hin : el_of he ∈ all_els (part_of <$> data)).
  { unfold all_els. apply list_elem_of_bind. exists (part_of d). split; [by apply list_elem_of_fmap_2|by apply list_elem_of_fmap_2]. }
  apply list_elem_of_lookup in Hin as [i Hi]. exists i. unfold els0. by rewrite number_parts_els, list_lookup_imap, Hi.
Qed.

Lemma els_lookup i el :
  els !! i = Some el -> el_Gid el = i /\ exists el0, els0 !! i = Some el0 /\ el = tweak starts (nextTs ts0) el0.
Proof.
  rewrite els_tweak, list_lookup_fmap. intros (el0 & Hel & ->)%fmap_Some.
  destruct (els0_lookup i el0 Hel) as (d & he & _ & _ & ->). split; [done|]. eauto.
Qed.

Lemma els0_times el : el ∈ els0 -> el_Start el ∈ allTimestamps els0 /\ el_End el ∈ allTimestamps els0.
Proof.
  intros Hel. unfold allTimestamps. rewrite !elem_of_list_to_set, !list_elem_of_bind.
  split; exists el; (split; [|done]); set_solver.
Qed.

Lemma times_even t : t ∈ allTimestamps els0 -> exists k, t = (2 * k)%Z.
Proof.
  unfold allTimestamps. rewrite elem_of_list_to_set, list_elem_of_bind. intros (el & Ht & [i Hi]%list_elem_of_lookup).
  destruct (els0_lookup i el Hi) as (d & he & _ & _ & ->). simpl in Ht. set_solver.
Qed.

(** An event that ends when another starts is moved after that. *)
Lemma tweak_after el el' :
  el ∈ els0 -> el' ∈ els0 -> (el_Start el <= el_End el')%Z ->
  (el_Start el < el_End (tweak starts (nextTs ts0) el'))%Z.
Proof.
  intros Hel Hel' Hle. unfold tweak; simpl. unfold tweaked. case_decide as Hs.
  - destruct (nextTs ts0 !! el_End el') as [t'|] eqn:Hn; simpl.
    + apply nextTs_sound in Hn as [Hlt Ht']; [|apply sorted_lt]. apply elem_of_sorted in Ht'.
      destruct (times_even t' Ht') as [k ->]. destruct (times_even _ (proj2 (els0_times el' Hel'))) as [k' Hk']. rewrite Hk' in *.
      replace (2 * k' + 2 * k)%Z with ((k' + k) * 2)%Z by lia. rewrite Z.div_mul by done. lia.
    + exfalso. unfold starts, startTimestamps in Hs. rewrite elem_of_list_to_set, list_elem_of_fmap in Hs.
      destruct Hs as (el1 & He1 & [i Hi]%list_elem_of_lookup). destruct (els0_lookup i el1 Hi) as (d & he & Hd & Hhe & ->).
      destruct (dr_last _ Hdata d he Hd Hhe) as (d' & he' & Hd' & Hhe' & Hlt). destruct (elem_of_els0 d' he' Hd' Hhe') as [j Hj].
      apply list_elem_of_lookup_2 in Hj. apply els0_times in Hj as [_ Hj]. simpl in *.
      destruct (nextTs_some ts0 (el_End el') (2 * he_End he')) as (t' & Hn' & _); [apply sorted_lt|..|congruence].
      * apply elem_of_sorted. by apply els0_times.
      * by apply elem_of_sorted.
      * lia.
  - simpl. assert (el_Start el <> el_End el'); [|lia]. intros E. apply Hs. rewrite <- E.
    unfold starts, startTimestamps. rewrite elem_of_list_to_set. by apply list_elem_of_fmap_2.
Qed.

Lemma els_after i j el el' :
  els !! i = Some el -> els !! j = Some el' -> (el_Start el <= el_OriginalEnd el')%Z -> (el_Start el < el_End el')%Z.
Proof.
  intros (_ & el0 & H0 & ->)%els_lookup (_ & el1 & H1 & ->)%els_lookup Hle.
  apply (tweak_after el0 el1); [by eapply list_elem_of_lookup_2..|done].
Qed.

Lemma els_start_end i el : els !! i = Some el -> (el_Start el < el_End el)%Z.
Proof.
  intros Hi. eapply els_after; [done|done|]. apply els_lookup in Hi as (_ & el0 & H0 & ->).
  destruct (els0_lookup i el0 H0) as (d & he & Hd & Hhe & ->). pose proof (dr_times _ Hdata d he Hd Hhe). simpl. lia.
Qed.

(** The new end is before the next time. *)
Lemma tweak_between el :
  el ∈ els0 -> (el_End el <= el_End (tweak starts (nextTs ts0) el))%Z /\
    forall t, t ∈ allTimestamps els0 -> (el_End el < t)%Z -> (el_End (tweak starts (nextTs ts0) el) < t)%Z.
Proof.
  intros Hel. simpl. unfold tweaked. case_decide; [|by simpl; split; [lia|]].
  destruct (nextTs ts0 !! el_End el) as [t'|] eqn:Hn; simpl; [|by split; [lia|]].
  pose proof (nextTs_sound _ _ _ (sorted_lt _) Hn) as [Hlt Ht'%elem_of_sorted]. destruct (times_even t' Ht') as [k ->].
  destruct (times_even _ (proj2 (els0_times el Hel))) as [k' Hk']. rewrite Hk' in Hlt, Hn |- *.
  replace (2 * k' + 2 * k)%Z with ((k' + k) * 2)%Z by lia. rewrite Z.div_mul by done. split; [lia|].
  intros t Ht Htl. apply elem_of_sorted in Ht. pose proof (nextTs_least _ _ _ t (sorted_lt _) Hn Ht Htl). lia.
Qed.

(** Moving ends keeps their order, and what starts at or before an end is before the new
    one. *)
Lemma fdata_ends : ends_moved fdata.
Proof.
  assert (Htw : forall el, el ∈ els -> exists el0, el0 ∈ els0 /\ el = tweak starts (nextTs ts0) el0).
  { intros el Hel. rewrite els_tweak in Hel. apply list_elem_of_fmap in Hel as (el0 & -> & Hel). eauto. }
  split.
  - intros el (el0 & H0 & ->)%Htw. by apply tweak_between.
  - intros el el' (el0 & H0 & ->)%Htw (el1 & H1 & ->)%Htw. split; [|intros Hle; by apply (tweak_after el0 el1)].
    intros Hlt. destruct (decide (el_End el1 < el_Start el0)%Z) as [Hgt|]; [|simpl; lia].
    pose proof (proj2 (tweak_between el1 H1) _ (proj1 (els0_times el0 H0)) Hgt). simpl in *. lia.
  - intros el el' (el0 & H0 & ->)%Htw (el1 & H1 & ->)%Htw. pose proof (tweak_between el0 H0) as [A1 A2].
    split; intros Hlt; [simpl in *; lia|]. exact (A2 _ (proj1 (els0_times el1 H1)) Hlt).
  - intros el el' (el0 & H0 & ->)%Htw (el1 & H1 & ->)%Htw. pose proof (tweak_between el0 H0) as [A1 A2].
    pose proof (tweak_between el1 H1) as [B1 B2]. change (el_OriginalEnd (tweak starts (nextTs ts0) el0)) with (el_End el0).
    change (el_OriginalEnd (tweak starts (nextTs ts0) el1)) with (el_End el1). split; intros Hlt.
    + destruct (Z.lt_trichotomy (el_End el0) (el_End el1)) as [?|[E|Hgt]]; [done| |].
      * exfalso. simpl in Hlt. unfold tweaked in Hlt. rewrite E in Hlt. lia.
      * specialize (B2 _ (proj2 (els0_times el0 H0)) Hgt). lia.
    + specialize (A2 _ (proj2 (els0_times el1 H1)) Hlt). lia.
Qed.

Lemma els_in_TS i el : els !! i = Some el -> el_Start el ∈ TS /\ el_End el ∈ TS.
Proof.
  intros (_ & el0 & H0 & ->)%els_lookup. apply list_elem_of_lookup_2 in H0 as Hin. destruct (els0_times el0 Hin).
  unfold TS. simpl. split; [set_solver|]. destruct (tweaked starts (nextTs ts0) el0) as [t|] eqn:Ht; simpl; [|set_solver].
  apply elem_of_union_r, elem_of_list_to_set, list_elem_of_omap. eauto.
Qed.

(** ** The partitions *)

(** A partition of the page shows one of the data. *)
Record part_shows (p : Part) (d : partitionVisualizationData) : Prop := {
  ps_lins : pt_Lins p = pd_PartialLinearizations d;
  ps_largest : pt_Largest p = pd_Largest d;
  ps_length : length (pt_History p) = length (pd_History d);
  ps_el i el : pt_History p !! i = Some el -> els !! el_Gid el = Some el /\
    exists he, pd_History d !! i = Some he /\ element_of el he;
}.

Lemma fdata_shows : Forall2 part_shows fdata data.
Proof.
  assert (Hgen : forall ds g before, g = length before -> before ++ all_els (number_parts g (part_of <$> ds)) = els0 ->
    Forall2 part_shows
      ((fun p => set_History (tweak starts (nextTs ts0) <$> pt_History p) p) <$> number_parts g (part_of <$> ds)) ds);
    [|by apply (Hgen data 0 [])].
  induction ds as [|d ds IH]; intros g before Hg E; [constructor|].
  rewrite fmap_cons in E |- *. cbn [number_parts] in E |- *. rewrite fmap_cons. unfold all_els in E. rewrite bind_cons in E.
  cbn [pt_History set_History part_of] in E |- *. constructor.
  - split; simpl; [done|done|by rewrite length_fmap, length_imap, length_fmap|]. intros i el.
    rewrite list_lookup_fmap. intros (el0 & H0 & ->)%fmap_Some. rewrite list_lookup_imap in H0.
    apply fmap_Some in H0 as (el1 & H1 & ->). rewrite list_lookup_fmap in H1. apply fmap_Some in H1 as (he & Hhe & ->).
    split; [|by exists he]. simpl. rewrite els_tweak, list_lookup_fmap, <- E, lookup_app_r by lia.
    replace (g + i - length before) with i by lia. rewrite lookup_app_l by (rewrite length_imap, length_fmap; by eapply lookup_lt_Some).
    by rewrite list_lookup_imap, list_lookup_fmap, Hhe.
  - apply (IH _ (before ++ imap (fun i => set_Gid (g + i)) (el_of <$> pd_History d))).
    + by rewrite length_app, length_imap, Hg.
    + by rewrite <- app_assoc.
Qed.

(** A partition of the page has the operations and the linearizations of the data. *)
Definition same_part (p : Part) (d : partitionVisualizationData) : Prop :=
  pt_Lins p = pd_PartialLinearizations d /\ Forall2 element_of (pt_History p) (pd_History d).

Lemma part_shows_same p d : part_shows p d -> same_part p d.
Proof.
  intros [Hl _ Hlen Hel]. split; [done|]. apply Forall2_same_length_lookup. split; [done|]. intros i el he Hi Hhe.
  destruct (Hel i el Hi) as (_ & he' & Hhe' & He). congruence.
Qed.

(** ** The tables of linearizations *)

Lemma push_all_spec {A} (ixs : list (nat * A)) (l : list (list A)) :
  Forall (fun ix => ix.1 < length l) ixs ->
  exists l', push_all ixs l = Some l' /\ length l' = length l /\
    forall i r, l !! i = Some r -> exists r', l' !! i = Some r' /\ forall x, x ∈ r' <-> x ∈ r \/ (i, x) ∈ ixs.
Proof.
  unfold push_all. induction ixs as [|[i x] ixs IH] using rev_ind; intros Hall.
  - exists l. split_and!; [done..|]. intros i r Hr. exists r. split; [done|]. set_solver.
  - apply Forall_app in Hall as [Hall Hi]. apply Forall_cons in Hi as [Hi _]. simpl in Hi.
    destruct (IH Hall) as (l' & Hl' & Hlen & Hel). rewrite foldl_snoc, Hl'. cbn [mbind option_bind].
    destruct (lookup_lt_is_Some_2 l' i) as [r0 Hr0]; [lia|]. unfold push. rewrite Hr0. cbn [mbind option_bind].
    eexists. split_and!; [done|by rewrite length_insert|]. intros j r Hr. destruct (Hel j r Hr) as (r' & Hr' & Hx).
    destruct (decide (j = i)) as [->|Hne].
    + rewrite Hr0 in Hr'. injection Hr' as ->. rewrite list_lookup_insert_eq by lia. eexists. split; [done|].
      intros y. rewrite !elem_of_app, Hx. set_solver.
    + rewrite list_lookup_insert_ne by done. exists r'. split; [done|]. intros y. rewrite Hx, elem_of_app. set_solver.
Qed.

(** The event [f] starts before the event [g] ends. *)
Definition starts_before_end (f g : nat) : Prop :=
  forall ef eg, els !! f = Some ef -> els !! g = Some eg -> (el_Start ef < el_End eg)%Z.

Record good_lin (gids : list nat) : Prop := {
  gl_nonempty : 0 < length gids;
  gl_range : Forall (fun g => g < length els) gids;
  gl_order k pos f g : k <= pos -> gids !! k = Some f -> gids !! pos = Some g -> starts_before_end f g;
}.

Record good_prep (pr : Prep) : Prop := {
  gp_lengths : length (pr_toLin pr) = length els /\ length (pr_illegal pr) = length els;
  gp_lins : Forall good_lin (pr_lins pr);
  gp_to g lis l k : pr_toLin pr !! g = Some lis ->
    (l, k) ∈ lis <-> exists lin, pr_lins pr !! l = Some lin /\ lin !! k = Some g;
  gp_illegal g ill l : pr_illegal pr !! g = Some ill -> l ∈ ill ->
    exists lin, pr_lins pr !! l = Some lin /\ forall f, f ∈ lin -> starts_before_end f g;
}.

Lemma lin_gids p d idx lin :
  part_shows p d -> indices lin = Z.of_nat <$> idx -> Forall (fun i => i < length (pd_History d)) idx ->
  exists gids, mapM (fun i => el_Gid <$> js_at (pt_History p) i) (indices lin) = Some gids /\
    Forall2 (fun i g => exists el, pt_History p !! i = Some el /\ g = el_Gid el) idx gids.
Proof.
  intros Hp -> Hall. induction Hall as [|i idx Hi Hall (gids & Hg & Hf)]; [by exists []|].
  destruct (lookup_lt_is_Some_2 (pt_History p) i) as [el Hel]; [by rewrite (ps_length _ _ Hp)|].
  assert (Hjs : js_at (pt_History p) (Z.of_nat i) = Some el) by (unfold js_at; by rewrite decide_True, Nat2Z.id by lia).
  rewrite fmap_cons. cbn [mapM]. rewrite Hjs. simpl. rewrite Hg. simpl.
  eexists. split; [done|]. constructor; [by exists el|done].
Qed.

(** The events of indices that are in order are. *)
Lemma ordered_events p d idx i j el el' p1 p2 :
  part_shows p d -> ordered_lin (pd_History d) idx -> idx = p1 ++ i :: p2 -> j ∉ p1 ->
  pt_History p !! i = Some el -> pt_History p !! j = Some el' -> starts_before_end (el_Gid el) (el_Gid el').
Proof.
  intros Hp (_ & _ & _ & Hord) E Hj Hi Hj' ef eg Hf Hg.
  destruct (ps_el _ _ Hp i el Hi) as (Hel & he & Hhe & _ & Hs & _ & _).
  destruct (ps_el _ _ Hp j el' Hj') as (Hel' & he' & Hhe' & _ & _ & Ho & _).
  rewrite Hel in Hf. injection Hf as <-. rewrite Hel' in Hg. injection Hg as <-.
  eapply els_after; [done|done|]. pose proof (Hord p1 i p2 j he he' E Hj Hhe Hhe'). lia.
Qed.

Lemma lin_good p d idx gids :
  part_shows p d -> ordered_lin (pd_History d) idx ->
  Forall2 (fun i g => exists el, pt_History p !! i = Some el /\ g = el_Gid el) idx gids -> good_lin gids.
Proof.
  intros Hp Ho Hf. assert (Ho' := Ho). destruct Ho' as (Hne & Hnd & _ & _). split.
  - rewrite <- (Forall2_length _ _ _ Hf). destruct idx; [done|simpl; lia].
  - apply Forall_forall. intros g Hg. apply list_elem_of_lookup in Hg as [k Hk].
    destruct (Forall2_lookup_r _ _ _ _ _ Hf Hk) as (i & _ & el & Hel & ->).
    destruct (ps_el _ _ Hp i el Hel) as [He _]. by eapply lookup_lt_Some.
  - intros k pos f g Hle Hk Hpos. destruct (Forall2_lookup_r _ _ _ _ _ Hf Hk) as (i & Hi & el & Hel & ->).
    destruct (Forall2_lookup_r _ _ _ _ _ Hf Hpos) as (j & Hj & el' & Hel' & ->).
    eapply (ordered_events p d idx i j el el' (take k idx)); [done|done|symmetry; by apply take_drop_middle| |done|done].
    intros (m & Hm)%list_elem_of_lookup. assert (Hlt := lookup_lt_Some _ _ _ Hm). rewrite length_take in Hlt.
    rewrite lookup_take_lt in Hm by lia. pose proof (NoDup_lookup _ _ _ _ Hnd Hm Hj). lia.
Qed.

(** Adding a linearization keeps what was there. *)
Lemma lookup_snoc_iff {A} (l : list A) x i y : (l ++ [x]) !! i = Some y <-> l !! i = Some y \/ (i = length l /\ y = x).
Proof.
  rewrite lookup_app. destruct (l !! i) as [z|] eqn:Hi.
  - split; [by left|]. intros [?|[-> _]]; [done|]. by rewrite lookup_ge_None_2 in Hi.
  - apply lookup_ge_None in Hi. rewrite list_lookup_singleton_Some. split; [intros [? <-]; right; split; [lia|done]|].
    intros [?|[-> ->]]; [done|split; [lia|done]].
Qed.

(** The linearization [lin] of the history [h] is in the tables. *)
Definition recorded (pr : Prep) (h : list El) (lin : list linearizationStep) : Prop :=
  exists l gids, pr_lins pr !! l = Some gids /\ mapM (fun i => el_Gid <$> js_at h i) (indices lin) = Some gids /\
    forall j el, (j, el) ∈ illegal_next h lin -> exists ill, pr_illegal pr !! el_Gid el = Some ill /\ l ∈ ill.

Definition grows (pr pr' : Prep) : Prop :=
  (forall l lin, pr_lins pr !! l = Some lin -> pr_lins pr' !! l = Some lin) /\
  forall g ill l, pr_illegal pr !! g = Some ill -> l ∈ ill -> exists ill', pr_illegal pr' !! g = Some ill' /\ l ∈ ill'.

Lemma grows_refl pr : grows pr pr.
Proof. split; eauto. Qed.

Lemma grows_trans pr1 pr2 pr3 : grows pr1 pr2 -> grows pr2 pr3 -> grows pr1 pr3.
Proof. intros [A1 B1] [A2 B2]. split; [eauto|]. intros g ill l Hg Hl. destruct (B1 g ill l Hg Hl) as (? & ? & ?). eauto. Qed.

Lemma recorded_grows pr pr' h lin : grows pr pr' -> recorded pr h lin -> recorded pr' h lin.
Proof.
  intros [A B] (l & gids & Hl & Hg & Hi). exists l, gids. split_and!; [auto|done|]. intros j el Hj.
  destruct (Hi j el Hj) as (ill & Hill & Hin). eauto.
Qed.

Lemma prep_lin_good p d pr lin :
  part_shows p d -> (exists idx, indices lin = Z.of_nat <$> idx /\ ordered_lin (pd_History d) idx) -> good_prep pr ->
  exists pr', prep_lin (pt_History p) pr lin = Some pr' /\ good_prep pr' /\ grows pr pr' /\ recorded pr' (pt_History p) lin.
Proof.
  intros Hp (idx & Hidx & Ho) [[Hl1 Hl2] Hlins Hto Hill]. assert (Ho' := Ho). destruct Ho' as (_ & _ & Hr & _).
  destruct (lin_gids p d idx lin Hp Hidx Hr) as (gids & Hg & Hf). pose proof (lin_good p d idx gids Hp Ho Hf) as Hgood.
  unfold prep_lin. rewrite Hg. cbn [mbind option_bind]. set (lgid := length (pr_lins pr)).
  destruct (push_all_spec (imap (fun position gid => (gid, (lgid, position))) gids) (pr_toLin pr)) as (toLin & Ht & Hlt & Hel).
  { apply Forall_forall. intros [g x] Hin. apply elem_of_lookup_imap in Hin as (k & g' & [= -> _] & Hk).
    simpl. rewrite Hl1. by apply (Forall_lookup_1 _ _ _ _ (gl_range _ Hgood) Hk). }
  destruct (push_all_spec ((fun '(_, el) => (el_Gid el, lgid)) <$> illegal_next (pt_History p) lin) (pr_illegal pr))
    as (illegal & Hi & Hli & Heli).
  { apply Forall_fmap, Forall_forall. intros [i el] [_ Hin]%list_elem_of_filter.
    apply elem_of_lookup_imap in Hin as (k & el' & [= -> ->] & Hk). simpl. rewrite Hl2.
    destruct (ps_el _ _ Hp k el' Hk) as [He _]. by eapply lookup_lt_Some. }
  rewrite Ht. cbn [mbind option_bind]. rewrite Hi. cbn [mbind option_bind]. eexists. split; [done|].
  split; [|split].
  2: { split; simpl; [intros l0 lin0 H0; rewrite lookup_snoc_iff; by left|]. intros g ill l Hg' Hin.
    destruct (Heli g ill Hg') as (r' & Hr' & Hx). exists r'. rewrite Hx. auto. }
  2: { exists lgid, gids. simpl. split_and!; [rewrite lookup_snoc_iff; by right|done|]. intros j el Hj.
    assert (Hk := Hj). apply list_elem_of_filter in Hk as [_ Hk]. apply elem_of_lookup_imap in Hk as (? & ? & [= <- <-] & Hk).
    destruct (ps_el _ _ Hp j el Hk) as [He _]. apply lookup_lt_Some in He.
    destruct (lookup_lt_is_Some_2 (pr_illegal pr) (el_Gid el)) as [r Hr']; [lia|].
    destruct (Heli _ r Hr') as (r' & Hr2 & Hx). exists r'. split; [done|]. rewrite Hx. right.
    apply list_elem_of_fmap. by exists (j, el). }
  split; simpl; [split; congruence|apply Forall_app; split; [done|by apply Forall_singleton]|..].
  - intros g lis l k Hg'. destruct (lookup_lt_is_Some_2 (pr_toLin pr) g) as [r Hr'].
    { rewrite <- Hlt. by eapply lookup_lt_Some. }
    destruct (Hel g r Hr') as (r' & Hr2 & Hx). rewrite Hg' in Hr2. injection Hr2 as <-. rewrite Hx, (Hto g r l k Hr').
    rewrite elem_of_lookup_imap. setoid_rewrite lookup_snoc_iff. split.
    + intros [(lin0 & Hl0 & Hk)|(k' & g' & [= -> -> ->] & Hk)]; [exists lin0; eauto|exists gids; eauto].
    + intros (lin0 & [Hl0|[-> ->]] & Hk); [left; eauto|right; by exists k, g].
  - intros g ill l Hg' Hin. destruct (lookup_lt_is_Some_2 (pr_illegal pr) g) as [r Hr'].
    { rewrite <- Hli. by eapply lookup_lt_Some. }
    destruct (Heli g r Hr') as (r' & Hr2 & Hx). rewrite Hg' in Hr2. injection Hr2 as <-. rewrite Hx in Hin. destruct Hin as [Hin|Hin].
    + destruct (Hill g r l Hr' Hin) as (lin0 & Hl0 & Hb). exists lin0. rewrite lookup_snoc_iff. eauto.
    + apply list_elem_of_fmap in Hin as ([j el] & [= -> ->] & [[Hinc _] Hin]%list_elem_of_filter).
      apply elem_of_lookup_imap in Hin as (? & ? & [= <- <-] & Hj). exists gids. rewrite lookup_snoc_iff. split; [by right|].
      intros f Hfin. apply list_elem_of_lookup in Hfin as [k Hk]. destruct (Forall2_lookup_r _ _ _ _ _ Hf Hk) as (i & Hik & el' & Hel' & ->).
      unfold is_included in Hinc. apply bool_decide_eq_false in Hinc. rewrite Hidx in Hinc.
      eapply (ordered_events p d idx i j el' el (take k idx)); [done|done|symmetry; by apply take_drop_middle| |done|done].
      intros (m & Hm & _)%elem_of_take. apply Hinc, list_elem_of_fmap_2. by eapply list_elem_of_lookup_2.
Qed.

Lemma prep_part_good p d pr :
  part_shows p d -> (forall lin, lin ∈ pd_PartialLinearizations d ->
    exists idx, indices lin = Z.of_nat <$> idx /\ ordered_lin (pd_History d) idx) -> good_prep pr ->
  exists pr', prep_part pr p = Some pr' /\ good_prep pr' /\ grows pr pr' /\
    forall lin, lin ∈ pt_Lins p -> recorded pr' (pt_History p) lin.
Proof.
  intros Hp Hlins Hpr. unfold prep_part. rewrite (ps_lins _ _ Hp).
  induction (pd_PartialLinearizations d) as [|lin lins IH] using rev_ind.
  { exists pr. split_and!; [done|done|apply grows_refl|set_solver]. }
  rewrite foldl_snoc. destruct IH as (pr1 & -> & Hpr1 & Hg1 & Hr1); [intros l Hl; apply Hlins; set_solver|].
  destruct (prep_lin_good p d pr1 lin) as (pr2 & Hl2 & Hpr2 & Hg2 & Hr2); [done|apply Hlins; set_solver|done|].
  exists pr2. split_and!; [done|done|by eapply grows_trans|]. intros l [Hl| ->%list_elem_of_singleton]%elem_of_app; [|done].
  eapply recorded_grows; [done|auto].
Qed.

Lemma prep_good : exists pr, prep (length els) fdata = Some pr /\ good_prep pr /\
  forall p lin, p ∈ fdata -> lin ∈ pt_Lins p -> recorded pr (pt_History p) lin.
Proof.
  assert (Hgen : forall ps ds pr, Forall2 part_shows ps ds -> (forall d, d ∈ ds -> d ∈ data) -> good_prep pr ->
    exists pr', foldl (fun acc p => pr ← acc; prep_part pr p) (Some pr) ps = Some pr' /\ good_prep pr' /\ grows pr pr' /\
      forall p lin, p ∈ ps -> lin ∈ pt_Lins p -> recorded pr' (pt_History p) lin).
  { intros ps ds pr Hf. revert pr. induction Hf as [|p d ps ds Hp Hf IH]; intros pr Hd Hpr.
    { exists pr. split_and!; [done|done|apply grows_refl|set_solver]. }
    cbn [foldl mbind option_bind]. destruct (prep_part_good p d pr Hp) as (pr1 & -> & Hpr1 & Hg1 & Hr1); [|done|].
    - intros lin. apply (dr_lins _ Hdata). apply Hd. by left.
    - destruct (IH pr1) as (pr2 & Hpr2 & Hgood2 & Hg2 & Hr2); [intros d' Hd'; apply Hd; by right|done|].
      exists pr2. split_and!; [done|done|by eapply grows_trans|].
      intros p' lin [->|Hp']%elem_of_cons Hlin; [|by apply Hr2]. eapply recorded_grows; [done|auto]. }
  destruct (Hgen fdata data (mkPrep (replicate (length els) []) (replicate (length els) []) [])) as (pr & Hp & Hg & _ & Hr);
    [apply fdata_shows|done| |by exists pr]. split; simpl.
  - by rewrite !length_replicate.
  - constructor.
  - intros g lis l k [-> _]%lookup_replicate. split; [set_solver|]. intros (lin & Hl & _). by rewrite lookup_nil in Hl.
  - intros g ill l [-> _]%lookup_replicate. set_solver.
Qed.

(** ** The least layout *)

Section least.
Variables (px : Z) (textWidth : string -> Z).
Hypothesis Hpx : (0 < px)%Z.
Variable pr : Prep.
Hypothesis Hpr : good_prep pr.
Let boxes := byEnd px textWidth els.

Lemma elem_of_boxes b : b ∈ boxes <-> exists el, els !! bx_gid b = Some el /\ b = box_of px textWidth el.
Proof.
  unfold boxes, byEnd. rewrite sort_by_perm, list_elem_of_fmap. split.
  - intros (el & -> & [i Hi]%list_elem_of_lookup). exists el. split; [|done]. simpl.
    destruct (els_lookup i el Hi) as [-> _]. done.
  - intros (el & Hel & ->). exists el. split; [done|]. by eapply list_elem_of_lookup_2.
Qed.

Lemma start_of_els l lin k f ef :
  pr_lins pr !! l = Some lin -> lin !! k = Some f -> els !! f = Some ef -> start_of els pr l k = el_Start ef.
Proof. intros Hl Hk Hf. unfold start_of. rewrite Hl; simpl. rewrite Hk; simpl. by rewrite Hf. Qed.

Lemma boxes_ordered b : b ∈ boxes -> ordered els pr TS b.
Proof.
  intros (el & Hel & ->)%elem_of_boxes. destruct Hpr as [[Hl1 Hl2] Hlins Hto Hill].
  destruct (els_in_TS _ _ Hel) as [Hs He]. rewrite Forall_forall in Hlins.
  assert (Hstart : forall l lin k, pr_lins pr !! l = Some lin -> k < length lin ->
    exists f ef, lin !! k = Some f /\ els !! f = Some ef /\ start_of els pr l k = el_Start ef /\ el_Start ef ∈ TS).
  { intros l lin k Hl Hk. destruct (lookup_lt_is_Some_2 lin k Hk) as [f Hf].
    assert (Hg := Hlins lin (list_elem_of_lookup_2 _ _ _ Hl)).
    destruct (lookup_lt_is_Some_2 els f) as [ef Hef]; [by apply (Forall_lookup_1 _ _ _ _ (gl_range _ Hg) Hf)|].
    exists f, ef. split_and!; [done|done|by eapply start_of_els|by eapply els_in_TS]. }
  simpl in Hel. split; simpl; [done|done|by eapply els_start_end|..].
  - split; apply lookup_lt_is_Some_2; [rewrite Hl1|rewrite Hl2]; by eapply lookup_lt_Some.
  - intros lis l k Hlis Hin. apply (Hto _ _ _ _ Hlis) in Hin as (lin & Hl & Hk). exists lin.
    assert (Hlt := lookup_lt_Some _ _ _ Hk). split_and!; [done..|]. intros i Hi.
    destruct (Hstart l lin i Hl ltac:(lia)) as (f & ef & Hf & Hef & -> & HTS). split; [done|].
    assert (Hg := Hlins lin (list_elem_of_lookup_2 _ _ _ Hl)). by eapply (gl_order _ Hg i k f).
  - intros ill l Hlis Hin. destruct (Hill _ _ _ Hlis Hin) as (lin & Hl & Hb). exists lin.
    assert (Hg := Hlins lin (list_elem_of_lookup_2 _ _ _ Hl)). split_and!; [done|apply Hg|]. intros i Hi.
    destruct (Hstart l lin i Hl Hi) as (f & ef & Hf & Hef & -> & HTS). split; [done|].
    eapply (Hb f); [by eapply list_elem_of_lookup_2|done|done].
Qed.

Lemma boxes_through l lin k :
  pr_lins pr !! l = Some lin -> k < length lin ->
  exists b lis, b ∈ boxes /\ pr_toLin pr !! bx_gid b = Some lis /\ (l, k) ∈ lis.
Proof.
  intros Hl Hk. destruct Hpr as [[Hl1 _] Hlins Hto _]. destruct (lookup_lt_is_Some_2 lin k Hk) as [g Hg].
  pose proof (Forall_lookup_1 _ _ _ _ Hlins Hl) as Hgood.
  pose proof (Forall_lookup_1 _ _ _ _ (gl_range _ Hgood) Hg) as Hlt. simpl in Hlt.
  destruct (lookup_lt_is_Some_2 els g Hlt) as [el Hel]. destruct (lookup_lt_is_Some_2 (pr_toLin pr) g) as [lis Hlis]; [lia|].
  assert (Hgid : el_Gid el = g) by (by apply els_lookup in Hel as [? _]).
  exists (box_of px textWidth el), lis. simpl. rewrite Hgid. split_and!; [|done|].
  - apply elem_of_boxes. exists el. simpl. by rewrite Hgid.
  - apply (Hto g lis); eauto.
Qed.

Lemma first_scanned t ts :
  sorted TS = t :: ts -> scanned px els pr boxes TS t {[t := Some 0%Z]} boxes (replicate (length (pr_lins pr)) []).
Proof.
  intros E. assert (Hin : forall t', t' ∈ TS -> (t <= t')%Z).
  { intros t' Ht'. apply elem_of_sorted in Ht'. pose proof (sorted_lt TS) as Hs. rewrite E in Hs, Ht'.
    apply StronglySorted_inv in Hs as [_ Hall]. rewrite Forall_forall in Hall.
    apply elem_of_cons in Ht' as [->|Ht']; [lia|]. specialize (Hall t' Ht'). simpl in Hall. lia. }
  assert (Hlater : forall b, b ∈ boxes -> (t < bx_end b)%Z).
  { intros b Hb. pose proof (boxes_ordered b Hb) as [Hs _ Hlt _ _ _]. specialize (Hin _ Hs). lia. }
  assert (Hval : xval {[t := Some 0%Z]} t = 0%Z) by (unfold xval, xpos_at; by rewrite lookup_singleton_eq).
  split.
  - intros t' Ht' Hle. assert (t' = t) as -> by (specialize (Hin t' Ht'); lia).
    unfold known. rewrite Hval. unfold xpos_at. by rewrite lookup_singleton_eq.
  - intros t' Hlt. apply lookup_singleton_ne. lia.
  - split; [by rewrite length_replicate|]. intros l lin pts Hl [-> _]%lookup_replicate.
    exists 0. split_and!; [lia|done|]. intros i Hi. lia.
  - apply byEnd_sorted.
  - intros b. split; [|tauto]. intros Hb. split; [done|by apply Hlater].
  - intros b Hb Hle. specialize (Hlater b Hb). lia.
  - intros t' Ht' Hle. assert (t' = t) as -> by (specialize (Hin t' Ht'); lia). by rewrite Hval.
  - intros t1 t2 H1 H2 Hlt Hle. specialize (Hin t1 H1). lia.
  - intros y M t' Hf Ht' Hle. assert (t' = t) as -> by (specialize (Hin t' Ht'); lia). rewrite Hval. by apply (ft_first _ _ _ _ _ _ _ Hf).
Qed.

Lemma scan_found t ts :
  sorted TS = t :: ts -> exists xs evs points T,
    scan px els pr t ts {[t := Some 0%Z]} boxes (replicate (length (pr_lins pr)) []) = Some (xs, points) /\
    scanned px els pr boxes TS T xs evs points /\ forall t', t' ∈ TS -> (t' <= T)%Z.
Proof.
  intros E. pose proof (sorted_lt TS) as Hsrt. rewrite E in Hsrt.
  assert (Hin : forall t', t' ∈ TS <-> t' ∈ t :: ts) by (intros t'; by rewrite <- E, elem_of_sorted).
  eapply scan_spec; [|done|by apply boxes_ordered|by eapply first_scanned|apply Hin; by left|done|..].
  - eapply Forall_impl; [apply (gp_lins _ Hpr)|]. intros lin Hg. apply Hg.
  - apply StronglySorted_inv in Hsrt as [_ Hall]. rewrite Forall_forall in Hall. intros t' Ht'.
    split; [|apply Hall]. intros Hlt. apply Hin, elem_of_cons in Ht' as [->|?]; [lia|done].
  - intros t' Ht'. apply Hin. by right.
Qed.
End least.

(** What [layout] finds: positions [x] of the times and [M] of the points of the
    linearizations that fit, below all others that do. *)
Record solved (px : Z) (textWidth : string -> Z) (ly : Layout) (x : Z -> Z) (M : nat -> nat -> Z) : Prop := {
  so_xPos t : t ∈ ly_times ly -> ly_xPos ly !! t = Some (Some (x t));
  so_points l lin : pr_lins (ly_prep ly) !! l = Some lin ->
    ly_points ly !! l = Some ((fun k => Some (M l k)) <$> seq 0 (length lin));
  so_point l lin k g el : pr_lins (ly_prep ly) !! l = Some lin -> lin !! k = Some g -> all_els (ly_data ly) !! g = Some el ->
    M l k = match k with 0 => x (el_Start el) | S k' => Z.max (x (el_Start el)) (M l k' + EPSILON px) end;
  so_fits : fits px (all_els (ly_data ly)) (ly_prep ly) (byEnd px textWidth (all_els (ly_data ly))) (list_to_set (ly_times ly)) x M;
  so_least y N : fits px (all_els (ly_data ly)) (ly_prep ly) (byEnd px textWidth (all_els (ly_data ly))) (list_to_set (ly_times ly)) y N ->
    (forall t, t ∈ ly_times ly -> (x t <= y t)%Z) /\
    forall l lin k, pr_lins (ly_prep ly) !! l = Some lin -> k < length lin -> (M l k <= N l k)%Z;
}.

Lemma list_to_set_sorted (s : gset Z) : list_to_set (sorted s) = s.
Proof. apply set_eq. intros t. by rewrite elem_of_list_to_set, elem_of_sorted. Qed.

(** The prep of a page without times is empty. *)
Lemma no_times pr : good_prep pr -> sorted TS = [] -> els = [] /\ pr_lins pr = [].
Proof.
  intros Hpr E. assert (Hels : els = []).
  { destruct els as [|el l] eqn:El; [done|]. destruct (els_in_TS 0 el) as [Hs _]; [by rewrite El|].
    apply elem_of_sorted in Hs. rewrite E in Hs. set_solver. }
  split; [done|]. destruct (pr_lins pr) as [|lin lins] eqn:El; [done|]. destruct Hpr as [_ Hl _ _].
  rewrite El in Hl. apply Forall_cons in Hl as [[Hpos Hr _] _]. rewrite Hels in Hr. destruct lin as [|g lin]; [simpl in Hpos; lia|].
  apply Forall_cons in Hr as [Hg _]. simpl in Hg. lia.
Qed.

Lemma layout_solved px textWidth :
  (0 < px)%Z -> exists ly x M, layout px textWidth (part_of <$> data) = Some ly /\
    ly_data ly = fdata /\ ly_times ly = sorted TS /\ good_prep (ly_prep ly) /\
    (forall p lin, p ∈ fdata -> lin ∈ pt_Lins p -> recorded (ly_prep ly) (pt_History p) lin) /\
    solved px textWidth ly x M.
Proof.
  intros Hpx. destruct prep_good as (pr & Hprep & Hpr & Hrec). unfold layout.
  change (all_els (number_parts 0 (part_of <$> data))) with els0.
  change (startTimestamps els0) with starts. change (sorted (allTimestamps els0)) with ts0.
  change (list_fmap _ _ _ (number_parts 0 (part_of <$> data))) with fdata.
  change (all_els (fmap _ (number_parts 0 (part_of <$> data)))) with els.
  change (prep (length els) (fmap _ (number_parts 0 (part_of <$> data)))) with (prep (length els) fdata).
  rewrite Hprep. cbn [mbind option_bind].
  change (sorted (allTimestamps els0 ∪ list_to_set (omap (tweaked starts (nextTs ts0)) els0))) with (sorted TS).
  destruct (sorted TS) as [|t ts] eqn:E.
  - destruct (no_times pr Hpr E) as [Hels Hlins]. eexists _, (fun _ => 0%Z), (fun _ _ => 0%Z). split_and!; [done|done|done|done|done|].
    change (all_els _) with els. assert (Hb : byEnd px textWidth els = []).
    { apply Permutation_nil_r. unfold byEnd. by rewrite sort_by_perm, Hels. }
    split; simpl; change (all_els fdata) with els; rewrite ?Hlins, ?Hb; try done.
    + set_solver.
    + assert (Hno : forall b, b ∈ byEnd px textWidth (all_els fdata) -> False).
      { intros b Hin. change (all_els fdata) with els in Hin. rewrite Hb in Hin. by apply not_elem_of_nil in Hin. }
      split; [set_solver|set_solver|intros b []%Hno|..|intros b l k lis []%Hno|intros b l k lin ill []%Hno];
        intros l lin k Hl; rewrite Hlins, lookup_nil in Hl; done.
    + intros y N _. split; [set_solver|]. intros l lin k Hl. by rewrite lookup_nil in Hl.
  - destruct (scan_found px textWidth Hpx pr Hpr t ts E) as (xs & evs & points & T & Hscan & Hs & HT).
    rewrite Hscan. cbn [mbind option_bind].
    destruct (scanned_fits px els pr (byEnd px textWidth els) TS) with (T := T) (xs := xs) (evs := evs) (points := points)
      as (Hfit & Hpts & Hleast); [by apply boxes_ordered|by apply boxes_through|done|done|].
    eexists _, (xval xs), (point px els pr (xval xs)). split_and!; [done|done|done|done|done|].
    rewrite <- E. split; simpl; change (all_els fdata) with els; rewrite ?list_to_set_sorted; [..|done|].
    + intros t' Ht'. apply elem_of_sorted in Ht'. pose proof (sc_known _ _ _ _ _ _ _ _ _ Hs t' Ht' (HT t' Ht')) as Hk.
      unfold known, xpos_at in Hk. destruct (xs !! t') as [[v|]|] eqn:Hx; simpl in *; [congruence|done|done].
    + intros l lin Hl. rewrite (Hpts l lin Hl). done.
    + intros l lin [|k] g el Hl Hk Hg; cbn [point]; rewrite (start_of_els pr l lin _ g el) by done; done.
    + intros y N Hf. destruct (Hleast y N Hf) as [H1 H2]. split; [|done]. intros t' Ht'. apply H1. by apply elem_of_sorted.
Qed.

(** ** The layout of the page *)

Lemma layout_prep px textWidth ly :
  layout px textWidth (part_of <$> data) = Some ly -> prep (length els) fdata = Some (ly_prep ly).
Proof.
  unfold layout. intros (pr & Hpr & Hly)%bind_Some. assert (ly_prep ly = pr) as ->; [|exact Hpr].
  destruct (sorted (_ ∪ _)) as [|t ts]; [by injection Hly as <-|]. by apply bind_Some in Hly as ([xs points] & _ & [= <-]).
Qed.

Lemma fdata_gid el : el ∈ all_els fdata -> all_els fdata !! el_Gid el = Some el.
Proof. intros [i Hi]%list_elem_of_lookup. by destruct (els_lookup i el Hi) as [-> _]. Qed.

Lemma fdata_times t : t ∈ TS <-> time_of fdata t.
Proof.
  unfold time_of. change (all_els fdata) with els. rewrite els_tweak. setoid_rewrite list_elem_of_fmap. split.
  - intros [(el & Ht & Hel)%elem_of_list_to_set%list_elem_of_bind|(el & Hel & Ht)%elem_of_list_to_set%list_elem_of_omap]%elem_of_union;
      exists (tweak starts (nextTs ts0) el); (split; [by eauto|]); simpl; [set_solver|]. rewrite Ht. auto.
  - intros (_ & (el & -> & Hel) & Ht). destruct (els0_times el Hel) as [Hs He]. simpl in Ht.
    destruct Ht as [->|[->| ->]]; [by apply elem_of_union_l|by apply elem_of_union_l|].
    destruct (tweaked starts (nextTs ts0) el) as [t|] eqn:E; simpl; [|by apply elem_of_union_l].
    apply elem_of_union_r, elem_of_list_to_set, list_elem_of_omap. eauto.
Qed.

Lemma size_list_to_set_le (l : list Z) : size (list_to_set l : gset Z) <= length l.
Proof.
  induction l as [|a l IH]; [cbn [list_to_set]; rewrite (size_empty (C := gset Z)); lia|]. cbn [list_to_set length]. rewrite size_union_alt, size_singleton.
  assert (size (list_to_set l ∖ {[a]} : gset Z) <= size (list_to_set l : gset Z)) by (apply subseteq_size; set_solver). lia.
Qed.

Lemma size_times : size TS <= 3 * length els.
Proof.
  assert (Hl : length (els0 ≫= fun el => [el_Start el; el_End el]) = 2 * length els0).
  { generalize els0 as l. induction l as [|el l IH]; [done|]. rewrite bind_cons, length_app, IH. simpl. lia. }
  pose proof (size_list_to_set_le (els0 ≫= fun el => [el_Start el; el_End el])) as H1.
  pose proof (size_list_to_set_le (omap (tweaked starts (nextTs ts0)) els0)) as H2.
  assert (H3 : length (omap (tweaked starts (nextTs ts0)) els0) <= length els0).
  { generalize els0 as l, (tweaked starts (nextTs ts0)) as f. intros l f. induction l as [|el l IH]; [done|].
    cbn [omap list_omap length]. destruct (f el); simpl; lia. }
  rewrite els_tweak, length_fmap. unfold TS. rewrite size_union_alt. change (list_to_set (els0 ≫= _)) with (allTimestamps els0) in H1.
  assert (size (list_to_set (omap (tweaked starts (nextTs ts0)) els0) ∖ allTimestamps els0)
    <= size (list_to_set (omap (tweaked starts (nextTs ts0)) els0) : gset Z)) by (apply subseteq_size; set_solver). lia.
Qed.

Lemma solved_laid_out px textWidth ly x M :
  (0 < px)%Z -> layout px textWidth (part_of <$> data) = Some ly -> ly_data ly = fdata -> ly_times ly = sorted TS ->
  good_prep (ly_prep ly) -> solved px textWidth ly x M -> laid_out px textWidth ly x M.
Proof.
  intros Hpx Hly Hd Ht Hpr Hsol. pose proof (prep_tables _ _ _ (layout_prep px textWidth ly Hly)) as Htb.
  pose proof (gp_to _ Hpr) as Hto. pose proof (gp_lengths _ Hpr) as Hlen.
  pose proof (so_fits _ _ _ _ _ Hsol) as Hfit. pose proof (so_least _ _ _ _ _ Hsol) as Hleast.
  rewrite Hd, Ht, list_to_set_sorted in Hfit. rewrite Hd, Ht, list_to_set_sorted in Hleast.
  assert (Hin : forall t, t ∈ sorted TS <-> time_of fdata t) by (intros t; rewrite elem_of_sorted; apply fdata_times).
  split; rewrite ?Hd.
  - intros t Htm. unfold xpos_at. by rewrite (so_xPos _ _ _ _ _ Hsol) by (by rewrite Ht, Hin).
  - intros g h lin Hg. destruct (table_lin fdata (ly_prep ly) Htb g h lin Hg) as (gids & Hgids & <- & _).
    by apply (so_points _ _ _ _ _ Hsol).
  - by apply (fits_page_fits px textWidth fdata (ly_prep ly) TS fdata_gid Htb Hto Hlen fdata_times).
  - intros y N Hf. apply (page_fits_fits px textWidth fdata (ly_prep ly) TS fdata_gid Htb Hto Hlen fdata_times) in Hf.
    destruct (Hleast y N Hf) as [H1 H2]. split; [intros t Htm; apply H1; by apply Hin|]. intros g h lin k Hg Hk.
    destruct (table_lin fdata (ly_prep ly) Htb g h lin Hg) as (gids & Hgids & Hl & _). apply (H2 g gids k Hgids). lia.
  - intros K Hgap Hbox Hlin t Htm. assert (Hw : wide px (ly_prep ly) (byEnd px textWidth els) K).
    { split; [done| |]; [intros b (el & Hel & ->)%elem_of_byEnd; by apply Hbox|]. intros g gids Hgids.
      destruct (table_lin_inv fdata (ly_prep ly) Htb g gids Hgids) as (h & lin & Hg).
      destruct (table_lin fdata (ly_prep ly) Htb g h lin Hg) as (gids' & Hgids' & Hl & _). rewrite Hgids in Hgids'. injection Hgids' as <-.
      rewrite Hl. by apply (Hlin g h). }
    pose proof (columns_fit px els (ly_prep ly) (byEnd px textWidth els) TS Hpx (boxes_ordered px textWidth (ly_prep ly) Hpr) K Hw) as Hc.
    destruct (Hleast _ _ Hc) as [H1 _]. specialize (H1 t (proj2 (Hin t) Htm)). apply fdata_times in Htm.
    pose proof (rank_bound TS t Htm). pose proof size_times. change (all_els fdata) with els. unfold BOX_GAP in Hgap. nia.
Qed.

(** The times of the layout are within those of the data. *)
Lemma fdata_range lo hi t :
  (forall d he, d ∈ data -> he ∈ pd_History d -> (lo <= he_Start he /\ he_End he <= hi)%Z) ->
  time_of fdata t -> (2 * lo <= t <= 2 * hi)%Z.
Proof.
  intros Hr. assert (H0 : forall t, t ∈ allTimestamps els0 -> (2 * lo <= t <= 2 * hi)%Z).
  { intros t' Ht'. unfold allTimestamps in Ht'. rewrite elem_of_list_to_set, list_elem_of_bind in Ht'.
    destruct Ht' as (el & Ht' & [i Hi]%list_elem_of_lookup). destruct (els0_lookup i el Hi) as (d & he & Hd & Hhe & ->).
    pose proof (Hr d he Hd Hhe). pose proof (dr_times _ Hdata d he Hd Hhe). simpl in Ht'. set_unfold. lia. }
  intros [Ht|Ht]%fdata_times%elem_of_union; [by apply H0|].
  apply elem_of_list_to_set, list_elem_of_omap in Ht as (el & Hel & Ht). unfold tweaked in Ht. case_decide; [|done].
  apply fmap_Some in Ht as (t' & Hn & ->). apply nextTs_sound in Hn as [Hlt Ht'%elem_of_sorted]; [|apply sorted_lt].
  pose proof (H0 _ Ht'). pose proof (H0 _ (proj2 (els0_times el Hel))). split; [apply Z.div_le_lower_bound|apply Z.div_le_upper_bound]; lia.
Qed.

(** ** Element by element *)

(** The points [X] of a linearization of the history [h]: where they are, and that they
    are in the boxes of their operations. *)
Record lin_fits (px : Z) (x : Z -> Z) (h : list El) (lin : list linearizationStep) (X : nat -> Z) : Prop := {
  lf_point k id : lin !! k = Some id -> exists el, js_at h (ls_Index id) = Some el /\
    X k = match k with 0 => x (el_Start el) | S k' => Z.max (x (el_Start el)) (X k' + EPSILON px) end /\
    (x (el_Start el) <= X k <= x (el_End el))%Z;
  lf_step k : S k < length lin -> (X k + EPSILON px <= X (S k))%Z;
  lf_next j el k : (j, el) ∈ illegal_next h lin -> length lin = S k -> (X k + EPSILON px <= x (el_End el))%Z;
}.

(** The boxes and the linearizations of a partition. *)
Record part_fits (px : Z) (textWidth : string -> Z) (ly : Layout) (x : Z -> Z) (p : Part) : Prop := {
  pf_el i el : pt_History p !! i = Some el ->
    xpos_at (ly_xPos ly) (el_Start el) = Some (x (el_Start el)) /\ xpos_at (ly_xPos ly) (el_End el) = Some (x (el_End el)) /\
    (0 <= x (el_Start el))%Z /\ (x (el_Start el) + BOX_GAP px <= x (el_End el))%Z /\ (x (el_Start el) + textWidth (el_Description el) + 2 * BOX_TEXT_PADDING px <= x (el_End el))%Z /\
    exists t, last (ly_times ly) = Some t /\ xpos_at (ly_xPos ly) t = Some (x t) /\ (x (el_End el) <= x t)%Z;
  pf_lin lin : lin ∈ pt_Lins p -> exists X, lin_fits px x (pt_History p) lin X;
}.

Lemma solved_part px textWidth ly x M p d :
  (0 < px)%Z -> ly_data ly = fdata -> ly_times ly = sorted TS -> good_prep (ly_prep ly) ->
  (forall lin, lin ∈ pt_Lins p -> recorded (ly_prep ly) (pt_History p) lin) ->
  solved px textWidth ly x M -> part_shows p d -> part_fits px textWidth ly x p.
Proof.
  intros Hpx Hd Ht Hpr Hrec [Hx _ Hpt Hfit _] Hp. rewrite Hd in Hpt, Hfit. change (all_els fdata) with els in Hpt, Hfit.
  rewrite Ht, list_to_set_sorted in Hfit. rewrite Ht in Hx.
  assert (Hkn : forall t, t ∈ TS -> xpos_at (ly_xPos ly) t = Some (x t)).
  { intros t Hin. unfold xpos_at. rewrite Hx by (by apply elem_of_sorted). done. }
  assert (Hbox : forall el, els !! el_Gid el = Some el -> box_of px textWidth el ∈ byEnd px textWidth els).
  { intros el Hel. apply elem_of_boxes. by exists el. }
  split.
  - intros i el Hi. destruct (ps_el _ _ Hp i el Hi) as [Hel _]. destruct (els_in_TS _ _ Hel) as [Hs He].
    split_and!; [by apply Hkn|by apply Hkn|by apply (ft_first _ _ _ _ _ _ _ Hfit)| | |].
    + apply (ft_apart _ _ _ _ _ _ _ Hfit _ _ Hs He). by eapply els_start_end.
    + pose proof (ft_text _ _ _ _ _ _ _ Hfit _ (Hbox el Hel)) as Htx. simpl in Htx. lia.
    + rewrite Ht. destruct (sorted_last TS (el_End el) He) as (t & Hl & HtT & Hle). exists t. split_and!; [done|by apply Hkn|].
      destruct (decide (el_End el = t)) as [->|Hne]; [lia|]. assert (Hlt : (el_End el < t)%Z) by lia.
      pose proof (ft_apart _ _ _ _ _ _ _ Hfit _ _ He HtT Hlt). unfold BOX_GAP in *. lia.
  - intros lin Hlin. destruct (Hrec lin Hlin) as (l & gids & Hl & Hg & Hill). exists (M l).
    apply mapM_Some in Hg. assert (Hlen : length gids = length lin).
    { rewrite <- (Forall2_length _ _ _ Hg). unfold indices. by rewrite length_fmap. }
    split.
    + intros k id Hk. assert (Hi : indices lin !! k = Some (ls_Index id)) by (unfold indices; by rewrite list_lookup_fmap, Hk).
      destruct (Forall2_lookup_l _ _ _ _ _ Hg Hi) as (g & Hgk & (el & Hel & ->)%fmap_Some). exists el. split; [done|].
      assert (He : els !! el_Gid el = Some el).
      { unfold js_at in Hel. case_decide; [|done]. by apply (ps_el _ _ Hp) in Hel as [? _]. }
      split; [by eapply Hpt|]. assert (Hlt := lookup_lt_Some _ _ _ Hgk). split.
      * rewrite <- (start_of_els (ly_prep ly) l gids k (el_Gid el) el) by done. by eapply (ft_start _ _ _ _ _ _ _ Hfit).
      * destruct Hpr as [[Hl1 _] _ Hto _]. destruct (lookup_lt_is_Some_2 (pr_toLin (ly_prep ly)) (el_Gid el)) as [lis Hlis];
          [rewrite Hl1; by eapply lookup_lt_Some|].
        apply (ft_end _ _ _ _ _ _ _ Hfit (box_of px textWidth el) l k lis (Hbox el He) Hlis). apply (Hto _ lis l k Hlis). eauto.
    + intros k Hk. eapply (ft_step _ _ _ _ _ _ _ Hfit); [done|lia].
    + intros j el k Hj Hk. destruct (Hill j el Hj) as (ill & Hi & Hin). apply list_elem_of_filter in Hj as [_ Hj].
      apply elem_of_lookup_imap in Hj as (? & ? & [= <- <-] & Hj). destruct (ps_el _ _ Hp j el Hj) as [He _].
      apply (ft_next _ _ _ _ _ _ _ Hfit (box_of px textWidth el) l k gids ill (Hbox el He) Hi Hin Hl). lia.
Qed.

(** ** Without asking anything of the data *)

Lemma layout_parts px textWidth ly :
  layout px textWidth (part_of <$> data) = Some ly -> Forall2 part_shows (ly_data ly) data.
Proof.
  unfold layout. intros (pr & _ & Hly)%bind_Some. assert (ly_data ly = fdata) as ->; [|apply fdata_shows].
  destruct (sorted (_ ∪ _)) as [|t ts]; [by injection Hly as <-|]. by apply bind_Some in Hly as ([xs points] & _ & [= <-]).
Qed.

(** *** An operation at the last time *)

Lemma elem_of_times t : t ∈ allTimestamps els0 <-> exists el, el ∈ els0 /\ (t = el_Start el \/ t = el_End el).
Proof.
  clear Hdata. unfold allTimestamps. rewrite elem_of_list_to_set, list_elem_of_bind. set_solver.
Qed.

Section last.
Variables (px : Z) (textWidth : string -> Z) (d : partitionVisualizationData) (he : historyElement).
Hypothesis Hd : d ∈ data.
Hypothesis Hhe : he ∈ pd_History d.
Hypothesis Heq : he_End he = he_Start he.
Hypothesis Hmax : forall d' he', d' ∈ data -> he' ∈ pd_History d' -> (he_Start he' <= he_End he' <= he_Start he)%Z.

Let T := (2 * he_Start he)%Z.

Lemma els0_before_last el : el ∈ els0 -> (el_Start el <= el_End el <= T)%Z.
Proof.
  intros [i Hi]%list_elem_of_lookup. destruct (els0_lookup i el Hi) as (d' & he' & Hd' & Hhe' & ->).
  specialize (Hmax d' he' Hd' Hhe'). unfold T. simpl. lia.
Qed.

Lemma tweaked_before_last el t : el ∈ els0 -> tweaked starts (nextTs ts0) el = Some t -> (t <= T)%Z /\ el_End el <> T.
Proof.
  intros Hel. unfold tweaked. case_decide; [|done]. intros (t' & Hn & ->)%fmap_Some.
  apply nextTs_sound in Hn as [Hl Hin]; [|apply sorted_lt]. apply elem_of_sorted, elem_of_times in Hin as (el' & Hel' & Ht').
  pose proof (els0_before_last el' Hel'). pose proof (els0_before_last el Hel). split; [apply Z.div_le_upper_bound; lia|lia].
Qed.

Lemma els_before_last el : el ∈ els -> (el_End el <= T)%Z.
Proof.
  rewrite els_tweak. intros (el0 & -> & Hel0)%list_elem_of_fmap. simpl.
  destruct (tweaked _ _ el0) as [t|] eqn:Et; simpl; [by apply (tweaked_before_last el0)|by apply els0_before_last].
Qed.

Lemma times_before_last t : t ∈ TS -> (t <= T)%Z.
Proof.
  intros [(el & Hel & Ht)%elem_of_times|Ht]%elem_of_union; [pose proof (els0_before_last el Hel); lia|].
  apply elem_of_list_to_set, list_elem_of_omap in Ht as (el & Hel & Ht). by apply (tweaked_before_last el).
Qed.

Lemma start_in_times d' he' : d' ∈ data -> he' ∈ pd_History d' -> (2 * he_Start he')%Z ∈ sorted TS.
Proof.
  intros Hd' Hhe'. destruct (elem_of_els0 d' he' Hd' Hhe') as [k Hk]. apply elem_of_sorted, elem_of_union_l, elem_of_times.
  eexists. split; [by eapply list_elem_of_lookup_2|]. by left.
Qed.

(** The operation is not moved. *)
Lemma last_box : exists b, b ∈ byEnd px textWidth els /\ bx_start b = T /\ bx_end b = T.
Proof.
  destruct (elem_of_els0 d he Hd Hhe) as [i Hi]. assert (Hin : set_Gid i (el_of he) ∈ els0) by (by eapply list_elem_of_lookup_2).
  exists (box_of px textWidth (tweak starts (nextTs ts0) (set_Gid i (el_of he)))). split_and!; [|done|].
  - unfold byEnd. rewrite sort_by_perm. apply list_elem_of_fmap_2. rewrite els_tweak. by apply list_elem_of_fmap_2.
  - simpl. destruct (tweaked _ _ _) as [t|] eqn:Et; simpl; [|unfold T; lia].
    apply tweaked_before_last in Et as [_ Hne]; [|done]. simpl in Hne. unfold T in Hne. lia.
Qed.

(** Such an operation has no position, when there is an earlier time. *)
Lemma last_undefined ly d' he' :
  layout px textWidth (part_of <$> data) = Some ly -> d' ∈ data -> he' ∈ pd_History d' -> (he_Start he' < he_Start he)%Z ->
  xpos_at (ly_xPos ly) T = None.
Proof.
  intros Hly Hd' Hhe' Hlt. pose proof (start_in_times d he Hd Hhe) as HT. pose proof (start_in_times d' he' Hd' Hhe') as H1.
  destruct (sorted_last TS T) as (T' & Hlast & HT' & Hle); [by apply elem_of_sorted|].
  assert (T' = T) as -> by (pose proof (times_before_last T' HT'); lia). apply last_Some in Hlast as [ts Hts].
  pose proof (sorted_lt TS) as Hs. rewrite Hts in Hs, H1. destruct ts as [|t0 ts].
  { apply list_elem_of_singleton in H1. unfold T in H1. lia. }
  assert (Hbefore : forall t, t ∈ t0 :: ts -> (t < T)%Z).
  { intros t Ht. apply (StronglySorted_app_1_elem_of Z.lt (t0 :: ts) [T]); [done|done|by left]. }
  destruct last_box as (b & Hb & Hbs & Hbe). revert Hly. unfold layout. intros (pr & _ & Hly)%bind_Some. revert Hly.
  change (sorted (_ ∪ _)) with (sorted TS). rewrite Hts. cbn [app].
  intros ([xs points] & Hscan & [= <-])%bind_Some. simpl.
  eapply (scan_None px _ pr T ts); [..|exact Hb|exact Hbs|exact Hbe|exact Hscan].
  - apply Forall_forall. intros t Ht. apply Hbefore. by right.
  - apply lookup_singleton_ne. specialize (Hbefore t0 ltac:(by left)). lia.
  - intros b' Hb'. unfold byEnd in Hb'. rewrite sort_by_perm in Hb'. apply list_elem_of_fmap in Hb' as (el & -> & Hel). by apply els_before_last.
Qed.
End last.
End data.
End solve.
