(* ===== verification/VisDraw.v ===== *)
(** * The drawing: the second half of [render] of src/src/porcupine/visualization.go

    From the positions that the scan found the script draws a box for every operation, a
    line for every point of a linearization and between points, and the points that could
    come next but are not legal. The texts, the background and the targets of the mouse,
    which have the geometry of the boxes, are left out. Lengths are in the units of VisLayout; [None] is an
    exception of the script. *)

From S2P Require Import Prelude GoLib Porcupine Visualization VisLayout.

Record Rect := mkRect { rc_x : num; rc_y : Z; rc_width : num; rc_height : Z }.

Inductive LineClass := LinearizationLine | LinearizationPoint | InvalidLine | InvalidPoint.

Record Line := mkLine { ln_x1 : num; ln_y1 : Z; ln_x2 : num; ln_y2 : Z; ln_class : LineClass }.

(** An element of [errorPoints]: its position, the group it is drawn in, and the element
    that a jump selects. *)
Record ErrorPoint := mkErrorPoint { ep_x : num; ep_partition : nat; ep_lin : nat; ep_index : Z; ep_line : Line }.

Section draw.
Context `{!Sorter}.
Variable px : Z.

Definition PADDING : Z := (10 * px)%Z.
Definition BOX_HEIGHT : Z := (30 * px)%Z.
Definition BOX_SPACE : Z := (15 * px)%Z.
Definition XOFF : Z := (20 * px)%Z.
Definition LINE_BLEED : Z := (5 * px)%Z.

Section layer.
Variable xs : gmap Z num.

(** ** Boxes *)

Definition row (el : El) : Z := (PADDING + el_ClientId el * (BOX_HEIGHT + BOX_SPACE))%Z.

Definition draw_rect (el : El) : Rect :=
  let rx := xpos_at xs (el_Start el) in
  let width := r ← rx; (fun e => e - r)%Z <$> xpos_at xs (el_End el) in
  mkRect (nadd (nadd rx XOFF) PADDING) (row el) width BOX_HEIGHT.

(** ** Points *)

Definition hereX (el : El) : num := nadd (xpos_at xs (el_Start el)) (PADDING + XOFF)%Z.

(** [prevX], [prevY] and [prevEl], [None] when they are null *)
Definition Prev : Type := option (num * Z * El).

Definition point_x (prev : Prev) (el : El) : num :=
  match prev with
  | Some (prevX, _, _) => nmax (hereX el) (nadd prevX (EPSILON px))
  | None => hereX el
  end.

Definition point_y (el : El) : Z := (row el - LINE_BLEED)%Z.

(** The line from the previous point. *)
Definition link (cls : LineClass) (prev : num * Z * El) (x : num) (y : Z) (el : El) : Line :=
  let '(prevX, prevY, prevEl) := prev in
  mkLine prevX (if decide (el_ClientId el <= el_ClientId prevEl)%Z then prevY else (prevY + BOX_HEIGHT + 2 * LINE_BLEED)%Z)
    x (if decide (el_ClientId prevEl <= el_ClientId el)%Z then y else (y + BOX_HEIGHT + 2 * LINE_BLEED)%Z) cls.

Definition point_line (cls : LineClass) (x : num) (y : Z) : Line :=
  mkLine x y x (y + BOX_HEIGHT + 2 * LINE_BLEED)%Z cls.

(** The loop over the steps of a linearization: the lines, and the last point. *)
Fixpoint draw_steps (h : list El) (lin : list linearizationStep) (prev : Prev) : option (list Line * Prev) :=
  match lin with
  | [] => Some ([], prev)
  | id :: lin =>
      el ← js_at h (ls_Index id);
      let x := point_x prev el in
      let y := point_y el in
      let from := match prev with Some prev => [link LinearizationLine prev x y el] | None => [] end in
      '(lines, prev) ← draw_steps h lin (Some (x, y, el));
      Some (from ++ point_line LinearizationPoint x y :: lines, prev)
  end.

(** What is drawn and recorded for an element that could come next. *)
Definition draw_illegal (partitionIndex linIndex : nat) (lin : list linearizationStep) (prev : Prev) (el : El)
    : option (list Line * ErrorPoint) :=
  let x := point_x prev el in
  let y := point_y el in
  prev ← prev; last ← last lin;
  let point := point_line InvalidPoint x y in
  Some ([link InvalidLine prev x y el; point], mkErrorPoint x partitionIndex linIndex (ls_Index last) point).

(** [largestIllegal] and [largestIllegalLength] of a partition *)
Definition note_illegal (linIndex len : nat) (largest : gmap nat (nat * nat)) (index : nat) : gmap nat (nat * nat) :=
  match largest !! index with
  | Some (_, len') => if decide (len' < len) then <[index := (linIndex, len)]> largest else largest
  | None => <[index := (linIndex, len)]> largest
  end.

(** A group: the lines of a linearization and [illegalLast]. *)
Record Group := mkGroup { gr_lines : list Line; gr_illegal : list nat }.

Definition draw_lin (partitionIndex linIndex : nat) (h : list El) (lin : list linearizationStep)
    (largest : gmap nat (nat * nat)) : option (Group * list ErrorPoint * gmap nat (nat * nat)) :=
  '(lines, prev) ← draw_steps h lin None;
  let nexts := illegal_next h lin in
  drawn ← mapM (fun '(_, el) => draw_illegal partitionIndex linIndex lin prev el) nexts;
  Some (mkGroup (lines ++ (drawn ≫= fst)) nexts.*1, drawn.*2,
        foldl (note_illegal linIndex (length lin)) largest nexts.*1).

Fixpoint draw_lins (partitionIndex linIndex : nat) (h : list El) (lins : list (list linearizationStep))
    (largest : gmap nat (nat * nat)) : option (list Group * list ErrorPoint * gmap nat (nat * nat)) :=
  match lins with
  | [] => Some ([], [], largest)
  | lin :: lins =>
      '(g, errs, largest) ← draw_lin partitionIndex linIndex h lin largest;
      '(gs, errs', largest) ← draw_lins partitionIndex (S linIndex) h lins largest;
      Some (g :: gs, errs ++ errs', largest)
  end.

(** A partition: its boxes, groups, error points and [largestIllegal]. *)
Record Layer := mkLayer {
  ly_rects : list Rect; ly_groups : list Group; ly_errors : list ErrorPoint; ly_largestIllegal : gmap nat nat }.

Definition draw_part (partitionIndex : nat) (p : Part) : option Layer :=
  '(gs, errs, largest) ← draw_lins partitionIndex 0 (pt_History p) (pt_Lins p) ∅;
  Some (mkLayer (draw_rect <$> pt_History p) gs errs (fst <$> largest)).
End layer.

(** ** The page *)

Definition further_left (a b : ErrorPoint) : bool :=
  match ep_x a, ep_x b with Some x, Some y => (x <? y)%Z | _, _ => false end.

Record Drawing := mkDrawing {
  dw_width : num; dw_height : Z; dw_layers : list Layer; dw_errorPoints : list ErrorPoint }.

(** [xPos] of the last time; without times [xPos[undefined]] is the 0 that was stored
    there. *)
Definition last_pos (ly : Layout) : num :=
  match last (ly_times ly) with Some t => xpos_at (ly_xPos ly) t | None => Some 0%Z end.

Definition draw (ly : Layout) : option Drawing :=
  let n := nClient (ly_data ly) in
  layers ← mapM (fun '(i, p) => draw_part (ly_xPos ly) i p) (imap pair (ly_data ly));
  Some (mkDrawing (nadd (last_pos ly) (2 * PADDING + XOFF)%Z)
    (2 * PADDING + BOX_HEIGHT * n + BOX_SPACE * (n - 1))%Z layers
    (sort_by further_left (layers ≫= ly_errors))).
End draw.
