(* ===== verification/VisDrawFacts.v ===== *)
(** * What the drawing shows

    For data that can be drawn the script does not throw, every box is on the canvas and
    has room for its text, and every point of a linearization, also one that is not
    legal, is a line through the box of its operation. *)

From S2P Require Import Prelude GoLib Porcupine Longest Visualization VisLayout VisScan VisSpec VisSolve VisDraw.

(** A vertical line through a box, from above it to below it. *)
Definition crosses (px : Z) (r : Rect) (ln : Line) : Prop :=
  exists rx w x, rc_x r = Some rx /\ rc_width r = Some w /\ ln_x1 ln = Some x /\ ln_x2 ln = Some x /\
    (rx <= x <= rx + w)%Z /\ ln_y1 ln = (rc_y r - LINE_BLEED px)%Z /\ ln_y2 ln = (rc_y r + rc_height r + LINE_BLEED px)%Z.

Definition is_point (ln : Line) : Prop := ln_class ln = LinearizationPoint.

#[export] Instance LineClass_eq_dec : EqDecision LineClass.
Proof. solve_decision. Defined.

#[export] Instance is_point_dec ln : Decision (is_point ln) := decide (ln_class ln = LinearizationPoint).

Section facts.
Context `{!Sorter}.
Variables (px : Z) (textWidth : string -> Z) (ly : Layout) (x : Z -> Z) (p : Part).
Hypothesis Hpx : (0 < px)%Z.
Hypothesis Hfit : part_fits px textWidth ly x p.

Abbreviation xs := (ly_xPos ly).
Abbreviation h := (pt_History p).
Abbreviation OFF := (PADDING px + XOFF px)%Z.

Lemma js_at_lookup {A} (l : list A) i a : js_at l i = Some a -> exists j, i = Z.of_nat j /\ l !! j = Some a.
Proof. unfold js_at. case_decide as Hi; [|done]. intros Hl. exists (Z.to_nat i). split; [lia|done]. Qed.

Lemma hereX_el i el : h !! i = Some el -> hereX px xs el = Some (x (el_Start el) + OFF)%Z.
Proof. intros Hi. destruct (pf_el _ _ _ _ _ Hfit i el Hi) as [Hs _]. unfold hereX. by rewrite Hs. Qed.

(** A line at a position between the start and the end of an operation. *)
Lemma crosses_el i el X cls :
  h !! i = Some el -> (x (el_Start el) <= X <= x (el_End el))%Z ->
  crosses px (draw_rect px xs el) (point_line px cls (Some (X + OFF)%Z) (point_y px el)).
Proof.
  intros Hi HX. destruct (pf_el _ _ _ _ _ Hfit i el Hi) as (Hs & He & _). unfold crosses, draw_rect, point_line. simpl.
  rewrite Hs, He. simpl. eexists _, _, _. split_and!; [done..|lia|lia|unfold point_y; lia|unfold point_y; lia].
Qed.

(** ** Steps *)

Section lin.
Variables (lin : list linearizationStep) (X : nat -> Z).
Hypothesis Hlin : lin_fits px x h lin X.

(** The point before the [k]-th. *)
Definition prev_of (k : nat) (prev : Prev) : Prop :=
  match k with
  | 0 => prev = None
  | S k' => exists id el, lin !! k' = Some id /\ js_at h (ls_Index id) = Some el /\
      prev = Some (Some (X k' + OFF)%Z, point_y px el, el)
  end.

Lemma point_x_prev k prev id el :
  prev_of k prev -> lin !! k = Some id -> js_at h (ls_Index id) = Some el -> point_x px xs prev el = Some (X k + OFF)%Z.
Proof.
  intros Hprev Hk Hel. destruct (js_at_lookup _ _ _ Hel) as (j & _ & Hj). pose proof (hereX_el j el Hj) as Hh.
  destruct (lf_point _ _ _ _ _ Hlin k id Hk) as (el' & Hel' & HX & _). rewrite Hel in Hel'. injection Hel' as <-.
  destruct k as [|k]; simpl in Hprev.
  - subst prev. simpl. by rewrite Hh, HX.
  - destruct Hprev as (id' & el' & _ & _ & ->). unfold point_x. rewrite Hh. simpl. f_equal. rewrite HX. lia.
Qed.

Lemma draw_steps_spec suf k prev :
  drop k lin = suf -> prev_of k prev ->
  exists lines prev' els, draw_steps px xs h suf prev = Some (lines, prev') /\ prev_of (length lin) prev' /\
    Forall2 (fun id el => js_at h (ls_Index id) = Some el) suf els /\
    filter is_point lines = imap (fun i el => point_line px LinearizationPoint (Some (X (k + i) + OFF)%Z) (point_y px el)) els.
Proof.
  revert k prev. induction suf as [|id suf IH]; intros k prev E Hprev.
  - exists [], prev, []. split_and!; [done| |done|done]. destruct (decide (k = length lin)) as [->|Hne]; [done|].
    assert (Hge : length lin <= k) by (by apply drop_nil_inv in E || (apply (f_equal length) in E; rewrite length_drop in E; simpl in E; lia)).
    destruct k as [|k]; [lia|]. simpl in Hprev. destruct Hprev as (id & _ & Hk & _). apply lookup_lt_Some in Hk. lia.
  - assert (Hk : lin !! k = Some id) by (rewrite <- (Nat.add_0_r k), <- lookup_drop, E; done).
    assert (Hdrop : drop (S k) lin = suf) by (rewrite <- Nat.add_1_r, <- drop_drop, E; done).
    destruct (lf_point _ _ _ _ _ Hlin k id Hk) as (el & Hel & _ & _).
    cbn [draw_steps]. rewrite Hel. cbn [mbind option_bind]. rewrite (point_x_prev k prev id el Hprev Hk Hel).
    destruct (IH (S k) (Some (Some (X k + OFF)%Z, point_y px el, el)) Hdrop) as (lines & prev' & els & -> & Hp' & Hf & Hlines);
      [by exists id, el|]. cbn [mbind option_bind]. eexists _, prev', (el :: els). split_and!; [done|done|by constructor|].
    rewrite filter_app, filter_cons_True by done.
    assert (filter is_point (match prev with Some prev => [link px LinearizationLine prev (Some (X k + OFF)%Z) (point_y px el) el]
      | None => [] end) = []) as -> by (by destruct prev as [[[? ?] ?]|]).
    simpl. rewrite Hlines, Nat.add_0_r. f_equal. apply imap_ext. intros i el' _. simpl. by rewrite Nat.add_succ_r.
Qed.

(** What follows a linearization. *)
Lemma draw_illegal_spec pi li prev j el :
  prev_of (length lin) prev -> 0 < length lin -> (j, el) ∈ illegal_next h lin ->
  exists lines e, draw_illegal px xs pi li lin prev el = Some (lines, e) /\ Forall (fun ln => ~ is_point ln) lines /\
    ep_partition e = pi /\ ep_lin e = li /\ (exists id, last lin = Some id /\ ep_index e = ls_Index id) /\
    h !! j = Some el /\ crosses px (draw_rect px xs el) (ep_line e) /\ ep_x e = ln_x1 (ep_line e) /\
    exists e_x, ep_x e = Some e_x /\ (X (pred (length lin)) + OFF + EPSILON px <= e_x)%Z.
Proof.
  intros Hprev Hpos Hj. assert (Hj' := Hj). apply list_elem_of_filter in Hj' as [_ Hj'].
  apply elem_of_lookup_imap in Hj' as (? & ? & [= <- <-] & Hh). destruct (length lin) as [|k] eqn:Hlen; [lia|].
  pose proof (lf_next _ _ _ _ _ Hlin j el k Hj Hlen) as Hnext. simpl in Hprev. destruct Hprev as (id & el0 & Hk & Hel0 & ->).
  assert (Hlast : last lin = Some id) by (rewrite last_lookup, Hlen; done).
  unfold draw_illegal, point_x. rewrite (hereX_el j el Hh), Hlast. cbn [nmax nadd mbind option_bind fmap option_fmap option_map].
  eexists _, _. split_and!; [done|by repeat constructor|done|done|by exists id|done| |done|].
  - simpl. destruct (pf_el _ _ _ _ _ Hfit j el Hh) as (_ & _ & _ & Hw & _). unfold BOX_GAP in Hw.
    replace (Z.max (x (el_Start el) + OFF) (X k + OFF + EPSILON px)) with (Z.max (x (el_Start el)) (X k + EPSILON px) + OFF)%Z by lia.
    apply (crosses_el j); [done|]. split; [lia|]. apply Z.max_lub; [lia|done].
  - eexists. split; [done|]. simpl. lia.
Qed.
End lin.

(** What the error point [e] shows of the linearization [lin], whose last point is at
    [X], and the element [el] that could follow it. *)
Record error_shown (pi li : nat) (lin : list linearizationStep) (X : Z) (j : nat) (el : El) (e : ErrorPoint) : Prop := {
  es_partition : ep_partition e = pi;
  es_lin : ep_lin e = li;
  es_follows : may_follow h lin j el;
  es_index : exists id, last lin = Some id /\ ep_index e = ls_Index id;
  es_crosses : exists r, (draw_rect px xs <$> h) !! j = Some r /\ crosses px r (ep_line e);
  es_after : exists xe, ep_x e = Some xe /\ ln_x1 (ep_line e) = Some xe /\ (X + EPSILON px <= xe)%Z;
}.

Lemma draw_illegals_spec pi li lin X prev nexts :
  lin_fits px x h lin X -> prev_of lin X (length lin) prev -> 0 < length lin ->
  (forall y, y ∈ nexts -> y ∈ illegal_next h lin) ->
  exists drawn, mapM (fun '(_, el) => draw_illegal px xs pi li lin prev el) nexts = Some drawn /\
    filter is_point (drawn ≫= fst) = [] /\
    Forall2 (fun jel e => error_shown pi li lin (X (pred (length lin)) + OFF) jel.1 jel.2 e) nexts drawn.*2.
Proof.
  intros HX Hprev Hpos. induction nexts as [|[j el] l IH]; intros Hall; [by exists []|].
  assert (Hj : (j, el) ∈ illegal_next h lin) by (apply Hall; by left).
  destruct (draw_illegal_spec lin X HX pi li prev j el Hprev Hpos Hj) as
    (ls & e & Hd & Hnp & Hpi & Hli & Hid & Hh & Hc & Hx & xe & Hxe & Hle).
  destruct IH as (drawn & Hm & Hfil & Her); [intros y Hy; apply Hall; by right|].
  cbn [mapM]. rewrite Hd. cbn [mbind option_bind]. rewrite Hm. cbn [mbind option_bind]. eexists. split_and!; [done| |].
  - rewrite bind_cons, filter_app, Hfil, app_nil_r. by apply filter_Forall_nil.
  - constructor; [|done]. split; simpl; [done|done|by apply illegal_next_spec|done| |exists xe; split_and!; [done|congruence|done]].
    exists (draw_rect px xs el). by rewrite list_lookup_fmap, Hh.
Qed.

(** The points of one linearization. *)
Definition points_shown (lin : list linearizationStep) (g : Group) : Prop :=
  Forall2 (fun id ln => exists j r, ls_Index id = Z.of_nat j /\ (draw_rect px xs <$> h) !! j = Some r /\ crosses px r ln)
    lin (filter is_point (gr_lines g)) /\
  forall k a b, filter is_point (gr_lines g) !! k = Some a -> filter is_point (gr_lines g) !! S k = Some b ->
    exists xa xb, ln_x1 a = Some xa /\ ln_x1 b = Some xb /\ (xa + EPSILON px <= xb)%Z.

(** The position of the last point. *)
Definition last_point (g : Group) (X : Z) : Prop :=
  exists ln, last (filter is_point (gr_lines g)) = Some ln /\ ln_x1 ln = Some X.

Lemma draw_lin_spec pi li lin largest :
  lin ∈ pt_Lins p -> 0 < length lin ->
  exists g errs X, draw_lin px xs pi li h lin largest
      = Some (g, errs, foldl (note_illegal li (length lin)) largest (illegal_next h lin).*1) /\
    gr_illegal g = (illegal_next h lin).*1 /\ points_shown lin g /\ last_point g X /\
    Forall2 (fun jel e => error_shown pi li lin X jel.1 jel.2 e) (illegal_next h lin) errs.
Proof.
  intros Hin Hpos. destruct (pf_lin _ _ _ _ _ Hfit lin Hin) as [X HX].
  destruct (draw_steps_spec lin X HX lin 0 None) as (lines & prev & els & Hs & Hprev & Hf & Hlines); [done|done|].
  destruct (draw_illegals_spec pi li lin X prev (illegal_next h lin) HX Hprev Hpos) as (drawn & Hm & Hfil & Her); [done|].
  unfold draw_lin. rewrite Hs. cbn [mbind option_bind]. rewrite Hm. cbn [mbind option_bind].
  eexists _, _, _. split_and!; [done|done| | |exact Her]; unfold points_shown, last_point; simpl; rewrite filter_app, Hfil, app_nil_r, Hlines.
  2: { pose proof (Forall2_length _ _ _ Hf) as Hl. destruct (lookup_lt_is_Some_2 els (pred (length lin))) as [el Hel]; [lia|].
    rewrite last_lookup, length_imap, list_lookup_imap, <- Hl, Hel. by eexists. }
  split.
  - apply Forall2_same_length_lookup. split; [by rewrite length_imap, (Forall2_length _ _ _ Hf)|].
    intros k id ln Hk Hln. rewrite list_lookup_imap in Hln. apply fmap_Some in Hln as (el & Hel & ->).
    pose proof (Forall2_lookup_lr _ _ _ _ _ _ Hf Hk Hel) as Hjs. simpl in Hjs. destruct (js_at_lookup _ _ _ Hjs) as (j & Hj & Hh).
    exists j, (draw_rect px xs el). split_and!; [done|by rewrite list_lookup_fmap, Hh|].
    destruct (lf_point _ _ _ _ _ HX k id Hk) as (el' & Hel' & _ & Hb). rewrite Hjs in Hel'. injection Hel' as <-. by apply (crosses_el j).
  - intros k a b Ha Hb. rewrite list_lookup_imap in Ha, Hb. apply fmap_Some in Ha as (ea & Hea & ->). apply fmap_Some in Hb as (eb & Heb & ->).
    simpl. eexists _, _. split_and!; [done|done|]. apply lookup_lt_Some in Heb. rewrite <- (Forall2_length _ _ _ Hf) in Heb.
    pose proof (lf_step _ _ _ _ _ HX k Heb). lia.
Qed.

(** The elements that could follow a linearization, and its length. *)
Definition nexts_of (hist : list El) (lin : list linearizationStep) : list nat * nat := ((illegal_next hist lin).*1, length lin).

(** The error points of linearizations, numbered from [li] on: all of them show that an
    element could follow, and all such elements are shown. *)
Definition errors_shown (pi li : nat) (lins : list (list linearizationStep)) (gs : list Group) (errs : list ErrorPoint) : Prop :=
  (forall e, e ∈ errs -> exists i lin g X j el, lins !! i = Some lin /\ gs !! i = Some g /\ last_point g X /\
    error_shown pi (li + i) lin X j el e) /\
  forall i lin j el, lins !! i = Some lin -> may_follow h lin j el -> exists e g X, e ∈ errs /\ gs !! i = Some g /\ last_point g X /\
    error_shown pi (li + i) lin X j el e.

Lemma errors_shown_cons pi li lin lins g gs X errs errs' :
  last_point g X -> Forall2 (fun jel e => error_shown pi li lin X jel.1 jel.2 e) (illegal_next h lin) errs ->
  errors_shown pi (S li) lins gs errs' -> errors_shown pi li (lin :: lins) (g :: gs) (errs ++ errs').
Proof.
  intros HX Hf [H1 H2]. split.
  - intros e [He|He]%elem_of_app.
    + apply list_elem_of_lookup in He as [k Hk]. destruct (Forall2_lookup_r _ _ _ _ _ Hf Hk) as ([j el] & _ & Hes).
      exists 0, lin, g, X, j, el. by rewrite Nat.add_0_r.
    + destruct (H1 e He) as (i & lin' & g' & X' & j & el & Hi & Hg & HX' & Hes). exists (S i), lin', g', X', j, el.
      by rewrite Nat.add_succ_r.
  - intros [|i] lin' j el Hi Hm; simpl in Hi.
    + injection Hi as <-. apply illegal_next_spec, list_elem_of_lookup in Hm as [k Hk].
      destruct (Forall2_lookup_l _ _ _ _ _ Hf Hk) as (e & He & Hes). exists e, g, X. rewrite Nat.add_0_r.
      split_and!; [apply elem_of_app; left; by eapply list_elem_of_lookup_2|done..].
    + destruct (H2 i lin' j el Hi Hm) as (e & g' & X' & He & Hg & HX' & Hes). exists e, g', X'. rewrite Nat.add_succ_r.
      split_and!; [apply elem_of_app; by right|done..].
Qed.

Lemma draw_lins_spec pi lins seen largest :
  (forall lin, lin ∈ lins -> lin ∈ pt_Lins p /\ 0 < length lin) -> longest_of seen largest ->
  exists gs errs largest', draw_lins px xs pi (length seen) h lins largest = Some (gs, errs, largest') /\
    Forall2 (fun lin g => gr_illegal g = (illegal_next h lin).*1 /\ points_shown lin g) lins gs /\
    errors_shown pi (length seen) lins gs errs /\
    longest_of (seen ++ (nexts_of h <$> lins)) largest'.
Proof.
  revert seen largest. induction lins as [|lin lins IH]; intros seen largest Hall Hl; cbn [draw_lins].
  { eexists [], [], _. split_and!; [done|constructor| |by rewrite app_nil_r]. by split; [intros e He; apply not_elem_of_nil in He|]. }
  destruct (Hall lin ltac:(by left)) as [Hin Hpos].
  destruct (draw_lin_spec pi (length seen) lin largest Hin Hpos) as (g & errs & X & -> & Hg & Hps & HX & He). cbn [mbind option_bind].
  apply (longest_step seen (illegal_next h lin).*1 (length lin)) in Hl.
  destruct (IH (seen ++ [nexts_of h lin]) _ ltac:(intros l Hin'; apply Hall; by right) Hl) as (gs & errs' & largest' & Hd & Hgs & Her & Hl').
  rewrite length_app, Nat.add_1_r in Hd, Her. change (note (length seen) (length lin)) with (note_illegal (length seen) (length lin)) in Hd.
  rewrite Hd. cbn [mbind option_bind]. eexists _, _, _. split_and!; [done|by constructor| |by rewrite <- app_assoc in Hl'].
  by eapply errors_shown_cons.
Qed.

(** ** A partition *)

(** What the drawing [L] of the partition, on a canvas of width [W], shows. *)
Record layer_shows (pi : nat) (W : num) (L : Layer) : Prop := {
  ls_rect j el : h !! j = Some el -> exists r rx w W', ly_rects L !! j = Some r /\ rc_x r = Some rx /\ rc_width r = Some w /\
    rc_y r = row px el /\ rc_height r = BOX_HEIGHT px /\ (textWidth (el_Description el) + 2 * BOX_TEXT_PADDING px <= w)%Z /\
    (OFF <= rx)%Z /\ W = Some W' /\ (rx + w + PADDING px <= W')%Z;
  ls_rects : ly_rects L = draw_rect px xs <$> h;
  ls_groups : Forall2 (fun lin g => gr_illegal g = (illegal_next h lin).*1 /\ points_shown lin g) (pt_Lins p) (ly_groups L);
  ls_errors : errors_shown pi 0 (pt_Lins p) (ly_groups L) (ly_errors L);
  ls_largestIllegal j : match ly_largestIllegal L !! j with
    | Some l => best (nexts_of h <$> pt_Lins p) j l
    | None => forall lin, lin ∈ pt_Lins p -> j ∉ (illegal_next h lin).*1
    end;
}.

Lemma draw_part_spec pi :
  (forall lin, lin ∈ pt_Lins p -> 0 < length lin) ->
  exists L, draw_part px xs pi p = Some L /\ layer_shows pi (nadd (last_pos ly) (2 * PADDING px + XOFF px)%Z) L.
Proof.
  intros Hne. destruct (draw_lins_spec pi (pt_Lins p) [] ∅) as (gs & errs & largest & Hd & Hgs & He & Hlg); [auto|exact longest_empty|].
  unfold draw_part. cbn [length] in Hd. rewrite Hd. cbn [mbind option_bind]. eexists. split; [done|]. split; simpl; [|done|done|done|].
  - intros j el Hj. rewrite list_lookup_fmap, Hj. destruct (pf_el _ _ _ _ _ Hfit j el Hj) as (Hs & Hen & H0 & _ & Hw & t & Hl & Ht & Hle).
    unfold last_pos. rewrite Hl, Ht. unfold draw_rect; simpl. rewrite Hs, Hen. simpl.
    eexists _, _, _, _. split_and!; [done|done|done|done|done|lia|lia|done|lia].
  - intros j. rewrite lookup_fmap. specialize (Hlg j). destruct (largest !! j) as [[l len]|]; simpl; [by destruct Hlg|].
    intros lin Hlin. apply (Hlg _ (length lin)). by apply (list_elem_of_fmap_2 (nexts_of h)).
Qed.
End facts.
