(* ===== verification/VisPage.v ===== *)
(** * The page: how the drawing of src/src/porcupine/visualization.go reacts

    The script of the page keeps which box is selected, which layers and groups of lines
    are hidden, where the link to the first error leads and what the tooltip says.
    [page_step] is the handler of each event; [None] is an exception of the script. *)

From stdpp Require Import pretty.
From S2P Require Import Prelude GoLib Porcupine Visualization VisLayout VisDraw.

(** What [highlight] and [resetHighlight] change: the class [hidden] of the history
    layers and of the groups, and the link. [vw_jump] is the point of its [onclick]. *)
Record View := mkView {
  vw_layers : list bool; vw_groups : list (list bool); vw_jump : option ErrorPoint; vw_inactive : bool }.

(** The tooltip: [innerHTML], whether it is opaque, and [lastTooltip]. *)
Record Tip := mkTip { tp_html : string; tp_opaque : bool; tp_last : option (Z * Z * bool * Z * Z) }.

Record Page := mkPage {
  pg_selected : bool;
  pg_selectedIndex : Z * Z;
  pg_view : View;
  pg_rects : list (list bool);          (** the class [selected] of the boxes *)
  pg_scrolled : option ErrorPoint;      (** where the page was scrolled to last *)
  pg_tip : Tip;
}.

(** [l[i][j].classList.add] or [remove] *)
Definition set_class (l : list (list bool)) (i j : Z) (b : bool) : option (list (list bool)) :=
  row ← js_at l i; _ ← js_at row j;
  Some (<[Z.to_nat i := <[Z.to_nat j := b]> row]> l).

Section page.
Variable data : list Part.
Variable dw : Drawing.

(** ** What is shown *)

Definition linearizationIndex (partition index : Z) : option (option nat) :=
  p ← js_at data partition;
  match pt_Largest p !! index with
  | Some l => Some (Some l)
  | None =>
      layer ← js_at (dw_layers dw) partition;
      Some (if decide (0 <= index)%Z then ly_largestIllegal layer !! Z.to_nat index else None)
  end.

(** [!pt.element.parentElement.classList.contains('hidden')] *)
Definition point_visible (groups : list (list bool)) (pt : ErrorPoint) : bool :=
  bool_decide ((groups !! ep_partition pt ≫= fun row => row !! ep_lin pt) = Some false).

Definition updateJump (v : View) : View :=
  match find (point_visible (vw_groups v)) (dw_errorPoints dw) with
  | Some pt => mkView (vw_layers v) (vw_groups v) (Some pt) false
  | None => mkView (vw_layers v) (vw_groups v) (vw_jump v) true
  end.

Definition highlight (partition index : Z) (v : View) : option View :=
  let layers := imap (fun i _ => bool_decide (Z.of_nat i <> partition)) (vw_layers v) in
  let groups := (fun row : list bool => (fun _ => true) <$> row) <$> vw_groups v in
  maxIndex ← linearizationIndex partition index;
  groups ← match maxIndex with Some m => set_class groups partition (Z.of_nat m) false | None => Some groups end;
  Some (updateJump (mkView layers groups (vw_jump v) (vw_inactive v))).

Definition resetHighlight (v : View) : View :=
  let layers := (fun _ => false) <$> vw_layers v in
  let groups := imap (fun i _ => bool_decide (i <> 0)) <$> vw_groups v in
  updateJump (mkView layers groups (vw_jump v) (vw_inactive v)).

(** ** The tooltip *)

(** A time of the data, in decimal; [el] has times in halves. *)
Definition time_text (t : Z) : string := pretty (t / 2)%Z.

(** The loop that looks for an element: the step before it and its own. *)
Fixpoint find_step (index : Z) (prev : option linearizationStep) (lin : list linearizationStep)
    : option (option linearizationStep * linearizationStep) :=
  match lin with
  | [] => None
  | curr :: lin => if decide (ls_Index curr = index) then Some (prev, curr) else find_step index (Some curr) lin
  end.

Definition times_text (el : El) : string :=
  "<br><br>Call: " +:+ time_text (el_Start el) +:+ "<br><br>Return: " +:+ time_text (el_OriginalEnd el).

(** The message for an element when the linearization [maxIndex] is shown. *)
Definition step_text (partition index : Z) (maxIndex : nat) : option string :=
  p ← js_at data partition; lin ← pt_Lins p !! maxIndex; el ← js_at (pt_History p) index;
  match find_step index None lin with
  | Some (prev, curr) =>
      Some ((match prev with
             | Some prev => "<strong>Previous state:</strong><br>" +:+ ls_StateDescription prev +:+ "<br><br>"
             | None => "" end)
            +:+ "<strong>New state:</strong><br>" +:+ ls_StateDescription curr +:+ times_text el)
  | None =>
      layer ← js_at (dw_layers dw) partition; g ← ly_groups layer !! maxIndex;
      if decide (Z.to_nat index ∈ gr_illegal g) then
        final ← last lin;
        Some ("<strong>Previous state:</strong><br>" +:+ ls_StateDescription final
              +:+ "<br><br><strong>New state:</strong><br>&langle;invalid op&rangle;" +:+ times_text el)
      else Some "Not part of selected element's partial linearization."
  end.

(** The text that [handleMouseMove] writes for [thisTooltip]. *)
Definition tooltip_html (this : Z * Z * bool * Z * Z) : option string :=
  let '(partition, index, selected, sPartition, sIndex) := this in
  maxIndex ← (if (selected : bool) then linearizationIndex sPartition sIndex else linearizationIndex partition index);
  if selected && bool_decide (sPartition <> partition) then Some "Not part of selected partition."
  else match maxIndex with
  | None => Some (if selected then "Selected element is not part of any partial linearization."
                  else "Not part of any partial linearization.")
  | Some m => step_text partition index m
  end.

(** ** The handlers *)

Definition set_view (v : View) (pg : Page) : Page :=
  mkPage (pg_selected pg) (pg_selectedIndex pg) v (pg_rects pg) (pg_scrolled pg) (pg_tip pg).

Definition set_tip (t : Tip) (pg : Page) : Page :=
  mkPage (pg_selected pg) (pg_selectedIndex pg) (pg_view pg) (pg_rects pg) (pg_scrolled pg) t.

Definition set_rects (rects : list (list bool)) (pg : Page) : Page :=
  mkPage (pg_selected pg) (pg_selectedIndex pg) (pg_view pg) rects (pg_scrolled pg) (pg_tip pg).

Definition handleMouseOver (partition index : Z) (pg : Page) : option Page :=
  v ← (if pg_selected pg then Some (pg_view pg) else highlight partition index (pg_view pg));
  Some (set_tip (mkTip (tp_html (pg_tip pg)) true (tp_last (pg_tip pg))) (set_view v pg)).

Definition handleMouseMove (partition index : Z) (pg : Page) : option Page :=
  let '(sPartition, sIndex) := pg_selectedIndex pg in
  let thisTooltip := (partition, index, pg_selected pg, sPartition, sIndex) in
  if decide (tp_last (pg_tip pg) = Some thisTooltip) then Some pg
  else
    html ← tooltip_html thisTooltip;
    Some (set_tip (mkTip html (tp_opaque (pg_tip pg)) (Some thisTooltip)) pg).

Definition handleMouseOut (pg : Page) : Page :=
  let v := if pg_selected pg then pg_view pg else resetHighlight (pg_view pg) in
  set_tip (mkTip (tp_html (pg_tip pg)) false None) (set_view v pg).

Definition select (partition index : Z) (pg : Page) : option Page :=
  v ← highlight partition index (pg_view pg);
  rects ← set_class (pg_rects pg) partition index true;
  Some (mkPage true (partition, index) v rects (pg_scrolled pg) (pg_tip pg)).

Definition deselect (pg : Page) : option Page :=
  if pg_selected pg then
    let '(partition, index) := pg_selectedIndex pg in
    rects ← set_class (pg_rects pg) partition index false;
    Some (mkPage false (partition, index) (resetHighlight (pg_view pg)) rects (pg_scrolled pg) (pg_tip pg))
  else Some pg.

Definition handleClick (partition index : Z) (pg : Page) : option Page :=
  if pg_selected pg then
    if decide ((partition, index) = pg_selectedIndex pg) then deselect pg
    else
      rects ← set_class (pg_rects pg) (pg_selectedIndex pg).1 (pg_selectedIndex pg).2 false;
      select partition index (set_rects rects pg)
  else select partition index pg.

Definition handleBgClick (pg : Page) : option Page := deselect pg.

(** [jump.onclick]; the link is not displayed when it is inactive. *)
Definition handleJump (pg : Page) : option Page :=
  match vw_jump (pg_view pg), vw_inactive (pg_view pg) with
  | Some pt, false =>
      let pg := mkPage (pg_selected pg) (pg_selectedIndex pg) (pg_view pg) (pg_rects pg) (Some pt) (pg_tip pg) in
      if pg_selected pg then Some pg else select (Z.of_nat (ep_partition pt)) (ep_index pt) pg
  | _, _ => Some pg
  end.

(** ** Events *)

(** What the user does: at the box [index] of [partition], on the background, or on the
    link. *)
Inductive PageEvent :=
  | MouseOver (partition index : nat) | MouseMove (partition index : nat) | MouseOut (partition index : nat)
  | Click (partition index : nat) | BgClick | JumpClick.

Definition page_step (ev : PageEvent) (pg : Page) : option Page :=
  match ev with
  | MouseOver p i => handleMouseOver (Z.of_nat p) (Z.of_nat i) pg
  | MouseMove p i => handleMouseMove (Z.of_nat p) (Z.of_nat i) pg
  | MouseOut _ _ => Some (handleMouseOut pg)
  | Click p i => handleClick (Z.of_nat p) (Z.of_nat i) pg
  | BgClick => handleBgClick pg
  | JumpClick => handleJump pg
  end.

(** The page as [render] leaves it. *)
Definition drawn_page : Page :=
  mkPage false (-1, -1)%Z
    (mkView ((fun _ => false) <$> dw_layers dw) ((fun L => (fun _ => false) <$> ly_groups L) <$> dw_layers dw) None false)
    ((fun L => (fun _ => false) <$> ly_rects L) <$> dw_layers dw) None (mkTip "" false None).

Definition start_page : Page := handleMouseOut drawn_page.

Fixpoint page_run (evs : list PageEvent) (pg : Page) : option Page :=
  match evs with
  | [] => Some pg
  | ev :: evs => pg ← page_step ev pg; page_run evs pg
  end.
End page.
