(* ===== verification/VisPageFacts.v ===== *)
(** * What the page shows after any events

    [looks] says what the page shows when [sel] is selected and [focus] is highlighted;
    [reacts] is how events change these two. Every sequence of events leaves the page as
    the reactions say. *)

From S2P Require Import Prelude GoLib Porcupine Longest Visualization VisLayout VisScan VisSolve VisDraw VisDrawFacts.
From S2P Require Import VisPage.

(** ** Classes of the elements of a page *)

Lemma js_at_nat {A} (l : list A) i : js_at l (Z.of_nat i) = l !! i.
Proof. unfold js_at. rewrite decide_True by lia. by rewrite Nat2Z.id. Qed.

Section grid.
Context {A B : Type} (cells : A -> list B).
Implicit Types (f : nat -> nat -> bool) (l : list A).

Definition grid f l : list (list bool) := imap (fun i a => imap (fun j _ => f i j) (cells a)) l.

Lemma grid_row f l i : grid f l !! i = (fun a => imap (fun j _ => f i j) (cells a)) <$> l !! i.
Proof. unfold grid. by rewrite list_lookup_imap. Qed.

Lemma grid_cell f l i j a b : l !! i = Some a -> cells a !! j = Some b -> grid f l !! i ≫= (fun row => row !! j) = Some (f i j).
Proof. intros Hi Hj. rewrite grid_row, Hi. simpl. by rewrite list_lookup_imap, Hj. Qed.

Lemma grid_cell_inv f l i j c :
  grid f l !! i ≫= (fun row => row !! j) = Some c -> c = f i j /\ exists a b, l !! i = Some a /\ cells a !! j = Some b.
Proof.
  rewrite grid_row. destruct (l !! i) as [a|]; [|done]. simpl. rewrite list_lookup_imap.
  intros (b & Hb & ->)%fmap_Some. eauto.
Qed.

Lemma grid_ext f g l :
  (forall i a j b, l !! i = Some a -> cells a !! j = Some b -> f i j = g i j) -> grid f l = grid g l.
Proof.
  intros Hfg. unfold grid. apply imap_ext. intros i a Hi. simpl. apply imap_ext. intros j b Hj. simpl. eauto.
Qed.

Lemma grid_map (h : nat -> bool) f l : imap (fun j _ => h j) <$> grid f l = grid (fun _ j => h j) l.
Proof.
  unfold grid. rewrite fmap_imap. apply imap_ext. intros i a _. simpl. apply list_eq. intros j.
  rewrite !list_lookup_imap. by destruct (cells a !! j).
Qed.

Lemma grid_const c f l : (fun row : list bool => (fun _ => c) <$> row) <$> grid f l = grid (fun _ _ => c) l.
Proof. unfold grid. rewrite fmap_imap. apply imap_ext. intros i a _. simpl. by rewrite fmap_imap. Qed.

Lemma set_class_grid f l i j a b c :
  l !! i = Some a -> cells a !! j = Some b ->
  set_class (grid f l) (Z.of_nat i) (Z.of_nat j) c
  = Some (grid (fun i' j' => if decide (i' = i /\ j' = j) then c else f i' j') l).
Proof.
  intros Hi Hj. unfold set_class. rewrite js_at_nat, grid_row, Hi. cbn [fmap option_fmap option_map mbind option_bind].
  rewrite js_at_nat, list_lookup_imap, Hj. cbn [fmap option_fmap option_map mbind option_bind]. rewrite !Nat2Z.id. f_equal. apply list_eq. intros i'. destruct (decide (i' = i)) as [->|Hne].
  - rewrite list_lookup_insert_eq by (unfold grid; rewrite length_imap; by eapply lookup_lt_Some).
    rewrite grid_row, Hi. simpl. f_equal. apply list_eq. intros j'. destruct (decide (j' = j)) as [->|Hnj].
    + rewrite list_lookup_insert_eq by (rewrite length_imap; by eapply lookup_lt_Some).
      rewrite list_lookup_imap, Hj. simpl. by rewrite decide_True.
    + rewrite list_lookup_insert_ne by done. rewrite !list_lookup_imap. destruct (cells a !! j'); [|done]. simpl.
      by rewrite decide_False by tauto.
  - rewrite list_lookup_insert_ne by done. rewrite !grid_row. destruct (l !! i'); [|done]. simpl. f_equal. apply imap_ext.
    intros j' ? _. simpl. by rewrite decide_False by tauto.
Qed.
End grid.

(** ** What is shown *)

Section page.
Variable data : list Part.
Variable dw : Drawing.

(** What the page relies on for a partition and its layer. *)
Record part_ok (p : Part) (L : Layer) : Prop := {
  pk_rects : length (ly_rects L) = length (pt_History p);
  pk_groups : Forall2 (fun lin g => gr_illegal g = (illegal_next (pt_History p) lin).*1) (pt_Lins p) (ly_groups L);
  pk_lins lin : lin ∈ pt_Lins p -> lin <> [];
  pk_first lin0 lin : pt_Lins p !! 0 = Some lin0 -> lin ∈ pt_Lins p -> length lin <= length lin0;
  pk_Largest i : match pt_Largest p !! i with
    | Some l => best (sized ∘ indices <$> pt_Lins p) i l
    | None => forall lin, lin ∈ pt_Lins p -> i ∉ indices lin
    end;
  pk_largestIllegal j : match ly_largestIllegal L !! j with
    | Some l => best (nexts_of (pt_History p) <$> pt_Lins p) j l
    | None => forall lin, lin ∈ pt_Lins p -> j ∉ (illegal_next (pt_History p) lin).*1
    end;
}.

(** There is a box [s.2] of partition [s.1]. *)
Definition on_page (s : nat * nat) : Prop := exists p el, data !! s.1 = Some p /\ pt_History p !! s.2 = Some el.

(** An error point is after the last element of its linearization. *)
Definition error_ok (e : ErrorPoint) : Prop :=
  exists p lin id j, data !! ep_partition e = Some p /\ pt_Lins p !! ep_lin e = Some lin /\ last lin = Some id /\
    ep_index e = ls_Index id /\ ls_Index id = Z.of_nat j /\ on_page (ep_partition e, j).

Record page_ok : Prop := {
  po_parts : Forall2 part_ok data (dw_layers dw);
  po_errors : Forall error_ok (dw_errorPoints dw);
  po_sorted : StronglySorted (not_after further_left) (dw_errorPoints dw);
}.

(** The linearization to show for element [j]: the first of the longest that have it; for
    an element that is in none, the first of the longest that it could follow. *)
Definition relevant (p : Part) (j l : nat) : Prop :=
  best (sized ∘ indices <$> pt_Lins p) (Z.of_nat j) l \/
  ((forall lin, lin ∈ pt_Lins p -> Z.of_nat j ∉ indices lin) /\ best (nexts_of (pt_History p) <$> pt_Lins p) j l).

(** With a focus only its partition and its linearization are shown; without one all
    partitions and the first, longest, linearization of each. *)
Definition layer_shown (focus : option (nat * nat)) (i : nat) : Prop :=
  match focus with Some (p, _) => i = p | None => True end.

Definition group_shown (focus : option (nat * nat)) (i l : nat) : Prop :=
  match focus with
  | Some (p, j) => i = p /\ exists d, data !! p = Some d /\ relevant d j l
  | None => l = 0
  end.

Definition error_visible (focus : option (nat * nat)) (e : ErrorPoint) : Prop :=
  e ∈ dw_errorPoints dw /\ group_shown focus (ep_partition e) (ep_lin e).

(** The error that the link leads to: no visible one is further left. *)
Definition first_error (focus : option (nat * nat)) (pt : ErrorPoint) : Prop :=
  error_visible focus pt /\ forall e, error_visible focus e -> further_left e pt = false.

(** The page when [sel] is selected and [focus] is highlighted. *)
Record looks (sel focus : option (nat * nat)) (pg : Page) : Prop := {
  lk_selected : pg_selected pg = bool_decide (is_Some sel);
  lk_selectedIndex s : sel = Some s -> pg_selectedIndex pg = (Z.of_nat s.1, Z.of_nat s.2) /\ focus = Some s;
  lk_layer i p : data !! i = Some p -> exists b, vw_layers (pg_view pg) !! i = Some b /\ (b = false <-> layer_shown focus i);
  lk_group i p l lin : data !! i = Some p -> pt_Lins p !! l = Some lin ->
    exists b, vw_groups (pg_view pg) !! i ≫= (fun row => row !! l) = Some b /\ (b = false <-> group_shown focus i l);
  lk_rect i j : on_page (i, j) -> exists b, pg_rects pg !! i ≫= (fun row => row !! j) = Some b /\ (b = true <-> sel = Some (i, j));
  lk_jump : if vw_inactive (pg_view pg) then forall e, ~ error_visible focus e
    else exists pt, vw_jump (pg_view pg) = Some pt /\ first_error focus pt;
  lk_tip this : tp_last (pg_tip pg) = Some this -> tooltip_html data dw this = Some (tp_html (pg_tip pg));
}.

(** How an event changes what is selected and highlighted. *)
Inductive reacts (sel focus : option (nat * nat)) : PageEvent -> option (nat * nat) -> option (nat * nat) -> Prop :=
  | re_over p i : sel = None -> reacts sel focus (MouseOver p i) None (Some (p, i))
  | re_over_selected p i : sel <> None -> reacts sel focus (MouseOver p i) sel focus
  | re_move p i : reacts sel focus (MouseMove p i) sel focus
  | re_out p i : sel = None -> reacts sel focus (MouseOut p i) None None
  | re_out_selected p i : sel <> None -> reacts sel focus (MouseOut p i) sel focus
  | re_click p i : sel <> Some (p, i) -> reacts sel focus (Click p i) (Some (p, i)) (Some (p, i))
  | re_click_selected p i : sel = Some (p, i) -> reacts sel focus (Click p i) None None
  | re_background : sel = None -> reacts sel focus BgClick None focus
  | re_background_selected : sel <> None -> reacts sel focus BgClick None None
  | re_jump pt i : sel = None -> first_error focus pt -> ep_index pt = Z.of_nat i ->
      reacts sel focus JumpClick (Some (ep_partition pt, i)) (Some (ep_partition pt, i))
  | re_jump_selected : sel <> None -> reacts sel focus JumpClick sel focus
  | re_jump_none : (forall e, ~ error_visible focus e) -> reacts sel focus JumpClick sel focus.

Inductive reacts_all : option (nat * nat) -> option (nat * nat) -> list PageEvent -> option (nat * nat) -> option (nat * nat) -> Prop :=
  | ra_nil sel focus : reacts_all sel focus [] sel focus
  | ra_cons sel focus ev sel1 focus1 evs sel2 focus2 :
      reacts sel focus ev sel1 focus1 -> reacts_all sel1 focus1 evs sel2 focus2 -> reacts_all sel focus (ev :: evs) sel2 focus2.

(** An event at a box of the page. *)
Definition possible (ev : PageEvent) : Prop :=
  match ev with
  | MouseOver p i | MouseMove p i | MouseOut p i | Click p i => on_page (p, i)
  | BgClick | JumpClick => True
  end.

(** ** The linearization to show *)

Hypothesis Hok : page_ok.

Lemma best_lin {K} `{Countable K} (f : list linearizationStep -> list K * nat) lins (k : K) l :
  best (f <$> lins) k l -> exists lin, lins !! l = Some lin /\ lin ∈ lins /\ k ∈ (f lin).1.
Proof.
  intros (ks & len & Hl & Hk & _). rewrite list_lookup_fmap in Hl. apply fmap_Some in Hl as (lin & Hl & E). exists lin.
  split_and!; [done|by eapply list_elem_of_lookup_2|by rewrite <- E].
Qed.

Lemma relevant_lin p j l : relevant p j l -> exists lin, pt_Lins p !! l = Some lin.
Proof. intros [(lin & ? & _)%best_lin|[_ (lin & ? & _)%best_lin]]; eauto. Qed.

Lemma linearizationIndex_relevant i p j :
  data !! i = Some p -> exists m, linearizationIndex data dw (Z.of_nat i) (Z.of_nat j) = Some m /\ forall l, m = Some l <-> relevant p j l.
Proof.
  intros Hi. destruct (Forall2_lookup_l _ _ _ _ _ (po_parts Hok) Hi) as (L & HL & Hp). unfold linearizationIndex.
  rewrite !js_at_nat, Hi. simpl. pose proof (pk_Largest _ _ Hp (Z.of_nat j)) as Hb.
  destruct (pt_Largest p !! Z.of_nat j) as [l0|].
  - exists (Some l0). split; [done|]. intros l. split; [intros [= <-]; by left|]. intros [Hl|[Hno _]]; [by rewrite (best_unique _ _ _ _ Hb Hl)|].
    apply best_lin in Hb as (lin & _ & Hlin & Hj). by destruct (Hno lin).
  - rewrite HL. simpl. rewrite decide_True by lia. rewrite Nat2Z.id. eexists. split; [done|].
    pose proof (pk_largestIllegal _ _ Hp j) as Hi2. intros l. destruct (ly_largestIllegal L !! j) as [l0|].
    + split; [intros [= <-]; by right|]. intros [(lin & _ & Hlin & Hj)%best_lin|[_ Hl]]; [by destruct (Hb lin)|by rewrite (best_unique _ _ _ _ Hi2 Hl)].
    + split; [done|]. intros [(lin & _ & Hlin & Hj)%best_lin|[_ (lin & _ & Hlin & Hj)%best_lin]]; [by destruct (Hb lin)|by destruct (Hi2 lin)].
Qed.

(** ** The state of the page *)

(** [group_shown] as the script computes it. *)
Definition shownb (focus : option (nat * nat)) (i l : nat) : bool :=
  match focus with
  | Some (p, j) => bool_decide (i = p /\ linearizationIndex data dw (Z.of_nat p) (Z.of_nat j) = Some (Some l))
  | None => bool_decide (l = 0)
  end.

Lemma shownb_iff focus i l :
  (forall s, focus = Some s -> on_page s) -> shownb focus i l = true <-> group_shown focus i l.
Proof.
  intros Hf. destruct focus as [[p j]|]; simpl; rewrite bool_decide_eq_true; [|done].
  destruct (Hf (p, j) eq_refl) as (d & el & Hd & _). simpl in Hd. destruct (linearizationIndex_relevant p d j Hd) as (m & -> & Hm).
  split; intros [-> H]; (split; [done|]).
  - exists d. split; [done|]. apply Hm. by injection H.
  - destruct H as (d' & Hd' & Hr). rewrite Hd in Hd'. injection Hd' as <-. f_equal. by apply Hm.
Qed.

Definition groups_of (focus : option (nat * nat)) : list (list bool) := grid pt_Lins (fun i l => negb (shownb focus i l)) data.

Definition layers_of (focus : option (nat * nat)) : list bool :=
  imap (fun i _ => match focus with Some (p, _) => bool_decide (i <> p) | None => false end) data.

Definition rects_of (sel : option (nat * nat)) : list (list bool) :=
  grid pt_History (fun i j => bool_decide (sel = Some (i, j))) data.

(** The view of a focus; without a visible error the link keeps its handler. *)
Record view_of (focus : option (nat * nat)) (v : View) : Prop := {
  vo_layers : vw_layers v = layers_of focus;
  vo_groups : vw_groups v = groups_of focus;
  vo_jump : match find (point_visible (groups_of focus)) (dw_errorPoints dw) with
    | Some pt => vw_jump v = Some pt /\ vw_inactive v = false
    | None => vw_inactive v = true
    end;
}.

(** A view with the elements of the page. *)
Definition shaped (v : View) : Prop :=
  (exists f, vw_groups v = grid pt_Lins f data) /\ length (vw_layers v) = length data.

Lemma view_shaped focus v : view_of focus v -> shaped v.
Proof. intros [Hl Hg _]. split; [rewrite Hg; by eexists|]. rewrite Hl. unfold layers_of. by rewrite length_imap. Qed.

Lemma updateJump_view focus layers groups jump inactive :
  layers = layers_of focus -> groups = groups_of focus -> view_of focus (updateJump dw (mkView layers groups jump inactive)).
Proof.
  intros -> ->. unfold updateJump. simpl. destruct (find _ _) as [pt|] eqn:E; split; simpl; rewrite ?E; done.
Qed.

Lemma imap_same_length {A B C} (f : nat -> C) (l : list A) (k : list B) :
  length l = length k -> imap (fun i _ => f i) l = imap (fun i _ => f i) k.
Proof.
  intros Hlen. apply list_eq. intros i. rewrite !list_lookup_imap. destruct (l !! i) eqn:Hl, (k !! i) eqn:Hk; try done.
  - apply lookup_lt_Some in Hl. apply lookup_ge_None in Hk. lia.
  - apply lookup_lt_Some in Hk. apply lookup_ge_None in Hl. lia.
Qed.

Lemma resetHighlight_view v : shaped v -> view_of None (resetHighlight dw v).
Proof.
  intros [[f Hg] Hl]. apply updateJump_view.
  - unfold layers_of. rewrite <- (imap_same_length (fun _ => false) _ _ Hl). apply list_eq. intros i.
    rewrite list_lookup_imap, list_lookup_fmap. by destruct (vw_layers v !! i).
  - rewrite Hg, grid_map. apply grid_ext. intros i p j b _ _. simpl. by rewrite <- bool_decide_not.
Qed.

Lemma highlight_view s v :
  on_page s -> shaped v -> exists v', highlight data dw (Z.of_nat s.1) (Z.of_nat s.2) v = Some v' /\ view_of (Some s) v'.
Proof.
  destruct s as [p j]. intros (d & el & Hd & Hel) [[f Hg] Hl]. simpl in Hd, Hel.
  destruct (linearizationIndex_relevant p d j Hd) as (m & Hm & Hrel). unfold highlight. cbn [fst snd]. rewrite Hm. cbn [mbind option_bind].
  rewrite Hg, grid_const.
  assert (Hset : match m with Some m => set_class (grid pt_Lins (fun _ _ => true) data) (Z.of_nat p) (Z.of_nat m) false
    | None => Some (grid pt_Lins (fun _ _ => true) data) end = Some (groups_of (Some (p, j)))).
  { destruct m as [m|].
    - destruct (relevant_lin d j m) as [lin Hlin]; [by apply Hrel|]. rewrite (set_class_grid _ _ _ _ _ _ _ _ Hd Hlin). f_equal.
      apply grid_ext. intros i d' l lin' _ _. simpl. rewrite Hm. case_decide; symmetry.
      + rewrite bool_decide_eq_true_2 by naive_solver. done.
      + rewrite bool_decide_eq_false_2 by naive_solver. done.
    - f_equal. apply grid_ext. intros i d' l lin' _ _. simpl. rewrite Hm, bool_decide_eq_false_2 by naive_solver. done. }
  rewrite Hset. cbn [mbind option_bind]. eexists. split; [done|]. apply updateJump_view; [|done].
  rewrite (imap_same_length (fun i => bool_decide (Z.of_nat i <> Z.of_nat p)) _ _ Hl). apply imap_ext. intros i d' _. simpl.
  apply bool_decide_ext. lia.
Qed.

Record page_inv (sel focus : option (nat * nat)) (pg : Page) : Prop := {
  pi_selected : pg_selected pg = bool_decide (is_Some sel);
  pi_selectedIndex s : sel = Some s -> pg_selectedIndex pg = (Z.of_nat s.1, Z.of_nat s.2) /\ focus = Some s;
  pi_focus s : focus = Some s -> on_page s;
  pi_view : view_of focus (pg_view pg);
  pi_rects : pg_rects pg = rects_of sel;
  pi_tip this : tp_last (pg_tip pg) = Some this -> tooltip_html data dw this = Some (tp_html (pg_tip pg));
}.

(** *** Selecting *)

Lemma rects_select s : on_page s -> set_class (rects_of None) (Z.of_nat s.1) (Z.of_nat s.2) true = Some (rects_of (Some s)).
Proof.
  destruct s as [p j]. intros (d & el & Hd & Hel). unfold rects_of. rewrite (set_class_grid _ _ _ _ _ _ _ _ Hd Hel). f_equal.
  apply grid_ext. intros i d' j' el' _ _. case_decide as Hc; symmetry.
  - apply bool_decide_eq_true_2. simpl in Hc. by destruct Hc as [-> ->].
  - rewrite (bool_decide_eq_false_2 (None = _)) by done. apply bool_decide_eq_false_2. simpl in Hc. naive_solver.
Qed.

Lemma rects_deselect s : on_page s -> set_class (rects_of (Some s)) (Z.of_nat s.1) (Z.of_nat s.2) false = Some (rects_of None).
Proof.
  destruct s as [p j]. intros (d & el & Hd & Hel). unfold rects_of. rewrite (set_class_grid _ _ _ _ _ _ _ _ Hd Hel). f_equal.
  apply grid_ext. intros i d' j' el' _ _. rewrite (bool_decide_eq_false_2 (None = _)) by done. case_decide as Hc; [done|].
  apply bool_decide_eq_false_2. simpl in Hc. naive_solver.
Qed.

Lemma select_inv s pg :
  on_page s -> shaped (pg_view pg) -> pg_rects pg = rects_of None ->
  (forall this, tp_last (pg_tip pg) = Some this -> tooltip_html data dw this = Some (tp_html (pg_tip pg))) ->
  exists pg', select data dw (Z.of_nat s.1) (Z.of_nat s.2) pg = Some pg' /\ page_inv (Some s) (Some s) pg' /\
    pg_scrolled pg' = pg_scrolled pg.
Proof.
  intros Hs Hv Hr Ht. destruct (highlight_view s (pg_view pg) Hs Hv) as (v & Hh & Hv'). unfold select.
  rewrite Hh, Hr. cbn [mbind option_bind]. rewrite (rects_select s Hs). cbn [mbind option_bind].
  eexists. split; [done|]. split; [|done]. split; simpl; [done|by intros ? [= <-]|by intros ? [= <-]|done|done|done].
Qed.

Lemma deselect_inv s focus pg :
  page_inv (Some s) focus pg -> exists pg', deselect dw pg = Some pg' /\ page_inv None None pg'.
Proof.
  intros [Hsel Hidx Hf Hv Hr Ht]. destruct (Hidx s eq_refl) as [Hi ->]. unfold deselect. rewrite Hsel, Hi, Hr. simpl.
  rewrite (rects_deselect s) by (by apply Hf). simpl. eexists. split; [done|].
  split; simpl; [done|done|done|by eapply resetHighlight_view, view_shaped|done|done].
Qed.

(** *** The tooltip *)

Lemma step_text_some i p j el m :
  data !! i = Some p -> pt_History p !! j = Some el -> m < length (pt_Lins p) ->
  exists html, step_text data dw (Z.of_nat i) (Z.of_nat j) m = Some html.
Proof.
  intros Hi Hj [lin Hlin]%lookup_lt_is_Some_2. destruct (Forall2_lookup_l _ _ _ _ _ (po_parts Hok) Hi) as (L & HL & Hp).
  destruct (Forall2_lookup_l _ _ _ _ _ (pk_groups _ _ Hp) Hlin) as (g & Hg & _).
  unfold step_text. rewrite !js_at_nat, Hi. cbn [mbind option_bind]. rewrite Hlin. cbn [mbind option_bind]. rewrite js_at_nat, Hj. cbn [mbind option_bind].
  destruct (find_step _ _ _) as [[prev curr]|]; [by eexists|]. rewrite HL. cbn [mbind option_bind]. rewrite Hg. cbn [mbind option_bind].
  case_decide; [|by eexists]. destruct (last lin) as [final|] eqn:Hl; [by eexists|]. apply last_None in Hl.
  by destruct (pk_lins _ _ Hp lin (list_elem_of_lookup_2 _ _ _ Hlin)).
Qed.

Lemma tooltip_some s (selected : bool) si :
  on_page s -> (selected = true -> exists s', on_page s' /\ si = (Z.of_nat s'.1, Z.of_nat s'.2)) ->
  exists html, tooltip_html data dw (Z.of_nat s.1, Z.of_nat s.2, selected, si.1, si.2) = Some html.
Proof.
  intros (p & el & Hi & Hj) Hsel. unfold tooltip_html. destruct selected; simpl.
  - destruct (Hsel eq_refl) as (s' & (p' & el' & Hi' & _) & ->). simpl. destruct (linearizationIndex_relevant _ p' s'.2 Hi') as (m & -> & Hm).
    simpl. case_bool_decide as Hne; [by eexists|]. destruct m as [m|]; [|by eexists]. assert (s.1 = s'.1) as E by lia.
    assert (p' = p) as -> by (rewrite E, Hi' in Hi; by injection Hi). destruct (relevant_lin p s'.2 m) as [lin ?]; [by apply Hm|].
    eapply step_text_some; [done|done|by eapply lookup_lt_Some].
  - destruct (linearizationIndex_relevant _ p s.2 Hi) as (m & -> & Hm). simpl. destruct m as [m|]; [|by eexists].
    destruct (relevant_lin p s.2 m) as [lin ?]; [by apply Hm|]. eapply step_text_some; [done|done|by eapply lookup_lt_Some].
Qed.

(** *** The link *)

Lemma point_visible_iff focus e :
  (forall s, focus = Some s -> on_page s) -> e ∈ dw_errorPoints dw ->
  point_visible (groups_of focus) e = true <-> error_visible focus e.
Proof.
  intros Hf He. pose proof (po_errors Hok) as Herr. rewrite Forall_forall in Herr.
  destruct (Herr e He) as (p & lin & id & j & Hp & Hlin & _). unfold point_visible, error_visible, groups_of.
  rewrite (grid_cell _ _ _ _ _ _ _ Hp Hlin), bool_decide_eq_true, <- shownb_iff by done. destruct (shownb _ _ _); naive_solver.
Qed.

Lemma find_first {A} (R : A -> A -> Prop) (f : A -> bool) l x :
  StronglySorted R l -> R x x -> find f l = Some x -> x ∈ l /\ f x = true /\ forall y, y ∈ l -> f y = true -> R x y.
Proof.
  intros Hs Hx Hfind. assert (Hin := Hfind). apply find_some in Hin as [Hin%list_elem_of_In Hfx]. split_and!; [done|done|].
  clear Hin. induction Hs as [|a l Hs IH Hall]; simpl in Hfind; [done|]. rewrite Forall_forall in Hall.
  destruct (f a) eqn:Ha; [injection Hfind as ->|]; intros y [->|Hy]%elem_of_cons Hfy; [done|auto|congruence|auto].
Qed.

Lemma view_jump focus v :
  (forall s, focus = Some s -> on_page s) -> view_of focus v ->
  if vw_inactive v then forall e, ~ error_visible focus e
  else exists pt, vw_jump v = Some pt /\ first_error focus pt.
Proof.
  intros Hf [_ _ Hj]. destruct (find _ _) as [pt|] eqn:E.
  - destruct Hj as [-> ->]. exists pt. split; [done|].
    assert (Hrefl : not_after further_left pt pt) by (unfold not_after, further_left; destruct (ep_x pt); [by rewrite Z.ltb_irrefl|done]).
    destruct (find_first _ _ _ _ (po_sorted Hok) Hrefl E) as (Hin & Hv & Hmin). split; [by apply point_visible_iff|].
    intros e He. assert (Hin' := He). destruct Hin' as [Hin' _]. apply Hmin; [done|]. by apply point_visible_iff.
  - rewrite Hj. intros e He. assert (Hin := He). destruct Hin as [Hin _]. apply (point_visible_iff focus e Hf Hin) in He.
    rewrite (find_none _ _ E e) in He; [done|by apply list_elem_of_In].
Qed.

Lemma inv_looks sel focus pg : page_inv sel focus pg -> looks sel focus pg.
Proof.
  intros [Hsel Hidx Hf Hv Hr Ht]. split; [done|done|..|by apply view_jump|done].
  - intros i p Hi. rewrite (vo_layers _ _ Hv). unfold layers_of. rewrite list_lookup_imap, Hi. simpl. eexists. split; [done|].
    destruct focus as [[q ?]|]; simpl; [|done]. rewrite bool_decide_eq_false. split; [intros H; by apply dec_stable|naive_solver].
  - intros i p l lin Hi Hl. rewrite (vo_groups _ _ Hv). unfold groups_of. rewrite (grid_cell _ _ _ _ _ _ _ Hi Hl). eexists. split; [done|].
    rewrite <- shownb_iff by done. destruct (shownb _ _ _); naive_solver.
  - intros i j (p & el & Hi & Hj). rewrite Hr. unfold rects_of. rewrite (grid_cell _ _ _ _ _ _ _ Hi Hj). eexists. split; [done|].
    by rewrite bool_decide_eq_true.
Qed.

(** ** Events *)

Lemma jump_inv focus pg pt :
  page_inv None focus pg -> vw_jump (pg_view pg) = Some pt -> vw_inactive (pg_view pg) = false ->
  exists pg' j, handleJump data dw pg = Some pg' /\ first_error focus pt /\ ep_index pt = Z.of_nat j /\
    page_inv (Some (ep_partition pt, j)) (Some (ep_partition pt, j)) pg' /\ pg_scrolled pg' = Some pt.
Proof.
  intros [Hsel Hidx Hf Hv Hr Ht] Hj Ha. pose proof (view_jump focus _ Hf Hv) as Hjump. rewrite Ha, Hj in Hjump.
  destruct Hjump as (pt' & [= <-] & Hfirst). assert (Hin := Hfirst). destruct Hin as [[Hin _] _].
  pose proof (po_errors Hok) as Herr. rewrite Forall_forall in Herr. destruct (Herr pt Hin) as (p & lin & id & j & _ & _ & _ & Hidj & Hj' & Hon).
  rewrite Hj' in Hidj. unfold handleJump. rewrite Hj, Ha. simpl. rewrite Hsel, Hidj. simpl.
  destruct (select_inv (ep_partition pt, j) (mkPage (pg_selected pg) (pg_selectedIndex pg) (pg_view pg) (pg_rects pg) (Some pt) (pg_tip pg)))
    as (pg' & Hs & Hinv & Hsc); [done|by eapply view_shaped|done|done|].
  simpl in Hs. rewrite Hsel in Hs. simpl in Hs. exists pg', j. by split_and!.
Qed.

Lemma click_inv sel focus pg s :
  page_inv sel focus pg -> on_page s -> exists pg' sel', handleClick data dw (Z.of_nat s.1) (Z.of_nat s.2) pg = Some pg' /\
    sel' = (if decide (sel = Some s) then None else Some s) /\ page_inv sel' sel' pg'.
Proof.
  intros Hinv Hs. assert (H := Hinv). destruct H as [Hsel Hidx Hf Hv Hr Ht]. unfold handleClick. rewrite Hsel.
  destruct sel as [s0|].
  - destruct (Hidx s0 eq_refl) as [Hi Hfo]. rewrite bool_decide_eq_true_2 by done. rewrite Hi. case_decide as Hc.
    + assert (s0 = s) as -> by (destruct s0, s; simpl in *; f_equal; injection Hc; lia).
      destruct (deselect_inv s focus pg Hinv) as (pg' & Hd & Hinv'). exists pg', None. by rewrite decide_True.
    + cbn [fst snd]. rewrite Hr, (rects_deselect s0) by (by apply Hf). cbn [mbind option_bind].
      destruct (select_inv s (set_rects (rects_of None) pg)) as (pg' & -> & Hinv' & _); [done|by eapply view_shaped|done|done|].
      exists pg', (Some s). rewrite decide_False; [done|]. intros [= ->]. by apply Hc.
  - rewrite bool_decide_eq_false_2 by (by intros [? [=]]). destruct (select_inv s pg) as (pg' & -> & Hinv' & _); [done|by eapply view_shaped|done|done|].
    exists pg', (Some s). by rewrite decide_False.
Qed.

Lemma over_inv sel focus pg s :
  page_inv sel focus pg -> on_page s -> exists pg' focus', handleMouseOver data dw (Z.of_nat s.1) (Z.of_nat s.2) pg = Some pg' /\
    focus' = (if decide (sel = None) then Some s else focus) /\ page_inv sel focus' pg'.
Proof.
  intros [Hsel Hidx Hf Hv Hr Ht] Hs. unfold handleMouseOver. rewrite Hsel. destruct sel as [s0|].
  - rewrite bool_decide_eq_true_2 by done. cbn [mbind option_bind]. eexists _, _. split_and!; [done|done|]. rewrite decide_False by done. by split.
  - rewrite bool_decide_eq_false_2 by (by intros [? [=]]). destruct (highlight_view s (pg_view pg) Hs) as (v & -> & Hv'); [by eapply view_shaped|].
    cbn [mbind option_bind]. eexists _, _. split_and!; [done|done|]. rewrite decide_True by done. split; simpl; [done|done|by intros ? [= <-]|done..].
Qed.

Lemma out_inv sel focus pg :
  page_inv sel focus pg -> page_inv sel (if decide (sel = None) then None else focus) (handleMouseOut dw pg).
Proof.
  intros [Hsel Hidx Hf Hv Hr Ht]. unfold handleMouseOut. rewrite Hsel. destruct sel as [s0|].
  - rewrite decide_False, bool_decide_eq_true_2 by done. by split.
  - rewrite decide_True, bool_decide_eq_false_2 by (done || by intros [? [=]]).
    split; simpl; [done|done|done|by eapply resetHighlight_view, view_shaped|done..].
Qed.

Lemma move_inv sel focus pg s :
  page_inv sel focus pg -> on_page s ->
  exists pg', handleMouseMove data dw (Z.of_nat s.1) (Z.of_nat s.2) pg = Some pg' /\ page_inv sel focus pg' /\
    tooltip_html data dw (Z.of_nat s.1, Z.of_nat s.2, pg_selected pg, (pg_selectedIndex pg).1, (pg_selectedIndex pg).2)
      = Some (tp_html (pg_tip pg')).
Proof.
  intros Hinv Hs. assert (H := Hinv). destruct H as [Hsel Hidx Hf Hv Hr Ht]. unfold handleMouseMove.
  destruct (pg_selectedIndex pg) as [sp si] eqn:Esi. cbn [fst snd]. case_decide as Hc; [exists pg; split_and!; auto|].
  destruct (tooltip_some s (pg_selected pg) (sp, si) Hs) as (html & Hh).
  { rewrite Hsel, bool_decide_eq_true. intros [s0 ->]. destruct (Hidx s0 eq_refl) as [Hi Hfo]. exists s0. split; [by apply Hf|done]. }
  cbn [fst snd] in Hh. rewrite Hh. cbn [mbind option_bind]. eexists. split_and!; [done| |done].
  split; simpl; rewrite ?Esi; [done..|by intros ? [= <-]].
Qed.

Lemma page_step_inv sel focus ev pg :
  page_inv sel focus pg -> possible ev ->
  exists pg' sel' focus', page_step data dw ev pg = Some pg' /\ reacts sel focus ev sel' focus' /\ page_inv sel' focus' pg'.
Proof.
  intros Hinv Hev. destruct ev as [p i|p i|p i|p i| |]; simpl in Hev |- *.
  - destruct (over_inv _ _ _ _ Hinv Hev) as (pg' & f & Hp & -> & Hinv'). exists pg', sel. eexists. split; [done|].
    split; [|done]. case_decide as Hc; [subst sel|]; by constructor.
  - destruct (move_inv _ _ _ _ Hinv Hev) as (pg' & Hp & Hinv' & _). exists pg', sel, focus. split; [done|]. split; [constructor|done].
  - eexists _, sel, _. split; [done|]. split; [|by apply out_inv]. case_decide as Hc; [subst sel|]; by constructor.
  - destruct (click_inv _ _ _ _ Hinv Hev) as (pg' & sel' & Hp & -> & Hinv'). eexists pg', _, _. split; [done|].
    split; [|done]. case_decide as Hc; by constructor.
  - destruct sel as [s|].
    + destruct (deselect_inv _ _ _ Hinv) as (pg' & Hp & Hinv'). exists pg', None, None. split; [done|]. split; [by constructor|done].
    + exists pg, None, focus. unfold handleBgClick, deselect. rewrite (pi_selected _ _ _ Hinv). split; [done|]. split; [by constructor|done].
  - pose proof (view_jump focus _ (pi_focus _ _ _ Hinv) (pi_view _ _ _ Hinv)) as Hjump.
    destruct (vw_inactive (pg_view pg)) eqn:Ha.
    + exists pg, sel, focus. unfold handleJump. rewrite Ha. split; [by destruct (vw_jump (pg_view pg))|]. split; [by apply re_jump_none|done].
    + destruct Hjump as (pt & Hj & Hfirst). destruct sel as [s|].
      * unfold handleJump. rewrite Hj, Ha. simpl. rewrite (pi_selected _ _ _ Hinv). simpl. eexists _, (Some s), focus. split; [done|].
        split; [by apply re_jump_selected|]. destruct Hinv. by split.
      * destruct (jump_inv focus pg pt Hinv Hj Ha) as (pg' & j & Hp & _ & Hidx & Hinv' & _). eexists pg', _, _. split; [done|].
        split; [by apply re_jump|done].
Qed.

Lemma page_run_inv evs sel focus pg :
  page_inv sel focus pg -> Forall possible evs ->
  exists pg' sel' focus', page_run data dw evs pg = Some pg' /\ reacts_all sel focus evs sel' focus' /\ page_inv sel' focus' pg'.
Proof.
  intros Hinv Hall. revert sel focus pg Hinv. induction Hall as [|ev evs Hev _ IH]; intros sel focus pg Hinv.
  - eexists _, _, _. split; [done|]. split; [constructor|done].
  - destruct (page_step_inv sel focus ev pg Hinv Hev) as (pg1 & sel1 & focus1 & Hs & Hre & Hinv1).
    destruct (IH _ _ _ Hinv1) as (pg2 & sel2 & focus2 & Hr & Hre2 & Hinv2). simpl. rewrite Hs. cbn [mbind option_bind].
    eexists _, _, _. split; [done|]. split; [by econstructor|done].
Qed.

(** ** The first view *)

Lemma layer_grid {A B} (cells : Part -> list A) (cells' : Layer -> list B) (c : bool) :
  (forall p L, part_ok p L -> length (cells' L) = length (cells p)) ->
  (fun L => (fun _ => c) <$> cells' L) <$> dw_layers dw = grid cells (fun _ _ => c) data.
Proof.
  intros Hlen. apply list_eq. intros i. rewrite grid_row, list_lookup_fmap. pose proof (po_parts Hok) as Hp.
  pose proof (Forall2_length _ _ _ Hp) as Hl. destruct (data !! i) as [p|] eqn:Hi.
  - destruct (Forall2_lookup_l _ _ _ _ _ Hp Hi) as (L & -> & HpL). simpl. f_equal.
    rewrite <- (imap_same_length (fun _ => c) _ _ (Hlen p L HpL)). apply list_eq. intros j.
    rewrite list_lookup_fmap, list_lookup_imap. by destruct (cells' L !! j).
  - apply lookup_ge_None in Hi. by rewrite (proj2 (lookup_ge_None (dw_layers dw) i)) by lia.
Qed.

Lemma start_inv : page_inv None None (start_page dw).
Proof.
  unfold start_page, handleMouseOut, drawn_page. simpl. split; simpl; try done.
  - apply resetHighlight_view. split; simpl.
    + eexists. apply (layer_grid pt_Lins ly_groups). intros p L Hp. symmetry. exact (Forall2_length _ _ _ (pk_groups _ _ Hp)).
    + by rewrite length_fmap, <- (Forall2_length _ _ _ (po_parts Hok)).
  - rewrite (layer_grid pt_History ly_rects) by (by intros p L ?%pk_rects). apply grid_ext. intros i p j el _ _. done.
Qed.

(** ** The first error *)

(** In the view of everything, the linearization that ends before an error is the one to
    show for its last element. *)
Lemma first_shown_after e j :
  error_visible None e -> ep_index e = Z.of_nat j -> group_shown (Some (ep_partition e, j)) (ep_partition e) (ep_lin e).
Proof.
  intros [Hin Hl] Hj. simpl in Hl. pose proof (po_errors Hok) as Herr. rewrite Forall_forall in Herr.
  destruct (Herr e Hin) as (p & lin & id & j' & Hp & Hlin & Hlast & Hidx & _). split; [done|]. exists p. split; [done|]. left.
  destruct (Forall2_lookup_l _ _ _ _ _ (po_parts Hok) Hp) as (L & _ & HpL). rewrite Hl in Hlin |- *.
  exists (indices lin), (length (indices lin)). split_and!.
  - by rewrite list_lookup_fmap, Hlin.
  - rewrite <- Hj, Hidx. apply list_elem_of_fmap_2. by apply last_Some_elem_of.
  - intros l' ks' len' Hl' _. rewrite list_lookup_fmap in Hl'. apply fmap_Some in Hl' as (lin' & Hlin' & [= -> ->]).
    split; [|lia]. unfold indices. rewrite !length_fmap. apply (pk_first _ _ HpL lin lin' Hlin). by eapply list_elem_of_lookup_2.
Qed.
End page.
