(* ===== verification/VisRender.v ===== *)
(** * The page of what the checker returns

    Layout, drawing and page together: the data that [computeVisualizationData] gives for
    a history can be drawn, [render] draws them, and the page has what its handlers rely
    on. The history must have no operation that is called at the last time: such an
    operation gets no position (VisSolve). *)

From S2P Require Import Prelude GoLib Porcupine PorcOps PorcPrefix PorcLinear Longest Visualization VisLayout VisScan VisSpec VisSolve.
From S2P Require Import VisDraw VisDrawFacts VisPage VisPageFacts.

(** ** The data can be drawn *)

(** Every operation is called before the return of one. *)
Definition called_before_last {V} (parts : list (list (Operation V))) : Prop :=
  Forall (Forall (fun o => Exists (Exists (fun o' => op_Call o < op_Return o')%Z) parts)) parts.

Lemma called_before_last_spec {V} (parts : list (list (Operation V))) ops o :
  called_before_last parts -> ops ∈ parts -> o ∈ ops ->
  exists ops' o', ops' ∈ parts /\ o' ∈ ops' /\ (op_Call o < op_Return o')%Z.
Proof.
  unfold called_before_last. rewrite Forall_forall. intros Hall Ho Hin. specialize (Hall ops Ho). rewrite Forall_forall in Hall.
  specialize (Hall o Hin). apply Exists_exists in Hall as (ops' & Ho' & (o' & Hin' & Hlt)%Exists_exists). eauto.
Qed.

Section drawable.
Context {V St : Type} (model : FullModel V St) (DescribeOperation : V -> V -> string).

Lemma shows_elem parts data d he :
  Forall2 (shows model DescribeOperation) parts data -> d ∈ data -> he ∈ pd_History d ->
  exists ops o, ops ∈ parts /\ o ∈ ops /\ he = op_element DescribeOperation o.
Proof.
  intros Hsh [i Hd]%list_elem_of_lookup Hhe. destruct (Forall2_lookup_r _ _ _ _ _ Hsh Hd) as (ops & Ho & [Hh _]).
  rewrite Hh in Hhe. apply list_elem_of_fmap in Hhe as (o & -> & Hin). exists ops, o. split; [by eapply list_elem_of_lookup_2|done].
Qed.

Lemma elem_shows parts data ops o :
  Forall2 (shows model DescribeOperation) parts data -> ops ∈ parts -> o ∈ ops ->
  exists d, d ∈ data /\ op_element DescribeOperation o ∈ pd_History d.
Proof.
  intros Hsh [i Ho]%list_elem_of_lookup Hin. destruct (Forall2_lookup_l _ _ _ _ _ Hsh Ho) as (d & Hd & [Hh _]).
  exists d. split; [by eapply list_elem_of_lookup_2|]. rewrite Hh. by apply list_elem_of_fmap_2.
Qed.

Lemma shows_drawable parts data :
  Forall times_ok parts -> called_before_last parts -> Forall2 (shows model DescribeOperation) parts data -> drawable data.
Proof.
  intros Ht Hlast Hsh. split.
  - intros d he Hd Hhe. destruct (shows_elem _ _ _ _ Hsh Hd Hhe) as (ops & o & Ho & Hin & ->). simpl.
    rewrite Forall_forall in Ht. specialize (Ht ops Ho). unfold times_ok in Ht. rewrite Forall_forall in Ht. by apply Ht.
  - intros d he Hd Hhe. destruct (shows_elem _ _ _ _ Hsh Hd Hhe) as (ops & o & Ho & Hin & ->).
    destruct (called_before_last_spec parts ops o Hlast Ho Hin) as (ops' & o' & Ho' & Hin' & Hlt). destruct (elem_shows _ _ _ _ Hsh Ho' Hin') as (d' & Hd' & Hh').
    exists d', (op_element DescribeOperation o'). done.
  - intros d lin [i Hd]%list_elem_of_lookup Hlin. destruct (Forall2_lookup_r _ _ _ _ _ Hsh Hd) as (ops & Ho & [Hh Hl]).
    rewrite Forall_forall in Hl. destruct (Hl lin Hlin) as (p & Hp & _ & Hne & Hnd & Hr & Hrt). exists p. split; [done|].
    rewrite Hh. split_and!; [done|done|by rewrite length_fmap|].
    intros p1 a p2 b ha hb E Hb Ha' Hb'. rewrite list_lookup_fmap in Ha', Hb'. apply fmap_Some in Ha' as (oa & Hoa & ->).
    apply fmap_Some in Hb' as (ob & Hob & ->). simpl. apply Z.nlt_ge. intros Hlt. apply (Hrt _ _ _ _ E Hb). by exists ob, oa.
Qed.
End drawable.

(** ** Layout and drawing *)

Section render.
Context `{!Sorter}.
Variables (px : Z) (textWidth : string -> Z).

(** Sorting by a key that all elements have. *)
Definition key_before (a b : ErrorPoint) : bool := (default 0 (ep_x a) <? default 0 (ep_x b))%Z.

#[local] Instance key_before_strict_weak : StrictWeak key_before.
Proof. split; unfold key_before; intros; rewrite ?Z.ltb_lt, ?Z.ltb_ge in *; lia. Qed.

Lemma sorted_errors errs :
  Forall (fun e => is_Some (ep_x e)) errs -> StronglySorted (not_after further_left) (sort_by further_left errs).
Proof.
  intros Hall. rewrite Forall_forall in Hall.
  assert (Hsame : forall a b, a ∈ errs -> b ∈ errs -> further_left a b = key_before a b).
  { intros a b Ha Hb. destruct (Hall a Ha) as [xa Hxa], (Hall b Hb) as [xb Hxb]. unfold further_left, key_before. by rewrite Hxa, Hxb. }
  rewrite (sort_by_ext _ _ _ Hsame). pose proof (sort_by_strongly key_before errs _) as Hs.
  assert (Hin : forall e, e ∈ sort_by key_before errs -> e ∈ errs) by (intros e; by rewrite sort_by_perm).
  induction Hs as [|a l Hs IH Hl]; constructor.
  - apply IH. intros e He. apply Hin. by right.
  - rewrite Forall_forall in Hl |- *. intros b Hb. unfold not_after. rewrite Hsame; [by apply Hl|apply Hin; by right|apply Hin; by left].
Qed.

Lemma mapM_indexed {A B} (f : nat * A -> option B) (Q : nat -> A -> B -> Prop) l :
  (forall i a, l !! i = Some a -> exists b, f (i, a) = Some b /\ Q i a b) ->
  exists bs, mapM f (imap pair l) = Some bs /\ length bs = length l /\
    forall i a b, l !! i = Some a -> bs !! i = Some b -> Q i a b.
Proof.
  intros Hf. destruct (mapM f (imap pair l)) as [bs|] eqn:E.
  - exists bs. apply mapM_Some in E. split; [done|]. split; [by rewrite <- (Forall2_length _ _ _ E), length_imap|].
    intros i a b Ha Hb. destruct (Hf i a Ha) as (b' & Hb' & HQ). assert (Hi : imap pair l !! i = Some (i, a)) by (by rewrite list_lookup_imap, Ha).
    pose proof (Forall2_lookup_lr _ _ _ _ _ _ E Hi Hb) as Hb2. simpl in Hb2. rewrite Hb' in Hb2. by injection Hb2 as <-.
  - apply mapM_None, Exists_exists in E as ([i a] & Hin & Hn). apply elem_of_lookup_imap in Hin as (? & ? & [= -> ->] & Ha).
    destruct (Hf _ _ Ha) as (b & Hb & _). congruence.
Qed.

(** [ly] and [dw] are layout and drawing of the data, with positions [x] and [M]. *)
Record rendered (data : list partitionVisualizationData) (ly : Layout) (dw : Drawing) (x : Z -> Z) (M : nat -> nat -> Z) : Prop := {
  rd_layout : layout px textWidth (part_of <$> data) = Some ly;
  rd_draw : draw px ly = Some dw;
  rd_data : Forall2 (part_shows data) (ly_data ly) data;
  rd_laid : laid_out px textWidth ly x M;
  rd_ends : ends_moved (ly_data ly);
  rd_times t : t ∈ ly_times ly <-> time_of (ly_data ly) t;
  rd_range lo hi t : (forall d he, d ∈ data -> he ∈ pd_History d -> (lo <= he_Start he /\ he_End he <= hi)%Z) ->
    time_of (ly_data ly) t -> (2 * lo <= t <= 2 * hi)%Z;
  rd_length : length (dw_layers dw) = length (ly_data ly);
  rd_layers i p L : ly_data ly !! i = Some p -> dw_layers dw !! i = Some L -> layer_shows px textWidth ly p i (dw_width dw) L;
}.

Lemma drawable_lins data p d lin :
  drawable data -> d ∈ data -> part_shows data p d -> lin ∈ pt_Lins p ->
  exists q, indices lin = Z.of_nat <$> q /\ q <> [] /\ Forall (fun i => i < length (pt_History p)) q.
Proof.
  intros Hdr Hd Hp Hlin. rewrite (ps_lins _ _ _ Hp) in Hlin. destruct (dr_lins _ Hdr d lin Hd Hlin) as (q & Hq & Hne & _ & Hr & _).
  exists q. by rewrite (ps_length _ _ _ Hp).
Qed.

Lemma drawable_rendered data :
  (0 < px)%Z -> drawable data -> exists ly dw x M, rendered data ly dw x M.
Proof.
  intros Hpx Hdr. destruct (layout_solved data Hdr px textWidth Hpx) as (ly & x & M & Hly & Hd & Ht & Hpr & Hrec & Hsol).
  pose proof (fdata_shows data) as Hsh. rewrite <- Hd in Hsh.
  set (W := nadd (last_pos ly) (2 * PADDING px + XOFF px)%Z).
  destruct (mapM_indexed (fun '(i, p) => draw_part px (ly_xPos ly) i p) (fun i p L => layer_shows px textWidth ly p i W L) (ly_data ly))
    as (layers & Hm & Hlen & Hls).
  { intros i p Hp. destruct (Forall2_lookup_l _ _ _ _ _ Hsh Hp) as (d & Hdi & Hps). apply list_elem_of_lookup_2 in Hdi.
    assert (Hpin : p ∈ ly_data ly) by (by eapply list_elem_of_lookup_2).
    assert (Hfit : part_fits px textWidth ly x p).
    { apply (solved_part data Hdr px textWidth ly x M p d); [done..| |done|done]. intros lin Hlin. apply (Hrec p); [by rewrite <- Hd|done]. }
    apply (draw_part_spec px textWidth ly x p Hpx Hfit i). intros lin Hlin.
    destruct (drawable_lins data p d lin Hdr Hdi Hps Hlin) as (q & Hq & Hne & _).
    apply (f_equal length) in Hq. unfold indices in Hq. rewrite !length_fmap in Hq. rewrite Hq. destruct q; [done|simpl; lia]. }
  exists ly. unfold draw. eexists _, x, M. split; [done|unfold draw; rewrite Hm; done|done|by eapply solved_laid_out|rewrite Hd; by apply fdata_ends|rewrite Hd..|done|done].
  - intros t. rewrite Ht, elem_of_sorted. by apply fdata_times.
  - intros lo hi t. by apply fdata_range.
Qed.

(** The page has what its handlers rely on. *)
Lemma rendered_page data ly dw x M :
  rendered data ly dw x M -> drawable data -> Forall well_ranked data -> page_ok (ly_data ly) dw.
Proof.
  intros [Hly Hdw Hsh _ _ _ _ Hlen Hls] Hdr Hrk. rewrite Forall_forall in Hrk.
  assert (Hpart : forall i p, ly_data ly !! i = Some p -> exists d L, d ∈ data /\ part_shows data p d /\ dw_layers dw !! i = Some L /\
    layer_shows px textWidth ly p i (dw_width dw) L).
  { intros i p Hp. destruct (Forall2_lookup_l _ _ _ _ _ Hsh Hp) as (d & Hd & Hps).
    destruct (lookup_lt_is_Some_2 (dw_layers dw) i) as [L HL]; [rewrite Hlen; by eapply lookup_lt_Some|].
    exists d, L. split_and!; [by eapply list_elem_of_lookup_2|done|done|by apply Hls]. }
  assert (Herr : forall L e, L ∈ dw_layers dw -> e ∈ ly_errors L -> error_ok (ly_data ly) e /\ is_Some (ep_x e)).
  { intros L e [i HL]%list_elem_of_lookup He. destruct (lookup_lt_is_Some_2 (ly_data ly) i) as [p Hp]; [rewrite <- Hlen; by eapply lookup_lt_Some|].
    destruct (Hpart i p Hp) as (d & L' & Hd & Hps & HL' & HpL). rewrite HL in HL'. injection HL' as <-.
    destruct (proj1 (ls_errors _ _ _ _ _ _ _ HpL) e He) as (l & lin & g & X & j & el & Hlin & _ & _ & [Hi Hl _ (id & Hlast & Hidx) _ (xe & Hx & _)]).
    simpl in Hl. rewrite <- Hl in Hlin. split; [|by exists xe].
    assert (Hin : lin ∈ pt_Lins p) by (by eapply list_elem_of_lookup_2).
    destruct (drawable_lins data p d lin Hdr Hd Hps Hin) as (q & Hq & _ & Hr). rewrite Forall_forall in Hr.
    assert (Hid : ls_Index id ∈ indices lin) by (apply list_elem_of_fmap_2; by apply last_Some_elem_of).
    rewrite Hq in Hid. apply list_elem_of_fmap in Hid as (k & Hk & Hkq). destruct (lookup_lt_is_Some_2 (pt_History p) k) as [el' Hel']; [by apply Hr|].
    exists p, lin, id, k. rewrite Hi. split_and!; [done|done|done|done|done|]. by exists p, el'. }
  assert (Hall : forall e, e ∈ dw_layers dw ≫= ly_errors -> error_ok (ly_data ly) e /\ is_Some (ep_x e)).
  { intros e (L & He & HL)%list_elem_of_bind. by apply (Herr L). }
  unfold draw in Hdw. apply bind_Some in Hdw as (layers & _ & [= Edw]). subst dw. simpl in *. split; simpl.
  - apply Forall2_same_length_lookup. split; [done|]. intros i p L Hp HL. destruct (Hpart i p Hp) as (d & L' & Hd & Hps & HL' & HpL).
    rewrite HL in HL'. injection HL' as <-. pose proof (Hrk d Hd) as [Hfirst Hlg]. rewrite <- (ps_lins _ _ _ Hps), <- (ps_largest _ _ _ Hps) in Hlg.
    rewrite <- (ps_lins _ _ _ Hps) in Hfirst. split; [by rewrite (ls_rects _ _ _ _ _ _ _ HpL), length_fmap| | |done|done|apply HpL].
    + eapply Forall2_impl; [apply (ls_groups _ _ _ _ _ _ _ HpL)|]. by intros lin g [? _].
    + intros lin Hlin ->. destruct (drawable_lins data p d [] Hdr Hd Hps Hlin) as (q & Hq & Hne & _). by destruct q.
  - apply Forall_forall. intros e. rewrite sort_by_perm. intros He. by apply Hall.
  - apply sorted_errors. apply Forall_forall. intros e He. by apply Hall.
Qed.
End render.
