(* ===== verification/VisCanvas.v ===== *)
(** * The canvas

    What is seen on the page: the boxes are on the canvas, which is no larger than they
    need, one box is left of another exactly when the operation returned before the other
    was called, and the points are lines through the boxes. [drawn] says this of the
    drawing and of the histories and linearizations of the page only. *)

From S2P Require Import Prelude GoLib Porcupine PorcOps Visualization VisLayout VisScan VisSpec VisSolve.
From S2P Require Import VisDraw VisDrawFacts VisRender.

(** ** What is shown *)

(** [r] is the box of the element [el]. *)
Definition drawn_as (ly : Layout) (dw : Drawing) (el : El) (r : Rect) : Prop :=
  exists i p L j, ly_data ly !! i = Some p /\ dw_layers dw !! i = Some L /\ pt_History p !! j = Some el /\ ly_rects L !! j = Some r.

(** A box is as wide as its text, in the row of its client, and on the canvas: clients
    are numbered from zero. *)
Definition box_shown (px : Z) (textWidth : string -> Z) (dw : Drawing) (el : El) (r : Rect) : Prop :=
  exists rx w W, rc_x r = Some rx /\ rc_width r = Some w /\ dw_width dw = Some W /\
    (PADDING px + XOFF px <= rx /\ rx + w + PADDING px <= W /\ textWidth (el_Description el) + 2 * BOX_TEXT_PADDING px <= w)%Z /\
    rc_y r = (PADDING px + el_ClientId el * (BOX_HEIGHT px + BOX_SPACE px))%Z /\ rc_height r = BOX_HEIGHT px /\
    (rc_y r + rc_height r + PADDING px <= dw_height dw)%Z /\ ((0 <= el_ClientId el)%Z -> (PADDING px <= rc_y r)%Z).

(** The points of the linearization [lin] are lines through the boxes of its operations,
    in order and with a gap. *)
Definition lin_drawn (px : Z) (rects : list Rect) (lin : list linearizationStep) (g : Group) : Prop :=
  Forall2 (fun id ln => exists j r, ls_Index id = Z.of_nat j /\ rects !! j = Some r /\ crosses px r ln)
    lin (filter is_point (gr_lines g)) /\
  forall k a b, filter is_point (gr_lines g) !! k = Some a -> filter is_point (gr_lines g) !! S k = Some b ->
    exists xa xb, ln_x1 a = Some xa /\ ln_x1 b = Some xb /\ (xa + EPSILON px <= xb)%Z.

(** An error point is a line through the box of an element that could follow, after the
    last point of the linearization; it selects the last operation of that. *)
Definition error_drawn (px : Z) (h : list El) (rects : list Rect) (lin : list linearizationStep) (g : Group) (j : nat) (el : El)
    (e : ErrorPoint) : Prop :=
  may_follow h lin j el /\ (exists id, last lin = Some id /\ ep_index e = ls_Index id) /\
  (exists r, rects !! j = Some r /\ crosses px r (ep_line e)) /\
  exists X xe, last_point g X /\ ep_x e = Some xe /\ ln_x1 (ep_line e) = Some xe /\ (X + EPSILON px <= xe)%Z.

(** A partition of the page and its layer. *)
Record part_drawn (px : Z) (i : nat) (p : Part) (L : Layer) : Prop := {
  pn_boxes : length (ly_rects L) = length (pt_History p);
  pn_groups : Forall2 (lin_drawn px (ly_rects L)) (pt_Lins p) (ly_groups L);
  pn_error e : e ∈ ly_errors L -> ep_partition e = i /\ exists lin g j el, pt_Lins p !! ep_lin e = Some lin /\
    ly_groups L !! ep_lin e = Some g /\ error_drawn px (pt_History p) (ly_rects L) lin g j el e;
  pn_errors l lin j el : pt_Lins p !! l = Some lin -> may_follow (pt_History p) lin j el -> exists e g, e ∈ ly_errors L /\
    ep_partition e = i /\ ep_lin e = l /\ ly_groups L !! l = Some g /\ error_drawn px (pt_History p) (ly_rects L) lin g j el e;
}.

Record drawn (px : Z) (textWidth : string -> Z) (ly : Layout) (dw : Drawing) : Prop := {
  dn_box el r : drawn_as ly dw el r -> box_shown px textWidth dw el r;
  dn_before el el' r r' rx w rx' : drawn_as ly dw el r -> drawn_as ly dw el' r' ->
    rc_x r = Some rx -> rc_width r = Some w -> rc_x r' = Some rx' -> (rx + w < rx')%Z <-> (el_OriginalEnd el < el_Start el')%Z;
  dn_width el : el ∈ all_els (ly_data ly) -> exists el' r rx w, drawn_as ly dw el' r /\ rc_x r = Some rx /\ rc_width r = Some w /\
    dw_width dw = Some (rx + w + PADDING px)%Z;
  dn_height el : el ∈ all_els (ly_data ly) -> (0 <= el_ClientId el)%Z -> exists el' r, drawn_as ly dw el' r /\
    dw_height dw = (rc_y r + rc_height r + PADDING px)%Z;
  dn_parts : length (dw_layers dw) = length (ly_data ly);
  dn_part i p L : ly_data ly !! i = Some p -> dw_layers dw !! i = Some L -> part_drawn px i p L;
}.

(** ** Rows *)

Lemma fold_max_spec (l : list Z) m :
  (m <= foldl Z.max m l)%Z /\ (forall z, z ∈ l -> (z <= foldl Z.max m l)%Z) /\ (foldl Z.max m l = m \/ foldl Z.max m l ∈ l).
Proof.
  revert m. induction l as [|a l IH]; intros m; simpl; [split_and!; [lia|set_solver|by left]|].
  destruct (IH (Z.max m a)) as (H1 & H2 & H3). split_and!; [lia|intros z [->|Hz]%elem_of_cons; [lia|auto]|].
  destruct H3 as [->|H3]; [|right; by right]. destruct (Z.max_spec m a) as [[_ ->]|[_ ->]]; [right; by left|by left].
Qed.

Lemma nClient_bound ps el : el ∈ all_els ps -> (el_ClientId el < nClient ps)%Z.
Proof.
  intros Hel. unfold nClient. destruct (fold_max_spec (el_ClientId <$> all_els ps) (-1)) as (_ & H & _).
  specialize (H (el_ClientId el) (list_elem_of_fmap_2 _ _ _ Hel)). lia.
Qed.

Lemma nClient_least ps el :
  el ∈ all_els ps -> (0 <= el_ClientId el)%Z -> exists el', el' ∈ all_els ps /\ (nClient ps = el_ClientId el' + 1)%Z.
Proof.
  intros Hel H0. unfold nClient. destruct (fold_max_spec (el_ClientId <$> all_els ps) (-1)) as (_ & H & H').
  specialize (H (el_ClientId el) (list_elem_of_fmap_2 _ _ _ Hel)). destruct H' as [E|Hin]; [lia|].
  apply list_elem_of_fmap in Hin as (el' & -> & Hel'). by exists el'.
Qed.

(** ** The drawing *)

Section canvas.
Context `{!Sorter}.
Variables (px : Z) (textWidth : string -> Z) (data : list partitionVisualizationData) (ly : Layout) (dw : Drawing).
Variables (x : Z -> Z) (M : nat -> nat -> Z).
Hypothesis Hpx : (0 < px)%Z.
Hypothesis Hdr : drawable data.
Hypothesis Hr : rendered px textWidth data ly dw x M.

Lemma drawn_as_rect el r :
  drawn_as ly dw el r -> el ∈ all_els (ly_data ly) /\ r = draw_rect px (ly_xPos ly) el /\ rc_x r = Some (x (el_Start el) + XOFF px + PADDING px)%Z /\
    rc_width r = Some (x (el_End el) - x (el_Start el))%Z.
Proof.
  intros (i & p & L & j & Hp & HL & Hj & Hrj). pose proof (rd_layers _ _ _ _ _ _ _ Hr i p L Hp HL) as Hls.
  rewrite (ls_rects _ _ _ _ _ _ _ Hls), list_lookup_fmap, Hj in Hrj. injection Hrj as <-.
  assert (Hel : el ∈ all_els (ly_data ly)).
  { unfold all_els. apply list_elem_of_bind. exists p. split; by eapply list_elem_of_lookup_2. }
  split_and!; [done|done|..]; unfold draw_rect; simpl;
    rewrite !(lo_xPos _ _ _ _ _ (rd_laid _ _ _ _ _ _ _ Hr)) by (by exists el; auto); done.
Qed.

Lemma el_drawn el : el ∈ all_els (ly_data ly) -> drawn_as ly dw el (draw_rect px (ly_xPos ly) el).
Proof.
  unfold all_els. intros (p & [j Hj]%list_elem_of_lookup & [i Hp]%list_elem_of_lookup)%list_elem_of_bind.
  destruct (lookup_lt_is_Some_2 (dw_layers dw) i) as [L HL]; [rewrite (rd_length _ _ _ _ _ _ _ Hr); by eapply lookup_lt_Some|].
  exists i, p, L, j. pose proof (rd_layers _ _ _ _ _ _ _ Hr i p L Hp HL) as Hls.
  split_and!; [done..|]. by rewrite (ls_rects _ _ _ _ _ _ _ Hls), list_lookup_fmap, Hj.
Qed.

(** Positions are in the order of times. *)
Lemma x_le t t' : time_of (ly_data ly) t -> time_of (ly_data ly) t' -> (t <= t')%Z -> (x t <= x t')%Z.
Proof.
  intros Ht Ht' Hle. destruct (decide (t = t')) as [->|Hne]; [lia|].
  pose proof (pgf_apart _ _ _ _ _ (lo_fits _ _ _ _ _ (rd_laid _ _ _ _ _ _ _ Hr)) t t' Ht Ht' ltac:(lia)). unfold BOX_GAP in *. lia.
Qed.

Lemma x_lt t t' : time_of (ly_data ly) t -> time_of (ly_data ly) t' -> (x t < x t')%Z <-> (t < t')%Z.
Proof.
  intros Ht Ht'. split; intros Hlt.
  - destruct (decide (t' <= t)%Z) as [Hle|]; [|lia]. pose proof (x_le t' t Ht' Ht Hle). lia.
  - pose proof (pgf_apart _ _ _ _ _ (lo_fits _ _ _ _ _ (rd_laid _ _ _ _ _ _ _ Hr)) t t' Ht Ht' Hlt). unfold BOX_GAP in *. lia.
Qed.

Lemma dw_height_eq : dw_height dw = (2 * PADDING px + BOX_HEIGHT px * nClient (ly_data ly) + BOX_SPACE px * (nClient (ly_data ly) - 1))%Z.
Proof. pose proof (rd_draw _ _ _ _ _ _ _ Hr) as Hdw. unfold draw in Hdw. by apply bind_Some in Hdw as (layers & _ & [= <-]). Qed.

Lemma dw_width_eq : dw_width dw = nadd (last_pos ly) (2 * PADDING px + XOFF px)%Z.
Proof. pose proof (rd_draw _ _ _ _ _ _ _ Hr) as Hdw. unfold draw in Hdw. by apply bind_Some in Hdw as (layers & _ & [= <-]). Qed.

Lemma rendered_box el r : drawn_as ly dw el r -> box_shown px textWidth dw el r.
Proof.
  intros Has. destruct (drawn_as_rect el r Has) as (Hel & Hre & Hx & Hw). destruct Has as (i & p & L & j & Hp & HL & Hj & Hrj).
  pose proof (rd_layers _ _ _ _ _ _ _ Hr i p L Hp HL) as Hls.
  destruct (ls_rect _ _ _ _ _ _ _ Hls j el Hj) as (r' & rx & w & W & Hr' & Hrx & Hrw & Hy & Hh & Htx & Hoff & HW & Hle).
  rewrite Hrj in Hr'. injection Hr' as <-. exists rx, w, W. pose proof (nClient_bound _ _ Hel) as Hn.
  split_and!; [done|done|done|done|lia|done|done|done|..]; rewrite ?Hy, ?Hh, ?dw_height_eq; unfold row, BOX_HEIGHT, BOX_SPACE, PADDING in *; nia.
Qed.

Lemma rendered_before el el' r r' rx w rx' :
  drawn_as ly dw el r -> drawn_as ly dw el' r' -> rc_x r = Some rx -> rc_width r = Some w -> rc_x r' = Some rx' ->
  (rx + w < rx')%Z <-> (el_OriginalEnd el < el_Start el')%Z.
Proof.
  intros Has Has' Hrx Hw Hrx'. destruct (drawn_as_rect el r Has) as (Hel & _ & Hx & Hwd).
  destruct (drawn_as_rect el' r' Has') as (Hel' & _ & Hx' & _). rewrite Hx in Hrx. rewrite Hwd in Hw. rewrite Hx' in Hrx'. simplify_eq.
  rewrite <- (em_before _ (rd_ends _ _ _ _ _ _ _ Hr) el el' Hel Hel'), <- (x_lt (el_End el) (el_Start el')); [lia|exists el; auto|exists el'; auto].
Qed.

(** The last time is the end of an element. *)
Lemma rendered_width el : el ∈ all_els (ly_data ly) -> exists el' r rx w, drawn_as ly dw el' r /\ rc_x r = Some rx /\ rc_width r = Some w /\
  dw_width dw = Some (rx + w + PADDING px)%Z.
Proof.
  intros Hel. assert (Hin : el_Start el ∈ ly_times ly) by (apply (rd_times _ _ _ _ _ _ _ Hr); by exists el; auto).
  destruct (last (ly_times ly)) as [t|] eqn:Hl; [|apply last_None in Hl; rewrite Hl in Hin; by apply not_elem_of_nil in Hin].
  assert (Ht : time_of (ly_data ly) t) by (apply (rd_times _ _ _ _ _ _ _ Hr); by apply last_Some_elem_of).
  assert (Ht' := Ht). destruct Ht' as (e & He & Hte). exists e, (draw_rect px (ly_xPos ly) e). pose proof (el_drawn e He) as Has.
  destruct (drawn_as_rect e _ Has) as (_ & _ & Hx & Hw). eexists _, _. split_and!; [done|done|done|].
  destruct (rendered_box e _ Has) as (rx & w & W & Hrx & Hrw & HW & (_ & Hle & _) & _). rewrite Hx in Hrx. rewrite Hw in Hrw. simplify_eq.
  rewrite HW. f_equal. rewrite dw_width_eq in HW. unfold last_pos in HW.
  rewrite Hl, (lo_xPos _ _ _ _ _ (rd_laid _ _ _ _ _ _ _ Hr) t Ht) in HW. injection HW as HW.
  assert (x t <= x (el_End e))%Z; [|lia]. apply x_le; [done|exists e; auto|].
  pose proof (em_later _ (rd_ends _ _ _ _ _ _ _ Hr) e He). assert (el_Start e <= el_OriginalEnd e)%Z; [|lia].
  unfold all_els in He. apply list_elem_of_bind in He as (p & [j Hj]%list_elem_of_lookup & [i Hp]%list_elem_of_lookup).
  destruct (Forall2_lookup_l _ _ _ _ _ (rd_data _ _ _ _ _ _ _ Hr) Hp) as (d & Hd & Hps).
  destruct (ps_el _ _ _ Hps j e Hj) as (_ & he & Hhe & _ & -> & -> & _).
  pose proof (dr_times _ Hdr d he (list_elem_of_lookup_2 _ _ _ Hd) (list_elem_of_lookup_2 _ _ _ Hhe)). lia.
Qed.

Lemma rendered_height el : el ∈ all_els (ly_data ly) -> (0 <= el_ClientId el)%Z -> exists el' r, drawn_as ly dw el' r /\
  dw_height dw = (rc_y r + rc_height r + PADDING px)%Z.
Proof.
  intros Hel H0. destruct (nClient_least _ el Hel H0) as (e & He & Hn). exists e, (draw_rect px (ly_xPos ly) e).
  split; [by apply el_drawn|]. rewrite dw_height_eq, Hn. simpl. unfold row. lia.
Qed.

Lemma rendered_drawn : drawn px textWidth ly dw.
Proof.
  split; [apply rendered_box|apply rendered_before|apply rendered_width|apply rendered_height|apply Hr|].
  intros i p L Hp HL. destruct (rd_layers _ _ _ _ _ _ _ Hr i p L Hp HL) as [_ Hrects Hgs [He1 He2] _]. split.
  - by rewrite Hrects, length_fmap.
  - eapply Forall2_impl; [exact Hgs|]. intros lin g [_ Hps]. unfold lin_drawn. rewrite Hrects. exact Hps.
  - intros e He. destruct (He1 e He) as (l & lin & g & X & j & el & Hl & Hg & HX & [Hpi Hli Hm Hid Hc (xe & Ha)]). split; [done|].
    simpl in Hli. exists lin, g, j, el. rewrite Hli, Hrects. split_and!; [done|done|]. unfold error_drawn. split_and!; [done|done|done|by exists X, xe].
  - intros l lin j el Hl Hm. destruct (He2 l lin j el Hl Hm) as (e & g & X & He & Hg & HX & [Hpi Hli _ Hid Hc (xe & Ha)]).
    exists e, g. rewrite Hrects. split_and!; [done|done|done|done|]. unfold error_drawn. split_and!; [done|done|done|by exists X, xe].
Qed.
End canvas.
