(* ===== verification/PorcKv.v ===== *)
(** * The key/value model: src/src/models/kv.go

    [KvModel] checks the operations on each key on their own. The second half shows
    that this is right: a history is linearizable as operations on a map of keys to
    values exactly when the operations on each key are linearizable as operations
    on one value, the contract of [Partition] in src/src/porcupine/model.go. *)

From S2P Require Import Prelude GoLib Mrapps PorcList Porcupine PorcCorrect PorcLinear PorcOps.

(** ** kv.go *)

Record KvInput := mkKvInput { kv_Op : Z; kv_Key : string; kv_Value : string }.
Record KvOutput := mkKvOutput { out_Value : string }.

(** The [interface{}] values of a key/value history. *)
Inductive KvValue := InValue (i : KvInput) | OutValue (o : KvOutput).

Abbreviation KvOperation := (Operation KvValue).

(** The key of an operation, whose input is a [KvInput]. *)
Definition op_key (o : KvOperation) : string :=
  match op_Input o with InValue i => kv_Key i | OutValue _ => "" end.

(** [m[key] = append(m[key], v)] for every operation. *)
Definition group_by_key (history : list KvOperation) : gmap string (list KvOperation) :=
  foldl (fun m v => <[op_key v := default [] (m !! op_key v) ++ [v]]> m) ∅ history.

Definition kvPartition `{!Sorter} (history : list KvOperation) : list (list KvOperation) :=
  let m := group_by_key history in
  (fun k => default [] (m !! k)) <$> Strings (elements (dom m)).

(** The type assertions of the model hold: the input is a [KvInput] and the output a
    [KvOutput]. On other operations the functions of the model panic; below they
    are given some value there. *)
Definition kv_typed (o : KvOperation) : Prop :=
  match op_Input o, op_Output o with InValue _, OutValue _ => True | _, _ => False end.

(** [Step], for a [KvInput] and a [KvOutput] (see [kv_typed]). *)
Definition kvStep (state : string) (input output : KvValue) : bool * string :=
  match input, output with
  | InValue inp, OutValue out =>
      if decide (kv_Op inp = 0%Z) then (bool_decide (out_Value out = state), state)
      else if decide (kv_Op inp = 1%Z) then (true, kv_Value inp)
      else (true, state +:+ kv_Value inp)
  | _, _ => (false, state)
  end.

(** [DescribeOperation], likewise. *)
Definition kvDescribeOperation (input output : KvValue) : string :=
  match input, output with
  | InValue inp, OutValue out =>
      if decide (kv_Op inp = 0%Z) then "get('" +:+ kv_Key inp +:+ "') -> '" +:+ out_Value out +:+ "'"
      else if decide (kv_Op inp = 1%Z) then "put('" +:+ kv_Key inp +:+ "', '" +:+ kv_Value inp +:+ "')"
      else if decide (kv_Op inp = 2%Z) then "append('" +:+ kv_Key inp +:+ "', '" +:+ kv_Value inp +:+ "')"
      else "<invalid>"
  | _, _ => ""
  end.

Definition KvModel `{!Sorter} : Model KvValue string := mkModel (Some kvPartition) None "" kvStep None.

(** ** The whole store *)

(** What the key/value service promises, independently of the code: a get returns the
    value of its key, or the empty string, and changes nothing; a put (1) replaces the
    value and any other operation appends to it. *)
Definition storeStep (store : gmap string string) (input output : KvValue)
    : bool * gmap string string :=
  match input, output with
  | InValue inp, OutValue out =>
      let current := default "" (store !! kv_Key inp) in
      if decide (kv_Op inp = 0%Z) then (bool_decide (out_Value out = current), store)
      else if decide (kv_Op inp = 1%Z) then (true, <[kv_Key inp := kv_Value inp]> store)
      else (true, <[kv_Key inp := current +:+ kv_Value inp]> store)
  | _, _ => (false, store)
  end.

Definition storeModel : FullModel KvValue (gmap string string) :=
  mkFull NoPartition NoPartitionEvent ∅ storeStep (fun a b => bool_decide (a = b)).

Definition keyModel : FullModel KvValue string :=
  mkFull NoPartition NoPartitionEvent "" kvStep (fun a b => bool_decide (a = b)).

(** ** Linearizations without indices *)

Section order.
Context {V St : Type}.
Variable model : FullModel V St.
Implicit Types (ops q : list (Operation V)) (s : St).

Fixpoint legal_ops s q : Prop :=
  match q with
  | [] => True
  | o :: q => exists s', Step model s (op_Input o) (op_Output o) = (true, s') /\ legal_ops s' q
  end.

Definition in_time q : Prop := forall o o', precedes q o o' -> ~ (op_Return o' < op_Call o)%Z.

Definition Linearization ops q : Prop := q ≡ₚ ops /\ legal_ops (Init model) q /\ in_time q.

Lemma legal_indices ops s p q :
  Forall2 (fun i o => ops !! i = Some o) p q -> legal model ops s p <-> legal_ops s q.
Proof.
  intros Hf. revert s. induction Hf as [|i o p q Hi Hf IH]; intros s; simpl; [done|]. split.
  - intros (o' & s' & Ho & Hs & Hl). rewrite Hi in Ho. injection Ho as <-. exists s'. by rewrite <- IH.
  - intros (s' & Hs & Hl). exists o, s'. by rewrite IH.
Qed.

Lemma Forall2_precedes ops p q i j :
  Forall2 (fun i o => ops !! i = Some o) p q -> precedes p i j ->
  exists o o', ops !! i = Some o /\ ops !! j = Some o' /\ precedes q o o'.
Proof.
  induction 1 as [|k o p q Hk Hf IH]; simpl; [done|]. intros [[-> Hj]|Hp].
  - apply list_elem_of_lookup in Hj as [x Hx].
    destruct (Forall2_lookup_l _ _ _ _ _ Hf Hx) as (o' & Ho' & Hoo).
    exists o, o'. split_and!; [done..|]. left. split; [done|]. by eapply list_elem_of_lookup_2.
  - destruct (IH Hp) as (o1 & o2 & ? & ? & ?). exists o1, o2. auto.
Qed.

Lemma Forall2_precedes_inv ops p q o o' :
  Forall2 (fun i o => ops !! i = Some o) p q -> precedes q o o' ->
  exists i j, ops !! i = Some o /\ ops !! j = Some o' /\ precedes p i j.
Proof.
  induction 1 as [|k o1 p q Hk Hf IH]; simpl; [done|]. intros [[-> Hj]|Hp].
  - apply list_elem_of_lookup in Hj as [x Hx].
    destruct (Forall2_lookup_r _ _ _ _ _ Hf Hx) as (j & Hj & Hoo).
    exists k, j. split_and!; [done..|]. left. split; [done|]. by eapply list_elem_of_lookup_2.
  - destruct (IH Hp) as (i & j & ? & ? & ?). exists i, j. auto.
Qed.

Lemma fmap_lookup_seq ops : Forall2 (fun i o => ops !! i = Some o) (seq 0 (length ops)) ops.
Proof.
  apply Forall2_same_length_lookup. split; [by rewrite length_seq|]. intros k i o Hi Ho.
  apply lookup_seq in Hi as [-> _]. done.
Qed.

(** Permuting the indices and permuting the operations. *)
Lemma perm_indices ops p :
  p ≡ₚ seq 0 (length ops) -> exists q, Forall2 (fun i o => ops !! i = Some o) p q /\ q ≡ₚ ops.
Proof.
  intros Hp. symmetry in Hp.
  destruct (Permutation_Forall2 Hp (fmap_lookup_seq ops)) as (q & Hq & Hf). by exists q.
Qed.

Lemma perm_ops ops q :
  q ≡ₚ ops -> exists p, Forall2 (fun i o => ops !! i = Some o) p q /\ p ≡ₚ seq 0 (length ops).
Proof.
  intros Hq. symmetry in Hq. pose proof (fmap_lookup_seq ops) as Hf. apply Forall2_flip in Hf.
  destruct (Permutation_Forall2 Hq Hf) as (p & Hp & Hf'). exists p.
  split; [by apply Forall2_flip|done].
Qed.

Lemma Linearizable_ops ops : Linearizable model ops <-> exists q, Linearization ops q.
Proof.
  split.
  - intros (p & Hp & Hl & Hrt). destruct (perm_indices ops p Hp) as (q & Hf & Hq).
    exists q. split_and!; [done|by rewrite <- legal_indices|]. intros o o' Hpr Hlt.
    destruct (Forall2_precedes_inv _ _ _ _ _ Hf Hpr) as (i & j & Hi & Hj & Hij).
    apply (Hrt i j Hij). by exists o', o.
  - intros (q & Hq & Hl & Hrt). destruct (perm_ops ops q Hq) as (p & Hf & Hp).
    exists p. split_and!; [done|by rewrite legal_indices|]. intros i j Hij (o & o' & Ho & Ho' & Hlt).
    destruct (Forall2_precedes _ _ _ _ _ Hf Hij) as (o1 & o2 & Ho1 & Ho2 & Hpr).
    apply (Hrt o1 o2 Hpr). rewrite Ho in Ho2. rewrite Ho' in Ho1. by simplify_eq.
Qed.
End order.

(** ** Operations by key *)

Definition of_key (k : string) (o : KvOperation) : Prop := op_key o = k.

#[export] Instance of_key_dec k o : Decision (of_key k o).
Proof. unfold of_key. apply _. Defined.

Lemma group_by_key_spec history k :
  default [] (group_by_key history !! k) = filter (of_key k) history /\
  (k ∈ dom (group_by_key history) <-> k ∈ op_key <$> history).
Proof.
  unfold group_by_key. rewrite <- (reverse_involutive history). generalize (reverse history) as l.
  intros l. induction l as [|v l [IH1 IH2]]; [split; [done|]; simpl; set_solver|].
  rewrite reverse_cons, foldl_app. simpl. split.
  - rewrite lookup_insert, filter_app, filter_cons. case_decide as Hk.
    + subst k. rewrite decide_True by done. simpl. by rewrite IH1.
    + rewrite decide_False by done. by rewrite filter_nil, app_nil_r, IH1.
  - rewrite dom_insert_L, elem_of_union, elem_of_singleton, IH2, fmap_app. simpl. set_solver.
Qed.

Lemma kvPartition_spec `{!Sorter} history :
  exists ks, NoDup ks /\ (forall k, k ∈ ks <-> k ∈ op_key <$> history) /\
    kvPartition history = (fun k => filter (of_key k) history) <$> ks.
Proof.
  unfold kvPartition. exists (Strings (elements (dom (group_by_key history)))). split_and!.
  - unfold Strings. rewrite sort_by_perm. apply (NoDup_elements (dom (group_by_key history))).
  - intros k. unfold Strings. rewrite sort_by_perm, elem_of_elements. apply group_by_key_spec.
  - apply list_fmap_ext. intros i k _. apply group_by_key_spec.
Qed.

(** A step of the store is the step of the model on the value of the key. *)
Lemma storeStep_key st inp out ok st' :
  storeStep st (InValue inp) out = (ok, st') ->
  exists v, kvStep (default "" (st !! kv_Key inp)) (InValue inp) out = (ok, v) /\
    forall k, default "" (st' !! k) = if decide (kv_Key inp = k) then v else default "" (st !! k).
Proof.
  unfold storeStep, kvStep. destruct out as [i|o]; [intros [= <- <-]; eexists; split; [done|]; intros k; by case_decide; subst|].
  destruct (decide (kv_Op inp = 0%Z)); [|destruct (decide (kv_Op inp = 1%Z))]; intros [= <- <-]; eexists; (split; [done|]);
    intros k; rewrite ?lookup_insert; by case_decide; subst.
Qed.

(** A sequence of operations is legal for the store exactly when the operations on
    each key are legal for the value of that key. *)
Lemma legal_store st q :
  legal_ops storeModel st q <->
  forall k, legal_ops keyModel (default "" (st !! k)) (filter (of_key k) q).
Proof.
  revert st. induction q as [|o q IH]; intros st; simpl; [done|].
  destruct (op_Input o) as [inp|out] eqn:Hin.
  - assert (Hkey : of_key (kv_Key inp) o) by (unfold of_key, op_key; by rewrite Hin).
    assert (Hother : forall k, kv_Key inp <> k -> ~ of_key k o) by (unfold of_key in *; congruence).
    destruct (storeStep st (InValue inp) (op_Output o)) as [ok st'] eqn:Hst.
    destruct (storeStep_key _ _ _ _ _ Hst) as (v & Hs & Hst'). split.
    + intros (st2 & [= -> <-] & Hl) k. rewrite IH in Hl. specialize (Hl k). rewrite Hst' in Hl. case_decide as Hk.
      * subst k. rewrite filter_cons_True by done. exists v. by rewrite Hin.
      * by rewrite filter_cons_False by auto.
    + intros Hl. pose proof (Hl (kv_Key inp)) as H0. rewrite filter_cons_True in H0 by done.
      destruct H0 as (v' & Hs' & H0). rewrite Hin in Hs'. change (Step keyModel) with kvStep in Hs'. rewrite Hs in Hs'.
      injection Hs' as -> <-. eexists. split; [done|]. apply IH. intros k. rewrite Hst'.
      case_decide as Hk; [by subst k|]. specialize (Hl k). by rewrite filter_cons_False in Hl by auto.
  - split; [by intros (? & ? & _)|]. intros Hl. specialize (Hl "").
    rewrite filter_cons_True in Hl by (unfold of_key, op_key; by rewrite Hin).
    destruct Hl as (s' & Hs & _). by rewrite Hin in Hs.
Qed.

(** ** Merging the linearizations of the keys *)

(** Each operation with a time at which it takes effect: the latest call so far. *)
Fixpoint points {V} (t : Z) (q : list (Operation V)) : list (Z * Operation V) :=
  match q with
  | [] => []
  | o :: q => let t' := Z.max t (op_Call o) in (t', o) :: points t' q
  end.

Definition earlier {V} (a b : Z * Operation V) : Prop := (a.1 <= b.1)%Z.

#[export] Instance earlier_dec {V} : RelDecision (@earlier V).
Proof. intros a b. unfold earlier. apply _. Defined.

#[export] Instance earlier_trans {V} : Transitive (@earlier V).
Proof. intros a b c. unfold earlier. lia. Qed.

#[export] Instance earlier_total {V} : Total (@earlier V).
Proof. intros a b. unfold earlier. lia. Qed.

(** The time of an operation is between its call and its return. *)
Definition in_interval {V} (x : Z * Operation V) : Prop := (op_Call x.2 <= x.1 <= op_Return x.2)%Z.

Lemma points_ops {V} t (q : list (Operation V)) : (points t q).*2 = q.
Proof. revert t. induction q as [|o q IH]; intros t; simpl; [done|]. f_equal. apply IH. Qed.

Lemma points_sorted {V} t (q : list (Operation V)) : Sorted earlier (points t q).
Proof.
  revert t. induction q as [|o q IH]; intros t; simpl; [constructor|]. constructor; [apply IH|].
  destruct q; simpl; constructor. unfold earlier; simpl. lia.
Qed.

Lemma points_interval {V} t (q : list (Operation V)) :
  times_ok q -> in_time q -> Forall (fun o => (t <= op_Return o)%Z) q -> Forall in_interval (points t q).
Proof.
  intros Ht. revert t. induction Ht as [|o q Ho Hq IH]; intros t Hin Hr; simpl; [constructor|].
  inversion_clear Hr as [|? ? Hro Hrq]. constructor; [unfold in_interval; simpl; lia|]. apply IH.
  - intros x y Hp. apply Hin. by right.
  - apply Forall_forall. intros x Hx. rewrite Forall_forall in Hrq. specialize (Hrq x Hx).
    specialize (Hin o x ltac:(by left)). lia.
Qed.

Lemma filter_merge {V} (P : Z * Operation V -> Prop) `{!forall x, Decision (P x)} l1 l2 :
  Forall P l1 -> Forall (fun x => ~ P x) l2 ->
  filter P (list_merge earlier l1 l2) = l1 /\ filter (fun x => ~ P x) (list_merge earlier l1 l2) = l2.
Proof.
  intros H1. revert l2. induction H1 as [|x l1 Hx H1 IH1]; intros l2 H2.
  - rewrite list_merge_nil_l. split; [by apply filter_Forall_nil|by apply filter_Forall_id].
  - induction H2 as [|y l2 Hy H2 IH2].
    + rewrite list_merge_nil_r. split; [apply filter_Forall_id; by constructor|].
      apply filter_Forall_nil. constructor; [tauto|]. eapply Forall_impl; [done|]. tauto.
    + rewrite list_merge_cons. case_decide.
      * destruct (IH1 (y :: l2)) as [Ha Hb]; [by constructor|].
        rewrite filter_cons_True, filter_cons_False by tauto. by rewrite Ha, Hb.
      * destruct IH2 as [Ha Hb]. rewrite filter_cons_False, filter_cons_True by tauto. by rewrite Ha, Hb.
Qed.

Lemma filter_snd {V} (P : Operation V -> Prop) `{!forall o, Decision (P o)} (C : list (Z * Operation V)) :
  filter P C.*2 = (filter (fun x => P x.2) C).*2.
Proof.
  induction C as [|x C IH]; [done|]. rewrite fmap_cons. destruct (decide (P x.2)).
  - rewrite !filter_cons_True by done. by rewrite IH, fmap_cons.
  - by rewrite !filter_cons_False by done.
Qed.

(** The merge of the linearizations of the keys [ks]. *)
Lemma merge_keys (q : string -> list KvOperation) ks :
  NoDup ks ->
  (forall k, k ∈ ks -> Forall (of_key k) (q k) /\ times_ok (q k) /\ in_time (q k)) ->
  exists C, Sorted earlier C /\ Forall in_interval C /\ C.*2 ≡ₚ mjoin (q <$> ks) /\
    forall k, filter (of_key k) C.*2 = if decide (k ∈ ks) then q k else [].
Proof.
  induction 1 as [|k ks Hk Hnd IH]; intros Hq.
  { exists []. split_and!; [constructor..|done|]. intros k. case_decide as Hk; [by apply not_elem_of_nil in Hk|done]. }
  destruct IH as (C & Hs & Hint & Hperm & Hfil); [intros k' ?; apply Hq; by right|].
  destruct (Hq k) as (Hkey & Ht & Hin); [by left|].
  assert (Hpts : exists A, A.*2 = q k /\ Sorted earlier A /\ Forall in_interval A).
  { destruct (q k) as [|o l] eqn:Hqk; [exists []; split_and!; [done|constructor|constructor]|]. exists (points (op_Call o) (o :: l)).
    split_and!; [apply points_ops|apply points_sorted|]. apply points_interval; [done|done|].
    inversion_clear Ht as [|? ? Ho Hl]. constructor; [done|]. apply Forall_forall. intros x Hx.
    specialize (Hin o x ltac:(by left)). lia. }
  destruct Hpts as (A & HA & HsA & HiA).
  assert (Hno : forall x, x ∈ C -> ~ of_key k x.2).
  { intros x Hx Hkx. assert (Hxf : x.2 ∈ filter (of_key k) C.*2).
    { apply list_elem_of_filter. split; [done|]. by apply list_elem_of_fmap_2. }
    rewrite Hfil, decide_False in Hxf by done. set_solver. }
  assert (HPA : Forall (fun x : Z * KvOperation => of_key k x.2) A)
    by (rewrite <- HA, Forall_fmap in Hkey; done).
  destruct (filter_merge (fun x => of_key k x.2) A C) as [Hf1 Hf2];
    [done|by apply Forall_forall|].
  exists (list_merge earlier A C). split_and!.
  - by apply Sorted_list_merge; [apply _|..].
  - rewrite merge_Permutation. by apply Forall_app_2.
  - rewrite merge_Permutation, fmap_app, HA, Hperm. done.
  - intros k'. rewrite filter_snd. destruct (decide (k' = k)) as [->|Hne].
    + rewrite decide_True by (by left). rewrite <- HA. f_equal. exact Hf1.
    + assert (Hrest : filter (fun x : Z * KvOperation => of_key k' x.2) (list_merge earlier A C)
        = filter (fun x => of_key k' x.2) C).
      { rewrite <- Hf2 at 2. rewrite list_filter_filter. apply list_filter_iff.
        intros x. unfold of_key. naive_solver. }
      rewrite Hrest. specialize (Hfil k'). rewrite filter_snd in Hfil.
      rewrite Hfil. by rewrite (decide_ext (k' ∈ k :: ks) (k' ∈ ks)) by set_solver.
Qed.

Lemma sorted_in_time {V} (C : list (Z * Operation V)) :
  Sorted earlier C -> Forall in_interval C -> in_time C.*2.
Proof.
  intros Hs Hint o o' (x & y & -> & -> & (i & j & Hij & Hi & Hj)%precedes_lookup)%precedes_fmap_inv.
  apply Sorted_StronglySorted in Hs; [|apply _].
  pose proof (StronglySorted_lookup _ _ i j x y Hs Hij Hi Hj) as Hxy.
  pose proof (Forall_lookup_1 _ _ _ _ Hint Hi) as Hx. pose proof (Forall_lookup_1 _ _ _ _ Hint Hj) as Hy.
  unfold earlier, in_interval in *. lia.
Qed.

Lemma in_time_filter {V} (P : Operation V -> Prop) `{!forall o, Decision (P o)} q :
  in_time q -> in_time (filter P q).
Proof. intros Hq o o' (_ & _ & Hp)%precedes_filter. by apply Hq. Qed.

(** A choice of linearizations, one for each key of a list. *)
Lemma choose_keys ops ks :
  NoDup ks -> (forall k, k ∈ ks -> exists q, Linearization keyModel (filter (of_key k) ops) q) ->
  exists q, forall k, k ∈ ks -> Linearization keyModel (filter (of_key k) ops) (q k).
Proof.
  induction 1 as [|k ks Hk Hnd IH]; intros Hq; [exists (fun _ => []); set_solver|].
  destruct IH as [q Hqs]; [intros k' ?; apply Hq; by right|].
  destruct (Hq k) as [qk Hqk]; [by left|]. exists (fun k' => if decide (k' = k) then qk else q k').
  intros k' [->|Hk']%elem_of_cons; [by rewrite decide_True|]. rewrite decide_False; [auto|].
  by intros ->.
Qed.

(** ** Locality *)

Lemma store_linearizable_iff ops ks :
  times_ok ops -> NoDup ks -> (forall k, k ∈ ks <-> k ∈ op_key <$> ops) ->
  Linearizable storeModel ops <->
  Forall (Linearizable keyModel) ((fun k => filter (of_key k) ops) <$> ks).
Proof.
  intros Ht Hnd Hks. rewrite Linearizable_ops, Forall_fmap, Forall_forall. simpl.
  setoid_rewrite Linearizable_ops. split.
  - intros (q & Hp & Hl & Hin) k Hk. exists (filter (of_key k) q). split_and!.
    + by rewrite Hp.
    + by apply legal_store with (k := k) in Hl.
    + by apply in_time_filter.
  - intros Hall. destruct (choose_keys ops ks Hnd Hall) as [q Hq].
    assert (Hmem : forall k, k ∈ ks -> forall o, o ∈ q k -> of_key k o /\ o ∈ ops).
    { intros k Hk o. rewrite (proj1 (Hq k Hk)), list_elem_of_filter. done. }
    destruct (merge_keys q ks Hnd) as (C & Hs & Hint & Hperm & Hfil).
    { intros k Hk. rewrite !Forall_forall. split_and!; [by intros o [? _]%(Hmem k Hk)| |by apply Hq].
      apply Forall_forall. intros o [_ Ho]%(Hmem k Hk). exact (proj1 (Forall_forall _ _) Ht o Ho). }
    exists C.*2. split_and!; [|apply legal_store; intros k; rewrite Hfil|by apply sorted_in_time].
    + rewrite Hperm. etrans; [|apply (filter_classes_perm op_key ks ops Hnd)].
      * assert (Hpw : forall l, (forall k, k ∈ l -> k ∈ ks) ->
          mjoin (q <$> l) ≡ₚ mjoin ((fun c => filter (fun x => op_key x = c) ops) <$> l)).
        { induction l as [|k l IHl]; intros Hl; simpl; [done|]. rewrite IHl by set_solver.
          by rewrite (proj1 (Hq k ltac:(set_solver))). }
        by apply Hpw.
      * apply Forall_forall. intros o Ho. apply Hks. by apply list_elem_of_fmap_2.
    + simpl. rewrite lookup_empty. simpl. case_decide as Hk; [by apply Hq|done].
Qed.
