(* ===== verification/PorcTheorems.v ===== *)
(** * What the linearizability checker guarantees

    The claims about src/src/porcupine and src/src/models/kv.go, with a small
    key/value history on which they are run. *)

From S2P Require Import Prelude GoLib Bitset PorcList Porcupine PorcSearch PorcLink PorcCorrect.
From S2P Require Import PorcLinear PorcOps PorcPartial PorcCheck PorcEvents Visualization PorcKv.

(** The default comparison of states is equality. *)
Lemma default_equal_sound {V St} `{!EqDecision St} (model : Model V St) :
  mo_Equal model = None -> EqualSound (fillDefault model).
Proof.
  intros He s t i o. unfold fillDefault; simpl. rewrite He. unfold ShallowEqual; simpl.
  rewrite bool_decide_eq_true. intros ->. split; [done|]. by rewrite bool_decide_eq_true.
Qed.

#[export] Instance kvModel_equal_sound `{!Sorter} : EqualSound (fillDefault KvModel).
Proof. by apply default_equal_sound. Qed.

(** ** A small history *)

Module KvHistory.
Definition op (client kind : Z) (key value : string) (call : Z) (out : string) (ret : Z) : KvOperation :=
  mkOperation client (InValue (mkKvInput kind key value)) call (OutValue (mkKvOutput out)) ret.

(** Two overlapping writers and readers of "x", one append to "y". *)
Definition good : list KvOperation :=
  [op 0 1 "x" "a" 0 "" 10; op 1 1 "x" "b" 5 "" 15; op 0 0 "x" "" 12 "a" 20; op 2 2 "y" "c" 3 "" 4;
   op 1 0 "x" "" 25 "b" 30; op 2 0 "y" "" 6 "c" 8].

(** A read of "x" that misses a write which had returned. *)
Definition bad : list KvOperation :=
  [op 0 1 "x" "a" 0 "" 10; op 1 0 "x" "" 12 "" 20; op 2 1 "y" "c" 3 "" 4].

Definition nilV : KvValue := OutValue (mkKvOutput "").
Definition parts (history : list KvOperation) := operation_parts (fillDefault KvModel) history.

Lemma good_times : times_ok good.
Proof. repeat constructor; simpl; lia. Qed.

Lemma bad_times : times_ok bad.
Proof. repeat constructor; simpl; lia. Qed.

Ltac run := eexists; exists 100; vm_compute; reflexivity.

Lemma good_arrive : all_arrive nilV (fillDefault KvModel) false (parts good) [Result true; Result true].
Proof. exists [true; true]. split; [|done]. repeat constructor; run. Qed.

Lemma bad_arrive : all_arrive nilV (fillDefault KvModel) false (parts bad) [Result true; Result false].
Proof. exists [false; true]. split; [repeat constructor; run|]. simpl. apply Permutation_swap. Qed.

(** The goroutine of "y" sends its result, then the timer fires. *)
Lemma good_timeout :
  some_arrive nilV (fillDefault KvModel) false (parts good) [Result true; TimedOut; Result false].
Proof.
  exists [makeEntries (filter (of_key "y") good)], [true], [Result false]. split_and!; [|repeat constructor; run|done].
  vm_compute. apply submseteq_cons. reflexivity.
Qed.
End KvHistory.

(** A put that overlaps a get, then a get of the old value after both had returned;
    the identifiers are not in the order of the calls. *)
Module KvEvents.
Definition call (client id kind : Z) (value : string) : Event KvValue :=
  mkEvent client CallEvent (InValue (mkKvInput kind "x" value)) id.
Definition ret (client id : Z) (out : string) : Event KvValue :=
  mkEvent client ReturnEvent (OutValue (mkKvOutput out)) id.

Definition stale : list (Event KvValue) :=
  [call 0 7 1 "a"; call 1 3 0 ""; ret 1 3 "a"; ret 0 7 ""; call 1 5 0 ""; ret 1 5 ""].

Lemma stale_operations : op_Call <$> operations stale = [0; 1; 4]%Z /\ op_Return <$> operations stale = [3; 2; 5]%Z.
Proof. done. Qed.

Lemma stale_complete : complete_events stale.
Proof.
  split.
  - apply (bool_decide_unpack _). vm_compute. exact I.
  - intros j w Hj Hw. destruct j as [|[|[|[|[|[|j]]]]]]; try discriminate Hj; injection Hj as <-; try discriminate.
    + exists 1, (call 1 3 0 ""). split_and!; [lia|done..].
    + exists 0, (call 0 7 1 "a"). split_and!; [lia|done..].
    + exists 4, (call 1 5 0 ""). split_and!; [lia|done..].
  - intros i v Hi Hv. destruct i as [|[|[|[|[|[|i]]]]]]; try discriminate Hi; injection Hi as <-; try discriminate.
    + exists 3, (ret 0 7 ""). split_and!; [lia|done..].
    + exists 2, (ret 1 3 "a"). split_and!; [lia|done..].
    + exists 5, (ret 1 5 ""). split_and!; [lia|done..].
Qed.

Lemma stale_arrive :
  all_arrive KvHistory.nilV (fillDefault KvModel) false (event_parts (fillDefault KvModel) stale) [Result false].
Proof. exists [false]. split; [|done]. repeat constructor; KvHistory.run. Qed.
End KvEvents.

(** ** Linearizability *)

(** C13. [checkSingle] decides linearizability. For every history of operations
    that return after their calls, and every model whose Equal only identifies
    states that behave the same, the search ends within some number of iterations
    without a nil dereference or an index out of range, and the answer is true
    exactly when the operations can be ordered so that the model allows them one
    after the other and no operation comes before one that had returned when it
    was called. Cache, bitset and in-place list editing lose no linearization. *)
Theorem checkSingle_linearizable `{!Sorter} {V St} (nilV : V) (model : FullModel V St)
    (ops : list (Operation V)) (computePartial : bool) :
  EqualSound model -> times_ok ops ->
  exists fuel0, forall fuel, fuel0 <= fuel ->
  exists ok longest,
    checkSingle nilV model (makeEntries ops) computePartial (fun _ => false) fuel = Returned ok longest /\
    (ok = true <-> Linearizable model ops).
Proof. intros He Ht. by apply checkSingle_decides. Qed.

Lemma checkSingle_linearizable_witness : exists fuel0, forall fuel, fuel0 <= fuel ->
  exists ok longest,
    checkSingle KvHistory.nilV storeModel (makeEntries KvHistory.bad) true (fun _ => false) fuel
      = Returned ok longest /\ (ok = true <-> Linearizable storeModel KvHistory.bad).
Proof.
  apply checkSingle_linearizable.
  - intros s t i o. simpl. rewrite !bool_decide_eq_true. by intros ->.
  - apply KvHistory.bad_times.
Defined.

(** C15. [CheckOperations] answers true exactly when every partition of the history
    is linearizable, whatever the order in which the goroutines of the partitions
    finish, if there is at least one partition. *)
Theorem CheckOperations_linearizable `{!Sorter} {V St} `{!EqDecision St} (nilV : V) (model : Model V St)
    (history : list (Operation V)) longest (arrivals : list Arrival) :
  EqualSound (fillDefault model) -> Forall times_ok (Partition (fillDefault model) history) ->
  Partition (fillDefault model) history <> [] ->
  all_arrive nilV (fillDefault model) false (operation_parts (fillDefault model) history) arrivals ->
  exists ok, CheckOperations model history longest arrivals = Some ok /\
    (ok = true <-> Forall (Linearizable (fillDefault model)) (Partition (fillDefault model) history)).
Proof. intros He Ht Hne Ha. by eapply CheckOperations_decides. Qed.

Lemma CheckOperations_linearizable_witness : exists ok,
  CheckOperations KvModel KvHistory.bad [] [Result true; Result false] = Some ok /\
  (ok = true <-> Forall (Linearizable (fillDefault KvModel)) (kvPartition KvHistory.bad)).
Proof.
  apply (CheckOperations_linearizable KvHistory.nilV).
  - apply _.
  - vm_compute. repeat constructor; intros [=].
  - vm_compute. intros [=].
  - apply KvHistory.bad_arrive.
Defined.

(** With a timeout, the answer Ok still means that every partition is
    linearizable and Illegal that some partition is not: what the goroutines of
    killed searches send after the timer is not read. The timer only turns the
    answer into Unknown. *)
Theorem CheckOperationsTimeout_sound `{!Sorter} {V St} `{!EqDecision St} (nilV : V) (model : Model V St)
    (history : list (Operation V)) longest (arrivals : list Arrival) :
  EqualSound (fillDefault model) -> Forall times_ok (Partition (fillDefault model) history) ->
  some_arrive nilV (fillDefault model) false (operation_parts (fillDefault model) history) arrivals ->
  exists res, CheckOperationsTimeout model history longest arrivals = Some res /\
    (res = Ok -> Forall (Linearizable (fillDefault model)) (Partition (fillDefault model) history)) /\
    (res = Illegal -> Exists (fun ops => ~ Linearizable (fillDefault model) ops)
                        (Partition (fillDefault model) history)).
Proof. intros He Ht Ha. by eapply CheckOperationsTimeout_decides. Qed.

Lemma CheckOperationsTimeout_sound_witness : exists res,
  CheckOperationsTimeout KvModel KvHistory.good [] [Result true; TimedOut; Result false] = Some res /\
  (res = Ok -> Forall (Linearizable (fillDefault KvModel)) (kvPartition KvHistory.good)) /\
  (res = Illegal -> Exists (fun ops => ~ Linearizable (fillDefault KvModel) ops)
                      (kvPartition KvHistory.good)).
Proof.
  apply (CheckOperationsTimeout_sound KvHistory.nilV).
  - apply _.
  - vm_compute. repeat constructor; intros [=].
  - apply KvHistory.good_timeout.
Defined.

(** C16. [CheckEvents] gives the same verdict on a sequence of call and return events
    as linearizability of the operations the sequence describes: on every partition
    in which each identifier is called once and then returns once, the entries made
    from the renumbered events are exactly those of operations whose times are the
    positions of their events. So the answer is true exactly when those operations
    are linearizable, whatever identifiers the events carry and in whatever order
    the goroutines finish. *)
Theorem CheckEvents_linearizable `{!Sorter} {V St} `{!EqDecision St} (nilV : V) (model : Model V St)
    (history : list (Event V)) longest (arrivals : list Arrival) :
  EqualSound (fillDefault model) ->
  Forall complete_events (PartitionEvent (fillDefault model) history) ->
  PartitionEvent (fillDefault model) history <> [] ->
  all_arrive nilV (fillDefault model) false (event_parts (fillDefault model) history) arrivals ->
  event_parts (fillDefault model) history
    = makeEntries <$> (operations <$> PartitionEvent (fillDefault model) history) /\
  exists ok, CheckEvents model history longest arrivals = Some ok /\
    (ok = true <-> Forall (fun sub => Linearizable (fillDefault model) (operations sub))
                     (PartitionEvent (fillDefault model) history)).
Proof.
  intros He Hc Hne Ha. split; [by apply event_parts_operations|].
  destruct (CheckEvents_decides nilV model history He Hc longest arrivals Hne Ha) as (ok & Hrun & Hiff).
  exists ok. split; [done|]. rewrite Hiff. apply Forall_fmap.
Qed.

Lemma CheckEvents_linearizable_witness :
  event_parts (fillDefault KvModel) KvEvents.stale = makeEntries <$> [operations KvEvents.stale] /\
  exists ok, CheckEvents KvModel KvEvents.stale [] [Result false] = Some ok /\
    (ok = true <-> Forall (fun sub => Linearizable (fillDefault KvModel) (operations sub)) [KvEvents.stale]).
Proof.
  apply (CheckEvents_linearizable KvHistory.nilV).
  - apply _.
  - constructor; [apply KvEvents.stale_complete|constructor].
  - intros [=].
  - apply KvEvents.stale_arrive.
Defined.

(** A model whose Partition returns no partitions for a history, as KvModel
    does for the empty history, makes [CheckOperations] wait for ever: there is no
    goroutine that sends a result and no timer, and the loop tests the number of
    results only after it received one. *)
Theorem CheckOperations_no_partition_blocks `{!Sorter} {V St} `{!EqDecision St} (nilV : V)
    (model : Model V St) (history : list (Operation V)) longest (arrivals : list Arrival) :
  Partition (fillDefault model) history = [] ->
  all_arrive nilV (fillDefault model) false (operation_parts (fillDefault model) history) arrivals ->
  CheckOperations model history longest arrivals = None.
Proof.
  unfold operation_parts. intros -> (oks & Hs & Hp). apply Forall2_nil_inv_l in Hs as ->.
  by apply Permutation_nil_r in Hp as ->.
Qed.

Lemma CheckOperations_no_partition_blocks_witness : CheckOperations KvModel [] [] [] = None.
Proof.
  apply (CheckOperations_no_partition_blocks KvHistory.nilV); [reflexivity|].
  exists []. split; [constructor|reflexivity].
Defined.

(** ** The key/value model *)

(** C14. Checking the keys one by one is sound and complete: [CheckOperations] with
    KvModel answers true for a non-empty history exactly when the history is
    linearizable as operations on one store that maps every key to a value, in
    which an operation reads and writes the value of its own key. *)
Theorem KvModel_checks_store `{!Sorter} (nilV : KvValue) (history : list KvOperation) longest
    (arrivals : list Arrival) :
  Forall kv_typed history -> times_ok history -> history <> [] ->
  all_arrive nilV (fillDefault KvModel) false (operation_parts (fillDefault KvModel) history) arrivals ->
  exists ok, CheckOperations KvModel history longest arrivals = Some ok /\
    (ok = true <-> Linearizable storeModel history).
Proof.
  intros _ Ht Hne Ha. destruct (kvPartition_spec history) as (ks & Hnd & Hks & Hpart).
  destruct (CheckOperations_decides nilV KvModel history longest arrivals) as (ok & Hrun & Hok).
  - apply _.
  - simpl. rewrite Hpart. apply Forall_fmap, Forall_forall. intros k _.
    apply Forall_forall. intros o [_ Ho]%list_elem_of_filter. by eapply Forall_forall in Ht.
  - simpl. rewrite Hpart. intros ->%fmap_nil_inv. destruct history as [|o history]; [done|].
    by apply (not_elem_of_nil (op_key o)), Hks; left.
  - done.
  - exists ok. split; [done|]. rewrite Hok, (store_linearizable_iff history ks Ht Hnd Hks).
    simpl. by rewrite Hpart.
Qed.

Lemma KvModel_checks_store_witness : exists ok,
  CheckOperations KvModel KvHistory.good [] [Result true; Result true] = Some ok /\
  (ok = true <-> Linearizable storeModel KvHistory.good).
Proof.
  apply (KvModel_checks_store KvHistory.nilV).
  - repeat constructor.
  - apply KvHistory.good_times.
  - intros [=].
  - apply KvHistory.good_arrive.
Defined.

(** ** Verbose mode *)

(** C18. The panic of [computeVisualizationData], for a linearization the model does
    not allow, cannot happen on what [CheckOperationsVerbose] returns, even when a
    timeout stopped the searches. The data lists the operations of every partition
    in their order, with client, call and return time and description, and every
    partial linearization it shows is allowed by the model from the initial state and
    respects real time: no operation in it is called after one that comes later or not
    at all has returned. *)
Theorem visualization_never_panics `{!Sorter} {V St} `{!EqDecision St} (nilV : V) (model : Model V St)
    (describeOp : V -> V -> string) (describeState : St -> string)
    (history : list (Operation V)) longest (arrivals : list Arrival) res info :
  Forall times_ok (Partition (fillDefault model) history) ->
  Forall2 (fun sub l => exists kill ok, goroutine nilV (fillDefault model) true kill sub ok l)
    (operation_parts (fillDefault model) history) longest ->
  CheckOperationsVerbose model history longest arrivals = Some (res, info) ->
  exists data,
    computeVisualizationData nilV (fillDefault model) describeOp describeState info = Some data /\
    Forall2 (shows (fillDefault model) describeOp) (Partition (fillDefault model) history) data.
Proof.
  intros Ht Hg Hv. unfold CheckOperationsVerbose, checkOperations, checkParallel in Hv.
  apply bind_Some in Hv as ([[[ok t] c] rest] & _ & (c' & _ & [= _ <-])%bind_Some).
  by eapply computeVisualizationData_shows.
Qed.

(** Both searches of [bad] end, in verbose mode. *)
Definition bad_longest : list (list (option (nat * list Z))) :=
  (fun sub => match checkSingle KvHistory.nilV (fillDefault KvModel) sub true (fun _ => false) 100 with
              | Returned _ l => l | _ => [] end) <$> KvHistory.parts KvHistory.bad.

Lemma visualization_never_panics_witness : exists data,
  computeVisualizationData KvHistory.nilV (fillDefault KvModel) kvDescribeOperation (fun s => s)
    (mkInfo (KvHistory.parts KvHistory.bad) (partials <$> bad_longest)) = Some data /\
  Forall2 (shows (fillDefault KvModel) kvDescribeOperation) (kvPartition KvHistory.bad) data.
Proof.
  apply (visualization_never_panics KvHistory.nilV KvModel kvDescribeOperation (fun s => s)
    KvHistory.bad bad_longest [Result false; Result true] Illegal).
  - vm_compute. repeat constructor; intros [=].
  - repeat constructor; exists (fun _ => false); eexists; exists 100; vm_compute; reflexivity.
  - reflexivity.
Defined.

(** ** The data structures of the search *)

(** C17. [lift] takes exactly the call and its return out of the doubly linked list,
    and [unlift] afterwards restores the heap to what it was, pointer for pointer,
    although it only uses the pointers the removed nodes kept. *)
Theorem unlift_undoes_lift {V} (h : list (node V)) (hd e r : nat) (l1 l2 l3 : list nat) (x : node V) :
  NoDup (hd :: l1 ++ e :: l2 ++ r :: l3) -> seg h None (hd :: l1 ++ e :: l2 ++ r :: l3) None ->
  h !! e = Some x -> n_match x = Some r ->
  exists h', lift e h = Some h' /\ seg h' None (hd :: l1 ++ l2 ++ l3) None /\ unlift e h' = Some h.
Proof.
  intros Hnd Hs Hx Hm. destruct (lift_spec h hd l1 e l2 r l3 x Hnd Hs Hx Hm) as (h' & Hl & Hs' & Hu & _).
  by exists h'.
Qed.

(** A head, the call of operation 0, the call of operation 1, the return of 0 and
    the return of 1. *)
Definition two_ops : list (node Z) :=
  [mkNode 0%Z None (-1)%Z (Some 1) None; mkNode 1%Z (Some 3) 0%Z (Some 2) (Some 0);
   mkNode 2%Z (Some 4) 1%Z (Some 3) (Some 1); mkNode 3%Z None 0%Z (Some 4) (Some 2);
   mkNode 4%Z None 1%Z None (Some 3)].

Lemma unlift_undoes_lift_witness : exists h',
  lift 2 two_ops = Some h' /\ seg h' None [0; 1; 3] None /\ unlift 2 h' = Some two_ops.
Proof.
  apply (unlift_undoes_lift two_ops 0 2 4 [1] [3] [] (mkNode 2%Z (Some 4) 1%Z (Some 3) (Some 1))).
  - apply (bool_decide_unpack _). vm_compute. exact I.
  - simpl. repeat (eexists; split; [reflexivity|]; repeat (split; [reflexivity|])). reflexivity.
  - reflexivity.
  - reflexivity.
Defined.

(** The bitset is a set of positions below its size: [set], [clear] and [get]
    on a position in range do not panic and are insertion, deletion and membership,
    [popcnt] is the number of elements, and two bitsets of the same size are
    [equals] exactly when they hold the same set. *)
Theorem bitset_is_a_set (n : nat) (b b2 : bitset) (X X2 : gset nat) (pos : nat) :
  represents n b X -> represents n b2 X2 -> pos < n ->
  (exists b', bs_set b pos = Some b' /\ represents n b' (X ∪ {[pos]})) /\
  (exists b', bs_clear b pos = Some b' /\ represents n b' (X ∖ {[pos]})) /\
  bs_get b pos = Some (bool_decide (pos ∈ X)) /\ popcnt b = size X /\
  (bs_equals b b2 = true <-> X = X2) /\ (X = X2 -> bs_hash b = bs_hash b2).
Proof.
  intros Hr Hr2 Hp.
  assert (Heq : X = X2 -> b = b2) by (intros ->; by apply (represents_inj n b b2 X2 X2)).
  split_and!.
  - by apply bs_set_represents.
  - by apply bs_clear_represents.
  - by apply (bs_get_represents n).
  - by apply (popcnt_represents n).
  - rewrite bs_equals_eq. split; [|done]. intros ->. apply set_eq. intros i.
    destruct Hr as [_ _ Hh]. destruct Hr2 as [_ _ Hh2]. by rewrite <- Hh, Hh2.
  - intros ?. f_equal. auto.
Qed.

Lemma bitset_is_a_set_witness :
  bs_get (newBitset 100) 70 = Some (bool_decide (70 ∈ (∅ : gset nat))).
Proof.
  destruct (bitset_is_a_set 100 (newBitset 100) (newBitset 100) ∅ ∅ 70
    (newBitset_represents 100) (newBitset_represents 100) ltac:(lia)) as (_ & _ & Hget & _).
  exact Hget.
Defined.
