(* ===== verification/VisTheorems.v ===== *)
(** * The page of a verbose check

    What [CheckOperationsVerbose] returns is laid out, drawn and explored on the page:
    the layout is the least one that fits, every operation and every point is drawn where
    it belongs, and the page shows what its user asked for, whatever came before. *)

From S2P Require Import Prelude GoLib Porcupine PorcOps PorcCheck PorcKv PorcTheorems Longest Visualization VisLayout VisScan.
From S2P Require Import VisSpec VisSolve VisDraw VisDrawFacts VisPage VisPageFacts VisRender VisCanvas.

(** A verbose check of a history whose operations return after their calls, none of them
    called at the last time, and the data of its page. *)
Section verbose.
Context `{!Sorter} {V St : Type} `{!EqDecision St}.
Variables (nilV : V) (model : Model V St) (describeOp : V -> V -> string) (describeState : St -> string).
Variables (history : list (Operation V)) (longest : list (list (option (nat * list Z)))) (arrivals : list Arrival).
Variables (res : CheckResult) (info : linearizationInfo (V := V)) (data : list partitionVisualizationData).
Variables (px : Z) (textWidth : string -> Z).
Hypothesis Htimes : Forall times_ok (Partition (fillDefault model) history).
Hypothesis Hlast : called_before_last (Partition (fillDefault model) history).
Hypothesis Hruns : Forall2 (fun sub l => exists kill ok, goroutine nilV (fillDefault model) true kill sub ok l)
  (operation_parts (fillDefault model) history) longest.
Hypothesis Hcheck : CheckOperationsVerbose model history longest arrivals = Some (res, info).
Hypothesis Hdata : computeVisualizationData nilV (fillDefault model) describeOp describeState info = Some data.
Hypothesis Hpx : (0 < px)%Z.

Lemma verbose_shows : Forall2 (shows (fillDefault model) describeOp) (Partition (fillDefault model) history) data.
Proof.
  unfold CheckOperationsVerbose, checkOperations, checkParallel in Hcheck.
  apply bind_Some in Hcheck as ([[[ok t] c] rest] & _ & (c' & _ & [= _ E])%bind_Some).
  destruct (computeVisualizationData_shows nilV (fillDefault model) describeOp describeState _ true longest Htimes Hruns)
    as (data' & Hd & Hs).
  assert (Some data' = Some data) as [= <-] by (rewrite <- Hd, <- Hdata, <- E; reflexivity). done.
Qed.

Lemma verbose_drawable : drawable data.
Proof. by eapply shows_drawable; [..|apply verbose_shows]. Qed.

Lemma verbose_ranked : Forall well_ranked data.
Proof. by eapply computeVisualizationData_ranked. Qed.

Lemma verbose_page : exists ly dw x M, rendered px textWidth data ly dw x M /\ page_ok (ly_data ly) dw.
Proof.
  destruct (drawable_rendered px textWidth data Hpx verbose_drawable) as (ly & dw & x & M & Hr). exists ly, dw, x, M.
  split; [done|]. by eapply rendered_page; [..|apply verbose_drawable|apply verbose_ranked].
Qed.

(** C19. The script lays out everything that [CheckOperationsVerbose] found for a history
    whose operations return after their calls, none of them called at the last time, without
    an exception. The page has the operations and the linearizations of the data; ends that
    are moved keep their order with all other times. Its single scan from left to right places
    all times and all linearization points so that times are in order with a gap, every box
    has room for its text, the points of a linearization are in order with a gap and within
    the boxes of their operations, and the boxes of the operations that could come next, since
    nothing else that is missing returned before they were called, reach beyond its last
    point. Each position is the least one for which this is possible, and less than three
    columns for each operation, a column being the widest text or the points of the longest
    linearization. The times that are computed are within those of the data, in halves, so
    that 64-bit floats have them when the times of the data are at most 2^52. *)
Theorem layout_is_least : exists ly y N,
  layout px textWidth (part_of <$> data) = Some ly /\ Forall2 same_part (ly_data ly) data /\ ends_moved (ly_data ly) /\
  laid_out px textWidth ly y N /\
  forall lo hi, (forall d he, d ∈ data -> he ∈ pd_History d -> (lo <= he_Start he /\ he_End he <= hi)%Z) ->
    forall t, time_of (ly_data ly) t -> (2 * lo <= t <= 2 * hi)%Z.
Proof.
  destruct verbose_page as (ly & dw & x & M & Hr & _). exists ly, x, M.
  split_and!; [apply Hr| |apply Hr|apply Hr|intros lo hi Hb t; by apply (rd_range _ _ _ _ _ _ _ Hr)].
  eapply Forall2_impl; [apply Hr|]. apply part_shows_same.
Qed.

(** C20. The script draws everything that [CheckOperationsVerbose] found for a history whose
    operations return after their calls, none of them called at the last time, without an
    exception. Every operation has a box, wide enough for its text, in the row of its client
    and on the canvas when clients are numbered from zero; the canvas is no wider and no
    higher than the boxes need; one box is left of another exactly when its operation returned
    before the other was called. For every step of a linearization there is one vertical line,
    in order and with a gap, that crosses the box of its operation; and the error points are
    lines after the last point through the boxes of the operations that could come next, one
    for each of them. *)
Theorem drawing_shows_history : exists ly dw,
  layout px textWidth (part_of <$> data) = Some ly /\ draw px ly = Some dw /\ Forall2 same_part (ly_data ly) data /\
  drawn px textWidth ly dw.
Proof.
  destruct verbose_page as (ly & dw & x & M & Hr & _). exists ly, dw.
  split_and!; [apply Hr|apply Hr| |by eapply rendered_drawn; [..|apply verbose_drawable|]].
  eapply Forall2_impl; [apply Hr|]. apply part_shows_same.
Qed.

(** C21. Whatever the user does on the page of a verbose check, its handlers do not throw
    and the page shows what was asked for: the state of the page after any events is that
    of the reactions to them, one after the other. Exactly the selected box is marked; with
    a focus only its partition is shown and of the linearizations only the first of the
    longest that have the operation or, when none has it, that it could follow; without a
    focus everything and the longest linearization of each partition; the link is active
    exactly when an error point is visible and leads to a leftmost one; and the tooltip that
    the script kept is the text it would compute. *)
Theorem page_follows_events : exists ly dw,
  layout px textWidth (part_of <$> data) = Some ly /\ draw px ly = Some dw /\
  forall evs, Forall (possible (ly_data ly)) evs -> exists pg sel focus,
    page_run (ly_data ly) dw evs (start_page dw) = Some pg /\
    reacts_all (ly_data ly) dw None None evs sel focus /\ looks (ly_data ly) dw sel focus pg.
Proof.
  destruct verbose_page as (ly & dw & x & M & Hr & Hok). exists ly, dw. split_and!; [apply Hr|apply Hr|].
  intros evs Hevs. destruct (page_run_inv _ _ Hok evs None None _ (start_inv _ _ Hok) Hevs) as (pg & sel & focus & Hrun & Hre & Hinv).
  exists pg, sel, focus. split_and!; [done|done|by apply inv_looks].
Qed.

(** C22. "Jump to first error" shows the error: when nothing is selected or highlighted
    and an error point is visible, the link scrolls to a leftmost one and selects the last
    operation before it, and the linearization of the error point, and with it the point,
    is still shown afterwards. *)
Theorem jump_shows_error : exists ly dw,
  layout px textWidth (part_of <$> data) = Some ly /\ draw px ly = Some dw /\
  forall evs pg, Forall (possible (ly_data ly)) evs -> page_run (ly_data ly) dw evs (start_page dw) = Some pg ->
    looks (ly_data ly) dw None None pg -> (exists e, error_visible (ly_data ly) dw None e) ->
    exists pt j pg', page_step (ly_data ly) dw JumpClick pg = Some pg' /\ pg_scrolled pg' = Some pt /\
      first_error (ly_data ly) dw None pt /\ ep_index pt = Z.of_nat j /\
      looks (ly_data ly) dw (Some (ep_partition pt, j)) (Some (ep_partition pt, j)) pg' /\
      error_visible (ly_data ly) dw (Some (ep_partition pt, j)) pt.
Proof.
  destruct verbose_page as (ly & dw & x & M & Hr & Hok). exists ly, dw. split_and!; [apply Hr|apply Hr|].
  intros evs pg Hevs Hrun Hlk [e He].
  destruct (page_run_inv _ _ Hok evs None None _ (start_inv _ _ Hok) Hevs) as (pg1 & sel & focus & Hrun1 & _ & Hinv).
  rewrite Hrun in Hrun1. injection Hrun1 as <-. assert (sel = None) as ->.
  { pose proof (lk_selected _ _ _ _ _ Hlk) as H1. rewrite (pi_selected _ _ _ _ _ Hinv) in H1. by destruct sel. }
  pose proof (lk_jump _ _ _ _ _ Hlk) as Hj. destruct (vw_inactive (pg_view pg)) eqn:Ha; [by destruct (Hj e)|].
  destruct Hj as (pt & Hpt & Hfirst). destruct (jump_inv _ _ Hok focus pg pt Hinv Hpt Ha) as (pg' & j & Hs & _ & Hidx & Hinv' & Hsc).
  exists pt, j, pg'. split_and!; [done|done|done|done|by apply inv_looks|].
  split; [apply Hfirst|]. by apply (first_shown_after _ _ Hok pt j (proj1 Hfirst)).
Qed.
End verbose.

(** ** The page of a small history *)

Module BadPage.
Import KvHistory.

Definition info := mkInfo (parts bad) (partials <$> bad_longest).
Definition data : list partitionVisualizationData :=
  default [] (computeVisualizationData nilV (fillDefault KvModel) kvDescribeOperation (fun s => s) info).
(** Texts of two pixels for each character, with 10 units to the pixel. *)
Definition width (s : string) : Z := (20 * Z.of_nat (String.length s))%Z.

Lemma times : Forall times_ok (Partition (fillDefault KvModel) bad).
Proof. vm_compute. repeat constructor; intros [=]. Qed.

Lemma before_last : called_before_last (Partition (fillDefault KvModel) bad).
Proof. apply (bool_decide_unpack _). vm_compute. exact I. Qed.
End BadPage.

(** The hypotheses of the section hold for this history. *)
Ltac bad_page :=
  first [exact BadPage.times | exact BadPage.before_last | reflexivity | done
        | repeat constructor; exists (fun _ => false); eexists; exists 100; vm_compute; reflexivity].

(** All times of this history are from 0 to 100. *)
Lemma bad_range d he : d ∈ BadPage.data -> he ∈ pd_History d -> (0 <= he_Start he /\ he_End he <= 100)%Z.
Proof.
  assert (Hall : Forall (fun d => Forall (fun he => 0 <= he_Start he /\ he_End he <= 100)%Z (pd_History d)) BadPage.data).
  { apply (bool_decide_unpack _). vm_compute. exact I. }
  rewrite Forall_forall in Hall. intros Hd. specialize (Hall d Hd). rewrite Forall_forall in Hall. apply Hall.
Qed.

Lemma layout_is_least_witness : exists ly y N,
  layout 10 BadPage.width (part_of <$> BadPage.data) = Some ly /\ Forall2 same_part (ly_data ly) BadPage.data /\
  ends_moved (ly_data ly) /\ laid_out 10 BadPage.width ly y N /\
  forall t, time_of (ly_data ly) t -> (2 * 0 <= t <= 2 * 100)%Z.
Proof.
  destruct (layout_is_least KvHistory.nilV KvModel kvDescribeOperation (fun s => s) KvHistory.bad bad_longest
    [Result false; Result true] Illegal BadPage.info BadPage.data 10 BadPage.width) as (ly & y & N & H1 & H2 & H3 & H4 & H5); [bad_page..|].
  exists ly, y, N. split_and!; [done..|]. apply H5. exact bad_range.
Defined.

Lemma drawing_shows_history_witness : exists ly dw,
  layout 10 BadPage.width (part_of <$> BadPage.data) = Some ly /\ draw 10 ly = Some dw /\
  Forall2 same_part (ly_data ly) BadPage.data /\ drawn 10 BadPage.width ly dw.
Proof.
  apply (drawing_shows_history KvHistory.nilV KvModel kvDescribeOperation (fun s => s) KvHistory.bad bad_longest
    [Result false; Result true] Illegal BadPage.info BadPage.data 10 BadPage.width); bad_page.
Defined.

(** The user looks at the read that is wrong, selects the write before it, and deselects
    it with a click on the background. *)
Definition visit : list PageEvent :=
  [MouseOver 0 1; MouseMove 0 1; MouseOut 0 1; MouseOver 0 0; Click 0 0; MouseMove 0 0; MouseOut 0 0; BgClick].

Lemma page_follows_events_witness : exists ly dw pg sel focus,
  layout 10 BadPage.width (part_of <$> BadPage.data) = Some ly /\ draw 10 ly = Some dw /\
  page_run (ly_data ly) dw visit (start_page dw) = Some pg /\
  reacts_all (ly_data ly) dw None None visit sel focus /\ looks (ly_data ly) dw sel focus pg.
Proof.
  destruct (page_follows_events KvHistory.nilV KvModel kvDescribeOperation (fun s => s) KvHistory.bad bad_longest
    [Result false; Result true] Illegal BadPage.info BadPage.data 10 BadPage.width) as (ly & dw & Hly & Hdw & Hrun);
    [bad_page..|].
  assert (Hev : Forall (possible (ly_data ly)) visit).
  { revert Hly. vm_compute. intros [= <-]. repeat constructor; simpl; eexists _, _; (split; reflexivity). }
  destruct (Hrun visit Hev) as (pg & sel & focus & H1 & H2 & H3). exists ly, dw, pg, sel, focus. split_and!; done.
Defined.

(** An error point of the first linearization of a partition is drawn. *)
Lemma bad_page_error ly dw :
  layout 10 BadPage.width (part_of <$> BadPage.data) = Some ly -> draw 10 ly = Some dw ->
  exists e, error_visible (ly_data ly) dw None e.
Proof.
  vm_compute. intros [= <-]. vm_compute. intros [= <-]. eexists. split; [by left|]. reflexivity.
Qed.

Lemma bad_page_ok : exists ly dw,
  layout 10 BadPage.width (part_of <$> BadPage.data) = Some ly /\ draw 10 ly = Some dw /\ page_ok (ly_data ly) dw.
Proof.
  destruct (verbose_page KvHistory.nilV KvModel kvDescribeOperation (fun s => s) KvHistory.bad bad_longest
    [Result false; Result true] Illegal BadPage.info BadPage.data 10 BadPage.width) as (ly & dw & x & M & Hr & Hok);
    [bad_page..|].
  exists ly, dw. split; [apply Hr|]. split; [apply Hr|exact Hok].
Qed.

Lemma jump_shows_error_witness : exists ly dw pt j pg',
  layout 10 BadPage.width (part_of <$> BadPage.data) = Some ly /\ draw 10 ly = Some dw /\
  page_step (ly_data ly) dw JumpClick (start_page dw) = Some pg' /\ pg_scrolled pg' = Some pt /\
  first_error (ly_data ly) dw None pt /\ error_visible (ly_data ly) dw (Some (ep_partition pt, j)) pt.
Proof.
  destruct (jump_shows_error KvHistory.nilV KvModel kvDescribeOperation (fun s => s) KvHistory.bad bad_longest
    [Result false; Result true] Illegal BadPage.info BadPage.data 10 BadPage.width) as (ly & dw & Hly & Hdw & Hjump);
    [bad_page..|].
  destruct bad_page_ok as (ly' & dw' & Hly' & Hdw' & Hok).
  rewrite Hly in Hly'. injection Hly' as <-. rewrite Hdw in Hdw'. injection Hdw' as <-.
  destruct (Hjump [] (start_page dw)) as (pt & j & pg' & Hs & Hsc & Hf & _ & _ & He);
    [constructor|done|by apply inv_looks, start_inv|by eapply bad_page_error|].
  exists ly, dw, pt, j, pg'. split_and!; done.
Defined.

(** ** Times at which the layout fails *)

(** C23. An operation that is called at the last time of a history, and so returns at that
    time too, is drawn nowhere when anything was called before: its position is computed
    from itself and undefined (NaN), and its box has neither position nor width. The
    layout gives an event that ends with the start of another some room by moving its end
    towards the next time, and after the last time there is none. *)
Theorem last_call_has_no_position `{!Sorter} (px : Z) (textWidth : string -> Z) (data : list partitionVisualizationData)
    (ly : Layout) (d d' : partitionVisualizationData) (he he' : historyElement) :
  layout px textWidth (part_of <$> data) = Some ly -> d ∈ data -> he ∈ pd_History d -> he_End he = he_Start he ->
  (forall d' he', d' ∈ data -> he' ∈ pd_History d' -> (he_Start he' <= he_End he' <= he_Start he)%Z) ->
  d' ∈ data -> he' ∈ pd_History d' -> (he_Start he' < he_Start he)%Z ->
  exists p el, p ∈ ly_data ly /\ el ∈ pt_History p /\ element_of el he /\
    rc_x (draw_rect px (ly_xPos ly) el) = None /\ rc_width (draw_rect px (ly_xPos ly) el) = None.
Proof.
  intros Hly Hd Hhe Heq Hmax Hd' Hhe' Hlt.
  pose proof (last_undefined data px textWidth d he Hd Hhe Heq Hmax ly d' he' Hly Hd' Hhe' Hlt) as Hx.
  apply list_elem_of_lookup in Hd as [i Hi]. destruct (Forall2_lookup_r _ _ _ _ _ (layout_parts data px textWidth ly Hly) Hi) as (p & Hp & Hps).
  apply part_shows_same in Hps as [_ Hps]. apply list_elem_of_lookup in Hhe as [j Hj].
  destruct (Forall2_lookup_r _ _ _ _ _ Hps Hj) as (el & Hel & He). exists p, el.
  split_and!; [by eapply list_elem_of_lookup_2|by eapply list_elem_of_lookup_2|done|..];
    destruct He as (_ & Hs & _); unfold draw_rect; simpl; by rewrite Hs, Hx.
Qed.

(** A write, and a read at the moment at which it returns. *)
Module LateRead.
Import KvHistory.

Definition history : list KvOperation := [op 0 1 "x" "a" 0 "" 5; op 1 0 "x" "" 5 "a" 5].

Definition longest : list (list (option (nat * list Z))) :=
  (fun sub => match checkSingle nilV (fillDefault KvModel) sub true (fun _ => false) 100 with
              | Returned _ l => l | _ => [] end) <$> parts history.

Definition info := mkInfo (parts history) (partials <$> longest).

Definition data : list partitionVisualizationData :=
  default [] (computeVisualizationData nilV (fillDefault KvModel) kvDescribeOperation (fun s => s) info).

Definition write : historyElement := mkHistoryElement 0 0 5 "put('x', 'a')".
Definition read : historyElement := mkHistoryElement 1 5 5 "get('x') -> 'a'".
End LateRead.

Lemma last_call_has_no_position_witness : exists ly p el,
  CheckOperationsVerbose KvModel LateRead.history LateRead.longest [Result true] = Some (Ok, LateRead.info) /\
  layout 10 BadPage.width (part_of <$> LateRead.data) = Some ly /\ p ∈ ly_data ly /\ el ∈ pt_History p /\
  element_of el LateRead.read /\ rc_x (draw_rect 10 (ly_xPos ly) el) = None.
Proof.
  destruct (layout 10 BadPage.width (part_of <$> LateRead.data)) as [ly|] eqn:E; [|vm_compute in E; discriminate].
  exists ly. assert (Hd : LateRead.data = [default (mkPartitionData [] [] ∅) (head LateRead.data)]) by reflexivity.
  assert (Hh : pd_History (default (mkPartitionData [] [] ∅) (head LateRead.data)) = [LateRead.write; LateRead.read]) by reflexivity.
  assert (Hin : default (mkPartitionData [] [] ∅) (head LateRead.data) ∈ LateRead.data) by (rewrite Hd at 2; by left).
  destruct (last_call_has_no_position 10 BadPage.width LateRead.data ly
    (default (mkPartitionData [] [] ∅) (head LateRead.data)) (default (mkPartitionData [] [] ∅) (head LateRead.data))
    LateRead.read LateRead.write) as (p & el & Hp & Hel & He & Hx & _);
    [done|done|rewrite Hh; by right; left|done| |done|rewrite Hh; by left|done|].
  - intros d' he' Hd' Hhe'. rewrite Hd in Hd'. apply list_elem_of_singleton in Hd' as ->. rewrite Hh in Hhe'.
    apply elem_of_cons in Hhe' as [->|Hhe']; [simpl; lia|]. apply list_elem_of_singleton in Hhe' as ->. simpl. lia.
  - exists p, el. split_and!; [reflexivity|done..].
Defined.
