(* ===== verification/Labrpc.v ===== *)
(** * The simulated network: src/src/labrpc/labrpc.go

    Client ends, servers and the network between them, and [processReq], the
    goroutine that carries one request, as a state machine: one event per access to
    shared state or per random choice, any number of requests interleaved. The end of
    [processReq] is one event: its last look at the server, the random choice, and the
    count of bytes and the message unless they are left to a timer. Nothing shared is
    read after that look, so that a server that is deleted between look and message
    gets the answer it would get if it were deleted just after both. Names of
    ends and servers are values of a type [Name]; a [*Server] is the index of an
    allocated server, so that [!=] on servers compares identities. The handlers of
    a service are the code of the services and are values of a type [Handler]. *)

From Stdlib Require Import Ascii.
From S2P Require Import Prelude GoLib Mrapps.

(** ** Machine integers *)

(** [int32] and [int64] arithmetic wraps around. *)
Definition wrap32 (z : Z) : Z := ((z + 2 ^ 31) mod 2 ^ 32 - 2 ^ 31)%Z.
Definition wrap64 (z : Z) : Z := ((z + 2 ^ 63) mod 2 ^ 64 - 2 ^ 63)%Z.

Section labrpc.
Context {Name Handler : Type} `{Countable Name}.

(** ** Messages *)

(** [args] and [reply] are encoded values. The type of the arguments only tells the
    server how to decode them; the reply channel is that of the request's record. *)
Record reqMsg := mkReq { rq_endname : Name; rq_svcMeth : string; rq_args : string }.

Record replyMsg := mkReply { rp_ok : bool; rp_reply : string }.

Definition no_reply : replyMsg := mkReply false "".

(** ** Services and servers *)

(** What reflection says of a method of the receiver: whether it is exported, the
    number of its arguments (the receiver is one), whether the last of three is a
    pointer, and the number of its results. *)
Record Method := mkMethod {
  mt_Name : string; mt_exported : bool; mt_NumIn : nat; mt_In2_ptr : bool; mt_NumOut : nat;
  mt_Func : Handler;
}.

Record Service := mkService { svc_name : string; svc_methods : gmap string Handler }.

(** The method looks like a handler. *)
Definition suitable (m : Method) : bool :=
  mt_exported m && bool_decide (mt_NumIn m = 3) && mt_In2_ptr m && bool_decide (mt_NumOut m = 0).

(** [MakeService] for a receiver whose type has this name and these methods. *)
Definition MakeService (name : string) (methods : list Method) : Service :=
  mkService name
    (foldl (fun ms m => if suitable m then <[mt_Name m := mt_Func m]> ms else ms) ∅ methods).

Record Server := mkServer { sv_services : gmap string Service; sv_count : Z }.

Definition MakeServer : Server := mkServer ∅ 0.

(** [Server.GetCount] *)
Definition Server_GetCount (rs : Server) : Z := sv_count rs.

Definition AddService (svc : Service) (rs : Server) : Server :=
  mkServer (<[svc_name svc := svc]> (sv_services rs)) (sv_count rs).

Definition dot_char : ascii := ascii_of_nat 46.

(** [strings.LastIndex(s, ".")], [None] for -1. *)
Fixpoint last_dot (s : string) : option nat :=
  match s with
  | EmptyString => None
  | String c s =>
      match last_dot s with
      | Some n => Some (S n)
      | None => if decide (c = dot_char) then Some 0 else None
      end
  end.

(** [svcMeth[:dot]] and [svcMeth[dot+1:]]; slicing with -1 panics. *)
Definition split_svcMeth (s : string) : option (string * string) :=
  dot ← last_dot s; Some (str_take dot s, str_drop (S dot) s).

(** [Service.dispatch]: the handler of a method; the call itself is a later event. *)
Definition service_dispatch (methname : string) (svc : Service) : option Handler :=
  svc_methods svc !! methname.

(** [Server.dispatch] up to the call of the handler: the request is counted and its
    handler looked up; [None] is the panic or [log.Fatalf] of an unknown name. *)
Definition dispatch (svcMeth : string) (rs : Server) : option (Server * Handler) :=
  '(serviceName, methodName) ← split_svcMeth svcMeth;
  service ← sv_services rs !! serviceName;
  method ← service_dispatch methodName service;
  Some (mkServer (sv_services rs) (wrap64 (sv_count rs + 1)), method).

(** ** The network *)

(** The channels [endCh] and [done] are shared with every end: [nw_done] is true
    when [done] is closed, [nw_listening] while the goroutine that receives from
    [endCh] runs. *)
Record Network := mkNetwork {
  nw_reliable : bool;
  nw_longDelays : bool;
  nw_longReordering : bool;
  nw_ends : gset Name;
  nw_enabled : gmap Name bool;
  nw_servers : gmap Name (option nat);
  nw_connections : gmap Name (option Name);
  nw_done : bool;
  nw_listening : bool;
  nw_count : Z;
  nw_bytes : Z;
}.

Definition MakeNetwork : Network := mkNetwork true false false ∅ ∅ ∅ ∅ false true 0 0.

(** A lookup in the map of a missing name gives false or nil. *)
Definition enabled_at (n : Name) (rn : Network) : bool := default false (nw_enabled rn !! n).
Definition server_at (n : Name) (rn : Network) : option nat := mjoin (nw_servers rn !! n).
Definition connection_at (n : Name) (rn : Network) : option Name := mjoin (nw_connections rn !! n).

Definition Reliable (yes : bool) (rn : Network) : Network :=
  mkNetwork yes (nw_longDelays rn) (nw_longReordering rn) (nw_ends rn) (nw_enabled rn) (nw_servers rn)
    (nw_connections rn) (nw_done rn) (nw_listening rn) (nw_count rn) (nw_bytes rn).

Definition LongReordering (yes : bool) (rn : Network) : Network :=
  mkNetwork (nw_reliable rn) (nw_longDelays rn) yes (nw_ends rn) (nw_enabled rn) (nw_servers rn)
    (nw_connections rn) (nw_done rn) (nw_listening rn) (nw_count rn) (nw_bytes rn).

Definition LongDelays (yes : bool) (rn : Network) : Network :=
  mkNetwork (nw_reliable rn) yes (nw_longReordering rn) (nw_ends rn) (nw_enabled rn) (nw_servers rn)
    (nw_connections rn) (nw_done rn) (nw_listening rn) (nw_count rn) (nw_bytes rn).

(** [Cleanup] closes [done]; closing it twice panics. *)
Definition Cleanup (rn : Network) : option Network :=
  if nw_done rn then None
  else Some (mkNetwork (nw_reliable rn) (nw_longDelays rn) (nw_longReordering rn) (nw_ends rn)
    (nw_enabled rn) (nw_servers rn) (nw_connections rn) true (nw_listening rn) (nw_count rn) (nw_bytes rn)).

(** [MakeEnd]; [None] is the [log.Fatalf] for a name in use. *)
Definition MakeEnd (endname : Name) (rn : Network) : option Network :=
  if decide (endname ∈ nw_ends rn) then None
  else Some (mkNetwork (nw_reliable rn) (nw_longDelays rn) (nw_longReordering rn)
    ({[endname]} ∪ nw_ends rn) (<[endname := false]> (nw_enabled rn)) (nw_servers rn)
    (<[endname := None]> (nw_connections rn)) (nw_done rn) (nw_listening rn) (nw_count rn) (nw_bytes rn)).

Definition set_server (servername : Name) (rs : option nat) (rn : Network) : Network :=
  mkNetwork (nw_reliable rn) (nw_longDelays rn) (nw_longReordering rn) (nw_ends rn) (nw_enabled rn)
    (<[servername := rs]> (nw_servers rn)) (nw_connections rn) (nw_done rn) (nw_listening rn)
    (nw_count rn) (nw_bytes rn).

Definition AddServer (servername : Name) (rs : nat) (rn : Network) : Network :=
  set_server servername (Some rs) rn.

Definition DeleteServer (servername : Name) (rn : Network) : Network := set_server servername None rn.

Definition Connect (endname servername : Name) (rn : Network) : Network :=
  mkNetwork (nw_reliable rn) (nw_longDelays rn) (nw_longReordering rn) (nw_ends rn) (nw_enabled rn)
    (nw_servers rn) (<[endname := Some servername]> (nw_connections rn)) (nw_done rn) (nw_listening rn)
    (nw_count rn) (nw_bytes rn).

Definition Enable (endname : Name) (enabled : bool) (rn : Network) : Network :=
  mkNetwork (nw_reliable rn) (nw_longDelays rn) (nw_longReordering rn) (nw_ends rn)
    (<[endname := enabled]> (nw_enabled rn)) (nw_servers rn) (nw_connections rn) (nw_done rn)
    (nw_listening rn) (nw_count rn) (nw_bytes rn).

(** [atomic.AddInt32(&rn.count, 1)] and [atomic.AddInt64(&rn.bytes, n)] *)
Definition add_traffic (calls : Z) (n : nat) (rn : Network) : Network :=
  mkNetwork (nw_reliable rn) (nw_longDelays rn) (nw_longReordering rn) (nw_ends rn) (nw_enabled rn)
    (nw_servers rn) (nw_connections rn) (nw_done rn) (nw_listening rn)
    (wrap32 (nw_count rn + calls)) (wrap64 (nw_bytes rn + Z.of_nat n)).

(** The goroutine of [MakeNetwork] sees [done] closed and returns. *)
Definition stop_listening (rn : Network) : Network :=
  mkNetwork (nw_reliable rn) (nw_longDelays rn) (nw_longReordering rn) (nw_ends rn) (nw_enabled rn)
    (nw_servers rn) (nw_connections rn) (nw_done rn) false (nw_count rn) (nw_bytes rn).

Definition GetTotalCount (rn : Network) : Z := nw_count rn.
Definition GetTotalBytes (rn : Network) : Z := nw_bytes rn.

(** [GetCount] of the server of a name; a nil server panics. *)
Definition GetCount (servername : Name) (rn : Network) (heap : list Server) : option Z :=
  a ← server_at servername rn; sv_count <$> heap !! a.

(** What [readEndnameInfo] found, for an enabled end with a server. *)
Record Info := mkInfo {
  in_servername : Name; in_server : nat; in_reliable : bool; in_longreordering : bool }.

Definition readEndnameInfo (endname : Name) (rn : Network) : option Info :=
  if enabled_at endname rn then
    servername ← connection_at endname rn; server ← server_at servername rn;
    Some (mkInfo servername server (nw_reliable rn) (nw_longReordering rn))
  else None.

Definition isServerDead (endname servername : Name) (server : nat) (rn : Network) : bool :=
  negb (enabled_at endname rn) || bool_decide (server_at servername rn <> Some server).

(** ** A request in the network *)

(** Where [processReq] is: started; about to choose whether to drop the request;
    waiting for the handler; with the reply of the handler, before the last look at
    the server; with a timer that will send a message, which counts its bytes if
    [counted]; with the message sent on the reply channel. *)
Inductive Proc :=
  | PStarted
  | PChosen (i : Info)
  | PWaiting (i : Info)
  | PReturned (i : Info) (reply : replyMsg)
  | PTimer (reply : replyMsg) (counted : bool)
  | PDone (reply : replyMsg).

(** Where the goroutine of the handler is, at the server [a]. It goes on when
    [processReq] stops waiting for it. *)
Inductive Disp :=
  | DNone
  | DStarted (a : nat)
  | DRunning (a : nat) (h : Handler)
  | DReturned (a : nat) (h : Handler) (reply : string).

Record Request := mkRequest { q_msg : reqMsg; q_proc : Proc; q_disp : Disp }.

Record Sys := mkSys { net : Network; heap : list Server; reqs : list Request }.

(** ** Events *)

(** How [processReq] answers: it may drop a reply when the network is not reliable
    and delay it when it reorders; the choice is random. *)
Inductive Answer := DropReply | DelayReply | SendReply.

Inductive Event :=
  | EReliable (yes : bool) | ELongReordering (yes : bool) | ELongDelays (yes : bool) | ECleanup
  | EStop | EMakeEnd (endname : Name) | EMakeServer | EAddService (a : nat) (svc : Service)
  | EAddServer (servername : Name) (a : nat) | EDeleteServer (servername : Name)
  | EConnect (endname servername : Name) | EEnable (endname : Name) (enabled : bool)
  | ECall (req : reqMsg)                    (** the network receives a request of [Call] *)
  | ERead (i : nat)                         (** [readEndnameInfo] *)
  | EDropRequest (i : nat) | EDeliver (i : nat)
  | EDispatch (i : nat)                     (** [Server.dispatch] *)
  | EHandlerReturns (i : nat) (reply : string)
  | EReceive (i : nat)                      (** [reply = <-ech] *)
  | EPoll (i : nat)                         (** the 100 ms timer *)
  | EAnswer (i : nat) (how : Answer)
  | EFire (i : nat).                        (** [time.AfterFunc] *)

(** The event cannot happen now; the process exits; the next state. *)
Inductive Outcome := Blocked | Crash | Go (s : Sys).

Definition set_net (rn : Network) (s : Sys) : Sys := mkSys rn (heap s) (reqs s).
Definition set_req (i : nat) (r : Request) (s : Sys) : Sys := mkSys (net s) (heap s) (<[i := r]> (reqs s)).
Definition at_proc (p : Proc) (r : Request) : Request := mkRequest (q_msg r) p (q_disp r).
Definition at_disp (d : Disp) (r : Request) : Request := mkRequest (q_msg r) (q_proc r) d.

Definition or_crash (x : option Network) (s : Sys) : Outcome :=
  match x with Some rn => Go (set_net rn s) | None => Crash end.

(** The message is sent on the reply channel. *)
Definition reply_with (i : nat) (r : Request) (reply : replyMsg) (s : Sys) : Sys :=
  set_req i (at_proc (PDone reply) r) s.

(** [rn.bytes] grows by the length of the reply, which is then sent. *)
Definition count_reply (i : nat) (r : Request) (reply : replyMsg) (s : Sys) : Sys :=
  set_net (add_traffic 0 (String.length (rp_reply reply)) (net s)) (reply_with i r reply s).

(** After the loop: the last look at the server, then the answer, which depends on
    nothing shared but that look. *)
Definition answer (i : nat) (r : Request) (info : Info) (reply : replyMsg) (how : Answer) (s : Sys)
    : Outcome :=
  if isServerDead (rq_endname (q_msg r)) (in_servername info) (in_server info) (net s)
  then Go (reply_with i r no_reply s)
  else
    match how with
    | DropReply => if in_reliable info then Blocked else Go (reply_with i r no_reply s)
    | DelayReply => if in_longreordering info then Go (set_req i (at_proc (PTimer reply true) r) s)
                    else Blocked
    | SendReply => Go (count_reply i r reply s)
    end.

(** One event of the request [i]. *)
Definition proc_event (i : nat) (r : Request) (e : Event) (s : Sys) : Outcome :=
  match e, q_proc r, q_disp r with
  | ERead _, PStarted, _ =>
      match readEndnameInfo (rq_endname (q_msg r)) (net s) with
      | Some info => Go (set_req i (at_proc (PChosen info) r) s)
      | None => Go (set_req i (at_proc (PTimer no_reply false) r) s)
      end
  | EDropRequest _, PChosen info, _ =>
      if in_reliable info then Blocked else Go (reply_with i r no_reply s)
  | EDeliver _, PChosen info, _ =>
      Go (set_req i (mkRequest (q_msg r) (PWaiting info) (DStarted (in_server info))) s)
  | EDispatch _, _, DStarted a =>
      match heap s !! a with
      | None => Blocked
      | Some rs =>
          match dispatch (rq_svcMeth (q_msg r)) rs with
          | None => Crash
          | Some (rs', h) => Go (set_req i (at_disp (DRunning a h) r) (mkSys (net s) (<[a := rs']> (heap s)) (reqs s)))
          end
      end
  | EHandlerReturns _ b, _, DRunning a h => Go (set_req i (at_disp (DReturned a h b) r) s)
  | EReceive _, PWaiting info, DReturned _ _ b =>
      Go (set_req i (at_proc (PReturned info (mkReply true b)) r) s)
  | EPoll _, PWaiting info, _ =>
      if isServerDead (rq_endname (q_msg r)) (in_servername info) (in_server info) (net s)
      then Go (reply_with i r no_reply s) else Go s
  | EAnswer _ how, PReturned info reply, _ => answer i r info reply how s
  | EFire _, PTimer reply counted, _ =>
      Go (if counted then count_reply i r reply s else reply_with i r reply s)
  | _, _, _ => Blocked
  end.

Definition on_request (i : nat) (e : Event) (s : Sys) : Outcome :=
  match reqs s !! i with Some r => proc_event i r e s | None => Blocked end.

Definition exec (e : Event) (s : Sys) : Outcome :=
  match e with
  | EReliable yes => Go (set_net (Reliable yes (net s)) s)
  | ELongReordering yes => Go (set_net (LongReordering yes (net s)) s)
  | ELongDelays yes => Go (set_net (LongDelays yes (net s)) s)
  | ECleanup => or_crash (Cleanup (net s)) s
  | EStop => if nw_done (net s) && nw_listening (net s) then Go (set_net (stop_listening (net s)) s)
             else Blocked
  | EMakeEnd n => or_crash (MakeEnd n (net s)) s
  | EMakeServer => Go (mkSys (net s) (heap s ++ [MakeServer]) (reqs s))
  | EAddService a svc =>
      match heap s !! a with
      | Some rs => Go (mkSys (net s) (<[a := AddService svc rs]> (heap s)) (reqs s))
      | None => Blocked
      end
  | EAddServer n a => if decide (a < length (heap s)) then Go (set_net (AddServer n a (net s)) s) else Blocked
  | EDeleteServer n => Go (set_net (DeleteServer n (net s)) s)
  | EConnect n m => Go (set_net (Connect n m (net s)) s)
  | EEnable n yes => Go (set_net (Enable n yes (net s)) s)
  | ECall req =>
      if nw_listening (net s) && bool_decide (rq_endname req ∈ nw_ends (net s)) then
        Go (mkSys (add_traffic 1 (String.length (rq_args req)) (net s)) (heap s)
              (reqs s ++ [mkRequest req PStarted DNone]))
      else Blocked
  | ERead i | EDropRequest i | EDeliver i | EDispatch i | EHandlerReturns i _ | EReceive i | EPoll i
  | EAnswer i _ | EFire i => on_request i e s
  end.

(** An end; its channels are those of the network. *)
Record ClientEnd := mkClientEnd { ce_endname : Name }.

(** The request that [Call] makes, with [encode] for labgob; arguments that cannot be
    encoded are a panic. *)
Definition Call_request {A} (encode : A -> option string) (e : ClientEnd) (svcMeth : string) (args : A) : option reqMsg :=
  qb ← encode args; Some (mkReq (ce_endname e) svcMeth qb).

(** The [select] of [Call]: the network takes the request while it listens, and [Call]
    returns false when the network was cleaned up; neither case may be ready, or both. *)
Definition Call_select (req : reqMsg) (s : Sys) (sent : bool) : Outcome :=
  if sent then exec (ECall req) s else if nw_done (net s) then Go s else Blocked.

(** [Call] after the reply arrived: what it returns, with [decode] for the reply; a
    reply that does not decode ends the process. *)
Definition Call_result {R} (decode : string -> option R) (rep : replyMsg) : option (option R) :=
  if rp_ok rep then r ← decode (rp_reply rep); Some (Some r) else Some None.

Definition init : Sys := mkSys MakeNetwork [] [].
End labrpc.

Arguments reqMsg : clear implicits.
Arguments Method : clear implicits.
Arguments Service : clear implicits.
Arguments Server : clear implicits.
Arguments Info : clear implicits.
Arguments Proc : clear implicits.
Arguments Disp : clear implicits.
Arguments Request : clear implicits.
Arguments Event : clear implicits.
