(* ===== verification/LabrpcInv.v ===== *)
(** * Runs of the simulated network and their invariant

    The events of Labrpc as a step relation, what one event does to one request,
    and what holds of every request, server and counter in every reachable state. *)

From S2P Require Import Prelude GoLib Mrapps Labrpc.

(** ** Wrapping sums *)

Lemma wrap32_add a b : wrap32 (wrap32 a + b) = wrap32 (a + b).
Proof.
  unfold wrap32. f_equal. replace ((a + 2 ^ 31) mod 2 ^ 32 - 2 ^ 31 + b + 2 ^ 31)%Z
    with ((a + 2 ^ 31) mod 2 ^ 32 + b)%Z by lia.
  rewrite Z.add_mod_idemp_l by lia. f_equal. lia.
Qed.

Lemma wrap64_add a b : wrap64 (wrap64 a + b) = wrap64 (a + b).
Proof.
  unfold wrap64. f_equal. replace ((a + 2 ^ 63) mod 2 ^ 64 - 2 ^ 63 + b + 2 ^ 63)%Z
    with ((a + 2 ^ 63) mod 2 ^ 64 + b)%Z by lia.
  rewrite Z.add_mod_idemp_l by lia. f_equal. lia.
Qed.

Set Default Proof Using "Type".

Section runs.
Context {Name Handler : Type} `{Countable Name}.
(** [runs h args reply]: called with these encoded arguments the handler may return
    and leave this encoded reply. *)
Variable runs : Handler -> string -> string -> Prop.

Abbreviation Sys := (@Sys Name Handler _ _).
Abbreviation Event := (Event Name Handler).
Abbreviation Request := (Request Name Handler).
Abbreviation Server := (Server Handler).
Implicit Types (s : Sys) (e : Event) (r : Request).

(** What the environment may do: a handler returns what it can return, and a server
    gets one service of a name. *)
Definition allowed e s : Prop :=
  match e with
  | EHandlerReturns i b => forall r a h, reqs s !! i = Some r -> q_disp r = DRunning a h ->
      runs h (rq_args (q_msg r)) b
  | EAddService a svc => forall rs, heap s !! a = Some rs -> sv_services rs !! svc_name svc = None
  | _ => True
  end.

Inductive step : Sys -> Event -> Sys -> Prop :=
  | step_exec s e s' : allowed e s -> exec e s = Go s' -> step s e s'.

Lemma step_iff s e s' : step s e s' <-> allowed e s /\ exec e s = Go s'.
Proof. split; [by intros []|]. intros []. by constructor. Qed.

(** Runs whose events all satisfy [P]. *)
Definition run_of (P : Event -> Prop) : relation Sys := rtc (fun s s' => exists e, P e /\ step s e s').

Definition reachable : Sys -> Prop := run_of (fun _ => True) init.

(** ** What an event does to a request *)

Inductive moved s : Request -> Event -> Request -> list Server -> option nat -> Prop :=
  | mv_read r i info :
      q_proc r = PStarted -> readEndnameInfo (rq_endname (q_msg r)) (net s) = Some info ->
      moved s r (ERead i) (at_proc (PChosen info) r) (heap s) None
  | mv_read_dead r i :
      q_proc r = PStarted -> readEndnameInfo (rq_endname (q_msg r)) (net s) = None ->
      moved s r (ERead i) (at_proc (PTimer no_reply false) r) (heap s) None
  | mv_drop r i info :
      q_proc r = PChosen info -> in_reliable info = false ->
      moved s r (EDropRequest i) (at_proc (PDone no_reply) r) (heap s) None
  | mv_deliver r i info :
      q_proc r = PChosen info ->
      moved s r (EDeliver i) (mkRequest (q_msg r) (PWaiting info) (DStarted (in_server info))) (heap s) None
  | mv_dispatch r i a rs rs' h :
      q_disp r = DStarted a -> heap s !! a = Some rs -> dispatch (rq_svcMeth (q_msg r)) rs = Some (rs', h) ->
      moved s r (EDispatch i) (at_disp (DRunning a h) r) (<[a := rs']> (heap s)) None
  | mv_returns r i a h b :
      q_disp r = DRunning a h ->
      moved s r (EHandlerReturns i b) (at_disp (DReturned a h b) r) (heap s) None
  | mv_receive r i info a h b :
      q_proc r = PWaiting info -> q_disp r = DReturned a h b ->
      moved s r (EReceive i) (at_proc (PReturned info (mkReply true b)) r) (heap s) None
  | mv_poll_dead r i info :
      q_proc r = PWaiting info ->
      isServerDead (rq_endname (q_msg r)) (in_servername info) (in_server info) (net s) = true ->
      moved s r (EPoll i) (at_proc (PDone no_reply) r) (heap s) None
  | mv_poll r i info : q_proc r = PWaiting info -> moved s r (EPoll i) r (heap s) None
  | mv_answer_dead r i how info reply :
      q_proc r = PReturned info reply ->
      isServerDead (rq_endname (q_msg r)) (in_servername info) (in_server info) (net s) = true ->
      moved s r (EAnswer i how) (at_proc (PDone no_reply) r) (heap s) None
  | mv_answer_drop r i info reply :
      q_proc r = PReturned info reply -> in_reliable info = false ->
      moved s r (EAnswer i DropReply) (at_proc (PDone no_reply) r) (heap s) None
  | mv_answer_delay r i info reply :
      q_proc r = PReturned info reply ->
      isServerDead (rq_endname (q_msg r)) (in_servername info) (in_server info) (net s) = false ->
      moved s r (EAnswer i DelayReply) (at_proc (PTimer reply true) r) (heap s) None
  | mv_answer_send r i info reply :
      q_proc r = PReturned info reply ->
      isServerDead (rq_endname (q_msg r)) (in_servername info) (in_server info) (net s) = false ->
      moved s r (EAnswer i SendReply) (at_proc (PDone reply) r) (heap s)
        (Some (String.length (rp_reply reply)))
  | mv_fire r i reply :
      q_proc r = PTimer reply false ->
      moved s r (EFire i) (at_proc (PDone reply) r) (heap s) None
  | mv_fire_counted r i reply :
      q_proc r = PTimer reply true ->
      moved s r (EFire i) (at_proc (PDone reply) r) (heap s) (Some (String.length (rp_reply reply))).

(** The request an event is about. *)
Definition about e : option nat :=
  match e with
  | ERead i | EDropRequest i | EDeliver i | EDispatch i | EHandlerReturns i _ | EReceive i | EPoll i
  | EAnswer i _ | EFire i => Some i
  | _ => None
  end.

Definition traffic (n : option nat) (rn : @Network Name _ _) : @Network Name _ _ :=
  match n with Some k => add_traffic 0 k rn | None => rn end.

Lemma exec_about e s s' i :
  about e = Some i -> exec e s = Go s' ->
  exists r r' hp n, reqs s !! i = Some r /\ moved s r e r' hp n /\
    s' = mkSys (traffic n (net s)) hp (<[i := r']> (reqs s)).
Proof.
  clear runs. intros Ha He. assert (Ho : on_request i e s = Go s') by (by destruct e; try done; injection Ha as <-).
  clear He. unfold on_request in Ho. destruct (reqs s !! i) as [r|] eqn:Hr; [|done].
  exists r. destruct e; try done; injection Ha as ->; simpl in Ho.
  - destruct (q_proc r) eqn:Hp; try done. destruct (readEndnameInfo _ _) eqn:Hi; injection Ho as <-;
      eexists _, _, None; (split; [done|]); (split; [|done]); by econstructor.
  - destruct (q_proc r) eqn:Hp; try done. destruct (in_reliable i0) eqn:Hi; [done|]. injection Ho as <-.
    eexists _, _, None. split; [done|]. split; [|done]. by econstructor.
  - destruct (q_proc r) eqn:Hp; try done. injection Ho as <-.
    eexists _, _, None. split; [done|]. split; [|done]. by econstructor.
  - assert (Ho' : exists a, q_disp r = DStarted a) by (destruct (q_proc r), (q_disp r); naive_solver).
    destruct Ho' as [a Hd]. rewrite Hd in Ho.
    assert (Ho'' : match heap s !! a with
      | None => Blocked
      | Some rs => match dispatch (rq_svcMeth (q_msg r)) rs with
          | None => Crash
          | Some (rs', h) => Go (set_req i (at_disp (DRunning a h) r) (mkSys (net s) (<[a := rs']> (heap s)) (reqs s)))
          end
      end = Go s') by (by destruct (q_proc r)).
    clear Ho. destruct (heap s !! a) as [rs|] eqn:Hrs; [|done].
    destruct (dispatch _ rs) as [[rs' h]|] eqn:Hdp; [|done]. injection Ho'' as <-.
    eexists _, _, None. split; [done|]. split; [|done]. by econstructor.
  - assert (Hd : exists a h, q_disp r = DRunning a h) by (destruct (q_proc r), (q_disp r); naive_solver).
    destruct Hd as (a & h & Hd). rewrite Hd in Ho. assert (s' = set_req i (at_disp (DReturned a h reply) r) s) as ->
      by (destruct (q_proc r); congruence).
    eexists _, _, None. split; [done|]. split; [|done]. by econstructor.
  - destruct (q_proc r) eqn:Hp; try done. destruct (q_disp r) eqn:Hd; try done. injection Ho as <-.
    eexists _, _, None. split; [done|]. split; [|done]. by econstructor.
  - destruct (q_proc r) eqn:Hp; try done. destruct (isServerDead _ _ _ _) eqn:Hdead; injection Ho as <-.
    + eexists _, _, None. split; [done|]. split; [|done]. by econstructor.
    + exists r, (heap s), None. split; [done|]. split; [by econstructor|]. rewrite list_insert_id by done. by destruct s.
  - destruct (q_proc r) eqn:Hp; try done. unfold answer in Ho.
    destruct (isServerDead _ _ _ _) eqn:Hdead.
    { injection Ho as <-. eexists _, _, None. split; [done|]. split; [|done]. by econstructor. }
    destruct how; [destruct (in_reliable i0) eqn:Hi; [done|]|destruct (in_longreordering i0); [|done]|]; injection Ho as <-.
    + eexists _, _, None. split; [done|]. split; [|done]. by econstructor.
    + eexists _, _, None. split; [done|]. split; [|done]. by econstructor.
    + eexists _, _, (Some _). split; [done|]. split; [by econstructor|done].
  - destruct (q_proc r) as [| | | |reply [] |] eqn:Hp; try done; injection Ho as <-.
    + eexists _, _, (Some _). split; [done|]. split; [by apply mv_fire_counted|done].
    + eexists _, _, None. split; [done|]. split; [by apply mv_fire|done].
Qed.

(** The other events leave the requests alone, except that [ECall] adds one. *)
Lemma exec_other e s s' :
  about e = None -> exec e s = Go s' ->
  (exists req, e = ECall req /\ s' = mkSys (add_traffic 1 (String.length (rq_args req)) (net s)) (heap s)
                                      (reqs s ++ [mkRequest req PStarted DNone])) \/
  (reqs s' = reqs s /\ nw_count (net s') = nw_count (net s) /\ nw_bytes (net s') = nw_bytes (net s) /\
   ((heap s' = heap s /\ (forall a svc, e <> EAddService a svc)) \/ heap s' = heap s ++ [MakeServer] \/
    exists a svc rs, e = EAddService a svc /\ heap s !! a = Some rs /\ heap s' = <[a := AddService svc rs]> (heap s))).
Proof.
  intros Ha He. destruct e; try done; simpl in He; unfold or_crash in He; repeat case_match; try done;
    injection He as <-; simpl.
  all: try (right; split_and!; [done..|left; done]).
  - unfold Cleanup in *. destruct (nw_done (net s)); simplify_eq. right. split_and!; [done..|left; done].
  - unfold MakeEnd in *. case_decide; simplify_eq. right. split_and!; [done..|left; done].
  - right. split_and!; [done..|]. by right; left.
  - right. split_and!; [done..|]. right; right. eauto 10.
  - left. eauto.
Qed.

(** ** The invariant *)

(** The server [a] has a handler for the method; later states keep it. *)
Definition served (hp : list Server) (a : nat) (svcMeth : string) (h : Handler) : Prop :=
  exists rs rs', hp !! a = Some rs /\ dispatch svcMeth rs = Some (rs', h).

(** Servers are never freed and keep their services. *)
Definition heap_le (hp hp' : list Server) : Prop :=
  forall a rs, hp !! a = Some rs -> exists rs', hp' !! a = Some rs' /\ sv_services rs ⊆ sv_services rs'.

#[local] Instance heap_le_refl : Reflexive heap_le.
Proof. intros hp a rs Ha. eauto. Qed.

Lemma heap_le_length hp hp' : heap_le hp hp' -> length hp <= length hp'.
Proof.
  intros Hle. destruct (decide (length hp <= length hp')) as [|Hgt]; [done|].
  destruct (lookup_lt_is_Some_2 hp (length hp')) as [rs Hrs]; [lia|].
  destruct (Hle _ _ Hrs) as (rs' & Hrs'%lookup_lt_Some & _). lia.
Qed.

Lemma dispatch_mono svcMeth (rs rs1 rs' : Server) h :
  sv_services rs ⊆ sv_services rs' -> dispatch svcMeth rs = Some (rs1, h) ->
  exists rs1', dispatch svcMeth rs' = Some (rs1', h).
Proof.
  unfold dispatch, service_dispatch. intros Hsub. destruct (split_svcMeth svcMeth) as [[sn mn]|]; simpl; [|done].
  destruct (sv_services rs !! sn) as [svc|] eqn:Hsvc; simpl; [|done].
  rewrite (lookup_weaken _ _ _ _ Hsvc Hsub). simpl. destruct (svc_methods svc !! mn); simpl; [|done].
  intros [= _ <-]. eauto.
Qed.

Lemma served_mono hp hp' a svcMeth h : heap_le hp hp' -> served hp a svcMeth h -> served hp' a svcMeth h.
Proof.
  intros Hle (rs & rs1 & Ha & Hd). destruct (Hle a rs Ha) as (rs' & Ha' & Hsub).
  destruct (dispatch_mono _ _ _ _ _ Hsub Hd) as [rs1' Hd']. by exists rs', rs1'.
Qed.

Definition disp_ok (hp : list Server) r : Prop :=
  match q_disp r with
  | DNone => True
  | DStarted a => a < length hp
  | DRunning a h => served hp a (rq_svcMeth (q_msg r)) h
  | DReturned a h b => served hp a (rq_svcMeth (q_msg r)) h /\ runs h (rq_args (q_msg r)) b
  end.

(** The server whose handler was or will be called. *)
Definition disp_at r : option nat :=
  match q_disp r with DNone => None | DStarted a | DRunning a _ | DReturned a _ _ => Some a end.

Definition proc_ok (hp : list Server) r : Prop :=
  match q_proc r with
  | PStarted => q_disp r = DNone
  | PChosen info => q_disp r = DNone /\ in_server info < length hp
  | PWaiting info => disp_at r = Some (in_server info)
  | PReturned info reply => exists h b, q_disp r = DReturned (in_server info) h b /\ reply = mkReply true b
  | PTimer reply counted => (counted = false -> reply = no_reply) /\
      (rp_ok reply = true -> exists a h, q_disp r = DReturned a h (rp_reply reply))
  | PDone reply => rp_ok reply = true -> exists a h, q_disp r = DReturned a h (rp_reply reply)
  end.

Definition req_ok (hp : list Server) r : Prop := disp_ok hp r /\ proc_ok hp r.

(** 1 when the handler of the request was called at the server [a]. *)
Definition called (a : nat) r : nat :=
  match q_disp r with DRunning b _ | DReturned b _ _ => if decide (b = a) then 1 else 0 | _ => 0 end.

(** The bytes of the request and of the reply that was sent. *)
Definition req_bytes r : nat := String.length (rq_args (q_msg r)).
Definition reply_bytes r : nat :=
  match q_proc r with PDone reply => String.length (rp_reply reply) | _ => 0 end.

Record sys_inv s : Prop := {
  si_reqs : Forall (req_ok (heap s)) (reqs s);
  si_servers n a : server_at n (net s) = Some a -> a < length (heap s);
  si_calls a rs : heap s !! a = Some rs ->
    sv_count rs = wrap64 (Z.of_nat (sum_list_with (called a) (reqs s)));
  si_count : nw_count (net s) = wrap32 (Z.of_nat (length (reqs s)));
  si_bytes : nw_bytes (net s)
    = wrap64 (Z.of_nat (sum_list_with req_bytes (reqs s) + sum_list_with reply_bytes (reqs s)));
}.

Lemma req_ok_mono hp hp' r : heap_le hp hp' -> req_ok hp r -> req_ok hp' r.
Proof.
  intros Hle. pose proof (heap_le_length _ _ Hle) as Hlen. unfold req_ok, disp_ok, proc_ok.
  intros [Hd Hp]. split.
  - destruct (q_disp r); [done|lia|by eapply served_mono|]. destruct Hd as [Hd ?]. split; [|done].
    by eapply served_mono.
  - destruct (q_proc r); try done. destruct Hp. split; [done|lia].
Qed.

Lemma moved_heap s r e r' hp n : moved s r e r' hp n -> heap_le (heap s) hp.
Proof.
  destruct 1; try reflexivity. intros b rs0 Hb. destruct (decide (b = a)) as [->|Hne].
  - rewrite list_lookup_insert_eq by (by eapply lookup_lt_Some). exists rs'. split; [done|].
    simplify_eq. unfold dispatch, service_dispatch in *. repeat (case_match || simplify_option_eq). done.
  - rewrite list_lookup_insert_ne by done. eauto.
Qed.

Lemma readEndnameInfo_server (n : Name) rn info :
  readEndnameInfo n rn = Some info -> enabled_at n rn = true /\ connection_at n rn = Some (in_servername info) /\
  server_at (in_servername info) rn = Some (in_server info) /\ in_reliable info = nw_reliable rn.
Proof.
  unfold readEndnameInfo. destruct (enabled_at n rn); [|done].
  intros (sn & Hsn & (a & Ha & [= <-])%bind_Some)%bind_Some. done.
Qed.

(** The goroutine of the handler goes on. *)
Lemma proc_ok_advance hp r a d :
  proc_ok hp r -> q_disp r = DStarted a \/ (exists h, q_disp r = DRunning a h) ->
  (exists h, d = DRunning a h) \/ (exists h b, d = DReturned a h b) -> proc_ok hp (at_disp d r).
Proof.
  clear runs. unfold proc_ok, disp_at; simpl. intros Hp Hr Hd.
  destruct (q_proc r); destruct Hr as [Hr|[? Hr]]; rewrite Hr in Hp; destruct Hd as [[? ->]|(? & ? & ->)];
    naive_solver.
Qed.

(** A move keeps a request in order. *)
Lemma moved_ok s r e r' hp n :
  (forall m a, server_at m (net s) = Some a -> a < length (heap s)) ->
  (forall i b a h, e = EHandlerReturns i b -> q_disp r = DRunning a h -> runs h (rq_args (q_msg r)) b) ->
  moved s r e r' hp n -> req_ok (heap s) r -> req_ok hp r'.
Proof.
  intros Hsv Hret Hmv Hr. apply (req_ok_mono _ hp) in Hr as [Hd Hp]; [|by eapply moved_heap].
  destruct Hmv as [r i info Hq Hi|r i Hq Hi|r i info Hq Hrel|r i info Hq|r i a rs rs' h Hq Ha Hdisp
    |r i a h b Hq|r i info a h b Hq Hq'|r i info Hq Hdead|r i info Hq|r i how info reply Hq Hdead
    |r i info reply Hq Hrel|r i info reply Hq Hlive|r i info reply Hq Hlive|r i reply Hq|r i reply Hq].
  all: try (split; [done|]; unfold proc_ok in *; simpl; rewrite Hq in Hp; naive_solver).
  - apply readEndnameInfo_server in Hi as (_ & _ & Hs & _).
    split; [done|]. unfold proc_ok in *. simpl. rewrite Hq in Hp. eauto.
  - unfold proc_ok in Hp. rewrite Hq in Hp. destruct Hp as [Hn Hlt]. split; done.
  - split; [|eapply proc_ok_advance; eauto].
    destruct (moved_heap s r (EDispatch i) _ _ _ (mv_dispatch s r i a rs rs' h Hq Ha Hdisp) a rs Ha)
      as (rs1 & Hrs1 & Hsub).
    destruct (dispatch_mono _ _ _ _ _ Hsub Hdisp) as [rs2 Hrs2]. by exists rs1, rs2.
  - split; [|eapply proc_ok_advance; eauto]. unfold disp_ok in *. rewrite Hq in Hd. simpl.
    split; [done|by eapply Hret].
  - split; [done|]. unfold proc_ok, disp_at in *. simpl. rewrite Hq, Hq' in Hp. injection Hp as <-. eauto.
  - by split.
Qed.

Lemma dispatch_count svcMeth (rs rs' : Server) h :
  dispatch svcMeth rs = Some (rs', h) -> sv_count rs' = wrap64 (sv_count rs + 1).
Proof.
  unfold dispatch. destruct (split_svcMeth svcMeth) as [[sn mn]|]; simpl; [|done].
  intros (svc & _ & (m & _ & [= <- _])%bind_Some)%bind_Some. done.
Qed.

(** A move that calls the handler counts it. *)
Lemma moved_calls s r e r' hp n a rs' :
  moved s r e r' hp n -> req_ok (heap s) r -> hp !! a = Some rs' ->
  exists rs k, heap s !! a = Some rs /\ called a r' = called a r + k /\
    (sv_count rs' = wrap64 (sv_count rs + Z.of_nat k) \/ (k = 0 /\ sv_count rs' = sv_count rs)).
Proof.
  intros Hmv [_ Hp] Ha.
  destruct Hmv as [r i info Hq Hi|r i Hq Hi|r i info Hq Hrel|r i info Hq|r i a0 rs rs1 h Hq Ha0 Hdisp
    |r i a0 h b Hq|r i info a0 h b Hq Hq'|r i info Hq Hdead|r i info Hq|r i how info reply Hq Hdead
    |r i info reply Hq Hrel|r i info reply Hq Hlive|r i info reply Hq Hlive|r i reply Hq|r i reply Hq].
  all: try (exists rs', 0; split_and!; [done|unfold called; simpl; lia|by right]).
  - exists rs', 0. split_and!; [done| |by right]. unfold proc_ok in Hp. rewrite Hq in Hp.
    destruct Hp as [Hn _]. unfold called. simpl. by rewrite Hn.
  - unfold called. simpl. rewrite Hq. destruct (decide (a0 = a)) as [->|Hne].
    + rewrite list_lookup_insert_eq in Ha by (by eapply lookup_lt_Some). injection Ha as <-.
      exists rs, 1. split_and!; [done..|]. left. by apply dispatch_count in Hdisp.
    + rewrite list_lookup_insert_ne in Ha by done. exists rs', 0. split_and!; [done..|by right].
  - exists rs', 0. split_and!; [done| |by right]. unfold called. simpl. rewrite Hq. lia.
Qed.

Lemma moved_bytes s r e r' hp n :
  moved s r e r' hp n -> req_ok (heap s) r ->
  q_msg r' = q_msg r /\ reply_bytes r' = reply_bytes r + default 0 n.
Proof.
  intros Hmv [_ Hp]. unfold reply_bytes.
  destruct Hmv as [r i info Hq Hi|r i Hq Hi|r i info Hq Hrel|r i info Hq|r i a0 rs rs1 h Hq Ha0 Hdisp
    |r i a0 h b Hq|r i info a0 h b Hq Hq'|r i info Hq Hdead|r i info Hq|r i how info reply Hq Hdead
    |r i info reply Hq Hrel|r i info reply Hq Hlive|r i info reply Hq Hlive|r i reply Hq|r i reply Hq]; simpl;
    split; try done; rewrite ?Hq; try lia.
  unfold proc_ok in Hp. rewrite Hq in Hp. by rewrite (proj1 Hp eq_refl).
Qed.

Lemma servers_step e s s' :
  exec e s = Go s' -> (forall n a, server_at n (net s) = Some a -> a < length (heap s)) ->
  forall n a, server_at n (net s') = Some a -> a < length (heap s').
Proof.
  intros He Hv n a Hs. destruct (about e) as [i|] eqn:Hab.
  - destruct (exec_about _ _ _ _ Hab He) as (r & r' & hp & k & _ & Hmv & ->). simpl in *.
    apply moved_heap, heap_le_length in Hmv. enough (a < length (heap s)) by lia.
    apply (Hv n). by destruct k.
  - destruct e; try done; simpl in He; unfold or_crash, Cleanup, MakeEnd in He; repeat case_match; simplify_eq;
      simpl in *; try (by eapply Hv); rewrite ?length_app, ?length_insert; simpl.
    + apply Hv in Hs. lia.
    + by eapply Hv.
    + unfold server_at, AddServer, set_server in Hs. simpl in Hs. rewrite lookup_insert in Hs.
      case_decide; simpl in *; [congruence|by eapply Hv].
    + unfold server_at, DeleteServer, set_server in Hs. simpl in Hs. rewrite lookup_insert in Hs.
      case_decide; simpl in *; [congruence|by eapply Hv].
Qed.

Lemma heap_other e s s' : allowed e s -> about e = None -> exec e s = Go s' -> heap_le (heap s) (heap s').
Proof.
  intros Hal Ha He. destruct (exec_other _ _ _ Ha He) as [(req & -> & ->)|(_ & _ & _ & Hh)]; [reflexivity|].
  destruct Hh as [[-> _]|[->|(a & svc & rs & -> & Hrs & ->)]]; [reflexivity| |].
  - intros a rs Hrs. exists rs. split; [by apply lookup_app_l_Some|done].
  - intros b rs0 Hb. destruct (decide (b = a)) as [->|Hne].
    + rewrite list_lookup_insert_eq by (by eapply lookup_lt_Some). eexists. split; [done|].
      rewrite Hrs in Hb. injection Hb as <-. simpl. apply insert_subseteq. by apply Hal.
    + rewrite list_lookup_insert_ne by done. eauto.
Qed.

Lemma rpc_step_inv s e s' : step s e s' -> sys_inv s -> sys_inv s'.
Proof.
  intros Hst [Hr Hs Hc Hn Hb]. destruct Hst as [s e s' Hal He].
  pose proof (servers_step _ _ _ He Hs) as Hs'. destruct (about e) as [i|] eqn:Hab.
  - destruct (exec_about _ _ _ _ Hab He) as (r & r' & hp & k & Hi & Hmv & ->).
    pose proof (Forall_lookup_1 _ _ _ _ Hr Hi) as Hri.
    assert (Hret : forall j b a h, e = EHandlerReturns j b -> q_disp r = DRunning a h ->
      runs h (rq_args (q_msg r)) b).
    { intros j b a h -> Hd. injection Hab as ->. simpl in Hal. by eapply Hal. }
    destruct (moved_bytes _ _ _ _ _ _ Hmv Hri) as [Hmsg Hby].
    split; simpl; [| |intros a rs' Ha| |].
    + apply Forall_insert; [|by apply (moved_ok s r e r' hp k)]. eapply Forall_impl; [exact Hr|].
      intros r0. apply req_ok_mono. by eapply moved_heap.
    + done.
    + destruct (moved_calls _ _ _ _ _ _ _ _ Hmv Hri Ha) as (rs & k' & Hrs & Hcall & Hcnt).
      specialize (Hc a rs Hrs). pose proof (sum_list_with_insert (called a) (reqs s) i r r' Hi) as Hsum.
      replace (sum_list_with (called a) (<[i := r']> (reqs s))) with (sum_list_with (called a) (reqs s) + k')
        by lia.
      destruct Hcnt as [->|[-> ->]]; rewrite Hc; [|by rewrite Nat.add_0_r].
      rewrite wrap64_add. f_equal. lia.
    + rewrite length_insert. destruct k as [k|]; simpl; [|done]. by rewrite Hn, wrap32_add, Z.add_0_r.
    + pose proof (sum_list_with_insert req_bytes (reqs s) i r r' Hi) as Hs1.
      pose proof (sum_list_with_insert reply_bytes (reqs s) i r r' Hi) as Hs2.
      assert (req_bytes r' = req_bytes r) by (unfold req_bytes; by rewrite Hmsg).
      destruct k as [k|]; simpl in *; rewrite Hb, ?wrap64_add; f_equal; lia.
  - pose proof (heap_other _ _ _ Hal Hab He) as Hle.
    destruct (exec_other _ _ _ Hab He) as [(req & -> & ->)|(Hreq & Hcnt & Hby & Hh)].
    + split; simpl; [|done|intros a rs' Ha| |].
      * apply Forall_app_2; [done|]. constructor; [done|constructor].
      * rewrite sum_list_with_app. simpl. rewrite (Hc a rs' Ha). do 2 f_equal. unfold called. simpl. lia.
      * rewrite Hn, wrap32_add, length_app. simpl. f_equal. lia.
      * rewrite Hb, wrap64_add, !sum_list_with_app. simpl.
        change (reply_bytes _) with 0. unfold req_bytes. simpl. f_equal. lia.
    + split; [|done| |by rewrite Hcnt, Hreq|by rewrite Hby, Hreq]; rewrite Hreq.
      * eapply Forall_impl; [exact Hr|]. intros r0. by apply req_ok_mono.
      * intros a rs' Ha. destruct Hh as [[Hh _]|[Hh|(b & svc & rs & _ & Hrs & Hh)]]; rewrite Hh in Ha.
        -- by apply Hc.
        -- apply lookup_app_Some in Ha as [Ha|[Hlen Ha]]; [by apply Hc|].
           apply list_lookup_singleton_Some in Ha as [Ha0 <-].
           assert (Hz : sum_list_with (called a) (reqs s) = 0); [|by rewrite Hz].
           apply sum_list_with_zero. eapply Forall_impl; [exact Hr|]. intros r [Hd _].
           unfold called, disp_ok, served in *. destruct (q_disp r); [done|done|..]; case_decide; subst; try done.
           ++ destruct Hd as (rs0 & rs1 & Hrs0%lookup_lt_Some & _). lia.
           ++ destruct Hd as [(rs0 & rs1 & Hrs0%lookup_lt_Some & _) _]. lia.
        -- destruct (list_insert_lookup_cases _ _ _ _ _ Ha) as [(-> & -> & _)|[_ Ha']]; [exact (Hc _ rs Hrs)|by apply Hc].
Qed.

Lemma rpc_init_inv : sys_inv init.
Proof. split; simpl; [constructor| |done|done|done]. intros n a. unfold server_at. simpl. by rewrite lookup_empty. Qed.

Lemma rpc_reachable_inv s : reachable s -> sys_inv s.
Proof.
  intros Hr. refine (rtc_ind_r sys_inv init rpc_init_inv _ s Hr).
  intros s1 s2 _ (e & _ & Hst) Hi. by eapply rpc_step_inv.
Qed.
End runs.
