(* ===== verification/LabrpcTheorems.v ===== *)
(** * What the simulated network guarantees

    The claims about src/src/labrpc/labrpc.go, with a small network on which they
    are run. *)

From S2P Require Import Prelude GoLib Mrapps Labrpc LabrpcInv.

(** ** Lemmas on runs *)

Set Default Proof Using "Type".

Section lemmas.
Context {Name Handler : Type} `{Countable Name}.
Variable runs : Handler -> string -> string -> Prop.

Abbreviation Sys := (@Sys Name Handler _ _).
Abbreviation Event := (Event Name Handler).
Abbreviation Request := (Request Name Handler).
Implicit Types (s : Sys) (e : Event) (r : Request).

(** Requests keep their index. *)
Lemma step_requests s e s' i r :
  step runs s e s' -> reqs s !! i = Some r ->
  exists r', reqs s' !! i = Some r' /\ (r' = r \/ (about e = Some i /\ exists hp n, moved s r e r' hp n)).
Proof.
  intros [Hal He]%step_iff Hi. destruct (about e) as [j|] eqn:Hab.
  - destruct (exec_about _ _ _ _ Hab He) as (r0 & r0' & hp & n & Hj & Hmv & ->). simpl.
    destruct (decide (j = i)) as [->|Hne].
    + rewrite list_lookup_insert_eq by (by eapply lookup_lt_Some). rewrite Hi in Hj. injection Hj as <-. eauto 10.
    + rewrite list_lookup_insert_ne by done. eauto.
  - destruct (exec_other _ _ _ Hab He) as [(req & -> & ->)|(-> & _)]; [|by eauto].
    simpl. exists r. split; [by apply lookup_app_l_Some|by left].
Qed.

(** What an event does to the table of servers. *)
Lemma step_server_at s e s' n :
  step runs s e s' ->
  server_at n (net s') = server_at n (net s) \/ (exists a, e = EAddServer n a /\ server_at n (net s') = Some a) \/
  (e = EDeleteServer n /\ server_at n (net s') = None).
Proof.
  intros [_ He]%step_iff. destruct (about e) as [j|] eqn:Hab.
  - destruct (exec_about _ _ _ _ Hab He) as (r0 & r0' & hp & k & _ & _ & ->). left. by destruct k.
  - destruct e; try done; simpl in He; unfold or_crash, Cleanup, MakeEnd in He; repeat case_match; simplify_eq;
      simpl; try (by left); unfold server_at, AddServer, DeleteServer, set_server; simpl; rewrite lookup_insert;
      destruct (decide (servername = n)) as [->|]; simpl; eauto 10.
Qed.

(** ** Deleted servers *)

(** The request is bound to a server that is not registered any more, or it will
    be or was answered negatively. *)
Definition condemned (sn : Name) (a : nat) (i : nat) s : Prop :=
  server_at sn (net s) <> Some a /\ exists r, reqs s !! i = Some r /\
  match q_proc r with
  | PStarted => False
  | PChosen info | PWaiting info | PReturned info _ => in_servername info = sn /\ in_server info = a
  | PTimer reply _ | PDone reply => rp_ok reply = false
  end.

Lemma dead_server n sn a (rn : @Network Name _ _) : server_at sn rn <> Some a -> isServerDead n sn a rn = true.
Proof. intros Hs. unfold isServerDead. rewrite bool_decide_true by done. apply orb_true_r. Qed.

Lemma condemned_step sn a i s e s' :
  e <> EAddServer sn a -> step runs s e s' -> condemned sn a i s -> condemned sn a i s'.
Proof.
  intros Hne Hst [Hsv (r & Hr & Hc)]. split.
  - destruct (step_server_at _ _ _ sn Hst) as [->|[(b & -> & ->)|[_ ->]]]; congruence.
  - destruct (step_requests _ _ _ _ _ Hst Hr) as (r' & Hr' & Hm). exists r'. split; [done|].
    destruct Hm as [->|(_ & hp & n & Hmv)]; [done|].
    destruct Hmv; repeat match goal with Hq : q_proc _ = _ |- _ => rewrite Hq in * end; simpl in *; try done.
    + destruct Hc as [<- <-]. by rewrite dead_server in *.
    + destruct Hc as [<- <-]. by rewrite dead_server in *.
Qed.

(** ** A reliable network *)

(** Events of calls and requests, no administration of the network. *)
Definition quiet e : Prop := about e <> None \/ exists req, e = ECall req.

Record live_end (n sn : Name) (a : nat) (rn : @Network Name _ _) : Prop := {
  le_reliable : nw_reliable rn = true;
  le_enabled : enabled_at n rn = true;
  le_connected : connection_at n rn = Some sn;
  le_server : server_at sn rn = Some a;
}.

Lemma quiet_net s e s' n sn a : quiet e -> step runs s e s' -> live_end n sn a (net s) -> live_end n sn a (net s').
Proof.
  intros Hq [_ He]%step_iff [Hr He' Hc Hs]. destruct (about e) as [j|] eqn:Hab.
  - destruct (exec_about _ _ _ _ Hab He) as (r0 & r0' & hp & k & _ & _ & ->). destruct k; by split.
  - destruct Hq as [?|[req ->]]; [done|]. simpl in He. case_match; [|done]. injection He as <-. by split.
Qed.

(** A request of the end [n] has lost nothing on its way to [sn]. *)
Definition on_course (n sn : Name) (a : nat) r : Prop :=
  rq_endname (q_msg r) = n ->
  match q_proc r with
  | PStarted => True
  | PChosen info | PWaiting info => in_servername info = sn /\ in_server info = a /\ in_reliable info = true
  | PReturned info reply => in_servername info = sn /\ in_server info = a /\ in_reliable info = true /\ rp_ok reply = true
  | PTimer reply _ | PDone reply => rp_ok reply = true
  end.

Lemma on_course_step n sn a s e s' :
  quiet e -> step runs s e s' -> live_end n sn a (net s) ->
  Forall (on_course n sn a) (reqs s) -> Forall (on_course n sn a) (reqs s').
Proof.
  intros Hq [Hal He]%step_iff [Hrel Hen Hcon Hsv] Hall.
  assert (Hlive : isServerDead n sn a (net s) = false).
  { unfold isServerDead. rewrite Hen, Hsv. simpl. apply bool_decide_eq_false_2. intros Hx. by apply Hx. }
  destruct (about e) as [j|] eqn:Hab.
  - destruct (exec_about _ _ _ _ Hab He) as (r & r' & hp & k & Hr & Hmv & ->). simpl.
    apply Forall_insert; [done|]. pose proof (Forall_lookup_1 _ _ _ _ Hall Hr) as Hc.
    unfold on_course in *. destruct Hmv; simpl in *; try done; intros Hn; specialize (Hc Hn);
      repeat match goal with Hq : q_proc _ = _ |- _ => rewrite Hq in * end; simpl in *; try done;
      try (destruct Hc as (? & ? & ? & ?); congruence); try (destruct Hc as (? & ? & ?); congruence).
    + match goal with Hi : readEndnameInfo _ _ = Some _ |- _ => apply readEndnameInfo_server in Hi
        as (_ & Hc' & Hs' & Hr') end. assert (Hsn : in_servername info = sn) by congruence.
      rewrite Hsn in *. split_and!; congruence.
    + match goal with Hi : readEndnameInfo _ _ = None |- _ => unfold readEndnameInfo in Hi; rewrite Hn, Hen, Hcon in Hi;
        simpl in Hi; by rewrite Hsv in Hi end.
    + tauto.
  - destruct Hq as [?|[req ->]]; [done|]. simpl in He. case_match; [|done]. injection He as <-. simpl.
    apply Forall_app_2; [done|]. constructor; [done|constructor].
Qed.

(** ** Progress *)

Definition answered (i : nat) s : Prop := exists r reply, reqs s !! i = Some r /\ q_proc r = PDone reply.

Definition finishes (i : nat) s : Prop := exists s', run_of runs quiet s s' /\ answered i s'.

Lemma finishes_step i e s s' :
  quiet e -> allowed runs e s -> exec e s = Go s' -> finishes i s' -> finishes i s.
Proof.
  intros Hq Hal He (s2 & Hrun & Ha). exists s2. split; [|done].
  eapply rtc_l; [|exact Hrun]. exists e. split; [done|]. by constructor.
Qed.

Lemma set_req_lookup i r r' s : reqs s !! i = Some r -> <[i := r']> (reqs s) !! i = Some r'.
Proof. intros Hi. apply list_lookup_insert_eq. by eapply lookup_lt_Some. Qed.

Lemma finishes_done i s r reply : reqs s !! i = Some r -> q_proc r = PDone reply -> finishes i s.
Proof. intros Hr Hp. exists s. split; [apply rtc_refl|by exists r, reply]. Qed.

Lemma finishes_timer i s r reply c : reqs s !! i = Some r -> q_proc r = PTimer reply c -> finishes i s.
Proof.
  intros Hr Hp. eapply (finishes_step i (EFire i)); [by left|done|..].
  - simpl. unfold on_request. rewrite Hr. simpl. by rewrite Hp.
  - eapply (finishes_done i _ (at_proc (PDone reply) r)); [|done]. destruct c; simpl; by eapply set_req_lookup.
Qed.

Lemma finishes_returned i s r info reply :
  reqs s !! i = Some r -> q_proc r = PReturned info reply -> finishes i s.
Proof.
  intros Hr Hp.
  destruct (isServerDead (rq_endname (q_msg r)) (in_servername info) (in_server info) (net s)) eqn:Hd;
    (eapply (finishes_step i (EAnswer i SendReply)); [by left|done|
       simpl; unfold on_request; rewrite Hr; simpl; rewrite Hp; unfold answer; rewrite Hd; reflexivity|]);
    (eapply finishes_done; [simpl; by eapply set_req_lookup|reflexivity]).
Qed.

Lemma finishes_handler_done i s r info a h b :
  reqs s !! i = Some r -> q_proc r = PWaiting info -> q_disp r = DReturned a h b -> finishes i s.
Proof.
  intros Hr Hp Hd. eapply (finishes_step i (EReceive i)); [by left|done|..].
  - simpl. unfold on_request. rewrite Hr. simpl. by rewrite ?Hp, ?Hd.
  - eapply finishes_returned; [simpl; by eapply set_req_lookup|reflexivity].
Qed.

Lemma finishes_running i s r info a h b :
  reqs s !! i = Some r -> q_proc r = PWaiting info -> q_disp r = DRunning a h ->
  runs h (rq_args (q_msg r)) b -> finishes i s.
Proof.
  intros Hr Hp Hd Hb. eapply (finishes_step i (EHandlerReturns i b)); [by left| |..].
  - intros r0 a0 h0 Hr0 Hd0. rewrite Hr in Hr0. injection Hr0 as <-. rewrite Hd in Hd0. by injection Hd0 as <- <-.
  - simpl. unfold on_request. rewrite Hr. simpl. by rewrite ?Hp, ?Hd.
  - eapply finishes_handler_done; [simpl; by eapply set_req_lookup|simpl; exact Hp|reflexivity].
Qed.

Lemma finishes_dispatch i s r info a h b :
  reqs s !! i = Some r -> q_proc r = PWaiting info -> q_disp r = DStarted a ->
  served (heap s) a (rq_svcMeth (q_msg r)) h -> runs h (rq_args (q_msg r)) b -> finishes i s.
Proof.
  intros Hr Hp Hd (rs & rs' & Ha & Hdisp) Hb. eapply (finishes_step i (EDispatch i)); [by left|done|..].
  - simpl. unfold on_request. rewrite Hr. simpl. rewrite ?Hp, ?Hd. by rewrite Ha, Hdisp.
  - eapply finishes_running; [simpl; by eapply set_req_lookup|simpl; exact Hp|reflexivity|exact Hb].
Qed.

Lemma finishes_chosen i s r info h b :
  reqs s !! i = Some r -> q_proc r = PChosen info ->
  served (heap s) (in_server info) (rq_svcMeth (q_msg r)) h -> runs h (rq_args (q_msg r)) b -> finishes i s.
Proof.
  intros Hr Hp Hs Hb. eapply (finishes_step i (EDeliver i)); [by left|done|..].
  - simpl. unfold on_request. rewrite Hr. simpl. by rewrite Hp.
  - eapply finishes_dispatch; [simpl; by eapply set_req_lookup|reflexivity|reflexivity|exact Hs|exact Hb].
Qed.

(** The server the request is bound to, or would be bound to now. *)
Definition target s r : option nat :=
  match q_proc r with
  | PStarted => in_server <$> readEndnameInfo (rq_endname (q_msg r)) (net s)
  | PChosen info => Some (in_server info)
  | _ => disp_at r
  end.

Lemma finishes_any i s r :
  sys_inv runs s -> reqs s !! i = Some r ->
  (forall a, target s r = Some a -> exists h, served (heap s) a (rq_svcMeth (q_msg r)) h) ->
  (forall a h, served (heap s) a (rq_svcMeth (q_msg r)) h -> exists b, runs h (rq_args (q_msg r)) b) ->
  finishes i s.
Proof.
  intros Hinv Hr Ht Hret. destruct (Forall_lookup_1 _ _ _ _ (si_reqs _ _ Hinv) Hr) as [Hd Hp].
  unfold target in Ht. unfold proc_ok in Hp. destruct (q_proc r) as [|info|info|info reply|reply c|reply] eqn:Hq.
  - destruct (readEndnameInfo (rq_endname (q_msg r)) (net s)) as [info|] eqn:Hi.
    + destruct (Ht (in_server info) eq_refl) as [h Hs]. destruct (Hret _ _ Hs) as [b Hb].
      eapply (finishes_step i (ERead i)); [by left|done|..].
      * simpl. unfold on_request. rewrite Hr. simpl. by rewrite Hq, Hi.
      * eapply finishes_chosen; [simpl; by eapply set_req_lookup|reflexivity|exact Hs|exact Hb].
    + eapply (finishes_step i (ERead i)); [by left|done|..].
      * simpl. unfold on_request. rewrite Hr. simpl. by rewrite Hq, Hi.
      * eapply finishes_timer; [simpl; by eapply set_req_lookup|reflexivity].
  - destruct (Ht (in_server info) eq_refl) as [h Hs]. destruct (Hret _ _ Hs) as [b Hb].
    by eapply finishes_chosen.
  - unfold disp_ok, disp_at in *. destruct (q_disp r) as [|a|a h|a h b] eqn:Hdp; [done| | |].
    + destruct (Ht a eq_refl) as [h Hs]. destruct (Hret _ _ Hs) as [b Hb]. by eapply finishes_dispatch.
    + destruct (Hret _ _ Hd) as [b Hb]. by eapply finishes_running.
    + by eapply finishes_handler_done.
  - by eapply finishes_returned.
  - by eapply finishes_timer.
  - by eapply finishes_done.
Qed.
End lemmas.

(** ** A small network *)

Module EchoNet.
(** A handler is a function of the encoded arguments. *)
Definition runs (h : string -> string) (args reply : string) : Prop := reply = h args.

Definition shout (args : string) : string := args +:+ "!".

Definition echo : Service (string -> string) :=
  MakeService "Echo" [mkMethod "Say" true 3 true 0 shout; mkMethod "hidden" false 3 true 0 shout].

Definition hello : reqMsg string := mkReq "c" "Echo.Say" "hi".

Abbreviation St := (@Sys string (string -> string) _ _).
Abbreviation Ev := (Event string (string -> string)).

(** One server with the service, one client end connected to it. *)
Definition set_up : list Ev :=
  [EMakeServer; EAddService 0 echo; EAddServer "s" 0; EMakeEnd "c"; EConnect "c" "s"; EEnable "c" true].

Definition call : list Ev := [ECall hello; ERead 0; EDeliver 0; EDispatch 0].
Definition return_reply : list Ev := [EHandlerReturns 0 "hi!"; EReceive 0; EAnswer 0 SendReply].

(** The events are allowed, and their outcome. *)
Definition allowed_here (e : Ev) (s : St) : bool :=
  match e with
  | EHandlerReturns i b =>
      match reqs s !! i with
      | Some r => match q_disp r with
                  | DRunning _ h => bool_decide (b = h (rq_args (q_msg r)))
                  | _ => true end
      | None => true end
  | EAddService a svc =>
      match heap s !! a with
      | Some rs => negb (bool_decide (is_Some (sv_services rs !! svc_name svc))) | None => true end
  | _ => true
  end.

Fixpoint after (es : list Ev) (s : St) : option St :=
  match es with
  | [] => Some s
  | e :: es =>
      if allowed_here e s
      then match exec e s with Go s' => after es s' | _ => None end
      else None
  end.

Lemma allowed_sound e s :
  allowed_here e s = true -> allowed runs e s.
Proof.
  destruct e; simpl; try done.
  - intros Hn rs Hrs. rewrite Hrs in Hn. apply negb_true_iff, bool_decide_eq_false in Hn.
    by apply eq_None_not_Some.
  - intros Hb r a h Hr Hd. rewrite Hr, Hd in Hb. by apply bool_decide_eq_true in Hb.
Qed.

Lemma after_run (P : Ev -> Prop) es s s' : Forall P es -> after es s = Some s' -> run_of runs P s s'.
Proof.
  intros HP. revert s. induction HP as [|e es He HP IH]; intros s; simpl; [intros [= ->]; apply rtc_refl|].
  destruct (allowed_here e s) eqn:Hal; [|done].
  destruct (exec e s) as [| |s1] eqn:Hx; [done|done|]. intros Hr.
  eapply rtc_l; [|by apply IH]. exists e. split; [done|]. constructor; [by apply allowed_sound|done].
Qed.

Definition state (es : list Ev) : St := default init (after es init).

Lemma state_reachable es : is_Some (after es init) -> reachable runs (state es).
Proof.
  intros [s Hs]. unfold state. rewrite Hs. simpl. eapply after_run; [|exact Hs]. by apply Forall_true.
Qed.
End EchoNet.

(** ** Claims *)

(** C24. A positive reply is genuine. In every reachable state, if a request was
    answered with success then the method the request names exists on some server,
    its handler was called with the arguments of this request, and the bytes the
    client gets are those the handler left for it: whatever was dropped, delayed,
    disconnected or deleted meanwhile. *)
Theorem positive_reply_is_genuine {Name Handler} `{Countable Name}
    (runs : Handler -> string -> string -> Prop) (s : @Sys Name Handler _ _) (i : nat)
    (r : Request Name Handler) (reply : replyMsg) :
  reachable runs s -> reqs s !! i = Some r -> q_proc r = PDone reply -> rp_ok reply = true ->
  exists a h, q_disp r = DReturned a h (rp_reply reply) /\ served (heap s) a (rq_svcMeth (q_msg r)) h /\
    runs h (rq_args (q_msg r)) (rp_reply reply).
Proof.
  intros Hs Hr Hp Hok. destruct (Forall_lookup_1 _ _ _ _ (si_reqs _ _ (rpc_reachable_inv _ _ Hs)) Hr) as [Hd Hpo].
  unfold proc_ok in Hpo. rewrite Hp in Hpo. destruct (Hpo Hok) as (a & h & Hdisp). exists a, h.
  unfold disp_ok in Hd. by rewrite Hdisp in Hd.
Qed.

Lemma positive_reply_is_genuine_witness : exists a h,
  q_disp (mkRequest EchoNet.hello (PDone (mkReply true "hi!")) (DReturned 0 EchoNet.shout "hi!"))
    = DReturned a h "hi!" /\
  served (heap (EchoNet.state (EchoNet.set_up ++ EchoNet.call ++ EchoNet.return_reply))) a "Echo.Say" h /\
  EchoNet.runs h "hi" "hi!".
Proof.
  apply (positive_reply_is_genuine EchoNet.runs
    (EchoNet.state (EchoNet.set_up ++ EchoNet.call ++ EchoNet.return_reply)) 0
    (mkRequest EchoNet.hello (PDone (mkReply true "hi!")) (DReturned 0 EchoNet.shout "hi!"))
    (mkReply true "hi!")).
  - apply EchoNet.state_reachable. eexists. vm_compute. reflexivity.
  - vm_compute. reflexivity.
  - reflexivity.
  - reflexivity.
Defined.

(** The handler of a request is called at most once, and the counters are
    right. In every reachable state the count of a server is the number of requests
    whose handler was called there, [GetTotalCount] the number of requests received
    and [GetTotalBytes] the bytes of their arguments and of the replies sent, all
    modulo the width of the counters (32 bits for the total count). *)
Theorem rpc_counters {Name Handler} `{Countable Name} (runs : Handler -> string -> string -> Prop)
    (s : @Sys Name Handler _ _) (n : Name) (a : nat) :
  reachable runs s -> server_at n (net s) = Some a ->
  GetCount n (net s) (heap s) = Some (wrap64 (Z.of_nat (sum_list_with (called a) (reqs s)))) /\
  GetTotalCount (net s) = wrap32 (Z.of_nat (length (reqs s))) /\
  GetTotalBytes (net s)
    = wrap64 (Z.of_nat (sum_list_with req_bytes (reqs s) + sum_list_with reply_bytes (reqs s))).
Proof.
  intros Hs Hn. destruct (rpc_reachable_inv _ _ Hs) as [_ Hsv Hc Hcnt Hb]. split_and!; [|done|done].
  unfold GetCount. rewrite Hn. simpl. destruct (lookup_lt_is_Some_2 (heap s) a) as [rs Hrs]; [by eapply Hsv|].
  rewrite Hrs. simpl. by rewrite (Hc a rs Hrs).
Qed.

Lemma rpc_counters_witness :
  GetCount "s" (net (EchoNet.state (EchoNet.set_up ++ EchoNet.call ++ EchoNet.return_reply)))
    (heap (EchoNet.state (EchoNet.set_up ++ EchoNet.call ++ EchoNet.return_reply))) = Some 1%Z /\
  GetTotalBytes (net (EchoNet.state (EchoNet.set_up ++ EchoNet.call ++ EchoNet.return_reply))) = 5%Z.
Proof.
  destruct (rpc_counters EchoNet.runs
    (EchoNet.state (EchoNet.set_up ++ EchoNet.call ++ EchoNet.return_reply)) "s" 0) as (Hc & _ & Hb).
  - apply EchoNet.state_reachable. eexists. vm_compute. reflexivity.
  - vm_compute. reflexivity.
  - split; [rewrite Hc|rewrite Hb]; vm_compute; reflexivity.
Defined.

(** C25. A deleted server never answers. Once [DeleteServer] was called, a request
    that was on its way to the server then, even one whose handler has returned, is
    never answered with success, unless the same server is added again under its
    name. So a client only gets a positive reply from a handler that returned before
    the deletion, which the tests of the key/value servers rely on. *)
Theorem deleted_server_never_answers {Name Handler} `{Countable Name}
    (runs : Handler -> string -> string -> Prop) (s s1 s2 : @Sys Name Handler _ _) (i : nat)
    (r r2 : Request Name Handler) (info : Info Name) (reply : replyMsg) :
  reqs s !! i = Some r ->
  q_proc r = PChosen info \/ q_proc r = PWaiting info \/ (exists rep, q_proc r = PReturned info rep) ->
  step runs s (EDeleteServer (in_servername info)) s1 ->
  run_of runs (fun e => e <> EAddServer (in_servername info) (in_server info)) s1 s2 ->
  reqs s2 !! i = Some r2 -> q_proc r2 = PDone reply -> rp_ok reply = false.
Proof.
  intros Hr Hp [_ He]%step_iff Hrun Hr2 Hp2. simpl in He. injection He as <-.
  assert (Hc : condemned (in_servername info) (in_server info) i s2).
  { refine (rtc_ind_r (condemned (in_servername info) (in_server info) i) _ _ _ s2 Hrun).
    - split; [unfold server_at; simpl; by rewrite lookup_insert_eq|]. exists r. split; [done|].
      destruct Hp as [->|[->|[? ->]]]; done.
    - intros x y _ (e & Hne & Hst). by apply (condemned_step runs _ _ _ x e y). }
  destruct Hc as [_ (r' & Hr' & Hc)]. rewrite Hr2 in Hr'. injection Hr' as <-. by rewrite Hp2 in Hc.
Qed.

(** The handler returns and its reply is received, then the server is deleted
    before the network looks at it for the last time. *)
Lemma deleted_server_never_answers_witness :
  let s := EchoNet.state (EchoNet.set_up ++ EchoNet.call ++ [EHandlerReturns 0 "hi!"; EReceive 0]) in
  let s1 := set_net (DeleteServer "s" (net s)) s in
  let s2 := default init (EchoNet.after [EAnswer 0 SendReply] s1) in
  q_proc <$> reqs s2 !! 0 = Some (PDone (mkReply false "")) /\ rp_ok (mkReply false "") = false.
Proof.
  intros s s1 s2. split; [vm_compute; reflexivity|].
  eapply (deleted_server_never_answers EchoNet.runs s s1 s2 0 _ _ (mkInfo "s" 0 true false)).
  - vm_compute. reflexivity.
  - right. right. eexists. reflexivity.
  - constructor; [done|reflexivity].
  - eapply (EchoNet.after_run _ [EAnswer 0 SendReply]); [repeat constructor; intros [=]|].
    unfold s2. vm_compute. reflexivity.
  - vm_compute. reflexivity.
  - reflexivity.
Defined.

(** C26. A reliable network loses nothing. While the network is reliable, a client
    end stays enabled and connected to a registered server, and nobody administers
    the network, every call of that end that is answered is answered with success,
    also when replies are reordered. *)
Theorem reliable_network_delivers {Name Handler} `{Countable Name}
    (runs : Handler -> string -> string -> Prop) (s s' : @Sys Name Handler _ _) (n sn : Name) (a i : nat)
    (r : Request Name Handler) (reply : replyMsg) :
  live_end n sn a (net s) -> Forall (fun r => rq_endname (q_msg r) <> n) (reqs s) ->
  run_of runs quiet s s' ->
  reqs s' !! i = Some r -> rq_endname (q_msg r) = n -> q_proc r = PDone reply -> rp_ok reply = true.
Proof.
  intros Hl Hf Hrun Hr Hn Hp.
  assert (Hc : live_end n sn a (net s') /\ Forall (on_course n sn a) (reqs s')).
  { refine (rtc_ind_r (fun s => live_end n sn a (net s) /\ Forall (on_course n sn a) (reqs s)) _ _ _ s' Hrun).
    - split; [done|]. eapply Forall_impl; [exact Hf|]. by intros x Hx Hx'.
    - intros x y _ (e & Hq & Hst) [Hlx Hcx]. split; [by eapply quiet_net|by eapply on_course_step]. }
  destruct Hc as [_ Hc]. pose proof (Forall_lookup_1 _ _ _ _ Hc Hr Hn) as Hok. by rewrite Hp in Hok.
Qed.

Lemma reliable_network_delivers_witness :
  q_proc <$> reqs (EchoNet.state (EchoNet.set_up ++ EchoNet.call ++ EchoNet.return_reply)) !! 0
    = Some (PDone (mkReply true "hi!")) /\ rp_ok (mkReply true "hi!") = true.
Proof.
  split; [vm_compute; reflexivity|].
  eapply (reliable_network_delivers EchoNet.runs (EchoNet.state EchoNet.set_up)
    (EchoNet.state (EchoNet.set_up ++ EchoNet.call ++ EchoNet.return_reply)) "c" "s" 0 0).
  - split; vm_compute; reflexivity.
  - vm_compute. constructor.
  - apply (EchoNet.after_run _ (EchoNet.call ++ EchoNet.return_reply)); [|vm_compute; reflexivity].
    constructor; [right; by eexists|]. repeat (constructor; [left; by intros [=]|]). constructor.
  - vm_compute. reflexivity.
  - reflexivity.
  - reflexivity.
Defined.

(** C27. No call waits for ever on account of the network. In every reachable state
    every request can be answered, without any administration of the network, if
    the server it goes to has the method it names and handlers can return: also
    when the server was deleted or the end disabled. *)
Theorem every_call_can_complete {Name Handler} `{Countable Name}
    (runs : Handler -> string -> string -> Prop) (s : @Sys Name Handler _ _) (i : nat)
    (r : Request Name Handler) :
  reachable runs s -> reqs s !! i = Some r ->
  (forall a, target s r = Some a -> exists h, served (heap s) a (rq_svcMeth (q_msg r)) h) ->
  (forall a h, served (heap s) a (rq_svcMeth (q_msg r)) h -> exists b, runs h (rq_args (q_msg r)) b) ->
  exists s', run_of runs quiet s s' /\ answered i s'.
Proof. intros Hs Hr Ht Hret. eapply finishes_any; [by apply rpc_reachable_inv|done|done|done]. Qed.

Lemma every_call_can_complete_witness :
  exists s', run_of EchoNet.runs quiet (EchoNet.state (EchoNet.set_up ++ EchoNet.call)) s' /\ answered 0 s'.
Proof.
  apply (every_call_can_complete EchoNet.runs _ 0
    (mkRequest EchoNet.hello (PWaiting (mkInfo "s" 0 true false)) (DRunning 0 EchoNet.shout))).
  - apply EchoNet.state_reachable. eexists. vm_compute. reflexivity.
  - vm_compute. reflexivity.
  - intros a Ha. injection Ha as <-. exists EchoNet.shout.
    exists (mkServer (<["Echo" := EchoNet.echo]> ∅) 1), (mkServer (<["Echo" := EchoNet.echo]> ∅) 2).
    split; vm_compute; reflexivity.
  - intros a h _. by eexists.
Defined.
