(* ===== verification/Labgob.v ===== *)
(** * The encoder with warnings: src/src/labgob/labgob.go

    The wrapper around encoding/gob that walks over the types it meets, once each,
    and counts field names that do not start with a capital letter, and that warns
    when a value is decoded into a variable that is not zero. Types are the indices
    of a table, as [reflect.Type] values are pointers to type descriptors, so types
    may refer to each other in cycles. encoding/gob itself is a parameter. *)

From Stdlib Require Import Ascii.
From S2P Require Import Prelude GoLib Mrapps.

(** ** Types and values, as reflection shows them *)

Record Field := mkField { f_Name : string; f_Type : nat }.

(** The kinds [checkType] distinguishes: a struct, a slice, array or pointer, a map. *)
Inductive TypeKind :=
  | KStruct (fields : list Field)
  | KElem (elem : nat)
  | KMap (key elem : nat)
  | KOther.

Record GoType := mkType { ty_Name : string; ty_Kind : TypeKind }.

(** The kinds of values [checkDefault1] distinguishes: a struct with its named
    fields, a pointer, a basic value of a named type that is zero or not. *)
#[warnings="-register-all"]
Inductive Value :=
  | VStruct (fields : list (string * Value))
  | VPtr (elem : option Value)
  | VBasic (tname : string) (zero : bool)
  | VOther.

(** ** The state of the package *)

Inductive Msg := LowerCase (field tname : string) | NonDefault (what : string).

(** [errorCount], the set of checked types, and what was printed. *)
Record Lab := mkLab { checked : gset nat; errorCount : Z; output : list Msg }.

Definition lab_init : Lab := mkLab ∅ 0 [].

Section labgob.
(** The table of types, and [unicode.IsUpper]. *)
Variable types : list GoType.
Variable IsUpper : Z -> bool.

(** The first rune of a name; an empty name decodes to [RuneError]. *)
Definition first_rune (s : string) : Z :=
  match s with
  | EmptyString => RuneError
  | String c _ => (decode_rune s (Z.of_nat (nat_of_ascii c))).1
  end.

Definition capitalized (s : string) : bool := IsUpper (first_rune s).

(** The complaint about a field. *)
Definition check_field (tname : string) (f : Field) (st : Lab) : Lab :=
  if capitalized (f_Name f) then st
  else mkLab (checked st) (errorCount st + 1) (output st ++ [LowerCase (f_Name f) tname]).

(** [checkType]. The recursion ends because a type is checked once: one more than
    the number of types is enough fuel. *)
Fixpoint checkType (fuel : nat) (t : nat) (st : Lab) : option Lab :=
  match fuel with
  | 0 => None
  | S fuel =>
      if decide (t ∈ checked st) then Some st
      else
        let st := mkLab ({[t]} ∪ checked st) (errorCount st) (output st) in
        match types !! t with
        | None => Some st
        | Some ty =>
            match ty_Kind ty with
            | KStruct fields =>
                foldl (fun acc f => st ← acc; checkType fuel (f_Type f) (check_field (ty_Name ty) f st))
                  (Some st) fields
            | KElem elem => checkType fuel elem st
            | KMap key elem => st ← checkType fuel elem st; checkType fuel key st
            | KOther => Some st
            end
        end
  end.

(** [checkValue] of a value of the type [t]. *)
Definition checkValue (t : nat) (st : Lab) : option Lab := checkType (S (length types)) t st.

(** [checkDefault1] with [3 - depth + 1] levels left, at the name [name]. *)
Fixpoint checkDefault1 (levels : nat) (v : Value) (name : string) (st : Lab) : Lab :=
  match levels with
  | 0 => st
  | S levels =>
      match v with
      | VStruct fields =>
          foldl (fun st f => checkDefault1 levels f.2 (if decide (name = "") then f.1 else name +:+ "." +:+ f.1) st)
            st fields
      | VPtr None => st
      | VPtr (Some v) => checkDefault1 levels v name st
      | VBasic tname zero =>
          if zero then st
          else mkLab (checked st) (errorCount st + 1)
                 (if decide (errorCount st < 1)%Z
                  then output st ++ [NonDefault (if decide (name = "") then tname else name)] else output st)
      | VOther => st
      end
  end.

Definition checkDefault (v : Value) (st : Lab) : Lab := checkDefault1 3 v "" st.

(** The encoder, the decoder and the registration, with encoding/gob as [gob]: what
    it returns does not depend on the checks. *)
Definition Encode {E} (gob : E) (t : nat) (st : Lab) : option (Lab * E) :=
  st ← checkValue t st; Some (st, gob).

Definition Decode {E} (gob : E) (t : nat) (into : Value) (st : Lab) : option (Lab * E) :=
  st ← checkValue t st; Some (checkDefault into st, gob).

Definition Register (t : nat) (st : Lab) : option Lab := checkValue t st.

(** ** The walk over the types *)

(** The types a type refers to. *)
Definition succs (t : nat) : list nat :=
  match types !! t with
  | None => []
  | Some ty =>
      match ty_Kind ty with
      | KStruct fields => f_Type <$> fields
      | KElem elem => [elem]
      | KMap key elem => [elem; key]
      | KOther => []
      end
  end.

Definition refers (t u : nat) : Prop := u ∈ succs t.

(** The lower-case fields of a type. *)
Definition count_lower (fields : list Field) : nat :=
  length (filter (fun f => capitalized (f_Name f) = false) fields).

Definition lower (t : nat) : nat :=
  match types !! t with
  | Some ty => match ty_Kind ty with KStruct fields => count_lower fields | _ => 0 end
  | None => 0
  end.

Definition sum_lower (X : gset nat) : nat := sum_list_with lower (elements X).

(** The references are in the table. *)
Definition closed_types : Prop := forall t u, t < length types -> refers t u -> u < length types.

(** From [st] to [st'] the types of [R] were explored: the new ones refer to checked
    ones only, are in [R], and their lower-case fields and [n] more were counted. *)
Record explored (R : nat -> Prop) (n : nat) (st st' : Lab) : Prop := {
  ex_sub : checked st ⊆ checked st';
  ex_closed u v : u ∈ checked st' -> u ∉ checked st -> refers u v -> v ∈ checked st';
  ex_from u : u ∈ checked st' -> u ∉ checked st -> R u;
  ex_count : errorCount st' = (errorCount st + Z.of_nat (n + sum_lower (checked st' ∖ checked st)))%Z;
}.

Lemma sum_lower_union X Y : X ## Y -> sum_lower (X ∪ Y) = sum_lower X + sum_lower Y.
Proof. intros Hd. unfold sum_lower. by rewrite elements_disj_union, sum_list_with_app. Qed.

Lemma sum_lower_empty : sum_lower ∅ = 0.
Proof. done. Qed.

Lemma sum_lower_singleton t : sum_lower {[t]} = lower t.
Proof. unfold sum_lower. rewrite elements_singleton. simpl. lia. Qed.

Lemma explored_refl R st : explored R 0 st st.
Proof.
  split; [done|tauto|tauto|]. rewrite difference_diag_L, sum_lower_empty. lia.
Qed.

Lemma explored_trans R n m st1 st2 st3 :
  explored R n st1 st2 -> explored R m st2 st3 -> explored R (n + m) st1 st3.
Proof.
  intros [Hs1 Hc1 Hf1 He1] [Hs2 Hc2 Hf2 He2]. split.
  - set_solver.
  - intros u v Hu Hn Hr. destruct (decide (u ∈ checked st2)); [|by eapply Hc2].
    apply Hs2. by eapply Hc1.
  - intros u Hu Hn. destruct (decide (u ∈ checked st2)); auto.
  - rewrite He2, He1.
    replace (checked st3 ∖ checked st1) with ((checked st2 ∖ checked st1) ∪ (checked st3 ∖ checked st2)).
    + rewrite sum_lower_union by set_solver. lia.
    + apply set_eq. intros u. rewrite elem_of_union, !elem_of_difference.
      destruct (decide (u ∈ checked st2)); set_solver.
Qed.

Lemma check_field_explored R tname f st :
  explored R (count_lower [f]) st (check_field tname f st).
Proof.
  unfold check_field, count_lower. rewrite filter_cons, filter_nil. destruct (capitalized (f_Name f)); simpl.
  - apply explored_refl.
  - split; simpl; [done|tauto|tauto|]. rewrite difference_diag_L, sum_lower_empty. lia.
Qed.

(** Number of types not checked yet. *)
Definition unchecked (st : Lab) : nat := size ((set_seq 0 (length types) : gset nat) ∖ checked st).

Lemma unchecked_mono st st' : checked st ⊆ checked st' -> unchecked st' <= unchecked st.
Proof. intros Hs. unfold unchecked. apply subseteq_size. set_solver. Qed.

Lemma unchecked_mark t st :
  t < length types -> t ∉ checked st ->
  S (unchecked (mkLab ({[t]} ∪ checked st) (errorCount st) (output st))) = unchecked st.
Proof.
  intros Ht Hn. unfold unchecked. simpl. set (all := set_seq 0 (length types) : gset nat).
  assert (Hall : all ∖ checked st = {[t]} ∪ (all ∖ ({[t]} ∪ checked st))).
  { apply set_eq. intros u. unfold all.
    rewrite elem_of_union, !elem_of_difference, elem_of_union, elem_of_singleton, elem_of_set_seq.
    destruct (decide (u = t)) as [->|]; [|naive_solver]. split; [by left|]. intros _. split; [lia|done]. }
  rewrite Hall. pose proof (size_union {[t]} (all ∖ ({[t]} ∪ checked st)) ltac:(set_solver)) as Hsz.
  rewrite Hsz. by rewrite size_singleton.
Qed.

(** Marking a type and exploring what it refers to. *)
Lemma explored_mark (R : nat -> Prop) t st st' :
  t ∉ checked st -> R t ->
  explored R (lower t) (mkLab ({[t]} ∪ checked st) (errorCount st) (output st)) st' ->
  (forall v, refers t v -> v ∈ checked st') -> explored R 0 st st' /\ t ∈ checked st'.
Proof.
  intros Hn Ht [Hs Hc Hf He] Hv. simpl in *. assert (Htin : t ∈ checked st') by set_solver.
  split; [|done]. split.
  - set_solver.
  - intros u v Hu Hnu Hr. destruct (decide (u = t)) as [->|]; [auto|]. eapply Hc; [done|set_solver|done].
  - intros u Hu Hnu. destruct (decide (u = t)) as [->|]; [auto|]. apply Hf; [done|set_solver].
  - replace (checked st' ∖ checked st) with ({[t]} ∪ (checked st' ∖ ({[t]} ∪ checked st))).
    + rewrite sum_lower_union, sum_lower_singleton by set_solver. lia.
    + apply set_eq. intros u. destruct (decide (u = t)); set_solver.
Qed.

Section walk.
Hypothesis Hclosed : closed_types.
Variable R : nat -> Prop.
Hypothesis HR : forall u v, R u -> refers u v -> R v.

(** What a walk from a type does with enough fuel. *)
Definition walks (fuel : nat) : Prop := forall t st,
  unchecked st < fuel -> t < length types -> R t ->
  exists st', checkType fuel t st = Some st' /\ explored R 0 st st' /\ t ∈ checked st'.

Lemma walk_fields fuel tname fields st :
  walks fuel -> unchecked st < fuel ->
  Forall (fun f => f_Type f < length types /\ R (f_Type f)) fields ->
  exists st', foldl (fun acc f => st ← acc; checkType fuel (f_Type f) (check_field tname f st)) (Some st) fields
      = Some st' /\
    explored R (count_lower fields) st st' /\ forall f, f ∈ fields -> f_Type f ∈ checked st'.
Proof.
  intros Hw Hu Hf. revert st Hu. induction Hf as [|f fields [Hlt Hr] Hf IH]; intros st Hu.
  { exists st. split_and!; [done|apply explored_refl|set_solver]. }
  pose proof (check_field_explored R tname f st) as Hcf.
  destruct (Hw (f_Type f) (check_field tname f st)) as (st1 & Hst1 & Hex1 & Hin1); [|done|done|].
  { pose proof (unchecked_mono _ _ (ex_sub _ _ _ _ Hcf)). lia. }
  pose proof (explored_trans _ _ _ _ _ _ Hcf Hex1) as Hex.
  destruct (IH st1) as (st2 & Hst2 & Hex2 & Hin2).
  { pose proof (unchecked_mono _ _ (ex_sub _ _ _ _ Hex)). lia. }
  exists st2. simpl. rewrite Hst1. split; [done|]. split.
  - pose proof (explored_trans _ _ _ _ _ _ Hex Hex2) as Hall. unfold count_lower in *.
    change (f :: fields) with ([f] ++ fields). rewrite filter_app, length_app. by rewrite Nat.add_0_r in Hall.
  - intros f' [->|Hf']%elem_of_cons; [|auto]. by apply (ex_sub _ _ _ _ Hex2).
Qed.

Lemma checkType_walks fuel : walks fuel.
Proof.
  induction fuel as [|fuel IH]; intros t st Hu Ht Hr; [lia|]. simpl.
  case_decide as Hc; [by exists st; split; [done|]; split; [apply explored_refl|]|].
  pose proof (unchecked_mark t st Ht Hc) as Hmark.
  assert (Hsucc : forall v, refers t v -> v < length types /\ R v) by eauto.
  set (st1 := mkLab ({[t]} ∪ checked st) (errorCount st) (output st)) in *.
  enough (Hgo : exists st', (match types !! t with
      | None => Some st1
      | Some ty => match ty_Kind ty with
          | KStruct fields => foldl (fun acc f => st ← acc; checkType fuel (f_Type f) (check_field (ty_Name ty) f st))
                                (Some st1) fields
          | KElem elem => checkType fuel elem st1
          | KMap key elem => st ← checkType fuel elem st1; checkType fuel key st
          | KOther => Some st1
          end
      end) = Some st' /\ explored R (lower t) st1 st' /\ forall v, refers t v -> v ∈ checked st').
  { destruct Hgo as (st' & Hst' & Hex & Hv). exists st'. split; [done|]. by apply explored_mark. }
  unfold refers, succs, lower in *. destruct (types !! t) as [ty|]; [|by exists st1; split; [done|]; split; [apply explored_refl|set_solver]].
  destruct (ty_Kind ty) as [fields|elem|key elem|].
  - destruct (walk_fields fuel (ty_Name ty) fields st1 IH) as (st' & Hst' & Hex & Hin); [lia| |].
    + apply Forall_forall. intros f Hf. apply Hsucc. by apply list_elem_of_fmap_2.
    + exists st'. split; [done|]. split; [done|]. by intros v (f & -> & Hf)%list_elem_of_fmap; auto.
  - destruct (IH elem st1) as (st' & Hst' & Hex & Hin); [lia|apply Hsucc; set_solver..|].
    exists st'. split; [done|]. split; [done|]. set_solver.
  - destruct (IH elem st1) as (st' & Hst' & Hex & Hin); [lia|apply Hsucc; set_solver..|].
    destruct (IH key st') as (st2 & Hst2 & Hex2 & Hin2); [|apply Hsucc; set_solver..|].
    { pose proof (unchecked_mono _ _ (ex_sub _ _ _ _ Hex)). lia. }
    exists st2. rewrite Hst'. split; [done|]. split; [by apply (explored_trans R 0 0 st1 st' st2)|].
    pose proof (ex_sub _ _ _ _ Hex2). set_solver.
  - exists st1. split; [done|]. split; [apply explored_refl|set_solver].
Qed.
End walk.

(** ** Any number of calls *)

(** Values of these types are encoded, decoded or registered one after the other. *)
Fixpoint check_all (ts : list nat) (st : Lab) : option Lab :=
  match ts with
  | [] => Some st
  | t :: ts => st ← checkValue t st; check_all ts st
  end.

Lemma unchecked_bound st : unchecked st <= length types.
Proof.
  unfold unchecked. transitivity (size (set_seq 0 (length types) : gset nat)); [apply subseteq_size; set_solver|].
  by rewrite size_set_seq.
Qed.

Lemma check_all_explored R ts st :
  closed_types -> (forall u v, R u -> refers u v -> R v) -> Forall (fun t => t < length types /\ R t) ts ->
  exists st', check_all ts st = Some st' /\ explored R 0 st st' /\ forall t, t ∈ ts -> t ∈ checked st'.
Proof.
  intros Hcl HR Hts. revert st. induction Hts as [|t ts [Ht Hr] Hts IH]; intros st; simpl.
  { exists st. split_and!; [done|apply explored_refl|set_solver]. }
  destruct (checkType_walks Hcl R HR (S (length types)) t st) as (st1 & Hst1 & Hex1 & Hin1); [|done|done|].
  { pose proof (unchecked_bound st). lia. }
  unfold checkValue. rewrite Hst1. simpl. destruct (IH st1) as (st2 & Hst2 & Hex2 & Hin2).
  exists st2. split; [done|]. split; [by apply (explored_trans R 0 0 st st1 st2)|].
  intros t' [->|Ht']%elem_of_cons; [|auto]. by apply (ex_sub _ _ _ _ Hex2).
Qed.

(** ** Non-default values *)

(** The basic values that are not zero within this many levels. *)
Fixpoint non_default (levels : nat) (v : Value) : nat :=
  match levels with
  | 0 => 0
  | S levels =>
      match v with
      | VStruct fields => sum_list_with (fun f => non_default levels f.2) fields
      | VPtr (Some v) => non_default levels v
      | VBasic _ false => 1
      | _ => 0
      end
  end.

(** [n] values were complained about; only the first error ever is printed. *)
Record warned (n : nat) (st st' : Lab) : Prop := {
  wa_count : errorCount st' = (errorCount st + Z.of_nat n)%Z;
  wa_checked : checked st' = checked st;
  wa_output : exists new, output st' = output st ++ new /\
    length new = if decide (0 < n /\ (errorCount st < 1)%Z) then 1 else 0;
}.

Lemma warned_refl st : warned 0 st st.
Proof. split; [lia|done|]. exists []. split; [by rewrite app_nil_r|]. rewrite decide_False by lia. done. Qed.

Lemma warned_trans n m st1 st2 st3 :
  (0 <= errorCount st1)%Z -> warned n st1 st2 -> warned m st2 st3 -> warned (n + m) st1 st3.
Proof.
  intros H0 [Hc1 Hk1 (new1 & Ho1 & Hl1)] [Hc2 Hk2 (new2 & Ho2 & Hl2)]. split; [lia|congruence|].
  exists (new1 ++ new2). split; [by rewrite Ho2, Ho1, app_assoc|]. rewrite length_app, Hl1, Hl2, Hc1.
  repeat case_decide; lia.
Qed.

Lemma checkDefault1_warned levels v name st :
  (0 <= errorCount st)%Z -> warned (non_default levels v) st (checkDefault1 levels v name st).
Proof.
  revert v name st. induction levels as [|levels IH]; intros v name st H0; [apply warned_refl|].
  destruct v as [fields|[v|]|tname zero|]; simpl; [|by apply IH|apply warned_refl| |apply warned_refl].
  - revert st H0. induction fields as [|f fields IHf]; intros st H0; simpl; [apply warned_refl|].
    pose proof (IH f.2 (if decide (name = "") then f.1 else name +:+ "." +:+ f.1) st H0) as Hw.
    eapply warned_trans; [done|exact Hw|]. apply IHf. rewrite (wa_count _ _ _ Hw). lia.
  - destruct zero; [apply warned_refl|]. split; simpl; [lia|done|].
    destruct (decide (errorCount st < 1)%Z).
    + eexists. split; [done|]. rewrite (decide_True (P := (0 < 1 /\ (errorCount st < 1)%Z))) by lia. done.
    + exists []. rewrite app_nil_r. split; [done|]. by rewrite decide_False by lia.
Qed.
End labgob.
