(* ===== verification/Persister.v ===== *)
(** * Persistent state: src/src/raft/persister.go

    A byte slice is a reference to an array, so whether a persister keeps what was
    saved depends on who shares its arrays: [Save] and the reads copy, [Copy] shares.
    The arrays are cells of a memory, a slice is an address or nil, and the cells
    the callers can reach are a set. Calls hold the mutex and are one step. *)

From S2P Require Import Prelude GoLib.

(** A nil slice is [None]. *)
Abbreviation slice := (option nat).

Record Persister := mkPersister { raftstate : slice; snapshot : slice }.

(** The memory, the persisters, and the arrays that callers hold. *)
Record World := mkWorld { mem : list string; persisters : list Persister; held : gset nat }.

Definition bytes_of (m : list string) (x : slice) : string :=
  match x with Some a => default "" (m !! a) | None => "" end.

Definition MakePersister : Persister := mkPersister None None.

(** [clone] allocates an array and copies into it. *)
Definition clone (orig : slice) (m : list string) : slice * list string :=
  (Some (length m), m ++ [bytes_of m orig]).

Definition Copy (ps : Persister) : Persister := mkPersister (raftstate ps) (snapshot ps).

Definition ReadRaftState (ps : Persister) (m : list string) : slice * list string := clone (raftstate ps) m.
Definition ReadSnapshot (ps : Persister) (m : list string) : slice * list string := clone (snapshot ps) m.
Definition RaftStateSize (ps : Persister) (m : list string) : nat := String.length (bytes_of m (raftstate ps)).
Definition SnapshotSize (ps : Persister) (m : list string) : nat := String.length (bytes_of m (snapshot ps)).

Definition Save (rs sn : slice) (m : list string) : Persister * list string :=
  let '(a, m) := clone rs m in
  let '(b, m) := clone sn m in
  (mkPersister a b, m).

(** ** Programs that use persisters *)

(** What callers do: calls of the package, with the index of the persister, and
    making an array or overwriting one they hold. *)
Inductive Op :=
  | OMake | OCopy (p : nat) | OSave (p : nat) (rs sn : slice) | OReadRaftState (p : nat) | OReadSnapshot (p : nat)
  | OAlloc (bytes : string) | OWrite (a : nat) (bytes : string).

(** A caller passes nil or a slice it holds. *)
Definition holds (w : World) (x : slice) : bool :=
  match x with Some a => bool_decide (a ∈ held w) | None => true end.

(** The slice a read returns is then held by the caller. *)
Definition give (r : slice * list string) (w : World) : World * slice :=
  (mkWorld r.2 (persisters w) (match r.1 with Some a => {[a]} ∪ held w | None => held w end), r.1).

(** The next world and the slice returned, if any; [None] when the caller cannot do
    this. *)
Definition perform (o : Op) (w : World) : option (World * slice) :=
  match o with
  | OMake => Some (mkWorld (mem w) (persisters w ++ [MakePersister]) (held w), None)
  | OCopy p => ps ← persisters w !! p; Some (mkWorld (mem w) (persisters w ++ [Copy ps]) (held w), None)
  | OSave p rs sn =>
      if holds w rs && holds w sn then
        _ ← persisters w !! p;
        let '(ps, m) := Save rs sn (mem w) in
        Some (mkWorld m (<[p := ps]> (persisters w)) (held w), None)
      else None
  | OReadRaftState p => ps ← persisters w !! p; Some (give (ReadRaftState ps (mem w)) w)
  | OReadSnapshot p => ps ← persisters w !! p; Some (give (ReadSnapshot ps (mem w)) w)
  | OAlloc bytes => Some (give (Some (length (mem w)), mem w ++ [bytes]) w)
  | OWrite a bytes =>
      if decide (a ∈ held w) then Some (mkWorld (<[a := bytes]> (mem w)) (persisters w) (held w), None) else None
  end.

Definition start : World := mkWorld [] [] ∅.

(** ** The contract: a persister is a pair of values *)

Definition saved (w : World) : list (string * string) :=
  (fun ps => (bytes_of (mem w) (raftstate ps), bytes_of (mem w) (snapshot ps))) <$> persisters w.

(** What an operation does to the saved values, given the values of its arguments. *)
Definition spec (o : Op) (value : slice -> string) (l : list (string * string)) : list (string * string) :=
  match o with
  | OMake => l ++ [("", "")]
  | OCopy p => match l !! p with Some v => l ++ [v] | None => l end
  | OSave p rs sn => <[p := (value rs, value sn)]> l
  | _ => l
  end.

(** ** Ownership *)

Definition owned (w : World) (x : slice) : Prop :=
  match x with Some a => a < length (mem w) /\ a ∉ held w | None => True end.

Record isolated (w : World) : Prop := {
  is_owned : Forall (fun ps => owned w (raftstate ps) /\ owned w (snapshot ps)) (persisters w);
  is_held a : a ∈ held w -> a < length (mem w);
}.

Lemma bytes_of_app m m' w x : mem w = m -> owned w x -> bytes_of (m ++ m') x = bytes_of m x.
Proof. destruct x as [a|]; simpl; [|done]. intros <- [Ha _]. by rewrite lookup_app_l. Qed.

(** More memory, and more held cells among the new ones. *)
Lemma owned_grow w m' h' x :
  owned w x -> (forall a, a ∈ h' -> a ∈ held w \/ length (mem w) <= a) ->
  owned (mkWorld (mem w ++ m') (persisters w) h') x.
Proof.
  destruct x as [a|]; simpl; [|done]. intros [Ha Hn] Hh. rewrite length_app. split; [lia|].
  intros Hin. destruct (Hh a Hin) as [?|?]; [done|lia].
Qed.

Lemma grow_saved w m' h' :
  isolated w -> (forall a, a ∈ h' -> a ∈ held w \/ length (mem w) <= a < length (mem w) + length m') ->
  isolated (mkWorld (mem w ++ m') (persisters w) h') /\
  saved (mkWorld (mem w ++ m') (persisters w) h') = saved w.
Proof.
  intros [Ho Hh] Hin. split; [split; simpl|].
  - eapply Forall_impl; [exact Ho|]. intros ps [H1 H2].
    split; apply owned_grow; try done; intros a Ha; destruct (Hin a Ha); [by left|right; lia|by left|right; lia].
  - intros a Ha. rewrite length_app. destruct (Hin a Ha) as [Hw|?]; [specialize (Hh a Hw)|]; lia.
  - unfold saved; simpl. apply list_fmap_ext. intros i ps Hps.
    destruct (Forall_lookup_1 _ _ _ _ Ho Hps) as [H1 H2]. f_equal; by eapply bytes_of_app.
Qed.

Lemma bytes_of_write w a b x : a ∈ held w -> owned w x -> bytes_of (<[a := b]> (mem w)) x = bytes_of (mem w) x.
Proof.
  destruct x as [c|]; simpl; [|done]. intros Ha [Hc Hn]. rewrite list_lookup_insert_ne; [done|]. by intros ->.
Qed.

(** ** Each operation *)

Lemma clone_returns x m : bytes_of (clone x m).2 (clone x m).1 = bytes_of m x.
Proof. unfold clone; simpl. by rewrite list_lookup_middle. Qed.

Lemma give_clone w x :
  isolated w ->
  isolated (give (clone x (mem w)) w).1 /\ saved (give (clone x (mem w)) w).1 = saved w /\
  bytes_of (mem (give (clone x (mem w)) w).1) (give (clone x (mem w)) w).2 = bytes_of (mem w) x /\
  forall a, (give (clone x (mem w)) w).2 = Some a -> a ∈ held (give (clone x (mem w)) w).1.
Proof.
  intros Hi. unfold give. simpl. destruct (grow_saved w [bytes_of (mem w) x] ({[length (mem w)]} ∪ held w) Hi)
    as [H1 H2].
  - intros a [->%elem_of_singleton|Ha]%elem_of_union; [right; simpl; lia|by left].
  - split_and!; [done|done|by rewrite list_lookup_middle|]. intros a [= <-]. set_solver.
Qed.

Lemma save_spec w p rs sn ps :
  isolated w -> persisters w !! p = Some ps ->
  let w' := mkWorld (Save rs sn (mem w)).2 (<[p := (Save rs sn (mem w)).1]> (persisters w)) (held w) in
  isolated w' /\ (holds w rs -> holds w sn ->
    saved w' = <[p := (bytes_of (mem w) rs, bytes_of (mem w) sn)]> (saved w)).
Proof.
  intros Hi Hp. unfold Save; simpl. rewrite length_app. simpl.
  set (m' := (mem w ++ [bytes_of (mem w) rs]) ++ [bytes_of (mem w ++ [bytes_of (mem w) rs]) sn]).
  assert (Hm : m' = mem w ++ [bytes_of (mem w) rs; bytes_of (mem w ++ [bytes_of (mem w) rs]) sn])
    by (unfold m'; by rewrite <- app_assoc).
  destruct (grow_saved w [bytes_of (mem w) rs; bytes_of (mem w ++ [bytes_of (mem w) rs]) sn] (held w) Hi)
    as [[Ho Hh] Hsv]; [by left|]. rewrite <- Hm in *. simpl in *.
  pose proof (is_held _ Hi) as Hheld. split; [split; simpl; [|done]|].
  - apply Forall_insert; [done|]. rewrite Hm. simpl. rewrite length_app. simpl.
    split; (split; [lia|]); intros Ha%Hheld; lia.
  - intros _ Hsn. unfold saved in *. simpl in *. rewrite list_fmap_insert, Hsv. simpl. f_equal. f_equal.
    + rewrite Hm, list_lookup_middle by done. done.
    + rewrite Hm, lookup_app_r by lia. replace (length (mem w) + 1 - length (mem w)) with 1 by lia. simpl.
      destruct sn as [a|]; simpl; [|done]. apply bool_decide_spec, Hheld in Hsn.
      by rewrite lookup_app_l.
Qed.

Lemma perform_spec o w w' ret :
  isolated w -> perform o w = Some (w', ret) ->
  isolated w' /\ saved w' = spec o (bytes_of (mem w)) (saved w) /\
  match o with
  | OReadRaftState p => exists v, saved w !! p = Some v /\ bytes_of (mem w') ret = v.1
  | OReadSnapshot p => exists v, saved w !! p = Some v /\ bytes_of (mem w') ret = v.2
  | _ => True
  end.
Proof.
  intros Hi Hp. destruct o as [|p|p rs sn|p|p|b|a b]; simpl in Hp.
  - injection Hp as <- <-. destruct Hi as [Ho Hh]. split_and!; [split; simpl; [|done]| |done].
    + apply Forall_app_2; [done|]. by repeat constructor.
    + unfold saved; simpl. by rewrite fmap_app.
  - apply bind_Some in Hp as (ps & Hps & [= <- <-]). destruct Hi as [Ho Hh].
    pose proof (Forall_lookup_1 _ _ _ _ Ho Hps) as Hop. split_and!; [split; simpl; [|done]| |done].
    + apply Forall_app_2; [done|]. by constructor.
    + simpl. unfold saved; simpl. by rewrite list_lookup_fmap, Hps, fmap_app.
  - destruct (holds w rs && holds w sn) eqn:Hhold; [|done]. apply andb_true_iff in Hhold as [Hrs Hsn].
    apply bind_Some in Hp as (ps & Hps & [= <- <-]).
    destruct (save_spec w p rs sn ps Hi Hps) as [H1 H2]. unfold Save in *. simpl in *.
    split_and!; [done|by apply H2; rewrite ?Hrs, ?Hsn|done].
  - apply bind_Some in Hp as (ps & Hps & [= <- <-]).
    destruct (give_clone w (raftstate ps) Hi) as (H1 & H2 & H3 & _). split_and!; [done|done|].
    unfold saved. rewrite list_lookup_fmap, Hps. simpl. eauto.
  - apply bind_Some in Hp as (ps & Hps & [= <- <-]).
    destruct (give_clone w (snapshot ps) Hi) as (H1 & H2 & H3 & _). split_and!; [done|done|].
    unfold saved. rewrite list_lookup_fmap, Hps. simpl. eauto.
  - injection Hp as <- <-. simpl. destruct (grow_saved w [b] ({[length (mem w)]} ∪ held w) Hi) as [H1 H2].
    + intros a [->%elem_of_singleton|Ha]%elem_of_union; [right; simpl; lia|by left].
    + by split_and!.
  - case_decide as Ha; [|done]. injection Hp as <- <-. destruct Hi as [Ho Hh]. split_and!; [split; simpl| |done].
    + eapply Forall_impl; [exact Ho|]. intros ps [H1 H2].
      split; [destruct (raftstate ps)|destruct (snapshot ps)]; simpl in *; rewrite ?length_insert; done.
    + intros c. rewrite length_insert. apply Hh.
    + simpl. unfold saved; simpl. apply list_fmap_ext. intros i ps Hps.
      destruct (Forall_lookup_1 _ _ _ _ Ho Hps) as [H1 H2]. f_equal; by apply bytes_of_write.
Qed.

Lemma start_isolated : isolated start.
Proof. split; simpl; [constructor|set_solver]. Qed.
