(* ===== verification/LabTheorems.v ===== *)
(** * What labgob and the persister guarantee

    The claims about src/src/labgob/labgob.go and src/src/raft/persister.go, with the
    inputs on which they are run. *)

From S2P Require Import Prelude GoLib Mrapps Labgob Persister.

(** ** labgob *)

(** C28. The walk over types ends on every type graph, cyclic ones included, with
    fuel one more than the number of types, and it complains exactly about what it
    should: after values of the types [ts] went through the encoder, the decoder or
    the registration, in any order, the checked types are those reachable from [ts],
    and the error count is the number of lower-case fields in them, each counted
    once however often its type was met. *)
Theorem labgob_checks_each_type_once (types : list GoType) (IsUpper : Z -> bool) (ts : list nat) :
  closed_types types -> Forall (fun t => t < length types) ts ->
  exists st, check_all types IsUpper ts lab_init = Some st /\
    (forall u, u ∈ checked st <-> exists t, t ∈ ts /\ rtc (refers types) t u) /\
    errorCount st = Z.of_nat (sum_lower types IsUpper (checked st)).
Proof.
  intros Hcl Hts. set (R := fun u => exists t, t ∈ ts /\ rtc (refers types) t u).
  destruct (check_all_explored types IsUpper R ts lab_init) as (st & Hst & [_ Hc Hf He] & Hin); [done| | |].
  - intros u v (t & Ht & Hr) Huv. exists t. split; [done|]. by eapply rtc_r.
  - apply Forall_forall. intros t Ht. split; [by eapply Forall_forall in Hts|]. exists t. split; [done|apply rtc_refl].
  - exists st. split; [done|]. split.
    + intros u. split; [intros Hu; apply Hf; [done|set_solver]|]. intros (t & Ht & Hr).
      apply Hin in Ht. clear Hin. induction Hr as [x|x y z Hxy _ IH]; [done|]. apply IH.
      eapply Hc; [exact Ht|set_solver|done].
    + rewrite He. simpl. rewrite difference_empty_L. lia.
Qed.

(** A list type: a struct with a lower-case field and a pointer to itself, used by a
    map of lists and by the arguments of a call. *)
Definition list_types : list GoType :=
  [mkType "Node" (KStruct [mkField "value" 1; mkField "Next" 2]); mkType "int" KOther; mkType "" (KElem 0);
   mkType "" (KMap 1 0); mkType "Args" (KStruct [mkField "Lists" 3; mkField "size" 1])].

Definition ascii_upper (r : Z) : bool := bool_decide (65 <= r <= 90)%Z.

Lemma labgob_checks_each_type_once_witness :
  exists st, check_all list_types ascii_upper [0; 4; 2; 4] lab_init = Some st /\
    (forall u, u ∈ checked st <-> exists t, t ∈ [0; 4; 2; 4] /\ rtc (refers list_types) t u) /\
    errorCount st = Z.of_nat (sum_lower list_types ascii_upper (checked st)).
Proof.
  apply labgob_checks_each_type_once.
  - intros t u Ht Hr. unfold refers in Hr. simpl in Ht.
    assert (Hall : Forall (fun t => Forall (fun u => u < 5) (succs list_types t)) [0; 1; 2; 3; 4])
      by (repeat constructor; simpl; lia).
    rewrite Forall_forall in Hall. specialize (Hall t ltac:(set_solver by lia)). by eapply Forall_forall in Hall.
  - repeat constructor; simpl; lia.
Defined.

(** ** The persister *)

(** A persister keeps what was saved. Whatever programs do with the slices they
    pass to [Save] and get from the reads, and however persisters are copied, each
    persister behaves as a pair of values of its own: [Save] replaces the pair by the
    bytes the arguments had at the call, [Copy] starts from the pair of the original,
    reads return the bytes of the pair, and nothing else changes any pair. *)
Theorem persister_keeps_saved (w w' : World) (o : Op) (ret : slice) :
  rtc (fun x y => exists o r, perform o x = Some (y, r)) start w ->
  perform o w = Some (w', ret) ->
  saved w' = spec o (bytes_of (mem w)) (saved w) /\
  match o with
  | OReadRaftState p => exists v, saved w !! p = Some v /\ bytes_of (mem w') ret = v.1
  | OReadSnapshot p => exists v, saved w !! p = Some v /\ bytes_of (mem w') ret = v.2
  | _ => True
  end.
Proof.
  intros Hr Hp. assert (Hi : isolated w).
  { refine (rtc_ind_r isolated start start_isolated _ w Hr).
    intros x y _ (o' & r & Hxy) Hx. by eapply perform_spec in Hxy as [? _]. }
  by eapply perform_spec in Hp as [_ Hs].
Qed.

(** A state is saved, the persister copied, the caller's array overwritten, and the
    first persister saved again. *)
Definition saving : list Op :=
  [OMake; OAlloc "log"; OSave 0 (Some 0) None; OCopy 0; OWrite 0 "xxx"; OSave 0 (Some 0) (Some 0)].

Fixpoint perform_all (os : list Op) (w : World) : option World :=
  match os with
  | [] => Some w
  | o :: os => '(w, _) ← perform o w; perform_all os w
  end.

Lemma perform_all_reachable os w w' :
  perform_all os w = Some w' -> rtc (fun x y => exists o r, perform o x = Some (y, r)) w w'.
Proof.
  revert w. induction os as [|o os IH]; intros w; simpl; [by intros [= <-]; apply rtc_refl|].
  destruct (perform o w) as [[w1 r]|] eqn:Hp; simpl; [|done]. intros Hr. eapply rtc_l; [by exists o, r|by apply IH].
Qed.

Lemma persister_keeps_saved_witness :
  exists w w' ret, perform_all saving start = Some w /\ perform (OReadRaftState 1) w = Some (w', ret) /\
    bytes_of (mem w') ret = "log" /\
    saved w' = spec (OReadRaftState 1) (bytes_of (mem w)) (saved w).
Proof.
  eexists _, _, _. split; [vm_compute; reflexivity|]. split; [vm_compute; reflexivity|].
  split; [vm_compute; reflexivity|].
  eapply (persister_keeps_saved _ _ (OReadRaftState 1)); [|vm_compute; reflexivity].
  apply (perform_all_reachable saving). vm_compute. reflexivity.
Defined.
