(* ===== verification/RaftHarness.v ===== *)
(** * The checks of the Raft tester: src/src/raft/config.go

    What the tester does with the messages that servers send on their apply
    channels, with and without snapshots, and the checks of leaders, terms and
    committed entries. A command is a value of the type [Cmd] (an [interface{}]
    compared with [==]); what servers answer to [GetState] and [Start] is an
    argument. A failed check ends the test. *)

From S2P Require Import Prelude GoLib.

Section harness.
Context {Cmd : Type} `{!EqDecision Cmd}.
(** The nil command. *)
Variable nilC : Cmd.

(** ** Messages and errors *)

(** raft.go; a nil snapshot is [None]. *)
Record ApplyMsg := mkApplyMsg {
  CommandValid : bool;
  Command : Cmd;
  CommandIndex : Z;
  SnapshotValid : bool;
  Snapshot : option string;
  SnapshotTerm : Z;
  SnapshotIndex : Z;
}.

(** The error messages, with what they print. *)
Inductive ApplyError :=
  | Differs (index : Z) (i : nat) (v : Cmd) (j : nat) (old : Cmd)
  | OutOfOrder (i : nat) (index : Z)
  | Unexpected (i : nat) (expected got : Z)
  | NilSnapshot
  | BadSnapshot
  | WrongSnapshot (i : nat).

(** The part of [config] the checks use. *)
Record Cfg := mkCfg {
  logs : list (gmap Z Cmd);
  lastApplied : list Z;
  maxIndex : Z;
}.

(** Go on, end the process with a message, or panic (an index out of range). *)
Inductive Verdict (A : Type) := Continue (x : A) | Fatal (e : ApplyError) | Panicked.

(** ** checkLogs and applier *)

(** The loop of [checkLogs] from the server [j] on: the last server that committed
    something else at this index. *)
Fixpoint conflict (i : nat) (m : ApplyMsg) (j : nat) (ls : list (gmap Z Cmd)) (err : option ApplyError)
    : option ApplyError :=
  match ls with
  | [] => err
  | l :: ls =>
      conflict i m (S j) ls
        (match l !! CommandIndex m with
         | Some old => if decide (old <> Command m) then Some (Differs (CommandIndex m) i (Command m) j old) else err
         | None => err
         end)
  end.

(** [checkLogs]: the error, whether the previous entry is there, and the new state;
    [None] when there is no server [i]. *)
Definition checkLogs (i : nat) (m : ApplyMsg) (c : Cfg) : option (option ApplyError * bool * Cfg) :=
  log ← logs c !! i;
  let err_msg := conflict i m 0 (logs c) None in
  let prevok := bool_decide (is_Some (log !! (CommandIndex m - 1)%Z)) in
  Some (err_msg, prevok,
        mkCfg (<[i := <[CommandIndex m := Command m]> log]> (logs c)) (lastApplied c)
          (if decide (CommandIndex m > maxIndex c)%Z then CommandIndex m else maxIndex c)).

(** The error of [checkLogs], replaced when the previous entry is missing. *)
Definition order_error (i : nat) (m : ApplyMsg) (err : option ApplyError) (prevok : bool) : option ApplyError :=
  if decide (CommandIndex m > 1 /\ prevok = false)%Z then Some (OutOfOrder i (CommandIndex m)) else err.

(** The body of the loop of [applier]. *)
Definition applier (i : nat) (m : ApplyMsg) (c : Cfg) : Verdict Cfg :=
  if CommandValid m then
    match checkLogs i m c with
    | None => Panicked _
    | Some (err, prevok, c') =>
        match order_error i m err prevok with
        | Some e => Fatal _ e
        | None => Continue _ c'
        end
    end
  else Continue _ c.

(** ** Snapshots *)

(** labgob for a snapshot, an index and a list of commands. *)
Variable encode : Z -> list Cmd -> string.
Variable decode : string -> option (Z * list Cmd).

Definition SnapShotInterval : Z := 10.

(** [cfg.logs[i] = ...; cfg.logs[i][j] = xlog[j]] *)
Definition log_of (xlog : list Cmd) : gmap Z Cmd :=
  list_to_map (imap (fun j v => (Z.of_nat j, v)) xlog).

(** [ingestSnap] *)
Definition ingestSnap (i : nat) (snapshot : option string) (index : Z) (c : Cfg) : Verdict Cfg :=
  match snapshot with
  | None => Fatal _ NilSnapshot
  | Some s =>
      match decode s with
      | None => Fatal _ BadSnapshot
      | Some (lastIncludedIndex, xlog) =>
          if decide (index <> -1 /\ index <> lastIncludedIndex)%Z then Fatal _ (WrongSnapshot i)
          else if decide (i < length (logs c) /\ i < length (lastApplied c))
          then Continue _ (mkCfg (<[i := log_of xlog]> (logs c)) (<[i := lastIncludedIndex]> (lastApplied c))
                             (maxIndex c))
          else Panicked _
      end
  end.

(** The entries 0 to [index] of a log; a missing entry of the map is nil. *)
Definition entries_upto (index : Z) (log : gmap Z Cmd) : list Cmd :=
  (fun j => default nilC (log !! j)) <$> seqZ 0 (index + 1).

(** The body of the loop of [applierSnap]: the new state and what it passes to
    [rf.Snapshot]. After an error the loop still runs to [log.Fatalf], which ends the
    process. *)
Definition applierSnap (i : nat) (m : ApplyMsg) (c : Cfg) : Verdict (Cfg * option (Z * string)) :=
  if SnapshotValid m then
    match ingestSnap i (Snapshot m) (SnapshotIndex m) c with
    | Continue _ c' => Continue _ (c', None)
    | Fatal _ e => Fatal _ e
    | Panicked _ => Panicked _
    end
  else if CommandValid m then
    match lastApplied c !! i with
    | None => Panicked _
    | Some last =>
        if decide (CommandIndex m <> last + 1)%Z then Fatal _ (Unexpected i (last + 1) (CommandIndex m))
        else
          match checkLogs i m c with
          | None => Panicked _
          | Some (err, prevok, c1) =>
              match order_error i m err prevok with
              | Some e => Fatal _ e
              | None =>
                  let c2 := mkCfg (logs c1) (<[i := CommandIndex m]> (lastApplied c1)) (maxIndex c1) in
                  Continue _ (c2,
                    if decide ((CommandIndex m + 1) `rem` SnapShotInterval = 0)%Z
                    then Some (CommandIndex m,
                               encode (CommandIndex m)
                                 (entries_upto (CommandIndex m) (default ∅ (logs c2 !! i))))
                    else None)
              end
          end
    end
  else Continue _ (c, None).

(** ** Leaders and terms *)

(** What the connected servers answer to [GetState]: a term and whether the server
    thinks it is the leader. *)
Abbreviation Answers := (list (Z * bool)).

(** [leaders[term] = append(leaders[term], i)] for the connected servers that claim to
    lead, from the server [i] on. *)
Fixpoint leaders_from (i : nat) (connected : list bool) (st : Answers) (ls : gmap Z (list nat))
    : gmap Z (list nat) :=
  match connected, st with
  | up :: connected, (term, leader) :: st =>
      leaders_from (S i) connected st
        (if up && leader then <[term := default [] (ls !! term) ++ [i]]> ls else ls)
  | _, _ => ls
  end.

Inductive LeaderCheck := TwoLeaders | OneLeader (i : nat) | NoLeader | NoSuchTerm.

(** One iteration of the loop of [checkOneLeader], after the sleep. *)
Definition leader_round (connected : list bool) (st : Answers) : LeaderCheck :=
  let ls := leaders_from 0 connected st ∅ in
  if existsb (fun '(_, l) => bool_decide (1 < length l)) (map_to_list ls) then TwoLeaders
  else
    let lastTermWithLeader := map_fold (fun t _ last => if decide (t > last)%Z then t else last) (-1)%Z ls in
    if decide (ls = ∅) then NoLeader
    else match ls !! lastTermWithLeader with
         | Some (i :: _) => OneLeader i
         | _ => NoSuchTerm
         end.

(** The loop of [checkOneLeader] from the iteration [iters], with the answers of the
    servers at each iteration: the server, or nothing after [Fatalf] or a panic. *)
Fixpoint leader_loop (connected : list bool) (answers : nat -> Answers) (fuel iters : nat) : option nat :=
  match fuel with
  | 0 => None
  | S fuel =>
      match leader_round connected (answers iters) with
      | OneLeader i => Some i
      | NoLeader => leader_loop connected answers fuel (S iters)
      | TwoLeaders | NoSuchTerm => None
      end
  end.

(** Ten iterations. *)
Definition checkOneLeader (connected : list bool) (answers : nat -> Answers) : option nat :=
  leader_loop connected answers 10 0.

(** [checkTerms]: the term of the connected servers, -1 without any, nothing when two
    disagree. *)
Definition checkTerms (connected : list bool) (st : Answers) : option Z :=
  foldl (fun acc '(up, (xterm, _)) =>
    term ← acc;
    if (up : bool) then
      if decide (term = -1)%Z then Some xterm
      else if decide (term <> xterm) then None else Some term
    else Some term) (Some (-1)%Z) (zip connected st).

(** [checkNoLeader] *)
Definition checkNoLeader (connected : list bool) (st : Answers) : bool :=
  forallb (fun '(up, (_, leader)) => negb (up && leader)) (zip connected st).

(** ** Committed entries *)

(** The loop of [nCommitted] over the logs, [count] and [cmd] so far; nothing after
    [Fatalf]. [applyErr] is never set, since [log.Fatalf] comes first. *)
Fixpoint nCommitted_from (index : Z) (ls : list (gmap Z Cmd)) (count : nat) (cmd : Cmd) : option (nat * Cmd) :=
  match ls with
  | [] => Some (count, cmd)
  | l :: ls =>
      match l !! index with
      | Some cmd1 =>
          if decide (0 < count /\ cmd <> cmd1) then None
          else nCommitted_from index ls (S count) cmd1
      | None => nCommitted_from index ls count cmd
      end
  end.

Definition nCommitted (index : Z) (ls : list (gmap Z Cmd)) : option (nat * Cmd) :=
  nCommitted_from index ls 0 nilC.

(** What [wait] sees in an iteration: the logs when it counts, and the terms of the
    servers after the sleep. *)
Record WaitView := mkView { wv_logs : list (gmap Z Cmd); wv_terms : list Z }.

Inductive WaitResult := Committed (cmd : Cmd) | MovedOn | WaitFailed.

(** The loop of [wait] for the views of its iterations, and the count after it. *)
Fixpoint wait_from (index : Z) (n : nat) (startTerm : Z) (iters : nat) (view : nat -> WaitView) (last : list (gmap Z Cmd))
    : WaitResult :=
  let finish := match nCommitted index last with
                | Some (nd, cmd) => if decide (nd < n) then WaitFailed else Committed cmd
                | None => WaitFailed
                end in
  match iters with
  | 0 => finish
  | S iters =>
      match nCommitted index (wv_logs (view iters)) with
      | None => WaitFailed
      | Some (nd, _) =>
          if decide (n <= nd) then finish
          else if bool_decide (startTerm > -1)%Z && existsb (fun t => bool_decide (t > startTerm)%Z) (wv_terms (view iters))
          then MovedOn
          else wait_from index n startTerm iters view last
      end
  end.

(** [wait]: 30 iterations; [view] counts down. *)
Definition wait (index : Z) (n : nat) (startTerm : Z) (view : nat -> WaitView) (last : list (gmap Z Cmd))
    : WaitResult := wait_from index n startTerm 30 view last.

(** ** one *)

(** What one iteration of [one] meets: the servers that are up and what [Start]
    returns there (index and whether it is the leader), and the logs at the polls
    of the two seconds that follow. *)
Record Attempt := mkAttempt {
  at_starts : list (option (Z * bool));
  at_polls : list (list (gmap Z Cmd));
}.

(** The loop over the servers, from the one after [starts]: the index and the last
    server tried. A crashed or disconnected server is [None]. *)
Fixpoint find_leader (n : nat) (servers : list (option (Z * bool))) (si starts : nat) : Z * nat :=
  match si with
  | 0 => ((-1)%Z, starts)
  | S si =>
      let starts := S starts `mod` n in
      match servers !! starts with
      | Some (Some (index1, true)) => (index1, starts)
      | _ => find_leader n servers si starts
      end
  end.

(** The polls: [None] is [Fatalf] in [nCommitted], [Some false] no agreement. *)
Fixpoint poll (index : Z) (cmd : Cmd) (expectedServers : nat) (polls : list (list (gmap Z Cmd))) : option bool :=
  match polls with
  | [] => Some false
  | ls :: polls =>
      '(nd, cmd1) ← nCommitted index ls;
      if decide (0 < nd /\ expectedServers <= nd /\ cmd1 = cmd) then Some true
      else poll index cmd expectedServers polls
  end.

(** [one], for the attempts that begin before ten seconds are over and while the
    test is not finished; [None] is [Fatalf]. *)
Fixpoint one_loop (cmd : Cmd) (expectedServers : nat) (retry finished : bool) (n starts : nat)
    (attempts : list Attempt) : option Z :=
  match attempts with
  | [] => if finished then Some (-1)%Z else None
  | a :: attempts =>
      let '(index, starts) := find_leader n (at_starts a) n starts in
      if decide (index <> -1)%Z then
        agreed ← poll index cmd expectedServers (at_polls a);
        if (agreed : bool) then Some index
        else if (retry : bool) then one_loop cmd expectedServers retry finished n starts attempts
        else None
      else one_loop cmd expectedServers retry finished n starts attempts
  end.

Definition one (cmd : Cmd) (expectedServers : nat) (retry finished : bool) (n : nat) (attempts : list Attempt)
    : option Z := one_loop cmd expectedServers retry finished n 0 attempts.
End harness.
