(* ===== verification/RaftHarnessFacts.v ===== *)
(** * Facts about the checks of the Raft tester *)

From S2P Require Import Prelude GoLib RaftHarness.

Set Default Proof Using "Type".

(** ** The apply channels *)

Section applier.
Context {Cmd : Type} `{!EqDecision Cmd}.
Abbreviation Msg := (@ApplyMsg Cmd).
Implicit Types (m : Msg) (ms : list (nat * Msg)) (c : @Cfg Cmd).

(** Messages of the servers, in the order in which the tester handles them. *)
Definition apply_one (acc : option (@Cfg Cmd)) (x : nat * Msg) : option (@Cfg Cmd) :=
  c ← acc; match applier x.1 x.2 c with Continue _ c' => Some c' | _ => None end.

Definition apply_all ms c : option (@Cfg Cmd) := foldl apply_one (Some c) ms.

(** The tester of [n] servers at the start. *)
Definition cfg_start (n : nat) : @Cfg Cmd := mkCfg (replicate n ∅) (replicate n 0%Z) 0.

(** The server [i] applied the command [v] at the index [k]. *)
Definition applied ms (i : nat) (k : Z) (v : Cmd) : Prop :=
  exists m, (i, m) ∈ ms /\ CommandValid m = true /\ CommandIndex m = k /\ Command m = v.

(** What the tester asks of the messages: they come from its servers, all servers
    apply the same command at an index, and a server applies the entries in order. *)
Record consistent (n : nat) ms : Prop := {
  co_range i k v : applied ms i k v -> i < n;
  co_agree i j k v w : applied ms i k v -> applied ms j k w -> v = w;
  co_order p i m : ms !! p = Some (i, m) -> CommandValid m = true -> (1 < CommandIndex m)%Z ->
    exists v, applied (take p ms) i (CommandIndex m - 1) v;
}.

Definition entry_at c (i : nat) (k : Z) : option Cmd := l ← logs c !! i; l !! k.

(** The logs hold what was applied. *)
Record reflects (n : nat) ms c : Prop := {
  re_length : length (logs c) = n;
  re_entry i k v : entry_at c i k = Some v <-> applied ms i k v;
}.

Lemma applied_app ms ms' i k v : applied (ms ++ ms') i k v <-> applied ms i k v \/ applied ms' i k v.
Proof. unfold applied. setoid_rewrite elem_of_app. naive_solver. Qed.

Lemma applied_one i m j k v :
  applied [(i, m)] j k v <-> j = i /\ CommandValid m = true /\ CommandIndex m = k /\ Command m = v.
Proof.
  unfold applied. setoid_rewrite list_elem_of_singleton. split.
  - by intros (m' & [= -> ->] & ?).
  - intros (-> & ?). eauto.
Qed.

Lemma conflict_none i m j ls err :
  conflict i m j ls err = None <->
  err = None /\ forall l old, l ∈ ls -> l !! CommandIndex m = Some old -> old = Command m.
Proof.
  revert j err. induction ls as [|l ls IH]; intros j err; simpl; [set_solver|]. rewrite IH. split.
  - intros [He Hall]. destruct (l !! CommandIndex m) as [old|] eqn:Hl.
    + case_decide as Hd; [done|]. split; [done|].
      intros l' old' [->|Hin]%elem_of_cons; [congruence|by apply Hall].
    + split; [done|]. intros l' old' [->|Hin]%elem_of_cons; [congruence|by apply Hall].
  - intros [-> Hall]. split; [|intros l' old' Hin; apply Hall; by right].
    destruct (l !! CommandIndex m) as [old|] eqn:Hl; [|done]. rewrite decide_False; [done|].
    intros Hne. apply Hne. eapply Hall; [by left|done].
Qed.

(** A message is accepted exactly when it fits the logs, and is then in the log of
    its server. *)
Lemma applier_continue i m c c' :
  CommandValid m = true ->
  applier i m c = Continue _ c' <->
  i < length (logs c) /\
  (forall j old, entry_at c j (CommandIndex m) = Some old -> old = Command m) /\
  ((1 < CommandIndex m)%Z -> is_Some (entry_at c i (CommandIndex m - 1))) /\
  c' = mkCfg (<[i := <[CommandIndex m := Command m]> (default ∅ (logs c !! i))]> (logs c)) (lastApplied c)
         (Z.max (CommandIndex m) (maxIndex c)).
Proof.
  intros Hv. unfold applier. rewrite Hv. unfold checkLogs, entry_at.
  destruct (logs c !! i) as [l|] eqn:Hl; simpl;
    [|split; [intros [=]|intros (Hi & _); apply lookup_ge_None_1 in Hl; lia]].
  assert (Hlt : i < length (logs c)) by (by eapply lookup_lt_Some).
  assert (Hmax : (if decide (CommandIndex m > maxIndex c)%Z then CommandIndex m else maxIndex c)
    = Z.max (CommandIndex m) (maxIndex c)) by (case_decide; lia).
  assert (Hconf : conflict i m 0 (logs c) None = None <->
    forall j old, (l ← logs c !! j; l !! CommandIndex m) = Some old -> old = Command m).
  { rewrite conflict_none. split.
    - intros [_ Hall] j old (l' & Hl' & Ho)%bind_Some. eapply Hall; [by eapply list_elem_of_lookup_2|done].
    - intros Hall. split; [done|]. intros l' old [j Hj]%list_elem_of_lookup Ho. apply (Hall j). by rewrite Hj. }
  unfold order_error. rewrite <- Hconf, Hmax. clear Hmax Hconf. case_decide as Hord.
  - split; [intros [=]|]. intros (_ & _ & Hp & _). destruct Hord as [Hgt Hfalse%bool_decide_eq_false].
    destruct Hfalse. apply Hp. lia.
  - destruct (conflict i m 0 (logs c) None); [naive_solver|]. split.
    + intros [= <-]. split_and!; [done|done| |done]. intros Hgt.
      destruct (bool_decide_reflect (is_Some (l !! (CommandIndex m - 1)%Z))) as [|Hn]; [done|].
      destruct Hord. split; [lia|done].
    + by intros (_ & _ & _ & ->).
Qed.

Lemma applier_skip i m c : CommandValid m = false -> applier i m c = Continue _ c.
Proof. intros Hv. unfold applier. by rewrite Hv. Qed.

Lemma reflects_snoc n ms c i m :
  reflects n ms c -> CommandValid m = true -> i < n ->
  (forall j old, entry_at c j (CommandIndex m) = Some old -> old = Command m) ->
  reflects n (ms ++ [(i, m)])
    (mkCfg (<[i := <[CommandIndex m := Command m]> (default ∅ (logs c !! i))]> (logs c)) (lastApplied c)
       (Z.max (CommandIndex m) (maxIndex c))).
Proof.
  intros [Hlen Hre] Hv Hi Hno. split; simpl; [by rewrite length_insert|].
  intros j k v. rewrite applied_app, applied_one, <- Hre. unfold entry_at in *; simpl.
  destruct (decide (j = i)) as [->|Hne].
  - rewrite list_lookup_insert_eq by lia. destruct (lookup_lt_is_Some_2 (logs c) i) as [l Hl]; [lia|].
    rewrite Hl; simpl. rewrite lookup_insert. case_decide as Hk.
    + subst k. split; [intros [= <-]; by right|]. intros [Hold|(_ & _ & _ & <-)]; [|done].
      f_equal. symmetry. apply (Hno i). by rewrite Hl.
    + split; [by left|]. intros [?|(_ & _ & ? & _)]; done.
  - rewrite list_lookup_insert_ne by done. split; [by left|]. intros [?|(? & _)]; done.
Qed.

Lemma take_snoc_le {A} (l : list A) x p y : (l ++ [x]) !! p = Some y -> take p (l ++ [x]) = take p l.
Proof. intros Hp%lookup_lt_Some. rewrite length_app in Hp; simpl in Hp. apply take_app_le. lia. Qed.

Lemma consistent_snoc n ms i m :
  consistent n (ms ++ [(i, m)]) <->
  consistent n ms /\ (CommandValid m = true ->
    i < n /\ (forall j w, applied ms j (CommandIndex m) w -> w = Command m) /\
    ((1 < CommandIndex m)%Z -> exists v, applied ms i (CommandIndex m - 1) v)).
Proof.
  split.
  - intros [Hr Ha Ho]. split; [split|].
    + intros i' k v Hi. apply (Hr i' k v), applied_app. by left.
    + intros i' j k v w Hi Hj. apply (Ha i' j k); apply applied_app; by left.
    + intros p i' m' Hp Hv Hgt. destruct (Ho p i' m') as [v Hv']; [by apply lookup_app_l_Some|done|done|].
      exists v. rewrite take_app_le in Hv'; [done|]. apply lookup_lt_Some in Hp. lia.
    + intros Hv. assert (Hm : applied (ms ++ [(i, m)]) i (CommandIndex m) (Command m))
        by (apply applied_app; right; by apply applied_one). split_and!.
      * by eapply Hr.
      * intros j w Hj. eapply Ha; [apply applied_app; by left|done].
      * intros Hgt. destruct (Ho (length ms) i m) as [v Hv']; [by apply list_lookup_middle|done|done|].
        exists v. by rewrite take_app_length in Hv'.
  - intros [[Hr Ha Ho] Hm]. split.
    + intros i' k v [Hi|(-> & Hv & _)%applied_one]%applied_app; [by eapply Hr|]. by apply Hm.
    + intros i' j k v w [Hi|(-> & Hv & Hk & <-)%applied_one]%applied_app
        [Hj|(-> & Hv' & Hk' & <-)%applied_one]%applied_app.
      * by eapply Ha.
      * subst k. by eapply (Hm Hv').
      * subst k. symmetry. by eapply (Hm Hv).
      * done.
    + intros p i' m' Hp Hv Hgt. rewrite (take_snoc_le _ _ _ _ Hp).
      apply lookup_app_Some in Hp as [Hp|[Hlen Hp]]; [by apply Ho|].
      apply list_lookup_singleton_Some in Hp as [Hz [= <- <-]].
      rewrite take_ge by lia. by apply Hm.
Qed.

(** The tester accepts the messages exactly when they are consistent. *)
Lemma apply_all_consistent n ms :
  match apply_all ms (cfg_start n) with
  | Some c => consistent n ms /\ reflects n ms c
  | None => ~ consistent n ms
  end.
Proof.
  induction ms as [|[i m] ms IH] using rev_ind.
  - simpl. split; [split|split].
    + by intros i k v (m & ?%elem_of_nil & _).
    + by intros i j k v w (m & ?%elem_of_nil & _).
    + done.
    + apply length_replicate.
    + intros i k v. unfold entry_at; simpl. split; [|by intros (m & ?%elem_of_nil & _)].
      intros (l & [-> _]%lookup_replicate & Hl)%bind_Some. by rewrite lookup_empty in Hl.
  - unfold apply_all in *. rewrite foldl_snoc. destruct (foldl apply_one _ ms) as [c|] eqn:Hc; simpl;
      [|intros [? _]%consistent_snoc; done].
    destruct IH as [Hco Hre]. destruct (CommandValid m) eqn:Hv.
    + assert (Hagree : (forall j old, entry_at c j (CommandIndex m) = Some old -> old = Command m) <->
        (forall j w, applied ms j (CommandIndex m) w -> w = Command m)).
      { split; intros Hx j w Hj; apply (Hx j w), (re_entry _ _ _ Hre), Hj. }
      assert (Hprev : is_Some (entry_at c i (CommandIndex m - 1)) <-> exists v, applied ms i (CommandIndex m - 1) v)
        by (unfold is_Some; by setoid_rewrite (re_entry _ _ _ Hre)).
      destruct (applier i m c) as [c'|e|] eqn:Happ.
      { apply applier_continue in Happ as (Hi & Hno & Hp & ->); [|done]. rewrite (re_length _ _ _ Hre) in Hi.
        split; [|by apply reflects_snoc]. apply consistent_snoc. split; [done|]. intros _.
        rewrite <- Hagree, <- Hprev. done. }
      all: intros [_ Hm]%consistent_snoc; destruct (Hm Hv) as (Hi & Hno & Hp);
        rewrite <- Hagree in Hno; rewrite <- Hprev in Hp; rewrite <- (re_length _ _ _ Hre) in Hi;
        pose proof (proj2 (applier_continue i m c _ Hv) (conj Hi (conj Hno (conj Hp eq_refl)))); congruence.
    + rewrite applier_skip by done. split; [apply consistent_snoc; split; [done|congruence]|].
      destruct Hre as [Hlen Hre]. split; [done|]. intros j k v.
      rewrite applied_app, applied_one, Hre. naive_solver congruence.
Qed.
End applier.

(** ** Leaders *)

Section leaders.
Implicit Types (up : list bool) (st : list (Z * bool)) (i : nat) (t : Z) (ls : gmap Z (list nat)).

(** The connected server [i] claims to lead the term [t]. *)
Definition claims up st i t : Prop := up !! i = Some true /\ st !! i = Some (t, true).

#[local] Instance claims_dec up st i t : Decision (claims up st i t) := _.

(** What the loop adds to the map: the claimants of each term, in order. *)
Definition claimants i up st t : list nat :=
  filter (fun k => claims up st (k - i) t) (seq i (length up)).

Lemma claimants_cons i b up x st t :
  claimants i (b :: up) (x :: st) t =
  (if decide (b = true /\ x = (t, true)) then [i] else []) ++ claimants (S i) up st t.
Proof.
  unfold claimants; simpl. rewrite filter_cons. replace (i - i) with 0 by lia. unfold claims at 1; simpl.
  assert (Hf : filter (fun k => claims (b :: up) (x :: st) (k - i) t) (seq (S i) (length up)) =
    filter (fun k => claims up st (k - S i) t) (seq (S i) (length up))).
  { apply filter_ext_Forall. apply Forall_forall. intros k [Hk _]%elem_of_seq.
    replace (k - i) with (S (k - S i)) by lia. done. }
  rewrite Hf. repeat case_decide; naive_solver.
Qed.

Lemma leaders_from_lookup i up st ls t :
  (forall t l, ls !! t = Some l -> l <> []) ->
  let ls' := leaders_from i up st ls in
  (forall t l, ls' !! t = Some l -> l <> []) /\
  default [] (ls' !! t) = default [] (ls !! t) ++ claimants i up st t.
Proof.
  revert i st ls. induction up as [|b up IH]; intros i st ls Hls; simpl.
  { split; [done|]. by rewrite app_nil_r. }
  destruct st as [|[u lead] st]; simpl.
  { split; [done|]. unfold claimants. rewrite (filter_ext_Forall _ (fun _ => False)).
    - induction (seq i _); simpl; by rewrite ?app_nil_r.
    - apply Forall_forall. intros k _. unfold claims. rewrite lookup_nil. naive_solver. }
  rewrite claimants_cons. destruct (b && lead) eqn:Hb.
  - apply andb_true_iff in Hb as [-> ->].
    destruct (IH (S i) st (<[u:=default [] (ls !! u) ++ [i]]> ls)) as [Hne Hl].
    { intros t' l. rewrite lookup_insert. case_decide; [|by eauto]. intros [= <-]. by destruct (default [] _). }
    split; [done|]. rewrite Hl, lookup_insert. destruct (decide (u = t)) as [->|Hne']; simpl.
    + rewrite decide_True by done. by rewrite <- app_assoc.
    + by rewrite decide_False by naive_solver.
  - destruct (IH (S i) st ls Hls) as [Hne Hl]. split; [done|]. rewrite Hl.
    rewrite decide_False; [done|]. intros [-> [= -> ->]]. done.
Qed.

Lemma elem_of_claimants up st t k : k ∈ claimants 0 up st t <-> claims up st k t.
Proof.
  unfold claimants. rewrite list_elem_of_filter, elem_of_seq. rewrite Nat.sub_0_r. split; [tauto|].
  intros Hc. split; [done|]. destruct Hc as [Hk%lookup_lt_Some _]. lia.
Qed.

Lemma NoDup_claimants up st t : NoDup (claimants 0 up st t).
Proof. apply NoDup_filter, NoDup_seq. Qed.

Lemma leaders_lookup up st t :
  leaders_from 0 up st ∅ !! t = match claimants 0 up st t with [] => None | l => Some l end.
Proof.
  destruct (leaders_from_lookup 0 up st ∅ t) as [Hne Hl]; [done|]. rewrite lookup_empty in Hl; simpl in Hl.
  destruct (leaders_from 0 up st ∅ !! t) as [l|] eqn:E; simpl in Hl; rewrite <- Hl; [|done].
  destruct l; [by apply Hne in E|done].
Qed.

Lemma leaders_term up st t : is_Some (leaders_from 0 up st ∅ !! t) <-> exists i, claims up st i t.
Proof.
  rewrite leaders_lookup. setoid_rewrite <- elem_of_claimants. destruct (claimants 0 up st t) as [|i l].
  - split; [by intros [??]|]. by intros [i ?%elem_of_nil].
  - split; [|by eauto]. intros _. exists i. by left.
Qed.

(** The loop that looks for the last term. *)
Lemma max_term ls :
  let last := map_fold (fun t _ last => if decide (t > last)%Z then t else last) (-1)%Z ls in
  (last = -1 \/ is_Some (ls !! last))%Z /\ forall t, is_Some (ls !! t) -> (t <= last)%Z.
Proof.
  apply (map_fold_weak_ind (fun last (m : gmap Z (list nat)) => (last = -1 \/ is_Some (m !! last))%Z /\
    forall t, is_Some (m !! t) -> (t <= last)%Z)).
  - split; [by left|]. intros t. rewrite lookup_empty. by intros [??].
  - intros u l m r Hu [Hr Hall]. split.
    + case_decide; [right; by rewrite lookup_insert_eq|]. destruct Hr as [?|Hr]; [by left|right].
      rewrite lookup_insert. by case_decide.
    + intros t. rewrite lookup_insert. case_decide as Ht; [subst t; case_decide; lia|].
      intros ?%Hall. case_decide; lia.
Qed.

Lemma two_claimants up st t l :
  leaders_from 0 up st ∅ !! t = Some l ->
  1 < length l <-> exists i j, i <> j /\ claims up st i t /\ claims up st j t.
Proof.
  intros Hl. rewrite leaders_lookup in Hl. setoid_rewrite <- elem_of_claimants.
  pose proof (NoDup_claimants up st t) as Hnd.
  destruct (claimants 0 up st t) as [|i [|j l']]; simplify_eq; simpl.
  - split; [lia|]. intros (i' & j' & Hne & ->%list_elem_of_singleton & ->%list_elem_of_singleton). done.
  - split; [|lia]. intros _. exists i, j. split; [|set_solver]. apply NoDup_cons in Hnd as [Hn _]. set_solver.
Qed.

(** What an iteration of [checkOneLeader] decides, when terms are not negative. *)
Lemma leader_round_spec up st :
  (forall i t, claims up st i t -> (0 <= t)%Z) ->
  match leader_round up st with
  | TwoLeaders => exists i j t, i <> j /\ claims up st i t /\ claims up st j t
  | OneLeader i =>
      (forall j k t, claims up st j t -> claims up st k t -> j = k) /\
      exists t, claims up st i t /\ forall j u, claims up st j u -> (u <= t)%Z
  | NoLeader => forall i t, ~ claims up st i t
  | NoSuchTerm => False
  end.
Proof.
  intros Hpos. unfold leader_round. set (ls := leaders_from 0 up st ∅).
  destruct (existsb _ _) eqn:Hex.
  { apply existsb_exists in Hex as ([t l] & Hin & Hl%bool_decide_eq_true).
    apply list_elem_of_In, elem_of_map_to_list in Hin.
    apply (two_claimants up st t l Hin) in Hl as (i & j & Hl). by exists i, j, t. }
  assert (Hone : forall j k t, claims up st j t -> claims up st k t -> j = k).
  { intros j k t Hj Hk. destruct (decide (j = k)) as [|Hne]; [done|].
    destruct (proj2 (leaders_term up st t)) as [l Hl]; [by exists j|].
    assert (Hin : existsb (fun '(_, l) => bool_decide (1 < length l)) (map_to_list ls) = true); [|congruence].
    apply existsb_exists. exists (t, l). split; [by apply list_elem_of_In, elem_of_map_to_list|].
    apply bool_decide_eq_true, (two_claimants up st t l Hl). by exists j, k. }
  case_decide as Hempty.
  { intros i t Hc. destruct (proj2 (leaders_term up st t)) as [l Hl]; [by exists i|]. fold ls in Hl.
    by rewrite Hempty, lookup_empty in Hl. }
  destruct (max_term ls) as [Hlast Hmax]. revert Hlast Hmax.
  set (last := map_fold _ _ ls). intros Hlast Hmax.
  assert (is_Some (ls !! last)) as [l Hl].
  { destruct Hlast as [Hneg|]; [|done]. apply map_choose in Hempty as (t & l & Ht).
    assert (Hs : is_Some (ls !! t)) by done. pose proof (Hmax t Hs).
    apply leaders_term in Hs as [i Hi]. apply Hpos in Hi. lia. }
  rewrite Hl. pose proof Hl as Hc. unfold ls in Hc. rewrite leaders_lookup in Hc.
  destruct l as [|i l]; [by destruct (claimants 0 up st last)|]. split; [done|]. exists last. split.
  - apply elem_of_claimants. destruct (claimants 0 up st last); simplify_eq. by left.
  - intros j u Hj. apply Hmax, leaders_term. by exists j.
Qed.

(** What the rest of the loop finds, when nobody claimed to lead before. *)
Definition leader_found up (answers : nat -> list (Z * bool)) (m : nat) (r : option nat) : Prop :=
  match r with
  | Some i => exists k t, k < m /\ (forall k' j u, k' < k -> ~ claims up (answers k') j u) /\
      claims up (answers k) i t /\ (forall j u, claims up (answers k) j u -> (u <= t)%Z) /\
      (forall j j' u, claims up (answers k) j u -> claims up (answers k) j' u -> j = j')
  | None =>
      (forall k i t, k < m -> ~ claims up (answers k) i t) \/
      exists k i j t, k < m /\ (forall k' j u, k' < k -> ~ claims up (answers k') j u) /\ i <> j /\
        claims up (answers k) i t /\ claims up (answers k) j t
  end.

Lemma leader_loop_spec up answers fuel k0 :
  (forall k i t, claims up (answers k) i t -> (0 <= t)%Z) ->
  (forall k' j u, k' < k0 -> ~ claims up (answers k') j u) ->
  leader_found up answers (fuel + k0) (leader_loop up answers fuel k0).
Proof.
  intros Hpos. revert k0. induction fuel as [|fuel IH]; intros k0 Hno; simpl.
  { left. intros k i t Hlt. by apply Hno. }
  pose proof (leader_round_spec up (answers k0) (Hpos k0)) as Hround. destruct (leader_round up (answers k0)) as [|i| |].
  - right. destruct Hround as (i & j & t & Hr). exists k0, i, j, t. split_and!; [lia|done|apply Hr..].
  - destruct Hround as [Huniq (t & Hc & Hmax)]. exists k0, t. split_and!; [lia|done..].
  - rewrite <- Nat.add_succ_r. apply IH. intros k' j u Hlt.
    destruct (decide (k' = k0)) as [->|]; [apply Hround|apply Hno; lia].
  - done.
Qed.
End leaders.

(** ** Committed entries *)

Section committed.
Context {Cmd : Type} `{!EqDecision Cmd}.
Variable nilC : Cmd.
Implicit Types (ls : list (gmap Z Cmd)) (k : Z) (v : Cmd).

(** How many logs hold the entry [k]. *)
Definition holders k ls : nat := length (filter (fun l => is_Some (l !! k)) ls).

Lemma nCommitted_from_spec k ls count v n w :
  nCommitted_from k ls count v = Some (n, w) <->
  n = count + holders k ls /\
  (forall l x, l ∈ ls -> l !! k = Some x -> x = w) /\
  (0 < count /\ 0 < holders k ls -> w = v) /\ (holders k ls = 0 -> w = v).
Proof.
  revert count v. induction ls as [|l ls IH]; intros count v; cbn [nCommitted_from].
  { unfold holders; simpl. split.
    - intros [= <- <-]. split_and!; [lia|set_solver|lia|done].
    - intros (-> & _ & _ & Hw). rewrite Nat.add_0_r, Hw; done. }
  destruct (l !! k) as [x|] eqn:Hl.
  - assert (Hh : holders k (l :: ls) = S (holders k ls)).
    { unfold holders. rewrite filter_cons, Hl. by rewrite decide_True by done. }
    rewrite Hh. case_decide as Hd.
    + split; [done|]. intros (_ & Hall & Hv & _). destruct Hd as [Hc Hne].
      assert (x = w) by (eapply Hall; [by left|done]). subst x. destruct Hne. symmetry. apply Hv. lia.
    + rewrite IH. assert (Hx : 0 < count -> v = x).
      { intros Hc. destruct (decide (v = x)) as [|Hne]; [done|]. by destruct Hd. }
      split.
      * intros (-> & Hall & Hv & H0). assert (w = x) as ->.
        { destruct (decide (holders k ls = 0)) as [Hz|Hz]; [by apply H0|]. apply Hv. lia. }
        split_and!; [lia| |naive_solver|lia]. intros l' y [->|Hin]%elem_of_cons Hy; [congruence|by eapply Hall].
      * intros (-> & Hall & Hv & H0). assert (w = x) as -> by (symmetry; eapply Hall; [by left|done]).
        split_and!; [lia| |done|done]. intros l' y Hin. apply Hall. by right.
  - assert (Hh : holders k (l :: ls) = holders k ls).
    { unfold holders. rewrite filter_cons, Hl. by rewrite decide_False by (by intros [??]). }
    rewrite Hh, IH. split; intros (-> & Hall & Hv); (split_and!; [done| |apply Hv|apply Hv]).
    + intros l' y [->|Hin]%elem_of_cons Hy; [congruence|by eapply Hall].
    + intros l' y Hin. apply Hall. by right.
Qed.

(** The count is the number of logs with the entry, which all agree on. *)
Lemma nCommitted_spec k ls n w :
  nCommitted nilC k ls = Some (n, w) <->
  n = holders k ls /\ (forall l x, l ∈ ls -> l !! k = Some x -> x = w) /\ (holders k ls = 0 -> w = nilC).
Proof.
  unfold nCommitted. rewrite nCommitted_from_spec. split.
  - intros (-> & ? & _ & ?). done.
  - intros (-> & ? & ?). split_and!; [done|done|lia|done].
Qed.

Lemma holders_0 k ls : holders k ls = 0 <-> forall l, l ∈ ls -> l !! k = None.
Proof.
  unfold holders. rewrite length_zero_iff_nil. split.
  - intros Hf l Hl. destruct (l !! k) eqn:E; [|done].
    assert (l ∈ filter (fun l : gmap Z Cmd => is_Some (l !! k)) ls) by (by apply list_elem_of_filter).
    rewrite Hf in *. set_solver.
  - intros Hn. destruct (filter _ ls) as [|l fs] eqn:E; [done|].
    assert (Hl : l ∈ filter (fun l : gmap Z Cmd => is_Some (l !! k)) ls) by (rewrite E; by left).
    apply list_elem_of_filter in Hl as [[x Hx] Hl]. rewrite Hn in Hx; done.
Qed.

(** It fails exactly when two logs differ. *)
Lemma nCommitted_none k ls :
  nCommitted nilC k ls = None <->
  exists l l' v w, l ∈ ls /\ l' ∈ ls /\ l !! k = Some v /\ l' !! k = Some w /\ v <> w.
Proof.
  split.
  - intros Hn. destruct (decide (holders k ls = 0)) as [Hz|Hz].
    { assert (Hs : nCommitted nilC k ls = Some (0, nilC)); [|congruence]. apply nCommitted_spec.
      split_and!; [done| |done]. intros l x Hl. rewrite (proj1 (holders_0 k ls) Hz l Hl). done. }
    destruct (filter (fun l => is_Some (l !! k)) ls) as [|l fs] eqn:E; [unfold holders in Hz; by rewrite E in Hz|].
    assert (Hl : l ∈ filter (fun l : gmap Z Cmd => is_Some (l !! k)) ls) by (rewrite E; by left).
    apply list_elem_of_filter in Hl as [[w Hw] Hl].
    destruct (decide (Forall (fun l' => l' !! k = None \/ l' !! k = Some w) ls)) as [Hall|Hex].
    + assert (Hs : nCommitted nilC k ls = Some (holders k ls, w)); [|congruence]. apply nCommitted_spec.
      split_and!; [done| |done]. intros l' x Hin Hx. rewrite Forall_forall in Hall. destruct (Hall l' Hin); congruence.
    + apply not_Forall_Exists, Exists_exists in Hex as (l' & Hin & Hx); [|apply _].
      destruct (l' !! k) as [x|] eqn:Hx'; [|by destruct Hx; left].
      exists l', l, x, w. split_and!; [done..|]. intros ->. apply Hx. by right.
  - intros (l & l' & v & w & Hl & Hl' & Hv & Hw & Hne). destruct (nCommitted nilC k ls) as [[n x]|] eqn:E; [|done].
    apply nCommitted_spec in E as (_ & Hall & _). destruct Hne.
    by rewrite (Hall l v), (Hall l' w).
Qed.

(** ** Agreement on a command *)

Lemma find_leader_some n servers si starts k starts' :
  find_leader n servers si starts = (k, starts') -> k <> (-1)%Z -> servers !! starts' = Some (Some (k, true)).
Proof.
  revert starts. induction si as [|si IH]; intros starts; simpl; [naive_solver|].
  destruct (servers !! (S starts `mod` n)) as [[[k1 [|]]|]|] eqn:Hs; [|by apply IH..]. intros [= -> <-] _. done.
Qed.

Lemma poll_true k v need polls :
  poll nilC k v need polls = Some true ->
  exists ls, ls ∈ polls /\ 0 < holders k ls /\ need <= holders k ls /\ forall l x, l ∈ ls -> l !! k = Some x -> x = v.
Proof.
  induction polls as [|ls polls IH]; simpl; [done|].
  intros ([n w] & Hn & Hp)%bind_Some. apply nCommitted_spec in Hn as (-> & Hall & _). case_decide as Hd.
  - destruct Hd as (? & ? & <-). exists ls. split; [by left|]. done.
  - destruct (IH Hp) as (ls' & ? & ?). exists ls'. split; [by right|done].
Qed.

(** When [one] returns an index, a server that claimed to lead gave it, and later at
    least the expected number of servers, and one at least, had applied the command
    there, and no server anything else. *)
Lemma one_loop_agreement v need retry finished n starts attempts k :
  one_loop nilC v need retry finished n starts attempts = Some k -> k <> (-1)%Z ->
  exists a i ls, a ∈ attempts /\ at_starts a !! i = Some (Some (k, true)) /\ ls ∈ at_polls a /\
    0 < holders k ls /\ need <= holders k ls /\ forall l x, l ∈ ls -> l !! k = Some x -> x = v.
Proof.
  revert starts. induction attempts as [|a attempts IH]; intros starts; simpl; [by destruct finished; intros [= <-]|].
  assert (Hrec : forall s, one_loop nilC v need retry finished n s attempts = Some k -> k <> (-1)%Z ->
    exists a' i ls, a' ∈ a :: attempts /\ at_starts a' !! i = Some (Some (k, true)) /\ ls ∈ at_polls a' /\
      0 < holders k ls /\ need <= holders k ls /\ forall l x, l ∈ ls -> l !! k = Some x -> x = v).
  { intros s Hs Hk. destruct (IH s Hs Hk) as (a' & i & ls & Ha & Hrest). exists a', i, ls. split; [by right|done]. }
  destruct (find_leader n (at_starts a) n starts) as [k1 i] eqn:Hf. case_decide as Hk1; [|by apply Hrec].
  intros ([|] & Hp & Hr)%bind_Some Hk.
  - simplify_eq. apply poll_true in Hp as (ls & Hls & Hrest). exists a, i, ls.
    split_and!; [by left|by eapply find_leader_some|done|apply Hrest..].
  - destruct retry; [|done]. by eapply Hrec.
Qed.
End committed.
