(* ===== verification/RaftSnapshots.v ===== *)
(** * Snapshots of the Raft tester

    Runs of [applierSnap] (src/src/raft/config.go) over the servers of a test: the
    servers exchange the snapshots the tester itself made, none of which takes a server
    back, and are not restarted. The logs of the tester
    agree and have no gap in every run. *)

From S2P Require Import Prelude GoLib RaftHarness RaftHarnessFacts.

Set Default Proof Using "Type".

Section snapshots.
Context {Cmd : Type} `{!EqDecision Cmd} (nilC : Cmd).
Context (encode : Z -> list Cmd -> string) (decode : string -> option (Z * list Cmd)).
(** labgob: decoding gives back what was encoded. *)
Hypothesis decode_encode : forall k l, decode (encode k l) = Some (k, l).
Implicit Types (c : @Cfg Cmd) (m : @ApplyMsg Cmd) (ss : list (Z * string)).

(** The state of the tester and the snapshots it has passed to [rf.Snapshot]. *)
Abbreviation SnapState := (@Cfg Cmd * list (Z * string))%type.

(** A message is handled: a command, or a snapshot that was made before and does not
    take the server back. *)
Inductive snap_step : SnapState -> SnapState -> Prop :=
  | step_command i m c c' ss o :
      SnapshotValid m = false ->
      applierSnap nilC encode decode i m c = Continue _ (c', o) ->
      snap_step (c, ss) (c', option_list o ++ ss)
  | step_snapshot i m c c' ss s last :
      SnapshotValid m = true -> Snapshot m = Some s -> (SnapshotIndex m, s) ∈ ss ->
      lastApplied c !! i = Some last -> (last <= SnapshotIndex m)%Z ->
      applierSnap nilC encode decode i m c = Continue _ (c', None) ->
      snap_step (c, ss) (c', ss).

(** The log of a server: entries up to the last applied one, none missing from 1 on. *)
Record log_ok (last : Z) (l : gmap Z Cmd) : Prop := {
  lo_last : (0 <= last)%Z;
  lo_full k : (1 <= k <= last)%Z -> is_Some (l !! k);
  lo_keys k v : l !! k = Some v -> (0 <= k <= last)%Z;
  lo_zero v : l !! 0%Z = Some v -> v = nilC;
}.

(** A snapshot holds the entries of a server that has all of them. *)
Definition snap_ok c (x : Z * string) : Prop :=
  (0 <= x.1)%Z /\ exists i l last L,
    logs c !! i = Some l /\ lastApplied c !! i = Some last /\ (x.1 <= last)%Z /\
    decode x.2 = Some (x.1, L) /\ L = entries_upto nilC x.1 l.

Record snap_inv (n : nat) (s : SnapState) : Prop := {
  si_logs : length (logs s.1) = n;
  si_last : length (lastApplied s.1) = n;
  si_log i l last : logs s.1 !! i = Some l -> lastApplied s.1 !! i = Some last -> log_ok last l;
  si_agree i j k v w : entry_at s.1 i k = Some v -> entry_at s.1 j k = Some w -> v = w;
  si_snaps x : x ∈ s.2 -> snap_ok s.1 x;
}.

Lemma snap_inv_start n : snap_inv n (cfg_start n, []).
Proof.
  split; simpl.
  - apply length_replicate.
  - apply length_replicate.
  - intros i l last [-> _]%lookup_replicate [-> _]%lookup_replicate.
    split; [done|intros; lia|by intros k v|by intros v].
  - intros i j k v w (l & [-> _]%lookup_replicate & Hl)%bind_Some. by rewrite lookup_empty in Hl.
  - intros x ?%elem_of_nil. done.
Qed.

(** ** The log made of a snapshot *)

Lemma log_of_lookup (L : list Cmd) k : log_of L !! k = if decide (0 <= k)%Z then L !! Z.to_nat k else None.
Proof.
  unfold log_of. apply option_eq. intros v. rewrite <- elem_of_list_to_map.
  - rewrite elem_of_lookup_imap. case_decide as Hk.
    + split; [intros (j & x & [= -> ->] & Hx); by rewrite Nat2Z.id|].
      intros Hv. exists (Z.to_nat k), v. split; [f_equal; lia|done].
    + split; [|done]. intros (j & x & [= -> ->] & _). lia.
  - apply NoDup_alt. intros a b x Ha Hb. rewrite !list_lookup_fmap, !list_lookup_imap in *.
    destruct (L !! a), (L !! b); simplify_eq/=. lia.
Qed.

Lemma entries_upto_lookup k0 (l : gmap Z Cmd) j :
  entries_upto nilC k0 l !! j = if decide (Z.of_nat j <= k0)%Z then Some (default nilC (l !! Z.of_nat j)) else None.
Proof.
  unfold entries_upto. rewrite list_lookup_fmap. case_decide as Hj.
  - rewrite lookup_seqZ_lt by lia. done.
  - rewrite lookup_seqZ_ge by lia. done.
Qed.

(** The log a snapshot of [l] gives: the entries up to the index, with nil at 0. *)
Lemma restored_lookup k0 (l : gmap Z Cmd) k :
  log_of (entries_upto nilC k0 l) !! k = if decide (0 <= k <= k0)%Z then Some (default nilC (l !! k)) else None.
Proof.
  rewrite log_of_lookup. repeat case_decide; try lia; [|rewrite entries_upto_lookup, decide_False by lia; done|done].
  rewrite entries_upto_lookup, decide_True by lia. by rewrite Z2Nat.id by lia.
Qed.

Lemma restored_ok last k0 (l : gmap Z Cmd) :
  log_ok last l -> (0 <= k0)%Z -> log_ok k0 (log_of (entries_upto nilC k0 l)).
Proof.
  intros [Hl Hf Hk Hz] Hk0. split; [done|..].
  - intros k Hr. rewrite restored_lookup, decide_True by lia. done.
  - intros k v. rewrite restored_lookup. by case_decide.
  - intros v. rewrite restored_lookup, decide_True by lia. intros [= <-].
    destruct (l !! 0%Z) eqn:E; simpl; [by apply Hz|done].
Qed.

(** An entry of the restored log is one of the original, or nil at 0. *)
Lemma restored_entry last k0 (l : gmap Z Cmd) k v :
  log_ok last l -> (k0 <= last)%Z -> log_of (entries_upto nilC k0 l) !! k = Some v ->
  l !! k = Some v \/ k = 0%Z /\ v = nilC.
Proof.
  intros [Hl Hf Hk Hz] Hle. rewrite restored_lookup. case_decide as Hr; [|done]. intros [= <-].
  destruct (decide (k = 0%Z)) as [->|Hne].
  - destruct (l !! 0%Z) as [v|] eqn:E; simpl; [left|right; done]. done.
  - destruct (Hf k) as [v Hv]; [lia|]. rewrite Hv. by left.
Qed.

(** ** The invariant *)

(** At 0 a log has nil, or nothing. *)
Lemma log_zero last (l : gmap Z Cmd) : log_ok last l -> default nilC (l !! 0%Z) = nilC.
Proof. intros Hl. destruct (l !! 0%Z) eqn:E; simpl; [by apply (lo_zero _ _ Hl)|done]. Qed.

(** A server moves on to a log that agrees with the others and keeps its entries. *)
Lemma snap_inv_update n c ss i l last l' last' mx new :
  snap_inv n (c, ss) -> logs c !! i = Some l -> lastApplied c !! i = Some last ->
  (last <= last')%Z -> log_ok last' l' ->
  (forall k, (1 <= k <= last)%Z -> l !! k = l' !! k) ->
  (forall j k v w, j <> i -> l' !! k = Some v -> entry_at c j k = Some w -> v = w) ->
  let c' := mkCfg (<[i := l']> (logs c)) (<[i := last']> (lastApplied c)) mx in
  (forall x, x ∈ new -> snap_ok c' x) ->
  snap_inv n (c', new ++ ss).
Proof.
  intros [Hn Hn' Hlog Hag Hss] Hl Hla Hle Hok Hkeep Hagree c' Hnew; simpl in *.
  assert (Hi : i < length (logs c)) by (by eapply lookup_lt_Some).
  assert (Hi' : i < length (lastApplied c)) by (by eapply lookup_lt_Some).
  assert (Hent : forall j k, entry_at c' j k = if decide (i = j) then l' !! k else entry_at c j k).
  { intros j k. unfold entry_at; simpl. case_decide; [subst j; by rewrite list_lookup_insert_eq|].
    by rewrite list_lookup_insert_ne. }
  split; simpl.
  - by rewrite length_insert.
  - by rewrite length_insert.
  - intros j lj lastj. destruct (decide (i = j)) as [->|Hne].
    + rewrite !list_lookup_insert_eq by done. by intros [= <-] [= <-].
    + rewrite !list_lookup_insert_ne by done. apply Hlog.
  - intros j j' k v w. rewrite !Hent. repeat case_decide; subst; [congruence|..].
    + intros Hv. by apply Hagree.
    + intros Hv Hw. symmetry. by eapply Hagree.
    + by apply Hag.
  - intros x [Hx|Hx]%elem_of_app; [by apply Hnew|]. destruct (Hss x Hx) as (Hx0 & j & lj & lastj & L & Hj & Hj' & Hxl & Hd & HL).
    split; [done|]. destruct (decide (i = j)) as [->|Hne]; simplify_eq.
    + exists j, l', last', (entries_upto nilC x.1 l'); simpl. rewrite !list_lookup_insert_eq by done.
      split_and!; [done|done|lia| |done]. rewrite Hd. do 2 f_equal. unfold entries_upto.
      apply list_fmap_ext. intros p k Hp%lookup_seqZ. destruct (decide (k = 0%Z)) as [->|Hk].
      * rewrite (log_zero last l); [|by eapply Hlog]. by rewrite (log_zero last' l').
      * by rewrite Hkeep by lia.
    + exists j, lj, lastj, (entries_upto nilC x.1 lj); simpl. by rewrite !list_lookup_insert_ne by done.
Qed.

(** A command that [applierSnap] accepts is one that [applier] accepts. *)
Lemma applierSnap_command i m c c' o :
  SnapshotValid m = false -> CommandValid m = true ->
  applierSnap nilC encode decode i m c = Continue _ (c', o) ->
  exists c1 last, lastApplied c !! i = Some last /\ CommandIndex m = (last + 1)%Z /\
    applier i m c = Continue _ c1 /\
    c' = mkCfg (logs c1) (<[i := CommandIndex m]> (lastApplied c1)) (maxIndex c1) /\
    forall x, x ∈ option_list o ->
      x = (CommandIndex m, encode (CommandIndex m) (entries_upto nilC (CommandIndex m) (default ∅ (logs c' !! i)))).
Proof.
  intros Hs Hv. unfold applierSnap, applier. rewrite Hs, Hv.
  destruct (lastApplied c !! i) as [last|]; [|by intros [=]]. case_decide as Hidx; [by intros [=]|].
  destruct (checkLogs i m c) as [[[err prevok] c1]|]; [|by intros [=]].
  destruct (order_error i m err prevok); [by intros [=]|]. intros [= <- <-]. exists c1, last.
  split_and!; [done|lia|done|done|]. intros x. by case_decide; [intros ->%list_elem_of_singleton|intros ?%elem_of_nil].
Qed.

Lemma snap_inv_command n c ss i m c' o :
  snap_inv n (c, ss) -> SnapshotValid m = false ->
  applierSnap nilC encode decode i m c = Continue _ (c', o) ->
  snap_inv n (c', option_list o ++ ss).
Proof using decode_encode.
  intros Hinv Hs Happ. destruct (CommandValid m) eqn:Hv.
  2: { unfold applierSnap in Happ. rewrite Hs, Hv in Happ. by injection Happ as <- <-. }
  apply applierSnap_command in Happ as (c1 & last & Hla & Hidx & Happ & -> & Hnew); [|done..].
  apply applier_continue in Happ as (Hi & Hno & _ & ->); [|done]; simpl in *.
  destruct (lookup_lt_is_Some_2 _ _ Hi) as [l Hl]. rewrite Hl in *; simpl in *.
  rewrite list_lookup_insert_eq in Hnew by done; simpl in Hnew.
  assert (Hok : log_ok last l) by (by eapply (si_log _ _ Hinv)). pose proof (lo_last _ _ Hok).
  assert (Hok' : log_ok (CommandIndex m) (<[CommandIndex m := Command m]> l)).
  { split; [lia|..].
    - intros k Hk. rewrite lookup_insert. case_decide; [done|]. apply (lo_full _ _ Hok). lia.
    - intros k v. rewrite lookup_insert. case_decide; [lia|]. intros ?%(lo_keys _ _ Hok). lia.
    - intros v. rewrite lookup_insert_ne by lia. apply (lo_zero _ _ Hok). }
  eapply snap_inv_update; [done|done|done|lia|done|..].
  - intros k Hk. by rewrite lookup_insert_ne by lia.
  - intros j k v w Hne. rewrite lookup_insert. case_decide as Hk.
    + subst k. intros [= <-] Hw. symmetry. by apply (Hno j).
    + intros Hlk. apply (si_agree _ _ Hinv i j k); simpl. unfold entry_at. by rewrite Hl.
  - intros x ->%Hnew. split; [simpl; lia|]. simpl.
    exists i, (<[CommandIndex m := Command m]> l), (CommandIndex m), (entries_upto nilC (CommandIndex m) (<[CommandIndex m := Command m]> l)).
    assert (i < length (lastApplied c)) by (by eapply lookup_lt_Some).
    rewrite !list_lookup_insert_eq by done. split_and!; [done|done|lia|apply decode_encode|done].
Qed.

Lemma snap_inv_snapshot n c ss i m c' s last :
  snap_inv n (c, ss) -> SnapshotValid m = true -> Snapshot m = Some s -> (SnapshotIndex m, s) ∈ ss ->
  lastApplied c !! i = Some last -> (last <= SnapshotIndex m)%Z ->
  applierSnap nilC encode decode i m c = Continue _ (c', None) ->
  snap_inv n (c', ss).
Proof.
  intros Hinv Hs Hsn Hin Hla Hle Happ.
  destruct (si_snaps _ _ Hinv _ Hin) as (Hpos & j & lj & lastj & L & Hj & Hlaj & Hxl & Hd & ->); simpl in *.
  unfold applierSnap in Happ. rewrite Hs in Happ. unfold ingestSnap in Happ. rewrite Hsn, Hd in Happ.
  case_decide as Hne; [by destruct Hne|]. case_decide as Hi; [|done]. destruct Hi as [Hi _]. injection Happ as <-.
  destruct (lookup_lt_is_Some_2 _ _ Hi) as [l Hl].
  assert (Hokj : log_ok lastj lj) by (by eapply (si_log _ _ Hinv)).
  assert (Hok : log_ok last l) by (by eapply (si_log _ _ Hinv)).
  assert (Hej : forall k, entry_at c j k = lj !! k) by (intros k; unfold entry_at; by rewrite Hj).
  change ss with ([] ++ ss). eapply snap_inv_update; [done|done|done|done|by eapply restored_ok|..].
  - intros k Hk. destruct (lo_full _ _ Hok k) as [v Hv]; [lia|]. destruct (lo_full _ _ Hokj k) as [w Hw]; [lia|].
    rewrite restored_lookup, decide_True, Hv, Hw by lia; simpl. f_equal.
    apply (si_agree _ _ Hinv i j k); simpl; [|by rewrite Hej]. unfold entry_at. by rewrite Hl.
  - intros j' k v w Hne' Hv Hw. apply (restored_entry lastj) in Hv as [Hv|[-> ->]]; [..|done|done].
    + apply (si_agree _ _ Hinv j j' k); simpl; by rewrite ?Hej.
    + apply bind_Some in Hw as (l' & Hl' & Hw). symmetry.
      destruct (lookup_lt_is_Some_2 (lastApplied c) j') as [last' Hlast'].
      { rewrite (si_last _ _ Hinv : length (lastApplied c) = n), <- (si_logs _ _ Hinv : length (logs c) = n).
        by eapply lookup_lt_Some. }
      eapply (lo_zero last' l'); [by eapply (si_log _ _ Hinv)|done].
  - intros x ?%elem_of_nil. done.
Qed.

Lemma snap_inv_step n s s' : snap_inv n s -> snap_step s s' -> snap_inv n s'.
Proof using decode_encode. intros Hinv Hstep. destruct Hstep; eauto using snap_inv_command, snap_inv_snapshot. Qed.

Lemma snap_inv_reachable n s : rtc snap_step (cfg_start n, []) s -> snap_inv n s.
Proof using decode_encode.
  intros Hr. refine (rtc_ind_r (snap_inv n) _ (snap_inv_start n) _ s Hr).
  intros x y _ Hstep Hx. by eapply snap_inv_step.
Qed.
End snapshots.
