(* ===== verification/Randstring.v ===== *)
(** * Random names: [randstring]

    The configurations of all the tests (src/src/raft/config.go,
    src/src/kvraft/config.go, src/src/shardctrler/config.go, src/src/shardkv/config.go)
    name ends with the start of the URL-safe base64 encoding of random bytes. The bytes
    that crypto/rand gives are an argument; encoding/base64 is modelled. *)

From Stdlib Require Import Ascii.
From S2P Require Import Prelude GoLib.

(** ** encoding/base64 *)

Definition encodeURL : string := "ABCDEFGHIJKLMNOPQRSTUVWXYZabcdefghijklmnopqrstuvwxyz0123456789-_".

(** [enc.encode[val>>k&0x3F]] *)
Definition sextet (val : Z) (k : Z) : Z := Z.land (Z.shiftr val k) 63.

(** The groups of six bits of the input: four for three bytes, three and two for the
    bytes that remain. *)
Fixpoint sextets (src : list Z) : list Z :=
  match src with
  | b0 :: b1 :: b2 :: rest =>
      let val := Z.lor (Z.lor (Z.shiftl b0 16) (Z.shiftl b1 8)) b2 in
      sextet val 18 :: sextet val 12 :: sextet val 6 :: sextet val 0 :: sextets rest
  | [b0; b1] =>
      let val := Z.lor (Z.shiftl b0 16) (Z.shiftl b1 8) in [sextet val 18; sextet val 12; sextet val 6]
  | [b0] => let val := Z.shiftl b0 16 in [sextet val 18; sextet val 12]
  | [] => []
  end.

Definition char64 (z : Z) : ascii := default "="%char (String.get (Z.to_nat z) encodeURL).

(** [base64.URLEncoding.EncodeToString] *)
Definition EncodeToString (src : list Z) : list ascii :=
  (char64 <$> sextets src) ++ replicate ((3 - length src `mod` 3) `mod` 3) "="%char.

(** [randstring], for the [2 * n] bytes that [crand.Read] gives; [None] when the slice
    is out of range. *)
Definition randstring (n : nat) (b : list Z) : option string :=
  let s := EncodeToString b in
  if decide (n <= length s) then Some (foldr String "" (take n s)) else None.

(** ** Bits *)

Definition is_byte (b : Z) : Prop := (0 <= b < 256)%Z.

Definition bits8 (b : Z) : list bool := Z.testbit b <$> [7; 6; 5; 4; 3; 2; 1; 0]%Z.
Definition bits6 (z : Z) : list bool := Z.testbit z <$> [5; 4; 3; 2; 1; 0]%Z.

(** The bits of a sequence of bytes, the first byte's highest bit first. *)
Definition bits_of (b : list Z) : list bool := b ≫= bits8.

Lemma byte_high b k : is_byte b -> (8 <= k)%Z -> Z.testbit b k = false.
Proof.
  intros [H0 H1] Hk. destruct (decide (b = 0)%Z) as [->|Hne]; [apply Z.testbit_0_l|].
  apply Z.bits_above_log2; [lia|]. assert (Z.log2 b < 8)%Z; [|lia]. apply Z.log2_lt_pow2; lia.
Qed.

Lemma sextet_bit val k j : (0 <= j < 6)%Z -> (0 <= k)%Z -> Z.testbit (sextet val k) j = Z.testbit val (j + k).
Proof.
  intros Hj Hk. unfold sextet. rewrite Z.land_spec, Z.shiftr_spec by lia.
  assert (j = 0 \/ j = 1 \/ j = 2 \/ j = 3 \/ j = 4 \/ j = 5)%Z as [->|[->|[->|[->|[->| ->]]]]] by lia; apply andb_true_r.
Qed.

Lemma bits6_sextet val k : (0 <= k)%Z ->
  bits6 (sextet val k) = Z.testbit val <$> [5 + k; 4 + k; 3 + k; 2 + k; 1 + k; 0 + k]%Z.
Proof. intros Hk. unfold bits6. cbn [fmap list_fmap]. by rewrite !sextet_bit by lia. Qed.

(** A bit of three bytes put together. *)
Lemma join_bit b0 b1 b2 j :
  is_byte b1 -> is_byte b2 -> (0 <= j < 24)%Z ->
  Z.testbit (Z.lor (Z.lor (Z.shiftl b0 16) (Z.shiftl b1 8)) b2) j =
  if decide (16 <= j)%Z then Z.testbit b0 (j - 16) else if decide (8 <= j)%Z then Z.testbit b1 (j - 8) else Z.testbit b2 j.
Proof.
  intros H1 H2 Hj. rewrite !Z.lor_spec, !Z.shiftl_spec by lia. repeat case_decide.
  - rewrite (byte_high b1 (j - 8)), (byte_high b2 j) by (done || lia). by rewrite !orb_false_r.
  - rewrite (Z.testbit_neg_r b0 (j - 16)), (byte_high b2 j) by (done || lia). by rewrite orb_false_r.
  - by rewrite (Z.testbit_neg_r b0 (j - 16)), (Z.testbit_neg_r b1 (j - 8)) by lia.
Qed.

Lemma group_bits b0 b1 b2 : is_byte b1 -> is_byte b2 ->
  let val := Z.lor (Z.lor (Z.shiftl b0 16) (Z.shiftl b1 8)) b2 in
  bits6 (sextet val 18) ++ bits6 (sextet val 12) ++ bits6 (sextet val 6) ++ bits6 (sextet val 0)
  = bits8 b0 ++ bits8 b1 ++ bits8 b2.
Proof.
  intros H1 H2 val. rewrite !bits6_sextet by lia. unfold val. cbn [fmap list_fmap].
  rewrite !(join_bit b0 b1 b2) by (done || lia). repeat (rewrite decide_True by lia || rewrite decide_False by lia). done.
Qed.

(** The groups have the bits of the bytes, in order. *)
Lemma sextets_bits src : Forall is_byte src -> exists pad, sextets src ≫= bits6 = bits_of src ++ pad.
Proof.
  revert src. fix IH 1. intros [|b0 [|b1 [|b2 rest]]] Hb.
  - by exists [].
  - pose proof (f_equal (take 12) (group_bits b0 0 0 ltac:(done) ltac:(done))) as Hg.
    exists [false; false; false; false]. rewrite Z.shiftl_0_l, !Z.lor_0_r in Hg. exact Hg.
  - apply Forall_cons in Hb as [_ [Hb1 _]%Forall_cons].
    pose proof (f_equal (take 18) (group_bits b0 b1 0 Hb1 ltac:(done))) as Hg.
    exists [false; false]. rewrite Z.lor_0_r in Hg. exact Hg.
  - apply Forall_cons in Hb as [Hb0 [Hb1 [Hb2 Hb]%Forall_cons]%Forall_cons].
    destruct (IH rest Hb) as [pad Hpad]. exists pad. unfold bits_of in *. cbn [sextets mbind list_bind].
    cbn [mbind] in Hpad. rewrite Hpad, !(assoc_L (++)). f_equal. rewrite <- !(assoc_L (++)).
    pose proof (group_bits b0 b1 b2 Hb1 Hb2) as Hg. cbv zeta in Hg. rewrite !(assoc_L (++)) in Hg |- *. by rewrite Hg.
Qed.

(** ** Characters *)

Definition six (z : Z) : Prop := (0 <= z < 64)%Z.

Lemma sextet_six val k : six (sextet val k).
Proof. unfold six, sextet. rewrite (Z.land_ones _ 6) by lia. apply Z.mod_pos_bound. lia. Qed.

Lemma sextets_six src : Forall six (sextets src).
Proof.
  revert src. fix IH 1. intros [|b0 [|b1 [|b2 rest]]]; cbn [sextets]; cbv zeta;
    repeat (apply Forall_cons; split; [apply sextet_six|]); (apply Forall_nil_2 || apply IH).
Qed.

(** What a test says of all the numbers of six bits. *)
Lemma six_cases (p : Z -> bool) : forallb p (seqZ 0 64) = true -> forall z, six z -> p z = true.
Proof. intros H z Hz. rewrite forallb_forall in H. apply H, list_elem_of_In, elem_of_seqZ. unfold six in Hz. lia. Qed.

(** Six bits and their character say which number it is. *)
Definition decode64 (c : ascii) : Z :=
  let n := Z.of_N (N_of_ascii c) in
  if decide (97 <= n)%Z then (n - 71)%Z else if decide (n = 95)%Z then 63 else if decide (65 <= n)%Z then (n - 65)%Z
  else if decide (48 <= n)%Z then (n + 4)%Z else 62.

Lemma decode64_char64 z : six z -> decode64 (char64 z) = z.
Proof. intros Hz. apply Z.eqb_eq. revert z Hz. apply six_cases. vm_compute. reflexivity. Qed.

Definition of_bits (l : list bool) : Z := foldl (fun z (b : bool) => 2 * z + if b then 1 else 0)%Z 0%Z l.

Lemma of_bits6 z : six z -> of_bits (bits6 z) = z.
Proof. intros Hz. apply Z.eqb_eq. revert z Hz. apply six_cases. vm_compute. reflexivity. Qed.

Lemma length_bind6 l : length (l ≫= bits6) = 6 * length l.
Proof. induction l as [|z l IH]; [done|]. cbn [mbind list_bind] in *. rewrite length_app, IH. simpl. lia. Qed.

Lemma length_bits_of b : length (bits_of b) = 8 * length b.
Proof. induction b as [|z b IH]; [done|]. unfold bits_of in *. cbn [mbind list_bind] in *. rewrite length_app, IH. simpl. lia. Qed.

Lemma take_bind6 n l : take (6 * n) (l ≫= bits6) = take n l ≫= bits6.
Proof.
  revert n. induction l as [|z l IH]; intros [|n]; [done|by rewrite !take_nil|done|].
  cbn [mbind list_bind take]. replace (6 * S n) with (length (bits6 z) + 6 * n) by (simpl; lia).
  rewrite take_app_add. f_equal. apply IH.
Qed.

Lemma bind6_inj l1 l2 : Forall six l1 -> Forall six l2 -> l1 ≫= bits6 = l2 ≫= bits6 -> l1 = l2.
Proof.
  intros H1. revert l2. induction H1 as [|z1 l1 Hz1 H1 IH]; intros l2 H2 E.
  - apply (f_equal length) in E. rewrite length_bind6 in E. destruct l2; simpl in *; [done|lia].
  - destruct H2 as [|z2 l2 Hz2 H2]; [done|]. cbn [mbind list_bind] in E. apply app_inj_1 in E as [Ez El]; [|done].
    f_equal; [|by apply IH]. by rewrite <- (of_bits6 z1), <- (of_bits6 z2), Ez.
Qed.

Lemma chars_inj l1 l2 : Forall six l1 -> Forall six l2 -> char64 <$> l1 = char64 <$> l2 -> l1 = l2.
Proof.
  intros H1. revert l2. induction H1 as [|z1 l1 Hz1 H1 IH]; intros l2 H2 E; destruct H2 as [|z2 l2 Hz2 H2]; try done.
  injection E as Ez El. f_equal; [|by apply IH]. by rewrite <- (decode64_char64 z1), <- (decode64_char64 z2), Ez.
Qed.

Lemma string_of_inj l1 l2 : foldr String "" l1 = foldr String "" l2 -> l1 = l2.
Proof. revert l2. induction l1 as [|a l1 IH]; intros [|b l2]; try done. simpl. intros [= -> E]. f_equal. by apply IH. Qed.

Lemma string_of_length l : String.length (foldr String "" l) = length l.
Proof. induction l; simpl; congruence. Qed.

(** ** The first characters *)

(** Characters of the alphabet: none of them is the padding. *)
Definition in_alphabet (c : ascii) : Prop := exists k, String.get k encodeURL = Some c.

Lemma char64_alphabet z : six z -> in_alphabet (char64 z).
Proof.
  intros Hz. exists (Z.to_nat z). apply (bool_decide_eq_true_1 _). revert z Hz. apply six_cases. vm_compute. reflexivity.
Qed.

Lemma sextets_long n b : Forall is_byte b -> length b = 2 * n -> n <= length (sextets b).
Proof.
  intros Hb Hl. destruct (sextets_bits b Hb) as [pad E]. apply (f_equal length) in E.
  rewrite length_bind6, length_app, length_bits_of in E. lia.
Qed.

(** The characters are the groups of six of the first bits. *)
Lemma randstring_eq n b : Forall is_byte b -> length b = 2 * n ->
  randstring n b = Some (foldr String "" (char64 <$> take n (sextets b))).
Proof.
  intros Hb Hl. pose proof (sextets_long n b Hb Hl) as Hn. unfold randstring, EncodeToString.
  rewrite decide_True by (rewrite length_app, length_fmap; lia).
  by rewrite take_app_le, fmap_take by (rewrite length_fmap; lia).
Qed.

Lemma first_bits n b : Forall is_byte b -> length b = 2 * n -> take n (sextets b) ≫= bits6 = take (6 * n) (bits_of b).
Proof.
  intros Hb Hl. destruct (sextets_bits b Hb) as [pad E]. rewrite <- take_bind6, E, take_app_le; [done|].
  rewrite length_bits_of. lia.
Qed.

(** [randstring n] never slices out of range: it gives [n] characters of the URL-safe
    alphabet and never padding; and two names are equal exactly when the first [6 * n] of
    the [16 * n] random bits are, so that the names carry six bits a character and the
    other bits are lost. *)
Theorem randstring_first_bits n b1 b2 :
  Forall is_byte b1 -> Forall is_byte b2 -> length b1 = 2 * n -> length b2 = 2 * n ->
  exists s1 s2, randstring n b1 = Some s1 /\ randstring n b2 = Some s2 /\
    String.length s1 = n /\
    (forall k c, String.get k s1 = Some c -> in_alphabet c) /\
    (s1 = s2 <-> take (6 * n) (bits_of b1) = take (6 * n) (bits_of b2)).
Proof.
  intros Hb1 Hb2 Hl1 Hl2. eexists _, _. split_and!; [by apply randstring_eq|by apply randstring_eq|..].
  - rewrite string_of_length, length_fmap, length_take. pose proof (sextets_long n b1 Hb1 Hl1). lia.
  - pose proof (Forall_take _ n _ (sextets_six b1)) as Hs. induction Hs as [|z l Hz Hs IH]; intros k c; [done|].
    destruct k as [|k]; [|apply IH]. simpl. intros [= <-]. by apply char64_alphabet.
  - rewrite <- !first_bits by done. split; [|intros E%bind6_inj; [by rewrite E|..]].
    + intros E%string_of_inj%chars_inj; [by rewrite E|..]; apply Forall_take, sextets_six.
    + apply Forall_take, sextets_six.
    + apply Forall_take, sextets_six.
Qed.

(** Two of the names of a test that differ only in lost bits. *)
Lemma randstring_first_bits_witness :
  Forall is_byte [104; 105; 33; 0]%Z /\ Forall is_byte [104; 105; 255; 7]%Z /\
  exists s1 s2, randstring 2 [104; 105; 33; 0]%Z = Some s1 /\ randstring 2 [104; 105; 255; 7]%Z = Some s2 /\
    String.length s1 = 2 /\
    (forall k c, String.get k s1 = Some c -> in_alphabet c) /\
    (s1 = s2 <-> take (6 * 2) (bits_of [104; 105; 33; 0]%Z) = take (6 * 2) (bits_of [104; 105; 255; 7]%Z)).
Proof.
  assert (H1 : Forall is_byte [104; 105; 33; 0]%Z) by (repeat constructor; done).
  assert (H2 : Forall is_byte [104; 105; 255; 7]%Z) by (repeat constructor; done).
  split; [exact H1|split; [exact H2|]]. apply (randstring_first_bits 2 _ _ H1 H2 eq_refl eq_refl).
Defined.
