(* ===== verification/TestNet.v ===== *)
(** * Networks of the test configurations

    The tests of Raft, of the key/value service and of the shard controller name the
    ends of their servers with random strings and their servers with numbers, and
    they connect servers by enabling ends: src/src/raft/config.go and
    src/src/kvraft/config.go. This file holds the names, the tables of ends and the
    loops over them. *)

From S2P Require Import Prelude GoLib Labrpc.

Set Default Proof Using "Type".

(** [interface{}] names: an end is a string, a server a number. *)
Abbreviation NetName := (string + nat)%type.
Abbreviation Net := (@Network NetName _ _).

(** [endnames [][]string]; a nil row is [None]. *)
Abbreviation EndTable := (list (option (list string))).

(** [endnames[i][j]]; [None] is the panic of a missing row or column. *)
Definition end_of (t : EndTable) (i j : nat) : option string := row ← mjoin (t !! i); row !! j.

(** A loop over [js] whose body enables or disables an end: [f j] is the end, nothing
    when the body skips [j], and [None] when it panics. *)
Fixpoint enable_loop (yes : bool) (f : nat -> option (option string)) (js : list nat) (rn : Net) : option Net :=
  match js with
  | [] => Some rn
  | j :: js =>
      o ← f j;
      enable_loop yes f js (match o with Some e => Enable (inl e) yes rn | None => rn end)
  end.

(** Fresh ends named [names 0], ..., each connected to its server:
    [ends[j] = net.MakeEnd(names[j]); net.Connect(names[j], j)]. *)
Fixpoint make_ends (names : nat -> string) (js : list nat) (rn : Net) : option Net :=
  match js with
  | [] => Some rn
  | j :: js =>
      rn ← MakeEnd (inl (names j)) rn;
      make_ends names js (Connect (inl (names j)) (inr j) rn)
  end.

(** ** What the loops do *)

(** Networks that differ only in which ends are enabled. *)
Record same_but_enabled (rn rn' : Net) : Prop := {
  sb_ends : nw_ends rn' = nw_ends rn;
  sb_servers : nw_servers rn' = nw_servers rn;
  sb_connections : nw_connections rn' = nw_connections rn;
  sb_reliable : nw_reliable rn' = nw_reliable rn;
}.

#[export] Instance same_but_enabled_preorder : PreOrder same_but_enabled.
Proof.
  split; [done|]. intros x y z [] []. split; congruence.
Qed.

Lemma Enable_same (e : NetName) (yes : bool) (rn : Net) : same_but_enabled rn (Enable e yes rn).
Proof. done. Qed.

Lemma enabled_at_Enable (e nm : NetName) (yes : bool) (rn : Net) :
  enabled_at nm (Enable e yes rn) = if decide (nm = e) then yes else enabled_at nm rn.
Proof.
  unfold enabled_at; simpl. rewrite lookup_insert. repeat case_decide; naive_solver.
Qed.

(** The ends the loop meets. *)
Definition touched (f : nat -> option (option string)) (js : list nat) : list string :=
  omap (fun j => mjoin (f j)) js.

Lemma elem_of_touched f js e : e ∈ touched f js <-> exists j, j ∈ js /\ f j = Some (Some e).
Proof.
  unfold touched. rewrite list_elem_of_omap. split; intros (j & Hj & Hf); exists j; (split; [done|]).
  - destruct (f j) as [[e'|]|]; simplify_eq/=; done.
  - by rewrite Hf.
Qed.

(** They are set, and the others keep their state. *)
Lemma enable_loop_spec yes f js rn rn' :
  enable_loop yes f js rn = Some rn' ->
  same_but_enabled rn rn' /\
  forall nm, enabled_at nm rn' = if decide (nm ∈ (inl <$> touched f js : list NetName)) then yes else enabled_at nm rn.
Proof.
  revert rn. induction js as [|j js IH]; intros rn; simpl; [by intros [= <-]|].
  intros (o & Hj & Hloop)%bind_Some. destruct (IH _ Hloop) as [Hsame Hen].
  unfold touched; simpl. rewrite Hj; simpl. split; [etrans; [|exact Hsame]; by destruct o|].
  intros nm. rewrite Hen. destruct o as [e|]; simpl; [|done]. rewrite enabled_at_Enable.
  fold (touched f js). repeat case_decide; set_solver.
Qed.

(** Without a panic in the body the loop ends. *)
Lemma enable_loop_some yes f js rn :
  Forall (fun j => is_Some (f j)) js -> is_Some (enable_loop yes f js rn).
Proof.
  intros Hf. revert rn. induction Hf as [|j js [o Ho] _ IH]; intros rn; simpl; [done|]. rewrite Ho; simpl. apply IH.
Qed.

(** The new ends are disabled and connected; the names were not in use. *)
Lemma make_ends_spec names js rn rn' :
  make_ends names js rn = Some rn' ->
  NoDup (names <$> js) /\ (forall j, j ∈ js -> inl (names j) ∉ nw_ends rn) /\
  nw_ends rn' = list_to_set (inl ∘ names <$> js) ∪ nw_ends rn /\
  nw_servers rn' = nw_servers rn /\ nw_reliable rn' = nw_reliable rn /\
  (forall j, j ∈ js -> connection_at (inl (names j)) rn' = Some (inr j)) /\
  (forall nm, nm ∉ (inl ∘ names <$> js : list NetName) -> connection_at nm rn' = connection_at nm rn) /\
  (forall nm, enabled_at nm rn' =
     if decide (nm ∈ (inl ∘ names <$> js : list NetName)) then false else enabled_at nm rn).
Proof.
  revert rn. induction js as [|j js IH]; intros rn; simpl.
  { intros [= <-]. split_and!; [constructor|set_solver..]. }
  intros (rn1 & Hmk & Hrest)%bind_Some. unfold MakeEnd in Hmk. case_decide as Hnew; [done|]. injection Hmk as <-.
  destruct (IH _ Hrest) as (Hnd & Hfr & Hends & Hsv & Hrel & Hco & Hco' & Hen); simpl in *.
  assert (Hj : names j ∉ names <$> js).
  { intros (k & Hk & Hin)%list_elem_of_fmap. apply (Hfr k Hin). rewrite <- Hk. set_solver. }
  assert (Hj' : inl (names j) ∉ (inl ∘ names <$> js : list NetName)).
  { intros (k & [= Hk] & Hin)%list_elem_of_fmap. apply Hj, list_elem_of_fmap. by exists k. }
  split_and!; [by constructor|set_solver| |done|done|..].
  - rewrite Hends. set_solver.
  - intros k [->|Hk]%elem_of_cons; [|by apply Hco]. rewrite Hco' by done.
    unfold connection_at; simpl. by rewrite lookup_insert_eq.
  - intros nm Hnm. rewrite Hco' by set_solver. unfold connection_at; simpl.
    rewrite !lookup_insert_ne by set_solver. done.
  - intros nm. rewrite Hen. unfold enabled_at at 1; simpl. rewrite lookup_insert.
    repeat case_decide; set_solver.
Qed.

Lemma make_ends_some names js rn :
  NoDup (names <$> js) -> (forall j, j ∈ js -> inl (names j) ∉ nw_ends rn) -> is_Some (make_ends names js rn).
Proof.
  revert rn. induction js as [|j js IH]; intros rn; simpl; [done|]. intros [Hj Hnd]%NoDup_cons Hfr.
  unfold MakeEnd. rewrite decide_False by (apply Hfr; set_solver). simpl. apply IH; [done|]. simpl.
  intros k Hk. apply not_elem_of_union. split; [|apply Hfr; set_solver].
  intros [= He]%elem_of_singleton. apply Hj, list_elem_of_fmap. eauto.
Qed.

(** A request of an end reaches a server when the end is enabled and the server up. *)
Lemma reads_server (nm : NetName) (rn : Net) j :
  connection_at nm rn = Some (inr j) ->
  is_Some (readEndnameInfo nm rn) <-> enabled_at nm rn = true /\ is_Some (server_at (inr j) rn).
Proof.
  intros Hc. unfold readEndnameInfo. rewrite Hc; simpl. destruct (enabled_at nm rn); [|naive_solver].
  destruct (server_at (inr j) rn); simpl; naive_solver.
Qed.
