(* ===== verification/RaftConfig.v ===== *)
(** * The configuration of the Raft tests: src/src/raft/config.go, src/src/raft/raft.go

    How a test makes, connects, crashes and restarts the servers. The state holds the
    network, the objects it points to (servers of the network, Raft instances,
    persisters) and the tables of the configuration. Every function runs in the test's
    goroutine and is one step; [None] is a panic or a failed test. The Raft instances
    are the skeleton of raft.go. *)

From S2P Require Import Prelude GoLib Labrpc Persister RaftHarness TestNet.

(** ** The Raft skeleton *)

(** [persister] is the index of a persister. *)
Record Raft := mkRaft { rf_peers : list string; rf_persister : nat; rf_me : nat; rf_dead : Z }.

Definition GetState (rf : Raft) : Z * bool := (0%Z, false).

Definition Start {Cmd} (command : Cmd) (rf : Raft) : Z * Z * bool := ((-1)%Z, (-1)%Z, true).

Definition Kill (rf : Raft) : Raft := mkRaft (rf_peers rf) (rf_persister rf) (rf_me rf) 1.

Definition killed (rf : Raft) : bool := (rf_dead rf =? 1)%Z.

(** The pause of [ticker] in milliseconds, for what [rand.Int63] gives. *)
Definition ticker_pause (r : Z) : Z := (50 + r mod 300)%Z.

(** [ticker]: the pauses until [killed] says true, where [kill] is what it says at each
    iteration; [None] while it goes on. *)
Fixpoint ticker (kill : nat -> bool) (rands : nat -> Z) (it fuel : nat) : option (list Z) :=
  match fuel with
  | 0 => None
  | S fuel => if kill it then Some [] else cons (ticker_pause (rands it)) <$> ticker kill rands (S it) fuel
  end.

(** The skeleton's [readPersist] restores nothing; the goroutine started here is
    [ticker]. *)
Definition Make (peers : list string) (me persister : nat) : Raft := mkRaft peers persister me 0.

(** Pauses are between 50 and 349 milliseconds, and the loop ends at the first iteration
    after [Kill]. *)
Lemma ticker_ends kill rands it k fuel :
  (forall i, i < k -> kill (it + i) = false) -> kill (it + k) = true -> k < fuel ->
  exists pauses, ticker kill rands it fuel = Some pauses /\ length pauses = k /\ Forall (fun ms => 50 <= ms <= 349)%Z pauses.
Proof.
  revert it fuel. induction k as [|k IH]; intros it [|fuel] Hrun Hend Hf; try lia; simpl.
  - rewrite Nat.add_0_r in Hend. rewrite Hend. by exists [].
  - pose proof (Hrun 0 ltac:(lia)) as H0. rewrite Nat.add_0_r in H0. rewrite H0.
    destruct (IH (S it) fuel) as (pauses & -> & Hlen & Hall); [| |lia|].
    + intros i Hi. replace (S it + i) with (it + S i) by lia. apply Hrun. lia.
    + by replace (S it + k) with (it + S k) by lia.
    + eexists. split; [done|]. simpl. split; [lia|]. constructor; [|done]. unfold ticker_pause.
      pose proof (Z.mod_pos_bound (rands it) 300). lia.
Qed.

Section config.
Context {Cmd Handler : Type}.
Context (decode : string -> option (Z * list Cmd)).
(** What reflection finds on the Raft instance at an index. *)
Context (raft_methods : nat -> list (Method Handler)).

(** ** The state *)

Record Stats := mkStats { st_rpcs0 : Z; st_cmds0 : Z; st_bytes0 : Z; st_maxIndex0 : Z }.

Record Config := mkConfig {
  cf_n : nat;
  cf_net : Net;
  cf_servers : list (Server Handler);     (** the servers of the network *)
  cf_instances : list Raft;               (** every Raft instance ever made *)
  cf_world : World;                       (** every persister ever made *)
  cf_rafts : list (option nat);
  cf_connected : list bool;
  cf_saved : list (option nat);
  cf_endnames : EndTable;
  cf_checks : @Cfg Cmd;
  cf_finished : bool;
  cf_stats : Stats;
}.

Definition with_net (rn : Net) (c : Config) : Config :=
  mkConfig (cf_n c) rn (cf_servers c) (cf_instances c) (cf_world c) (cf_rafts c) (cf_connected c) (cf_saved c)
    (cf_endnames c) (cf_checks c) (cf_finished c) (cf_stats c).

Definition with_connected (up : list bool) (c : Config) : Config :=
  mkConfig (cf_n c) (cf_net c) (cf_servers c) (cf_instances c) (cf_world c) (cf_rafts c) up (cf_saved c)
    (cf_endnames c) (cf_checks c) (cf_finished c) (cf_stats c).

Definition with_saved (w : World) (saved : list (option nat)) (c : Config) : Config :=
  mkConfig (cf_n c) (cf_net c) (cf_servers c) (cf_instances c) w (cf_rafts c) (cf_connected c) saved
    (cf_endnames c) (cf_checks c) (cf_finished c) (cf_stats c).

Definition with_rafts (rs : list Raft) (rafts : list (option nat)) (c : Config) : Config :=
  mkConfig (cf_n c) (cf_net c) (cf_servers c) rs (cf_world c) rafts (cf_connected c) (cf_saved c)
    (cf_endnames c) (cf_checks c) (cf_finished c) (cf_stats c).

Definition with_endnames (t : EndTable) (c : Config) : Config :=
  mkConfig (cf_n c) (cf_net c) (cf_servers c) (cf_instances c) (cf_world c) (cf_rafts c) (cf_connected c)
    (cf_saved c) t (cf_checks c) (cf_finished c) (cf_stats c).

Definition with_checks (k : @Cfg Cmd) (c : Config) : Config :=
  mkConfig (cf_n c) (cf_net c) (cf_servers c) (cf_instances c) (cf_world c) (cf_rafts c) (cf_connected c)
    (cf_saved c) (cf_endnames c) k (cf_finished c) (cf_stats c).

Definition with_servers (ss : list (Server Handler)) (c : Config) : Config :=
  mkConfig (cf_n c) (cf_net c) ss (cf_instances c) (cf_world c) (cf_rafts c) (cf_connected c) (cf_saved c)
    (cf_endnames c) (cf_checks c) (cf_finished c) (cf_stats c).

(** ** Connecting servers *)

(** The bodies of the loops of [connect], for the outgoing and the incoming ends. *)
Definition connect_out (up : list bool) (t : EndTable) (i j : nat) : option (option string) :=
  u ← up !! j; if (u : bool) then Some <$> end_of t i j else Some None.

Definition connect_in (up : list bool) (t : EndTable) (i j : nat) : option (option string) :=
  u ← up !! j; if (u : bool) then Some <$> end_of t j i else Some None.

Definition connect (i : nat) (c : Config) : option Config :=
  _ ← cf_connected c !! i;
  let up := <[i := true]> (cf_connected c) in
  rn ← enable_loop true (connect_out up (cf_endnames c) i) (seq 0 (cf_n c)) (cf_net c);
  rn ← enable_loop true (connect_in up (cf_endnames c) i) (seq 0 (cf_n c)) rn;
  Some (with_net rn (with_connected up c)).

(** The bodies of the loops of [disconnect]. *)
Definition disconnect_out (t : EndTable) (i j : nat) : option (option string) :=
  row ← t !! i; match row with Some r => Some <$> r !! j | None => Some None end.

Definition disconnect_in (t : EndTable) (i j : nat) : option (option string) :=
  row ← t !! j; match row with Some r => Some <$> r !! i | None => Some None end.

Definition disconnect (i : nat) (c : Config) : option Config :=
  _ ← cf_connected c !! i;
  rn ← enable_loop false (disconnect_out (cf_endnames c) i) (seq 0 (cf_n c)) (cf_net c);
  rn ← enable_loop false (disconnect_in (cf_endnames c) i) (seq 0 (cf_n c)) rn;
  Some (with_net rn (with_connected (<[i := false]> (cf_connected c)) c)).

(** ** Crashing and starting servers *)

(** [if cfg.saved[i] != nil { cfg.saved[i] = cfg.saved[i].Copy() }] *)
Definition copy_saved (i : nat) (c : Config) : option Config :=
  sv ← cf_saved c !! i;
  match sv with
  | None => Some c
  | Some p =>
      '(w, _) ← perform (OCopy p) (cf_world c);
      Some (with_saved w (<[i := Some (length (persisters (cf_world c)))]> (cf_saved c)) c)
  end.

(** The instance of the server is killed and forgotten. *)
Definition kill_raft (i : nat) (c : Config) : option Config :=
  r ← cf_rafts c !! i;
  match r with
  | None => Some c
  | Some a => Some (with_rafts (alter Kill a (cf_instances c)) (<[i := None]> (cf_rafts c)) c)
  end.

(** What was saved is saved again in a new persister. *)
Definition resave (i : nat) (c : Config) : option Config :=
  sv ← cf_saved c !! i;
  match sv with
  | None => Some c
  | Some p =>
      '(w, raftlog) ← perform (OReadRaftState p) (cf_world c);
      '(w, snapshot) ← perform (OReadSnapshot p) w;
      let fresh := length (persisters w) in
      '(w, _) ← perform OMake w;
      '(w, _) ← perform (OSave fresh raftlog snapshot) w;
      Some (with_saved w (<[i := Some fresh]> (cf_saved c)) c)
  end.

Definition crash1 (i : nat) (c : Config) : option Config :=
  c ← disconnect i c;
  c ← copy_saved i (with_net (DeleteServer (inr i) (cf_net c)) c);
  c ← kill_raft i c;
  resave i c.

(** The snapshot of a restarted server is ingested when there is one. *)
Definition ingest_saved (i p : nat) (c : Config) : option Config :=
  '(w, snapshot) ← perform (OReadSnapshot p) (cf_world c);
  let c := with_saved w (cf_saved c) c in
  let bytes := bytes_of (mem w) snapshot in
  if decide (snapshot <> None /\ 0 < String.length bytes) then
    match ingestSnap decode i (Some bytes) (-1) (cf_checks c) with
    | Continue _ k => Some (with_checks k c)
    | _ => None
    end
  else Some c.

(** The persister that [Make] gets: a copy of the saved one, or a new one. *)
Definition start_persister (i : nat) (c : Config) : option Config :=
  sv ← cf_saved c !! i;
  match sv with
  | Some _ =>
      c ← copy_saved i c;
      p ← mjoin (cf_saved c !! i);
      ingest_saved i p c
  | None =>
      '(w, _) ← perform OMake (cf_world c);
      Some (with_saved w (<[i := Some (length (persisters (cf_world c)))]> (cf_saved c)) c)
  end.

(** [start1]; [names] are the strings that [randstring] gives. The goroutine that
    reads the apply channel is [applier] or [applierSnap]. *)
Definition start1 (i : nat) (names : nat -> string) (c : Config) : option Config :=
  c ← crash1 i c;
  _ ← cf_endnames c !! i;
  let row := names <$> seq 0 (cf_n c) in
  let c := with_endnames (<[i := Some row]> (cf_endnames c)) c in
  rn ← make_ends names (seq 0 (cf_n c)) (cf_net c);
  let c := with_net rn c in
  let k := cf_checks c in
  _ ← lastApplied k !! i;
  let c := with_checks (mkCfg (logs k) (<[i := 0%Z]> (lastApplied k)) (maxIndex k)) c in
  c ← start_persister i c;
  p ← mjoin (cf_saved c !! i);
  let a := length (cf_instances c) in
  let c := with_rafts (cf_instances c ++ [Make row i p]) (<[i := Some a]> (cf_rafts c)) c in
  let srv := AddService (MakeService "Raft" (raft_methods a)) MakeServer in
  let c := with_servers (cf_servers c ++ [srv]) c in
  Some (with_net (AddServer (inr i) (length (cf_servers c) - 1) (cf_net c)) c).

(** ** make_config and cleanup *)

Definition setunreliable (unrel : bool) (c : Config) : Config := with_net (Reliable (negb unrel) (cf_net c)) c.

Definition setlongreordering (longrel : bool) (c : Config) : Config := with_net (LongReordering longrel (cf_net c)) c.

(** The tables of [make_config] before any server. *)
Definition empty_config (n : nat) : Config :=
  mkConfig n MakeNetwork [] [] start (replicate n None) (replicate n false) (replicate n None) (replicate n None)
    (mkCfg (replicate n ∅) (replicate n 0%Z) 0) false (mkStats 0 0 0 0).

Fixpoint for_servers (f : nat -> Config -> option Config) (js : list nat) (c : Config) : option Config :=
  match js with
  | [] => Some c
  | i :: js => c ← f i c; for_servers f js c
  end.

(** [make_config]; [names i] are the names for the server [i]. *)
Definition make_config (n : nat) (unreliable : bool) (names : nat -> nat -> string) : option Config :=
  let c := setunreliable unreliable (empty_config n) in
  let c := with_net (LongDelays true (cf_net c)) c in
  c ← for_servers (fun i => start1 i (names i)) (seq 0 n) c;
  for_servers connect (seq 0 n) c.

(** [cleanup], apart from the time limit: every instance is killed and the network
    closed. *)
Definition cleanup (c : Config) : option Config :=
  let kills := foldl (fun rs r => match r with Some a => alter Kill a rs | None => rs end) (cf_instances c) (cf_rafts c) in
  rn ← Cleanup (cf_net c);
  Some (mkConfig (cf_n c) rn (cf_servers c) kills (cf_world c) (cf_rafts c) (cf_connected c) (cf_saved c)
    (cf_endnames c) (cf_checks c) true (cf_stats c)).

Definition checkFinished (c : Config) : bool := cf_finished c.

(** ** Counters *)

Definition rpcCount (server : nat) (c : Config) : option Z := GetCount (inr server) (cf_net c) (cf_servers c).
Definition rpcTotal (c : Config) : Z := GetTotalCount (cf_net c).
Definition bytesTotal (c : Config) : Z := GetTotalBytes (cf_net c).

Definition begin (c : Config) : Config :=
  mkConfig (cf_n c) (cf_net c) (cf_servers c) (cf_instances c) (cf_world c) (cf_rafts c) (cf_connected c) (cf_saved c)
    (cf_endnames c) (cf_checks c) (cf_finished c)
    (mkStats (rpcTotal c) 0 (bytesTotal c) (maxIndex (cf_checks c))).

(** What [end] prints: the peers, the RPCs, the bytes and the agreements since
    [begin]. *)
Definition end_report (c : Config) : nat * Z * Z * Z :=
  (cf_n c, wrap64 (rpcTotal c - st_rpcs0 (cf_stats c)), wrap64 (bytesTotal c - st_bytes0 (cf_stats c)),
   wrap64 (maxIndex (cf_checks c) - st_maxIndex0 (cf_stats c)))%Z.

(** [LogSize]; a nil persister panics. *)
Definition LogSize (c : Config) : option nat :=
  foldl (fun acc i =>
    logsize ← acc;
    p ← mjoin (cf_saved c !! i);
    ps ← persisters (cf_world c) !! p;
    let n := RaftStateSize ps (mem (cf_world c)) in
    Some (if decide (logsize < n) then n else logsize)) (Some 0) (seq 0 (cf_n c)).
End config.
