(* ===== verification/RaftConfigInv.v ===== *)
(** * The wiring of the Raft tests

    Which ends are enabled as the test of src/src/raft/config.go connects, disconnects
    and restarts servers. *)

From S2P Require Import Prelude GoLib Labrpc TestNet RaftConfig.

Set Default Proof Using "Type".

(** ** The wiring *)

(** The table has a row of [n] different ends for every started server, each connected
    to its server. *)
Record wires (n : nat) (t : EndTable) (rn : Net) : Prop := {
  wi_table : length t = n;
  wi_row i row : t !! i = Some (Some row) -> length row = n;
  wi_distinct i j i' j' e : end_of t i j = Some e -> end_of t i' j' = Some e -> i = i' /\ j = j';
  wi_end i j e : end_of t i j = Some e -> inl e ∈ nw_ends rn /\ connection_at (inl e) rn = Some (inr j);
}.

(** An end is enabled exactly when it is the current end of a connected server to a
    connected server. In particular the ends of earlier instances are disabled. *)
Record wired (n : nat) (t : EndTable) (up : list bool) (rn : Net) : Prop := {
  wi_wires : wires n t rn;
  wi_up : length up = n;
  wi_enabled nm : enabled_at nm rn = true <->
    exists i j e, nm = inl e /\ end_of t i j = Some e /\ up !! i = Some true /\ up !! j = Some true;
}.

Lemma end_of_insert t i row i' j :
  i < length t -> end_of (<[i := Some row]> t) i' j = if decide (i' = i) then row !! j else end_of t i' j.
Proof.
  intros Hi. unfold end_of. case_decide as He.
  - subst i'. by rewrite list_lookup_insert_eq.
  - by rewrite list_lookup_insert_ne by done.
Qed.

(** The wiring only depends on the ends, on which are enabled and on their servers. *)
Lemma wires_same n t rn rn' :
  wires n t rn -> nw_ends rn' = nw_ends rn -> nw_connections rn' = nw_connections rn -> wires n t rn'.
Proof. intros [] H1 H2. split; unfold connection_at in *; rewrite ?H1, ?H2; done. Qed.

Lemma wired_same n t up rn rn' :
  wired n t up rn -> nw_ends rn' = nw_ends rn -> nw_enabled rn' = nw_enabled rn ->
  nw_connections rn' = nw_connections rn -> wired n t up rn'.
Proof.
  intros [Hw Hup Hen] H1 H2 H3. split; [by eapply wires_same|done|]. unfold enabled_at in *. by rewrite H2.
Qed.

(** [endnames[i][j]] is there once the server [i] was started. *)
Lemma wired_end n t rn i j :
  wires n t rn -> j < n -> is_Some (mjoin (t !! i)) -> is_Some (end_of t i j).
Proof.
  intros Hw Hj [row Hrow]. unfold end_of. rewrite Hrow; simpl. apply lookup_lt_is_Some.
  destruct (t !! i) as [[r|]|] eqn:Hi; simplify_eq/=. by rewrite (wi_row _ _ _ Hw _ _ Hi).
Qed.

Lemma end_of_lt n t rn i j e : wires n t rn -> end_of t i j = Some e -> i < n /\ j < n.
Proof.
  intros Hw (row & Hrow & Hj)%bind_Some. destruct (t !! i) as [[r|]|] eqn:Hi; simplify_eq/=. split.
  - rewrite <- (wi_table _ _ _ Hw). by eapply lookup_lt_Some.
  - rewrite <- (wi_row _ _ _ Hw _ _ Hi). by eapply lookup_lt_Some.
Qed.

(** Without any started server. *)
Lemma wires_empty n : wires n (replicate n None) MakeNetwork.
Proof.
  assert (Hend : forall i j, end_of (replicate n None) i j = None).
  { intros i j. unfold end_of. destruct (replicate n None !! i) as [[r|]|] eqn:Hr; [|done..].
    by apply lookup_replicate in Hr as [? _]. }
  split; [apply length_replicate|intros i row [? _]%lookup_replicate; done|intros i j i' j' e|intros i j e]; by rewrite Hend.
Qed.

(** *** connect *)

Lemma touched_connect_out n t up rn i e :
  wired n t up rn -> e ∈ touched (connect_out (<[i := true]> up) t i) (seq 0 n) <->
  exists j, end_of t i j = Some e /\ <[i := true]> up !! j = Some true.
Proof.
  intros Hw. rewrite elem_of_touched. unfold connect_out. split.
  - intros (j & _ & (u & Hu & Hj)%bind_Some). destruct u; simplify_eq.
    apply fmap_Some in Hj as (e' & Hj & [= ->]). eauto.
  - intros (j & He & Hu). exists j. destruct (end_of_lt _ _ _ _ _ _ (wi_wires _ _ _ _ Hw) He).
    split; [apply elem_of_seq; lia|]. by rewrite Hu; simpl; rewrite He.
Qed.

Lemma touched_connect_in n t up rn i e :
  wired n t up rn -> e ∈ touched (connect_in (<[i := true]> up) t i) (seq 0 n) <->
  exists j, end_of t j i = Some e /\ <[i := true]> up !! j = Some true.
Proof.
  intros Hw. rewrite elem_of_touched. unfold connect_in. split.
  - intros (j & _ & (u & Hu & Hj)%bind_Some). destruct u; simplify_eq.
    apply fmap_Some in Hj as (e' & Hj & [= ->]). eauto.
  - intros (j & He & Hu). exists j. destruct (end_of_lt _ _ _ _ _ _ (wi_wires _ _ _ _ Hw) He).
    split; [apply elem_of_seq; lia|]. by rewrite Hu; simpl; rewrite He.
Qed.

Lemma up_insert (up : list bool) i j :
  i < length up -> <[i := true]> up !! j = Some true <-> j = i \/ up !! j = Some true.
Proof.
  intros Hi. rewrite list_lookup_insert. case_decide as Hij; [naive_solver|].
  split; [by right|]. intros [->|?]; [|done]. destruct Hij. done.
Qed.

Lemma down_insert (up : list bool) i j :
  i < length up -> <[i := false]> up !! j = Some true <-> j <> i /\ up !! j = Some true.
Proof.
  intros Hi. rewrite list_lookup_insert. case_decide as Hij; [naive_solver|].
  split; [|naive_solver]. intros Hj. split; [|done]. intros ->. destruct Hij. done.
Qed.

(** Two loops that enable or disable the ends [P]. *)
Lemma two_loops yes f g js rn rn1 rn' (P : string -> Prop) :
  enable_loop yes f js rn = Some rn1 -> enable_loop yes g js rn1 = Some rn' ->
  (forall e, P e <-> e ∈ touched f js \/ e ∈ touched g js) ->
  same_but_enabled rn rn' /\
  forall nm, enabled_at nm rn' = true <->
    if yes then (exists e, nm = inl e /\ P e) \/ enabled_at nm rn = true
    else enabled_at nm rn = true /\ ~ (exists e, nm = inl e /\ P e).
Proof.
  intros H1 H2 HP. apply enable_loop_spec in H1 as [Hs1 He1]. apply enable_loop_spec in H2 as [Hs2 He2].
  split; [by etrans|]. intros nm. rewrite He2, He1.
  assert (Hin : (exists e, nm = inl e /\ P e) <->
    nm ∈ (inl <$> touched f js : list NetName) \/ nm ∈ (inl <$> touched g js : list NetName)).
  { setoid_rewrite HP. rewrite !list_elem_of_fmap. naive_solver. }
  destruct yes; rewrite Hin; repeat case_decide; naive_solver.
Qed.

Lemma wired_connect n t up rn rn1 rn' i :
  wired n t up rn -> i < n ->
  enable_loop true (connect_out (<[i := true]> up) t i) (seq 0 n) rn = Some rn1 ->
  enable_loop true (connect_in (<[i := true]> up) t i) (seq 0 n) rn1 = Some rn' ->
  wired n t (<[i := true]> up) rn' /\ same_but_enabled rn rn'.
Proof.
  intros Hw Hi H1 H2.
  destruct (two_loops true _ _ _ _ _ _
    (fun e => exists j, (end_of t i j = Some e \/ end_of t j i = Some e) /\ <[i := true]> up !! j = Some true) H1 H2)
    as [Hsame Hen].
  { intros e. rewrite (touched_connect_out _ _ _ _ _ _ Hw), (touched_connect_in _ _ _ _ _ _ Hw). naive_solver. }
  split; [|done]. pose proof Hw as [Hws Hup Hen0]. pose proof Hws as [_ _ Hd _]. destruct Hsame as [S1 S2 S3 S4].
  split; [by eapply wires_same|by rewrite length_insert|].
  - intros nm. rewrite Hen, Hen0. setoid_rewrite up_insert; [|lia..]. split.
    + intros [(e & -> & j & [Ha|Ha] & Hj)|(a & b & e & -> & Ha & Hb)]; naive_solver.
    + intros (a & b & e & -> & Hab & [->|Ha] & [->|Hb]); naive_solver.
Qed.

(** *** disconnect *)

Lemma touched_disconnect n t up rn i e :
  wired n t up rn ->
  (exists j, end_of t i j = Some e \/ end_of t j i = Some e) <->
  e ∈ touched (disconnect_out t i) (seq 0 n) \/ e ∈ touched (disconnect_in t i) (seq 0 n).
Proof.
  intros Hw. rewrite !elem_of_touched. unfold disconnect_out, disconnect_in, end_of. split.
  - intros (j & [Hj|Hj]); pose proof (end_of_lt _ _ _ _ _ _ (wi_wires _ _ _ _ Hw) Hj) as [??];
      apply bind_Some in Hj as (row & Hr & Hj); [left|right]; exists j; (split; [apply elem_of_seq; lia|]).
    + destruct (t !! i) as [[r|]|]; simplify_eq/=. by rewrite Hj.
    + destruct (t !! j) as [[r|]|]; simplify_eq/=. by rewrite Hj.
  - intros [(j & _ & (row & Hr & Hj)%bind_Some)|(j & _ & (row & Hr & Hj)%bind_Some)]; destruct row as [r|]; simplify_eq;
      apply fmap_Some in Hj as (e' & Hj & [= ->]); exists j; [left|right]; by rewrite Hr.
Qed.

Lemma wired_disconnect n t up rn rn1 rn' i :
  wired n t up rn -> i < n ->
  enable_loop false (disconnect_out t i) (seq 0 n) rn = Some rn1 ->
  enable_loop false (disconnect_in t i) (seq 0 n) rn1 = Some rn' ->
  wired n t (<[i := false]> up) rn' /\ same_but_enabled rn rn'.
Proof.
  intros Hw Hi H1 H2.
  destruct (two_loops false _ _ _ _ _ _ (fun e => exists j, end_of t i j = Some e \/ end_of t j i = Some e) H1 H2)
    as [Hsame Hen]; [intros e; by eapply touched_disconnect|].
  split; [|done]. pose proof Hw as [Hws Hup Hen0]. pose proof Hws as [_ _ Hd _]. destruct Hsame as [S1 S2 S3 S4].
  split; [by eapply wires_same|by rewrite length_insert|].
  - intros nm. rewrite Hen, Hen0. setoid_rewrite down_insert; [|lia..]. split.
    + intros [(a & b & e & -> & Hab & Ha & Hb) Hno]. exists a, b, e. split_and!; try done.
      * intros ->. apply Hno. exists e. eauto.
      * intros ->. apply Hno. exists e. eauto.
    + intros (a & b & e & -> & Hab & [Hai Ha] & [Hbi Hb]). split; [naive_solver|].
      intros (e' & [= <-] & j & [Hj|Hj]); destruct (Hd _ _ _ _ _ Hab Hj); done.
Qed.

(** *** A fresh row of ends *)

Section fresh.
Context (n : nat) (t : EndTable) (rn rn' : Net) (i : nat) (names : nat -> string).
Hypothesis Hw : wires n t rn.
Hypothesis Hi : i < n.
Hypothesis Hmk : make_ends names (seq 0 n) rn = Some rn'.

Lemma fresh_row j e : (names <$> seq 0 n) !! j = Some e <-> j < n /\ e = names j.
Proof. rewrite list_lookup_fmap, fmap_Some. setoid_rewrite lookup_seq. naive_solver. Qed.

(** The names in use are not among the new ones. *)
Lemma fresh_old nm : nm ∈ nw_ends rn -> nm ∉ (inl ∘ names <$> seq 0 n : list NetName).
Proof using Hmk.
  intros Hnm (j & -> & Hj)%list_elem_of_fmap. apply make_ends_spec in Hmk as (_ & Hfr & _). by destruct (Hfr j Hj).
Qed.

Lemma wires_fresh : wires n (<[i := Some (names <$> seq 0 n)]> t) rn'.
Proof using Hw Hi Hmk.
  pose proof Hw as [Ht Hrow Hd He].
  destruct (make_ends_spec _ _ _ _ Hmk) as (Hnd & Hfr & Hends & _ & _ & Hco & Hco' & _).
  assert (Hold : forall a b e, end_of t a b = Some e -> inl e ∉ (inl ∘ names <$> seq 0 n : list NetName))
    by (intros a b e [Hab _]%He; by apply fresh_old).
  split.
  - by rewrite length_insert.
  - intros a row. rewrite list_lookup_insert. case_decide; [|apply Hrow]. intros [= <-].
    by rewrite length_fmap, length_seq.
  - intros a b a' b' e. rewrite !end_of_insert by lia. repeat case_decide; try subst a; try subst a'.
    + intros H1 H2. split; [done|]. eapply NoDup_lookup; done.
    + intros [? ->]%fresh_row Hab. destruct (Hold _ _ _ Hab). apply list_elem_of_fmap. exists b.
      split; [done|]. apply elem_of_seq. lia.
    + intros Hab [? ->]%fresh_row. destruct (Hold _ _ _ Hab). apply list_elem_of_fmap. exists b'.
      split; [done|]. apply elem_of_seq. lia.
    + by apply Hd.
  - intros a b e. rewrite end_of_insert by lia. case_decide.
    + intros [Hb ->]%fresh_row. assert (b ∈ seq 0 n) by (apply elem_of_seq; lia). split; [|by apply Hco].
      rewrite Hends. apply elem_of_union_l, elem_of_list_to_set, list_elem_of_fmap. eauto.
    + intros Hab. rewrite Hco' by (by eapply Hold). destruct (He _ _ _ Hab). split; [|done].
      rewrite Hends. by apply elem_of_union_r.
Qed.

Lemma wired_fresh up :
  wired n t up rn -> up !! i = Some false -> wired n (<[i := Some (names <$> seq 0 n)]> t) up rn'.
Proof using Hw Hi Hmk.
  intros [_ Hup Hen] Hdown. pose proof (wi_table _ _ _ Hw) as Ht.
  destruct (make_ends_spec _ _ _ _ Hmk) as (_ & _ & _ & _ & _ & _ & _ & Hen').
  split; [apply wires_fresh|done|]. intros nm. rewrite Hen'. case_decide as Hnm.
  - split; [done|]. intros (a & b & e & -> & Hab & Ha & Hb). rewrite end_of_insert in Hab by lia.
    case_decide; [congruence|]. apply (wi_end _ _ _ Hw) in Hab as [Hab _]. by destruct (fresh_old _ Hab).
  - rewrite Hen. setoid_rewrite end_of_insert; [|lia]. split; intros (a & b & e & -> & Hab & Ha & Hb); exists a, b, e;
      (split; [done|]); rewrite ?decide_False in * by congruence; done.
Qed.
End fresh.
