(* ===== verification/SavedState.v ===== *)
(** * The persisted state of the servers of a test

    The configurations of the tests keep a table of persisters, one for each server,
    and hand a copy to every new instance, so that old instances cannot disturb the
    state of new ones: src/src/raft/config.go, src/src/kvraft/config.go and
    src/src/shardctrler/config.go. This file holds the invariant they share and what
    their steps do to it. *)

From S2P Require Import Prelude GoLib Labrpc Persister TestNet RaftConfig.

Set Default Proof Using "Type".

Implicit Types (i j a p : nat) (w : World).

(** ** The steps *)

(** [if cfg.saved[i] != nil { cfg.saved[i] = cfg.saved[i].Copy() }] *)
Definition refresh_saved (i : nat) (w : World) (sv : list (option nat)) : option (World * list (option nat)) :=
  o ← sv !! i;
  match o with
  | None => Some (w, sv)
  | Some p =>
      '(w', _) ← perform (OCopy p) w;
      Some (w', <[i := Some (length (persisters w))]> sv)
  end.

(** The same with [else { cfg.saved[i] = raft.MakePersister() }]. *)
Definition start_saved (i : nat) (w : World) (sv : list (option nat)) : option (World * list (option nat)) :=
  o ← sv !! i;
  match o with
  | None =>
      '(w', _) ← perform OMake w;
      Some (w', <[i := Some (length (persisters w))]> sv)
  | Some _ => refresh_saved i w sv
  end.

(** The largest [size] of the persisters of [n] servers; a nil persister panics. *)
Definition max_saved (size : Persister -> list string -> nat) (n : nat) (w : World) (sv : list (option nat)) : option nat :=
  foldl (fun acc i =>
    largest ← acc;
    p ← mjoin (sv !! i);
    ps ← persisters w !! p;
    let n := size ps (mem w) in
    Some (if decide (largest < n) then n else largest)) (Some 0) (seq 0 n).

(** An instance saves bytes of its own in its persister [p]. *)
Definition save_bytes (p : nat) (rs sn : string) (w : World) : option World :=
  '(w, x) ← perform (OAlloc rs) w;
  '(w, y) ← perform (OAlloc sn) w;
  '(w, _) ← perform (OSave p x y) w;
  Some w.

(** ** The invariant *)

(** The table [saved]. *)
Abbreviation Table := (list (option nat)).

(** The persistent state: memory is not shared with callers and indices are in range;
    a running instance has the server's persister, which nobody else has; the
    instances that do not run were killed. *)
Record kept (rs : list Raft) (rafts : Table) (w : World) (sv : Table) : Prop := {
  kp_isolated : isolated w;
  kp_persister i p : sv !! i = Some (Some p) -> p < length (saved w);
  kp_instance a rf : rs !! a = Some rf -> rf_persister rf < length (saved w);
  kp_running i a : rafts !! i = Some (Some a) ->
    exists rf, rs !! a = Some rf /\ rf_me rf = i /\ sv !! i = Some (Some (rf_persister rf));
  kp_owner i p a rf : sv !! i = Some (Some p) -> rs !! a = Some rf -> rf_persister rf = p -> rafts !! i = Some (Some a);
  kp_distinct i j p : sv !! i = Some (Some p) -> sv !! j = Some (Some p) -> i = j;
  kp_killed a rf : rs !! a = Some rf -> killed rf = true \/ rafts !! rf_me rf = Some (Some a);
}.

Lemma saved_length w : length (saved w) = length (persisters w).
Proof. apply length_fmap. Qed.

(** The saved state under a table of persisters. *)
Definition value_in (w : World) (sv : Table) i : option (string * string) :=
  p ← mjoin (sv !! i); saved w !! p.

(** The server [i] has moved to a new persister with the value [v]; every other
    persister is as before. *)
Record fresh_persister i (v : string * string) (w : World) (sv : Table) (w' : World) (sv' : Table) : Prop := {
  fp_isolated : isolated w';
  fp_prefix : saved w `prefix_of` saved w';
  fp_fresh : exists p, sv' = <[i := Some p]> sv /\ length (saved w) <= p /\ saved w' !! p = Some v;
}.

(** Nothing happened to a server without a persister, or it moved with its value. *)
Definition refreshed i (w : World) (sv : Table) (w' : World) (sv' : Table) : Prop :=
  sv !! i = Some None /\ w' = w /\ sv' = sv \/
  exists v, value_in w sv i = Some v /\ fresh_persister i v w sv w' sv'.

Lemma fresh_value i v w sv w' sv' :
  i < length sv -> fresh_persister i v w sv w' sv' -> value_in w' sv' i = Some v.
Proof. intros Hi [_ _ (p & -> & _ & Hp)]. unfold value_in. by rewrite list_lookup_insert_eq. Qed.

Lemma fresh_trans i v v' w sv w1 sv1 w2 sv2 :
  fresh_persister i v w sv w1 sv1 -> fresh_persister i v' w1 sv1 w2 sv2 -> fresh_persister i v' w sv w2 sv2.
Proof.
  intros [_ Hp1 (p1 & -> & Hl1 & _)] [Hi2 Hp2 (p2 & -> & Hl2 & H2)]. split; [done|by etrans|].
  exists p2. split_and!; [by rewrite list_insert_insert_eq| |done]. apply prefix_length in Hp1. lia.
Qed.

Lemma refreshed_trans i w sv w1 sv1 w2 sv2 :
  i < length sv -> refreshed i w sv w1 sv1 -> refreshed i w1 sv1 w2 sv2 -> refreshed i w sv w2 sv2.
Proof.
  intros Hi [(Hn & -> & ->)|(v & Hv & Hf)] H2; [done|]. right. exists v. split; [done|].
  pose proof (fresh_value _ _ _ _ _ _ Hi Hf) as Hv1. destruct H2 as [(Hn & -> & ->)|(v' & Hv' & Hf')]; [done|].
  assert (v' = v) as -> by congruence. by eapply fresh_trans.
Qed.

Lemma copy_world p w w' r :
  isolated w -> perform (OCopy p) w = Some (w', r) ->
  isolated w' /\ exists v, saved w !! p = Some v /\ saved w' = saved w ++ [v].
Proof.
  intros Hi Hp. assert (Hlt : p < length (saved w)).
  { simpl in Hp. apply bind_Some in Hp as (ps & Hps & _). rewrite saved_length. by eapply lookup_lt_Some. }
  apply perform_spec in Hp as (Hi' & Hs & _); [|done]. split; [done|].
  destruct (lookup_lt_is_Some_2 _ _ Hlt) as [v Hv]. exists v. split; [done|]. rewrite Hs; simpl. by rewrite Hv.
Qed.

Lemma refreshed_isolated i w sv w' sv' : isolated w -> refreshed i w sv w' sv' -> isolated w'.
Proof. intros Hi [(_ & -> & _)|(v & _ & [? _ _])]; done. Qed.

(** ** Moving to a new persister *)

(** The server [i] without an instance moves to a new persister. *)
Lemma kept_fresh rs rafts w sv i v w' sv' :
  kept rs rafts w sv -> rafts !! i = Some None -> i < length sv ->
  fresh_persister i v w sv w' sv' -> kept rs rafts w' sv'.
Proof.
  intros [Hiso Hp Hin Hrun How Hd Hk] Hi Hlt [Hiso' Hpre (q & -> & Hq & Hv)].
  pose proof (prefix_length _ _ Hpre) as Hlen. apply lookup_lt_Some in Hv. split; [done|..].
  - intros j p. rewrite list_lookup_insert. case_decide; [by intros [= <-]|]. intros ?%Hp. lia.
  - intros a rf ?%Hin. lia.
  - intros j a Hj. destruct (Hrun j a Hj) as (rf & Hrf & Hme & Hsv). exists rf. split_and!; [done..|].
    rewrite list_lookup_insert_ne; [done|]. intros ->. congruence.
  - intros j p a rf. rewrite list_lookup_insert. case_decide.
    + intros [= <-] Hrf%Hin. lia.
    + by apply How.
  - intros j k p. rewrite !list_lookup_insert. repeat case_decide; subst; [lia|..].
    + intros [= <-] ?%Hp. lia.
    + intros ?%Hp [= <-]. lia.
    + by apply Hd.
  - done.
Qed.

(** The instance of the server [i] is killed and the server moves to a new
    persister. *)
Lemma kept_crash rs rafts w sv i w' sv' :
  kept rs rafts w sv -> i < length rafts -> i < length sv -> refreshed i w sv w' sv' ->
  kept (match mjoin (rafts !! i) with Some a => alter Kill a rs | None => rs end) (<[i := None]> rafts) w' sv'.
Proof.
  intros Hkept Hi Hi' Href. pose proof Hkept as [Hiso Hp Hin Hrun How Hd Hk].
  set (rs' := match mjoin (rafts !! i) with Some a => alter Kill a rs | None => rs end).
  assert (Hrs : forall a rf', rs' !! a = Some rf' -> exists rf, rs !! a = Some rf /\ rf_persister rf' = rf_persister rf /\
    rf_me rf' = rf_me rf /\ (rf' = rf /\ rafts !! i <> Some (Some a) \/ killed rf' = true)).
  { unfold rs'. intros a rf' Ha. destruct (rafts !! i) as [[b|]|] eqn:Hri; simpl in Ha; [|by exists rf'; split_and!; [done..|left; split; [done|congruence]]..].
    destruct (decide (b = a)) as [->|Hne].
    - rewrite list_lookup_alter_eq in Ha. apply fmap_Some in Ha as (rf & Hrf & ->). exists rf. eauto.
    - rewrite list_lookup_alter_ne in Ha by done. exists rf'. split_and!; [done..|]. left. split; [done|congruence]. }
  assert (Hrs' : forall a rf, rs !! a = Some rf -> rafts !! i <> Some (Some a) -> rs' !! a = Some rf).
  { unfold rs'. intros a rf Ha Hne. destruct (rafts !! i) as [[b|]|] eqn:Hri; simpl; [|done..].
    rewrite list_lookup_alter_ne; [done|]. congruence. }
  assert (Hrun' : forall j a, <[i := None]> rafts !! j = Some (Some a) ->
    exists rf, rs' !! a = Some rf /\ rf_me rf = j /\ sv !! j = Some (Some (rf_persister rf))).
  { intros j a. rewrite list_lookup_insert. case_decide as Hij; [done|]. intros Hj.
    destruct (Hrun j a Hj) as (rf & Hrf & Hme & Hsv). exists rf. split_and!; [|done..]. apply Hrs'; [done|].
    intros Hri. destruct (Hrun i a Hri) as (rf2 & Hrf2 & Hme2 & _). simplify_eq. destruct Hij. done. }
  assert (Hkill' : forall a rf', rs' !! a = Some rf' -> killed rf' = true \/ <[i:=None]> rafts !! rf_me rf' = Some (Some a)).
  { intros a rf' Ha. destruct (Hrs a rf' Ha) as (rf & Hrf & _ & _ & [[-> Hne]|?]); [|by left].
    destruct (Hk a rf Hrf) as [?|Hr]; [by left|right]. rewrite list_lookup_insert_ne; [done|]. intros ->. done. }
  destruct Href as [(Hn & -> & ->)|(v & Hv & [Hiso' Hpre (q & -> & Hq & Hv')])].
  - split; try done.
    + intros a rf (rf0 & H0 & -> & _)%Hrs. by eapply Hin.
    + intros j p a rf Hj (rf0 & H0 & Hpp & _)%Hrs <-. rewrite Hpp in Hj. rewrite list_lookup_insert_ne; [by eapply How|].
      intros ->. congruence.
  - pose proof (prefix_length _ _ Hpre) as Hlen. apply lookup_lt_Some in Hv'. split; [done|..].
    + intros j p. rewrite list_lookup_insert. case_decide; [by intros [= <-]|]. intros ?%Hp. lia.
    + intros a rf (rf0 & H0%Hin & -> & _)%Hrs. lia.
    + intros j a Hj. destruct (Hrun' j a Hj) as (rf & ? & ? & Hsv). exists rf. split_and!; [done..|].
      rewrite list_lookup_insert_ne; [done|]. intros ->. by rewrite list_lookup_insert_eq in Hj.
    + intros j p a rf. rewrite list_lookup_insert. case_decide as Hij.
      * intros [= <-] (rf0 & H0%Hin & Hpp & _)%Hrs. lia.
      * intros Hj (rf0 & H0 & Hpp & _)%Hrs <-. rewrite Hpp in Hj.
        rewrite list_lookup_insert_ne; [by eapply How|]. intros ->. destruct Hij. done.
    + intros j k p. rewrite !list_lookup_insert. repeat case_decide; subst; [lia|..].
      * intros [= <-] ?%Hp. lia.
      * intros ?%Hp [= <-]. lia.
      * by apply Hd.
    + done.
Qed.

Lemma kept_start rs rafts w sv i row p :
  kept rs rafts w sv -> rafts !! i = Some None -> sv !! i = Some (Some p) ->
  kept (rs ++ [Make row i p]) (<[i := Some (length rs)]> rafts) w sv.
Proof.
  intros [Hiso Hp Hin Hrun How Hd Hk] Hi Hsv. assert (Hlt : i < length rafts) by (by eapply lookup_lt_Some).
  assert (Hrs : forall a rf, (rs ++ [Make row i p]) !! a = Some rf ->
    rs !! a = Some rf \/ a = length rs /\ rf = Make row i p).
  { intros a rf [?|[? (? & <-)%list_lookup_singleton_Some]]%lookup_app_Some; [by left|right]. split; [lia|done]. }
  assert (Hrs' : forall a rf, rs !! a = Some rf -> (rs ++ [Make row i p]) !! a = Some rf)
    by (intros; by apply lookup_app_l_Some).
  split; [done|done|..].
  - intros a rf [?%Hin|[_ ->]]%Hrs; [done|]. simpl. by eapply Hp.
  - intros j a. rewrite list_lookup_insert. case_decide as Hij.
    + destruct Hij as [<- _]. intros [= <-]. eexists. split; [by apply list_lookup_middle|]. done.
    + intros (rf & ? & ?)%Hrun. eauto.
  - intros j q a rf Hj [Hrf|[-> ->]]%Hrs; simpl.
    + intros Hq. pose proof (How j q a rf Hj Hrf Hq) as Hr. rewrite list_lookup_insert_ne; [done|]. intros ->. congruence.
    + intros <-. assert (j = i) as -> by (by eapply Hd). by rewrite list_lookup_insert_eq.
  - done.
  - intros a rf [Hrf|[-> ->]]%Hrs; simpl.
    + destruct (Hk a rf Hrf) as [?|Hr]; [by left|right]. rewrite list_lookup_insert_ne; [done|]. intros ->. congruence.
    + right. by rewrite list_lookup_insert_eq.
Qed.

Lemma kept_world rs rafts w sv w' :
  kept rs rafts w sv -> isolated w' -> length (saved w) <= length (saved w') -> kept rs rafts w' sv.
Proof.
  intros [Hiso Hp Hin Hrun How Hd Hk] Hi Hl. split; try done.
  - intros i p ?%Hp. lia.
  - intros a rf ?%Hin. lia.
Qed.

(** More servers, not started yet. *)
Lemma kept_more rs rafts w sv n :
  length rafts = length sv -> kept rs rafts w sv -> kept rs (rafts ++ replicate n None) w (sv ++ replicate n None).
Proof.
  intros Hlen [Hiso Hp Hin Hrun How Hd Hk].
  assert (Hold : forall l i a, (l ++ replicate n None : Table) !! i = Some (Some a) -> l !! i = Some (Some a)).
  { intros l i a [?|[_ [? _]%lookup_replicate]]%lookup_app_Some; done. }
  assert (Hnew : forall (l : Table) i o, l !! i = Some o -> (l ++ replicate n None) !! i = Some o)
    by (intros; by apply lookup_app_l_Some).
  split; try done.
  - intros i p ?%Hold. eauto.
  - intros i a (rf & ? & ? & ?)%Hold%Hrun. eauto.
  - intros i p a rf ?%Hold. eauto.
  - intros i j p ?%Hold ?%Hold. eauto.
  - intros a rf [?|?]%Hk; eauto.
Qed.

(** ** What the steps do *)

Lemma refresh_saved_spec i w sv w' sv' :
  isolated w -> refresh_saved i w sv = Some (w', sv') -> refreshed i w sv w' sv'.
Proof.
  intros Hiso (o & Hsv & Hc)%bind_Some. destruct o as [p|]; [|injection Hc as <- <-; by left].
  apply bind_Some in Hc as ([w1 r] & Hp & [= <- <-]). right.
  destruct (copy_world _ _ _ _ Hiso Hp) as (Hi' & v & Hv & Hs). exists v.
  split; [unfold value_in; by rewrite Hsv|]. split; [done|rewrite Hs; by apply prefix_app_r|].
  exists (length (persisters w)). rewrite saved_length. split_and!; [done..|].
  rewrite Hs, <- saved_length. by apply list_lookup_middle.
Qed.

Lemma start_saved_spec i w sv w' sv' :
  isolated w -> start_saved i w sv = Some (w', sv') ->
  fresh_persister i (default ("", "") (value_in w sv i)) w sv w' sv'.
Proof.
  intros Hiso (o & Hsv & Hc)%bind_Some. destruct o as [p|].
  - apply refresh_saved_spec in Hc as [(? & _)|(v & -> & Hf)]; [congruence|done|done].
  - apply bind_Some in Hc as ([w1 r] & Hp & [= <- <-]). apply perform_spec in Hp as (Hi' & Hs & _); [|done]. simpl in Hs.
    unfold value_in. rewrite Hsv; simpl. split; [done|rewrite Hs; by apply prefix_app_r|].
    exists (length (persisters w)). rewrite saved_length. split_and!; [done..|].
    rewrite Hs, <- saved_length. by apply list_lookup_middle.
Qed.

Lemma save_bytes_spec p rs sn w w' :
  isolated w -> save_bytes p rs sn w = Some w' -> isolated w' /\ saved w' = <[p := (rs, sn)]> (saved w).
Proof.
  intros Hiso ([w1 x] & H1 & Hc)%bind_Some. apply bind_Some in Hc as ([w2 y] & H2 & Hc).
  apply bind_Some in Hc as ([w3 z] & H3 & [= <-]).
  pose proof H1 as H1'. apply perform_spec in H1' as (I1 & S1 & _); [|done].
  pose proof H2 as H2'. apply perform_spec in H2' as (I2 & S2 & _); [|done].
  apply perform_spec in H3 as (I3 & S3 & _); [|done]. split; [done|].
  rewrite S3, S2, S1; simpl. injection H1 as <- <-. injection H2 as <- <-; simpl.
  rewrite (lookup_app_l (mem _ ++ _)) by (rewrite length_app; simpl; lia).
  by rewrite !list_lookup_middle by done.
Qed.

(** A server whose entry of the table stays keeps its state when persisters are
    added... *)
Lemma value_in_same rs rafts w sv w' sv' i :
  kept rs rafts w sv -> saved w `prefix_of` saved w' -> sv' !! i = sv !! i -> value_in w' sv' i = value_in w sv i.
Proof.
  intros Hk Hpre Hsv. unfold value_in. rewrite Hsv. destruct (sv !! i) as [[p|]|] eqn:Hi; [|done..]. simpl.
  destruct Hpre as [l ->]. apply lookup_app_l. by eapply (kp_persister _ _ _ _ Hk).
Qed.

(** ...a server that moves to a copy keeps it too... *)
Lemma value_in_refreshed rs rafts w sv w' sv' i j :
  kept rs rafts w sv -> j < length sv -> refreshed j w sv w' sv' -> value_in w' sv' i = value_in w sv i.
Proof.
  intros Hk Hj [(_ & -> & ->)|(v & Hv & Hf)]; [done|]. destruct (decide (i = j)) as [->|Hne].
  - by rewrite (fresh_value _ _ _ _ _ _ Hj Hf).
  - destruct Hf as [_ Hpre (q & -> & _)]. eapply value_in_same; [done|done|]. by rewrite list_lookup_insert_ne.
Qed.

(** ...a started server has its old state or the empty one... *)
Lemma value_in_fresh rs rafts w sv w' sv' i j v :
  kept rs rafts w sv -> j < length sv -> fresh_persister j v w sv w' sv' ->
  value_in w' sv' i = if decide (i = j) then Some v else value_in w sv i.
Proof.
  intros Hk Hj Hf. case_decide as Hij; [subst i; by eapply fresh_value|].
  destruct Hf as [_ Hpre (q & -> & _)]. eapply value_in_same; [done|done|]. by rewrite list_lookup_insert_ne.
Qed.

(** ...and a save of an instance changes the state of the server it runs for. *)
Lemma value_in_saves rs rafts w sv w' a rf v i :
  kept rs rafts w sv -> rs !! a = Some rf -> saved w' = <[rf_persister rf := v]> (saved w) ->
  value_in w' sv i = if decide (rafts !! i = Some (Some a)) then Some v else value_in w sv i.
Proof.
  intros Hk Hrf Hs. unfold value_in. rewrite Hs. destruct (sv !! i) as [[p|]|] eqn:Hsv; simpl.
  - case_decide as Hr.
    + destruct (kp_running _ _ _ _ Hk _ _ Hr) as (rf' & ? & _ & Hsv'). simplify_eq.
      apply list_lookup_insert_eq. by eapply (kp_instance _ _ _ _ Hk).
    + rewrite list_lookup_insert_ne; [done|]. intros Hp. destruct Hr. by eapply (kp_owner _ _ _ _ Hk).
  - case_decide as Hr; [|done]. destruct (kp_running _ _ _ _ Hk _ _ Hr) as (? & _ & _ & ?). congruence.
  - case_decide as Hr; [|done]. destruct (kp_running _ _ _ _ Hk _ _ Hr) as (? & _ & _ & ?). congruence.
Qed.

(** ** Sizes *)

Lemma max_saved_acc (size : Persister -> list string -> nat) w (sv : Table) js (acc : nat) :
  (forall i, i ∈ js -> exists p, sv !! i = Some (Some p) /\ p < length (persisters w)) ->
  exists m, foldl (fun acc i =>
      largest ← acc; p ← mjoin (sv !! i); ps ← persisters w !! p;
      let n := size ps (mem w) in Some (if decide (largest < n) then n else largest)) (Some acc) js = Some m /\
    acc <= m /\ (forall i p ps, i ∈ js -> sv !! i = Some (Some p) -> persisters w !! p = Some ps -> size ps (mem w) <= m) /\
    (m = acc \/ exists i p ps, i ∈ js /\ sv !! i = Some (Some p) /\ persisters w !! p = Some ps /\ size ps (mem w) = m).
Proof.
  revert acc. induction js as [|i js IH]; intros acc Hjs; cbn [foldl].
  { exists acc. split_and!; [done|lia|set_solver|by left]. }
  destruct (Hjs i) as (p & Hp & Hlt); [by left|]. destruct (lookup_lt_is_Some_2 _ _ Hlt) as [ps Hps].
  rewrite Hp. simpl. rewrite Hps. simpl.
  destruct (IH (if decide (acc < size ps (mem w)) then size ps (mem w) else acc)) as (m & Hf & Hle & Hall & Hex).
  { intros j Hj. apply Hjs. by right. }
  exists m. split; [exact Hf|]. split_and!.
  - destruct (decide _); lia.
  - intros j q qs [->|Hj]%elem_of_cons Hq Hqs; [|by eapply Hall]. simplify_eq. destruct (decide _); lia.
  - destruct Hex as [->|(j & q & qs & Hj & ?)]; [|right; exists j, q, qs; split; [by right|done]].
    destruct (decide _); [|by left]. right. exists i, p, ps. split_and!; [by left|done..].
Qed.

(** The maximum over all servers, reached by one of them. *)
Lemma max_saved_spec (size : Persister -> list string -> nat) n w (sv : Table) :
  (forall i, i < n -> exists p, sv !! i = Some (Some p) /\ p < length (persisters w)) ->
  exists m, max_saved size n w sv = Some m /\
    (forall i p ps, i < n -> sv !! i = Some (Some p) -> persisters w !! p = Some ps -> size ps (mem w) <= m) /\
    (m = 0 \/ exists i p ps, i < n /\ sv !! i = Some (Some p) /\ persisters w !! p = Some ps /\ size ps (mem w) = m).
Proof.
  intros Hall. destruct (max_saved_acc size w sv (seq 0 n) 0) as (m & Hf & _ & Hle & Hex).
  { intros i [_ Hi]%elem_of_seq. by apply Hall. }
  exists m. split; [exact Hf|]. split.
  - intros i p ps Hi. apply Hle, elem_of_seq. lia.
  - destruct Hex as [->|(i & p & ps & Hi & ?)]; [by left|right]. exists i, p, ps. apply elem_of_seq in Hi. split; [lia|done].
Qed.
