(* ===== verification/RaftConfigKeep.v ===== *)
(** * The persistent state in the Raft tests

    What crashes and restarts of src/src/raft/config.go keep of the persisted state of
    the servers, and the invariant of the configuration. *)

From S2P Require Import Prelude GoLib Labrpc Persister RaftHarness TestNet RaftConfig RaftConfigInv SavedState.

Set Default Proof Using "Type".


Section config.
Context {Cmd Handler : Type}.
Context (decode : string -> option (Z * list Cmd)).
Context (raft_methods : nat -> list (Method Handler)).
Abbreviation Config := (@Config Cmd Handler).
Implicit Types (c : Config) (i j a p : nat).

(** What a test and its Raft instances do. A message of the apply channels only
    changes the logs and is left out; an instance saves bytes in its persister, and a
    crashed instance can still do so. *)
Inductive TestOp :=
  | TConnect (i : nat) | TDisconnect (i : nat) | TCrash (i : nat) | TStart (i : nat) (names : nat -> string)
  | TUnreliable (b : bool) | TReordering (b : bool) | TSave (a : nat) (rs sn : string).

Definition instance_saves (a : nat) (rs sn : string) (c : Config) : option Config :=
  rf ← cf_instances c !! a;
  w ← save_bytes (rf_persister rf) rs sn (cf_world c);
  Some (with_saved w (cf_saved c) c).

Definition test_op (o : TestOp) (c : Config) : option Config :=
  match o with
  | TConnect i => connect i c
  | TDisconnect i => disconnect i c
  | TCrash i => crash1 i c
  | TStart i names => start1 decode raft_methods i names c
  | TUnreliable b => Some (setunreliable b c)
  | TReordering b => Some (setlongreordering b c)
  | TSave a rs sn => instance_saves a rs sn c
  end.

(** The persisted state of the server [i]. *)
Definition value c i : option (string * string) := p ← mjoin (cf_saved c !! i); saved (cf_world c) !! p.

Record config_inv c : Prop := {
  ci_wired : wired (cf_n c) (cf_endnames c) (cf_connected c) (cf_net c);
  ci_rafts : length (cf_rafts c) = cf_n c;
  ci_saved : length (cf_saved c) = cf_n c;
  ci_logs : length (logs (cf_checks c)) = cf_n c;
  ci_last : length (lastApplied (cf_checks c)) = cf_n c;
  (** the server is on the network while its instance runs *)
  ci_server j : j < cf_n c -> is_Some (server_at (inr j) (cf_net c)) <-> is_Some (mjoin (cf_rafts c !! j));
  ci_kept : kept (cf_instances c) (cf_rafts c) (cf_world c) (cf_saved c);
}.

(** *** Steps that only touch the network *)

Lemma config_inv_net c rn :
  config_inv c -> wired (cf_n c) (cf_endnames c) (cf_connected c) rn -> nw_servers rn = nw_servers (cf_net c) ->
  config_inv (with_net rn c).
Proof.
  intros Hinv Hw Hs. pose proof (ci_server _ Hinv) as Hsv. destruct Hinv. split; simpl; try done.
  intros j Hj. rewrite <- (Hsv j Hj). unfold server_at. by rewrite Hs.
Qed.

Lemma config_inv_up c up rn :
  config_inv c -> wired (cf_n c) (cf_endnames c) up rn -> nw_servers rn = nw_servers (cf_net c) ->
  config_inv (with_net rn (with_connected up c)).
Proof.
  intros Hinv Hw Hs. pose proof (ci_server _ Hinv) as Hsv. destruct Hinv. split; simpl; try done.
  intros j Hj. rewrite <- (Hsv j Hj). unfold server_at. by rewrite Hs.
Qed.

Lemma connect_inv i c c' : config_inv c -> connect i c = Some c' ->
  config_inv c' /\ exists up rn, c' = with_net rn (with_connected up c).
Proof.
  intros Hinv (u & Hu & (rn1 & H1 & (rn2 & H2 & [= <-])%bind_Some)%bind_Some)%bind_Some.
  pose proof (ci_wired _ Hinv) as Hw.
  assert (Hi : i < cf_n c) by (rewrite <- (wi_up _ _ _ _ Hw); by eapply lookup_lt_Some).
  destruct (wired_connect _ _ _ _ _ _ _ Hw Hi H1 H2) as [Hw' Hsame].
  split; [|eauto]. apply config_inv_up; [done..|apply (sb_servers _ _ Hsame)].
Qed.

Lemma disconnect_inv i c c' : config_inv c -> disconnect i c = Some c' ->
  config_inv c' /\ exists rn, c' = with_net rn (with_connected (<[i := false]> (cf_connected c)) c).
Proof.
  intros Hinv (u & Hu & (rn1 & H1 & (rn2 & H2 & [= <-])%bind_Some)%bind_Some)%bind_Some.
  pose proof (ci_wired _ Hinv) as Hw.
  assert (Hi : i < cf_n c) by (rewrite <- (wi_up _ _ _ _ Hw); by eapply lookup_lt_Some).
  destruct (wired_disconnect _ _ _ _ _ _ _ Hw Hi H1 H2) as [Hw' Hsame].
  split; [|eauto]. apply config_inv_up; [done..|apply (sb_servers _ _ Hsame)].
Qed.

(** *** Persisters *)

Lemma copy_saved_spec i c c' :
  isolated (cf_world c) -> copy_saved i c = Some c' ->
  exists w sv, c' = with_saved w sv c /\ refreshed i (cf_world c) (cf_saved c) w sv.
Proof.
  intros Hiso (sv & Hsv & Hc)%bind_Some. destruct sv as [p|].
  - apply bind_Some in Hc as ([w r] & Hp & [= <-]). eexists _, _. split; [done|]. right.
    destruct (copy_world _ _ _ _ Hiso Hp) as (Hi' & v & Hv & Hs). exists v.
    split; [unfold value_in; by rewrite Hsv|]. split; [done|rewrite Hs; by apply prefix_app_r|].
    exists (length (persisters (cf_world c))). rewrite saved_length. split_and!; [done..|].
    rewrite Hs, <- saved_length. by apply list_lookup_middle.
  - injection Hc as <-. exists (cf_world c), (cf_saved c). split; [by destruct c|]. by left.
Qed.

Lemma resave_spec i c c' :
  isolated (cf_world c) -> resave i c = Some c' ->
  exists w sv, c' = with_saved w sv c /\ refreshed i (cf_world c) (cf_saved c) w sv.
Proof.
  intros Hiso (sv & Hsv & Hc)%bind_Some. destruct sv as [p|].
  - apply bind_Some in Hc as ([w1 raftlog] & H1 & Hc). apply bind_Some in Hc as ([w2 snap] & H2 & Hc).
    apply bind_Some in Hc as ([w3 r3] & H3 & Hc). apply bind_Some in Hc as ([w4 r4] & H4 & [= <-]).
    pose proof H1 as H1'. apply perform_spec in H1' as (I1 & S1 & v & Hv & B1); [|done].
    pose proof H2 as H2'. apply perform_spec in H2' as (I2 & S2 & v' & Hv' & B2); [|done].
    pose proof H3 as H3'. apply perform_spec in H3' as (I3 & S3 & _); [|done].
    pose proof H4 as H4'. apply perform_spec in H4' as (I4 & S4 & _); [|done].
    simpl in S1, S2, S3. rewrite S1 in S2, Hv'. assert (v' = v) as -> by congruence.
    assert (M1 : exists x, mem w2 = mem w1 ++ [x]) by (apply bind_Some in H2 as (? & _ & [= <- _]); by eexists).
    assert (M2 : mem w3 = mem w2) by (by injection H3 as <- _).
    assert (L1 : exists x, raftlog = Some x /\ x < length (mem w1)).
    { apply bind_Some in H1 as (? & _ & [= <- <-]). eexists. split; [done|]. simpl. rewrite length_app; simpl. lia. }
    eexists _, _. split; [done|]. right. exists v. split; [unfold value_in; by rewrite Hsv|].
    assert (S4' : saved w4 = saved (cf_world c) ++ [v]).
    { rewrite S4, S3, S2; simpl. rewrite M2, B2. destruct M1 as [x ->]. destruct L1 as (y & -> & Hy); simpl in *.
      rewrite lookup_app_l, B1 by done. rewrite <- saved_length, S2, insert_app_r_alt by lia.
      rewrite Nat.sub_diag; simpl. by destruct v. }
    split; [done|rewrite S4'; by apply prefix_app_r|]. exists (length (persisters w2)).
    rewrite <- !saved_length, S2, S4'. split_and!; [done..|]. by apply list_lookup_middle.
  - injection Hc as <-. exists (cf_world c), (cf_saved c). split; [by destruct c|]. by left.
Qed.

(** *** crash1 *)

Lemma crash1_spec i c c' :
  config_inv c -> crash1 i c = Some c' ->
  exists rn w sv, i < cf_n c /\
    wired (cf_n c) (cf_endnames c) (<[i := false]> (cf_connected c)) rn /\
    nw_servers rn = <[inr i := None]> (nw_servers (cf_net c)) /\
    refreshed i (cf_world c) (cf_saved c) w sv /\
    c' = mkConfig (cf_n c) rn (cf_servers c)
           (match mjoin (cf_rafts c !! i) with Some a => alter Kill a (cf_instances c) | None => cf_instances c end)
           w (<[i := None]> (cf_rafts c)) (<[i := false]> (cf_connected c)) sv (cf_endnames c) (cf_checks c)
           (cf_finished c) (cf_stats c).
Proof.
  intros Hinv (c1 & H1 & Hc)%bind_Some. destruct (disconnect_inv _ _ _ Hinv H1) as [Hinv1 [rn ->]].
  assert (Hi : i < cf_n c).
  { apply bind_Some in H1 as (u & Hu%lookup_lt_Some & _). by rewrite (wi_up _ _ _ _ (ci_wired _ Hinv)) in Hu. }
  apply bind_Some in Hc as (c2 & H2 & Hc). apply copy_saved_spec in H2 as (w & sv & -> & Href); [|apply (kp_isolated _ _ _ _ (ci_kept _ Hinv))].
  simpl in Href. apply bind_Some in Hc as (c3 & H3 & Hc).
  assert (c3 = with_rafts
    (match mjoin (cf_rafts c !! i) with Some a => alter Kill a (cf_instances c) | None => cf_instances c end)
    (<[i := None]> (cf_rafts c))
    (with_saved w sv (with_net (DeleteServer (inr i) rn) (with_net rn (with_connected (<[i:=false]> (cf_connected c)) c))))) as ->.
  { apply bind_Some in H3 as ([a|] & Hr & [= <-]); simpl in *; rewrite Hr; [done|].
    by rewrite (list_insert_id (cf_rafts c)). }
  apply resave_spec in Hc as (w' & sv' & -> & Href'); [|by eapply refreshed_isolated, Href; apply (kp_isolated _ _ _ _ (ci_kept _ Hinv))].
  simpl in Href'. exists (DeleteServer (inr i) rn), w', sv'. split_and!; [done| | | |done].
  - eapply wired_same; [apply (ci_wired _ Hinv1)|done..].
  - simpl. f_equal. apply bind_Some in H1 as (u & Hu & (rn1 & Hl1 & (rn2 & Hl2 & [= <-])%bind_Some)%bind_Some).
    apply enable_loop_spec in Hl1 as [[_ Hl1 _ _] _]. apply enable_loop_spec in Hl2 as [[_ Hl2 _ _] _]. congruence.
  - eapply refreshed_trans; [|exact Href|exact Href']. by rewrite (ci_saved _ Hinv).
Qed.

Lemma crash1_inv i c c' : config_inv c -> crash1 i c = Some c' -> config_inv c'.
Proof.
  intros Hinv Hc. destruct (crash1_spec _ _ _ Hinv Hc) as (rn & w & sv & Hi & Hw & Hsv & Href & ->).
  pose proof Hinv as [Hwi Hr Hs Hl Hla Hserver Hk].
  split; simpl; try done.
  - by rewrite length_insert.
  - destruct Href as [(_ & _ & ->)|(v & _ & [_ _ (q & -> & _)])]; [done|]. by rewrite length_insert.
  - intros j Hj. unfold server_at. rewrite Hsv. destruct (decide (j = i)) as [->|Hne].
    + rewrite lookup_insert_eq, list_lookup_insert_eq by lia. done.
    + rewrite lookup_insert_ne, list_lookup_insert_ne by congruence. by apply Hserver.
  - eapply kept_crash; [done|lia|lia|done].
Qed.

(** *** start1 *)

Lemma ingest_saved_spec i p c c' :
  isolated (cf_world c) -> ingest_saved decode i p c = Some c' ->
  exists w k, c' = with_checks k (with_saved w (cf_saved c) c) /\ isolated w /\ saved w = saved (cf_world c) /\
    length (logs k) = length (logs (cf_checks c)) /\ length (lastApplied k) = length (lastApplied (cf_checks c)).
Proof.
  intros Hiso ([w sn] & Hp & Hc)%bind_Some. apply perform_spec in Hp as (Hi & Hs & _); [|done]. simpl in Hs.
  cbv zeta in Hc. destruct (decide _) as [Hd|Hd]; [|injection Hc as <-; exists w, (cf_checks c); by destruct c].
  destruct (ingestSnap _ _ _ _ _) as [k| |] eqn:Hk; simplify_eq. exists w, k. split; [done|]. do 2 (split; [done|]).
  unfold ingestSnap in Hk. destruct (decode _) as [[last xlog]|]; [|done].
  rewrite decide_False in Hk by (by intros [? _]). destruct (decide _); [|done]. injection Hk as <-. simpl. by rewrite !length_insert.
Qed.

Lemma start_persister_spec i c c' :
  isolated (cf_world c) -> i < length (cf_saved c) -> start_persister decode i c = Some c' ->
  exists w sv k, c' = with_checks k (with_saved w sv c) /\
    length (logs k) = length (logs (cf_checks c)) /\ length (lastApplied k) = length (lastApplied (cf_checks c)) /\
    fresh_persister i (default ("", "") (value_in (cf_world c) (cf_saved c) i)) (cf_world c) (cf_saved c) w sv.
Proof.
  intros Hiso Hi (sv & Hsv & Hc)%bind_Some. destruct sv as [p|].
  - apply bind_Some in Hc as (c1 & H1 & Hc). apply copy_saved_spec in H1 as (w & sv & -> & Href); [|done].
    destruct Href as [(? & _ & _)|(v & Hv & Hf)]; [congruence|]. rewrite Hv; simpl.
    apply bind_Some in Hc as (q & Hq & Hc). apply ingest_saved_spec in Hc as (w' & k & -> & Hi' & Hs & Hl & Hl'); [|apply Hf].
    exists w', sv, k. split_and!; [done..|]. destruct Hf as [Hiso1 Hpre Hfr]. simpl in Hs. split; by rewrite ?Hs.
  - apply bind_Some in Hc as ([w r] & Hp & [= <-]).
    apply perform_spec in Hp as (Hi' & Hs & _); [|done]. simpl in Hs.
    eexists w, _, (cf_checks c). split; [by destruct c|]. split_and!; [done..|].
    unfold value_in. rewrite Hsv; simpl. split; [done|rewrite Hs; by apply prefix_app_r|].
    exists (length (persisters (cf_world c))). rewrite saved_length. split_and!; [done..|].
    rewrite Hs, <- saved_length. by apply list_lookup_middle.
Qed.

Lemma start1_spec i names c c' :
  config_inv c -> start1 decode raft_methods i names c = Some c' ->
  config_inv c' /\ i < cf_n c /\ cf_n c' = cf_n c /\
  cf_connected c' = <[i := false]> (cf_connected c) /\
  fresh_persister i (default ("", "") (value c i)) (cf_world c) (cf_saved c) (cf_world c') (cf_saved c').
Proof.
  intros Hinv (c1 & H1 & Hc)%bind_Some. pose proof (crash1_inv _ _ _ Hinv H1) as Hinv1.
  destruct (crash1_spec _ _ _ Hinv H1) as (rn & w & sv & Hi & Hw & Hsv & Href & Hc1).
  assert (Hr1 : cf_rafts c1 !! i = Some None) by (rewrite Hc1; simpl; rewrite list_lookup_insert_eq; [done|]; by rewrite (ci_rafts _ Hinv)).
  assert (Hup1 : cf_connected c1 = <[i := false]> (cf_connected c)) by (by rewrite Hc1).
  assert (Hn1 : cf_n c1 = cf_n c) by (by rewrite Hc1).
  assert (Hdown : cf_connected c1 !! i = Some false).
  { rewrite Hup1. apply list_lookup_insert_eq. by rewrite (wi_up _ _ _ _ (ci_wired _ Hinv)). }
  assert (Href1 : refreshed i (cf_world c) (cf_saved c) (cf_world c1) (cf_saved c1)) by (by rewrite Hc1).
  clear Hc1 H1 Hw Hsv Href. pose proof Hinv1 as [Hwi1 Hl1 Hs1 Hlog1 Hla1 Hsv1 Hk1].
  apply bind_Some in Hc as (o & _ & Hc). apply bind_Some in Hc as (rn1 & Hmk & Hc). simpl in Hmk.
  apply bind_Some in Hc as (l & _ & Hc). apply bind_Some in Hc as (c2 & H2 & Hc).
  apply start_persister_spec in H2 as (w2 & sv2 & k & -> & Hk2 & Hk2' & Hf); simpl in *;
    [|apply Hk1|by rewrite Hs1, Hn1].
  pose proof Hf as [_ _ (p & -> & _ & Hp)]. rewrite list_lookup_insert_eq in Hc by lia; simpl in Hc. injection Hc as <-.
  split_and!; [|done|done|done|]; simpl.
  - assert (Hk3 : kept (cf_instances c1) (cf_rafts c1) w2 (<[i := Some p]> (cf_saved c1)))
      by (eapply kept_fresh; [exact Hk1|done|lia|exact Hf]).
    split; simpl; rewrite ?length_insert; try done.
    + eapply wired_same; [eapply wired_fresh; [by eapply wi_wires|lia|exact Hmk|exact Hwi1|done]|done..].
    + by rewrite Hk2.
    + by rewrite Hk2', length_insert.
    + intros j Hj. apply make_ends_spec in Hmk as (_ & _ & _ & Hsvs & _). unfold server_at; simpl. rewrite Hsvs.
      destruct (decide (j = i)) as [->|Hne].
      * rewrite lookup_insert_eq, list_lookup_insert_eq by lia. simpl. by split.
      * rewrite lookup_insert_ne, list_lookup_insert_ne by congruence. by apply Hsv1.
    + apply kept_start; [done|done|]. apply list_lookup_insert_eq. lia.
  - destruct Href1 as [(Hn & Hw & Hsv)|(v & Hv & Hf1)].
    + unfold value. fold (value_in (cf_world c) (cf_saved c) i). rewrite Hsv. by rewrite Hw, Hsv in Hf.
    + change (value c i) with (value_in (cf_world c) (cf_saved c) i). rewrite Hv; simpl.
      assert (Hi' : i < length (cf_saved c)) by (rewrite (ci_saved _ Hinv); lia).
      rewrite (fresh_value _ _ _ _ _ _ Hi' Hf1) in Hf. simpl in Hf. by eapply fresh_trans.
Qed.

(** *** Saves of an instance *)

Lemma instance_saves_spec a rs sn c c' :
  isolated (cf_world c) -> instance_saves a rs sn c = Some c' ->
  exists rf w, cf_instances c !! a = Some rf /\ c' = with_saved w (cf_saved c) c /\ isolated w /\
    saved w = <[rf_persister rf := (rs, sn)]> (saved (cf_world c)).
Proof.
  intros Hiso (rf & Hrf & (w & Hw & [= <-])%bind_Some)%bind_Some. exists rf, w.
  by apply save_bytes_spec in Hw as [? ?].
Qed.

(** ** The abstract persistent state *)

(** A server's saved state is a pair of values: its running instance changes it, and
    starting the server for the first time makes it; nothing else touches it. *)
Definition value_spec (o : TestOp) c i : option (string * string) :=
  match o with
  | TSave a rs sn => if decide (cf_rafts c !! i = Some (Some a)) then Some (rs, sn) else value c i
  | TStart j _ => if decide (i = j) then Some (default ("", "") (value c i)) else value c i
  | _ => value c i
  end.

Lemma test_op_inv o c c' :
  config_inv c -> test_op o c = Some c' ->
  config_inv c' /\ cf_n c' = cf_n c /\ forall i, i < cf_n c -> value c' i = value_spec o c i.
Proof.
  intros Hinv Ho. pose proof (ci_kept _ Hinv) as Hk. destruct o as [j|j|j|j names|b|b|a rs sn]; simpl in Ho.
  - apply connect_inv in Ho as [? (up & rn & ->)]; done.
  - apply disconnect_inv in Ho as [? (rn & ->)]; done.
  - pose proof (crash1_inv _ _ _ Hinv Ho) as Hinv'. split; [done|].
    destruct (crash1_spec _ _ _ Hinv Ho) as (rn & w & sv & Hj & _ & _ & Href & ->). split; [done|]. intros i Hi.
    refine (value_in_refreshed _ _ _ _ _ _ i j Hk _ Href). by rewrite (ci_saved _ Hinv).
  - destruct (start1_spec _ _ _ _ Hinv Ho) as (Hinv' & Hj & Hn & _ & Hf). split_and!; [done|done|]. intros i Hi; simpl.
    unfold value. fold (value_in (cf_world c') (cf_saved c') i) (value_in (cf_world c) (cf_saved c) i).
    rewrite (value_in_fresh _ _ _ _ _ _ i j _ Hk ltac:(by rewrite (ci_saved _ Hinv)) Hf). by case_decide; subst.
  - injection Ho as <-. split; [|done]. apply config_inv_net; [done| |done].
    eapply wired_same; [apply (ci_wired _ Hinv)|done..].
  - injection Ho as <-. split; [|done]. apply config_inv_net; [done| |done].
    eapply wired_same; [apply (ci_wired _ Hinv)|done..].
  - apply instance_saves_spec in Ho as (rf & w & Hrf & -> & Hiso & Hs); [|apply Hk]. split_and!; [|done|].
    + pose proof Hinv as []. split; simpl; try done. eapply kept_world; [done|done|]. by rewrite Hs, length_insert.
    + intros i Hi. by eapply value_in_saves.
Qed.

(** ** Runs of a test *)

Lemma empty_config_inv n unrel :
  let c : Config := setunreliable unrel (empty_config n) in config_inv (with_net (LongDelays true (cf_net c)) c).
Proof.
  assert (Hnone : forall {A} i (x : A), replicate n None !! i <> Some (Some x)).
  { intros A i x [? _]%lookup_replicate. done. }
  split; simpl; rewrite ?length_replicate; try done.
  - pose proof (wires_empty n) as Hw. split; simpl; rewrite ?length_replicate; [by eapply wires_same|done|].
    intros nm. split; [done|]. intros (i & j & e & _ & [He _]%(wi_end _ _ _ Hw) & _). set_solver.
  - intros j Hj. rewrite lookup_replicate_2 by done. done.
  - split; simpl; [apply start_isolated|..].
    all: first [intros ? ? Hp; by apply Hnone in Hp|intros ? ? ? Hp; by apply Hnone in Hp|done].
Qed.

Lemma for_servers_inv (f : nat -> Config -> option Config) (P : Config -> Prop) js c c' :
  (forall i c c', P c -> f i c = Some c' -> P c') -> P c -> for_servers f js c = Some c' -> P c'.
Proof.
  intros Hf. revert c. induction js as [|i js IH]; intros c Hc; simpl; [by intros [= <-]|].
  intros (c1 & H1 & Hc')%bind_Some. eapply IH; [|done]. by eapply Hf.
Qed.

Lemma make_config_inv n unrel names c :
  make_config decode raft_methods n unrel names = Some c -> config_inv c.
Proof.
  intros (c1 & H1 & H2)%bind_Some. eapply for_servers_inv; [|..|exact H2].
  - intros i x y Hx Hy. by eapply connect_inv in Hy as [? _].
  - eapply for_servers_inv; [|..|exact H1]; [|apply empty_config_inv].
    intros i x y Hx Hy. by eapply start1_spec in Hy as [? _].
Qed.

(** The configurations a test of [n] servers can reach. *)
Definition test_run (n : nat) (c : Config) : Prop :=
  exists unrel names c0, make_config decode raft_methods n unrel names = Some c0 /\
    rtc (fun x y => exists o, test_op o x = Some y) c0 c.

Lemma test_run_inv n c : test_run n c -> config_inv c.
Proof.
  intros (unrel & names & c0 & H0 & Hr). apply make_config_inv in H0.
  refine (rtc_ind_r config_inv c0 H0 _ c Hr). intros x y _ [o Ho] Hx. by eapply test_op_inv in Ho as [? _].
Qed.

(** ** The test does not panic *)

(** Every server was started. *)
Definition all_started c : Prop := forall i, i < cf_n c -> is_Some (mjoin (cf_endnames c !! i)).

Lemma seq_all (P : nat -> Prop) n : (forall j, j < n -> P j) -> Forall P (seq 0 n).
Proof. intros HP. apply Forall_forall. intros j [_ Hj]%elem_of_seq. by apply HP. Qed.

Lemma connect_total i c : config_inv c -> all_started c -> i < cf_n c -> is_Some (connect i c).
Proof.
  intros Hinv Hst Hi. pose proof (ci_wired _ Hinv) as Hw. pose proof (wi_up _ _ _ _ Hw) as Hup.
  destruct (lookup_lt_is_Some_2 (cf_connected c) i) as [u Hu]; [lia|]. unfold connect. rewrite Hu; simpl.
  assert (Hb : forall j, j < cf_n c -> exists b, <[i := true]> (cf_connected c) !! j = Some b).
  { intros j Hj. apply lookup_lt_is_Some_2. rewrite length_insert. lia. }
  destruct (enable_loop_some true (connect_out (<[i := true]> (cf_connected c)) (cf_endnames c) i)
    (seq 0 (cf_n c)) (cf_net c)) as [rn1 H1].
  { apply seq_all. intros j Hj. unfold connect_out. destruct (Hb j Hj) as [[|] ->]; simpl; [|done].
    apply fmap_is_Some. by eapply wired_end; [by eapply wi_wires|..|apply Hst]. }
  rewrite H1; simpl.
  destruct (enable_loop_some true (connect_in (<[i := true]> (cf_connected c)) (cf_endnames c) i)
    (seq 0 (cf_n c)) rn1) as [rn2 H2]; [|by rewrite H2].
  apply seq_all. intros j Hj. unfold connect_in. destruct (Hb j Hj) as [[|] ->]; simpl; [|done].
  apply fmap_is_Some. by eapply wired_end; [by eapply wi_wires|..|apply Hst].
Qed.

Lemma disconnect_total i c : config_inv c -> i < cf_n c -> is_Some (disconnect i c).
Proof.
  intros Hinv Hi. pose proof (ci_wired _ Hinv) as Hw. pose proof (wi_up _ _ _ _ Hw) as Hup.
  destruct (lookup_lt_is_Some_2 (cf_connected c) i) as [u Hu]; [lia|]. unfold disconnect. rewrite Hu; simpl.
  assert (Hrow : forall a b, a < cf_n c -> b < cf_n c -> exists o, cf_endnames c !! a = Some o /\
    is_Some (match o with Some r => Some <$> r !! b | None => Some None end)).
  { intros a b Ha Hb. destruct (lookup_lt_is_Some_2 (cf_endnames c) a) as [o Ho]; [by rewrite (wi_table _ _ _ (wi_wires _ _ _ _ Hw))|].
    exists o. split; [done|]. destruct o as [r|]; [|done]. apply fmap_is_Some, lookup_lt_is_Some_2.
    by rewrite (wi_row _ _ _ (wi_wires _ _ _ _ Hw) _ _ Ho). }
  destruct (enable_loop_some false (disconnect_out (cf_endnames c) i) (seq 0 (cf_n c)) (cf_net c)) as [rn1 H1].
  { apply seq_all. intros j Hj. unfold disconnect_out. destruct (Hrow i j Hi Hj) as (o & -> & Ho). done. }
  rewrite H1; simpl.
  destruct (enable_loop_some false (disconnect_in (cf_endnames c) i) (seq 0 (cf_n c)) rn1) as [rn2 H2]; [|by rewrite H2].
  apply seq_all. intros j Hj. unfold disconnect_in. destruct (Hrow j i Hj Hi) as (o & -> & Ho). done.
Qed.

Lemma resave_total i c :
  i < length (cf_saved c) -> (forall p, cf_saved c !! i = Some (Some p) -> p < length (persisters (cf_world c))) ->
  is_Some (resave i c).
Proof.
  clear raft_methods. intros Hi Hp. unfold resave. destruct (lookup_lt_is_Some_2 _ _ Hi) as [[p|] Hsv]; rewrite Hsv; simpl; [|done].
  destruct (lookup_lt_is_Some_2 (persisters (cf_world c)) p) as [ps Hps]; [by apply Hp|]. rewrite Hps; simpl. rewrite Hps; simpl.
  rewrite !bool_decide_eq_true_2 by set_solver. simpl. by rewrite (list_lookup_middle (persisters _)).
Qed.

Lemma crash1_total i c : config_inv c -> i < cf_n c -> is_Some (crash1 i c).
Proof.
  intros Hinv Hi. destruct (disconnect_total i c Hinv Hi) as [c1 H1]. unfold crash1. rewrite H1; simpl.
  destruct (disconnect_inv _ _ _ Hinv H1) as [Hinv1 [rn ->]]. pose proof (ci_kept _ Hinv) as Hk.
  destruct (lookup_lt_is_Some_2 (cf_saved c) i) as [o Ho]; [by rewrite (ci_saved _ Hinv)|].
  destruct (lookup_lt_is_Some_2 (cf_rafts c) i) as [r Hr]; [by rewrite (ci_rafts _ Hinv)|].
  unfold copy_saved; simpl. rewrite Ho; simpl.
  assert (Hpers : forall p, o = Some p -> p < length (persisters (cf_world c))).
  { intros p ->. rewrite <- saved_length. by eapply (kp_persister _ _ _ _ Hk). }
  destruct o as [p|]; simpl.
  - destruct (lookup_lt_is_Some_2 (persisters (cf_world c)) p) as [ps Hps]; [by apply Hpers|]. rewrite Hps; simpl.
    unfold kill_raft; simpl. rewrite Hr; simpl. destruct r as [a|]; apply resave_total; simpl; rewrite ?length_insert;
      rewrite ?(ci_saved _ Hinv); try done; intros q; rewrite list_lookup_insert_eq by (by rewrite (ci_saved _ Hinv));
      intros [= <-]; rewrite length_app; simpl; lia.
  - unfold kill_raft; simpl. rewrite Hr; simpl. destruct r as [a|]; apply resave_total; simpl;
      rewrite ?(ci_saved _ Hinv); try done; intros q; by rewrite Ho.
Qed.

Lemma start1_endnames i names c c' :
  config_inv c -> start1 decode raft_methods i names c = Some c' ->
  cf_endnames c' = <[i := Some (names <$> seq 0 (cf_n c))]> (cf_endnames c).
Proof.
  intros Hinv (c1 & H1 & Hc)%bind_Some. pose proof (crash1_inv _ _ _ Hinv H1) as Hinv1.
  destruct (crash1_spec _ _ _ Hinv H1) as (rn & w & sv & Hi & _ & _ & _ & ->).
  apply bind_Some in Hc as (o & _ & Hc). apply bind_Some in Hc as (rn1 & Hmk & Hc).
  apply bind_Some in Hc as (l & _ & Hc). apply bind_Some in Hc as (c2 & H2 & Hc).
  apply start_persister_spec in H2 as (w2 & sv2 & k & -> & _); simpl in *;
    [|apply (ci_kept _ Hinv1)|pose proof (ci_saved _ Hinv1); simpl in *; lia].
  apply bind_Some in Hc as (p & _ & [= <-]). done.
Qed.

Lemma all_started_op o c c' : config_inv c -> all_started c -> test_op o c = Some c' -> all_started c'.
Proof.
  intros Hinv Hst Ho. destruct o as [j|j|j|j names|b|b|a rs sn]; simpl in Ho.
  - by apply connect_inv in Ho as [_ (up & rn & ->)].
  - by apply disconnect_inv in Ho as [_ (rn & ->)].
  - by destruct (crash1_spec _ _ _ Hinv Ho) as (rn & w & sv & _ & _ & _ & _ & ->).
  - pose proof (start1_endnames _ _ _ _ Hinv Ho) as He. apply start1_spec in Ho as (_ & Hj & Hn & _); [|done].
    intros i Hi. rewrite He. rewrite Hn in Hi. rewrite list_lookup_insert. case_decide; [done|]. by apply Hst.
  - by injection Ho as <-.
  - by injection Ho as <-.
  - by apply instance_saves_spec in Ho as (rf & w & _ & -> & _); [|apply (ci_kept _ Hinv)].
Qed.

Lemma started_prefix names n m c c' :
  config_inv c -> cf_n c = n -> (forall i, i < m -> is_Some (mjoin (cf_endnames c !! i))) ->
  for_servers (fun i => start1 decode raft_methods i (names i)) (seq m (n - m)) c = Some c' ->
  config_inv c' /\ all_started c'.
Proof.
  remember (n - m) as k eqn:Hk. revert m c Hk. induction k as [|k IH]; intros m c Hk Hinv Hn Hst; simpl.
  { intros [= <-]. split; [done|]. intros i Hi. apply Hst. lia. }
  intros (c1 & H1 & Hrest)%bind_Some. pose proof (start1_endnames _ _ _ _ Hinv H1) as He.
  apply start1_spec in H1 as (Hinv1 & Hm & Hn1 & _); [|done]. eapply (IH (S m)); [lia|done|congruence| |done].
  intros i Hi. rewrite He, list_lookup_insert. case_decide as Hc; [done|]. apply Hst.
  destruct (decide (i = m)) as [->|]; [|lia]. destruct Hc. split; [done|]. by rewrite (wi_table _ _ _ (wi_wires _ _ _ _ (ci_wired _ Hinv))).
Qed.

Lemma test_run_started n c : test_run n c -> config_inv c /\ all_started c.
Proof.
  intros (unrel & names & c0 & (c1 & H1 & H2)%bind_Some & Hr).
  assert (H0 : config_inv c0 /\ all_started c0).
  { eapply (for_servers_inv _ (fun c => config_inv c /\ all_started c)); [| |exact H2].
    - intros i x y [Hx Hs] Hy. by apply connect_inv in Hy as [? (up & rn & ->)].
    - apply (started_prefix names n 0 _ c1 (empty_config_inv n unrel)); [done|lia|]. by rewrite Nat.sub_0_r. }
  refine (rtc_ind_r (fun c => config_inv c /\ all_started c) c0 H0 _ c Hr). intros x y _ [o Ho] [Hx Hs].
  split; [by eapply test_op_inv in Ho as [? _]|by eapply all_started_op].
Qed.
End config.
