(* ===== verification/ServiceConfig.v ===== *)
(** * The configuration of the tests of a service on Raft

    src/src/kvraft/config.go and src/src/shardctrler/config.go are one program for two
    kinds of servers: servers are connected to lists of servers, the network is
    partitioned in two, clerks get ends of their own, and servers are shut down and
    started. What differs, the server and its clerk, is an instance of [Service]. The
    line numbers of the map are those of src/src/kvraft/config.go. As in the Raft tests
    a function is one step, and [None] is a panic. *)

From S2P Require Import Prelude GoLib Labrpc Persister TestNet RaftConfig SavedState.

(** ** The service *)

(** Servers of type [T] are started with the ends to their peers, their index and
    their persister, and with a parameter of the test, of type [P]; clerks have type
    [K]. [svc_name] is the type's name, which labrpc uses for its methods. *)
Class Service (P T K : Type) := {
  svc_name : string;
  svc_start : P -> list string -> nat -> nat -> T;
  svc_Kill : T -> T;
  svc_rf : T -> Raft;
  svc_MakeClerk : list string -> K;
}.

(** What the configuration relies on: a server has the Raft instance it was started
    with and kills it. *)
Class ServiceLaws (P T K : Type) `{!Service P T K} : Prop := {
  svc_start_rf p ends me persister : svc_rf (svc_start p ends me persister) = Make ends me persister;
  svc_Kill_rf t : svc_rf (svc_Kill t) = Kill (svc_rf t);
}.

(** ** Shuffled handles *)

Section handles.
Context {A : Type}.

(** [sa[i], sa[j] = sa[j], sa[i]] *)
Definition swap (i j : nat) (sa : list A) : option (list A) :=
  x ← sa !! i; y ← sa !! j; Some (<[j := x]> (<[i := y]> sa)).

(** [random_handles], with the numbers that [rand.Intn(i + 1)] gives. *)
Definition random_handles (rand : nat -> nat) (kvh : list A) : option (list A) :=
  foldl (fun acc i => sa ← acc; swap i (rand i) sa) (Some kvh) (seq 0 (length kvh)).
End handles.

(** ** Links between servers *)

(** The bodies of the loops over the lists [to] and [from]. *)
Definition link_out (t : EndTable) (i : nat) (to : list nat) (j : nat) : option (option string) :=
  d ← to !! j; Some <$> end_of t i d.

Definition link_in (t : EndTable) (i : nat) (to : list nat) (j : nat) : option (option string) :=
  d ← to !! j; Some <$> end_of t d i.

Definition connectUnlocked (t : EndTable) (i : nat) (to : list nat) (rn : Net) : option Net :=
  rn ← enable_loop true (link_out t i to) (seq 0 (length to)) rn;
  enable_loop true (link_in t i to) (seq 0 (length to)) rn.

(** [if cfg.endnames[i] != nil] *)
Definition cut_out (t : EndTable) (i : nat) (from : list nat) (j : nat) : option (option string) :=
  row ← t !! i;
  match row with None => Some None | Some _ => link_out t i from j end.

(** [if cfg.endnames[j] != nil], where [j] is a position in [from]. *)
Definition cut_in (t : EndTable) (i : nat) (from : list nat) (j : nat) : option (option string) :=
  row ← t !! j;
  match row with None => Some None | Some _ => link_in t i from j end.

Definition disconnectUnlocked (t : EndTable) (i : nat) (from : list nat) (rn : Net) : option Net :=
  rn ← enable_loop false (cut_out t i from) (seq 0 (length from)) rn;
  enable_loop false (cut_in t i from) (seq 0 (length from)) rn.

Definition All (n : nat) : list nat := seq 0 n.

Fixpoint for_each (f : nat -> Net -> option Net) (js : list nat) (rn : Net) : option Net :=
  match js with
  | [] => Some rn
  | i :: js => rn ← f i rn; for_each f js rn
  end.

(** The body of a loop of [partition]: [i] is cut from the other side and linked to
    its own. *)
Definition side (t : EndTable) (own other : list nat) (i : nat) (rn : Net) : option Net :=
  rn ← disconnectUnlocked t i other rn; connectUnlocked t i own rn.

Definition partition_net (t : EndTable) (p1 p2 : list nat) (rn : Net) : option Net :=
  rn ← for_each (side t p1 p2) p1 rn; for_each (side t p2 p1) p2 rn.

(** [make_partition] for the leader [l]: the loop puts the other servers in [p1] and
    then in [p2], and [l] goes last. *)
Definition fill (l : nat) (acc : option (list nat * list nat * nat)) (i : nat) : option (list nat * list nat * nat) :=
  '(p1, p2, j) ← acc;
  if decide (i <> l) then
    if decide (j < length p1) then Some (<[j := i]> p1, p2, S j)
    else if decide (j - length p1 < length p2) then Some (p1, <[j - length p1 := i]> p2, S j) else None
  else Some (p1, p2, j).

Definition make_partition (n l : nat) : option (list nat * list nat) :=
  '(p1, p2, _) ← foldl (fill l) (Some (replicate (n / 2 + 1) 0, replicate (n / 2) 0, 0)) (seq 0 n);
  match length p2 with
  | 0 => None
  | S k => Some (p1, <[k := l]> p2)
  end.

(** [checkTimeout]: whether the test goes on; [elapsed] is in nanoseconds. *)
Definition checkTimeout (failed : bool) (elapsed : Z) : bool :=
  negb (negb failed && bool_decide (120 * 1000000000 < elapsed)%Z).

(** ** The configuration *)

Section config.
Context {P T K Handler : Type} `{!Service P T K}.
(** What reflection finds on the server at an index and on its Raft instance. *)
Context (methods raft_methods : nat -> list (Method Handler)).

(** The objects a configuration points to are in lists: servers of the network,
    instances of the service and persisters. Clerks are numbered. *)
Record Conf := mkConf {
  cg_n : nat;
  cg_net : Net;
  cg_srvs : list (Server Handler);        (** the servers of the network *)
  cg_instances : list T;                  (** every instance ever made *)
  cg_world : World;                       (** every persister ever made *)
  cg_servers : list (option nat);
  cg_saved : list (option nat);
  cg_endnames : EndTable;
  cg_clerks : gmap nat (list string);
  cg_nextClientId : nat;
  cg_param : P;
}.

Definition set_net (rn : Net) (c : Conf) : Conf :=
  mkConf (cg_n c) rn (cg_srvs c) (cg_instances c) (cg_world c) (cg_servers c) (cg_saved c) (cg_endnames c)
    (cg_clerks c) (cg_nextClientId c) (cg_param c).

Definition set_saved (w : World) (sv : list (option nat)) (c : Conf) : Conf :=
  mkConf (cg_n c) (cg_net c) (cg_srvs c) (cg_instances c) w (cg_servers c) sv (cg_endnames c)
    (cg_clerks c) (cg_nextClientId c) (cg_param c).

Definition set_servers (ts : list T) (servers : list (option nat)) (c : Conf) : Conf :=
  mkConf (cg_n c) (cg_net c) (cg_srvs c) ts (cg_world c) servers (cg_saved c) (cg_endnames c)
    (cg_clerks c) (cg_nextClientId c) (cg_param c).

Definition set_endnames (t : EndTable) (c : Conf) : Conf :=
  mkConf (cg_n c) (cg_net c) (cg_srvs c) (cg_instances c) (cg_world c) (cg_servers c) (cg_saved c) t
    (cg_clerks c) (cg_nextClientId c) (cg_param c).

Definition set_clerks (clerks : gmap nat (list string)) (next : nat) (c : Conf) : Conf :=
  mkConf (cg_n c) (cg_net c) (cg_srvs c) (cg_instances c) (cg_world c) (cg_servers c) (cg_saved c) (cg_endnames c)
    clerks next (cg_param c).

Definition set_srvs (srvs : list (Server Handler)) (c : Conf) : Conf :=
  mkConf (cg_n c) (cg_net c) srvs (cg_instances c) (cg_world c) (cg_servers c) (cg_saved c) (cg_endnames c)
    (cg_clerks c) (cg_nextClientId c) (cg_param c).

(** A step on the network alone. *)
Definition on_net (f : Net -> option Net) (c : Conf) : option Conf := rn ← f (cg_net c); Some (set_net rn c).

Definition connect (i : nat) (to : list nat) (c : Conf) : option Conf :=
  on_net (connectUnlocked (cg_endnames c) i to) c.

Definition disconnect (i : nat) (from : list nat) (c : Conf) : option Conf :=
  on_net (disconnectUnlocked (cg_endnames c) i from) c.

Definition ConnectAll (c : Conf) : option Conf :=
  on_net (for_each (fun i => connectUnlocked (cg_endnames c) i (All (cg_n c))) (seq 0 (cg_n c))) c.

Definition partition (p1 p2 : list nat) (c : Conf) : option Conf := on_net (partition_net (cg_endnames c) p1 p2) c.

(** *** Clerks *)

(** The body of the loops of [ConnectClientUnlocked] and [DisconnectClientUnlocked]. *)
Definition client_end (names : list string) (to : list nat) (j : nat) : option (option string) :=
  d ← to !! j; Some <$> names !! d.

(** A missing clerk has no ends. *)
Definition ConnectClient (ck : nat) (to : list nat) (c : Conf) : option Conf :=
  on_net (enable_loop true (client_end (default [] (cg_clerks c !! ck)) to) (seq 0 (length to))) c.

Definition DisconnectClient (ck : nat) (from : list nat) (c : Conf) : option Conf :=
  on_net (enable_loop false (client_end (default [] (cg_clerks c !! ck)) from) (seq 0 (length from))) c.

(** [makeClient]: the clerk gets the number [ck]; [names] are the random strings and
    [rand] the random numbers that shuffle its ends. *)
Definition makeClient (ck : nat) (names : nat -> string) (rand : nat -> nat) (to : list nat) (c : Conf)
    : option (Conf * K) :=
  rn ← make_ends names (seq 0 (cg_n c)) (cg_net c);
  let endnames := names <$> seq 0 (cg_n c) in
  handles ← random_handles rand endnames;
  c ← ConnectClient ck to
        (set_clerks (<[ck := endnames]> (cg_clerks c)) (S (cg_nextClientId c)) (set_net rn c));
  Some (c, svc_MakeClerk handles).

(** [deleteClient], without the removal of files named like the ends. *)
Definition deleteClient (ck : nat) (c : Conf) : Conf :=
  set_clerks (delete ck (cg_clerks c)) (cg_nextClientId c) c.

(** *** Servers *)

Definition ShutdownServer (i : nat) (c : Conf) : option Conf :=
  c ← disconnect i (All (cg_n c)) c;
  let c := set_net (DeleteServer (inr i) (cg_net c)) c in
  '(w, sv) ← refresh_saved i (cg_world c) (cg_saved c);
  let c := set_saved w sv c in
  server ← cg_servers c !! i;
  match server with
  | None => Some c
  | Some a => Some (set_servers (alter svc_Kill a (cg_instances c)) (<[i := None]> (cg_servers c)) c)
  end.

(** [StartServer]; [names] are the random strings. *)
Definition StartServer (i : nat) (names : nat -> string) (c : Conf) : option Conf :=
  _ ← cg_endnames c !! i;
  let row := names <$> seq 0 (cg_n c) in
  let c := set_endnames (<[i := Some row]> (cg_endnames c)) c in
  rn ← make_ends names (seq 0 (cg_n c)) (cg_net c);
  let c := set_net rn c in
  '(w, sv) ← start_saved i (cg_world c) (cg_saved c);
  let c := set_saved w sv c in
  p ← mjoin (cg_saved c !! i);
  let a := length (cg_instances c) in
  let c := set_servers (cg_instances c ++ [svc_start (cg_param c) row i p]) (<[i := Some a]> (cg_servers c)) c in
  let srv := AddService (MakeService "Raft" (raft_methods a)) (AddService (MakeService svc_name (methods a)) MakeServer) in
  Some (set_net (AddServer (inr i) (length (cg_srvs c)) (cg_net c)) (set_srvs (cg_srvs c ++ [srv]) c)).

(** [cleanup]: every instance is killed and the network closed. *)
Definition cleanup (c : Conf) : option Conf :=
  let kills := foldl (fun ts s => match s with Some a => alter svc_Kill a ts | None => ts end) (cg_instances c) (cg_servers c) in
  on_net Cleanup (set_servers kills (cg_servers c) c).

Definition LogSize (c : Conf) : option nat := max_saved RaftStateSize (cg_n c) (cg_world c) (cg_saved c).

(** *** make_config *)

(** The tables of [make_config] before any server. *)
Definition empty_conf (n : nat) (param : P) : Conf :=
  mkConf n MakeNetwork [] [] start (replicate n None) (replicate n None) (replicate n None) ∅ (n + 1000) param.

Fixpoint start_all (names : nat -> nat -> string) (js : list nat) (c : Conf) : option Conf :=
  match js with
  | [] => Some c
  | i :: js => c ← StartServer i (names i) c; start_all names js c
  end.

Definition make_config (n : nat) (unreliable : bool) (param : P) (names : nat -> nat -> string) : option Conf :=
  c ← start_all names (seq 0 n) (empty_conf n param);
  c ← ConnectAll c;
  Some (set_net (Reliable (negb unreliable) (cg_net c)) c).

(** ** Runs of a test *)

(** What a test, its clerks and its servers do. A server is started after it was shut
    down, as the comment on [StartServer] asks; an instance saves bytes in its
    persister, and a killed instance can still do so. *)
Inductive SvcOp :=
  | SConnect (i : nat) (to : list nat) | SDisconnect (i : nat) (from : list nat)
  | SConnectAll | SPartition (p1 p2 : list nat)
  | SMakeClient (ck : nat) (names : nat -> string) (rand : nat -> nat) (to : list nat) | SDeleteClient (ck : nat)
  | SConnectClient (ck : nat) (to : list nat) | SDisconnectClient (ck : nat) (from : list nat)
  | SShutdown (i : nat) | SStart (i : nat) (names : nat -> string)
  | SSave (a : nat) (rs sn : string).

Definition svc_op (o : SvcOp) (c : Conf) : option Conf :=
  match o with
  | SConnect i to => connect i to c
  | SDisconnect i from => disconnect i from c
  | SConnectAll => ConnectAll c
  | SPartition p1 p2 => partition p1 p2 c
  | SMakeClient ck names rand to => '(c, _) ← makeClient ck names rand to c; Some c
  | SDeleteClient ck => Some (deleteClient ck c)
  | SConnectClient ck to => ConnectClient ck to c
  | SDisconnectClient ck from => DisconnectClient ck from c
  | SShutdown i => ShutdownServer i c
  | SStart i names => if decide (cg_servers c !! i = Some None) then StartServer i names c else None
  | SSave a rs sn =>
      t ← cg_instances c !! a;
      w ← save_bytes (rf_persister (svc_rf t)) rs sn (cg_world c);
      Some (set_saved w (cg_saved c) c)
  end.

(** The configurations a test of [n] servers can reach. *)
Definition svc_run (n : nat) (c : Conf) : Prop :=
  exists unreliable param names c0, make_config n unreliable param names = Some c0 /\
    rtc (fun x y => exists o, svc_op o x = Some y) c0 c.
End config.

Arguments Conf : clear implicits.
