(* ===== verification/ServiceFacts.v ===== *)
(** * Facts about the configuration of the tests of a service

    What connecting, partitioning and making clerks do to the ends, for
    [ServiceConfig]. *)

From S2P Require Import Prelude GoLib Labrpc Persister TestNet RaftConfig RaftConfigInv ServiceConfig.

Set Default Proof Using "Type".

(** ** Effects on one end *)

(** A step of the test leaves the end [e] at [b] if it was there, or sets it to [b]. *)
Definition keeps (e : string) (b : bool) (g : Net -> option Net) : Prop :=
  forall rn rn', g rn = Some rn' -> enabled_at (inl e) rn = b -> enabled_at (inl e) rn' = b.
Definition forces (e : string) (b : bool) (g : Net -> option Net) : Prop :=
  forall rn rn', g rn = Some rn' -> enabled_at (inl e) rn' = b.

Lemma loop_effect e yes f js rn rn' :
  enable_loop yes f js rn = Some rn' ->
  enabled_at (inl e) rn' = if decide (e ∈ touched f js) then yes else enabled_at (inl e) rn.
Proof.
  intros [_ Hen]%enable_loop_spec. rewrite Hen. repeat case_decide; set_solver.
Qed.

Lemma loop_keeps e yes b f js : (e ∈ touched f js -> yes = b) -> keeps e b (enable_loop yes f js).
Proof. intros Ht rn rn' Hl%(loop_effect e) He. rewrite Hl. case_decide; auto. Qed.

Lemma loop_forces e b f js : e ∈ touched f js -> forces e b (enable_loop b f js).
Proof. intros Ht rn rn' Hl%(loop_effect e). by rewrite Hl, decide_True. Qed.

Lemma keeps_seq e b g h : keeps e b g -> keeps e b h -> keeps e b (fun rn => rn ← g rn; h rn).
Proof. intros Hg Hh rn rn' (rn1 & H1 & H2)%bind_Some He. eauto. Qed.

Lemma forces_seq_l e b g h : forces e b g -> keeps e b h -> forces e b (fun rn => rn ← g rn; h rn).
Proof. intros Hg Hh rn rn' (rn1 & H1 & H2)%bind_Some. eauto. Qed.

Lemma forces_seq_r e b g h : forces e b h -> forces e b (fun rn => rn ← g rn; h rn).
Proof. intros Hh rn rn' (rn1 & H1 & H2)%bind_Some. eauto. Qed.

Lemma for_each_keeps e b f js : (forall i, i ∈ js -> keeps e b (f i)) -> keeps e b (for_each f js).
Proof.
  induction js as [|i js IH]; intros Hf; [by intros rn rn' [= <-]|].
  apply keeps_seq; [apply Hf; by left|]. apply IH. intros j Hj. apply Hf. by right.
Qed.

Lemma for_each_forces e b f js i :
  i ∈ js -> forces e b (f i) -> (forall j, j ∈ js -> keeps e b (f j)) -> forces e b (for_each f js).
Proof.
  induction js as [|j js IH]; intros Hi Hf Hk; [set_solver|].
  assert (Hks : forall k, k ∈ js -> keeps e b (f k)) by (intros k Hin; apply Hk; by right).
  apply elem_of_cons in Hi as [->|Hi].
  - apply forces_seq_l; [done|]. by apply for_each_keeps.
  - apply forces_seq_r. by apply IH.
Qed.

#[export] Hint Resolve keeps_seq loop_keeps loop_forces for_each_keeps : go.

(** ** Tables of ends *)

(** Every server was started, and ends have different names. *)
Record table_ok (n : nat) (t : EndTable) : Prop := {
  to_length : length t = n;
  to_row i : i < n -> exists row, t !! i = Some (Some row) /\ length row = n;
  to_distinct i j i' j' e : end_of t i j = Some e -> end_of t i' j' = Some e -> i = i' /\ j = j';
}.

Section links.
Context (n : nat) (t : EndTable).
Hypothesis Hok : table_ok n t.
Implicit Types (i j a b : nat) (e : string) (p to : list nat).

Lemma table_end i j : i < n -> j < n -> is_Some (end_of t i j).
Proof using Hok.
  intros Hi Hj. destruct (to_row _ _ Hok i Hi) as (row & Hr & Hl). unfold end_of. rewrite Hr; simpl.
  apply lookup_lt_is_Some. lia.
Qed.

Lemma touched_link_out i to e :
  e ∈ touched (link_out t i to) (seq 0 (length to)) <-> exists d, d ∈ to /\ end_of t i d = Some e.
Proof.
  rewrite elem_of_touched. unfold link_out. split.
  - intros (j & _ & (d & Hd & (e' & He & [= ->])%fmap_Some)%bind_Some).
    exists d. split; [by eapply list_elem_of_lookup_2|done].
  - intros (d & [j Hj]%list_elem_of_lookup & He). exists j. split; [|by rewrite Hj; simpl; rewrite He].
    apply elem_of_seq. apply lookup_lt_Some in Hj. lia.
Qed.

Lemma touched_link_in i to e :
  e ∈ touched (link_in t i to) (seq 0 (length to)) <-> exists d, d ∈ to /\ end_of t d i = Some e.
Proof.
  rewrite elem_of_touched. unfold link_in. split.
  - intros (j & _ & (d & Hd & (e' & He & [= ->])%fmap_Some)%bind_Some).
    exists d. split; [by eapply list_elem_of_lookup_2|done].
  - intros (d & [j Hj]%list_elem_of_lookup & He). exists j. split; [|by rewrite Hj; simpl; rewrite He].
    apply elem_of_seq. apply lookup_lt_Some in Hj. lia.
Qed.

(** The loops over valid servers do not panic. *)
Lemma link_total i to j :
  i < n -> Forall (fun d => d < n) to -> j < length to -> is_Some (link_out t i to j) /\ is_Some (link_in t i to j).
Proof using Hok.
  intros Hi Hto Hj. destruct (lookup_lt_is_Some_2 to j Hj) as [d Hd].
  pose proof (Forall_lookup_1 _ _ _ _ Hto Hd) as Hdn. unfold link_out, link_in. rewrite Hd; simpl.
  split; apply fmap_is_Some; by apply table_end.
Qed.

(** With every server started the two guards of [disconnectUnlocked] pass, also the
    one that looks at the wrong row, as long as [from] is not longer than the table. *)
Lemma cut_is_link i from j :
  i < n -> length from <= n -> j < length from ->
  cut_out t i from j = link_out t i from j /\ cut_in t i from j = link_in t i from j.
Proof using Hok.
  intros Hi Hl Hj. destruct (to_row _ _ Hok i Hi) as (row & Hr & _).
  destruct (to_row _ _ Hok j) as (row' & Hr' & _); [lia|]. unfold cut_out, cut_in. by rewrite Hr, Hr'.
Qed.

Lemma loop_ext yes f g js rn : (forall j, j ∈ js -> f j = g j) -> enable_loop yes f js rn = enable_loop yes g js rn.
Proof.
  revert rn. induction js as [|j js IH]; intros rn Hfg; simpl; [done|]. rewrite (Hfg j) by (by left).
  destruct (g j); simpl; [|done]. apply IH. intros k Hk. apply Hfg. by right.
Qed.

Lemma disconnect_is_loops i from rn :
  i < n -> length from <= n ->
  disconnectUnlocked t i from rn =
  (rn ← enable_loop false (link_out t i from) (seq 0 (length from)) rn;
   enable_loop false (link_in t i from) (seq 0 (length from)) rn).
Proof using Hok.
  intros Hi Hl. unfold disconnectUnlocked.
  rewrite (loop_ext _ (cut_out t i from) (link_out t i from)).
  2: { intros j [_ Hj]%elem_of_seq. by apply cut_is_link. }
  destruct (enable_loop false (link_out t i from) _ rn); simpl; [|done].
  apply loop_ext. intros j [_ Hj]%elem_of_seq. by apply cut_is_link.
Qed.

(** The end of [a] to [b] is between [i] and the servers [p]. *)
Definition between i p a b : Prop := i = a /\ b ∈ p \/ i = b /\ a ∈ p.

Lemma touched_between i p a b e :
  end_of t a b = Some e ->
  between i p a b <->
  e ∈ touched (link_out t i p) (seq 0 (length p)) \/ e ∈ touched (link_in t i p) (seq 0 (length p)).
Proof using Hok.
  intros He. rewrite touched_link_out, touched_link_in. unfold between. split.
  - intros [[-> Hb]|[-> Ha]]; eauto.
  - intros [(d & Hd & He')|(d & Hd & He')]; destruct (to_distinct _ _ Hok _ _ _ _ _ He He'); subst; auto.
Qed.

Lemma connect_forces i p a b e :
  end_of t a b = Some e -> between i p a b -> forces e true (connectUnlocked t i p).
Proof using Hok.
  intros He Hb. apply (touched_between i p a b e He) in Hb as [Ht|Ht]; unfold connectUnlocked.
  - apply forces_seq_l; auto with go.
  - apply forces_seq_r; auto with go.
Qed.

Lemma connect_keeps i p a b e v :
  end_of t a b = Some e -> (between i p a b -> v = true) -> keeps e v (connectUnlocked t i p).
Proof using Hok.
  intros He Hb. apply keeps_seq; apply loop_keeps; intros Ht; symmetry; apply Hb;
    apply (touched_between i p a b e He); auto.
Qed.

Lemma disconnect_forces i p a b e :
  i < n -> length p <= n -> end_of t a b = Some e -> between i p a b -> forces e false (disconnectUnlocked t i p).
Proof using Hok.
  intros Hi Hp He Hb rn rn'. rewrite disconnect_is_loops by done. revert rn rn'.
  apply (touched_between i p a b e He) in Hb as [Ht|Ht].
  - apply forces_seq_l; auto with go.
  - apply forces_seq_r; auto with go.
Qed.

Lemma disconnect_keeps i p a b e v :
  i < n -> length p <= n -> end_of t a b = Some e -> (between i p a b -> v = false) ->
  keeps e v (disconnectUnlocked t i p).
Proof using Hok.
  intros Hi Hp He Hb rn rn'. rewrite disconnect_is_loops by done. revert rn rn'.
  apply keeps_seq; apply loop_keeps; intros Ht; symmetry; apply Hb; apply (touched_between i p a b e He); auto.
Qed.

(** ** partition *)

(** Two disjoint lists of servers. *)
Record split_ok p1 p2 : Prop := {
  sp_valid1 : Forall (fun d => d < n) p1;
  sp_valid2 : Forall (fun d => d < n) p2;
  sp_len1 : length p1 <= n;
  sp_len2 : length p2 <= n;
  sp_disjoint a : a ∈ p1 -> a ∈ p2 -> False;
}.

Lemma split_ok_sym p1 p2 : split_ok p1 p2 -> split_ok p2 p1.
Proof. intros []. split; eauto. Qed.

Lemma connect_total_svc i p rn : i < n -> Forall (fun d => d < n) p -> is_Some (connectUnlocked t i p rn).
Proof using Hok.
  intros Hi Hp. unfold connectUnlocked.
  destruct (enable_loop_some true (link_out t i p) (seq 0 (length p)) rn) as [rn1 H1].
  { apply Forall_forall. intros j [_ Hj]%elem_of_seq. by apply link_total. }
  rewrite H1; simpl. apply enable_loop_some. apply Forall_forall. intros j [_ Hj]%elem_of_seq. by apply link_total.
Qed.

Lemma disconnect_total_svc i p rn :
  i < n -> length p <= n -> Forall (fun d => d < n) p -> is_Some (disconnectUnlocked t i p rn).
Proof using Hok.
  intros Hi Hl Hp. rewrite disconnect_is_loops by done.
  destruct (enable_loop_some false (link_out t i p) (seq 0 (length p)) rn) as [rn1 H1].
  { apply Forall_forall. intros j [_ Hj]%elem_of_seq. by apply link_total. }
  rewrite H1; simpl. apply enable_loop_some. apply Forall_forall. intros j [_ Hj]%elem_of_seq. by apply link_total.
Qed.

Lemma for_each_total f js rn :
  (forall i rn, i ∈ js -> is_Some (f i rn)) -> is_Some (for_each f js rn).
Proof.
  revert rn. induction js as [|i js IH]; intros rn Hf; simpl; [done|].
  destruct (Hf i rn) as [rn1 H1]; [by left|]. rewrite H1; simpl. apply IH. intros j r Hj. apply Hf. by right.
Qed.

Lemma sides_total p1 p2 rn : split_ok p1 p2 -> is_Some (for_each (side t p1 p2) p1 rn).
Proof using Hok.
  intros [H1 H2 L1 L2 _]. apply for_each_total. intros i r Hi. rewrite Forall_forall in H1. unfold side.
  destruct (disconnect_total_svc i p2 r) as [r1 Hr1]; [by apply H1|done|done|]. rewrite Hr1; simpl.
  apply connect_total_svc; [by apply H1|by apply Forall_forall].
Qed.

(** A loop of [partition] keeps what it should of any end between the two lists. *)
Lemma side_keeps p1 p2 i a b e v :
  split_ok p1 p2 -> i ∈ p1 -> end_of t a b = Some e ->
  a ∈ p1 /\ b ∈ p1 /\ v = true \/ a ∈ p2 /\ b ∈ p2 /\ v = true \/
  a ∈ p1 /\ b ∈ p2 /\ v = false \/ a ∈ p2 /\ b ∈ p1 /\ v = false ->
  keeps e v (side t p1 p2 i).
Proof using Hok.
  intros [H1 H2 L1 L2 Hd] Hi He Hab. rewrite Forall_forall in H1. unfold side. apply keeps_seq.
  - apply (disconnect_keeps i p2 a b e); [by apply H1|done|done|].
    intros [[-> ?]|[-> ?]]; destruct_or! Hab; destruct_and! Hab; subst; try done; exfalso; eauto.
  - apply (connect_keeps i p1 a b e); [done|].
    intros [[-> ?]|[-> ?]]; destruct_or! Hab; destruct_and! Hab; subst; try done; exfalso; eauto.
Qed.

Lemma side_forces_true p1 p2 a b e :
  end_of t a b = Some e -> b ∈ p1 -> forces e true (side t p1 p2 a).
Proof using Hok. intros He Hb. apply forces_seq_r. apply (connect_forces a p1 a b); [done|]. by left. Qed.

Lemma side_forces_false p1 p2 a b e :
  split_ok p1 p2 -> a ∈ p1 -> b ∈ p2 -> end_of t a b = Some e -> forces e false (side t p1 p2 a).
Proof using Hok.
  intros [H1 H2 L1 L2 Hd] Ha Hb He. rewrite Forall_forall in H1. apply forces_seq_l.
  - apply (disconnect_forces a p2 a b); [by apply H1|done|done|]. by left.
  - apply (connect_keeps a p1 a b); [done|]. intros [[_ ?]|[-> _]]; exfalso; eauto.
Qed.

(** After [partition] two servers of the lists can talk exactly when they are on the
    same side. *)
Lemma partition_spec p1 p2 rn :
  split_ok p1 p2 ->
  exists rn', partition_net t p1 p2 rn = Some rn' /\
    forall a b e, a ∈ p1 ++ p2 -> b ∈ p1 ++ p2 -> end_of t a b = Some e ->
      enabled_at (inl e) rn' = true <-> (a ∈ p1 /\ b ∈ p1 \/ a ∈ p2 /\ b ∈ p2).
Proof using Hok.
  intros Hs. pose proof (split_ok_sym _ _ Hs) as Hs'. unfold partition_net.
  destruct (sides_total p1 p2 rn Hs) as [rn1 H1]. destruct (sides_total p2 p1 rn1 Hs') as [rn2 H2].
  exists rn2. rewrite H1. split; [done|]. intros a b e Ha Hb He. pose proof (sp_disjoint _ _ Hs) as Hd.
  assert (Hk1 : forall v, a ∈ p1 /\ b ∈ p1 /\ v = true \/ a ∈ p2 /\ b ∈ p2 /\ v = true \/
    a ∈ p1 /\ b ∈ p2 /\ v = false \/ a ∈ p2 /\ b ∈ p1 /\ v = false ->
    (forall i, i ∈ p1 -> keeps e v (side t p1 p2 i)) /\ (forall i, i ∈ p2 -> keeps e v (side t p2 p1 i))).
  { intros v Hv. split; intros i Hi; [by eapply (side_keeps p1 p2 i a b)|].
    eapply (side_keeps p2 p1 i a b); [done..|]. naive_solver. }
  apply elem_of_app in Ha as [Ha|Ha]; apply elem_of_app in Hb as [Hb|Hb].
  - split; [by left|intros _]. destruct (Hk1 true) as [Kp1 Kp2]; [naive_solver|].
    eapply (for_each_keeps e true _ p2 Kp2); [exact H2|].
    eapply (for_each_forces e true (side t p1 p2) p1 a Ha); [by eapply side_forces_true|done|exact H1].
  - destruct (Hk1 false) as [Kp1 Kp2]; [naive_solver|]. assert (Hf : enabled_at (inl e) rn2 = false).
    { eapply (for_each_keeps e false _ p2 Kp2); [exact H2|].
      eapply (for_each_forces e false (side t p1 p2) p1 a Ha); [by eapply side_forces_false|done|exact H1]. }
    rewrite Hf. split; [done|]. intros [[_ ?]|[? _]]; exfalso; eauto.
  - destruct (Hk1 false) as [Kp1 Kp2]; [naive_solver|]. assert (Hf : enabled_at (inl e) rn2 = false).
    { eapply (for_each_forces e false (side t p2 p1) p2 a Ha); [by eapply side_forces_false|done|exact H2]. }
    rewrite Hf. split; [done|]. intros [[? _]|[_ ?]]; exfalso; eauto.
  - split; [by right|intros _]. destruct (Hk1 true) as [Kp1 Kp2]; [naive_solver|].
    eapply (for_each_forces e true (side t p2 p1) p2 a Ha); [by eapply side_forces_true|done|exact H2].
Qed.
End links.

(** ** make_partition *)

(** The servers other than the leader, in order. *)
Definition others (l : nat) (js : list nat) : list nat := filter (fun i => i <> l) js.

Lemma insert_next (xs : list nat) k x : 0 < k -> <[length xs := x]> (xs ++ replicate k 0) = (xs ++ [x]) ++ replicate (k - 1) 0.
Proof.
  intros Hk. rewrite insert_app_r_alt, Nat.sub_diag by lia. destruct k; [lia|]. simpl.
  by rewrite Nat.sub_0_r, <- app_assoc.
Qed.

(** The loop fills [p1 ++ p2] from the left. *)
Lemma fill_spec l js xs p1 p2 :
  p1 ++ p2 = xs ++ replicate (length p1 + length p2 - length xs) 0 ->
  length xs + length (others l js) <= length p1 + length p2 ->
  exists p1' p2', foldl (fill l) (Some (p1, p2, length xs)) js = Some (p1', p2', length xs + length (others l js)) /\
    length p1' = length p1 /\ length p2' = length p2 /\
    p1' ++ p2' = (xs ++ others l js) ++ replicate (length p1 + length p2 - length xs - length (others l js)) 0.
Proof.
  revert xs p1 p2. induction js as [|i js IH]; intros xs p1 p2 Heq Hlen; cbn [foldl].
  { exists p1, p2. unfold others; simpl. rewrite Nat.add_0_r, app_nil_r, Nat.sub_0_r. done. }
  unfold others in *. rewrite filter_cons in *. case_decide as Hi; simpl in Hlen.
  - set (p1' := if decide (length xs < length p1) then <[length xs := i]> p1 else p1).
    set (p2' := if decide (length xs < length p1) then p2 else <[length xs - length p1 := i]> p2).
    assert (H1 : length p1' = length p1) by (unfold p1'; case_decide; by rewrite ?length_insert).
    assert (H2 : length p2' = length p2) by (unfold p2'; case_decide; by rewrite ?length_insert).
    assert (Hfill : fill l (Some (p1, p2, length xs)) i = Some (p1', p2', length (xs ++ [i]))).
    { unfold fill, p1', p2'; simpl. rewrite length_app; simpl. rewrite Nat.add_1_r. rewrite decide_True by done.
      repeat case_decide; try done; lia. }
    assert (Heq' : p1' ++ p2' = (xs ++ [i]) ++ replicate (length p1' + length p2' - length (xs ++ [i])) 0).
    { transitivity (<[length xs := i]> (p1 ++ p2)).
      - unfold p1', p2'. case_decide; [by rewrite insert_app_l|by rewrite insert_app_r_alt by lia].
      - rewrite Heq, insert_next by lia. rewrite H1, H2, length_app; simpl. do 2 f_equal. lia. }
    destruct (IH (xs ++ [i]) p1' p2' Heq') as (q1 & q2 & Hf & Hq1 & Hq2 & Hq).
    { rewrite H1, H2, length_app; simpl. lia. }
    exists q1, q2. rewrite Hfill, Hf, Hq1, Hq2, H1, H2. rewrite Hq, H1, H2. rewrite length_app; simpl. split_and!; try done.
    + do 2 f_equal. lia.
    + rewrite <- !app_assoc; simpl. do 3 f_equal. f_equal. lia.
  - assert (Hfill : fill l (Some (p1, p2, length xs)) i = Some (p1, p2, length xs)).
    { unfold fill; simpl. by rewrite decide_False by (by intros []).  }
    rewrite Hfill. apply IH; [done|]. lia.
Qed.

Lemma others_perm l n : l < n -> l :: others l (seq 0 n) ≡ₚ seq 0 n.
Proof.
  intros Hl. apply NoDup_Permutation.
  - constructor; [|apply NoDup_filter, NoDup_seq]. unfold others. rewrite list_elem_of_filter. naive_solver.
  - apply NoDup_seq.
  - intros x. unfold others. rewrite elem_of_cons, list_elem_of_filter, !elem_of_seq.
    destruct (decide (x = l)); [|naive_solver]. subst. split; [lia|]. by left.
Qed.

(** For an odd number of servers, three at least, the two lists split the servers,
    with a majority in the first and the leader in the second. *)
Lemma make_partition_odd k l :
  l < 2 * k + 3 -> exists p1 p2, make_partition (2 * k + 3) l = Some (p1, p2) /\
    length p1 = k + 2 /\ length p2 = k + 1 /\ p1 ++ p2 ≡ₚ seq 0 (2 * k + 3) /\ l ∈ p2.
Proof.
  remember (2 * k + 3) as n eqn:Hn. intros Hl. unfold make_partition. replace (n / 2) with (k + 1).
  2: { apply (Nat.div_unique _ 2 _ 1); lia. }
  pose proof (others_perm l n Hl) as Hperm. pose proof (Permutation_length Hperm) as Hlen.
  rewrite length_seq in Hlen; cbn [length] in Hlen.
  destruct (fill_spec l (seq 0 n) [] (replicate (k + 1 + 1) 0) (replicate (k + 1) 0)) as (p1 & p2 & Hf & H1 & H2 & Heq);
    cbn [length app] in *; rewrite ?length_replicate, ?Nat.sub_0_r in *.
  { by rewrite <- replicate_add. }
  { lia. }
  rewrite Hf; simpl. destruct (length p2) as [|m] eqn:Hp2; [lia|].
  assert (m = k) as -> by lia. exists p1, (<[k := l]> p2). rewrite length_insert. split_and!; [done|lia|lia|..].
  2: { apply (list_elem_of_lookup_2 _ k). apply list_lookup_insert_eq. lia. }
  replace (k + 1 + 1 + (k + 1) - length (others l (seq 0 n))) with 1 in Heq by lia. simpl in Heq.
  rewrite <- (insert_app_r p1 p2 k l), Heq, H1.
  replace (k + 1 + 1 + k) with (length (others l (seq 0 n)) + 0) by lia.
  rewrite insert_app_r. simpl. rewrite Permutation_app_comm. simpl. done.
Qed.

(** ** random_handles *)

Lemma swap_perm {A} i j (sa sa' : list A) : swap i j sa = Some sa' -> sa' ≡ₚ sa.
Proof.
  intros (x & Hi & (y & Hj & [= <-])%bind_Some)%bind_Some. destruct (decide (i = j)) as [->|Hne].
  - simplify_eq. by rewrite list_insert_insert_eq, list_insert_id.
  - apply Permutation_inj. split; [by rewrite !length_insert|].
    exists (fun k => if decide (k = i) then j else if decide (k = j) then i else k). split.
    + intros a b. repeat case_decide; congruence.
    + intros k. repeat case_decide; subst.
      * rewrite list_lookup_insert_ne, list_lookup_insert_eq by (done || by eapply lookup_lt_Some). done.
      * rewrite list_lookup_insert_eq by (rewrite length_insert; by eapply lookup_lt_Some). done.
      * by rewrite !list_lookup_insert_ne by done.
Qed.

(** Whatever the random numbers in range, every handle is there once. *)
Lemma random_handles_perm {A} (rand : nat -> nat) (kvh : list A) :
  (forall i, rand i <= i) -> exists sa, random_handles rand kvh = Some sa /\ sa ≡ₚ kvh.
Proof.
  intros Hr. unfold random_handles.
  assert (Hall : forall js sa, sa ≡ₚ kvh -> Forall (fun i => i < length kvh) js ->
    exists sa', foldl (fun acc i => sa ← acc; swap i (rand i) sa) (Some sa) js = Some sa' /\ sa' ≡ₚ kvh).
  { induction js as [|i js IH]; intros sa Hsa Hjs; simpl; [by eauto|]. apply Forall_cons in Hjs as [Hi Hjs].
    pose proof (Permutation_length Hsa) as Hlen. specialize (Hr i).
    destruct (lookup_lt_is_Some_2 sa i) as [x Hx]; [lia|]. destruct (lookup_lt_is_Some_2 sa (rand i)) as [y Hy]; [lia|].
    assert (Hsw : swap i (rand i) sa = Some (<[rand i := x]> (<[i := y]> sa))) by (unfold swap; by rewrite Hx, Hy).
    rewrite Hsw. apply IH; [|done]. rewrite <- Hsa. by eapply swap_perm. }
  apply Hall; [done|]. apply Forall_forall. intros i [_ Hi]%elem_of_seq. lia.
Qed.

(** ** Clerks *)

Section clerks.
Context {P T K Handler : Type} `{!Service P T K}.
Implicit Types c : Conf P T Handler.

(** The ends of the loops over a clerk's names. *)
Lemma touched_client names to e :
  e ∈ touched (client_end names to) (seq 0 (length to)) <-> exists d, d ∈ to /\ names !! d = Some e.
Proof.
  rewrite elem_of_touched. unfold client_end. split.
  - intros (j & _ & (d & Hd & (e' & He & [= ->])%fmap_Some)%bind_Some).
    exists d. split; [by eapply list_elem_of_lookup_2|done].
  - intros (d & [j Hj]%list_elem_of_lookup & He). exists j. split; [|by rewrite Hj; simpl; rewrite He].
    apply elem_of_seq. apply lookup_lt_Some in Hj. lia.
Qed.

(** A new clerk has every end once, in some order, and reaches exactly the servers of
    the list. *)
Lemma makeClient_spec ck names rand to c c' k :
  (forall i, rand i <= i) -> makeClient ck names rand to c = Some (c', k) ->
  cg_clerks c' !! ck = Some (names <$> seq 0 (cg_n c)) /\
  (exists handles, k = svc_MakeClerk handles /\ handles ≡ₚ names <$> seq 0 (cg_n c)) /\
  forall j, j < cg_n c -> (enabled_at (inl (names j)) (cg_net c') = true <-> j ∈ to) /\
    connection_at (inl (names j)) (cg_net c') = Some (inr j).
Proof.
  intros Hrand (rn & Hmk & (hs & Hhs & (c1 & Hcc & [= <- <-])%bind_Some)%bind_Some)%bind_Some.
  apply bind_Some in Hcc as (rn' & Hl & [= <-]); simpl in *. rewrite lookup_insert_eq in *.
  destruct (random_handles_perm rand (names <$> seq 0 (cg_n c)) Hrand) as (sa & Hsa & Hperm).
  rewrite Hhs in Hsa. injection Hsa as <-. split_and!; [done|by exists hs|].
  intros j Hj. destruct (make_ends_spec _ _ _ _ Hmk) as (Hnd & _ & _ & _ & _ & Hco & _ & Hen).
  pose proof (loop_effect (names j) _ _ _ _ _ Hl) as Hen'. apply enable_loop_spec in Hl as [[_ _ Hs _] _].
  assert (Hin : j ∈ seq 0 (cg_n c)) by (apply elem_of_seq; lia).
  split; [|unfold connection_at; rewrite Hs; by apply Hco].
  assert (Hjj : (names <$> seq 0 (cg_n c)) !! j = Some (names j)).
  { rewrite list_lookup_fmap, fmap_Some. exists j. split; [by apply lookup_seq|done]. }
  rewrite Hen', Hen. rewrite (decide_True false) by (apply list_elem_of_fmap; eauto). simpl. clear Hen Hen'.
  case_decide as Hd; rewrite touched_client in Hd; split; try done.
  - intros _. destruct Hd as (d & Hd & He). by rewrite (NoDup_lookup _ _ _ _ Hnd Hjj He).
  - intros Hto. destruct Hd. eauto.
Qed.
End clerks.

(** ** Only the enabled ends change *)

Definition only_enables (g : Net -> option Net) : Prop := forall rn rn', g rn = Some rn' -> same_but_enabled rn rn'.

Lemma loop_only yes f js : only_enables (enable_loop yes f js).
Proof. by intros rn rn' [? _]%enable_loop_spec. Qed.

Lemma only_seq g h : only_enables g -> only_enables h -> only_enables (fun rn => rn ← g rn; h rn).
Proof. intros Hg Hh rn rn' (rn1 & H1 & H2)%bind_Some. etrans; [by apply Hg|by apply Hh]. Qed.

Lemma for_each_only f js : (forall i, only_enables (f i)) -> only_enables (for_each f js).
Proof. intros Hf. induction js as [|i js IH]; [by intros rn rn' [= <-]|]. by apply only_seq. Qed.

#[export] Hint Resolve loop_only only_seq for_each_only : go.

Lemma connect_only t i to : only_enables (connectUnlocked t i to).
Proof. apply only_seq; auto with go. Qed.

Lemma partition_only t p1 p2 : only_enables (partition_net t p1 p2).
Proof.
  assert (Hs : forall a b i, only_enables (side t a b i)).
  { intros a b i. apply only_seq; [apply only_seq; auto with go|apply connect_only]. }
  apply only_seq; apply for_each_only; intros i; apply Hs.
Qed.

