(* ===== verification/ServiceInv.v ===== *)
(** * Runs of the tests of a service

    The invariant of [ServiceConfig] along every run of a test: the table of ends is
    wired to the servers, a server is on the network while its instance runs, and the
    persisted state of a server is its own. It is proved for every [Service] that
    satisfies its laws. *)

From S2P Require Import Prelude GoLib Labrpc Persister TestNet RaftConfig RaftConfigInv SavedState.
From S2P Require Import ServiceConfig ServiceFacts.

Set Default Proof Using "Type".

Section inv.
Context {P T K Handler : Type} `{!Service P T K, !ServiceLaws P T K}.
Context (methods raft_methods : nat -> list (Method Handler)).
Abbreviation Conf := (Conf P T Handler).
Implicit Types (c : Conf) (i j a : nat).

Record svc_inv c : Prop := {
  si_wires : wires (cg_n c) (cg_endnames c) (cg_net c);
  si_servers : length (cg_servers c) = cg_n c;
  si_saved : length (cg_saved c) = cg_n c;
  (** the server is on the network while its instance runs *)
  si_server j : j < cg_n c -> is_Some (server_at (inr j) (cg_net c)) <-> is_Some (mjoin (cg_servers c !! j));
  si_kept : kept (svc_rf <$> cg_instances c) (cg_servers c) (cg_world c) (cg_saved c);
}.

(** The persisted state of the server [i]. *)
Definition svc_value c i : option (string * string) := value_in (cg_world c) (cg_saved c) i.

(** Every server was started. *)
Definition svc_started c : Prop := forall i, i < cg_n c -> is_Some (mjoin (cg_endnames c !! i)).

(** ** Steps that enable and disable ends *)

Lemma svc_inv_net c rn : svc_inv c -> same_but_enabled (cg_net c) rn -> svc_inv (set_net rn c).
Proof.
  intros [Hw Hs Hsv Hser Hk] [S1 S2 S3 S4]. split; simpl; try done; [by eapply wires_same|].
  intros j Hj. rewrite <- (Hser j Hj). unfold server_at. by rewrite S2.
Qed.

Lemma on_net_inv f c c' :
  only_enables f -> svc_inv c -> on_net f c = Some c' ->
  svc_inv c' /\ exists rn, c' = set_net rn c /\ same_but_enabled (cg_net c) rn.
Proof.
  intros Hf Hinv (rn & Hrn & [= <-])%bind_Some. apply Hf in Hrn. split; [by apply svc_inv_net|eauto].
Qed.

Lemma disconnect_only t i from : only_enables (disconnectUnlocked t i from).
Proof. apply only_seq; auto with go. Qed.

Lemma for_each_connect_only t js p : only_enables (for_each (fun i => connectUnlocked t i p) js).
Proof. apply for_each_only. intros i. apply connect_only. Qed.

(** ** ShutdownServer and StartServer *)

Lemma ShutdownServer_spec i c c' :
  svc_inv c -> ShutdownServer i c = Some c' ->
  i < cg_n c /\ svc_inv c' /\ cg_n c' = cg_n c /\ cg_endnames c' = cg_endnames c /\
  cg_servers c' = <[i := None]> (cg_servers c) /\
  refreshed i (cg_world c) (cg_saved c) (cg_world c') (cg_saved c').
Proof using ServiceLaws0.
  intros Hinv (c1 & H1 & Hc)%bind_Some. pose proof Hinv as [_ _ _ _ Hk].
  destruct (on_net_inv _ _ _ (disconnect_only _ _ _) Hinv H1) as [_ (rn & -> & Hsame)]. simpl in *.
  apply bind_Some in Hc as ([w sv] & Hr & Hc). simpl in *.
  assert (Hi : i < cg_n c).
  { apply bind_Some in Hr as (o & Ho%lookup_lt_Some & _). by rewrite (si_saved _ Hinv) in Ho. }
  apply refresh_saved_spec in Hr; [|apply Hk].
  assert (Hc' : c' = set_servers (match mjoin (cg_servers c !! i) with
      Some a => alter svc_Kill a (cg_instances c) | None => cg_instances c end) (<[i := None]> (cg_servers c))
    (set_saved w sv (set_net (DeleteServer (inr i) rn) c))).
  { apply bind_Some in Hc as ([a|] & Ha & [= <-]); simpl in *; rewrite Ha; [done|]. by rewrite (list_insert_id (cg_servers c)). }
  subst c'; simpl. destruct Hsame as [S1 S2 S3 S4]. split_and!; try done.
  destruct Hinv as [Hw Hs Hsv Hser _]. split; simpl; rewrite ?length_insert; try done.
  - by eapply wires_same.
  - destruct Hr as [(_ & _ & ->)|(v & _ & [_ _ (q & -> & _)])]; [done|]. by rewrite length_insert.
  - intros j Hj. unfold server_at; simpl. rewrite S2. destruct (decide (j = i)) as [->|Hne].
    + rewrite lookup_insert_eq, list_lookup_insert_eq by lia. done.
    + rewrite lookup_insert_ne, list_lookup_insert_ne by congruence. by apply Hser.
  - pose proof (kept_crash _ _ _ _ i _ _ Hk ltac:(lia) ltac:(lia) Hr) as Hk'.
    destruct (mjoin (cg_servers c !! i)) as [a|]; [|done].
    rewrite (list_fmap_alter _ svc_Kill Kill); [done|]. apply Forall_forall. intros t _. apply svc_Kill_rf.
Qed.

Lemma StartServer_spec i names c c' :
  svc_inv c -> cg_servers c !! i = Some None -> StartServer methods raft_methods i names c = Some c' ->
  svc_inv c' /\ cg_n c' = cg_n c /\ cg_endnames c' = <[i := Some (names <$> seq 0 (cg_n c))]> (cg_endnames c) /\
  cg_servers c' = <[i := Some (length (cg_instances c))]> (cg_servers c) /\
  fresh_persister i (default ("", "") (svc_value c i)) (cg_world c) (cg_saved c) (cg_world c') (cg_saved c').
Proof using ServiceLaws0.
  intros Hinv Hdown (o & Ho & Hc)%bind_Some. pose proof Hinv as [Hw Hs Hsv Hser Hk].
  assert (Hi : i < cg_n c) by (rewrite <- Hs; by eapply lookup_lt_Some).
  apply bind_Some in Hc as (rn & Hmk & Hc). apply bind_Some in Hc as ([w sv] & Hst & Hc). simpl in *.
  apply start_saved_spec in Hst; [|apply Hk]. apply bind_Some in Hc as (p & Hp & [= <-]). simpl in *.
  split_and!; try done. assert (Hk' : kept (svc_rf <$> cg_instances c) (cg_servers c) w sv)
    by (eapply kept_fresh; [exact Hk|done|lia|exact Hst]).
  assert (Hpi : sv !! i = Some (Some p)) by (by destruct (sv !! i) as [[q|]|]; simplify_eq/=).
  split; simpl; rewrite ?length_insert; try done.
  - eapply wires_same; [by eapply wires_fresh|done..].
  - destruct Hst as [_ _ (q & -> & _)]. by rewrite length_insert.
  - intros j Hj. apply make_ends_spec in Hmk as (_ & _ & _ & Hsvs & _). unfold server_at; simpl. rewrite Hsvs.
    destruct (decide (j = i)) as [->|Hne].
    + rewrite lookup_insert_eq, list_lookup_insert_eq by lia. simpl. by split.
    + rewrite lookup_insert_ne, list_lookup_insert_ne by congruence. by apply Hser.
  - rewrite fmap_app; simpl. rewrite svc_start_rf. pose proof (kept_start _ _ _ _ i (names <$> seq 0 (cg_n c)) p Hk' Hdown Hpi) as Hk2.
    by rewrite length_fmap in Hk2.
Qed.

(** ** Clerks *)

Lemma makeClient_inv ck names rand to c c' k :
  svc_inv c -> makeClient ck names rand to c = Some (c', k) ->
  svc_inv c' /\ exists rn clerks next, c' = set_net rn (set_clerks clerks next c).
Proof.
  intros Hinv (rn & Hmk & (hs & _ & (c1 & Hcc & [= <- <-])%bind_Some)%bind_Some)%bind_Some.
  destruct (make_ends_spec _ _ _ _ Hmk) as (Hnd & Hfr & Hends & Hsvs & _ & _ & Hco' & _).
  assert (Hinv1 : svc_inv (set_clerks (<[ck := names <$> seq 0 (cg_n c)]> (cg_clerks c)) (S (cg_nextClientId c)) (set_net rn c))).
  { destruct Hinv as [[Ht Hrow Hd He] Hs Hsv Hser Hk]. split; simpl; try done.
    - split; [done|done|done|]. intros i j e Hij. destruct (He i j e Hij) as [Hin Hc].
      rewrite Hends. split; [by apply elem_of_union_r|]. rewrite Hco'; [done|]. by eapply fresh_old.
    - intros j Hj. rewrite <- (Hser j Hj). unfold server_at. by rewrite Hsvs. }
  destruct (on_net_inv _ _ _ (loop_only _ _ _) Hinv1 Hcc) as [Hinv2 (rn' & -> & _)]. split; [done|]. simpl in *.
  by eexists _, _, _.
Qed.

(** ** Every step *)

(** What an operation does to the persisted state of the server [i]. *)
Definition svc_value_spec (o : SvcOp) c i : option (string * string) :=
  match o with
  | SSave a rs sn => if decide (cg_servers c !! i = Some (Some a)) then Some (rs, sn) else svc_value c i
  | SStart j _ => if decide (i = j) then Some (default ("", "") (svc_value c i)) else svc_value c i
  | _ => svc_value c i
  end.

Abbreviation svc_op := (svc_op methods raft_methods).

(** Which servers run after an operation. *)
Definition svc_runs_spec (o : SvcOp) c i : bool :=
  match o with
  | SStart j _ => bool_decide (i = j) || bool_decide (is_Some (mjoin (cg_servers c !! i)))
  | SShutdown j => negb (bool_decide (i = j)) && bool_decide (is_Some (mjoin (cg_servers c !! i)))
  | _ => bool_decide (is_Some (mjoin (cg_servers c !! i)))
  end.

Lemma svc_op_inv o c c' :
  svc_inv c -> svc_op o c = Some c' ->
  svc_inv c' /\ cg_n c' = cg_n c /\ (svc_started c -> svc_started c') /\
  (forall i, i < cg_n c -> svc_value c' i = svc_value_spec o c i) /\
  (forall i, i < cg_n c -> bool_decide (is_Some (mjoin (cg_servers c' !! i))) = svc_runs_spec o c i).
Proof using ServiceLaws0.
  intros Hinv Ho. pose proof (si_kept _ Hinv) as Hk. pose proof (si_saved _ Hinv) as Hsv. pose proof (si_servers _ Hinv) as Hss.
  destruct o as [j to|j from| |p1 p2|ck names rand to|ck|ck to|ck from|j|j names|a rs sn]; cbn [ServiceConfig.svc_op] in Ho.
  - destruct (on_net_inv _ _ _ (connect_only _ _ _) Hinv Ho) as [? (rn & -> & _)]. done.
  - destruct (on_net_inv _ _ _ (disconnect_only _ _ _) Hinv Ho) as [? (rn & -> & _)]. done.
  - destruct (on_net_inv _ _ _ (for_each_connect_only _ _ _) Hinv Ho) as [? (rn & -> & _)]. done.
  - destruct (on_net_inv _ _ _ (partition_only _ _ _) Hinv Ho) as [? (rn & -> & _)]. done.
  - apply bind_Some in Ho as ([c1 k] & Hm & [= <-]).
    destruct (makeClient_inv _ _ _ _ _ _ _ Hinv Hm) as [? (rn & cs & nx & ->)]. done.
  - injection Ho as <-. split; [|done]. by destruct Hinv.
  - destruct (on_net_inv _ _ _ (loop_only _ _ _) Hinv Ho) as [? (rn & -> & _)]. done.
  - destruct (on_net_inv _ _ _ (loop_only _ _ _) Hinv Ho) as [? (rn & -> & _)]. done.
  - destruct (ShutdownServer_spec _ _ _ Hinv Ho) as (Hj & Hinv' & Hn & Ht & Hs & Href).
    split_and!; [done|done|intros Hst i; rewrite Hn, Ht; apply Hst|..]; intros i Hi.
    + refine (value_in_refreshed _ _ _ _ _ _ i j Hk _ Href). by rewrite Hsv.
    + rewrite Hs; simpl. rewrite list_lookup_insert. case_decide as Hd.
      * destruct Hd as [-> _]. by rewrite (bool_decide_eq_true_2 (i = i)).
      * rewrite (bool_decide_eq_false_2 (i = j)); [done|]. intros ->. destruct Hd. split; [done|lia].
  - case_decide as Hd; [|done]. destruct (StartServer_spec _ _ _ _ Hinv Hd Ho) as (Hinv' & Hn & Ht & Hs & Hf).
    assert (Hj : j < cg_n c) by (rewrite <- Hss; by eapply lookup_lt_Some). split_and!; [done|done|..].
    + intros Hst i. rewrite Hn, Ht. intros Hi. rewrite list_lookup_insert. case_decide; [done|by apply Hst].
    + intros i Hi. simpl. unfold svc_value.
      rewrite (value_in_fresh _ _ _ _ _ _ i j _ Hk ltac:(by rewrite Hsv) Hf). by case_decide; subst.
    + intros i Hi. rewrite Hs; simpl. rewrite list_lookup_insert. case_decide as Hd'.
      * destruct Hd' as [-> _]. by rewrite (bool_decide_eq_true_2 (i = i)).
      * rewrite (bool_decide_eq_false_2 (i = j)); [done|]. intros ->. destruct Hd'. split; [done|lia].
  - apply bind_Some in Ho as (t & Ht & Ho). apply bind_Some in Ho as (w & Hw & [= <-]).
    apply save_bytes_spec in Hw as [Hiso Hs]; [|apply Hk]. split_and!; [|done|done|..].
    + destruct Hinv. split; simpl; try done. eapply kept_world; [done|done|]. by rewrite Hs, length_insert.
    + intros i Hi. eapply value_in_saves; [exact Hk| |exact Hs]. by rewrite list_lookup_fmap, Ht.
    + done.
Qed.

(** ** Runs *)

Lemma empty_conf_inv n param : svc_inv (empty_conf n param : Conf).
Proof.
  split; simpl; rewrite ?length_replicate; try done; [apply wires_empty|..].
  - intros j Hj. by rewrite lookup_replicate_2.
  - split; simpl; [apply start_isolated|..].
    all: first [intros ? ? [? _]%lookup_replicate; done|intros ? ? ? [? _]%lookup_replicate; done|done].
Qed.

(** Servers are started from the first one on. *)
Lemma start_all_inv names m k c c' :
  svc_inv c -> (forall i, i < m -> is_Some (mjoin (cg_endnames c !! i)) /\ is_Some (mjoin (cg_servers c !! i))) ->
  (forall i, m <= i < m + k -> cg_servers c !! i = Some None) ->
  start_all methods raft_methods names (seq m k) c = Some c' ->
  svc_inv c' /\ cg_n c' = cg_n c /\
  forall i, i < m + k -> is_Some (mjoin (cg_endnames c' !! i)) /\ is_Some (mjoin (cg_servers c' !! i)).
Proof using ServiceLaws0.
  revert m c. induction k as [|k IH]; intros m c Hinv Hdone Hdown; simpl.
  { intros [= <-]. rewrite Nat.add_0_r. done. }
  intros (c1 & H1 & Hrest)%bind_Some.
  destruct (StartServer_spec m (names m) c c1 Hinv) as (Hinv1 & Hn1 & Ht1 & Hs1 & _); [apply Hdown; lia|done|].
  assert (Hm : m < cg_n c).
  { rewrite <- (si_servers _ Hinv). eapply lookup_lt_Some, Hdown. lia. }
  destruct (IH (S m) c1 Hinv1) as (Hinv' & Hn' & Hall); [| |done|].
  - intros i Hi. rewrite Ht1, Hs1. rewrite !list_lookup_insert. destruct (decide (m = i)) as [<-|Hne].
    + rewrite !decide_True by (split; [done|]; rewrite ?(wi_table _ _ _ (si_wires _ Hinv)), ?(si_servers _ Hinv); done). done.
    + rewrite !decide_False by naive_solver. apply Hdone. lia.
  - intros i Hi. rewrite Hs1, list_lookup_insert_ne by lia. apply Hdown. lia.
  - rewrite Nat.add_succ_r. split_and!; [done|congruence|done].
Qed.

Lemma make_config_svc_inv n unreliable param names c :
  make_config methods raft_methods n unreliable param names = Some c ->
  svc_inv c /\ cg_n c = n /\ svc_started c /\ forall i, i < n -> is_Some (mjoin (cg_servers c !! i)).
Proof using ServiceLaws0.
  intros (c1 & H1 & (c2 & H2 & [= <-])%bind_Some)%bind_Some.
  destruct (start_all_inv names 0 n _ c1 (empty_conf_inv n param)) as (Hinv1 & Hn1 & Hall);
    [lia|intros i Hi; simpl; apply lookup_replicate_2; lia|done|]. simpl in *.
  destruct (on_net_inv _ _ _ (for_each_connect_only _ _ _) Hinv1 H2) as [Hinv2 (rn & -> & _)]. split_and!; simpl; try done.
  - destruct Hinv2 as [Hw Hs Hsv Hser Hk]. split; simpl in *; try done. by eapply wires_same.
  - intros i Hi. apply Hall. simpl in Hi. lia.
  - intros i Hi. by apply Hall.
Qed.

Lemma svc_run_inv n c : svc_run methods raft_methods n c -> svc_inv c /\ cg_n c = n /\ svc_started c.
Proof using ServiceLaws0.
  intros (unreliable & param & names & c0 & H0 & Hr). apply make_config_svc_inv in H0 as (Hinv0 & Hn0 & Hst0 & _).
  refine (rtc_ind_r (fun c => svc_inv c /\ cg_n c = n /\ svc_started c) c0 _ _ c Hr); [done|].
  intros x y _ [o Ho] (Hx & Hn & Hst). apply svc_op_inv in Ho as (Hy & Hn' & Hst' & _); [|done].
  split_and!; [done|congruence|by apply Hst'].
Qed.

(** ** Operations do not panic *)

Lemma svc_table_ok c : svc_inv c -> svc_started c -> table_ok (cg_n c) (cg_endnames c).
Proof.
  intros Hinv Hst. pose proof (si_wires _ Hinv) as Hw. split; [apply (wi_table _ _ _ Hw)| |apply (wi_distinct _ _ _ Hw)].
  intros i Hi. destruct (Hst i Hi) as [row Hr]. destruct (cg_endnames c !! i) as [[r|]|] eqn:Ht; simplify_eq/=.
  exists row. split; [done|]. by eapply (wi_row _ _ _ Hw).
Qed.

Lemma on_net_total f c : is_Some (f (cg_net c)) -> is_Some (on_net f c).
Proof. intros [rn Hrn]. unfold on_net. by rewrite Hrn. Qed.

Lemma All_valid n : Forall (fun d => d < n) (All n).
Proof. apply Forall_forall. intros d [_ ?]%elem_of_seq. lia. Qed.

Lemma ConnectAll_total c : svc_inv c -> svc_started c -> is_Some (ConnectAll c).
Proof.
  intros Hinv Hst. apply on_net_total, for_each_total. intros i rn [_ Hi]%elem_of_seq.
  eapply connect_total_svc; [by apply svc_table_ok|lia|apply All_valid].
Qed.

(** The guard of [disconnectUnlocked] that looks at the wrong row does no harm once
    every server was started. *)
Lemma ShutdownServer_total i c : svc_inv c -> svc_started c -> i < cg_n c -> is_Some (ShutdownServer i c).
Proof.
  intros Hinv Hst Hi. unfold ShutdownServer, disconnect. pose proof Hinv as [_ Hs Hsv _ Hk].
  destruct (on_net_total (disconnectUnlocked (cg_endnames c) i (All (cg_n c))) c) as [c1 H1].
  { eapply disconnect_total_svc; [by apply svc_table_ok|done| |apply All_valid]. unfold All. by rewrite length_seq. }
  rewrite H1; simpl. apply bind_Some in H1 as (rn & _ & [= <-]); simpl. unfold refresh_saved.
  destruct (lookup_lt_is_Some_2 (cg_saved c) i) as [o Ho]; [lia|]. destruct (lookup_lt_is_Some_2 (cg_servers c) i) as [r Hr]; [lia|].
  rewrite Ho; simpl. destruct o as [p|]; simpl; [|rewrite Hr; simpl; by destruct r].
  destruct (lookup_lt_is_Some_2 (persisters (cg_world c)) p) as [ps Hps].
  { rewrite <- saved_length. by eapply (kp_persister _ _ _ _ Hk). }
  rewrite Hps; simpl. rewrite Hr; simpl. by destruct r.
Qed.

Lemma StartServer_total i names c :
  svc_inv c -> i < cg_n c -> NoDup (names <$> seq 0 (cg_n c)) ->
  (forall j, j < cg_n c -> inl (names j) ∉ nw_ends (cg_net c)) ->
  is_Some (StartServer methods raft_methods i names c).
Proof.
  intros Hinv Hi Hnd Hfr. unfold StartServer. pose proof Hinv as [Hw Hs Hsv _ Hk].
  destruct (lookup_lt_is_Some_2 (cg_endnames c) i) as [o Ho]; [by rewrite (wi_table _ _ _ Hw)|]. rewrite Ho; simpl.
  destruct (make_ends_some names (seq 0 (cg_n c)) (cg_net c) Hnd) as [rn Hrn].
  { intros j [_ Hj]%elem_of_seq. apply Hfr. lia. }
  rewrite Hrn; simpl. unfold start_saved, refresh_saved. destruct (lookup_lt_is_Some_2 (cg_saved c) i) as [sv Hsvi]; [lia|].
  rewrite Hsvi; simpl. destruct sv as [p|]; simpl.
  - destruct (lookup_lt_is_Some_2 (persisters (cg_world c)) p) as [ps Hps].
    { rewrite <- saved_length. by eapply (kp_persister _ _ _ _ Hk). }
    rewrite Hps; simpl. rewrite list_lookup_insert_eq by lia. by eexists.
  - rewrite list_lookup_insert_eq by lia. by eexists.
Qed.
End inv.
