(* ===== verification/KvConfig.v ===== *)
(** * The key/value tests: src/src/kvraft

    The skeletons of the server (server.go) and of the clerk (client.go), the
    configuration of the tests (config.go) as an instance of [ServiceConfig], and the
    parts of it that the other services do not have. *)

From S2P Require Import Prelude GoLib Labrpc Persister TestNet RaftConfig SavedState ServiceConfig.

(** ** The server: src/src/kvraft/server.go *)

Record KVServer := mkKVServer { kv_me : nat; kv_rf : Raft; kv_dead : Z; kv_maxraftstate : Z }.

Definition StartKVServer (servers : list string) (me persister : nat) (maxraftstate : Z) : KVServer :=
  mkKVServer me (Make servers me persister) 0 maxraftstate.

Definition kv_Kill (kv : KVServer) : KVServer := mkKVServer (kv_me kv) (Kill (kv_rf kv)) 1 (kv_maxraftstate kv).

Definition kv_killed (kv : KVServer) : bool := (kv_dead kv =? 1)%Z.

(** ** The clerk: src/src/kvraft/client.go *)

Record KvClerk := mkKvClerk { kck_servers : list string }.

Definition MakeKvClerk (servers : list string) : KvClerk := mkKvClerk servers.

#[export] Instance kv_service : Service Z KVServer KvClerk := {|
  svc_name := "KVServer";
  svc_start := fun maxraftstate servers me persister => StartKVServer servers me persister maxraftstate;
  svc_Kill := kv_Kill;
  svc_rf := kv_rf;
  svc_MakeClerk := MakeKvClerk;
|}.

#[export] Instance kv_service_laws : ServiceLaws Z KVServer KvClerk.
Proof. done. Qed.

(** ** The configuration: src/src/kvraft/config.go *)

Section config.
Context {Handler : Type}.
Abbreviation KvConf := (Conf Z KVServer Handler).

(** [Leader], with what [GetState] says of an instance; a server that is down is a nil
    pointer. *)
Fixpoint kv_Leader_from (getState : Raft -> Z * bool) (c : KvConf) (js : list nat) : option (bool * nat) :=
  match js with
  | [] => Some (false, 0)
  | i :: js =>
      a ← mjoin (cg_servers c !! i);
      kv ← cg_instances c !! a;
      if (getState (kv_rf kv)).2 then Some (true, i) else kv_Leader_from getState c js
  end.

Definition kv_Leader (getState : Raft -> Z * bool) (c : KvConf) : option (bool * nat) :=
  kv_Leader_from getState c (seq 0 (cg_n c)).

Definition kv_make_partition (getState : Raft -> Z * bool) (c : KvConf) : option (list nat * list nat) :=
  '(_, l) ← kv_Leader getState c; make_partition (cg_n c) l.

Definition kv_SnapshotSize (c : KvConf) : option nat := max_saved SnapshotSize (cg_n c) (cg_world c) (cg_saved c).

(** The counters of a test: [rpcs0] and [ops], 32 bits wide. *)
Record KvStats := mkKvStats { ks_rpcs0 : Z; ks_ops : Z }.

Definition kv_rpcTotal (c : KvConf) : Z := GetTotalCount (cg_net c).

Definition kv_begin (c : KvConf) : KvStats := mkKvStats (kv_rpcTotal c) 0.

Definition kv_op (s : KvStats) : KvStats := mkKvStats (ks_rpcs0 s) (wrap32 (ks_ops s + 1)).

(** What [end] prints when the test did not fail: the servers, the RPCs and the
    operations of the clerks. *)
Definition kv_end (failed : bool) (elapsed : Z) (s : KvStats) (c : KvConf) : option (nat * Z * Z) :=
  if negb failed && checkTimeout failed elapsed
  then Some (cg_n c, wrap64 (kv_rpcTotal c - ks_rpcs0 s), ks_ops s) else None.
End config.
