(* ===== verification/Clerks.v ===== *)
(** * The clerks of the shard controller and of the sharded key/value service

    src/src/shardctrler/client.go, src/src/shardctrler/common.go,
    src/src/shardkv/client.go and src/src/shardkv/common.go. A clerk calls servers
    until one gives an answer it accepts. What the servers answer, and whether an
    answer arrives, depends on everything that happened before: an environment maps
    the history of calls and sleeps to the answer of the next call. The loops without
    bound take fuel. *)

From Stdlib Require Import Ascii.
From S2P Require Import Prelude GoLib.

(** ** Configurations *)

Definition NShards : nat := 10.

Record Config := mkConfig {
  Num : Z;
  Shards : vec Z NShards;
  Groups : gmap Z (list string);
}.

(** The configuration 0 of [StartServer] (src/src/shardctrler/server.go). *)
Definition initial_config : Config := mkConfig 0 (vreplicate NShards 0%Z) ∅.

(** [type Err string] and its values in src/src/shardkv/common.go. *)
Abbreviation Err := string (only parsing).

Definition OK : Err := "OK".
Definition ErrNoKey : Err := "ErrNoKey".
Definition ErrWrongGroup : Err := "ErrWrongGroup".
Definition ErrWrongLeader : Err := "ErrWrongLeader".

(** ** Requests and replies *)

Inductive Req :=
  | RQuery (num : Z) | RJoin (servers : gmap Z (list string)) | RLeave (gids : list Z) | RMove (shard gid : Z)
  | RGet (key : string) | RPutAppend (key value op : string).

(** The replies of the controller: [WrongLeader] and, for [Query], a configuration. *)
Record QueryReply := mkQueryReply { qr_WrongLeader : bool; qr_Config : Config }.

Record GetReply := mkGetReply { gr_Err : Err; gr_Value : string }.

Definition reply_of (r : Req) : Type :=
  match r with
  | RQuery _ => QueryReply
  | RJoin _ | RLeave _ | RMove _ _ => bool   (** [WrongLeader] *)
  | RGet _ => GetReply
  | RPutAppend _ _ _ => Err
  end.

(** ** Calls *)

(** A call of a server, with the reply when [Call] returned true, and a sleep. *)
Inductive Ev := Called (srv : string) (r : Req) (reply : option (reply_of r)) | Slept.

Abbreviation Hist := (list Ev).

(** Programs extend the history. *)
Definition M (A : Type) : Type := Hist -> Hist * A.

#[export] Instance M_ret : MRet M := fun A x h => (h, x).
#[export] Instance M_bind : MBind M := fun A B f x h => let '(h', a) := x h in f a h'.

Definition sleep : M unit := fun h => (h ++ [Slept], tt).

Section clerks.
Variable env : Hist -> string -> forall r : Req, option (reply_of r).

Definition call (srv : string) (r : Req) : M (option (reply_of r)) :=
  fun h => let a := env h srv r in (h ++ [Called srv r a], a).

(** *** The clerk of the controller *)

(** The loop over the servers: the first accepted reply. *)
Fixpoint try_servers (servers : list string) (r : Req) (accept : reply_of r -> bool) : M (option (reply_of r)) :=
  match servers with
  | [] => mret None
  | srv :: servers =>
      ok ← call srv r;
      match ok with
      | Some reply => if accept reply then mret (Some reply) else try_servers servers r accept
      | None => try_servers servers r accept
      end
  end.

(** The outer loop, with a sleep after each round. *)
Fixpoint until_accepted (fuel : nat) (servers : list string) (r : Req) (accept : reply_of r -> bool)
    : M (option (reply_of r)) :=
  match fuel with
  | 0 => mret None
  | S fuel =>
      got ← try_servers servers r accept;
      match got with
      | Some reply => mret (Some reply)
      | None => _ ← sleep; until_accepted fuel servers r accept
      end
  end.

Definition Query (fuel : nat) (servers : list string) (num : Z) : M (option Config) :=
  reply ← until_accepted fuel servers (RQuery num) (fun reply => negb (qr_WrongLeader reply));
  mret (qr_Config <$> reply).

Definition Join (fuel : nat) (servers : list string) (groups : gmap Z (list string)) : M bool :=
  reply ← until_accepted fuel servers (RJoin groups) negb; mret (bool_decide (is_Some reply)).

Definition Leave (fuel : nat) (servers : list string) (gids : list Z) : M bool :=
  reply ← until_accepted fuel servers (RLeave gids) negb; mret (bool_decide (is_Some reply)).

Definition Move (fuel : nat) (servers : list string) (shard gid : Z) : M bool :=
  reply ← until_accepted fuel servers (RMove shard gid) negb; mret (bool_decide (is_Some reply)).

(** *** The clerk of the key/value service *)

(** [int(key[0]) % NShards], and 0 for the empty key. *)
Definition key2shard (key : string) : nat :=
  match key with
  | EmptyString => 0 `mod` NShards
  | String c _ => nat_of_ascii c `mod` NShards
  end.

Lemma key2shard_lt key : key2shard key < NShards.
Proof. destruct key; apply Nat.mod_upper_bound; done. Qed.

(** [ck.config.Shards[shard]]; the array has [NShards] elements. *)
Definition shard_gid (cfg : Config) (key : string) : Z := Shards cfg !!! nat_to_fin (key2shard_lt key).

(** The loop over the servers of the group in [Get]: a value, or none after the last
    server or a break. *)
Fixpoint get_from (servers : list string) (key : string) : M (option string) :=
  match servers with
  | [] => mret None
  | srv :: servers =>
      ok ← call srv (RGet key);
      match ok with
      | Some reply =>
          if decide (gr_Err reply = OK \/ gr_Err reply = ErrNoKey) then mret (Some (gr_Value reply))
          else if decide (gr_Err reply = ErrWrongGroup) then mret None
          else get_from servers key
      | None => get_from servers key
      end
  end.

(** [Get] for a clerk with the configuration [cfg] and the controllers [ctrlers]: the
    configuration of the clerk afterwards and the value. *)
Fixpoint Get (fuel qfuel : nat) (ctrlers : list string) (cfg : Config) (key : string) : M (Config * option string) :=
  match fuel with
  | 0 => mret (cfg, None)
  | S fuel =>
      got ← match Groups cfg !! shard_gid cfg key with
            | Some servers => get_from servers key
            | None => mret None
            end;
      match got with
      | Some v => mret (cfg, Some v)
      | None =>
          _ ← sleep;
          q ← Query qfuel ctrlers (-1);
          match q with
          | Some cfg' => Get fuel qfuel ctrlers cfg' key
          | None => mret (cfg, None)
          end
      end
  end.

(** The loop over the servers of the group in [PutAppend]: whether one accepted. *)
Fixpoint put_to (servers : list string) (key value op : string) : M bool :=
  match servers with
  | [] => mret false
  | srv :: servers =>
      ok ← call srv (RPutAppend key value op);
      match ok with
      | Some err =>
          if decide (err = OK) then mret true
          else if decide (err = ErrWrongGroup) then mret false
          else put_to servers key value op
      | None => put_to servers key value op
      end
  end.

Fixpoint PutAppend (fuel qfuel : nat) (ctrlers : list string) (cfg : Config) (key value op : string) : M (Config * bool) :=
  match fuel with
  | 0 => mret (cfg, false)
  | S fuel =>
      done ← match Groups cfg !! shard_gid cfg key with
             | Some servers => put_to servers key value op
             | None => mret false
             end;
      if (done : bool) then mret (cfg, true)
      else
        _ ← sleep;
        q ← Query qfuel ctrlers (-1);
        match q with
        | Some cfg' => PutAppend fuel qfuel ctrlers cfg' key value op
        | None => mret (cfg, false)
        end
  end.

Definition Put (fuel qfuel : nat) (ctrlers : list string) (cfg : Config) (key value : string) : M (Config * bool) :=
  PutAppend fuel qfuel ctrlers cfg key value "Put".

Definition Append (fuel qfuel : nat) (ctrlers : list string) (cfg : Config) (key value : string) : M (Config * bool) :=
  PutAppend fuel qfuel ctrlers cfg key value "Append".
End clerks.

(** ** Names: src/src/shardkv/config.go *)

Definition ctrlername (i : nat) : string := "ctrler" +:+ Itoa (Z.of_nat i).

Definition servername (gid : Z) (i : nat) : string := "server-" +:+ Itoa gid +:+ "-" +:+ Itoa (Z.of_nat i).
