(* ===== verification/ClerksFacts.v ===== *)
(** * Facts about the clerks *)

From S2P Require Import Prelude GoLib Clerks.

Set Default Proof Using "Type".

Section clerks.
Variable env : Hist -> string -> forall r : Req, option (reply_of r).
Implicit Types (h : Hist) (servers ctrlers : list string) (cfg : Config) (key : string).

(** ** Histories *)

(** What a program adds to the history: calls of the request [r] to these servers,
    and sleeps. *)
Definition asks (servers : list string) (r : Req) (e : Ev) : Prop :=
  e = Slept \/ exists srv reply, srv ∈ servers /\ e = Called srv r reply.

(** The last event is an accepted reply. *)
Definition ends_with (servers : list string) (r : Req) (reply : reply_of r) (new : Hist) : Prop :=
  exists pre srv, new = pre ++ [Called srv r (Some reply)] /\ srv ∈ servers.

Lemma asks_mono servers servers' r e : servers ⊆ servers' -> asks servers r e -> asks servers' r e.
Proof. intros Hs [->|(srv & reply & Hin & ->)]; [by left|]. right. eauto. Qed.

Lemma ends_with_app servers servers' r (reply : reply_of r) h new :
  servers ⊆ servers' -> ends_with servers r reply new -> ends_with servers' r reply (h ++ new).
Proof. intros Hs (pre & srv & -> & Hin). exists (h ++ pre), srv. rewrite <- app_assoc. eauto. Qed.

Lemma try_servers_spec servers r accept h h' o :
  try_servers env servers r accept h = (h', o) ->
  exists new, h' = h ++ new /\ Forall (asks servers r) new /\ length new <= length servers /\
    match o with Some reply => accept reply = true /\ ends_with servers r reply new | None => True end.
Proof.
  revert h. induction servers as [|srv servers IH]; intros h; simpl.
  { intros [= <- <-]. exists []. by rewrite app_nil_r. }
  unfold mbind, M_bind, call.
  assert (Hev : asks (srv :: servers) r (Called srv r (env h srv r))) by (right; eexists _, _; split; [by left|done]).
  assert (Hrec : try_servers env servers r accept (h ++ [Called srv r (env h srv r)]) = (h', o) ->
    exists new, h' = h ++ new /\ Forall (asks (srv :: servers) r) new /\ length new <= S (length servers) /\
      match o with Some reply => accept reply = true /\ ends_with (srv :: servers) r reply new | None => True end).
  { intros (new & -> & Hf & Hl & Ho)%IH. exists (Called srv r (env h srv r) :: new). rewrite <- app_assoc. split; [done|].
    split_and!; [constructor; [done|]; eapply Forall_impl; [exact Hf|]; intros e; apply asks_mono; set_solver|simpl; lia|].
    destruct o as [reply|]; [|done]. destruct Ho as [Ha He]. split; [done|].
    apply (ends_with_app servers (srv :: servers) r reply [Called srv r (env h srv r)]); [set_solver|done]. }
  destruct (env h srv r) as [reply|] eqn:Henv; [|done]. destruct (accept reply) eqn:Hacc; [|done].
  intros [= <- <-]. exists [Called srv r (Some reply)]. split_and!; [done| |simpl; lia|done|].
  - constructor; [done|constructor].
  - exists [], srv. split; [done|]. by left.
Qed.

Lemma until_accepted_spec fuel servers r accept h h' o :
  until_accepted env fuel servers r accept h = (h', o) ->
  exists new, h' = h ++ new /\ Forall (asks servers r) new /\
    match o with Some reply => accept reply = true /\ ends_with servers r reply new | None => fuel <= length new end.
Proof.
  revert h. induction fuel as [|fuel IH]; intros h; simpl.
  { intros [= <- <-]. exists []. rewrite app_nil_r. split_and!; [done|done|simpl; lia]. }
  unfold mbind, M_bind. destruct (try_servers env servers r accept h) as [h1 got] eqn:Htry.
  apply try_servers_spec in Htry as (new & -> & Hf & _ & Ho). destruct got as [reply|].
  { intros [= <- <-]. eauto. }
  simpl. intros (new' & -> & Hf' & Ho')%IH. exists (new ++ Slept :: new'). rewrite <- !app_assoc; simpl. split; [done|].
  split.
  - apply Forall_app_2; [done|]. constructor; [by left|done].
  - destruct o as [reply|]; [|rewrite length_app; simpl; lia]. destruct Ho' as [Ha He]. split; [done|].
    change (Slept :: new') with ([Slept] ++ new'). rewrite app_assoc. by eapply ends_with_app.
Qed.

(** [Query] returns what a controller that leads answered. *)
Lemma Query_spec fuel ctrlers num h h' o :
  Query env fuel ctrlers num h = (h', o) ->
  exists new, h' = h ++ new /\ Forall (asks ctrlers (RQuery num)) new /\
    match o with
    | Some cfg => ends_with ctrlers (RQuery num) (mkQueryReply false cfg) new
    | None => fuel <= length new
    end.
Proof.
  unfold Query, mbind, M_bind. destruct (until_accepted _ _ _ _ _ _) as [h1 got] eqn:Hu.
  apply until_accepted_spec in Hu as (new & -> & Hf & Ho). intros [= <- <-]. exists new. split_and!; [done|done|].
  destruct got as [[wl c]|]; [|done]. simpl in *. destruct Ho as [Hw He]. by destruct wl.
Qed.

(** *** The loops over the servers of a group *)

Lemma get_from_spec servers key h h' o :
  get_from env servers key h = (h', o) ->
  exists new, h' = h ++ new /\ Forall (asks servers (RGet key)) new /\
    match o with
    | Some v => exists e, (e = OK \/ e = ErrNoKey) /\ ends_with servers (RGet key) (mkGetReply e v) new
    | None => True
    end.
Proof.
  revert h. induction servers as [|srv servers IH]; intros h; simpl.
  { intros [= <- <-]. exists []. by rewrite app_nil_r. }
  unfold mbind, M_bind, call.
  assert (Hev : forall a, Forall (asks (srv :: servers) (RGet key)) [Called srv (RGet key) a])
    by (intros a; constructor; [|constructor]; right; eexists _, _; split; [by left|done]).
  assert (Hrec : get_from env servers key (h ++ [Called srv (RGet key) (env h srv (RGet key))]) = (h', o) ->
    exists new, h' = h ++ new /\ Forall (asks (srv :: servers) (RGet key)) new /\
      match o with
      | Some v => exists e, (e = OK \/ e = ErrNoKey) /\ ends_with (srv :: servers) (RGet key) (mkGetReply e v) new
      | None => True
      end).
  { intros (new & -> & Hf & Ho)%IH. eexists ([_] ++ new). rewrite <- app_assoc. split; [done|]. split.
    - apply Forall_app_2; [done|]. eapply Forall_impl; [exact Hf|]. intros e. apply asks_mono. set_solver.
    - destruct o as [v|]; [|done]. destruct Ho as (e & He & Hend). exists e. split; [done|].
      eapply ends_with_app; [|done]. set_solver. }
  destruct (env h srv (RGet key)) as [[e v]|] eqn:Henv; [|done]. simpl. case_decide as Hok.
  - intros [= <- <-]. eexists [_]. split_and!; [done|done|]. exists e. split; [done|]. exists [], srv. split; [done|by left].
  - case_decide as Hwg; [|done]. intros [= <- <-]. by eexists [_].
Qed.

Lemma put_to_spec servers key value op h h' b :
  put_to env servers key value op h = (h', b) ->
  exists new, h' = h ++ new /\ Forall (asks servers (RPutAppend key value op)) new /\
    (b = true -> ends_with servers (RPutAppend key value op) OK new).
Proof.
  revert h. induction servers as [|srv servers IH]; intros h; simpl.
  { intros [= <- <-]. exists []. by rewrite app_nil_r. }
  unfold mbind, M_bind, call. set (r := RPutAppend key value op) in *.
  assert (Hev : forall a, Forall (asks (srv :: servers) r) [Called srv r a])
    by (intros a; constructor; [|constructor]; right; eexists _, _; split; [by left|done]).
  assert (Hrec : put_to env servers key value op (h ++ [Called srv r (env h srv r)]) = (h', b) ->
    exists new, h' = h ++ new /\ Forall (asks (srv :: servers) r) new /\ (b = true -> ends_with (srv :: servers) r OK new)).
  { intros (new & -> & Hf & Ho)%IH. eexists ([_] ++ new). rewrite <- app_assoc. split; [done|]. split.
    - apply Forall_app_2; [done|]. eapply Forall_impl; [exact Hf|]. intros e. apply asks_mono. set_solver.
    - intros Hb. eapply ends_with_app; [|by apply Ho]. set_solver. }
  destruct (env h srv r) as [e|] eqn:Henv; [|done]. case_decide as Hok.
  - intros [= <- <-]. eexists [_]. split_and!; [done|done|]. intros _. exists [], srv. rewrite Hok. split; [done|by left].
  - case_decide as Hwg; [|done]. intros [= <- <-]. by eexists [_].
Qed.

(** ** What Get and PutAppend return *)

(** The configuration is the one the clerk had, or came from a controller that claims to
    lead. *)
Definition obtained (ctrlers : list string) (cfg cfg' : Config) (new : Hist) : Prop :=
  cfg' = cfg \/ exists c, c ∈ ctrlers /\ Called c (RQuery (-1)) (Some (mkQueryReply false cfg')) ∈ new.

Lemma obtained_query ctrlers cfg cfg1 cfg' new mid later :
  ends_with ctrlers (RQuery (-1)) (mkQueryReply false cfg1) mid -> obtained ctrlers cfg1 cfg' later ->
  obtained ctrlers cfg cfg' (new ++ Slept :: mid ++ later).
Proof.
  clear env. intros (pre & srv & -> & Hin) [->|(c & Hc & He)]; right.
  - exists srv. split; [done|]. set_solver.
  - exists c. split; [done|]. set_solver.
Qed.

(** The value of [Get] is the last reply, of a server of the group that the clerk's
    configuration gives for the key. *)
Lemma Get_spec fuel qfuel ctrlers cfg key h h' cfg' v :
  Get env fuel qfuel ctrlers cfg key h = (h', (cfg', Some v)) ->
  exists new servers e, h' = h ++ new /\ Groups cfg' !! shard_gid cfg' key = Some servers /\
    (e = OK \/ e = ErrNoKey) /\ ends_with servers (RGet key) (mkGetReply e v) new /\ obtained ctrlers cfg cfg' new.
Proof.
  revert cfg h. induction fuel as [|fuel IH]; intros cfg h; simpl; [done|]. unfold mbind, M_bind.
  set (round := match Groups cfg !! shard_gid cfg key with Some s => get_from env s key | None => mret None end).
  destruct (round h) as [h1 got] eqn:Hround.
  assert (Hr : exists new, h1 = h ++ new /\ match got with
    | Some v => exists servers e, Groups cfg !! shard_gid cfg key = Some servers /\ (e = OK \/ e = ErrNoKey) /\
        ends_with servers (RGet key) (mkGetReply e v) new
    | None => True end).
  { unfold round in Hround. destruct (Groups cfg !! shard_gid cfg key) as [servers|] eqn:Hg.
    - apply get_from_spec in Hround as (new & -> & _ & Ho). exists new. split; [done|].
      destruct got; [|done]. destruct Ho as (e & He & Hend). eauto.
    - injection Hround as <- <-. exists []. by rewrite app_nil_r. }
  destruct Hr as (new & -> & Hgot). destruct got as [v'|].
  { intros [= <- <- <-]. destruct Hgot as (servers & e & Hg & He & Hend). exists new, servers, e. split_and!; try done. by left. }
  simpl. destruct (Query env qfuel ctrlers (-1) ((h ++ new) ++ [Slept])) as [h2 q] eqn:Hq.
  apply Query_spec in Hq as (mid & -> & _ & Hq). destruct q as [cfg1|]; [|done].
  intros (later & servers & e & -> & Hg & He & Hend & Hobt)%IH.
  exists (new ++ Slept :: mid ++ later), servers, e. split_and!; [|done|done| |by eapply obtained_query].
  - rewrite <- !app_assoc. simpl. done.
  - replace (new ++ Slept :: mid ++ later) with ((new ++ Slept :: mid) ++ later) by (rewrite <- app_assoc; done).
    by eapply ends_with_app.
Qed.

(** [PutAppend] returns after a server of that group replied OK. *)
Lemma PutAppend_spec fuel qfuel ctrlers cfg key value op h h' cfg' :
  PutAppend env fuel qfuel ctrlers cfg key value op h = (h', (cfg', true)) ->
  exists new servers, h' = h ++ new /\ Groups cfg' !! shard_gid cfg' key = Some servers /\
    ends_with servers (RPutAppend key value op) OK new /\ obtained ctrlers cfg cfg' new.
Proof.
  revert cfg h. induction fuel as [|fuel IH]; intros cfg h; simpl; [done|]. unfold mbind, M_bind.
  set (round := match Groups cfg !! shard_gid cfg key with Some s => put_to env s key value op | None => mret false end).
  destruct (round h) as [h1 got] eqn:Hround.
  assert (Hr : exists new, h1 = h ++ new /\ (got = true -> exists servers, Groups cfg !! shard_gid cfg key = Some servers /\
    ends_with servers (RPutAppend key value op) OK new)).
  { unfold round in Hround. destruct (Groups cfg !! shard_gid cfg key) as [servers|] eqn:Hg.
    - apply put_to_spec in Hround as (new & -> & _ & Ho). exists new. split; [done|]. eauto.
    - injection Hround as <- <-. exists []. by rewrite app_nil_r. }
  destruct Hr as (new & -> & Hgot). destruct got.
  { intros [= <- <-]. destruct Hgot as (servers & Hg & Hend); [done|]. exists new, servers. split_and!; try done. by left. }
  simpl. destruct (Query env qfuel ctrlers (-1) ((h ++ new) ++ [Slept])) as [h2 q] eqn:Hq.
  apply Query_spec in Hq as (mid & -> & _ & Hq). destruct q as [cfg1|]; [|done].
  intros (later & servers & -> & Hg & Hend & Hobt)%IH.
  exists (new ++ Slept :: mid ++ later), servers. split_and!; [|done| |by eapply obtained_query].
  - rewrite <- !app_assoc. simpl. done.
  - replace (new ++ Slept :: mid ++ later) with ((new ++ Slept :: mid) ++ later) by (rewrite <- app_assoc; done).
    by eapply ends_with_app.
Qed.

(** ** Get ends once the system settles *)

(** From [N] events on, the controllers answer queries with [cfg] and the servers of
    the key's group in [cfg] answer; there is at least one of each. *)
Record settled (N : nat) (ctrlers : list string) (cfg : Config) (key : string) : Prop := {
  se_ctrlers : ctrlers <> [];
  se_group : exists servers, Groups cfg !! shard_gid cfg key = Some servers /\ servers <> [] /\
    forall h srv, N <= length h -> srv ∈ servers ->
      exists e v, env h srv (RGet key) = Some (mkGetReply e v) /\ (e = OK \/ e = ErrNoKey);
  se_query h c : N <= length h -> c ∈ ctrlers -> env h c (RQuery (-1)) = Some (mkQueryReply false cfg);
}.

Lemma until_accepted_fuel fuel servers r accept h :
  (forall h' , fuel + length h <= length h' -> exists reply, (try_servers env servers r accept h').2 = Some reply) ->
  exists reply, (until_accepted env (S fuel) servers r accept h).2 = Some reply.
Proof.
  revert h. induction fuel as [|fuel IH]; intros h Hgood.
  - cbn [until_accepted]. unfold mbind, M_bind. destruct (Hgood h) as [reply Hr]; [lia|].
    destruct (try_servers env servers r accept h) as [h1 got]. simpl in Hr. subst got. by exists reply.
  - change (until_accepted env (S (S fuel)) servers r accept h) with
      ((got ← try_servers env servers r accept;
        match got with Some reply => mret (Some reply) | None => _ ← sleep; until_accepted env (S fuel) servers r accept end) h).
    unfold mbind, M_bind. destruct (try_servers env servers r accept h) as [h1 got] eqn:Htry.
    destruct got as [reply|]; [by exists reply|]. apply try_servers_spec in Htry as (new & -> & _ & _). simpl.
    apply IH. intros h' Hl. apply Hgood. rewrite !length_app in Hl. simpl in Hl. lia.
Qed.

(** The controllers answer queries with [cfg] from [N] events on. *)
Definition ctrlers_settled (N : nat) (ctrlers : list string) (cfg : Config) : Prop :=
  ctrlers <> [] /\ forall h c, N <= length h -> c ∈ ctrlers -> env h c (RQuery (-1)) = Some (mkQueryReply false cfg).

(** A query with enough fuel returns, and after the controllers have settled it returns
    their configuration. *)
Lemma Query_settled N ctrlers cfg fuel h :
  ctrlers_settled N ctrlers cfg -> N < fuel ->
  exists c, (Query env fuel ctrlers (-1) h).2 = Some c /\ (N <= length h -> c = cfg).
Proof.
  intros [Hne Hq] Hfuel. destruct fuel as [|fuel]; [lia|].
  assert (Htry : forall h', N <= length h' ->
    try_servers env ctrlers (RQuery (-1)) (fun reply => negb (qr_WrongLeader reply)) h' =
    (h' ++ [Called (default "" (head ctrlers)) (RQuery (-1)) (Some (mkQueryReply false cfg))], Some (mkQueryReply false cfg))).
  { intros h' Hl. destruct ctrlers as [|c cs]; [done|]. simpl. unfold mbind, M_bind, call.
    rewrite (Hq h' c Hl) by (by left). done. }
  destruct (until_accepted_fuel fuel ctrlers (RQuery (-1)) (fun reply => negb (qr_WrongLeader reply)) h) as [reply Hr].
  { intros h' Hl. rewrite Htry by lia. by eexists. }
  exists (qr_Config reply). unfold Query. unfold mbind at 1, M_bind at 1.
  destruct (until_accepted env (S fuel) ctrlers (RQuery (-1)) _ h) as [h1 got] eqn:Hu. simpl in Hr. subst got. split; [done|].
  intros Hl. cbn [until_accepted] in Hu. unfold mbind, M_bind in Hu. rewrite Htry in Hu by done.
  injection Hu as <- <-. done.
Qed.

Lemma get_from_settled N ctrlers cfg key h :
  settled N ctrlers cfg key -> N <= length h ->
  exists servers v, Groups cfg !! shard_gid cfg key = Some servers /\ (get_from env servers key h).2 = Some v.
Proof.
  intros [_ (servers & Hg & Hne & Hans) _] Hl. exists servers. destruct servers as [|srv servers]; [done|].
  destruct (Hans h srv Hl) as (e & v & He & Hok); [by left|]. exists v. split; [done|].
  simpl. unfold mbind, M_bind, call. rewrite He. simpl. by rewrite decide_True.
Qed.

(** Once the clerk has the settled configuration, the next round ends. *)
Lemma Get_last N ctrlers cfg key fuel qfuel h :
  settled N ctrlers cfg key -> N <= length h -> exists v, (Get env (S fuel) qfuel ctrlers cfg key h).2.2 = Some v.
Proof.
  intros Hs Hl. destruct (get_from_settled N ctrlers cfg key h Hs Hl) as (servers & v & Hg & Hv). exists v. cbn [Get].
  rewrite Hg. unfold mbind, M_bind. destruct (get_from env servers key h) as [h1 got]. simpl in Hv. by subst got.
Qed.

(** With a system that settles after [N] events, [Get] returns a value within [N + 2]
    rounds, whatever configuration the clerk had and whatever the servers answer
    before. *)
Lemma Get_returns N ctrlers cfg0 cfg key h :
  settled N ctrlers cfg key ->
  exists v, (Get env (N + 2) (S N) ctrlers cfg0 key h).2.2 = Some v.
Proof.
  intros Hs. assert (Hgen : forall k cfg0 h, N <= k + length h ->
    exists v, (Get env (k + 2) (S N) ctrlers cfg0 key h).2.2 = Some v); [|apply Hgen; lia].
  clear h cfg0. induction k as [|k IH]; intros cfg0 h Hk; simpl; unfold mbind, M_bind.
  all: set (round := match Groups cfg0 !! shard_gid cfg0 key with Some s => get_from env s key | None => mret None end).
  all: assert (Hpre : exists new got, round h = (h ++ new, got)).
  1, 3: unfold round; destruct (Groups cfg0 !! _) as [s|];
    [destruct (get_from env s key h) as [h1 got] eqn:Hg; apply get_from_spec in Hg as (new & -> & _); eauto
    |exists [], None; by rewrite app_nil_r].
  all: destruct Hpre as (new & got & ->); destruct got as [v|]; [by exists v|]; simpl.
  all: destruct (Query_settled N ctrlers cfg (S N) ((h ++ new) ++ [Slept]) (conj (se_ctrlers _ _ _ _ Hs) (se_query _ _ _ _ Hs))) as (c & Hc & Hcfg); [lia|].
  all: destruct (Query env (S N) ctrlers (-1) ((h ++ new) ++ [Slept])) as [h2 q] eqn:Hq; simpl in Hc; subst q.
  all: apply Query_spec in Hq as (mid & -> & _).
  - rewrite Hcfg by (rewrite !length_app; lia). eapply (Get_last N _ _ _ 0); [done|]. rewrite !length_app. lia.
  - apply IH. rewrite !length_app; simpl. lia.
Qed.

(** ** PutAppend ends once the system settles *)

(** As [settled], with servers that accept the change. *)
Record put_settled (N : nat) (ctrlers : list string) (cfg : Config) (key value op : string) : Prop := {
  ps_ctrlers : ctrlers_settled N ctrlers cfg;
  ps_group : exists servers, Groups cfg !! shard_gid cfg key = Some servers /\ servers <> [] /\
    forall h srv, N <= length h -> srv ∈ servers -> env h srv (RPutAppend key value op) = Some OK;
}.

Lemma PutAppend_last N ctrlers cfg key value op fuel qfuel h :
  put_settled N ctrlers cfg key value op -> N <= length h ->
  (PutAppend env (S fuel) qfuel ctrlers cfg key value op h).2.2 = true.
Proof.
  intros [_ (servers & Hg & Hne & Hans)] Hl. cbn [PutAppend]. rewrite Hg. destruct servers as [|srv servers]; [done|].
  cbn [put_to]. unfold mbind, M_bind, call. rewrite (Hans h srv Hl) by (by left). by rewrite decide_True.
Qed.

Lemma PutAppend_returns N ctrlers cfg0 cfg key value op h :
  put_settled N ctrlers cfg key value op -> (PutAppend env (N + 2) (S N) ctrlers cfg0 key value op h).2.2 = true.
Proof.
  intros Hs. enough (Hgen : forall k cfg0 h, N <= k + length h ->
    (PutAppend env (k + 2) (S N) ctrlers cfg0 key value op h).2.2 = true) by (apply Hgen; lia).
  clear h cfg0. induction k as [|k IH]; intros cfg0 h Hk; simpl; unfold mbind, M_bind.
  all: set (round := match Groups cfg0 !! shard_gid cfg0 key with Some s => put_to env s key value op | None => mret false end).
  all: assert (Hpre : exists new got, round h = (h ++ new, got)).
  1, 3: unfold round; destruct (Groups cfg0 !! _) as [s|];
    [destruct (put_to env s key value op h) as [h1 got] eqn:Hg; apply put_to_spec in Hg as (new & -> & _); eauto
    |exists [], false; by rewrite app_nil_r].
  all: destruct Hpre as (new & got & ->); destruct got; [done|]; simpl.
  all: destruct (Query_settled N ctrlers cfg (S N) ((h ++ new) ++ [Slept]) (ps_ctrlers _ _ _ _ _ _ Hs)) as (c & Hc & Hcfg); [lia|].
  all: destruct (Query env (S N) ctrlers (-1) ((h ++ new) ++ [Slept])) as [h2 q] eqn:Hq; simpl in Hc; subst q.
  all: apply Query_spec in Hq as (mid & -> & _).
  - rewrite Hcfg by (rewrite !length_app; lia). eapply (PutAppend_last N _ _ _ _ _ 0); [done|]. rewrite !length_app. lia.
  - apply IH. rewrite !length_app; simpl. lia.
Qed.

(** ** Fuel *)

(** More fuel does not change what was returned: the result is that of the loops without
    bound. *)
Lemma until_accepted_mono fuel fuel' servers r accept h h' reply :
  fuel <= fuel' -> until_accepted env fuel servers r accept h = (h', Some reply) ->
  until_accepted env fuel' servers r accept h = (h', Some reply).
Proof.
  revert fuel' h. induction fuel as [|fuel IH]; intros [|fuel'] h Hle; simpl; [done|done|lia|].
  unfold mbind, M_bind. destruct (try_servers env servers r accept h) as [h1 [got|]]; [done|]. simpl. apply IH. lia.
Qed.

Lemma Query_mono fuel fuel' ctrlers num h h' cfg :
  fuel <= fuel' -> Query env fuel ctrlers num h = (h', Some cfg) -> Query env fuel' ctrlers num h = (h', Some cfg).
Proof.
  unfold Query, mbind, M_bind. intros Hle. destruct (until_accepted env fuel ctrlers _ _ h) as [h1 [reply|]] eqn:Hu; [|done].
  by rewrite (until_accepted_mono _ _ _ _ _ _ _ _ Hle Hu).
Qed.

Lemma Get_mono fuel fuel' qfuel qfuel' ctrlers cfg key h h' cfg' v :
  fuel <= fuel' -> qfuel <= qfuel' -> Get env fuel qfuel ctrlers cfg key h = (h', (cfg', Some v)) ->
  Get env fuel' qfuel' ctrlers cfg key h = (h', (cfg', Some v)).
Proof.
  intros Hle Hq. revert fuel' cfg h Hle. induction fuel as [|fuel IH]; intros [|fuel'] cfg h Hle; simpl; [done|done|lia|].
  unfold mbind, M_bind.
  set (round := match Groups cfg !! shard_gid cfg key with Some s => get_from env s key | None => mret None end).
  destruct (round h) as [h1 [got|]]; [done|]. simpl.
  destruct (Query env qfuel ctrlers (-1) (h1 ++ [Slept])) as [h2 [c|]] eqn:Hqu; [|done].
  rewrite (Query_mono _ _ _ _ _ _ _ Hq Hqu). apply IH. lia.
Qed.

Lemma PutAppend_mono fuel fuel' qfuel qfuel' ctrlers cfg key value op h h' cfg' :
  fuel <= fuel' -> qfuel <= qfuel' -> PutAppend env fuel qfuel ctrlers cfg key value op h = (h', (cfg', true)) ->
  PutAppend env fuel' qfuel' ctrlers cfg key value op h = (h', (cfg', true)).
Proof.
  intros Hle Hq. revert fuel' cfg h Hle. induction fuel as [|fuel IH]; intros [|fuel'] cfg h Hle; simpl; [done|done|lia|].
  unfold mbind, M_bind.
  set (round := match Groups cfg !! shard_gid cfg key with Some s => put_to env s key value op | None => mret false end).
  destruct (round h) as [h1 []]; [done|]. simpl.
  destruct (Query env qfuel ctrlers (-1) (h1 ++ [Slept])) as [h2 [c|]] eqn:Hqu; [|done].
  rewrite (Query_mono _ _ _ _ _ _ _ Hq Hqu). apply IH. lia.
Qed.

(** In a system that settles the loops return, with one result for all fuel from some on. *)
Lemma Get_total N ctrlers cfg0 cfg key h :
  settled N ctrlers cfg key -> exists h' cfg' v, forall fuel qfuel, N + 2 <= fuel -> S N <= qfuel ->
    Get env fuel qfuel ctrlers cfg0 key h = (h', (cfg', Some v)).
Proof.
  intros Hs. destruct (Get_returns N ctrlers cfg0 cfg key h Hs) as [v Hv].
  destruct (Get env (N + 2) (S N) ctrlers cfg0 key h) as [h' [cfg' o]] eqn:Hg. simpl in Hv. subst o.
  exists h', cfg', v. intros fuel qfuel Hf Hq. by eapply Get_mono.
Qed.

Lemma PutAppend_total N ctrlers cfg0 cfg key value op h :
  put_settled N ctrlers cfg key value op -> exists h' cfg', forall fuel qfuel, N + 2 <= fuel -> S N <= qfuel ->
    PutAppend env fuel qfuel ctrlers cfg0 key value op h = (h', (cfg', true)).
Proof.
  intros Hs. pose proof (PutAppend_returns N ctrlers cfg0 cfg key value op h Hs) as Hv.
  destruct (PutAppend env (N + 2) (S N) ctrlers cfg0 key value op h) as [h' [cfg' o]] eqn:Hg. simpl in Hv. subst o.
  exists h', cfg'. intros fuel qfuel Hf Hq. by eapply PutAppend_mono.
Qed.
End clerks.
