(* ===== verification/CtrlConfig.v ===== *)
(** * The shard controller's tests: src/src/shardctrler

    The skeleton of the controller (server.go), its clerk's constructor (client.go) and
    the configuration of its tests (config.go) as an instance of [ServiceConfig]. The
    definitions below name the functions of that file; the ones it shares with
    src/src/kvraft/config.go are the shared definitions at the controller's types. *)

From S2P Require Import Prelude GoLib Labrpc Persister TestNet RaftConfig SavedState ServiceConfig Clerks.

(** ** The controller: src/src/shardctrler/server.go *)

Record ShardCtrler := mkShardCtrler { sc_me : nat; sc_rf : Raft; sc_configs : list Clerks.Config }.

(** [StartServer]: [configs] holds the initial configuration, without groups. *)
Definition StartCtrler (servers : list string) (me persister : nat) : ShardCtrler :=
  mkShardCtrler me (Make servers me persister) [initial_config].

Definition sc_Kill (sc : ShardCtrler) : ShardCtrler := mkShardCtrler (sc_me sc) (Kill (sc_rf sc)) (sc_configs sc).

Definition sc_Raft (sc : ShardCtrler) : Raft := sc_rf sc.

(** ** The clerk's constructor *)

Record CtrlClerk := mkCtrlClerk { cck_servers : list string }.

Definition MakeCtrlClerk (servers : list string) : CtrlClerk := mkCtrlClerk servers.

#[export] Instance ctrl_service : Service unit ShardCtrler CtrlClerk := {|
  svc_name := "ShardCtrler";
  svc_start := fun _ servers me persister => StartCtrler servers me persister;
  svc_Kill := sc_Kill;
  svc_rf := sc_rf;
  svc_MakeClerk := MakeCtrlClerk;
|}.

#[export] Instance ctrl_service_laws : ServiceLaws unit ShardCtrler CtrlClerk.
Proof. done. Qed.

(** ** The configuration: src/src/shardctrler/config.go *)

Section config.
Context {Handler : Type} (methods raft_methods : nat -> list (Method Handler)).

Definition ctrl_random_handles : (nat -> nat) -> list string -> option (list string) := ServiceConfig.random_handles.
Definition ctrl_checkTimeout : bool -> Z -> bool := ServiceConfig.checkTimeout.
Definition ctrl_All : nat -> list nat := ServiceConfig.All.

Definition CtrlConf : Type := Conf unit ShardCtrler Handler.

Definition ctrl_connect : nat -> list nat -> CtrlConf -> option CtrlConf := ServiceConfig.connect.
Definition ctrl_disconnect : nat -> list nat -> CtrlConf -> option CtrlConf := ServiceConfig.disconnect.
Definition ctrl_ConnectAll : CtrlConf -> option CtrlConf := ServiceConfig.ConnectAll.
Definition ctrl_partition : list nat -> list nat -> CtrlConf -> option CtrlConf := ServiceConfig.partition.

Definition ctrl_makeClient (ck : nat) (names : nat -> string) (rand : nat -> nat) (to : list nat)
    : CtrlConf -> option (CtrlConf * CtrlClerk) := ServiceConfig.makeClient ck names rand to.
Definition ctrl_deleteClient : nat -> CtrlConf -> CtrlConf := ServiceConfig.deleteClient.
Definition ctrl_ConnectClient : nat -> list nat -> CtrlConf -> option CtrlConf := ServiceConfig.ConnectClient.
Definition ctrl_DisconnectClient : nat -> list nat -> CtrlConf -> option CtrlConf := ServiceConfig.DisconnectClient.

Definition ctrl_ShutdownServer : nat -> CtrlConf -> option CtrlConf := ServiceConfig.ShutdownServer.
Definition ctrl_StartServer (i : nat) (names : nat -> string) : CtrlConf -> option CtrlConf :=
  ServiceConfig.StartServer methods raft_methods i names.
Definition ctrl_cleanup : CtrlConf -> option CtrlConf := ServiceConfig.cleanup.
Definition ctrl_LogSize : CtrlConf -> option nat := ServiceConfig.LogSize.

Definition ctrl_make_config (n : nat) (unreliable : bool) (names : nat -> nat -> string) : option CtrlConf :=
  ServiceConfig.make_config methods raft_methods n unreliable tt names.

(** [Leader], with what [GetState] says of an instance; servers that are down are
    passed over. *)
Fixpoint ctrl_Leader_from (getState : Raft -> Z * bool) (c : CtrlConf) (js : list nat) : option (bool * nat) :=
  match js with
  | [] => Some (false, 0)
  | i :: js =>
      s ← cg_servers c !! i;
      match s with
      | None => ctrl_Leader_from getState c js
      | Some a =>
          sc ← cg_instances c !! a;
          if (getState (sc_rf sc)).2 then Some (true, i) else ctrl_Leader_from getState c js
      end
  end.

Definition ctrl_Leader (getState : Raft -> Z * bool) (c : CtrlConf) : option (bool * nat) :=
  ctrl_Leader_from getState c (seq 0 (cg_n c)).

Definition ctrl_make_partition (getState : Raft -> Z * bool) (c : CtrlConf) : option (list nat * list nat) :=
  '(_, l) ← ctrl_Leader getState c; make_partition (cg_n c) l.
End config.
