(* ===== verification/ShardConfig.v ===== *)
(** * The configuration of the sharded key/value tests: src/src/shardkv/config.go

    Three controllers and three groups of servers on one network. Servers are named by
    strings here. The servers are the skeleton of src/src/shardkv/server.go. As in the
    other configurations a function is one step and [None] is a panic. *)

From S2P Require Import Prelude GoLib Labrpc Persister TestNet RaftConfig SavedState ServiceConfig Clerks CtrlConfig.

(** ** The server: src/src/shardkv/server.go *)

(** Without the closure [make_end], whose body is below. *)
Record ShardKV := mkShardKV {
  skv_me : nat;
  skv_rf : Raft;
  skv_gid : Z;
  skv_ctrlers : list string;
  skv_maxraftstate : Z;
}.

Definition StartShardKV (servers : list string) (me persister : nat) (maxraftstate gid : Z) (ctrlers : list string)
    : ShardKV := mkShardKV me (Make servers me persister) gid ctrlers maxraftstate.

Definition skv_Kill (kv : ShardKV) : ShardKV :=
  mkShardKV (skv_me kv) (Kill (skv_rf kv)) (skv_gid kv) (skv_ctrlers kv) (skv_maxraftstate kv).

(** ** The clerk: src/src/shardkv/client.go *)

(** Without the closure [make_end]. *)
Record ShardClerk := mkShardClerk { sck_sm : CtrlClerk; sck_config : Clerks.Config }.

(** [MakeClerk]: the nil map of the zero configuration reads like an empty one. *)
Definition MakeShardClerk (ctrlers : list string) : ShardClerk := mkShardClerk (MakeCtrlClerk ctrlers) initial_config.

(** ** Ends *)

(** Fresh ends to the servers [target 0], ..., all enabled. *)
Fixpoint make_enabled (names target : nat -> string) (js : list nat) (rn : Net) : option Net :=
  match js with
  | [] => Some rn
  | j :: js =>
      rn ← MakeEnd (inl (names j)) rn;
      make_enabled names target js (Enable (inl (names j)) true (Connect (inl (names j)) (inl (target j)) rn))
  end.

(** The body of [make_end], the closure that clerks and servers get. *)
Definition make_end (name srv : string) (rn : Net) : option Net :=
  rn ← MakeEnd (inl name) rn;
  Some (Enable (inl name) true (Connect (inl name) (inl srv) rn)).

Record group := mkGroup {
  g_gid : Z;
  g_servers : list (option nat);
  g_saved : list (option nat);
  g_endnames : EndTable;
  g_mendnames : EndTable;
}.

Section config.
Context {Handler : Type}.
(** What reflection finds on the key/value server and the controller at an index, and
    on the Raft instance of the one or the other. *)
Context (kv_methods ctrler_methods : nat -> list (Method Handler)) (raft_methods : nat + nat -> list (Method Handler)).

(** [sh_kvs] and [sh_ctls] are all the key/value servers and controllers ever made; a
    server is an index. [sh_mck] has the ends of the controller's clerk. *)
Record ShConf := mkShConf {
  sh_n : nat;
  sh_nctrlers : nat;
  sh_net : Net;
  sh_servers : list (Server Handler);
  sh_kvs : list ShardKV;
  sh_ctls : list ShardCtrler;
  sh_world : World;
  sh_ctrlers : list (option nat);
  sh_mck : CtrlClerk;
  sh_groups : list group;
  sh_clerks : gmap nat (list string);
  sh_nextClientId : nat;
  sh_maxraftstate : Z;
}.

Definition set_sh_net (rn : Net) (c : ShConf) : ShConf :=
  mkShConf (sh_n c) (sh_nctrlers c) rn (sh_servers c) (sh_kvs c) (sh_ctls c) (sh_world c) (sh_ctrlers c) (sh_mck c) (sh_groups c)
    (sh_clerks c) (sh_nextClientId c) (sh_maxraftstate c).

Definition set_group (gi : nat) (g : group) (w : World) (kvs : list ShardKV) (c : ShConf) : ShConf :=
  mkShConf (sh_n c) (sh_nctrlers c) (sh_net c) (sh_servers c) kvs (sh_ctls c) w (sh_ctrlers c) (sh_mck c) (<[gi := g]> (sh_groups c))
    (sh_clerks c) (sh_nextClientId c) (sh_maxraftstate c).

Definition set_mck (mck : CtrlClerk) (c : ShConf) : ShConf :=
  mkShConf (sh_n c) (sh_nctrlers c) (sh_net c) (sh_servers c) (sh_kvs c) (sh_ctls c) (sh_world c) (sh_ctrlers c) mck
    (sh_groups c) (sh_clerks c) (sh_nextClientId c) (sh_maxraftstate c).

(** ** Clerks *)

(** [makeClient]: the names go in a slice of length [cfg.n], at the indices of the
    controllers. *)
Definition makeClient (ck : nat) (names : nat -> string) (c : ShConf) : option (ShConf * ShardClerk) :=
  if decide (sh_nctrlers c <= sh_n c) then
    rn ← make_enabled names ctrlername (seq 0 (sh_nctrlers c)) (sh_net c);
    let endnames := (names <$> seq 0 (sh_nctrlers c)) ++ replicate (sh_n c - sh_nctrlers c) "" in
    Some (mkShConf (sh_n c) (sh_nctrlers c) rn (sh_servers c) (sh_kvs c) (sh_ctls c) (sh_world c) (sh_ctrlers c) (sh_mck c) (sh_groups c)
      (<[ck := endnames]> (sh_clerks c)) (S (sh_nextClientId c)) (sh_maxraftstate c),
      MakeShardClerk (names <$> seq 0 (sh_nctrlers c)))
  else None.

(** [deleteClient], without the removal of files named like the ends. *)
Definition deleteClient (ck : nat) (c : ShConf) : ShConf :=
  mkShConf (sh_n c) (sh_nctrlers c) (sh_net c) (sh_servers c) (sh_kvs c) (sh_ctls c) (sh_world c) (sh_ctrlers c) (sh_mck c)
    (sh_groups c) (delete ck (sh_clerks c)) (sh_nextClientId c) (sh_maxraftstate c).

(** [shardclerk] *)
Definition shardclerk (names : nat -> string) (c : ShConf) : option (ShConf * CtrlClerk) :=
  rn ← make_enabled names ctrlername (seq 0 (sh_nctrlers c)) (sh_net c);
  Some (set_sh_net rn c, MakeCtrlClerk (names <$> seq 0 (sh_nctrlers c))).

(** ** Servers *)

(** The persister a started server gets: a copy of the saved one, or a new one. *)
Definition group_persister (sv : option nat) (w : World) : option (World * nat) :=
  '(w', _) ← perform (match sv with Some p => OCopy p | None => OMake end) w;
  Some (w', length (persisters w)).

(** [StartServer(gi, i)]; [names] and [mnames] are the random strings. *)
Definition StartServer (gi i : nat) (names mnames : nat -> string) (c : ShConf) : option ShConf :=
  gg ← sh_groups c !! gi;
  _ ← g_endnames gg !! i;
  let row := names <$> seq 0 (sh_n c) in
  rn ← make_enabled names (servername (g_gid gg)) (seq 0 (sh_n c)) (sh_net c);
  _ ← g_mendnames gg !! i;
  let mrow := mnames <$> seq 0 (sh_nctrlers c) in
  rn ← make_enabled mnames ctrlername (seq 0 (sh_nctrlers c)) rn;
  sv ← g_saved gg !! i;
  '(w, p) ← group_persister sv (sh_world c);
  let a := length (sh_kvs c) in
  let srv := AddService (MakeService "Raft" (raft_methods (inl a)))
               (AddService (MakeService "ShardKV" (kv_methods a)) MakeServer) in
  let gg := mkGroup (g_gid gg) (<[i := Some a]> (g_servers gg)) (<[i := Some p]> (g_saved gg))
              (<[i := Some row]> (g_endnames gg)) (<[i := Some mrow]> (g_mendnames gg)) in
  let kv := StartShardKV row i p (sh_maxraftstate c) (g_gid gg) mrow in
  let c := set_group gi gg w (sh_kvs c ++ [kv]) c in
  Some (mkShConf (sh_n c) (sh_nctrlers c) (AddServer (inl (servername (g_gid gg) i)) (length (sh_servers c)) rn)
    (sh_servers c ++ [srv]) (sh_kvs c) (sh_ctls c) (sh_world c) (sh_ctrlers c) (sh_mck c) (sh_groups c) (sh_clerks c) (sh_nextClientId c)
    (sh_maxraftstate c)).

Definition row_end (t : EndTable) (i j : nat) : option (option string) := Some <$> end_of t i j.

(** [ShutdownServer(gi, i)]; the length of a nil row of [mendnames] is 0. *)
Definition ShutdownServer (gi i : nat) (c : ShConf) : option ShConf :=
  gg ← sh_groups c !! gi;
  rn ← enable_loop false (row_end (g_endnames gg) i) (seq 0 (length (g_servers gg))) (sh_net c);
  mrow ← g_mendnames gg !! i;
  rn ← enable_loop false (row_end (g_mendnames gg) i) (seq 0 (length (default [] mrow))) rn;
  let rn := DeleteServer (inl (servername (g_gid gg) i)) rn in
  sv ← g_saved gg !! i;
  '(w, saved) ← match sv with
                | Some p => '(w, q) ← group_persister (Some p) (sh_world c); Some (w, <[i := Some q]> (g_saved gg))
                | None => Some (sh_world c, g_saved gg)
                end;
  kv ← g_servers gg !! i;
  let kvs := match kv with Some a => alter skv_Kill a (sh_kvs c) | None => sh_kvs c end in
  Some (set_sh_net rn (set_group gi
    (mkGroup (g_gid gg) (<[i := None]> (g_servers gg)) saved (g_endnames gg) (g_mendnames gg)) w kvs c)).

Fixpoint for_group (f : nat -> ShConf -> option ShConf) (js : list nat) (c : ShConf) : option ShConf :=
  match js with
  | [] => Some c
  | i :: js => c ← f i c; for_group f js c
  end.

Definition ShutdownGroup (gi : nat) (c : ShConf) : option ShConf := for_group (ShutdownServer gi) (seq 0 (sh_n c)) c.

Definition StartGroup (gi : nat) (names mnames : nat -> nat -> string) (c : ShConf) : option ShConf :=
  for_group (fun i => StartServer gi i (names i) (mnames i)) (seq 0 (sh_n c)) c.

(** [StartCtrlerserver] *)
Definition StartCtrlerserver (i : nat) (names : nat -> string) (c : ShConf) : option ShConf :=
  rn ← make_enabled names ctrlername (seq 0 (sh_nctrlers c)) (sh_net c);
  '(w, _) ← perform OMake (sh_world c);
  _ ← sh_ctrlers c !! i;
  let p := length (persisters (sh_world c)) in
  let a := length (sh_ctls c) in
  let srv := AddService (MakeService "Raft" (raft_methods (inr a)))
               (AddService (MakeService "ShardCtrler" (ctrler_methods a)) MakeServer) in
  Some (mkShConf (sh_n c) (sh_nctrlers c) (AddServer (inl (ctrlername i)) (length (sh_servers c)) rn)
    (sh_servers c ++ [srv]) (sh_kvs c) (sh_ctls c ++ [StartCtrler (names <$> seq 0 (sh_nctrlers c)) i p]) w
    (<[i := Some a]> (sh_ctrlers c)) (sh_mck c) (sh_groups c) (sh_clerks c) (sh_nextClientId c) (sh_maxraftstate c)).

(** ** Joining and leaving *)

(** The argument of [Join] that [joinm] makes; later groups with the same gid win. *)
Definition joinm_args (gis : list nat) (c : ShConf) : option (gmap Z (list string)) :=
  foldl (fun acc g =>
    m ← acc;
    gg ← sh_groups c !! g;
    Some (<[g_gid gg := (fun i => servername (g_gid gg) i) <$> seq 0 (sh_n c)]> m)) (Some ∅) gis.

(** The argument of [Leave]. *)
Definition leavem_args (gis : list nat) (c : ShConf) : option (list Z) :=
  mapM (fun g => g_gid <$> sh_groups c !! g) gis.

(** The calls of the controller's clerk, for controllers that answer like [env]. *)
Definition joinm (env : Hist -> string -> forall r : Req, option (reply_of r)) (fuel : nat) (gis : list nat) (c : ShConf)
    : option (M bool) :=
  m ← joinm_args gis c; Some (Join env fuel (cck_servers (sh_mck c)) m).

Definition join env (fuel gi : nat) (c : ShConf) : option (M bool) := joinm env fuel [gi] c.

Definition leavem (env : Hist -> string -> forall r : Req, option (reply_of r)) (fuel : nat) (gis : list nat) (c : ShConf)
    : option (M bool) :=
  gids ← leavem_args gis c; Some (Leave env fuel (cck_servers (sh_mck c)) gids).

Definition leave env (fuel gi : nat) (c : ShConf) : option (M bool) := leavem env fuel [gi] c.

(** ** cleanup *)

(** [cleanup], apart from the time limit; the groups are [ngroups] of them. *)
Definition cleanup (c : ShConf) : option ShConf :=
  c ← for_group ShutdownGroup (seq 0 (length (sh_groups c))) c;
  ctls ← foldl (fun acc i => ctls ← acc; a ← mjoin (sh_ctrlers c !! i); Some (alter sc_Kill a ctls))
           (Some (sh_ctls c)) (seq 0 (sh_nctrlers c));
  rn ← Cleanup (sh_net c);
  Some (mkShConf (sh_n c) (sh_nctrlers c) rn (sh_servers c) (sh_kvs c) ctls (sh_world c) (sh_ctrlers c) (sh_mck c)
    (sh_groups c) (sh_clerks c) (sh_nextClientId c) (sh_maxraftstate c)).

(** ** make_config *)

(** A group with its tables, as [make_config] makes it. *)
Definition new_group (gi n nctrlers : nat) : group :=
  mkGroup (100 + Z.of_nat gi) (replicate n None) (replicate n None) (replicate n None) (replicate nctrlers None).

(** The group [gi] is added and its servers are started. *)
Definition add_group (names mnames : nat -> nat -> nat -> string) (gi : nat) (c : ShConf) : option ShConf :=
  let c := mkShConf (sh_n c) (sh_nctrlers c) (sh_net c) (sh_servers c) (sh_kvs c) (sh_ctls c) (sh_world c) (sh_ctrlers c) (sh_mck c)
             (sh_groups c ++ [new_group gi (sh_n c) (sh_nctrlers c)]) (sh_clerks c) (sh_nextClientId c) (sh_maxraftstate c) in
  StartGroup gi (names gi) (mnames gi) c.

(** [make_config]: the random strings are [cnames] for the controllers, [knames] for
    the clerk of the test, [names] and [mnames] for the servers. *)
Definition make_config (n : nat) (unreliable : bool) (maxraftstate : Z) (cnames : nat -> nat -> string)
    (knames : nat -> string) (names mnames : nat -> nat -> nat -> string) : option ShConf :=
  c ← for_group (fun i => StartCtrlerserver i (cnames i)) (seq 0 3)
        (mkShConf n 3 MakeNetwork [] [] [] start (replicate 3 None) (mkCtrlClerk []) [] ∅ (n + 1000) maxraftstate);
  '(c, mck) ← shardclerk knames c;
  let c := set_mck mck c in
  c ← for_group (add_group names mnames) (seq 0 3) c;
  Some (set_sh_net (Reliable (negb unreliable) (sh_net c)) c).

(** [checklogs]: whether every log and snapshot is small enough; [None] for a nil
    persister. *)
Definition checklogs (c : ShConf) : option bool :=
  foldl (fun acc '(gi, i) =>
    ok ← acc;
    gg ← sh_groups c !! gi;
    p ← mjoin (g_saved gg !! i);
    ps ← persisters (sh_world c) !! p;
    let raft := Z.of_nat (RaftStateSize ps (mem (sh_world c))) in
    let snap := SnapshotSize ps (mem (sh_world c)) in
    Some (ok && negb (bool_decide (0 <= sh_maxraftstate c /\ 8 * sh_maxraftstate c < raft)%Z)
             && negb (bool_decide (sh_maxraftstate c < 0)%Z && bool_decide (0 < snap))))
    (Some true) (gi ← seq 0 (length (sh_groups c)); i ← seq 0 (sh_n c); [(gi, i)]).

(** ** The sizes that work *)

(** Starting a server keeps the sizes of the tables of its group. *)
Lemma StartServer_mendnames gi i names mnames c c' gg :
  sh_groups c !! gi = Some gg -> StartServer gi i names mnames c = Some c' ->
  sh_n c' = sh_n c /\ exists gg', sh_groups c' !! gi = Some gg' /\ length (g_mendnames gg') = length (g_mendnames gg).
Proof.
  intros Hgg (gg1 & Hg1 & Hc)%bind_Some. simplify_eq. apply bind_Some in Hc as (? & _ & Hc).
  apply bind_Some in Hc as (rn & _ & Hc). apply bind_Some in Hc as (? & _ & Hc). apply bind_Some in Hc as (rn' & _ & Hc).
  apply bind_Some in Hc as (sv & _ & Hc). apply bind_Some in Hc as ([w p] & _ & [= <-]). simpl. split; [done|].
  eexists. rewrite list_lookup_insert_eq by (by eapply lookup_lt_Some). split; [done|]. simpl. by rewrite length_insert.
Qed.

(** With more servers in a group than there are controllers, [mendnames] is too
    short. *)
Lemma StartGroup_too_many gi names mnames m c gg :
  sh_groups c !! gi = Some gg -> length (g_mendnames gg) < m + sh_n c -> m <= length (g_mendnames gg) ->
  for_group (fun i => StartServer gi i (names i) (mnames i)) (seq m (sh_n c)) c = None.
Proof.
  remember (sh_n c) as k eqn:Hk. clear Hk. revert m c gg.
  induction k as [|k IH]; intros m c gg Hgg Hlt Hle; [lia|]. simpl.
  destruct (StartServer gi m (names m) (mnames m) c) as [c'|] eqn:Hst; [|done]. simpl.
  destruct (StartServer_mendnames _ _ _ _ _ _ _ Hgg Hst) as (Hn & gg' & Hgg' & Hlen).
  destruct (decide (m = length (g_mendnames gg))) as [->|Hne].
  - unfold StartServer in Hst. rewrite Hgg in Hst. simpl in Hst. apply bind_Some in Hst as (? & _ & Hst).
    apply bind_Some in Hst as (rn & _ & Hst). apply bind_Some in Hst as (? & Hm%lookup_lt_Some & _). lia.
  - eapply (IH (S m) c' gg'); [done|lia|lia].
Qed.

Lemma for_group_keeps (P : ShConf -> Prop) f js c c' :
  (forall i x y, P x -> f i x = Some y -> P y) -> P c -> for_group f js c = Some c' -> P c'.
Proof.
  intros Hf. revert c. induction js as [|i js IH]; intros c Hp; simpl; [by intros [= <-]|].
  intros (c1 & H1 & Hr)%bind_Some. eapply IH; [by eapply Hf|done].
Qed.

(** The sizes of a configuration. *)
Definition sizes (n m : nat) (c : ShConf) : Prop := sh_n c = n /\ sh_nctrlers c = m.

Lemma StartServer_sizes n m gi i names mnames c c' :
  sizes n m c -> StartServer gi i names mnames c = Some c' -> sizes n m c'.
Proof.
  intros Hs (gg & _ & Hc)%bind_Some. apply bind_Some in Hc as (? & _ & Hc).
  apply bind_Some in Hc as (rn & _ & Hc). apply bind_Some in Hc as (? & _ & Hc). apply bind_Some in Hc as (rn' & _ & Hc).
  apply bind_Some in Hc as (sv & _ & Hc). by apply bind_Some in Hc as ([w p] & _ & [= <-]).
Qed.

Lemma add_group_sizes n m names mnames gi c c' :
  sizes n m c -> add_group names mnames gi c = Some c' -> sizes n m c'.
Proof.
  intros Hs. unfold add_group, StartGroup. apply for_group_keeps; [|done].
  intros i x y. apply StartServer_sizes.
Qed.

Lemma StartCtrlerserver_sizes n m i names c c' :
  sizes n m c /\ sh_groups c = [] -> StartCtrlerserver i names c = Some c' -> sizes n m c' /\ sh_groups c' = [].
Proof.
  intros Hs (rn & _ & Hc)%bind_Some. apply bind_Some in Hc as ([w r] & _ & Hc).
  by apply bind_Some in Hc as (? & _ & [= <-]).
Qed.

(** The first group cannot be started when it has more servers than there are
    controllers. *)
Lemma add_group_too_many n m names mnames c :
  sizes n m c -> sh_groups c = [] -> m < n -> add_group names mnames 0 c = None.
Proof.
  intros [Hn Hm] Hg Hlt. unfold add_group, StartGroup. rewrite Hg; simpl.
  set (c1 := mkShConf _ _ _ _ _ _ _ _ _ _ _ _ _). change (sh_n c) with (sh_n c1).
  apply (StartGroup_too_many 0 (names 0) (mnames 0) 0 c1 (new_group 0 (sh_n c) (sh_nctrlers c))); [done|..];
    simpl; rewrite length_replicate; lia.
Qed.

Lemma make_config_sizes n unreliable mx cnames knames names mnames c :
  make_config n unreliable mx cnames knames names mnames = Some c -> sizes n 3 c /\ n <= 3.
Proof.
  intros (c1 & H1 & Hc)%bind_Some. apply bind_Some in Hc as ([c2 mck] & H2 & Hc). apply bind_Some in Hc as (c3 & H3 & [= <-]).
  assert (Hc1 : sizes n 3 c1 /\ sh_groups c1 = []).
  { eapply (for_group_keeps (fun c => sizes n 3 c /\ sh_groups c = [])); [|..|exact H1]; [|done].
    intros i x y. apply StartCtrlerserver_sizes. }
  assert (Hc2 : sizes n 3 c2 /\ sh_groups c2 = []) by (by apply bind_Some in H2 as (rn & _ & [= <- _])). split.
  - change (sizes n 3 c3). eapply (for_group_keeps (sizes n 3)); [|exact (proj1 Hc2 : sizes n 3 (set_mck mck c2))|exact H3]. intros i x y. apply add_group_sizes.
  - destruct (decide (n <= 3)) as [|Hgt]; [done|]. change (seq 0 3) with [0; 1; 2] in H3. cbn [for_group] in H3.
    rewrite (add_group_too_many n 3) in H3; [done|apply Hc2..|lia].
Qed.
End config.
