(* ===== verification/ShardInv.v ===== *)
(** * Runs of the sharded key/value tests

    The invariant of [ShardConfig] along every run: the servers of a group are on the
    network under their names while they run, and the persisted state of a server is its
    own. The tables of the groups are put end to end, so that the persistent state is
    that of [SavedState] with the server [i] of the group [gi] at [gi * n + i]. *)

From Stdlib Require Import Ascii.
From S2P Require Import Prelude GoLib Labrpc Persister TestNet RaftConfig SavedState.
From S2P Require Import Clerks CtrlConfig ShardConfig.

Set Default Proof Using "Type".

(** ** Names *)

Lemma servername_inj gid gid' i i' : servername gid i = servername gid' i' -> gid = gid' /\ i = i'.
Proof.
  unfold servername. rewrite <- !(str_app_assoc "server-").
  intros H. apply dash_suffix_inj in H as [H1 H2]; [|apply Itoa_free; [lia|auto with go]..].
  apply (inj (String.app "server-")) in H1. apply (inj Itoa) in H1. apply (inj Itoa) in H2. lia.
Qed.

(** ** Tables end to end *)

Lemma mjoin_insert {A} n (ls : list (list A)) gi l i x :
  Forall (fun l => length l = n) ls -> ls !! gi = Some l -> i < n ->
  mjoin (<[gi := <[i := x]> l]> ls) = <[gi * n + i := x]> (mjoin ls).
Proof.
  intros Hall. revert gi. induction Hall as [|l0 ls Hl0 Hall IH]; intros [|gi] Hgi Hi; simplify_eq/=.
  - by rewrite insert_app_l.
  - rewrite IH by done. rewrite insert_app_r_alt by lia. do 2 f_equal. lia.
Qed.

Lemma mjoin_lookup {A} n (ls : list (list A)) gi i :
  Forall (fun l => length l = n) ls -> i < n -> mjoin ls !! (gi * n + i) = ls !! gi ≫= (fun l => l !! i).
Proof.
  intros Hall Hi. apply option_eq. intros x. rewrite (join_lookup_Some_same_length' n) by done.
  rewrite bind_Some. done.
Qed.

(** ** Ends do not move servers *)

Lemma make_enabled_servers names target js rn rn' :
  make_enabled names target js rn = Some rn' -> nw_servers rn' = nw_servers rn.
Proof.
  revert rn. induction js as [|j js IH]; intros rn; simpl; [by intros [= <-]|].
  intros (rn1 & H1 & H2)%bind_Some. apply IH in H2. rewrite H2; simpl. unfold MakeEnd in H1. case_decide; by simplify_eq.
Qed.

Lemma make_end_servers name srv rn rn' : make_end name srv rn = Some rn' -> nw_servers rn' = nw_servers rn.
Proof.
  intros (rn1 & H1 & [= <-])%bind_Some. unfold MakeEnd in H1. case_decide; by simplify_eq.
Qed.

Section inv.
Context {Handler : Type}.
Context (kv_methods ctrler_methods : nat -> list (Method Handler)) (raft_methods : nat + nat -> list (Method Handler)).
Abbreviation ShConf := (@ShConf Handler).
Implicit Types (c : ShConf) (gi i a : nat) (gg : group).

(** The server of the network for the key/value server [a]. *)
Definition shard_server a : Server Handler :=
  AddService (MakeService "Raft" (raft_methods (inl a))) (AddService (MakeService "ShardKV" (kv_methods a)) MakeServer).

(** The Raft instance of a server, with the place of the server in the joined tables. *)
Definition flat_raft (n : nat) (kv : ShardKV) : Raft :=
  mkRaft (rf_peers (skv_rf kv)) (rf_persister (skv_rf kv)) (Z.to_nat (skv_gid kv - 100) * n + rf_me (skv_rf kv))
    (rf_dead (skv_rf kv)).

Definition flat_servers c : list (option nat) := mjoin (g_servers <$> sh_groups c).
Definition flat_saved c : list (option nat) := mjoin (g_saved <$> sh_groups c).

Record sh_inv c : Prop := {
  hi_group gi gg : sh_groups c !! gi = Some gg ->
    g_gid gg = (100 + Z.of_nat gi)%Z /\ length (g_servers gg) = sh_n c /\ length (g_saved gg) = sh_n c /\
    length (g_endnames gg) = sh_n c;
  (** a running server is on the network under its name, with its handlers *)
  hi_server gi gg i : sh_groups c !! gi = Some gg -> i < sh_n c ->
    match mjoin (g_servers gg !! i) with
    | Some a => exists k, server_at (inl (servername (g_gid gg) i)) (sh_net c) = Some k /\ sh_servers c !! k = Some (shard_server a)
    | None => server_at (inl (servername (g_gid gg) i)) (sh_net c) = None
    end;
  (** no other server has the name of one *)
  hi_absent gid i : (100 + Z.of_nat (length (sh_groups c)) <= gid)%Z ->
    server_at (inl (servername gid i)) (sh_net c) = None;
  hi_kept : kept (flat_raft (sh_n c) <$> sh_kvs c) (flat_servers c) (sh_world c) (flat_saved c);
}.

(** The persisted state of the server [i] of the group [gi]. *)
Definition sh_value c gi i : option (string * string) :=
  gg ← sh_groups c !! gi; p ← mjoin (g_saved gg !! i); saved (sh_world c) !! p.

(** The instance that runs for it, if any. *)
Definition sh_running c gi i : option nat := gg ← sh_groups c !! gi; mjoin (g_servers gg !! i).

Lemma sizes_servers c : sh_inv c -> Forall (fun l => length l = sh_n c) (g_servers <$> sh_groups c).
Proof. intros Hinv. apply Forall_fmap, Forall_lookup. intros gi gg Hg. by apply (hi_group _ Hinv gi gg). Qed.

Lemma sizes_saved c : sh_inv c -> Forall (fun l => length l = sh_n c) (g_saved <$> sh_groups c).
Proof. intros Hinv. apply Forall_fmap, Forall_lookup. intros gi gg Hg. by apply (hi_group _ Hinv gi gg). Qed.

Lemma flat_servers_lookup c gi gg i :
  sh_inv c -> sh_groups c !! gi = Some gg -> i < sh_n c -> flat_servers c !! (gi * sh_n c + i) = g_servers gg !! i.
Proof.
  intros Hinv Hg Hi. unfold flat_servers. rewrite mjoin_lookup by (done || by apply sizes_servers).
  by rewrite list_lookup_fmap, Hg.
Qed.

Lemma flat_saved_lookup c gi gg i :
  sh_inv c -> sh_groups c !! gi = Some gg -> i < sh_n c -> flat_saved c !! (gi * sh_n c + i) = g_saved gg !! i.
Proof.
  intros Hinv Hg Hi. unfold flat_saved. rewrite mjoin_lookup by (done || by apply sizes_saved).
  by rewrite list_lookup_fmap, Hg.
Qed.

Lemma sh_value_flat c gi i :
  sh_inv c -> gi < length (sh_groups c) -> i < sh_n c ->
  sh_value c gi i = value_in (sh_world c) (flat_saved c) (gi * sh_n c + i).
Proof.
  intros Hinv Hgi Hi. destruct (lookup_lt_is_Some_2 _ _ Hgi) as [gg Hg]. unfold sh_value, value_in.
  by rewrite (flat_saved_lookup c gi gg i), Hg.
Qed.

Lemma sh_running_flat c gi i :
  sh_inv c -> gi < length (sh_groups c) -> i < sh_n c ->
  sh_running c gi i = mjoin (flat_servers c !! (gi * sh_n c + i)).
Proof.
  intros Hinv Hgi Hi. destruct (lookup_lt_is_Some_2 _ _ Hgi) as [gg Hg]. unfold sh_running.
  by rewrite (flat_servers_lookup c gi gg i), Hg.
Qed.

Lemma flat_lt c gi i : sh_inv c -> gi < length (sh_groups c) -> i < sh_n c -> gi * sh_n c + i < length (flat_saved c) /\
  gi * sh_n c + i < length (flat_servers c).
Proof.
  intros Hinv Hgi Hi. destruct (lookup_lt_is_Some_2 _ _ Hgi) as [gg Hg].
  destruct (hi_group _ Hinv gi gg Hg) as (_ & Hs & Hsv & _). split; apply lookup_lt_is_Some.
  - rewrite (flat_saved_lookup c gi gg i) by done. apply lookup_lt_is_Some. lia.
  - rewrite (flat_servers_lookup c gi gg i) by done. apply lookup_lt_is_Some. lia.
Qed.

(** Places in the joined tables are different for different servers. *)
Lemma flat_inj n gi i gi' i' : i < n -> i' < n -> gi * n + i = gi' * n + i' -> gi = gi' /\ i = i'.
Proof. intros Hi Hi' H. assert (gi = gi'); nia. Qed.

(** ** Steps on the network alone *)

Lemma sh_inv_net c rn : sh_inv c -> nw_servers rn = nw_servers (sh_net c) -> sh_inv (set_sh_net rn c).
Proof.
  intros Hinv Hs. pose proof (hi_server _ Hinv) as Hsv. pose proof (hi_absent _ Hinv) as Hab. destruct Hinv.
  split; simpl; try done.
  - intros gi gg i Hg Hi. unfold server_at. rewrite Hs. by apply (Hsv gi).
  - intros gid i Hgid. unfold server_at. rewrite Hs. by apply Hab.
Qed.

(** ** Changing the entry of one server *)

Lemma flat_servers_insert c gi gg i gs s :
  sh_inv c -> sh_groups c !! gi = Some gg -> i < sh_n c -> g_servers gs = <[i := s]> (g_servers gg) ->
  mjoin (g_servers <$> <[gi := gs]> (sh_groups c)) = <[gi * sh_n c + i := s]> (flat_servers c).
Proof.
  intros Hinv Hg Hi Hs. rewrite list_fmap_insert, Hs. apply mjoin_insert; [by apply sizes_servers| |done].
  by rewrite list_lookup_fmap, Hg.
Qed.

Lemma flat_saved_insert c gi gg i gs s :
  sh_inv c -> sh_groups c !! gi = Some gg -> i < sh_n c -> g_saved gs = <[i := s]> (g_saved gg) ->
  mjoin (g_saved <$> <[gi := gs]> (sh_groups c)) = <[gi * sh_n c + i := s]> (flat_saved c).
Proof.
  intros Hinv Hg Hi Hs. rewrite list_fmap_insert, Hs. apply mjoin_insert; [by apply sizes_saved| |done].
  by rewrite list_lookup_fmap, Hg.
Qed.

(** What the change of one server must establish for the whole invariant. *)
Lemma sh_inv_insert c c' gi gg gs i s :
  sh_inv c -> sh_groups c !! gi = Some gg -> i < sh_n c ->
  sh_n c' = sh_n c -> sh_groups c' = <[gi := gs]> (sh_groups c) ->
  g_gid gs = g_gid gg -> g_servers gs = <[i := s]> (g_servers gg) -> length (g_saved gs) = sh_n c ->
  length (g_endnames gs) = sh_n c ->
  (forall nm, nm <> inl (servername (g_gid gg) i) -> server_at nm (sh_net c') = server_at nm (sh_net c)) ->
  sh_servers c `prefix_of` sh_servers c' ->
  match s with
  | Some a => exists k, server_at (inl (servername (g_gid gg) i)) (sh_net c') = Some k /\ sh_servers c' !! k = Some (shard_server a)
  | None => server_at (inl (servername (g_gid gg) i)) (sh_net c') = None
  end ->
  kept (flat_raft (sh_n c) <$> sh_kvs c') (flat_servers c') (sh_world c') (flat_saved c') ->
  sh_inv c'.
Proof.
  intros Hinv Hg Hi Hn Hgs Hgid Hs Hsv Hen Hnet Hpre Hserver Hk.
  assert (Hgl : gi < length (sh_groups c)) by (by eapply lookup_lt_Some).
  destruct (hi_group _ Hinv gi gg Hg) as (Hgid0 & Hl1 & Hl2 & Hl3). split; rewrite ?Hn; [..|done].
  - intros gj gg'. rewrite Hgs, list_lookup_insert. case_decide as Hd.
    + destruct Hd as [<- _]. intros [= <-]. rewrite Hgid, Hs, length_insert. done.
    + apply (hi_group _ Hinv).
  - intros gj gg' j. rewrite Hgs, list_lookup_insert. case_decide as Hd.
    + destruct Hd as [<- _]. intros [= <-] Hj. rewrite Hgid, Hs, list_lookup_insert. case_decide as Hij.
      * destruct Hij as [<- _]. done.
      * assert (Hne : j <> i) by (intros ->; destruct Hij; split; [done|lia]).
        rewrite Hnet by (intros Heq%(inj inl); by apply servername_inj in Heq as [_ ?]).
        pose proof (hi_server _ Hinv gi gg j Hg Hj) as Hold. destruct (mjoin (g_servers gg !! j)) as [a|]; [|done].
        destruct Hold as (k & Hk1 & Hk2). exists k. split; [done|]. by eapply prefix_lookup_Some.
    + intros Hgj Hj. destruct (hi_group _ Hinv gj gg' Hgj) as (Hgid' & _).
      rewrite Hnet. 2: { intros Heq%(inj inl). apply servername_inj in Heq as [Heq _]. assert (gj = gi) by lia. subst. destruct Hd. done. }
      pose proof (hi_server _ Hinv gj gg' j Hgj Hj) as Hold. destruct (mjoin (g_servers gg' !! j)) as [a|]; [|done].
      destruct Hold as (k & Hk1 & Hk2). exists k. split; [done|]. by eapply prefix_lookup_Some.
  - intros gid j. rewrite Hgs, length_insert. intros Hge. rewrite Hnet; [by apply (hi_absent _ Hinv)|].
    intros Heq%(inj inl). apply servername_inj in Heq as [Heq _]. lia.
Qed.

(** Names that are not those of key/value servers are left alone. *)
Definition other_names_kept (rn rn' : Net) : Prop :=
  forall nm, (forall gid i, nm <> inl (servername gid i)) -> server_at nm rn' = server_at nm rn.

(** ** ShutdownServer and StartServer *)

Lemma ShutdownServer_sh gi i c c' :
  sh_inv c -> ShutdownServer gi i c = Some c' ->
  gi < length (sh_groups c) /\ i < sh_n c /\ sh_inv c' /\ sh_n c' = sh_n c /\ length (sh_groups c') = length (sh_groups c) /\
  flat_servers c' = <[gi * sh_n c + i := None]> (flat_servers c) /\
  refreshed (gi * sh_n c + i) (sh_world c) (flat_saved c) (sh_world c') (flat_saved c') /\
  sh_nctrlers c' = sh_nctrlers c /\ other_names_kept (sh_net c) (sh_net c').
Proof.
  intros Hinv (gg & Hg & Hc)%bind_Some. destruct (hi_group _ Hinv gi gg Hg) as (Hgid & Hl1 & Hl2 & Hl3).
  apply bind_Some in Hc as (rn1 & H1 & Hc). apply bind_Some in Hc as (mrow & _ & Hc). apply bind_Some in Hc as (rn2 & H2 & Hc).
  apply enable_loop_spec in H1 as [[_ S1 _ _] _]. apply enable_loop_spec in H2 as [[_ S2 _ _] _].
  apply bind_Some in Hc as (sv & Hsv & Hc). assert (Hi : i < sh_n c) by (rewrite <- Hl2; by eapply lookup_lt_Some).
  assert (Hgl : gi < length (sh_groups c)) by (by eapply lookup_lt_Some).
  apply bind_Some in Hc as ([w sv'] & Hw & Hc). apply bind_Some in Hc as (kv & Hkv & [= <-]).
  set (c' := set_sh_net _ _). pose proof (hi_kept _ Hinv) as Hk. pose proof (flat_lt c gi i Hinv Hgl Hi) as [F1 F2].
  assert (Hfs : flat_servers c' = <[gi * sh_n c + i := None]> (flat_servers c)).
  { unfold flat_servers, c'; simpl. by eapply flat_servers_insert. }
  assert (Href : refreshed (gi * sh_n c + i) (sh_world c) (flat_saved c) w (flat_saved c') /\ length sv' = sh_n c).
  { assert (Hfl : flat_saved c !! (gi * sh_n c + i) = Some sv) by (by rewrite (flat_saved_lookup c gi gg i)).
    destruct sv as [p|].
    - apply bind_Some in Hw as ([w1 q] & Hw1 & [= <- <-]). apply bind_Some in Hw1 as ([w2 r] & Hp & [= <- <-]).
      split; [|by rewrite length_insert]. apply refresh_saved_spec; [apply Hk|]. unfold refresh_saved. rewrite Hfl; simpl in *. rewrite Hp; simpl.
      do 2 f_equal. symmetry. unfold flat_saved at 1, c'; simpl. by eapply flat_saved_insert.
    - injection Hw as <- <-. split; [|done]. left. split_and!; [done|done|].
      unfold flat_saved at 1, c'; simpl. rewrite (flat_saved_insert c gi gg i _ None); [by apply list_insert_id|done..|]. simpl.
      by rewrite list_insert_id. }
  assert (Hoth : other_names_kept (sh_net c) (sh_net c')).
  { intros nm Hnm. unfold server_at; simpl. rewrite lookup_insert_ne by (symmetry; apply Hnm). by rewrite S2, S1. }
  destruct Href as [Href Hlsv]. split_and!; try done; [|by unfold c'; simpl; rewrite length_insert].
  eapply (sh_inv_insert c c' gi gg _ i None); try done; simpl; try done.
  - intros nm Hnm. unfold server_at; simpl. rewrite lookup_insert_ne by done. by rewrite S2, S1.
  - unfold server_at; simpl. by rewrite lookup_insert_eq.
  - rewrite Hfs. pose proof (kept_crash _ _ _ _ _ _ _ Hk F2 F1 Href) as Hk'.
    rewrite (flat_servers_lookup c gi gg i), Hkv in Hk' by done. destruct kv as [a|]; simpl in Hk'; [|done].
    rewrite (list_fmap_alter _ skv_Kill Kill); [done|]. by apply Forall_true.
Qed.

Lemma StartServer_sh gi i names mnames c c' :
  sh_inv c -> sh_running c gi i = None -> StartServer kv_methods raft_methods gi i names mnames c = Some c' ->
  gi < length (sh_groups c) /\ i < sh_n c /\ sh_inv c' /\ sh_n c' = sh_n c /\ length (sh_groups c') = length (sh_groups c) /\
  flat_servers c' = <[gi * sh_n c + i := Some (length (sh_kvs c))]> (flat_servers c) /\
  fresh_persister (gi * sh_n c + i) (default ("", "") (sh_value c gi i)) (sh_world c) (flat_saved c) (sh_world c') (flat_saved c') /\
  sh_nctrlers c' = sh_nctrlers c /\ other_names_kept (sh_net c) (sh_net c').
Proof.
  intros Hinv Hdown (gg & Hg & Hc)%bind_Some. destruct (hi_group _ Hinv gi gg Hg) as (Hgid & Hl1 & Hl2 & Hl3).
  apply bind_Some in Hc as (? & _ & Hc). apply bind_Some in Hc as (rn1 & H1%make_enabled_servers & Hc).
  apply bind_Some in Hc as (? & _ & Hc). apply bind_Some in Hc as (rn2 & H2%make_enabled_servers & Hc).
  apply bind_Some in Hc as (sv & Hsv & Hc). assert (Hi : i < sh_n c) by (rewrite <- Hl2; by eapply lookup_lt_Some).
  assert (Hgl : gi < length (sh_groups c)) by (by eapply lookup_lt_Some).
  apply bind_Some in Hc as ([w p] & Hw & [= <-]). simpl.
  match goal with |- context [mkShConf ?n ?m ?net ?ss ?kvs ?ctls ?w ?cs ?mck ?gs ?cl ?nx ?mx] =>
    set (c' := mkShConf n m net ss kvs ctls w cs mck gs cl nx mx) end.
  pose proof (hi_kept _ Hinv) as Hk. pose proof (flat_lt c gi i Hinv Hgl Hi) as [F1 F2].
  assert (Hfs : flat_servers c' = <[gi * sh_n c + i := Some (length (sh_kvs c))]> (flat_servers c)).
  { unfold flat_servers, c'; simpl. by eapply flat_servers_insert. }
  assert (Hfsv : flat_saved c' = <[gi * sh_n c + i := Some p]> (flat_saved c)).
  { unfold flat_saved at 1, c'; simpl. by eapply flat_saved_insert. }
  assert (Hfl : flat_saved c !! (gi * sh_n c + i) = Some sv) by (by rewrite (flat_saved_lookup c gi gg i)).
  assert (Hf : fresh_persister (gi * sh_n c + i) (default ("", "") (sh_value c gi i)) (sh_world c) (flat_saved c) w (flat_saved c')).
  { rewrite (sh_value_flat c gi i) by done. apply start_saved_spec; [apply Hk|]. unfold start_saved, refresh_saved. rewrite Hfl; simpl.
    apply bind_Some in Hw as ([w2 r] & Hp & [= <- <-]). rewrite Hfsv. destruct sv as [q|]; simpl in *; [by rewrite Hp|by injection Hp as <- _]. }
  assert (Hdf : flat_servers c !! (gi * sh_n c + i) = Some None).
  { rewrite (sh_running_flat c gi i) in Hdown by done. destruct (lookup_lt_is_Some_2 _ _ F2) as [o Ho]. rewrite Ho in Hdown |- *.
    by destruct o. }
  assert (Hoth : other_names_kept (sh_net c) (sh_net c')).
  { intros nm Hnm. unfold server_at; simpl. rewrite lookup_insert_ne by (symmetry; apply Hnm). by rewrite H2, H1. }
  split_and!; try done; [|by unfold c'; simpl; rewrite length_insert].
  eapply (sh_inv_insert c c' gi gg _ i (Some (length (sh_kvs c)))); try done; simpl; rewrite ?length_insert; try done.
  - intros nm Hnm. unfold server_at; simpl. rewrite lookup_insert_ne by done. by rewrite H2, H1.
  - by apply prefix_app_r.
  - exists (length (sh_servers c)). unfold server_at; simpl. rewrite lookup_insert_eq. split; [done|].
    by rewrite list_lookup_middle.
  - rewrite Hfs, fmap_app. simpl.
    assert (Hk1 := kept_fresh _ _ _ _ _ _ _ _ Hk Hdf F1 Hf).
    pose proof (kept_start _ _ _ _ (gi * sh_n c + i) (names <$> seq 0 (sh_n c)) p Hk1 Hdf) as Hk2.
    rewrite length_fmap in Hk2. unfold flat_raft at 2; simpl. rewrite Hgid.
    replace (Z.to_nat (100 + Z.of_nat gi - 100)) with gi by lia. apply Hk2. rewrite Hfsv. by apply list_lookup_insert_eq.
Qed.
(** ** make_config *)

Lemma ctrlername_not_server i gid j : (inl (ctrlername i) : NetName) <> inl (servername gid j).
Proof. by intros [=]. Qed.

(** The controllers of a configuration without groups. *)
Record ctrlers_only (n m : nat) c : Prop := {
  co_sizes : sizes n 3 c;
  co_groups : sh_groups c = [];
  co_kvs : sh_kvs c = [];
  co_isolated : isolated (sh_world c);
  co_absent gid i : server_at (inl (servername gid i)) (sh_net c) = None;
  co_up j : j < m -> is_Some (server_at (inl (ctrlername j)) (sh_net c));
}.

Lemma StartCtrlerserver_only n m names c c' :
  ctrlers_only n m c -> StartCtrlerserver ctrler_methods raft_methods m names c = Some c' -> ctrlers_only n (S m) c'.
Proof.
  intros [Hsz Hg Hkv Hiso Hab Hup] (rn & Hrn%make_enabled_servers & Hc)%bind_Some.
  apply bind_Some in Hc as ([w r] & Hp & Hc). apply perform_spec in Hp as (Hiso' & _); [|done].
  apply bind_Some in Hc as (? & _ & [= <-]). split; simpl; try done.
  - intros gid i. unfold server_at; simpl. rewrite lookup_insert_ne by apply ctrlername_not_server. rewrite Hrn. apply Hab.
  - intros j Hj. unfold server_at; simpl. rewrite lookup_insert. case_decide as Hd; [done|]. rewrite Hrn. apply Hup.
    destruct (decide (j = m)) as [->|]; [done|lia].
Qed.

Lemma start_ctrlers_only n cnames m k c c' :
  ctrlers_only n m c ->
  for_group (fun i => StartCtrlerserver ctrler_methods raft_methods i (cnames i)) (seq m k) c = Some c' ->
  ctrlers_only n (m + k) c'.
Proof.
  revert m c. induction k as [|k IH]; intros m c Hco; simpl; [intros [= <-]; by rewrite Nat.add_0_r|].
  intros (c1 & H1 & Hr)%bind_Some. rewrite <- Nat.add_succ_comm. eapply IH; [|exact Hr]. by eapply StartCtrlerserver_only.
Qed.

(** Every controller is on the network. *)
Definition ctrlers_up c : Prop := forall i, i < sh_nctrlers c -> is_Some (server_at (inl (ctrlername i)) (sh_net c)).

Lemma ctrlers_up_kept c c' :
  sh_nctrlers c' = sh_nctrlers c -> other_names_kept (sh_net c) (sh_net c') -> ctrlers_up c -> ctrlers_up c'.
Proof.
  intros Hn Ho Hup i Hi. rewrite Ho; [apply Hup; by rewrite <- Hn|]. intros gid j. apply ctrlername_not_server.
Qed.

(** The groups [0], ..., [m - 1] have been added to [n] servers each. *)
Record groups_added (n m : nat) c : Prop := {
  ga_inv : sh_inv c;
  ga_sizes : sizes n 3 c;
  ga_groups : length (sh_groups c) = m;
  ga_up : ctrlers_up c;
}.

Lemma ctrlers_only_added n c : ctrlers_only n 3 c -> groups_added n 0 c.
Proof.
  intros [Hsz Hg Hkv Hiso Hab Hup]. split; [split| |by rewrite Hg|]; try done.
  - intros gi gg. by rewrite Hg.
  - intros gi gg i. by rewrite Hg.
  - unfold flat_servers, flat_saved. rewrite Hg, Hkv; simpl. by split.
  - intros i Hi. apply Hup. by destruct Hsz as [_ <-].
Qed.

(** An empty group is added. *)
Lemma new_group_inv c :
  sh_inv c ->
  sh_inv (mkShConf (sh_n c) (sh_nctrlers c) (sh_net c) (sh_servers c) (sh_kvs c) (sh_ctls c) (sh_world c) (sh_ctrlers c)
    (sh_mck c) (sh_groups c ++ [new_group (length (sh_groups c)) (sh_n c) (sh_nctrlers c)]) (sh_clerks c) (sh_nextClientId c)
    (sh_maxraftstate c)).
Proof.
  intros Hinv. pose proof Hinv as [Hgr Hsv Hab Hk].
  assert (Hcases : forall gi gg, (sh_groups c ++ [new_group (length (sh_groups c)) (sh_n c) (sh_nctrlers c)]) !! gi = Some gg ->
    sh_groups c !! gi = Some gg \/ gi = length (sh_groups c) /\ gg = new_group gi (sh_n c) (sh_nctrlers c)).
  { intros gi gg [?|[Hge (Hz & <-)%list_lookup_singleton_Some]]%lookup_app_Some; [by left|right].
    assert (gi = length (sh_groups c)) as -> by lia. done. }
  split; simpl.
  - intros gi gg [?|[-> ->]]%Hcases; [by apply Hgr|]. simpl. rewrite !length_replicate. done.
  - intros gi gg i [?|[-> ->]]%Hcases Hi; [by apply (Hsv gi)|]. simpl. rewrite lookup_replicate_2 by done. simpl.
    apply Hab. lia.
  - intros gid i Hge. apply Hab. rewrite length_app in Hge. lia.
  - unfold flat_servers, flat_saved; simpl. rewrite !fmap_app, !join_app; simpl. rewrite !app_nil_r.
    apply kept_more; [|done]. unfold flat_servers, flat_saved. rewrite !length_join. f_equal.
    rewrite <- !list_fmap_compose. apply list_fmap_ext. intros gi gg (_ & Hl1 & Hl2 & _)%Hgr. simpl. congruence.
Qed.

(** Servers of a group are started from the first one on. *)
Lemma start_group_added n m gi names mnames k j c c' :
  groups_added n m c -> (forall i, j <= i -> sh_running c gi i = None) ->
  for_group (fun i => StartServer kv_methods raft_methods gi i (names i) (mnames i)) (seq j k) c = Some c' ->
  groups_added n m c'.
Proof.
  revert j c. induction k as [|k IH]; intros j c Hga Hdown; simpl; [by intros [= <-]|].
  intros (c1 & H1 & Hr)%bind_Some. destruct Hga as [Hinv [Hn Hm] Hg Hup].
  destruct (StartServer_sh gi j (names j) (mnames j) c c1 Hinv) as (Hgi & Hj & Hinv1 & Hn1 & Hg1 & Hfs & _ & Hm1 & Ho); [by apply Hdown|done|].
  eapply (IH (S j) c1); [|intros i Hi|exact Hr].
  - split; [done|split; congruence|congruence|by eapply ctrlers_up_kept].
  - destruct (decide (i < sh_n c)) as [Hlt|Hge].
    + rewrite sh_running_flat by (done || congruence). rewrite Hfs, Hn1, list_lookup_insert_ne by lia.
      rewrite <- sh_running_flat by done. apply Hdown. lia.
    + unfold sh_running. destruct (sh_groups c1 !! gi) as [gg|] eqn:Hgg; [|done]. simpl.
      rewrite lookup_ge_None_2; [done|]. destruct (hi_group _ Hinv1 gi gg Hgg) as (_ & -> & _). lia.
Qed.

Lemma add_group_added n m names mnames c c' :
  groups_added n m c -> add_group kv_methods raft_methods names mnames m c = Some c' -> groups_added n (S m) c'.
Proof.
  intros [Hinv Hsz Hg Hup] Hadd. unfold add_group, StartGroup in Hadd. subst m.
  eapply start_group_added; [| |exact Hadd]; simpl.
  - split; [by apply new_group_inv|done|simpl; rewrite length_app; simpl; lia|done].
  - intros i _. unfold sh_running; simpl. rewrite list_lookup_middle by done. simpl.
    destruct (replicate (sh_n c) None !! i) as [[a|]|] eqn:Hr; [by apply lookup_replicate in Hr as [? _]|done..].
Qed.

Lemma make_config_added n unreliable mx cnames knames names mnames c :
  make_config kv_methods ctrler_methods raft_methods n unreliable mx cnames knames names mnames = Some c ->
  groups_added n 3 c.
Proof.
  intros (c1 & H1 & Hc)%bind_Some. apply bind_Some in Hc as ([c2 mck] & H2 & Hc). apply bind_Some in Hc as (c3 & H3 & [= <-]).
  apply (start_ctrlers_only n cnames 0 3) in H1.
  2: { split; simpl; try done; try apply start_isolated; try lia. }
  apply bind_Some in H2 as (rn & Hrn%make_enabled_servers & [= <- _]).
  assert (Hga : groups_added n 0 (set_mck mck (set_sh_net rn c1))).
  { apply ctrlers_only_added. destruct H1 as [Hsz Hg Hkv Hiso Hab Hu]. split; simpl; try done; unfold server_at; rewrite Hrn; done. }
  assert (Hga3 : groups_added n 3 c3).
  { change (seq 0 3) with [0; 1; 2] in H3. cbn [for_group] in H3.
    apply bind_Some in H3 as (d1 & D1 & H3). apply bind_Some in H3 as (d2 & D2 & H3). apply bind_Some in H3 as (d3 & D3 & [= <-]).
    apply (add_group_added n 0) in D1; [|done]. apply (add_group_added n 1) in D2; [|done]. by apply (add_group_added n 2) in D3. }
  destruct Hga3 as [Hinv Hsz Hg Hu]. split; try done. by apply sh_inv_net.
Qed.
(** ** Runs *)

(** What a test, its clerks and its servers do. Servers are started after they were shut
    down; clerks and servers make ends with [make_end]; an instance saves bytes in its
    persister, and a killed instance can still do so. *)
Inductive ShOp :=
  | HMakeClient (ck : nat) (names : nat -> string) | HDeleteClient (ck : nat) | HMakeEnd (name srv : string)
  | HShutdown (gi i : nat) | HStart (gi i : nat) (names mnames : nat -> string) | HSave (a : nat) (rs sn : string).

Definition set_world (w : World) c : ShConf :=
  mkShConf (sh_n c) (sh_nctrlers c) (sh_net c) (sh_servers c) (sh_kvs c) (sh_ctls c) w (sh_ctrlers c) (sh_mck c)
    (sh_groups c) (sh_clerks c) (sh_nextClientId c) (sh_maxraftstate c).

Definition sh_op (o : ShOp) c : option ShConf :=
  match o with
  | HMakeClient ck names => '(c, _) ← makeClient ck names c; Some c
  | HDeleteClient ck => Some (deleteClient ck c)
  | HMakeEnd name srv => rn ← make_end name srv (sh_net c); Some (set_sh_net rn c)
  | HShutdown gi i => ShutdownServer gi i c
  | HStart gi i names mnames =>
      if decide (sh_running c gi i = None) then StartServer kv_methods raft_methods gi i names mnames c else None
  | HSave a rs sn =>
      kv ← sh_kvs c !! a;
      w ← save_bytes (rf_persister (skv_rf kv)) rs sn (sh_world c);
      Some (set_world w c)
  end.

(** The configurations that a test of groups of [n] servers can reach. *)
Definition sh_run (n : nat) c : Prop :=
  exists unreliable mx cnames knames names mnames c0,
    make_config kv_methods ctrler_methods raft_methods n unreliable mx cnames knames names mnames = Some c0 /\
    rtc (fun x y => exists o, sh_op o x = Some y) c0 c.

(** What an operation does to the persisted state of a server. *)
Definition sh_value_spec (o : ShOp) c gi i : option (string * string) :=
  match o with
  | HSave a rs sn => if decide (sh_running c gi i = Some a) then Some (rs, sn) else sh_value c gi i
  | HStart gj j _ _ =>
      if decide (gi = gj /\ i = j) then Some (default ("", "") (sh_value c gi i)) else sh_value c gi i
  | _ => sh_value c gi i
  end.

Definition sh_running_spec (o : ShOp) c gi i : option nat :=
  match o with
  | HStart gj j _ _ => if decide (gi = gj /\ i = j) then Some (length (sh_kvs c)) else sh_running c gi i
  | HShutdown gj j => if decide (gi = gj /\ i = j) then None else sh_running c gi i
  | _ => sh_running c gi i
  end.

Definition sh_effect (o : ShOp) c c' : Prop :=
  forall gi i, gi < length (sh_groups c) -> i < sh_n c ->
    sh_value c' gi i = sh_value_spec o c gi i /\ sh_running c' gi i = sh_running_spec o c gi i.

Lemma net_step_added n m c c' rn clerks next :
  groups_added n m c -> nw_servers rn = nw_servers (sh_net c) ->
  c' = mkShConf (sh_n c) (sh_nctrlers c) rn (sh_servers c) (sh_kvs c) (sh_ctls c) (sh_world c) (sh_ctrlers c) (sh_mck c)
    (sh_groups c) clerks next (sh_maxraftstate c) -> groups_added n m c'.
Proof.
  intros [Hinv Hsz Hg Hup] Hs ->. pose proof (sh_inv_net c rn Hinv Hs) as Hinv'. split; try done.
  - by destruct Hinv'.
  - intros i Hi. unfold server_at; simpl. rewrite Hs. by apply Hup.
Qed.

Lemma sh_op_added n m o c c' :
  groups_added n m c -> sh_op o c = Some c' -> groups_added n m c' /\ sh_effect o c c'.
Proof.
  clear ctrler_methods. intros Hga Ho. pose proof Hga as [Hinv [Hn Hm] Hg Hup]. pose proof (hi_kept _ Hinv) as Hk.
  destruct o as [ck names|ck|name srv|gj j|gj j names mnames|a rs sn]; cbn [sh_op] in Ho.
  - apply bind_Some in Ho as ([c1 k] & Hmk & [= <-]). unfold makeClient in Hmk. case_decide; [|done].
    apply bind_Some in Hmk as (rn & Hrn%make_enabled_servers & [= <- <-]). split; [by eapply net_step_added|done].
  - injection Ho as <-. split; [by eapply net_step_added|done].
  - apply bind_Some in Ho as (rn & Hrn%make_end_servers & [= <-]). split; [by eapply net_step_added|done].
  - destruct (ShutdownServer_sh _ _ _ _ Hinv Ho) as (Hgj & Hj & Hinv' & Hn' & Hg' & Hfs & Href & Hm' & Hoth).
    split; [split; [done|split; congruence|congruence|by eapply ctrlers_up_kept]|]. intros gi i Hgi Hi. simpl.
    pose proof (flat_lt c gj j Hinv Hgj Hj) as [F1 F2].
    rewrite (sh_value_flat c'), (sh_running_flat c'), (sh_value_flat c), (sh_running_flat c) by (done || congruence).
    rewrite Hn'. split; [by eapply value_in_refreshed|]. rewrite Hfs, list_lookup_insert.
    case_decide as Hd; case_decide as Hd'; [done|..|done].
    + destruct Hd as [Hd _]. apply flat_inj in Hd as [-> ->]; [|done..]. by destruct Hd'.
    + destruct Hd' as [-> ->]. by destruct Hd.
  - case_decide as Hdown; [|done].
    destruct (StartServer_sh _ _ _ _ _ _ Hinv Hdown Ho) as (Hgj & Hj & Hinv' & Hn' & Hg' & Hfs & Hf & Hm' & Hoth).
    split; [split; [done|split; congruence|congruence|by eapply ctrlers_up_kept]|]. intros gi i Hgi Hi. simpl.
    pose proof (flat_lt c gj j Hinv Hgj Hj) as [F1 F2].
    assert (Hpl : gi * sh_n c + i = gj * sh_n c + j <-> gi = gj /\ i = j) by (split; [by apply flat_inj|by intros [-> ->]]).
    rewrite (sh_value_flat c'), (sh_running_flat c') by (done || congruence). rewrite Hn'. split.
    + rewrite (value_in_fresh _ _ _ _ _ _ _ _ _ Hk F1 Hf). rewrite (sh_value_flat c gi i) by done.
      repeat case_decide; try tauto. destruct_and!; subst. by rewrite (sh_value_flat c gj j).
    + rewrite Hfs, list_lookup_insert, (sh_running_flat c gi i) by done.
      repeat case_decide; try done; [|]; exfalso; naive_solver.
  - apply bind_Some in Ho as (kv & Hkv & Ho). apply bind_Some in Ho as (w & Hw & [= <-]).
    apply save_bytes_spec in Hw as [Hiso Hs]; [|apply Hk]. assert (Hinv' : sh_inv (set_world w c)).
    { destruct Hinv. split; simpl; try done. eapply kept_world; [exact Hk|done|]. by rewrite Hs, length_insert. }
    split; [by split|]. intros gi i Hgi Hi. split; [|done]. simpl.
    rewrite (sh_value_flat (set_world w c)), (sh_value_flat c), (sh_running_flat c) by done. simpl.
    rewrite (value_in_saves _ _ _ _ _ a (flat_raft (sh_n c) kv) (rs, sn) (gi * sh_n c + i) Hk) by (done || by rewrite list_lookup_fmap, Hkv).
    change (flat_saved (set_world w c)) with (flat_saved c).
    destruct (flat_servers c !! (gi * sh_n c + i)) as [[b|]|]; simpl; repeat case_decide; naive_solver.
Qed.

Lemma sh_run_added n c : sh_run n c -> groups_added n 3 c.
Proof.
  intros (unreliable & mx & cnames & knames & names & mnames & c0 & H0 & Hr). apply make_config_added in H0.
  refine (rtc_ind_r (groups_added n 3) c0 H0 _ c Hr). intros x y _ [o Ho] Hx. by apply (sh_op_added n 3) in Ho as [? _].
Qed.
End inv.
