(* ===== verification/ShardTheorems.v ===== *)
(** * What the sharded key/value tests rely on

    The claims about src/src/shardkv/config.go: where the names that the tests hand to
    the controllers lead, and what the servers find after restarts. *)

From S2P Require Import Prelude GoLib Labrpc Persister TestNet RaftConfig SavedState.
From S2P Require Import Clerks CtrlConfig ShardConfig ShardInv.

Set Default Proof Using "Type".

(** ** Ends *)

(** The new ends are enabled and connected. *)
Lemma make_enabled_ends names target js rn rn' :
  make_enabled names target js rn = Some rn' ->
  (forall nm, nm ∈ nw_ends rn -> nm ∈ nw_ends rn' /\ enabled_at nm rn' = enabled_at nm rn /\ connection_at nm rn' = connection_at nm rn) /\
  forall j, j ∈ js -> enabled_at (inl (names j)) rn' = true /\ connection_at (inl (names j)) rn' = Some (inl (target j)).
Proof.
  revert rn. induction js as [|j js IH]; intros rn; simpl; [intros [= <-]; split; [done|set_solver]|].
  intros (rn1 & H1 & Hr)%bind_Some. unfold MakeEnd in H1. case_decide as Hnew; [done|]. injection H1 as <-.
  destruct (IH _ Hr) as [Hold Hnw]. split.
  - intros nm Hnm. destruct (Hold nm) as (H1 & H2 & H3); [simpl; set_solver|]. split; [done|].
    rewrite H2, H3. unfold enabled_at, connection_at; simpl. rewrite !lookup_insert_ne by set_solver. done.
  - intros k [->|Hk]%elem_of_cons; [|by apply Hnw].
    destruct (Hold (inl (names j))) as (_ & -> & ->); [simpl; set_solver|].
    unfold enabled_at, connection_at; simpl. by rewrite !lookup_insert_eq.
Qed.

(** An end of [make_end] leads to the server with the name, if it is on the network. *)
Lemma make_end_reads name srv rn rn' :
  make_end name srv rn = Some rn' ->
  readEndnameInfo (inl name) rn' =
  (k ← server_at (inl srv) rn; Some (mkInfo (inl srv) k (nw_reliable rn) (nw_longReordering rn))).
Proof.
  intros (rn1 & H1 & [= <-])%bind_Some. unfold MakeEnd in H1. case_decide; [done|]. injection H1 as <-.
  unfold readEndnameInfo, enabled_at, connection_at, server_at; simpl. by rewrite !lookup_insert_eq.
Qed.

Section theorems.
Context {Handler : Type}.

(** The map that [joinm] hands to the controllers. *)
Lemma joinm_args_spec gis (c : @ShConf Handler) m gid srvs :
  joinm_args gis c = Some m -> m !! gid = Some srvs ->
  exists gi gg, gi ∈ gis /\ sh_groups c !! gi = Some gg /\ g_gid gg = gid /\ srvs = servername gid <$> seq 0 (sh_n c).
Proof.
  unfold joinm_args. intros Hm Hsrv.
  assert (Hacc : forall js (m0 m1 : gmap Z (list string)), foldl (fun acc g => m ← acc; gg ← sh_groups c !! g;
      Some (<[g_gid gg := (fun i => servername (g_gid gg) i) <$> seq 0 (sh_n c)]> m)) (Some m0) js = Some m1 ->
    m1 !! gid = Some srvs -> m0 !! gid = Some srvs \/
    exists gi gg, gi ∈ js /\ sh_groups c !! gi = Some gg /\ g_gid gg = gid /\ srvs = servername gid <$> seq 0 (sh_n c)).
  { induction js as [|g js IH]; intros m0 m1; cbn [foldl]; [intros [= <-]; by left|].
    destruct (sh_groups c !! g) as [gg|] eqn:Hg; simpl.
    - intros Hf Hs. destruct (IH _ _ Hf Hs) as [Hin|(gi & gg' & ? & ?)]; [|right; exists gi, gg'; split; [by right|done]].
      rewrite lookup_insert in Hin. case_decide as Hd; [|by left]. right. exists g, gg. simplify_eq. by split_and!; [left|..].
    - intros Hf. exfalso. revert Hf. clear. induction js; simpl; [done|]. done. }
  destruct (Hacc gis ∅ m Hm Hsrv) as [?|?]; [by simplify_map_eq|done].
Qed.
End theorems.

(** C38. The clerks find the servers. In every configuration that a test can reach,
    whatever was shut down and restarted before: the names that [joinm] hands to the
    controllers for a group are those of its servers, and an end that a clerk or a
    server makes for such a name with [make_end] leads to the handlers of the instance
    that runs for that server now, and nowhere while the server is down. The ends of a
    new clerk lead to the controllers. *)
Theorem shardkv_clerks_find_servers {Handler} (kv_methods ctrler_methods : nat -> list (Method Handler))
    (raft_methods : nat + nat -> list (Method Handler)) (n : nat) (c : @ShConf Handler) :
  sh_run kv_methods ctrler_methods raft_methods n c ->
  (forall gis m gid srvs, joinm_args gis c = Some m -> m !! gid = Some srvs ->
    exists gi, gi ∈ gis /\ gid = (100 + Z.of_nat gi)%Z /\ length srvs = n /\
      forall i srv name rn, srvs !! i = Some srv -> make_end name srv (sh_net c) = Some rn ->
        match sh_running c gi i with
        | Some a => exists info, readEndnameInfo (inl name) rn = Some info /\
                      sh_servers c !! in_server info = Some (shard_server kv_methods raft_methods a)
        | None => readEndnameInfo (inl name) rn = None
        end) /\
  (forall ck names c' k, makeClient ck names c = Some (c', k) ->
    cck_servers (sck_sm k) = names <$> seq 0 3 /\
    forall j, j < 3 -> is_Some (readEndnameInfo (inl (names j)) (sh_net c'))).
Proof.
  intros [Hinv [Hn Hm] Hg Hup]%sh_run_added. split.
  - intros gis m gid srvs Hargs Hsrvs. destruct (joinm_args_spec _ _ _ _ _ Hargs Hsrvs) as (gi & gg & Hgi & Hgg & Hgid & ->).
    destruct (hi_group _ _ _ Hinv gi gg Hgg) as (Hg100 & _). exists gi. rewrite length_fmap, length_seq.
    split_and!; [done|congruence|done|]. intros i srv name rn Hi Hmk. rewrite (make_end_reads _ _ _ _ Hmk).
    apply list_lookup_fmap_Some in Hi as (j & -> & [-> Hlt]%lookup_seq). simpl.
    pose proof (hi_server _ _ _ Hinv gi gg i Hgg Hlt) as Hs. rewrite Hgid in Hs. unfold sh_running. rewrite Hgg; simpl.
    destruct (mjoin (g_servers gg !! i)) as [a|]; [|by rewrite Hs]. destruct Hs as (k & Hk & Hsk). rewrite Hk; simpl. eauto.
  - intros ck names c' k Hmk. unfold makeClient in Hmk. case_decide; [|done].
    apply bind_Some in Hmk as (rn & Hrn & [= <- <-]). simpl. rewrite Hm. split; [done|]. intros j Hj.
    pose proof (make_enabled_servers _ _ _ _ _ Hrn) as Hs. destruct (make_enabled_ends _ _ _ _ _ Hrn) as [_ Hends].
    destruct (Hends j) as [He Hc]; [apply elem_of_seq; lia|]. unfold readEndnameInfo. rewrite He, Hc; simpl.
    destruct (Hup j) as [k Hk]; [lia|]. unfold server_at in *. rewrite Hs, Hk. by eexists.
Qed.

(** In the sharded tests too the persisted state of a server is a value of its own,
    through shutting down and restarting servers of any group, making clerks and ends,
    and late saves of killed instances; and the instance that runs for a server changes
    only when that server is shut down or started. *)
Theorem shardkv_keeps_persisted {Handler} (kv_methods ctrler_methods : nat -> list (Method Handler))
    (raft_methods : nat + nat -> list (Method Handler)) (n : nat) (c c' : @ShConf Handler) (o : ShOp) (gi i : nat) :
  sh_run kv_methods ctrler_methods raft_methods n c -> sh_op kv_methods raft_methods o c = Some c' -> gi < 3 -> i < n ->
  sh_value c' gi i =
    match o with
    | HSave a rs sn => if decide (sh_running c gi i = Some a) then Some (rs, sn) else sh_value c gi i
    | HStart gj j _ _ =>
        if decide (gi = gj /\ i = j) then Some (default ("", "") (sh_value c gi i)) else sh_value c gi i
    | _ => sh_value c gi i
    end /\
  sh_running c' gi i =
    match o with
    | HStart gj j _ _ => if decide (gi = gj /\ i = j) then Some (length (sh_kvs c)) else sh_running c gi i
    | HShutdown gj j => if decide (gi = gj /\ i = j) then None else sh_running c gi i
    | _ => sh_running c gi i
    end.
Proof.
  intros Hga%sh_run_added Ho Hgi Hi. pose proof Hga as [_ [Hn _] Hg _].
  apply (sh_op_added _ _ n 3) in Ho as [_ He]; [|done]. apply He; lia.
Qed.

(** ** A test of groups of three *)

(** Server 1 of group 101 saves, is shut down, saves once more and is started again;
    server 0 of group 102 is shut down. *)
Module ShDemo.
Definition name (gen i j : nat) : string :=
  Itoa (Z.of_nat gen) +:+ "-" +:+ Itoa (Z.of_nat i) +:+ "-" +:+ Itoa (Z.of_nat j).

Abbreviation Demo := (@ShConf unit).
Definition none : nat -> list (Method unit) := fun _ => [].
Definition none2 : nat + nat -> list (Method unit) := fun _ => [].
Definition op : ShOp -> Demo -> option Demo := sh_op none none2.
Definition run (n : nat) (c : Demo) : Prop := sh_run none none none2 n c.

Fixpoint ops (os : list ShOp) (c : Demo) : option Demo :=
  match os with [] => Some c | o :: os => c ← op o c; ops os c end.

Lemma sh_ops_rtc os c c' : ops os c = Some c' -> rtc (fun x y => exists o, op o x = Some y) c c'.
Proof.
  revert c. induction os as [|o os IH]; intros c; simpl; [intros [= ->]; apply rtc_refl|].
  intros (c1 & H1 & Hr)%bind_Some. eapply rtc_l; [by exists o|by apply IH].
Qed.

Definition made : option Demo :=
  make_config none none none2 3 false (-1) (name 0) (name 1 0) (fun gi => name (2 + gi)) (fun gi => name (5 + gi)).

Definition test : option Demo :=
  c ← made;
  ops [HSave 4 "log" ""; HShutdown 1 1; HSave 4 "late" ""; HStart 1 1 (name 8 0) (name 8 1); HMakeClient 0 (name 9 0);
       HShutdown 2 0] c.

Lemma sh_test_run c : test = Some c -> run 3 c.
Proof.
  unfold test, made. intros (c0 & H0 & Hc)%bind_Some. unfold run, sh_run. eexists _, _, _, _, _, _, c0.
  split; [exact H0|]. exact (sh_ops_rtc _ c0 c Hc).
Qed.

Definition joined_servers (c : Demo) : option (list string) := m ← joinm_args [1; 2] c; m !! 101%Z.

(** What the test ends with. *)
Definition ok (x : option Demo) : bool :=
  match x with
  | Some c => bool_decide (sh_value c 1 1 = Some ("log", "")) && bool_decide (sh_running c 1 1 = Some 9) &&
      bool_decide (sh_running c 2 0 = None) && bool_decide (joined_servers c = Some ["server-101-0"; "server-101-1"; "server-101-2"]) &&
      bool_decide (is_Some (make_end "clerk" "server-101-1" (sh_net c))) && bool_decide (is_Some (op (HSave 4 "later" "") c))
  | None => false
  end.

Lemma sh_test_ok : ok test = true.
Proof. vm_compute. reflexivity. Qed.

Lemma sh_facts : exists c, test = Some c /\ sh_value c 1 1 = Some ("log", "") /\ sh_running c 1 1 = Some 9 /\
  (exists m, joinm_args [1; 2] c = Some m /\ m !! 101%Z = Some ["server-101-0"; "server-101-1"; "server-101-2"]) /\
  is_Some (make_end "clerk" "server-101-1" (sh_net c)) /\ is_Some (op (HSave 4 "later" "") c).
Proof.
  pose proof sh_test_ok as Hok. destruct test as [c|]; [|done]. exists c. unfold ok in Hok.
  rewrite !andb_true_iff, !bool_decide_eq_true in Hok. destruct Hok as [[[[[Hv Hr] _] Hj] He] Hs].
  apply bind_Some in Hj. done.
Qed.
End ShDemo.

(** An end for the restarted server leads to the handlers of its new instance. *)
Lemma shardkv_clerks_find_servers_witness :
  exists c rn info, ShDemo.test = Some c /\ make_end "clerk" "server-101-1" (sh_net c) = Some rn /\
    readEndnameInfo (inl "clerk") rn = Some info /\
    sh_servers c !! in_server info = Some (shard_server ShDemo.none ShDemo.none2 9).
Proof.
  destruct ShDemo.sh_facts as (c & Hc & _ & Hr & (m & Hm & Hsrvs) & [rn Hrn] & _).
  destruct (proj1 (shardkv_clerks_find_servers _ _ _ 3 c (ShDemo.sh_test_run c Hc)) _ _ _ _ Hm Hsrvs) as (gi & _ & Hgi & _ & Hall).
  assert (gi = 1) as -> by lia. specialize (Hall 1 "server-101-1" "clerk" rn eq_refl Hrn). rewrite Hr in Hall.
  destruct Hall as (info & Hinfo & Hs). exists c, rn, info. auto.
Defined.

Lemma shardkv_keeps_persisted_witness :
  exists c c', ShDemo.test = Some c /\ ShDemo.op (HSave 4 "later" "") c = Some c' /\ sh_value c' 1 1 = Some ("log", "").
Proof.
  destruct ShDemo.sh_facts as (c & Hc & Hv & Hr & _ & _ & [c' Hc']). exists c, c'. split; [exact Hc|]. split; [exact Hc'|].
  rewrite (proj1 (shardkv_keeps_persisted _ _ _ 3 c c' _ 1 1 (ShDemo.sh_test_run c Hc) Hc' ltac:(lia) ltac:(lia))).
  rewrite Hr. exact Hv.
Defined.
