(* ===== verification/ServiceTheorems.v ===== *)
(** * What the tests of the services rely on

    The claims about src/src/kvraft/config.go and src/src/shardctrler/config.go, proved
    for every [Service] that satisfies its laws, and about what the two files do
    differently. *)

From S2P Require Import Prelude GoLib Labrpc Persister TestNet RaftConfig RaftConfigInv SavedState.
From S2P Require Import ServiceConfig ServiceFacts ServiceInv KvConfig Clerks CtrlConfig.

Set Default Proof Using "Type".

Section service.
Context {P T K Handler : Type} `{!Service P T K, !ServiceLaws P T K}.
Context (methods raft_methods : nat -> list (Method Handler)).
Implicit Types c : Conf P T Handler.


End service.

(** ** Partitions *)


(** ** Persistent state *)

(** C36. Whatever a test of a service does, the persisted state of a server is a value of
    its own: only saves of its running instance change it, starting the server for the
    first time makes it empty, and shutting down, restarting, partitions, clerks and
    late saves of killed instances leave it alone. A server runs exactly from its start
    to its shutdown, and every instance that does not run was killed. *)
Theorem service_keeps_persisted {P T K Handler : Type} `{!Service P T K, !ServiceLaws P T K}
    (methods raft_methods : nat -> list (Method Handler)) (n : nat) (c c' : Conf P T Handler) (o : SvcOp) :
  svc_run methods raft_methods n c -> svc_op methods raft_methods o c = Some c' ->
  (forall i, i < n -> svc_value c' i =
     match o with
     | SSave a rs sn => if decide (cg_servers c !! i = Some (Some a)) then Some (rs, sn) else svc_value c i
     | SStart j _ => if decide (i = j) then Some (default ("", "") (svc_value c i)) else svc_value c i
     | _ => svc_value c i
     end) /\
  (forall i, i < n -> is_Some (mjoin (cg_servers c' !! i)) <->
     match o with
     | SStart j _ => i = j \/ is_Some (mjoin (cg_servers c !! i))
     | SShutdown j => i <> j /\ is_Some (mjoin (cg_servers c !! i))
     | _ => is_Some (mjoin (cg_servers c !! i))
     end) /\
  forall a t, cg_instances c' !! a = Some t ->
    killed (svc_rf t) = true \/ cg_servers c' !! rf_me (svc_rf t) = Some (Some a).
Proof.
  intros (Hinv & <- & _)%svc_run_inv Ho. apply svc_op_inv in Ho as (Hinv' & _ & _ & Hv & Hr); [|done].
  split_and!; [exact Hv| |].
  - intros i Hi. specialize (Hr i Hi). rewrite <- (bool_decide_eq_true (is_Some (mjoin (cg_servers c' !! i)))), Hr.
    destruct o; simpl; rewrite ?orb_true_iff, ?andb_true_iff, ?negb_true_iff, ?bool_decide_eq_true, ?bool_decide_eq_false; done.
  - intros a t Ha. apply (kp_killed _ _ _ _ (si_kept _ Hinv')). by rewrite list_lookup_fmap, Ha.
Qed.

(** C37. Restarting works. In every configuration a test can reach, shutting down any
    server and starting it with new names for its ends does not panic: a new instance
    runs, with the persisted state the server had, in a persister that no other instance
    has, and [Raft] and the service can be called on it. *)
Theorem service_restarts {P T K Handler : Type} `{!Service P T K, !ServiceLaws P T K}
    (methods raft_methods : nat -> list (Method Handler)) (n i : nat) (names : nat -> string) (c : Conf P T Handler) :
  svc_run methods raft_methods n c -> i < n -> NoDup (names <$> seq 0 n) ->
  (forall j, j < n -> inl (names j) ∉ nw_ends (cg_net c)) ->
  exists c1 c2 a t, ShutdownServer i c = Some c1 /\ mjoin (cg_servers c1 !! i) = None /\
    StartServer methods raft_methods i names c1 = Some c2 /\
    cg_servers c2 !! i = Some (Some a) /\ cg_instances c2 !! a = Some t /\
    saved (cg_world c2) !! rf_persister (svc_rf t) = Some (default ("", "") (svc_value c i)) /\
    (forall a' t', cg_instances c2 !! a' = Some t' -> rf_persister (svc_rf t') = rf_persister (svc_rf t) -> a' = a) /\
    is_Some (server_at (inr i) (cg_net c2)).
Proof.
  intros (Hinv & Hn & Hst)%svc_run_inv Hi Hnd Hfr. subst n.
  destruct (ShutdownServer_total i c Hinv Hst Hi) as [c1 H1].
  destruct (ShutdownServer_spec _ _ _ Hinv H1) as (_ & Hinv1 & Hn1 & _ & Hs1 & Href).
  assert (Hdown : cg_servers c1 !! i = Some None).
  { rewrite Hs1. apply list_lookup_insert_eq. by rewrite (si_servers _ Hinv). }
  assert (Hends : nw_ends (cg_net c1) = nw_ends (cg_net c)).
  { apply bind_Some in H1 as (c' & Hd & Hc). apply bind_Some in Hd as (rn & [Hrn _ _ _]%disconnect_only & [= <-]).
    apply bind_Some in Hc as ([w sv] & _ & Hc). apply bind_Some in Hc as ([a|] & _ & [= <-]); done. }
  destruct (StartServer_total methods raft_methods i names c1 Hinv1) as [c2 H2]; [by rewrite Hn1|by rewrite Hn1| |].
  { intros j Hj. rewrite Hends. apply Hfr. by rewrite <- Hn1. }
  destruct (StartServer_spec _ _ _ _ _ _ Hinv1 Hdown H2) as (Hinv2 & Hn2 & _ & Hs2 & Hf).
  pose proof (si_kept _ Hinv2) as Hk2.
  assert (Ha : cg_servers c2 !! i = Some (Some (length (cg_instances c1)))).
  { rewrite Hs2. apply list_lookup_insert_eq. by rewrite (si_servers _ Hinv1), Hn1. }
  destruct (kp_running _ _ _ _ Hk2 _ _ Ha) as (rf & Hrf & Hme & Hsv).
  apply list_lookup_fmap_Some in Hrf as (t & -> & Ht).
  assert (Hv : svc_value c2 i = Some (default ("", "") (svc_value c i))).
  { unfold svc_value. rewrite (fresh_value _ _ _ _ _ _ ltac:(by rewrite (si_saved _ Hinv1), Hn1) Hf). do 2 f_equal.
    refine (value_in_refreshed _ _ _ _ _ _ i i (si_kept _ Hinv) _ Href). by rewrite (si_saved _ Hinv). }
  exists c1, c2, (length (cg_instances c1)), t. split_and!; try done.
  - by rewrite Hdown.
  - unfold svc_value, value_in in Hv. by rewrite Hsv in Hv.
  - intros a' t' Ht' Hp. assert (Ha' : cg_servers c2 !! i = Some (Some a')); [|congruence].
    eapply (kp_owner _ _ _ _ Hk2 _ _ a'); [exact Hsv|by rewrite list_lookup_fmap, Ht'|done].
  - apply (si_server _ Hinv2); [congruence|]. by rewrite Ha.
Qed.

(** ** Leaders *)

(** The server [i] runs and its Raft instance says that it leads. *)
Definition claims {P T K Handler} `{!Service P T K} (getState : Raft -> Z * bool) (c : Conf P T Handler) (i : nat) : Prop :=
  exists a t, cg_servers c !! i = Some (Some a) /\ cg_instances c !! a = Some t /\ (getState (svc_rf t)).2 = true.

(** The first server of [js] that claims to lead, or none. *)
Definition first_claim {P T K Handler} `{!Service P T K} (getState : Raft -> Z * bool) (c : Conf P T Handler)
    (js : list nat) (r : bool * nat) : Prop :=
  if r.1 then exists before after, js = before ++ r.2 :: after /\ claims getState c r.2 /\
    Forall (fun j => ~ claims getState c j) before
  else r.2 = 0 /\ Forall (fun j => ~ claims getState c j) js.

Section leaders.
Context {Handler : Type} (getState : Raft -> Z * bool).

Lemma first_claim_skip {P T K} `{!Service P T K} (c : Conf P T Handler) j js r :
  ~ claims getState c j -> first_claim getState c js r -> first_claim getState c (j :: js) r.
Proof.
  unfold first_claim. destruct r as [[|] l]; simpl; intros Hj.
  - intros (before & after & -> & Hl & Hb). exists (j :: before), after. split_and!; [done|done|by constructor].
  - intros [-> Hall]. split; [done|by constructor].
Qed.

Lemma first_claim_here {P T K} `{!Service P T K} (c : Conf P T Handler) j js :
  claims getState c j -> first_claim getState c (j :: js) (true, j).
Proof. intros Hj. exists [], js. split_and!; [done|done|constructor]. Qed.

(** What a run says of the entry of a server. *)
Lemma server_cases {P T K} `{!Service P T K} (c : Conf P T Handler) j :
  svc_inv c -> j < cg_n c ->
  cg_servers c !! j = Some None \/
  exists a t, cg_servers c !! j = Some (Some a) /\ cg_instances c !! a = Some t.
Proof.
  intros Hinv Hj. destruct (lookup_lt_is_Some_2 (cg_servers c) j) as [[a|] Ha]; [by rewrite (si_servers _ Hinv)| |by left].
  right. destruct (kp_running _ _ _ _ (si_kept _ Hinv) _ _ Ha) as (rf & Hrf & _).
  apply list_lookup_fmap_Some in Hrf as (t & _ & Ht). by exists a, t.
Qed.

Lemma ctrl_Leader_from_spec (c : Conf unit ShardCtrler Handler) js :
  svc_inv c -> Forall (fun j => j < cg_n c) js ->
  exists r, ctrl_Leader_from getState c js = Some r /\ first_claim getState c js r.
Proof.
  intros Hinv Hjs. induction Hjs as [|j js Hj Hjs (r & Hr & Hfc)]; cbn [ctrl_Leader_from]; [by exists (false, 0)|].
  destruct (server_cases c j Hinv Hj) as [Hn|(a & t & Ha & Ht)].
  - rewrite Hn; simpl. exists r. split; [done|]. apply first_claim_skip; [|done]. intros (a & t & Ha & _). congruence.
  - rewrite Ha; simpl. rewrite Ht; simpl. destruct ((getState (sc_rf t)).2) eqn:Hg.
    + exists (true, j). split; [done|]. apply first_claim_here. by exists a, t.
    + exists r. split; [done|]. apply first_claim_skip; [|done]. intros (a' & t' & Ha' & Ht' & Hg'). simplify_eq/=. congruence.
Qed.

(** Without the nil check a server that is down ends the search. *)
Lemma kv_Leader_from_spec (c : Conf Z KVServer Handler) js :
  svc_inv c -> Forall (fun j => j < cg_n c) js ->
  match kv_Leader_from getState c js with
  | Some r => first_claim getState c js r
  | None => exists before j after, js = before ++ j :: after /\ cg_servers c !! j = Some None /\
              Forall (fun i => ~ claims getState c i) before
  end.
Proof.
  intros Hinv Hjs. induction Hjs as [|j js Hj Hjs IH]; cbn [kv_Leader_from]; [done|].
  destruct (server_cases c j Hinv Hj) as [Hn|(a & t & Ha & Ht)].
  - rewrite Hn; simpl. exists [], j, js. by split_and!; [|done|constructor].
  - rewrite Ha; simpl. rewrite Ht; simpl. destruct ((getState (kv_rf t)).2) eqn:Hg.
    + apply first_claim_here. by exists a, t.
    + assert (Hj' : ~ claims getState c j) by (intros (a' & t' & Ha' & Ht' & Hg'); simplify_eq/=; congruence).
      destruct (kv_Leader_from getState c js) as [r|]; [by apply first_claim_skip|].
      destruct IH as (before & i & after & -> & Hi & Hb). exists (j :: before), i, after. split_and!; [done|done|by constructor].
Qed.
End leaders.

(** [Leader] finds the first server that says it leads. In the controller's tests it
    never panics and passes over servers that are down; in the key/value tests it gives
    the same answer, but panics when a server that is down comes before the first one
    that says it leads. *)
Theorem Leader_first_claim {Handler} (methods raft_methods : nat -> list (Method Handler)) (getState : Raft -> Z * bool) (n : nat) :
  (forall c : Conf unit ShardCtrler Handler, svc_run methods raft_methods n c ->
    exists r, ctrl_Leader getState c = Some r /\ first_claim getState c (seq 0 n) r) /\
  (forall c : Conf Z KVServer Handler, svc_run methods raft_methods n c ->
    match kv_Leader getState c with
    | Some r => first_claim getState c (seq 0 n) r
    | None => exists j, j < n /\ cg_servers c !! j = Some None /\ forall i, i < j -> ~ claims getState c i
    end).
Proof.
  split; intros c (Hinv & <- & _)%svc_run_inv.
  - apply ctrl_Leader_from_spec; [done|apply All_valid].
  - unfold kv_Leader. pose proof (kv_Leader_from_spec getState c (seq 0 (cg_n c)) Hinv (All_valid _)) as Hs.
    destruct (kv_Leader_from _ _ _) as [r|]; [done|]. destruct Hs as (before & j & after & Heq & Hj & Hb).
    assert (Hbj : before = seq 0 j /\ j < cg_n c).
    { pose proof (f_equal (lookup (length before)) Heq) as Hl. rewrite list_lookup_middle in Hl by done.
      apply lookup_seq in Hl as [-> Hlt]. split; [|done].
      pose proof (f_equal (take (length before)) Heq) as Ht. rewrite take_app_length in Ht. rewrite <- Ht at 1.
      rewrite take_seq. f_equal. simpl. lia. }
    destruct Hbj as [-> Hjn]. exists j. split_and!; [done..|]. intros i Hi. rewrite Forall_forall in Hb. apply Hb, elem_of_seq. lia.
Qed.

(** ** A test of the key/value service *)

(** Three servers and a clerk: an instance saves, its server is shut down, saves once
    more and is started again, and server 2 is shut down. *)
Module SvcDemo.
Definition name (gen i j : nat) : string :=
  Itoa (Z.of_nat gen) +:+ "-" +:+ Itoa (Z.of_nat i) +:+ "-" +:+ Itoa (Z.of_nat j).

Abbreviation KvDemo := (Conf Z KVServer unit).
Definition op : SvcOp -> KvDemo -> option KvDemo := svc_op (fun _ => []) (fun _ => []).
Definition run (n : nat) (c : KvDemo) : Prop := svc_run (fun _ => []) (fun _ => []) n c.

Fixpoint ops (os : list SvcOp) (c : KvDemo) : option KvDemo :=
  match os with [] => Some c | o :: os => c ← op o c; ops os c end.

Lemma ops_rtc os c c' : ops os c = Some c' -> rtc (fun x y => exists o, op o x = Some y) c c'.
Proof.
  revert c. induction os as [|o os IH]; intros c; simpl; [intros [= ->]; apply rtc_refl|].
  intros (c1 & H1 & Hr)%bind_Some. eapply rtc_l; [by exists o|by apply IH].
Qed.

Definition test : option KvDemo :=
  c ← make_config (fun _ => []) (fun _ => []) 3 false (-1)%Z (name 0);
  ops [SMakeClient 0 (name 1 0) (fun _ => 0) [0; 2]; SSave 1 "log" "snap"; SShutdown 1; SSave 1 "late" "";
       SStart 1 (name 2 1); SPartition [0; 1] [2]; SConnectAll; SShutdown 2] c.

Lemma test_run c : test = Some c -> run 3 c.
Proof.
  unfold test. intros (c0 & H0 & Hc)%bind_Some. exists false, (-1)%Z, (name 0), c0. split; [exact H0|].
  exact (ops_rtc _ c0 c Hc).
Qed.

Definition fresh_names (c : KvDemo) : bool :=
  bool_decide (Forall (fun j => inl (name 3 1 j) ∉ nw_ends (cg_net c)) (seq 0 3)).

(** What the test ends with. *)
Definition ok (x : option KvDemo) : bool :=
  match x with
  | Some c => bool_decide (svc_value c 1 = Some ("log", "snap")) && fresh_names c &&
      bool_decide (cg_servers c = [Some 0; Some 3; None]) && bool_decide (is_Some (op (SSave 1 "later" "") c))
  | None => false
  end.

Lemma test_ok : ok test = true.
Proof. vm_compute. reflexivity. Qed.

Lemma facts : exists c c', test = Some c /\ svc_value c 1 = Some ("log", "snap") /\ fresh_names c = true /\
  cg_servers c = [Some 0; Some 3; None] /\ op (SSave 1 "later" "") c = Some c'.
Proof.
  pose proof test_ok as Hok. destruct test as [c|]; [|done]. unfold ok in Hok.
  rewrite !andb_true_iff, !bool_decide_eq_true in Hok. destruct Hok as [[[Hv Hf] Hs] [c' Hc']]. by exists c, c'.
Qed.
End SvcDemo.


Lemma service_keeps_persisted_witness :
  exists c c', SvcDemo.test = Some c /\ SvcDemo.op (SSave 1 "later" "") c = Some c' /\
    svc_value c 1 = Some ("log", "snap") /\ svc_value c' 1 = svc_value c 1.
Proof.
  destruct SvcDemo.facts as (c & c' & Hc & Hv & _ & Hs & Hc'). exists c, c'. do 3 (split; [assumption|]).
  rewrite (proj1 (service_keeps_persisted (fun _ => []) (fun _ => []) 3 c c' _ (SvcDemo.test_run c Hc) Hc') 1) by lia.
  rewrite Hs. reflexivity.
Defined.

Lemma service_restarts_witness :
  exists c, SvcDemo.test = Some c /\
  exists c1 c2 a t, ShutdownServer 1 c = Some c1 /\ mjoin (cg_servers c1 !! 1) = None /\
    StartServer (fun _ => []) (fun _ => []) 1 (SvcDemo.name 3 1) c1 = Some c2 /\
    cg_servers c2 !! 1 = Some (Some a) /\ cg_instances c2 !! a = Some t /\
    saved (cg_world c2) !! rf_persister (kv_rf t) = Some (default ("", "") (svc_value c 1)) /\
    (forall a' t', cg_instances c2 !! a' = Some t' -> rf_persister (kv_rf t') = rf_persister (kv_rf t) -> a' = a) /\
    is_Some (server_at (inr 1) (cg_net c2)).
Proof.
  destruct SvcDemo.facts as (c & _ & Hc & _ & Hf & _). exists c. split; [exact Hc|].
  refine (service_restarts (fun _ => []) (fun _ => []) 3 1 (SvcDemo.name 3 1) c (SvcDemo.test_run c Hc) _ _ _).
  - lia.
  - apply (bool_decide_unpack _). vm_compute. exact I.
  - intros j Hj. apply bool_decide_eq_true in Hf. rewrite Forall_forall in Hf. apply Hf, elem_of_seq. lia.
Defined.

(** With an even number of servers the lists overlap: server 0 is on both sides. *)
Example make_partition_even : make_partition 4 2 = Some ([0; 1; 3], [0; 2]).
Proof. reflexivity. Qed.

(** In the test above nobody leads: the search of the key/value tests meets server 2,
    which is down. *)
Lemma Leader_first_claim_witness :
  exists c, SvcDemo.test = Some c /\
  match kv_Leader GetState c with
  | Some r => first_claim GetState c (seq 0 3) r
  | None => exists j, j < 3 /\ cg_servers c !! j = Some None /\ forall i, i < j -> ~ claims GetState c i
  end.
Proof.
  destruct SvcDemo.facts as (c & _ & Hc & _). exists c. split; [exact Hc|].
  exact (proj2 (Leader_first_claim (fun _ => []) (fun _ => []) GetState 3) c (SvcDemo.test_run c Hc)).
Defined.
