(* ===== verification/HarnessTheorems.v ===== *)
(** * What the testers and the clerks guarantee

    The claims about the configuration of the Raft tests (src/src/raft/config.go), about
    the clerks (src/src/shardctrler/client.go, src/src/shardkv/client.go) and about the
    size of the groups of src/src/shardkv/config.go, with the inputs on which they are
    run. *)

From Stdlib Require Import Ascii.
From S2P Require Import Prelude GoLib Labrpc Persister TestNet.
From S2P Require Import RaftHarness RaftHarnessFacts RaftSnapshots RaftConfig RaftConfigInv RaftConfigKeep.
From S2P Require Import SavedState Clerks ClerksFacts ShardConfig.

(** ** The Raft tester *)

(** C29. The tester of Raft accepts exactly the right behaviour. However the messages
    of the servers' apply channels arrive, it goes on if and only if they come from its
    servers, all servers apply the same command at an index, and each server applies
    the entry before an entry first. Its logs then hold exactly what was applied, and
    [nCommitted] never ends the test and counts the servers that applied an entry. *)
Theorem tester_accepts_consistent {Cmd} `{!EqDecision Cmd} (nilC : Cmd) (n : nat) (ms : list (nat * @ApplyMsg Cmd)) :
  (is_Some (apply_all ms (cfg_start n)) <-> consistent n ms) /\
  forall c, apply_all ms (cfg_start n) = Some c ->
    (forall i k v, entry_at c i k = Some v <-> applied ms i k v) /\
    forall k, exists v, nCommitted nilC k (logs c) = Some (holders k (logs c), v).
Proof.
  pose proof (apply_all_consistent n ms) as Hspec. split.
  - destruct (apply_all ms (cfg_start n)) as [c|]; [|naive_solver]. destruct Hspec. by split.
  - intros c Hc. rewrite Hc in Hspec. destruct Hspec as [Hco Hre]. split; [apply (re_entry _ _ _ Hre)|].
    intros k. destruct (nCommitted nilC k (logs c)) as [[m v]|] eqn:E.
    + apply nCommitted_spec in E as (-> & _). eauto.
    + apply nCommitted_none in E as (l & l' & v & w & [i Hi]%list_elem_of_lookup & [j Hj]%list_elem_of_lookup & Hv & Hw & Hne).
      destruct Hne. apply (co_agree _ _ Hco i j k); apply (re_entry _ _ _ Hre); unfold entry_at; by rewrite ?Hi, ?Hj.
Qed.

Definition cmd_msg (k v : Z) : @ApplyMsg Z := mkApplyMsg true v k false None 0 0.

(** Two servers apply two entries, interleaved. *)
Definition two_servers : list (nat * @ApplyMsg Z) :=
  [(0, cmd_msg 1 10); (1, cmd_msg 1 10); (1, cmd_msg 2 20); (0, cmd_msg 2 20)].

Lemma tester_accepts_consistent_witness :
  exists c, apply_all two_servers (cfg_start 2) = Some c /\ exists v, nCommitted 0%Z 2 (logs c) = Some (holders 2 (logs c), v).
Proof.
  destruct (apply_all two_servers (cfg_start 2)) as [c|] eqn:Hc; [|by vm_compute in Hc].
  exists c. split; [done|]. by apply (proj2 (tester_accepts_consistent 0%Z 2 two_servers) c Hc).
Defined.

(** C30. Snapshots do not confuse the tester. In every run of [applierSnap] over the
    servers, in which servers get commands and snapshots the tester made, never going
    back, the logs have no gap up to the last applied entry, servers agree so
    [nCommitted] never ends the test, and every snapshot made restores the entries
    that a server of the test holds. *)
Theorem snapshots_keep_logs {Cmd} `{!EqDecision Cmd} (nilC : Cmd) (encode : Z -> list Cmd -> string)
    (decode : string -> option (Z * list Cmd)) (n : nat) (s : @Cfg Cmd * list (Z * string)) :
  (forall k l, decode (encode k l) = Some (k, l)) ->
  rtc (snap_step nilC encode decode) (cfg_start n, []) s ->
  (forall i l last k, logs s.1 !! i = Some l -> lastApplied s.1 !! i = Some last -> (1 <= k <= last)%Z -> is_Some (l !! k)) /\
  (forall k, is_Some (nCommitted nilC k (logs s.1))) /\
  (forall k b, (k, b) ∈ s.2 -> exists i l L, logs s.1 !! i = Some l /\ decode b = Some (k, L) /\
    forall j, (1 <= j <= k)%Z -> is_Some (l !! j) /\ log_of L !! j = l !! j).
Proof.
  intros Hdec Hr. pose proof (snap_inv_reachable nilC encode decode Hdec n s Hr) as Hinv. split_and!.
  - intros i l last k Hl Hla. apply (lo_full _ _ _ (si_log _ _ _ _ Hinv i l last Hl Hla)).
  - intros k. destruct (nCommitted nilC k (logs s.1)) eqn:E; [done|].
    apply nCommitted_none in E as (l & l' & v & w & [i Hi]%list_elem_of_lookup & [j Hj]%list_elem_of_lookup & Hv & Hw & Hne).
    destruct Hne. apply (si_agree _ _ _ _ Hinv i j k); unfold entry_at; by rewrite ?Hi, ?Hj.
  - intros k b Hin. destruct (si_snaps _ _ _ _ Hinv _ Hin) as (_ & i & l & last & L & Hl & Hla & Hle & Hd & ->); simpl in *.
    exists i, l, (entries_upto nilC k l). split_and!; [done..|]. intros j Hj.
    destruct (lo_full _ _ _ (si_log _ _ _ _ Hinv i l last Hl Hla) j) as [v Hv]; [lia|].
    rewrite restored_lookup, decide_True, Hv by lia. done.
Qed.

(** A binary encoding for the example. *)
Fixpoint bits_of (p : positive) : string :=
  match p with xH => "" | xO p => String "0"%char (bits_of p) | xI p => String "1"%char (bits_of p) end.

Fixpoint of_bits (s : string) : positive :=
  match s with
  | EmptyString => 1
  | String c s => if decide (c = "0"%char) then xO (of_bits s) else xI (of_bits s)
  end.

Lemma of_bits_of p : of_bits (bits_of p) = p.
Proof. induction p as [p IH|p IH|]; simpl; by rewrite ?IH. Qed.

Definition enc (k : Z) (l : list Z) : string := bits_of (countable.encode (k, l)).
Definition dec (s : string) : option (Z * list Z) := countable.decode (of_bits s).

Lemma dec_enc k l : dec (enc k l) = Some (k, l).
Proof. unfold dec, enc. by rewrite of_bits_of, countable.decode_encode. Qed.

(** Handling one message of a run with snapshots, when it is allowed. *)
Definition snap_exec (s : @Cfg Z * list (Z * string)) (x : nat * @ApplyMsg Z) : option (@Cfg Z * list (Z * string)) :=
  let '(c, ss) := s in
  match applierSnap 0%Z enc dec x.1 x.2 c with
  | Continue _ (c', o) =>
      if SnapshotValid x.2 then
        b ← Snapshot x.2; last ← lastApplied c !! x.1;
        if decide ((SnapshotIndex x.2, b) ∈ ss /\ (last <= SnapshotIndex x.2)%Z /\ o = None) then Some (c', ss) else None
      else Some (c', option_list o ++ ss)
  | _ => None
  end.

Fixpoint snap_execs (xs : list (nat * @ApplyMsg Z)) (s : @Cfg Z * list (Z * string)) : option (@Cfg Z * list (Z * string)) :=
  match xs with [] => Some s | x :: xs => s ← snap_exec s x; snap_execs xs s end.

Lemma snap_execs_rtc xs s s' : snap_execs xs s = Some s' -> rtc (snap_step 0%Z enc dec) s s'.
Proof.
  revert s. induction xs as [|[i m] xs IH]; intros s; simpl; [intros [= ->]; apply rtc_refl|].
  intros (s1 & H1 & Hr)%bind_Some. eapply rtc_l; [|by apply IH]. destruct s as [c ss]. unfold snap_exec in H1; simpl in H1.
  destruct (applierSnap 0%Z enc dec i m c) as [[c' o]| |] eqn:Happ; [|done..]. destruct (SnapshotValid m) eqn:Hv.
  - apply bind_Some in H1 as (b & Hb & H1). apply bind_Some in H1 as (last & Hl & H1).
    destruct (decide _) as [(Hin & Hle & ->)|]; [|done]. injection H1 as <-. by eapply step_snapshot.
  - injection H1 as <-. by eapply step_command.
Qed.

(** Server 0 applies ten entries, with a snapshot after the ninth, which server 1
    then gets before it applies the tenth. *)
Definition snapshot_run : list (nat * @ApplyMsg Z) :=
  ((fun k => (0, cmd_msg k (10 * k))) <$> seqZ 1 10) ++
  [(1, mkApplyMsg false 0%Z 0 true (Some (enc 9 [0; 10; 20; 30; 40; 50; 60; 70; 80; 90]%Z)) 1 9); (1, cmd_msg 10 100)].

Lemma snapshots_keep_logs_witness :
  exists s, snap_execs snapshot_run (cfg_start 2, []) = Some s /\ is_Some (nCommitted 0%Z 10 (logs s.1)).
Proof.
  destruct (snap_execs snapshot_run (cfg_start 2, [])) as [s|] eqn:Hs; [|by vm_compute in Hs].
  exists s. split; [done|]. apply snap_execs_rtc in Hs.
  apply (snapshots_keep_logs 0%Z enc dec 2 s dec_enc Hs).
Defined.

(** C31. [checkOneLeader] finds the leader. With terms that are not negative, it
    returns the server that claims the highest term among the connected servers in the
    first of at most ten rounds in which a server claims to lead, if no two servers
    claim the same term then; it fails exactly when two do, or when nobody claims to
    lead in ten rounds. *)
Theorem checkOneLeader_correct (up : list bool) (answers : nat -> list (Z * bool)) :
  (forall k i t, claims up (answers k) i t -> (0 <= t)%Z) ->
  match checkOneLeader up answers with
  | Some i => exists k t, k < 10 /\ (forall k' j u, k' < k -> ~ claims up (answers k') j u) /\
      claims up (answers k) i t /\ (forall j u, claims up (answers k) j u -> (u <= t)%Z) /\
      (forall j j' u, claims up (answers k) j u -> claims up (answers k) j' u -> j = j')
  | None =>
      (forall k i t, k < 10 -> ~ claims up (answers k) i t) \/
      exists k i j t, k < 10 /\ (forall k' j u, k' < k -> ~ claims up (answers k') j u) /\ i <> j /\
        claims up (answers k) i t /\ claims up (answers k) j t
  end.
Proof.
  intros Hpos. apply (leader_loop_spec up answers 10 0 Hpos). lia.
Qed.

(** Three servers, the last disconnected with an old claim; the leader of term 2 is
    seen in the second round. *)
Definition election (k : nat) : list (Z * bool) :=
  if decide (k = 0) then [(1, false); (1, false); (1, true)]%Z else [(2, true); (2, false); (1, true)]%Z.

Lemma checkOneLeader_correct_witness :
  match checkOneLeader [true; true; false] election with
  | Some i => exists k t, k < 10 /\ (forall k' j u, k' < k -> ~ claims [true; true; false] (election k') j u) /\
      claims [true; true; false] (election k) i t /\ (forall j u, claims [true; true; false] (election k) j u -> (u <= t)%Z) /\
      (forall j j' u, claims [true; true; false] (election k) j u -> claims [true; true; false] (election k) j' u -> j = j')
  | None => False
  end.
Proof.
  assert (Hpos : forall k i t, claims [true; true; false] (election k) i t -> (0 <= t)%Z).
  { intros k i t [_ Hi]. unfold election in Hi. destruct (decide _); destruct i as [|[|[|i]]]; simplify_eq/=; lia. }
  exact (checkOneLeader_correct [true; true; false] election Hpos).
Defined.

(** C32. When [one] returns an index, there was agreement. Some server that claimed to
    be the leader returned this index for the command, and afterwards at least the
    expected number of servers, and one at least, had applied that command there, while
    no server had applied anything else there. *)
Theorem one_means_agreement {Cmd} `{!EqDecision Cmd} (nilC cmd : Cmd) (expectedServers : nat) (retry finished : bool)
    (n : nat) (attempts : list (@Attempt Cmd)) (k : Z) :
  one nilC cmd expectedServers retry finished n attempts = Some k -> k <> (-1)%Z ->
  exists a i ls, a ∈ attempts /\ at_starts a !! i = Some (Some (k, true)) /\ ls ∈ at_polls a /\
    0 < holders k ls /\ expectedServers <= holders k ls /\ forall l x, l ∈ ls -> l !! k = Some x -> x = cmd.
Proof. apply one_loop_agreement. Qed.

(** The first leader loses the command; the second attempt agrees at index 2. *)
Definition two_attempts : list (@Attempt Z) :=
  [mkAttempt [Some (1%Z, true); Some (0%Z, false); None] [[∅; ∅; ∅]];
   mkAttempt [None; Some (2%Z, true); Some (0%Z, false)]
     [[∅; {[2 := 7]}; ∅]; [∅; {[2 := 7]}; {[2 := 7]}]]%Z].

Lemma one_means_agreement_witness :
  one 0%Z 7%Z 2 true false 3 two_attempts = Some 2%Z /\
  exists a i ls, a ∈ two_attempts /\ at_starts a !! i = Some (Some (2%Z, true)) /\ ls ∈ at_polls a /\
    0 < holders 2 ls /\ 2 <= holders 2 ls /\ forall l x, l ∈ ls -> l !! 2%Z = Some x -> x = 7%Z.
Proof.
  assert (H : one 0%Z 7%Z 2 true false 3 two_attempts = Some 2%Z) by (vm_compute; reflexivity).
  split; [exact H|]. by apply (one_means_agreement 0%Z 7%Z 2 true false 3 two_attempts 2 H).
Defined.

(** ** The network and the servers of the Raft tests *)

(** C33. The tests control who can talk to whom. In every configuration that a test
    reaches by connecting, disconnecting, crashing and restarting servers, a request
    reaches a server exactly when it is sent on the current end of a connected server
    to a connected server that runs; the ends of crashed instances reach nobody. And
    connecting, disconnecting or crashing a server of the test never panics. *)
Theorem test_network_links {Cmd Handler} (decode : string -> option (Z * list Cmd))
    (raft_methods : nat -> list (Method Handler)) (n : nat) (c : @RaftConfig.Config Cmd Handler) :
  test_run decode raft_methods n c ->
  (forall nm, is_Some (readEndnameInfo nm (cf_net c)) <->
    exists i j e a, nm = inl e /\ end_of (cf_endnames c) i j = Some e /\
      cf_connected c !! i = Some true /\ cf_connected c !! j = Some true /\ cf_rafts c !! j = Some (Some a)) /\
  forall i, i < cf_n c -> is_Some (connect i c) /\ is_Some (disconnect i c) /\ is_Some (crash1 i c).
Proof.
  intros [Hinv Hst]%test_run_started. split.
  2: { intros i Hi. split_and!; [by apply connect_total|by apply disconnect_total|by apply crash1_total]. }
  pose proof (ci_wired _ Hinv) as Hw. intros nm. split.
  - intros Hr. assert (Hen : enabled_at nm (cf_net c) = true).
    { unfold readEndnameInfo in Hr. destruct (enabled_at nm (cf_net c)); [done|]. by destruct Hr. }
    apply (wi_enabled _ _ _ _ Hw) in Hen as (i & j & e & -> & He & Hi & Hj).
    destruct (wi_end _ _ _ (wi_wires _ _ _ _ Hw) _ _ _ He) as [_ Hco]. apply (reads_server _ _ j Hco) in Hr as [_ Hs].
    apply (ci_server _ Hinv) in Hs; [|by apply (end_of_lt _ _ _ _ _ _ (wi_wires _ _ _ _ Hw) He)].
    destruct Hs as [a Ha]. exists i, j, e, a. split_and!; [done..|].
    destruct (cf_rafts c !! j) as [[b|]|]; simplify_eq/=; done.
  - intros (i & j & e & a & -> & He & Hi & Hj & Ha). destruct (wi_end _ _ _ (wi_wires _ _ _ _ Hw) _ _ _ He) as [_ Hco].
    apply (reads_server _ _ j Hco). split; [apply (wi_enabled _ _ _ _ Hw); eauto 10|].
    apply (ci_server _ Hinv); [by apply (end_of_lt _ _ _ _ _ _ (wi_wires _ _ _ _ Hw) He)|]. by rewrite Ha.
Qed.

(** C34. Crashes and restarts keep the persisted state. In every configuration of a
    test, whatever it or an instance does next, the persisted state of a server is what
    its running instance saved last: crashing and restarting keep it, starting a server
    for the first time makes it empty, and what a crashed instance saves, or any other
    server does, does not touch it. Instances that do not run were killed. *)
Theorem restart_keeps_persisted {Cmd Handler} (decode : string -> option (Z * list Cmd))
    (raft_methods : nat -> list (Method Handler)) (n : nat) (c c' : @RaftConfig.Config Cmd Handler) (o : TestOp) :
  test_run decode raft_methods n c -> test_op decode raft_methods o c = Some c' ->
  (forall i, i < cf_n c -> value c' i =
    match o with
    | TSave a rs sn => if decide (cf_rafts c !! i = Some (Some a)) then Some (rs, sn) else value c i
    | TStart j _ => if decide (i = j) then Some (default ("", "") (value c i)) else value c i
    | _ => value c i
    end) /\
  forall a rf, cf_instances c' !! a = Some rf -> killed rf = true \/ cf_rafts c' !! rf_me rf = Some (Some a).
Proof.
  intros Hinv%test_run_inv Ho. destruct (test_op_inv _ _ _ _ _ Hinv Ho) as (Hinv' & _ & Hv). split; [exact Hv|].
  apply (kp_killed _ _ _ _ (ci_kept _ Hinv')).
Qed.

Definition demo_names (gen i j : nat) : string := Itoa (Z.of_nat gen) +:+ "-" +:+ Itoa (Z.of_nat i) +:+ "-" +:+ Itoa (Z.of_nat j).

Abbreviation DemoConfig := (@RaftConfig.Config Z unit).
Definition demo_op : TestOp -> DemoConfig -> option DemoConfig := test_op dec (fun _ => []).

Fixpoint demo_ops (os : list TestOp) (c : DemoConfig) : option DemoConfig :=
  match os with [] => Some c | o :: os => c ← demo_op o c; demo_ops os c end.

Lemma demo_ops_rtc os c c' : demo_ops os c = Some c' -> rtc (fun x y => exists o, demo_op o x = Some y) c c'.
Proof.
  revert c. induction os as [|o os IH]; intros c; simpl; [intros [= ->]; apply rtc_refl|].
  intros (c1 & H1 & Hr)%bind_Some. eapply rtc_l; [by exists o|by apply IH].
Qed.

(** A test of three servers: an instance saves, its server is crashed and restarted,
    the old instance saves once more, another server is disconnected. *)
Definition demo_test : option DemoConfig :=
  c ← RaftConfig.make_config dec (fun _ => []) 3 false (demo_names 0);
  demo_ops [TSave 1 "log" ""; TCrash 1; TStart 1 (demo_names 1 1); TSave 1 "late" ""; TConnect 1; TDisconnect 2] c.

Lemma demo_test_run c : demo_test = Some c -> test_run dec (fun _ => []) 3 c.
Proof.
  unfold demo_test. intros (c0 & H0 & Hc)%bind_Some. exists false, (demo_names 0), c0. split; [exact H0|].
  exact (demo_ops_rtc _ c0 c Hc).
Qed.

(** What the test ends with, computed once. *)
Definition demo_ok (x : option DemoConfig) : bool :=
  match x with
  | Some c => bool_decide (cf_n c = 3) && bool_decide (value c 1 = Some ("log", "")) &&
      bool_decide (cf_rafts c !! 1 <> Some (Some 1)) && bool_decide (is_Some (demo_op (TSave 1 "later" "") c))
  | None => false
  end.

Lemma demo_test_ok : demo_ok demo_test = true.
Proof. vm_compute. reflexivity. Qed.

Lemma demo_facts :
  exists c c', demo_test = Some c /\ cf_n c = 3 /\ value c 1 = Some ("log", "") /\ cf_rafts c !! 1 <> Some (Some 1) /\
    demo_op (TSave 1 "later" "") c = Some c'.
Proof.
  pose proof demo_test_ok as Hok. destruct demo_test as [c|]; [|done]. unfold demo_ok in Hok.
  rewrite !andb_true_iff, !bool_decide_eq_true in Hok. destruct Hok as [[[Hn Hv] Hr] [c' Hc']]. by exists c, c'.
Qed.

Lemma test_network_links_witness :
  exists c, demo_test = Some c /\ cf_n c = 3 /\
    (is_Some (readEndnameInfo (inl "1-1-0") (cf_net c)) <->
     exists i j e a, inl "1-1-0" = (inl e : NetName) /\ end_of (cf_endnames c) i j = Some e /\
       cf_connected c !! i = Some true /\ cf_connected c !! j = Some true /\ cf_rafts c !! j = Some (Some a)).
Proof.
  destruct demo_facts as (c & _ & Hc & Hn & _). exists c. split; [exact Hc|]. split; [exact Hn|].
  exact (proj1 (test_network_links dec (fun _ => []) 3 c (demo_test_run c Hc)) (inl "1-1-0")).
Defined.

Lemma restart_keeps_persisted_witness :
  exists c c', demo_test = Some c /\ demo_op (TSave 1 "later" "") c = Some c' /\
    value c 1 = Some ("log", "") /\ value c' 1 = value c 1.
Proof.
  destruct demo_facts as (c & c' & Hc & Hn & Hv & Hr & Hc'). exists c, c'. do 3 (split; [assumption|]).
  rewrite (proj1 (restart_keeps_persisted dec (fun _ => []) 3 c c' (TSave 1 "later" "") (demo_test_run c Hc) Hc') 1).
  - apply decide_False. exact Hr.
  - rewrite Hn. lia.
Defined.

(** ** The clerks *)

(** C39. The clerk of the sharded service gets its answers from the right group. When
    [Get] returns, its last step was a call that a server answered with this value and
    with OK or ErrNoKey; the server is in the group to which the clerk's configuration
    assigns the key's shard; and the configuration is the one the clerk had before or one
    that a controller claiming to lead returned during the call. When [PutAppend] returns,
    a server of that group answered its last call with OK. Both return once the system
    settles: if from [N] events on the controllers answer with one configuration and the
    servers of the key's group in it accept, the result is there after [N + 2] rounds with
    queries of [N + 1], and more fuel does not change it. *)
Theorem clerk_asks_right_group (env : Hist -> string -> forall r : Req, option (reply_of r)) (ctrlers : list string)
    (cfg : Config) (key : string) (h : Hist) :
  (forall fuel qfuel h' cfg' v, Get env fuel qfuel ctrlers cfg key h = (h', (cfg', Some v)) ->
    exists new servers e, h' = h ++ new /\ Groups cfg' !! shard_gid cfg' key = Some servers /\
      (e = OK \/ e = ErrNoKey) /\ ends_with servers (RGet key) (mkGetReply e v) new /\ obtained ctrlers cfg cfg' new) /\
  (forall fuel qfuel h' cfg' value op, PutAppend env fuel qfuel ctrlers cfg key value op h = (h', (cfg', true)) ->
    exists new servers, h' = h ++ new /\ Groups cfg' !! shard_gid cfg' key = Some servers /\
      ends_with servers (RPutAppend key value op) OK new /\ obtained ctrlers cfg cfg' new) /\
  (forall N cfg1, settled env N ctrlers cfg1 key -> exists h' cfg' v, forall fuel qfuel, N + 2 <= fuel -> S N <= qfuel ->
    Get env fuel qfuel ctrlers cfg key h = (h', (cfg', Some v))) /\
  (forall N cfg1 value op, put_settled env N ctrlers cfg1 key value op ->
    exists h' cfg', forall fuel qfuel, N + 2 <= fuel -> S N <= qfuel ->
      PutAppend env fuel qfuel ctrlers cfg key value op h = (h', (cfg', true))).
Proof.
  split_and!; intros; [by eapply Get_spec|by eapply PutAppend_spec|by eapply Get_total|by eapply PutAppend_total].
Qed.


(** A system in which the controller only answers after three events; group 100 serves
    every shard. *)
Definition late_config : Config := mkConfig 1 (vreplicate NShards 100%Z) {[100%Z := ["server-100-0"; "server-100-1"]]}.

Definition late_env (h : Hist) (srv : string) (r : Req) : option (reply_of r) :=
  match r with
  | RQuery _ => if decide (3 <= length h) then Some (mkQueryReply false late_config) else None
  | RGet _ => if decide (3 <= length h) then Some (mkGetReply OK "value") else None
  | RPutAppend _ _ _ => if decide (3 <= length h) then Some OK else None
  | _ => None
  end.

Lemma late_settled : settled late_env 3 ["ctrler0"] late_config "key".
Proof.
  split; [done| |].
  - exists ["server-100-0"; "server-100-1"]. split; [vm_compute; reflexivity|]. split; [done|].
    intros h srv Hh _. exists OK, "value". unfold late_env. rewrite decide_True by done. auto.
  - intros h c Hh _. unfold late_env. by rewrite decide_True.
Qed.

Lemma late_put_settled : put_settled late_env 3 ["ctrler0"] late_config "key" "v" "Append".
Proof.
  split; [split; [done|]|].
  - intros h c Hh _. unfold late_env. by rewrite decide_True.
  - exists ["server-100-0"; "server-100-1"]. split; [vm_compute; reflexivity|]. split; [done|].
    intros h srv Hh _. unfold late_env. by rewrite decide_True.
Qed.

(** A clerk that starts without a configuration, for [Get] and for [Append]. *)
Lemma clerk_asks_right_group_witness :
  (exists h' cfg' v new servers e, Get late_env 5 4 ["ctrler0"] initial_config "key" [] = (h', (cfg', Some v)) /\
    h' = [] ++ new /\ Groups cfg' !! shard_gid cfg' "key" = Some servers /\ (e = OK \/ e = ErrNoKey) /\
    ends_with servers (RGet "key") (mkGetReply e v) new /\ obtained ["ctrler0"] initial_config cfg' new) /\
  (exists h' cfg' new servers, PutAppend late_env 5 4 ["ctrler0"] initial_config "key" "v" "Append" [] = (h', (cfg', true)) /\
    h' = [] ++ new /\ Groups cfg' !! shard_gid cfg' "key" = Some servers /\
    ends_with servers (RPutAppend "key" "v" "Append") OK new /\ obtained ["ctrler0"] initial_config cfg' new).
Proof.
  destruct (clerk_asks_right_group late_env ["ctrler0"] initial_config "key" []) as (HG & HP & HGt & HPt). split.
  - destruct (HGt 3 late_config late_settled) as (h' & cfg' & v & Hret). specialize (Hret 5 4 ltac:(lia) ltac:(lia)).
    destruct (HG 5 4 h' cfg' v Hret) as (new & servers & e & Hrest). exists h', cfg', v, new, servers, e. split; [exact Hret|exact Hrest].
  - destruct (HPt 3 late_config "v" "Append" late_put_settled) as (h' & cfg' & Hret). specialize (Hret 5 4 ltac:(lia) ltac:(lia)).
    destruct (HP 5 4 h' cfg' "v" "Append" Hret) as (new & servers & Hrest). exists h', cfg', new, servers. split; [exact Hret|exact Hrest].
Defined.


(** ** The sharded key/value tests *)

(** The configuration of the sharded tests only works for groups of three. With
    more servers in a group than the three controllers, [make_config] panics, since the
    table of ends to the controllers has a row per controller and not per server; with
    fewer servers than controllers, making a clerk panics, since its table has an entry
    per server and not per controller. *)
Theorem shardkv_groups_of_three {Handler} (kv_methods ctrler_methods : nat -> list (Method Handler))
    (raft_methods : nat + nat -> list (Method Handler)) (n : nat) (unreliable : bool) (maxraftstate : Z) (cnames : nat -> nat -> string) (knames : nat -> string)
    (names mnames : nat -> nat -> nat -> string) :
  n <> 3 ->
  match ShardConfig.make_config kv_methods ctrler_methods raft_methods n unreliable maxraftstate cnames knames names mnames with
  | None => True
  | Some c => n < 3 /\ forall ck fresh, ShardConfig.makeClient ck fresh c = None
  end.
Proof.
  intros Hn. destruct (ShardConfig.make_config _ _ _ _ _ _ _ _ _ _) as [c|] eqn:Hc; [|done].
  apply make_config_sizes in Hc as [[Hc1 Hc2] Hle]. split; [lia|].
  intros ck fresh. unfold ShardConfig.makeClient. rewrite decide_False by lia. done.
Qed.

(** Groups of one server can be made, and of three, for which clerks can be made. *)
Lemma shardkv_groups_of_three_witness :
  1 <> 3 /\
  match ShardConfig.make_config (Handler := unit) (fun _ => []) (fun _ => []) (fun _ => []) 1 false (-1)
          (demo_names 0) (demo_names 1 0) (fun gi => demo_names (2 + gi)) (fun gi => demo_names (5 + gi)) with
  | None => True
  | Some c => 1 < 3 /\ forall ck fresh, ShardConfig.makeClient ck fresh c = None
  end.
Proof.
  split; [lia|].
  apply (shardkv_groups_of_three (Handler := unit) (fun _ => []) (fun _ => []) (fun _ => []) 1 false (-1)
    (demo_names 0) (demo_names 1 0) (fun gi => demo_names (2 + gi)) (fun gi => demo_names (5 + gi))). lia.
Defined.

Example shardkv_three_works :
  bool_decide (is_Some (c ← ShardConfig.make_config (Handler := unit) (fun _ => []) (fun _ => []) (fun _ => []) 3 false (-1)
      (demo_names 0) (demo_names 1 0) (fun gi => demo_names (2 + gi)) (fun gi => demo_names (5 + gi));
    ShardConfig.makeClient 0 (demo_names 8 0) c)) = true.
Proof. vm_compute. reflexivity. Qed.
