(* ===== verification/Skeletons.v ===== *)
(** * The services as they are in this repository

    The handlers of src/src/shardctrler/server.go, src/src/shardkv/server.go and
    src/src/kvraft/server.go, the clerk of src/src/kvraft/client.go and the bodies of
    src/src/raft/raft.go that a solution would fill in are empty: they return and leave
    server and reply as they are. Composed with the clerks and with the testers, this is
    what becomes of requests and tests. *)

From S2P Require Import Prelude GoLib RaftHarness RaftConfig KvConfig Clerks ClerksFacts CtrlConfig ShardConfig.

(** ** Raft *)

Definition persist (rf : Raft) : Raft := rf.

(** Restores nothing, also from a state that is not empty. *)
Definition readPersist (data : string) (rf : Raft) : Raft :=
  if decide (String.length data < 1) then rf else rf.

Definition Snapshot (index : Z) (snapshot : string) (rf : Raft) : Raft := rf.

(** The arguments and the reply have no fields. *)
Definition RequestVote (rf : Raft) (args reply : unit) : Raft * unit := (rf, reply).

(** ** The key/value service *)

Record KvPutAppendArgs := mkKvPutAppendArgs { pa_Key : string; pa_Value : string; pa_Op : string }.

Definition kv_Get (kv : KVServer) (key : string) (reply : GetReply) : KVServer * GetReply := (kv, reply).

Definition kv_PutAppend (kv : KVServer) (args : KvPutAppendArgs) (reply : Err) : KVServer * Err := (kv, reply).

(** The clerk asks nobody. *)
Definition kck_Get (ck : KvClerk) (key : string) : string := "".

Definition kck_PutAppend (ck : KvClerk) (key value op : string) : KvClerk := ck.

Definition kck_Put (ck : KvClerk) (key value : string) : KvClerk := kck_PutAppend ck key value "Put".

Definition kck_Append (ck : KvClerk) (key value : string) : KvClerk := kck_PutAppend ck key value "Append".

(** ** The shard controller and the sharded service *)

Definition sc_Join (sc : ShardCtrler) (servers : gmap Z (list string)) (reply : bool) : ShardCtrler * bool := (sc, reply).
Definition sc_Leave (sc : ShardCtrler) (gids : list Z) (reply : bool) : ShardCtrler * bool := (sc, reply).
Definition sc_Move (sc : ShardCtrler) (shard gid : Z) (reply : bool) : ShardCtrler * bool := (sc, reply).
Definition sc_Query (sc : ShardCtrler) (num : Z) (reply : QueryReply) : ShardCtrler * QueryReply := (sc, reply).

Definition skv_Get (kv : ShardKV) (key : string) (reply : GetReply) : ShardKV * GetReply := (kv, reply).
Definition skv_PutAppend (kv : ShardKV) (key value op : string) (reply : Err) : ShardKV * Err := (kv, reply).

(** *** Requests at servers *)

Inductive Server := Ctrler (sc : ShardCtrler) | Member (kv : ShardKV).

(** A server has the handlers of its kind. *)
Definition handle (srv : Server) (r : Req) : reply_of r -> option (Server * reply_of r) :=
  match r, srv with
  | RQuery num, Ctrler sc => fun reply => let '(sc, reply) := sc_Query sc num reply in Some (Ctrler sc, reply)
  | RJoin servers, Ctrler sc => fun reply => let '(sc, reply) := sc_Join sc servers reply in Some (Ctrler sc, reply)
  | RLeave gids, Ctrler sc => fun reply => let '(sc, reply) := sc_Leave sc gids reply in Some (Ctrler sc, reply)
  | RMove shard gid, Ctrler sc => fun reply => let '(sc, reply) := sc_Move sc shard gid reply in Some (Ctrler sc, reply)
  | RGet key, Member kv => fun reply => let '(kv, reply) := skv_Get kv key reply in Some (Member kv, reply)
  | RPutAppend key value op, Member kv => fun reply => let '(kv, reply) := skv_PutAppend kv key value op reply in Some (Member kv, reply)
  | _, _ => fun _ => None
  end.

(** The new reply that a handler is given. *)
Definition zero_reply (r : Req) : reply_of r :=
  match r with
  | RQuery _ => mkQueryReply false initial_config
  | RJoin _ | RLeave _ | RMove _ _ => false
  | RGet _ => mkGetReply "" ""
  | RPutAppend _ _ _ => ""
  end.

Section system.
(** Which requests are delivered and answered is up to the network. *)
Variable delivered : Hist -> string -> Req -> bool.

(** The servers after the calls of a history. *)
Fixpoint servers_after (servers : gmap string Server) (h : Hist) : gmap string Server :=
  match h with
  | [] => servers
  | Called name r _ :: h =>
      servers_after match servers !! name ≫= (fun srv => handle srv r (zero_reply r)) with
                    | Some (srv, _) => <[name := srv]> servers
                    | None => servers
                    end h
  | Slept :: h => servers_after servers h
  end.

Definition answer_of (servers : gmap string Server) (h : Hist) (name : string) (r : Req) : option (reply_of r) :=
  if delivered h name r then
    srv ← servers_after servers h !! name;
    '(_, reply) ← handle srv r (zero_reply r);
    Some reply
  else None.

Variable servers : gmap string Server.
Abbreviation env := (answer_of servers).

Lemma handle_nothing srv r reply srv' reply' : handle srv r reply = Some (srv', reply') -> srv' = srv /\ reply' = reply.
Proof. destruct r, srv; simpl; intros Hh; try done; by injection Hh as <- <-. Qed.

(** No request changes a server. *)
Lemma servers_after_same h : servers_after servers h = servers.
Proof.
  induction h as [|[name r a|] h IH]; simpl; [done| |done].
  destruct (servers !! name) as [srv|] eqn:Hs; simpl; [|done].
  destruct (handle srv r (zero_reply r)) as [[srv' reply]|] eqn:Hh; [|done].
  apply handle_nothing in Hh as [-> _]. by rewrite insert_id.
Qed.

Lemma answer_zero h name r reply : env h name r = Some reply -> reply = zero_reply r.
Proof.
  unfold answer_of. destruct (delivered h name r); [|done]. intros (srv & _ & ([srv' reply'] & Hh & [= <-])%bind_Some)%bind_Some.
  by apply handle_nothing in Hh as [_ ->].
Qed.

(** *** The clerks *)

Lemma try_servers_zero names r accept h reply :
  (try_servers env names r accept h).2 = Some reply -> reply = zero_reply r.
Proof.
  revert h. induction names as [|name names IH]; intros h; simpl; [done|]. unfold mbind, M_bind, call.
  destruct (env h name r) as [rep|] eqn:He; [|apply IH]. destruct (accept rep); [|apply IH].
  simpl. intros [= <-]. by eapply answer_zero.
Qed.

Lemma until_accepted_zero fuel names r accept h reply :
  (until_accepted env fuel names r accept h).2 = Some reply -> reply = zero_reply r.
Proof.
  revert h. induction fuel as [|fuel IH]; intros h; simpl; [done|]. unfold mbind, M_bind.
  destruct (try_servers env names r accept h) as [h1 got] eqn:Ht. destruct got as [rep|].
  - simpl. intros [= <-]. by rewrite (try_servers_zero names r accept h rep) by (by rewrite Ht).
  - apply IH.
Qed.

Lemma Query_zero fuel ctrlers num h cfg : (Query env fuel ctrlers num h).2 = Some cfg -> cfg = initial_config.
Proof.
  unfold Query, mbind, M_bind. destruct (until_accepted _ _ _ _ _ _) as [h1 got] eqn:Hu. simpl.
  intros (reply & -> & ->)%fmap_Some. by rewrite (until_accepted_zero fuel ctrlers (RQuery num) _ h reply (f_equal snd Hu)).
Qed.

Lemma Get_never fuel qfuel ctrlers key h : (Get env fuel qfuel ctrlers initial_config key h).2.2 = None.
Proof.
  revert h. induction fuel as [|fuel IH]; intros h; [done|]. cbn [Get]. change (Groups initial_config) with (∅ : gmap Z (list string)).
  rewrite lookup_empty. unfold mbind, M_bind, mret, M_ret, sleep.
  destruct (Query env qfuel ctrlers (-1) (h ++ [Slept])) as [h1 q] eqn:Hq. destruct q as [cfg|]; [|done].
  rewrite (Query_zero qfuel ctrlers (-1) (h ++ [Slept]) cfg) by (by rewrite Hq). apply IH.
Qed.

Lemma PutAppend_never fuel qfuel ctrlers key value op h :
  (PutAppend env fuel qfuel ctrlers initial_config key value op h).2.2 = false.
Proof.
  revert h. induction fuel as [|fuel IH]; intros h; [done|]. cbn [PutAppend]. change (Groups initial_config) with (∅ : gmap Z (list string)).
  rewrite lookup_empty. unfold mbind, M_bind, mret, M_ret, sleep.
  destruct (Query env qfuel ctrlers (-1) (h ++ [Slept])) as [h1 q] eqn:Hq. destruct q as [cfg|]; [|done].
  rewrite (Query_zero qfuel ctrlers (-1) (h ++ [Slept]) cfg) by (by rewrite Hq). apply IH.
Qed.

(** A request that reaches a controller is accepted: an empty reply says that it leads. *)
Lemma first_ctrler_accepts name names r accept h sc :
  servers !! name = Some (Ctrler sc) -> delivered h name r = true -> accept (zero_reply r) = true ->
  match r with RGet _ | RPutAppend _ _ _ => False | _ => True end ->
  try_servers env (name :: names) r accept h = (h ++ [Called name r (Some (zero_reply r))], Some (zero_reply r)).
Proof.
  intros Hs Hd Ha Hr. assert (He : env h name r = Some (zero_reply r)).
  { unfold answer_of. rewrite Hd, servers_after_same, Hs. by destruct r. }
  cbn [try_servers]. unfold mbind, M_bind, call. by rewrite He, Ha.
Qed.

(** The sharded service of this repository is lost in silence: a [Join] that reaches the
    first controller returns at once as done, but whatever was joined every [Query] that
    returns gives the configuration without groups, so that [Get], [Put] and [Append] of a
    new clerk go on for ever, whatever the network does. *)
Theorem skeleton_service_stays_empty :
  (forall fuel name names sc groups h, servers !! name = Some (Ctrler sc) -> delivered h name (RJoin groups) = true ->
    (Join env (S fuel) (name :: names) groups h).2 = true) /\
  (forall fuel ctrlers num h cfg, (Query env fuel ctrlers num h).2 = Some cfg -> cfg = initial_config) /\
  (forall fuel qfuel ctrlers key h, (Get env fuel qfuel ctrlers initial_config key h).2.2 = None) /\
  (forall fuel qfuel ctrlers key value op h, (PutAppend env fuel qfuel ctrlers initial_config key value op h).2.2 = false).
Proof.
  split_and!; [|apply Query_zero|apply Get_never|apply PutAppend_never].
  intros fuel name names sc groups h Hs Hd. unfold Join, mbind, M_bind. cbn [until_accepted]. unfold mbind, M_bind.
  by rewrite (first_ctrler_accepts name names _ _ h sc).
Qed.
End system.

(** ** The Raft tests *)

Lemma leaders_from_none i connected (sts : list (Z * bool)) ls :
  Forall (fun st => st.2 = false) sts -> leaders_from i connected sts ls = ls.
Proof.
  intros Hall. revert i connected. induction Hall as [|[t l] sts Hl _ IH]; intros i [|up connected]; simpl; try done.
  simpl in Hl. subst l. rewrite andb_false_r. apply IH.
Qed.

Lemma find_leader_none n starts si k :
  (forall i o, starts !! i = Some (Some o) -> o = ((-1)%Z, true)) -> (find_leader n starts si k).1 = (-1)%Z.
Proof.
  intros Hall. revert k. induction si as [|si IH]; intros k; [done|]. cbn [find_leader].
  destruct (starts !! (S k `mod` n)) as [[[ix [|]]|]|] eqn:E; try apply IH.
  apply Hall in E. by injection E as ->.
Qed.

(** What [one] uses of the answer of [Start]. *)
Definition start_answer {Cmd} (cmd : Cmd) (rf : Raft) : Z * bool := let '(index, _, ok) := Start cmd rf in (index, ok).

Definition states (rafts : list Raft) : list (Z * bool) := GetState <$> rafts.

(** The skeleton of Raft fails the tests: no server ever claims to lead, so that
    [checkOneLeader] ends the test after ten rounds; and as [Start] returns -1 at every
    server, [one] finds no index and ends the test when its ten seconds are over. *)
Theorem skeleton_fails_raft_tests {Cmd} `{!EqDecision Cmd} (nilC : Cmd) (rafts : nat -> list Raft) (connected : list bool) :
  checkOneLeader connected (fun iters => states (rafts iters)) = None /\
  forall cmd expected retry n attempts,
    Forall (fun a => exists up : list (option Raft), at_starts a = (fun o : option Raft => start_answer cmd <$> o) <$> up) attempts ->
    one nilC cmd expected retry false n attempts = None.
Proof.
  split.
  - enough (Hloop : forall k it, leader_loop connected (fun iters => states (rafts iters)) k it = None) by apply Hloop.
    induction k as [|k IH]; intros it; [done|]. cbn [leader_loop].
    unfold leader_round. rewrite leaders_from_none; [apply IH|]. unfold states. apply Forall_fmap, Forall_true. done.
  - intros cmd expected retry n attempts Hall. unfold one. generalize 0.
    induction Hall as [|a attempts [up Hup] _ IH]; intros k; [done|]. cbn [one_loop].
    destruct (find_leader n (at_starts a) n k) as [index starts] eqn:E.
    assert (index = (-1)%Z) as ->.
    { replace index with (find_leader n (at_starts a) n k).1 by (by rewrite E). apply find_leader_none.
      intros i o. rewrite Hup, list_lookup_fmap. intros ([rf|] & _ & [= ->])%fmap_Some. done. }
    rewrite decide_False by (intros H; by apply H). apply IH.
Qed.
