(* ===== verification/Commands.v ===== *)
(** * The command lines under src/src/main

    What the main programs of the other labs (diskvd, lockc, lockd, pbc, pbd, viewd) and
    mrworker do with [os.Args]: print their usage and exit, or call the packages they are
    for, which are not in the repository; the calls are values of [Outcome]. *)

From Stdlib Require Import Ascii.
From stdpp Require Import pretty.
From S2P Require Import Prelude GoLib.

(** ** strconv *)

(** [ParseUint] of a string in base 10: the number, and whether there is an error. It
    stops at the first character that is not a digit, with 0, and at the first digit
    beyond 64 bits, with the largest number. *)
Inductive NumError := ErrSyntax | ErrRange.

Definition digit (c : ascii) : option Z :=
  let n := Z.of_nat (nat_of_ascii c) in if decide (48 <= n <= 57)%Z then Some (n - 48)%Z else None.

Fixpoint ParseUint_from (s : string) (n : Z) : Z * option NumError :=
  match s with
  | "" => (n, None)
  | String c s =>
      match digit c with
      | None => (0%Z, Some ErrSyntax)
      | Some d => if decide (n * 10 + d < 2 ^ 64)%Z then ParseUint_from s (n * 10 + d)%Z else (2 ^ 64 - 1, Some ErrRange)%Z
      end
  end.

Definition ParseUint (s : string) : Z * option NumError :=
  match s with "" => (0%Z, Some ErrSyntax) | _ => ParseUint_from s 0 end.

(** The sign, if there is one, and the rest. *)
Definition split_sign (s : string) : bool * string :=
  match s with
  | String "+" s => (false, s)
  | String "-" s => (true, s)
  | _ => (false, s)
  end.

(** [ParseInt(s, 10, 64)]; [Atoi] gives the same number and error. *)
Definition ParseInt (s : string) : Z * option NumError :=
  let '(neg, digits) := split_sign s in
  match ParseUint digits with
  | (_, Some ErrSyntax) => (0%Z, Some ErrSyntax)
  | (un, err) =>
      if negb neg && bool_decide (2 ^ 63 <= un)%Z then (2 ^ 63 - 1, Some ErrRange)%Z
      else if neg && bool_decide (2 ^ 63 < un)%Z then (- 2 ^ 63, Some ErrRange)%Z
      else ((if neg then - un else un)%Z, err)
  end.

Definition Atoi (s : string) : Z * option NumError := ParseInt s.

Definition ParseBool (s : string) : bool * option NumError :=
  if decide (s ∈ ["1"; "t"; "T"; "true"; "TRUE"; "True"]) then (true, None)
  else if decide (s ∈ ["0"; "f"; "F"; "false"; "FALSE"; "False"]) then (false, None)
  else (false, Some ErrSyntax).

(** ** Outcomes *)

Inductive Outcome :=
  | Usage
  | Diskvd (gid : Z) (masters replicas : list string) (me : Z) (dir : string) (restart unreliable : bool)
  | Lock (primary backup name : string) | Unlock (primary backup name : string)
  | LockServer (primary backup : string) (am_primary : bool)
  | PbGet (view key : string) | PbPut (view key value : string)
  | PbServer (view me : string) | ViewServer (port : string)
  | MrWorker.

(** ** diskvd *)

Record Options := mkOptions {
  o_gid : Z; o_masters : list string; o_replicas : list string; o_me : Z;
  o_unreliable : bool; o_dir : string; o_restart : bool }.

Definition no_options : Options := mkOptions (-1) [] [] (-1) false "" false.

(** The body of the loop over the arguments; errors of [strconv] are ignored. *)
Definition diskvd_option (a0 a1 : string) (o : Options) : option Options :=
  let '(mkOptions gid masters replicas me unreliable dir restart) := o in
  if decide (a0 = "-g") then Some (mkOptions (ParseInt a1).1 masters replicas me unreliable dir restart)
  else if decide (a0 = "-m") then Some (mkOptions gid (masters ++ [a1]) replicas me unreliable dir restart)
  else if decide (a0 = "-s") then Some (mkOptions gid masters (replicas ++ [a1]) me unreliable dir restart)
  else if decide (a0 = "-i") then Some (mkOptions gid masters replicas (Atoi a1).1 unreliable dir restart)
  else if decide (a0 = "-u") then Some (mkOptions gid masters replicas me (ParseBool a1).1 dir restart)
  else if decide (a0 = "-d") then Some (mkOptions gid masters replicas me unreliable a1 restart)
  else if decide (a0 = "-r") then Some (mkOptions gid masters replicas me unreliable dir (ParseBool a1).1)
  else None.

(** Pairs of arguments; one that is left over is not looked at. *)
Fixpoint diskvd_loop (args : list string) (o : Options) : option Options :=
  match args with
  | a0 :: a1 :: args => o ← diskvd_option a0 a1 o; diskvd_loop args o
  | _ => Some o
  end.

Definition diskvd (Args : list string) : Outcome :=
  match diskvd_loop (drop 1 Args) no_options with
  | None => Usage
  | Some o =>
      if decide ((o_gid o < 0)%Z \/ (o_me o < 0)%Z \/ length (o_masters o) < 1 \/ (Z.of_nat (length (o_replicas o)) <= o_me o)%Z \/ o_dir o = "")
      then Usage
      else Diskvd (o_gid o) (o_masters o) (o_replicas o) (o_me o) (o_dir o) (o_restart o) (o_unreliable o)
  end.

(** ** The others *)

Definition lockc (Args : list string) : Outcome :=
  match Args with
  | [_; a1; a2; a3; a4] =>
      if decide (a1 = "-l") then Lock a2 a3 a4 else if decide (a1 = "-u") then Unlock a2 a3 a4 else Usage
  | _ => Usage
  end.

Definition lockd (Args : list string) : Outcome :=
  match Args with
  | [_; a1; a2; a3] =>
      if decide (a1 = "-p") then LockServer a2 a3 true else if decide (a1 = "-b") then LockServer a2 a3 false else Usage
  | _ => Usage
  end.

Definition pbc (Args : list string) : Outcome :=
  match Args with
  | [_; view; key] => PbGet view key
  | [_; view; key; value] => PbPut view key value
  | _ => Usage
  end.

Definition pbd (Args : list string) : Outcome := match Args with [_; view; me] => PbServer view me | _ => Usage end.

Definition viewd (Args : list string) : Outcome := match Args with [_; port] => ViewServer port | _ => Usage end.

(** [Worker] reads the name of the plugin from [os.Args] itself. *)
Definition mrworker (Args : list string) : Outcome := if decide (length Args = 2) then MrWorker else Usage.

(** ** Numbers *)

Lemma digit_char (d : N) : (d < 10)%N -> digit (pretty_N_char d) = Some (Z.of_N d).
Proof.
  intros Hd. assert (Hin : d ∈ [0; 1; 2; 3; 4; 5; 6; 7; 8; 9]%N).
  { destruct d as [|p]; [by left|]. repeat (destruct p as [p|p|]; try lia); set_solver. }
  repeat (apply elem_of_cons in Hin as [->|Hin]; [reflexivity|]). by apply not_elem_of_nil in Hin.
Qed.

Lemma ParseUint_pretty_go (x : N) s :
  (Z.of_N x < 2 ^ 64)%Z -> ParseUint_from (pretty_N_go x s) 0 = ParseUint_from s (Z.of_N x).
Proof.
  revert s. induction (N.lt_wf_0 x) as [x _ IH]. intros s Hx. destruct (decide (x = 0)%N) as [->|Hne]; [done|].
  rewrite pretty_N_go_step by lia. pose proof (N.Div0.div_mod x 10) as Hdm. pose proof (N.mod_lt x 10 ltac:(done)) as Hm.
  rewrite IH by (apply N.div_lt; lia) || (pose proof (N.div_lt x 10); lia). cbn [ParseUint_from]. rewrite digit_char by done.
  replace (Z.of_N (x `div` 10) * 10 + Z.of_N (x `mod` 10))%Z with (Z.of_N x) by lia. by rewrite decide_True.
Qed.

Lemma Itoa_nonneg n : (0 <= n)%Z -> Itoa n = if decide (n = 0)%Z then "0" else pretty_N_go (Z.to_N n) "".
Proof. intros Hn. destruct n as [|p|p]; [done| |lia]. reflexivity. Qed.

Lemma pretty_N_go_nonempty x c s : exists c' s', pretty_N_go x (String c s) = String c' s'.
Proof.
  revert c s. induction (N.lt_wf_0 x) as [x _ IH]; intros c s. destruct (decide (x = 0)%N) as [->|Hx]; [by eexists _, _|].
  rewrite pretty_N_go_step by lia. apply IH. apply N.div_lt; lia.
Qed.

(** A decimal numeral is read back. *)
Lemma ParseInt_Itoa n : (0 <= n < 2 ^ 63)%Z -> ParseInt (Itoa n) = (n, None).
Proof.
  intros Hn. assert (Hsign : split_sign (Itoa n) = (false, Itoa n) /\ Itoa n <> "").
  { assert (Hm : str_free "-" (Itoa n)) by (apply Itoa_free; [lia|apply digits_not; tauto]).
    assert (Hp : str_free "+" (Itoa n)) by (apply Itoa_free; [lia|repeat constructor; done]).
    rewrite Itoa_nonneg in Hm, Hp |- * by lia. case_decide; [done|]. rewrite pretty_N_go_step in Hm, Hp |- * by lia.
    destruct (pretty_N_go_nonempty (Z.to_N n `div` 10) (pretty_N_char (Z.to_N n `mod` 10)) "") as (c & s & E).
    rewrite E in Hm, Hp |- *. split; [|done]. destruct Hm as [Hm _], Hp as [Hp _]. unfold split_sign.
    repeat (match goal with |- context [match ?x with Ascii _ _ _ _ _ _ _ _ => _ end] => destruct x end
      || match goal with |- context [if ?b then _ else _] => destruct b end); try done; exfalso; tauto. }
  destruct Hsign as [Hsign Hne]. unfold ParseInt. rewrite Hsign.
  assert (ParseUint (Itoa n) = (n, None)) as ->.
  { unfold ParseUint. destruct (Itoa n) as [|c s] eqn:E; [done|]. rewrite <- E, Itoa_nonneg by lia. case_decide; [by subst|].
    rewrite ParseUint_pretty_go by lia. cbn [ParseUint_from]. f_equal. lia. }
  cbn [negb andb]. by rewrite bool_decide_eq_false_2 by lia.
Qed.

(** ** What diskvd accepts *)

(** A server is only started with a group, a master, a directory and an index among its
    replicas. *)
Theorem diskvd_checks Args gid masters replicas me dir restart unreliable :
  diskvd Args = Diskvd gid masters replicas me dir restart unreliable ->
  (0 <= gid)%Z /\ masters <> [] /\ (exists r, 0 <= me /\ replicas !! Z.to_nat me = Some r)%Z /\ dir <> "".
Proof.
  unfold diskvd. destruct (diskvd_loop _ _) as [o|]; [|done]. case_decide as Hc; [done|]. intros [= <- <- <- <- <- <- <-].
  assert (0 <= o_gid o /\ 0 <= o_me o < Z.of_nat (length (o_replicas o)))%Z as [? Hme] by lia.
  split_and!; [done| | |tauto].
  - intros E. rewrite E in Hc. simpl in Hc. lia.
  - destruct (lookup_lt_is_Some_2 (o_replicas o) (Z.to_nat (o_me o))) as [r Hr]; [lia|]. exists r. split; [lia|done].
Qed.

(** The command line for some options. *)
Definition diskvd_args (o : Options) : list string :=
  ["diskvd"; "-g"; Itoa (o_gid o)] ++ (o_masters o ≫= fun m => ["-m"; m]) ++ (o_replicas o ≫= fun r => ["-s"; r]) ++
  ["-i"; Itoa (o_me o); "-u"; if o_unreliable o then "true" else "false"; "-d"; o_dir o; "-r"; if o_restart o then "true" else "false"].

Lemma diskvd_loop_masters ms rest gid masters replicas me u dir r :
  diskvd_loop ((ms ≫= fun m => ["-m"; m]) ++ rest) (mkOptions gid masters replicas me u dir r)
  = diskvd_loop rest (mkOptions gid (masters ++ ms) replicas me u dir r).
Proof.
  revert masters. induction ms as [|m ms IH]; intros masters; [by rewrite app_nil_r|]. rewrite bind_cons. simpl app.
  change (diskvd_loop ((ms ≫= fun m => ["-m"; m]) ++ rest) (mkOptions gid (masters ++ [m]) replicas me u dir r)
    = diskvd_loop rest (mkOptions gid (masters ++ m :: ms) replicas me u dir r)). by rewrite IH, <- app_assoc.
Qed.

Lemma diskvd_loop_replicas rs rest gid masters replicas me u dir r :
  diskvd_loop ((rs ≫= fun m => ["-s"; m]) ++ rest) (mkOptions gid masters replicas me u dir r)
  = diskvd_loop rest (mkOptions gid masters (replicas ++ rs) me u dir r).
Proof.
  revert replicas. induction rs as [|m rs IH]; intros replicas; [by rewrite app_nil_r|]. rewrite bind_cons. simpl app.
  change (diskvd_loop ((rs ≫= fun m => ["-s"; m]) ++ rest) (mkOptions gid masters (replicas ++ [m]) me u dir r)
    = diskvd_loop rest (mkOptions gid masters (replicas ++ m :: rs) me u dir r)). by rewrite IH, <- app_assoc.
Qed.

(** diskvd starts with the options that its command line was made of. *)
Theorem diskvd_round_trip o :
  (0 <= o_gid o < 2 ^ 63)%Z -> o_masters o <> [] -> (0 <= o_me o < 2 ^ 63)%Z ->
  (o_me o < Z.of_nat (length (o_replicas o)))%Z -> o_dir o <> "" ->
  diskvd (diskvd_args o)
  = Diskvd (o_gid o) (o_masters o) (o_replicas o) (o_me o) (o_dir o) (o_restart o) (o_unreliable o).
Proof.
  destruct o as [gid masters replicas me u dir r]. simpl. intros Hg Hm Hme Hlt Hd. unfold diskvd, diskvd_args. cbn [o_gid o_masters o_replicas o_me o_unreliable o_dir o_restart].
  assert (E : diskvd_loop (drop 1 (["diskvd"; "-g"; Itoa gid] ++ (masters ≫= fun m => ["-m"; m]) ++ (replicas ≫= fun r => ["-s"; r]) ++
    ["-i"; Itoa me; "-u"; if u then "true" else "false"; "-d"; dir; "-r"; if r then "true" else "false"])) no_options
    = Some (mkOptions gid masters replicas me u dir r)).
  { cbn [app drop diskvd_loop diskvd_option no_options]. rewrite decide_True by done. cbn [mbind option_bind]. rewrite ParseInt_Itoa by done.
    cbn [fst]. rewrite diskvd_loop_masters, diskvd_loop_replicas. cbn -[ParseInt Itoa]. unfold Atoi. rewrite ParseInt_Itoa by done. by destruct u, r. }
  rewrite E. cbn [o_gid o_masters o_replicas o_me o_unreliable o_dir o_restart]. rewrite decide_False; [done|].
  destruct masters; [done|]. simpl. intros [?|[?|[?|[?|?]]]]; try lia; done.
Qed.

(** Numbers that cannot be read are taken for 0: this starts replica 0 of group 0. *)
Example diskvd_ignores_errors :
  diskvd ["diskvd"; "-g"; "one"; "-m"; "m0"; "-s"; "s0"; "-i"; "first"; "-d"; "/tmp"]
  = Diskvd 0 ["m0"] ["s0"] 0 "/tmp" false false.
Proof. reflexivity. Qed.
